(* ===== verification/_CoqProject ===== *)
-Q . S2P
Prelude.v
Hoare.v
Wire.v
Status.v
Lease.v
Os.v
Sample.v
Vfs.v
Handles.v
Health.v
Spnego.v
Crypto.v
Ntlm.v
Pac.v
Net.v
Config.v
Gss.v
Authz.v
Session.v
Smb2.v
Codec.v
Credits.v
State.v
Negotiate.v
Setup.v
Create.v
FileOps.v
Query.v
SetInfo.v
Dispatch.v
Confine.v
TreeSafe.v
SessionSafe.v
WorldSafe.v
Channel.v
AuthSound.v
Compound.v
DirPage.v
Locks.v
Keys.v
Appends.v
Uring.v
Reactor.v
ReactorSafe.v
Completions.v
Ring.v
Progress.v
Watches.v
Backend.v
Stream.v
Outbox.v
Sent.v
Boot.v
Fuzz.v
