(* ===== verification/Prelude.v ===== *)
(** * A verification of rocketsmbd

    rocketsmbd is an SMB2/3 file server. A worker thread per core receives
    NetBIOS-framed messages; [smb2::process_frame] decrypts, parses and
    dispatches them; the handlers of src/smb2/handlers.rs work on the state of
    the connection (channels, message-id window, credits), on the sessions
    shared by all connections (src/session.rs, with the handle tables of
    src/vfs.rs) and on the lease table (src/lease.rs), and reach the disk
    through src/vfs.rs. Authentication is NTLMv2 (src/ntlm.rs) or
    Kerberos through the GSSAPI library (src/krb5.rs), in SPNEGO
    (src/spnego.rs); who may use a share is decided by src/authz.rs from the
    configuration. src/main.rs reads the configuration, starts the workers and
    the health endpoint (src/health.rs).

    ** How the program is modelled

    Rust functions are Rocq functions of the same name where it is free. Bytes
    are integers in [0, 256), machine integers are [Z] with every cast and
    wrap-around written out ([wrap]), strings are lists of Unicode scalar
    values, hash maps are [gmap]s, parsers are a partial reader monad and code
    that mutates state runs in a state monad ([ST] of this file) whose results
    are a value, a panic or a loop that is still running ([stop]). One request
    runs under the lock of its session, so a request is one atomic step.

    System calls, the GSSAPI library, the operating system's random numbers,
    the Unicode case tables of the standard library and the cryptographic
    primitives are parameters: the class [Env] of Os.v. Backend.v builds an
    [Env] whose primitives are a back end's. Every system call goes through [do],
    which appends it with its answer to a trace; what the server did to the
    disk is a property of that trace. The laws used of the parameters are
    classes too ([CryptoLaws], [CryptoStreams], [OsLaws]); Sample.v gives an
    in-memory file system and toy primitives that satisfy them, on which the
    witnesses are evaluated.

    ** The files

    - Prelude.v: bytes, integers, strings, the state monad, shared lemmas.
    - Hoare.v: a program logic ([triple], [safe]) for the state monad.
    - Wire.v: src/wire.rs, the bounds-checked reader, the writers, UTF-16LE.
    - Status.v: src/status.rs. Lease.v: src/lease.rs.
    - Os.v, Sample.v: the outside world and an instance of it.
    - Vfs.v: the path resolution and file operations of src/vfs.rs.
    - Handles.v: open files and the handle table of src/vfs.rs.
    - Spnego.v, Crypto.v, Ntlm.v, Pac.v, Net.v, Config.v, Authz.v, Session.v:
      the files of src/ of those names.
    - Gss.v: src/krb5.rs, the Kerberos acceptor over the GSSAPI calls.
    - Health.v: src/health.rs, the replies to probes and the thread serving them.
    - Smb2.v: the data types, headers, signing, transforms and asynchronous
      messages of src/smb2/mod.rs. Codec.v: their theorems.
    - Credits.v: message ids and credits (src/smb2/handlers.rs).
    - State.v: the state a handler runs on (world, connection, compound chain,
      locked session, transmit buffer) and the helpers shared by handlers.
    - Negotiate.v, Setup.v, Create.v, FileOps.v, Query.v, SetInfo.v: the
      handlers. Dispatch.v: [dispatch], [process_plain] and [process_frame].
    - Confine.v, TreeSafe.v, SessionSafe.v, WorldSafe.v: confinement of the
      server to its shares, by layers: helpers, tree commands, one session,
      whole server histories.
    - Channel.v: what protects a request; AuthSound.v: who can log in.
    - Compound.v, DirPage.v, Locks.v: the compound loop, directory paging and
      lock batches. Keys.v: where a connection's keys come from. Appends.v:
      what a frame adds to the transmit buffer, and that keys stay derived.
    - Uring.v: the data of src/uring.rs (completion tags, connections,
      workers, submission queue entries, inotify events). Reactor.v: its
      completion handlers, the frame loop, sends, zero-copy reads, notify,
      accept and teardown, on the worker's state and the shared world.
    - ReactorSafe.v: the invariant that ties a connection to the entries the
      kernel holds for it, and its rules. Completions.v: each handler keeps
      it. Ring.v: the kernel's side, all workers together, reachable states.
    - Progress.v, Watches.v, Stream.v: three properties of those reachable
      states, on entries in flight, paths watched and bytes received.
      Outbox.v, Sent.v: what is sent, from queueing a message to the kernel
      taking its last byte.
    - Backend.v: src/crypto_rustcrypto.rs and src/crypto_openssl.rs.
    - Boot.v: src/main.rs, [Config::load] and the set-up functions of
      src/uring.rs, and the theorem about a whole run from the command line.
    - Fuzz.v: src/fuzzing.rs, the fuzz targets and their servers.

    ** What is proved

    Confinement: from an empty server, after any frames on any connections,
    no request panics and every path in the system-call trace is a share root
    extended with proper names; on a read-only tree nothing is changed, with
    the one exception SessionSafe.v names.
    Protection: a request acts on the world only over an established channel,
    sealed where the channel encrypts and signed where signing is required,
    with a message id never used before; replies to sealed requests are
    sealed. Reactor: in every state the workers and the kernel can reach, an
    entry the kernel holds points into buffers of a live connection, unchanged
    since they were submitted; in-flight counters are exact, so teardown waits
    for the kernel; no completion panics; a frame appends at most one
    well-framed message to the batch; the frames processed are the ones the
    client sent, in order, however the stream was cut; what the kernel takes
    from a connection, by sends cut short or splices from files, is the start
    of a sequence of whole messages that the connection still holds the rest
    of, provided a linked chain completes in order with its header whole (a
    short one tears the stream, as Sent.v shows); and the kernel always
    holds an entry that brings a worker back to each connection, to its
    listener and to its mailbox.
    Start-up: a run that reaches the workers has a configuration with the
    properties the other theorems assume, so a whole run from the command line
    does not panic and stays in its shares. Either cryptographic back end
    keeps the laws of the primitives, and no call to it panics in any state
    the server reaches. The health endpoint answers every
    probe, truthfully, and no fuzz target fails on any input.
    Authentication: a user's session exists only after a response that
    verifies under that user's hash and this server's challenge, or after the
    GSSAPI library accepted the principal's token during the request.
    Data structures: the handle table and the lease table refine finite maps;
    handle ids and AEAD nonces are not repeated; credits stay in their window.
    Codecs: UTF-16, SPNEGO, SIDs, response headers, signatures, transforms
    and interface lists round-trip. Loops: the compound loop terminates, the
    write loop delivers its buffer, directory pages resume exactly.

    ** Bounds

    The compound loop has fuel [MAX_COMPOUND + 1], which Compound.v proves to
    be enough. Loops that retry on the operating system's answer (EINTR,
    short writes, a random id already taken) have the fuel [retry] of [Env],
    an arbitrary number; running out is the result [Spin], distinct from
    every return value, and the theorems that promise a return say under which
    behaviour of the system it comes. The frame loop has the received bytes
    as its fuel and each frame takes at least four; running out would be a
    panic, so the reactor's theorems include that it does not happen. A run of
    the reactor is followed for [r_frames] frames, any number with
    129 * r_frames < 2^32, the bound of the tree ids. TLV lists and lease
    contexts have fuel the length of their input, which each iteration
    shortens. Theorems about histories carry the explicit bound of the counter involved (2^32
    operations of a handle table, 2^64 nonces).

    The kernel's write into a buffer is placed where its completion is
    handled, which no one can tell apart from an earlier moment: until then
    the worker does not look at the bytes the entry covers. Two fields are
    ghosts, read by no definition: [r_frames] counts frames, and [r_obs] with
    [y_obs] records what was received and processed. The submission
    queue is unbounded: [sq_push] submits when the ring is full.

    ** Not modelled

    The NTLM feature is taken to be on; [kerberos] of [Env] says whether the
    server is built with Kerberos. Freeing what the GSSAPI library allocated
    (buffers, credentials, the pending context of a dropped channel); logging;
    TOML decoding, which is third-party code and a parameter of Boot.v and
    Fuzz.v; the cryptographic libraries, which are the parameters [CryptoLibs]
    of Backend.v; the interleaving of the threads while they set themselves up; and a worker
    that stops because the ring refused a submission. *)
From Stdlib Require Export ZArith Lia.
From stdpp Require Export strings.
From stdpp Require Export base option numbers tactics gmap list.

Set Default Goal Selector "!".
Local Open Scope Z_scope.

(** ** Bytes, strings and machine integers *)

(** A byte is a [Z] in [0, 256); a Rust [String] is its list of Unicode
    scalar values. *)
Abbreviation bytes := (list Z).
Abbreviation str := (list Z).

(** [len b] is Rust's [b.len()] of a slice or [Vec]. *)
Abbreviation len b := (Z.of_nat (length b)).

Definition is_byte (b : Z) : Prop := 0 ≤ b < 256.
#[global] Instance is_byte_dec b : Decision (is_byte b) := _.

(** ASCII literals, for byte strings ([b"..."]) and [str] literals. *)
Definition lit (s : string) : list Z :=
  (λ a, Z.of_N (Ascii.N_of_ascii a)) <$> String.list_ascii_of_string s.

(** [v mod 2^w]: an [as uN] cast or wrapping arithmetic. *)
Definition wrap (w : Z) (v : Z) : Z := v mod 2 ^ w.

Definition U16_MAX : Z := 2 ^ 16 - 1.
Definition U32_MAX : Z := 2 ^ 32 - 1.
Definition U64_MAX : Z := 2 ^ 64 - 1.
Definition I64_MAX : Z := 2 ^ 63 - 1.

(** [uN::to_le_bytes] on [n] bytes, and [uN::from_le_bytes]. *)
Fixpoint le_bytes (n : nat) (v : Z) : bytes :=
  match n with
  | O => []
  | S n => v mod 256 :: le_bytes n (v / 256)
  end.

Fixpoint le_val (b : bytes) : Z :=
  match b with
  | [] => 0
  | x :: b => x + 256 * le_val b
  end.

Lemma length_le_bytes n v : length (le_bytes n v) = n.
Proof. revert v. induction n; intros; simpl; auto. Qed.

Lemma le_bytes_is_byte n v : Forall is_byte (le_bytes n v).
Proof.
  revert v. induction n; intros v; simpl; constructor; auto.
  unfold is_byte. apply Z.mod_pos_bound; lia.
Qed.

Lemma le_val_le_bytes_mod n v : le_val (le_bytes n v) = v mod 2 ^ (8 * Z.of_nat n).
Proof.
  revert v. induction n as [|n IH]; intros v; simpl le_bytes; simpl le_val.
  - by rewrite Z.mod_1_r.
  - rewrite IH. replace (8 * Z.of_nat (S n)) with (8 + 8 * Z.of_nat n) by lia.
    rewrite Z.pow_add_r by lia. change (2 ^ 8) with 256.
    rewrite Z.rem_mul_r; [lia..|]. pose proof (Z.pow_pos_nonneg 2 (8 * Z.of_nat n)); lia.
Qed.

Lemma le_val_le_bytes n v : 0 ≤ v < 2 ^ (8 * Z.of_nat n) → le_val (le_bytes n v) = v.
Proof. intros. rewrite le_val_le_bytes_mod. by apply Z.mod_small. Qed.

Lemma le_val_bound b : Forall is_byte b → 0 ≤ le_val b < 2 ^ (8 * len b).
Proof.
  induction 1 as [|x b Hx _ IH]; simpl le_val; [by cbn|].
  replace (8 * len (x :: b)) with (8 + 8 * len b) by (simpl length; lia).
  rewrite Z.pow_add_r by lia. change (2 ^ 8) with 256. unfold is_byte in Hx. nia.
Qed.

Lemma le_bytes_le_val b : Forall is_byte b → le_bytes (length b) (le_val b) = b.
Proof.
  induction 1 as [|x b Hx _ IH]; simpl; [done|]. unfold is_byte in Hx.
  f_equal.
  - rewrite (Z.mul_comm 256), Z.mod_add by lia. by apply Z.mod_small.
  - rewrite (Z.mul_comm 256), Z.div_add, Z.div_small by lia. by rewrite Z.add_0_l.
Qed.

Lemma le_bytes_inj n v w :
  0 ≤ v < 2 ^ (8 * Z.of_nat n) → 0 ≤ w < 2 ^ (8 * Z.of_nat n) →
  le_bytes n v = le_bytes n w → v = w.
Proof. intros Hv Hw E. rewrite <-(le_val_le_bytes n v), <-(le_val_le_bytes n w), E; auto. Qed.

#[global] Arguments le_bytes : simpl never.
#[global] Arguments le_val : simpl never.

(** Big-endian, for the SP800-108 KDF. *)
Definition be_bytes (n : nat) (v : Z) : bytes := reverse (le_bytes n v).

(** ** Slices *)

(** [b.get(lo..hi)]. *)
Definition slice (b : bytes) (lo hi : Z) : option bytes :=
  if (0 <=? lo) && (lo <=? hi) && (hi <=? len b)
  then Some (take (Z.to_nat (hi - lo)) (drop (Z.to_nat lo) b))
  else None.

(** [b.get(lo..)]. *)
Definition slice_from (b : bytes) (lo : Z) : option bytes := slice b lo (len b).

(** [b[lo..hi]] where the code has established the bounds: the total version,
    equal to [slice] in range ([slice_sub]). *)
Definition sub (b : bytes) (lo hi : Z) : bytes :=
  take (Z.to_nat (hi - lo)) (drop (Z.to_nat lo) b).

(** [b[off..off + n.len()].copy_from_slice(n)]. *)
Definition patch (b : bytes) (off : Z) (n : bytes) : bytes :=
  take (Z.to_nat off) b ++ n ++ drop (Z.to_nat off + length n) b.

Lemma slice_sub b lo hi : 0 ≤ lo ≤ hi → hi ≤ len b → slice b lo hi = Some (sub b lo hi).
Proof.
  intros [??] ?. unfold slice.
  by rewrite (proj2 (Z.leb_le 0 lo)), (proj2 (Z.leb_le lo hi)), (proj2 (Z.leb_le hi (len b))) by lia.
Qed.

Lemma slice_Some b lo hi s :
  slice b lo hi = Some s → 0 ≤ lo ≤ hi ∧ hi ≤ len b ∧ s = sub b lo hi ∧ len s = hi - lo.
Proof.
  unfold slice, sub. destruct (_ && _) eqn:E; intros; simplify_eq.
  apply andb_prop in E as [[E1 E2]%andb_prop E3].
  apply Z.leb_le in E1, E2, E3. repeat split; auto.
  rewrite length_take, length_drop. lia.
Qed.

Lemma slice_at b pre s post lo hi :
  b = pre ++ s ++ post → lo = len pre → hi = lo + len s → slice b lo hi = Some s.
Proof.
  intros -> -> ->. rewrite slice_sub by (rewrite ?length_app; lia).
  unfold sub. f_equal. replace (len pre + len s - len pre) with (len s) by lia.
  rewrite !Nat2Z.id. rewrite drop_app_length, take_app_length. done.
Qed.

Lemma length_patch b off n :
  0 ≤ off → off + len n ≤ len b → length (patch b off n) = length b.
Proof. intros. unfold patch. rewrite !length_app, length_take, length_drop. lia. Qed.

Lemma patch_app pre old post n :
  length old = length n → patch (pre ++ old ++ post) (len pre) n = pre ++ n ++ post.
Proof.
  intros E. unfold patch. rewrite Nat2Z.id, take_app_length.
  by rewrite <-E, (app_assoc pre old post), <-length_app, drop_app_length.
Qed.

(** Bytes stay bytes under the slice operations. *)
Lemma Forall_sub P b lo hi : Forall P b → Forall P (sub b lo hi).
Proof. intros. unfold sub. by apply Forall_take, Forall_drop. Qed.

Lemma Forall_patch P b off n : Forall P b → Forall P n → Forall P (patch b off n).
Proof.
  intros. unfold patch. rewrite !Forall_app.
  split_and!; auto using Forall_take, Forall_drop.
Qed.

Lemma Forall_zeros n : Forall is_byte (replicate n 0).
Proof. apply Forall_replicate. unfold is_byte; lia. Qed.

(** ** Errors *)

(** Rust's [Result]. *)
Inductive result (A E : Type) : Type :=
| Ok (a : A)
| Err (e : E).
Arguments Ok {A E} a.
Arguments Err {A E} e.

Definition result_ok {A E} (r : result A E) : option A :=
  match r with Ok a => Some a | Err _ => None end.

Definition result_map_err {A E F} (f : E → F) (r : result A E) : result A F :=
  match r with Ok a => Ok a | Err e => Err (f e) end.

#[global] Instance result_bind E : MBind (λ A, result A E) := λ A B f r,
  match r with Ok a => f a | Err e => Err e end.
#[global] Instance result_ret E : MRet (λ A, result A E) := λ A a, Ok a.

(** ** Booleans and bits *)

Definition has_bits (v mask : Z) : bool := negb (Z.land v mask =? 0).

Lemma land_lt a b n : 0 ≤ a < 2 ^ n → 0 ≤ b → 0 ≤ n → 0 ≤ Z.land a b < 2 ^ n.
Proof.
  intros [??] ? ?. split; [apply Z.land_nonneg; auto|].
  assert (Z.land a b ≤ a); [|lia].
  apply Z.ldiff_le; [auto|]. apply Z.bits_inj'; intros k ?.
  rewrite Z.ldiff_spec, Z.land_spec, Z.bits_0. by destruct (Z.testbit a k), (Z.testbit b k).
Qed.

(** A value is its high part shifted back, joined with its low [k] bits. *)
Lemma lor_high_low v k :
  0 ≤ k → Z.lor (Z.shiftl (Z.shiftr v k) k) (Z.land v (Z.ones k)) = v.
Proof.
  intros Hk. apply Z.bits_inj'. intros n Hn.
  rewrite Z.lor_spec, Z.shiftl_spec, Z.land_spec by lia. destruct (Z.ltb_spec n k).
  - rewrite Z.testbit_neg_r, Z.ones_spec_low, andb_true_r by lia. done.
  - rewrite Z.shiftr_spec, Z.ones_spec_high, andb_false_r, orb_false_r by lia.
    f_equal; lia.
Qed.

(** ** Strings *)
Definition ascii_lower (c : Z) : Z := if (65 <=? c) && (c <=? 90) then c + 32 else c.
Definition ascii_upper (c : Z) : Z := if (97 <=? c) && (c <=? 122) then c - 32 else c.

(** [str::eq_ignore_ascii_case]. *)
Definition eq_ignore_case (a b : str) : bool :=
  bool_decide (ascii_lower <$> a = ascii_lower <$> b).

(** [s.split(p)]: always at least one (possibly empty) component. *)
Fixpoint split_on (p : Z → bool) (s : str) : list str :=
  match s with
  | [] => [[]]
  | c :: r =>
      if p c then [] :: split_on p r
      else match split_on p r with
           | h :: t => (c :: h) :: t
           | [] => [[c]]
           end
  end.

(** [s.split_once(c)]: around the first occurrence. *)
Fixpoint split_once (c : Z) (s : str) : option (str * str) :=
  match s with
  | [] => None
  | x :: r =>
      if x =? c then Some ([], r)
      else match split_once c r with Some (a, b) => Some (x :: a, b) | None => None end
  end.

(** [s.rsplit_once(c)]: around the last occurrence. *)
Definition rsplit_once (c : Z) (s : str) : option (str * str) :=
  match split_once c (reverse s) with Some (a, b) => Some (reverse b, reverse a) | None => None end.

(** [char::is_whitespace] (Unicode White_Space) and [str::trim]. *)
Definition is_whitespace (c : Z) : bool :=
  ((9 <=? c) && (c <=? 13)) || ((0x2000 <=? c) && (c <=? 0x200A)) ||
  bool_decide (c ∈ [0x20; 0x85; 0xA0; 0x1680; 0x2028; 0x2029; 0x202F; 0x205F; 0x3000]).
Fixpoint trim_start (s : str) : str :=
  match s with
  | [] => []
  | c :: r => if is_whitespace c then trim_start r else s
  end.
Definition trim (s : str) : str := reverse (trim_start (reverse (trim_start s))).

(** [str::len]: bytes of the UTF-8 encoding. *)
Definition utf8_width (c : Z) : Z :=
  if c <? 0x80 then 1 else if c <? 0x800 then 2 else if c <? 0x10000 then 3 else 4.
Definition utf8_len (s : str) : Z := foldr (λ c n, utf8_width c + n) 0 s.

(** [s.strip_prefix(c)]. *)
Definition strip_prefix (c : Z) (s : str) : option str :=
  match s with x :: r => if x =? c then Some r else None | [] => None end.

(** [s.parse::<uN>()]: an optional [+], then decimal digits, at most [max]. *)
Definition is_digit (c : Z) : bool := (48 <=? c) && (c <=? 57).
Definition dec_val (s : str) : Z := foldl (λ v c, v * 10 + (c - 48)) 0 s.
Definition parse_uint (max : Z) (s : str) : option Z :=
  let d := default s (strip_prefix 43 s) in
  match d with
  | [] => None
  | _ => if forallb is_digit d && (dec_val d <=? max) then Some (dec_val d) else None
  end.

(** Decimal [Display] of an unsigned integer below 10^20 (every [u64]). *)
Fixpoint dec_digits (fuel : nat) (n : Z) (acc : str) : str :=
  match fuel with
  | O => acc
  | S fuel =>
      let acc := 48 + n mod 10 :: acc in
      if n <? 10 then acc else dec_digits fuel (n / 10) acc
  end.
Definition show_uint (n : Z) : str := dec_digits 20 n [].

Lemma split_on_not_nil p s : split_on p s ≠ [].
Proof. destruct s as [|c r]; simpl; [done|]. destruct (p c); [done|]. by destruct (split_on p r). Qed.

Lemma split_on_no_sep p s : Forall (λ w, Forall (λ c, p c = false) w) (split_on p s).
Proof.
  induction s as [|c r IH]; simpl; [repeat constructor|].
  destruct (p c) eqn:E; [by repeat constructor|].
  destruct (split_on p r) as [|h t]; [by repeat constructor|].
  apply Forall_cons in IH as [Hh Ht]. by repeat constructor.
Qed.

Lemma split_on_app p w c r :
  Forall (λ c, p c = false) w → p c = true → split_on p (w ++ c :: r) = w :: split_on p r.
Proof.
  induction 1 as [|x w Hx _ IH]; intros Hc; simpl; [by rewrite Hc|].
  rewrite Hx, IH by done. done.
Qed.

Lemma split_on_word p w : Forall (λ c, p c = false) w → split_on p w = [w].
Proof. induction 1 as [|x w Hx _ IH]; simpl; [done|]. by rewrite Hx, IH. Qed.

Lemma dec_digits_spec fuel : ∀ n acc,
  0 ≤ n < 10 ^ Z.of_nat fuel →
  ∃ d, dec_digits fuel n acc = d ++ acc ∧ (d ≠ [] ∨ fuel = O) ∧
       Forall (λ c, 48 ≤ c ≤ 57) d ∧ dec_val d = n.
Proof.
  induction fuel as [|fuel IH]; intros n acc Hn.
  - exists []. split_and!; [done|by right|constructor|]. change (dec_val []) with 0. lia.
  - cbn [dec_digits]. pose proof (Z.mod_pos_bound n 10 ltac:(lia)).
    destruct (Z.ltb_spec n 10).
    + exists [48 + n mod 10]. split_and!; [done|by left|repeat constructor; lia|].
      unfold dec_val; simpl. rewrite Z.mod_small by lia. lia.
    + destruct (IH (n / 10) (48 + n mod 10 :: acc)) as (d & -> & _ & Hf & Hv).
      { rewrite Nat2Z.inj_succ, Z.pow_succ_r in Hn by lia.
        split; [apply Z.div_pos; lia|apply Z.div_lt_upper_bound; lia]. }
      exists (d ++ [48 + n mod 10]). rewrite <-app_assoc.
      split_and!; [done|left; by destruct d|apply Forall_app; split; [done|repeat constructor; lia]|].
      unfold dec_val in *. rewrite foldl_app. simpl. rewrite Hv.
      pose proof (Z.div_mod n 10). lia.
Qed.

(** Printing and parsing back a number that fits. *)
Lemma parse_show_uint max n :
  0 ≤ n ≤ max → n < 10 ^ 20 → parse_uint max (show_uint n) = Some n.
Proof.
  intros Hn Hb. unfold show_uint.
  destruct (dec_digits_spec 20 n []) as (d & -> & Hne & Hf & Hv); [lia|].
  destruct Hne as [Hne|]; [|done]. rewrite app_nil_r.
  destruct Hf as [|c d Hc Hf]; [done|]. unfold parse_uint.
  assert (forallb is_digit (c :: d) = true) as Hd.
  { apply forallb_forall. intros x Hx%list_elem_of_In. unfold is_digit.
    assert (48 ≤ x ≤ 57); [|rewrite andb_true_iff, !Z.leb_le; lia].
    apply elem_of_cons in Hx as [->|Hx]; [done|]. by apply (proj1 (Forall_forall _ d) Hf). }
  assert ((dec_val (c :: d) <=? max) = true) as Hm by (apply Z.leb_le; lia).
  cbn [strip_prefix]. destruct (Z.eqb_spec c 43) as [->|]; [lia|].
  cbn [default from_option]. by rewrite Hd, Hm, Hv.
Qed.

Lemma show_uint_no_sep n c : 0 ≤ n < 10 ^ 20 → c < 48 ∨ 57 < c → c ∉ show_uint n.
Proof.
  intros Hn Hc Hin. unfold show_uint in Hin.
  destruct (dec_digits_spec 20 n []) as (d & E & _ & Hf & _); [lia|].
  rewrite E, app_nil_r in Hin. rewrite Forall_forall in Hf. apply Hf in Hin. lia.
Qed.

Lemma parse_uint_bound max s v : parse_uint max s = Some v → 0 ≤ v ≤ max.
Proof.
  unfold parse_uint. set (d := default s (strip_prefix 43 s)). clearbody d.
  destruct d as [|x d]; [done|]. destruct (forallb _ _) eqn:Hd; [|done].
  destruct (Z.leb_spec (dec_val (x :: d)) max); simpl; [|done]. intros [= <-].
  split; [|done]. rewrite forallb_forall in Hd. unfold dec_val.
  assert (∀ l a, 0 ≤ a → (∀ y, y ∈ l → is_digit y = true) →
    0 ≤ foldl (λ v c, v * 10 + (c - 48)) a l) as Hg.
  { induction l as [|y l IH]; intros a Ha Hl; simpl; [done|]. apply IH; [|set_solver].
    specialize (Hl y ltac:(set_solver)). unfold is_digit in Hl.
    apply andb_prop in Hl as [?%Z.leb_le ?%Z.leb_le]. lia. }
  apply Hg; [done|]. intros y Hy. apply Hd. by apply list_elem_of_In.
Qed.

(** ** A state monad with stops

    Handlers and the filesystem layer are computations over a state. A
    computation returns a value, or stops: [Spin] is a retry loop that has
    used its fuel (the code is still looping), [Panic] is a Rust panic. The
    state reached is kept in all cases, so that safety properties cover
    executions that do not return. *)
Inductive stop : Type := Spin | Panic.

Definition ST (S A : Type) : Type := S → (A + stop) * S.

#[global] Instance ST_ret S : MRet (ST S) := λ A a s, (inl a, s).
#[global] Instance ST_bind S : MBind (ST S) := λ A B k m s,
  match m s with
  | (inl a, s') => k a s'
  | (inr e, s') => (inr e, s')
  end.

Definition halt {S A} (e : stop) : ST S A := λ s, (inr e, s).
Definition gets {S A} (f : S → A) : ST S A := λ s, (inl (f s), s).
Definition modify {S} (f : S → S) : ST S unit := λ s, (inl tt, f s).

Notation "m ;; k" := (mbind (λ _, k) m)
  (at level 100, right associativity, only parsing) : stdpp_scope.

(** Running [m] over a component of the state. *)
Definition zoom {S T A} (get : S → T) (put : T → S → S) (m : ST T A) : ST S A := λ s,
  let '(r, t) := m (get s) in (r, put t s).

(** [for x in l { body x }]. *)
Fixpoint for_each {S A} (l : list A) (body : A → ST S unit) : ST S unit :=
  match l with
  | [] => mret tt
  | x :: l => body x ;; for_each l body
  end.

(** ** Stepwise relations

    [respects R m]: the state only moves along [R] while [m] runs, whatever
    [m] returns and even if it stops. *)
Definition respects {S A} (R : S → S → Prop) (m : ST S A) : Prop :=
  ∀ s, R s (m s).2.

Section respects.
Context {S : Type} (R : S → S → Prop) `{!PreOrder R}.

Lemma respects_ret {A} (a : A) : respects R (mret a).
Proof. intros s. reflexivity. Qed.

Lemma respects_halt {A} e : respects R (halt (A:=A) e).
Proof. intros s. reflexivity. Qed.

Lemma respects_gets {A} (f : S → A) : respects R (gets f).
Proof. intros s. reflexivity. Qed.

Lemma respects_modify f : (∀ s, R s (f s)) → respects R (modify f).
Proof. intros H s. apply H. Qed.

Lemma respects_bind {A B} (m : ST S A) (k : A → ST S B) :
  respects R m → (∀ a, respects R (k a)) → respects R (m ≫= k).
Proof.
  intros Hm Hk s. unfold mbind, ST_bind.
  specialize (Hm s). destruct (m s) as [[a|e] s']; simpl in *; [|done].
  etrans; [exact Hm|apply Hk].
Qed.

(** The continuation may use what the first computation returned. *)
Lemma respects_bind_gets {A B} (f : S → A) (k : A → ST S B) :
  (∀ s, R s (k (f s) s).2) → respects R (gets f ≫= k).
Proof. intros H s. apply H. Qed.

Lemma respects_for_each {A} (l : list A) (body : A → ST S unit) :
  (∀ x, x ∈ l → respects R (body x)) → respects R (for_each l body).
Proof.
  induction l as [|x l IH]; intros H; simpl; [apply respects_ret|].
  apply respects_bind; [apply H; left|]. intros _. apply IH. intros. apply H. by right.
Qed.
End respects.

Lemma respects_zoom {S T A} (R : S → S → Prop) (Q : T → T → Prop)
    (get : S → T) (put : T → S → S) (m : ST T A) :
  (∀ s t, Q (get s) t → R s (put t s)) → respects Q m → respects R (zoom get put m).
Proof.
  intros H Hm s. unfold zoom. specialize (Hm (get s)).
  destruct (m (get s)) as [r t]; simpl in *. by apply H.
Qed.

Create HintDb respects.
#[export] Hint Resolve respects_ret respects_halt respects_gets respects_modify : respects.

(** Decompose a [respects] goal along the structure of the program. *)
Ltac respects_step :=
  match goal with
  | |- respects _ (mbind _ _) => apply respects_bind; [|intros ?]
  | |- respects _ (mret _) => apply respects_ret
  | |- respects _ (halt _) => apply respects_halt
  | |- respects _ (gets _) => apply respects_gets
  | |- respects _ (for_each _ _) => apply respects_for_each; intros ? ?
  | |- respects _ (match ?x with _ => _ end) => destruct x eqn:?
  | |- respects _ (let '(_, _) := ?x in _) => destruct x eqn:?
  end.

Ltac respects_auto := repeat (respects_step || (progress eauto with respects)).

(** ** Pairs and options *)

(** To evaluate a run only up to its result, leaving the final state alone. *)
Lemma fst_eq_pair {A B} (x : A * B) a : x.1 = a → x = (a, x.2).
Proof. by destruct x; simpl; intros ->. Qed.

Ltac bind_inv H :=
  repeat match type of H with
  | mbind _ ?m = Some _ =>
      let x := fresh "v" in let E := fresh "E" in
      destruct m as [x|] eqn:E; [cbn [mbind option_bind] in H|discriminate H]
  end.
