(* ===== verification/Hoare.v ===== *)
(** A program logic for the state monad.

    [triple P m Q E]: from a state satisfying [P], [m] does not panic; if it
    returns, its value and state satisfy [Q]; if it is still looping, the
    state satisfies [E]. [safe I m Q] is the special case of an invariant. *)
From S2P Require Import Prelude.

Section hoare.
Context {S : Type}.

Definition triple {A} (P : S → Prop) (m : ST S A) (Q : A → S → Prop) (E : S → Prop) : Prop :=
  ∀ s, P s →
    match m s with
    | (inl a, s') => Q a s'
    | (inr e, s') => e ≠ Panic ∧ E s'
    end.

Definition safe {A} (I : S → Prop) (m : ST S A) (Q : A → Prop) : Prop :=
  triple I m (λ a s, I s ∧ Q a) I.

Lemma triple_conseq {A} (P P' E E' : S → Prop) (Q Q' : A → S → Prop) (m : ST S A) :
  triple P m Q E → (∀ s, P' s → P s) → (∀ a s, Q a s → Q' a s) → (∀ s, E s → E' s) →
  triple P' m Q' E'.
Proof.
  intros Hm HP HQ HE s Hs. specialize (Hm s (HP _ Hs)). destruct (m s) as [[a|e] s']; naive_solver.
Qed.

Lemma triple_bind {A B} P (m : ST S A) (k : A → ST S B) R Q E :
  triple P m R E → (∀ a, triple (R a) (k a) Q E) → triple P (m ≫= k) Q E.
Proof.
  intros Hm Hk s Hs. unfold mbind, ST_bind. specialize (Hm s Hs).
  destruct (m s) as [[a|e] s']; [|done]. by apply Hk.
Qed.

Lemma triple_ret {A} (P : S → Prop) (a : A) Q E : (∀ s, P s → Q a s) → triple P (mret a) Q E.
Proof. intros HQ s Hs. by apply HQ. Qed.

Lemma triple_gets {A} (P : S → Prop) (f : S → A) Q E : (∀ s, P s → Q (f s) s) → triple P (gets f) Q E.
Proof. intros HQ s Hs. by apply HQ. Qed.

Lemma triple_modify (P : S → Prop) (f : S → S) Q E : (∀ s, P s → Q tt (f s)) → triple P (modify f) Q E.
Proof. intros HQ s Hs. by apply HQ. Qed.

(** Reading the state and then running a continuation that may use it. *)
Lemma triple_bind_gets {A B} (P : S → Prop) (f : S → A) (k : A → ST S B) Q E :
  (∀ s0, P s0 → triple (λ s, s = s0) (k (f s0)) Q E) → triple P (gets f ≫= k) Q E.
Proof. intros Hk s Hs. by apply (Hk s Hs). Qed.

(** A precondition that is used up: it may be strengthened by what it says. *)
Lemma triple_pre {A} (P : S → Prop) (φ : Prop) (m : ST S A) Q E :
  (∀ s, P s → φ) → (φ → triple P m Q E) → triple P m Q E.
Proof. intros H Hm s Hs. by apply Hm; eauto. Qed.

Lemma triple_safe {A} I (m : ST S A) (Q : A → Prop) P Q' E :
  safe I m Q → (∀ s, P s → I s) → (∀ a s, I s → Q a → Q' a s) → (∀ s, I s → E s) →
  triple P m Q' E.
Proof. intros Hm ???. eapply triple_conseq; [exact Hm|done|naive_solver|done]. Qed.

(** Running an update on a known state. *)
Lemma triple_bind_modify {B} (s0 : S) (f : S → S) (k : ST S B) Q E :
  triple (λ s, s = f s0) k Q E → triple (λ s, s = s0) (modify f ;; k) Q E.
Proof. intros Hk s ->. by apply Hk. Qed.

(** An invariant-preserving step, and then the rest. *)
Lemma triple_safe_bind {A B} I (m : ST S A) (k : A → ST S B) (R : A → Prop) Q (E : S → Prop) :
  safe I m R → (∀ s, I s → E s) → (∀ a, R a → triple I (k a) Q E) → triple I (m ≫= k) Q E.
Proof.
  intros Hm HE Hk. eapply triple_bind.
  - eapply triple_conseq; [exact Hm|done| |exact HE]. intros a s Ha. exact Ha.
  - intros a s [Hs Ha]. by apply (Hk a Ha).
Qed.

(** A loop whose invariant depends on what is left to do. *)
Lemma triple_for_each {A} (J : list A → S → Prop) (E : S → Prop) (body : A → ST S unit) l :
  (∀ x l, triple (J (x :: l)) (body x) (λ _, J l) E) →
  triple (J l) (for_each l body) (λ _, J []) E.
Proof.
  intros Hb. induction l as [|y k IH]; simpl; [by apply triple_ret|].
  eapply triple_bind; [apply Hb|]. intros ?. exact IH.
Qed.

(** ** Invariants *)
Context (I : S → Prop).

Lemma safe_ret {A} (a : A) (Q : A → Prop) : Q a → safe I (mret a) Q.
Proof. intros. by apply triple_ret. Qed.

Lemma safe_halt {A} (Q : A → Prop) : safe I (halt Spin) Q.
Proof. intros s Hs. by split. Qed.

Lemma safe_gets {A} (f : S → A) (Q : A → Prop) : (∀ s, I s → Q (f s)) → safe I (gets f) Q.
Proof. intros. apply triple_gets. auto. Qed.

Lemma safe_modify (f : S → S) : (∀ s, I s → I (f s)) → safe I (modify f) (λ _, True).
Proof. intros. apply triple_modify. auto. Qed.

Lemma safe_weaken {A} (m : ST S A) (Q Q' : A → Prop) : safe I m Q → (∀ a, Q a → Q' a) → safe I m Q'.
Proof. intros. eapply triple_conseq; [done|naive_solver..]. Qed.

Lemma safe_any {A} (m : ST S A) (Q : A → Prop) : safe I m Q → safe I m (λ _, True).
Proof. intros. by eapply safe_weaken. Qed.

Lemma safe_bind {A B} (m : ST S A) (k : A → ST S B) (R : A → Prop) (Q : B → Prop) :
  safe I m R → (∀ a, R a → safe I (k a) Q) → safe I (m ≫= k) Q.
Proof.
  intros Hm Hk. eapply triple_bind; [exact Hm|]. intros a s [Hs Ha]. by apply (Hk a Ha).
Qed.

Lemma safe_seq {A B} (m : ST S A) (k : ST S B) (Q : B → Prop) :
  safe I m (λ _, True) → safe I k Q → safe I (m ;; k) Q.
Proof. intros. by eapply safe_bind. Qed.

Lemma safe_for_each {A} (l : list A) (body : A → ST S unit) :
  (∀ x, x ∈ l → safe I (body x) (λ _, True)) → safe I (for_each l body) (λ _, True).
Proof.
  induction l as [|x l IH]; intros Hb; simpl; [by apply safe_ret|].
  apply safe_seq; [apply Hb; by left|]. apply IH. intros. apply Hb. by right.
Qed.
End hoare.

(** A computation that returns, taken apart. *)
Lemma bind_returns {S A B} (m : ST S A) (k : A → ST S B) s b s' :
  (m ≫= k) s = (inl b, s') → ∃ a s1, m s = (inl a, s1) ∧ k a s1 = (inl b, s').
Proof. unfold mbind, ST_bind. destruct (m s) as [[a|e] s1]; [|done]. intros E. by exists a, s1. Qed.

(** Running on a component of the state. *)
Lemma safe_zoom {S T A} (I : S → Prop) (get : S → T) (put : T → S → S) (J : T → Prop)
    (m : ST T A) (Q : A → Prop) :
  (∀ s, I s → J (get s)) → (∀ s t, I s → J t → I (put t s)) →
  safe J m Q → safe I (zoom get put m) Q.
Proof.
  intros Hg Hp Hm s Hs. unfold zoom. specialize (Hm _ (Hg _ Hs)).
  destruct (m (get s)) as [[a|e] t]; naive_solver.
Qed.

(** Structural decomposition of a [safe] goal; facts known of an intermediate
    result come from the lemma registered for it in the hint database. *)
Create HintDb safe.
#[export] Hint Resolve safe_halt : safe.

Ltac safe_step :=
  match goal with
  | |- safe _ (mret _) _ => apply safe_ret
  | |- safe _ (halt _) _ => apply safe_halt
  | |- safe _ (mbind (λ _, ?k) _) _ => apply safe_seq
  | |- safe _ (mbind _ (gets _)) _ =>
      eapply safe_bind; [apply safe_gets; intros ? ?; exact Logic.I|intros ? _]
  | |- safe _ (mbind _ _) _ => eapply safe_bind; [eauto with safe|intros ? ?]
  | |- safe _ (for_each _ _) _ => apply safe_for_each; intros ? ?
  | |- safe _ (let '(_, _) := ?x in _) _ => destruct x eqn:?
  | |- safe _ (match ?x with _ => _ end) _ => destruct x eqn:?
  end.

Ltac safe_auto := repeat first [progress eauto with safe | safe_step].

(** ** Invariants that survive a panic

    [keeps I m Q]: [I] holds whenever [m] stops, however it stops; what it
    returns satisfies [Q]. *)
Definition keeps {S A} (I : S → Prop) (m : ST S A) (Q : A → Prop) : Prop :=
  ∀ s, I s → match m s with (inl a, s') => I s' ∧ Q a | (inr _, s') => I s' end.

Section keeps.
Context {S : Type} (I : S → Prop).

Lemma keeps_ret {A} (a : A) (Q : A → Prop) : Q a → keeps I (mret a) Q.
Proof. by intros ? s Hs. Qed.

Lemma keeps_halt {A} e (Q : A → Prop) : keeps I (halt e) Q.
Proof. by intros s Hs. Qed.

Lemma keeps_gets {A} (f : S → A) (Q : A → Prop) : (∀ s, I s → Q (f s)) → keeps I (gets f) Q.
Proof. intros H s Hs. by split; [|apply H]. Qed.

Lemma keeps_modify (f : S → S) : (∀ s, I s → I (f s)) → keeps I (modify f) (λ _, True).
Proof. intros H s Hs. by split; [apply H|]. Qed.

Lemma keeps_weaken {A} (m : ST S A) (Q Q' : A → Prop) : keeps I m Q → (∀ a, Q a → Q' a) → keeps I m Q'.
Proof. intros Hm HQ s Hs. specialize (Hm s Hs). destruct (m s) as [[a|e] s']; naive_solver. Qed.

Lemma keeps_bind {A B} (m : ST S A) (k : A → ST S B) (R : A → Prop) (Q : B → Prop) :
  keeps I m R → (∀ a, R a → keeps I (k a) Q) → keeps I (m ≫= k) Q.
Proof.
  intros Hm Hk s Hs. unfold mbind, ST_bind. specialize (Hm s Hs).
  destruct (m s) as [[a|e] s']; [|done]. destruct Hm as [Hs' Ha]. by apply (Hk a Ha).
Qed.

Lemma keeps_seq {A B} (m : ST S A) (k : ST S B) (Q : B → Prop) :
  keeps I m (λ _, True) → keeps I k Q → keeps I (m ;; k) Q.
Proof. intros. by eapply keeps_bind. Qed.

Lemma keeps_for_each {A} (l : list A) (body : A → ST S unit) :
  (∀ x, x ∈ l → keeps I (body x) (λ _, True)) → keeps I (for_each l body) (λ _, True).
Proof.
  induction l as [|x l IH]; intros Hb; simpl; [by apply keeps_ret|].
  apply keeps_seq; [apply Hb; by left|]. apply IH. intros. apply Hb. by right.
Qed.
End keeps.

Create HintDb keeps discriminated.
#[export] Hint Constants Opaque : keeps.
#[export] Hint Resolve keeps_halt : keeps.

Ltac keeps_step :=
  match goal with
  | |- keeps _ (mret _) _ => apply keeps_ret; exact Logic.I
  | |- keeps _ (halt _) _ => apply keeps_halt
  | |- keeps _ (gets _) _ => apply keeps_gets; intros ? ?; exact Logic.I
  | |- keeps _ (mbind (λ _, ?k) _) _ => apply keeps_seq
  | |- keeps _ (mbind _ _) _ => eapply (keeps_bind _ _ _ (λ _, True)); [|intros ? _]
  | |- keeps _ (for_each _ _) _ => apply keeps_for_each; intros ? ?
  | |- keeps _ (let '(_, _) := ?x in _) _ => destruct x eqn:?
  | |- keeps _ (match ?x with _ => _ end) _ => destruct x eqn:?
  end.

Ltac keeps_auto := repeat first [solve [eauto 2 with keeps] | keeps_step].

(** ** Partial correctness

    [yields I m Q]: if [m] returns, [I] still holds and the result satisfies
    [Q]; nothing is said of a run that stops otherwise. *)
Definition yields {S A} (I : S → Prop) (m : ST S A) (Q : A → Prop) : Prop :=
  ∀ s a s', I s → m s = (inl a, s') → I s' ∧ Q a.

Section yields.
Context {S : Type} (I : S → Prop).

Lemma yields_ret {A} (a : A) (Q : A → Prop) : Q a → yields I (mret a) Q.
Proof. by intros ? s b s' Hs [= <- <-]. Qed.

Lemma yields_halt {A} e (Q : A → Prop) : yields I (halt e) Q.
Proof. by intros s b s' Hs. Qed.

Lemma yields_gets {A} (f : S → A) (Q : A → Prop) : (∀ s, I s → Q (f s)) → yields I (gets f) Q.
Proof. intros H s b s' Hs [= <- <-]. auto. Qed.

Lemma yields_modify (f : S → S) : (∀ s, I s → I (f s)) → yields I (modify f) (λ _, True).
Proof. intros H s b s' Hs [= <- <-]. auto. Qed.

Lemma yields_bind {A B} (m : ST S A) (k : A → ST S B) (R : A → Prop) (Q : B → Prop) :
  yields I m R → (∀ a, R a → yields I (k a) Q) → yields I (m ≫= k) Q.
Proof.
  intros Hm Hk s b s' Hs (a & s1 & E1 & E2)%bind_returns. destruct (Hm _ _ _ Hs E1) as [Hs1 Ha].
  by apply (Hk a Ha s1).
Qed.

Lemma yields_seq {A B} (m : ST S A) (k : ST S B) (Q : B → Prop) :
  yields I m (λ _, True) → yields I k Q → yields I (m ;; k) Q.
Proof. intros. by eapply yields_bind. Qed.

Lemma yields_for_each {A} (l : list A) (body : A → ST S unit) :
  (∀ x, x ∈ l → yields I (body x) (λ _, True)) → yields I (for_each l body) (λ _, True).
Proof.
  induction l as [|x l IH]; intros Hb; simpl; [by apply yields_ret|].
  apply yields_seq; [apply Hb; by left|]. apply IH. intros. apply Hb. by right.
Qed.
End yields.

Create HintDb yields discriminated.
#[export] Hint Constants Opaque : yields.

Ltac yields_step :=
  match goal with
  | |- yields _ (mret _) _ => apply yields_ret; exact Logic.I
  | |- yields _ (halt _) _ => apply yields_halt
  | |- yields _ (gets _) _ => apply yields_gets; intros ? ?; exact Logic.I
  | |- yields _ (mbind (λ _, ?k) _) _ => apply yields_seq
  | |- yields _ (mbind _ _) _ => eapply yields_bind; [solve [eauto 2 with yields]|intros ? ?]
  | |- yields _ (mbind _ _) _ => apply (yields_bind _ _ _ (λ _, True)); [|intros ? _]
  | |- yields _ (for_each _ _) _ => apply yields_for_each; intros ? ?
  | |- yields _ (let '(_, _) := ?x in _) _ => destruct x eqn:?
  | |- yields _ (match ?x with _ => _ end) _ => destruct x eqn:?
  end.

Ltac yields_auto := repeat first [solve [eauto 2 with yields] | yields_step].
