(* ===== verification/Wire.v ===== *)
(** Little-endian wire primitives shared by all protocol code: the bounds-
    checked reader [Rdr], the [Put] writers on byte vectors, and the UTF-16LE
    codec for SMB names. Models src/wire.rs. *)
From S2P Require Import Prelude.
Local Open Scope Z_scope.

(** ** The reader *)
Record Rdr := mkRdr { rdr_b : bytes; rdr_pos : Z }.

(** A parser consumes from a reader, or fails ([?] on [None]). *)
Definition P (A : Type) : Type := Rdr → option (A * Rdr).

#[global] Instance P_ret : MRet P := λ A a r, Some (a, r).
#[global] Instance P_bind : MBind P := λ A B k m r,
  match m r with Some (a, r') => k a r' | None => None end.

Definition P_fail {A} : P A := λ _, None.
(** [if !c { return None; }]. *)
Definition ensure (c : bool) : P unit := if c then mret tt else P_fail.
(** Using an [Option] inside a parser: [o?]. *)
Definition lift {A} (o : option A) : P A := λ r, a ← o; Some (a, r).

Definition rdr_new (b : bytes) : Rdr := {| rdr_b := b; rdr_pos := 0 |}.

(** [Rdr::take]: [pos.checked_add(n)?] then [b.get(pos..end)?]. *)
Definition rd_take (n : Z) : P bytes := λ r,
  if rdr_pos r + n <? 2 ^ 64 then
    s ← slice (rdr_b r) (rdr_pos r) (rdr_pos r + n);
    Some (s, {| rdr_b := rdr_b r; rdr_pos := rdr_pos r + n |})
  else None.

Definition rd_skip (n : Z) : P unit := rd_take n ≫= λ _, mret tt.
Definition rd_uint (n : nat) : P Z := rd_take (Z.of_nat n) ≫= λ s, mret (le_val s).
Definition rd_u8 : P Z := rd_uint 1.
Definition rd_u16 : P Z := rd_uint 2.
Definition rd_u32 : P Z := rd_uint 4.
Definition rd_u64 : P Z := rd_uint 8.

(** [for _ in 0..n { v.push(p()?) }]. *)
Fixpoint rd_repeat {A} (n : nat) (p : P A) : P (list A) :=
  match n with
  | O => mret []
  | S n => x ← p; xs ← rd_repeat n p; mret (x :: xs)
  end.

(** [(|| { let mut r = Rdr::new(b); ... })()]. *)
Definition parse {A} (p : P A) (b : bytes) : option A := fst <$> p (rdr_new b).

(** What is left to read. *)
Definition rdr_rest (r : Rdr) : bytes := drop (Z.to_nat (rdr_pos r)) (rdr_b r).

Definition rdr_ok (r : Rdr) : Prop := 0 ≤ rdr_pos r ≤ len (rdr_b r) ∧ len (rdr_b r) < 2 ^ 64.

Lemma rdr_new_ok b : len b < 2 ^ 64 → rdr_ok (rdr_new b).
Proof. intros. unfold rdr_ok; simpl; lia. Qed.

Lemma rd_take_Some n r s r' :
  rd_take n r = Some (s, r') →
  rdr_b r' = rdr_b r ∧ rdr_pos r' = rdr_pos r + n ∧ len s = n ∧
  0 ≤ rdr_pos r ∧ rdr_pos r' ≤ len (rdr_b r) ∧ rdr_rest r = s ++ rdr_rest r'.
Proof.
  unfold rd_take. destruct (_ <? _); [|done].
  destruct (slice _ _ _) as [t|] eqn:E; simpl; [|done]. intros; simplify_eq; simpl.
  apply slice_Some in E as (? & ? & -> & ?). split_and!; auto; try lia.
  unfold rdr_rest, sub; simpl.
  replace (Z.to_nat (rdr_pos r + n)) with (Z.to_nat (rdr_pos r) + Z.to_nat n)%nat by lia.
  rewrite <-drop_drop. replace (rdr_pos r + n - rdr_pos r) with n by lia.
  by rewrite take_drop.
Qed.

(** Reading exactly the bytes that come next succeeds and moves past them. *)
Lemma rd_take_app r s rest :
  rdr_ok r → rdr_rest r = s ++ rest →
  ∃ r', rd_take (len s) r = Some (s, r') ∧ rdr_ok r' ∧ rdr_rest r' = rest ∧ rdr_b r' = rdr_b r.
Proof.
  intros [Hp Hl] Hr. unfold rdr_rest in Hr.
  assert (len s + len rest = len (rdr_b r) - rdr_pos r) as Hlen.
  { rewrite <-Nat2Z.inj_add, <-length_app, <-Hr, length_drop. lia. }
  unfold rd_take. rewrite (proj2 (Z.ltb_lt _ _)) by lia.
  rewrite slice_sub by lia. simpl.
  exists {| rdr_b := rdr_b r; rdr_pos := rdr_pos r + len s |}.
  split; [|split_and!; [| |reflexivity]].
  - do 2 f_equal. unfold sub. rewrite Hr.
    replace (rdr_pos r + len s - rdr_pos r) with (len s) by lia.
    by rewrite Nat2Z.id, take_app_length.
  - unfold rdr_ok; simpl; lia.
  - unfold rdr_rest; simpl.
    replace (Z.to_nat (rdr_pos r + len s)) with (Z.to_nat (rdr_pos r) + length s)%nat by lia.
    by rewrite <-drop_drop, Hr, drop_app_length.
Qed.

Lemma rd_uint_app n v r rest :
  rdr_ok r → 0 ≤ v < 2 ^ (8 * Z.of_nat n) → rdr_rest r = le_bytes n v ++ rest →
  ∃ r', rd_uint n r = Some (v, r') ∧ rdr_ok r' ∧ rdr_rest r' = rest ∧ rdr_b r' = rdr_b r.
Proof.
  intros Hok Hv Hr. destruct (rd_take_app r _ _ Hok Hr) as (r' & E & ?).
  rewrite length_le_bytes in E. exists r'. split; [|done].
  unfold rd_uint, mbind, P_bind. rewrite E. unfold mret, P_ret.
  by rewrite le_val_le_bytes.
Qed.

Lemma rd_uint_bound n r v r' :
  Forall is_byte (rdr_b r) → rd_uint n r = Some (v, r') →
  0 ≤ v < 2 ^ (8 * Z.of_nat n) ∧ rdr_b r' = rdr_b r.
Proof.
  intros Hb. unfold rd_uint, mbind, P_bind.
  destruct (rd_take _ _) as [[s r1]|] eqn:E; [|done].
  unfold mret, P_ret. intros [= <- <-].
  apply rd_take_Some in E as (Eb & ? & Hs & _ & _ & Er). split; [|done].
  rewrite <-Hs. apply le_val_bound.
  assert (Forall is_byte (rdr_rest r)) as Hf by (by apply Forall_drop).
  rewrite Er in Hf. by apply Forall_app in Hf as [? _].
Qed.

(** Inverting a successful run: values are in range, positions add up. *)
Lemma P_bind_Some {A B} (m : P A) (k : A → P B) r b r' :
  (m ≫= k) r = Some (b, r') → ∃ a r1, m r = Some (a, r1) ∧ k a r1 = Some (b, r').
Proof. unfold mbind, P_bind. destruct (m r) as [[a r1]|]; [eauto|done]. Qed.

Lemma rd_uint_Some n r v r' :
  rd_uint n r = Some (v, r') →
  rdr_b r' = rdr_b r ∧ rdr_pos r' = rdr_pos r + Z.of_nat n ∧ 0 ≤ rdr_pos r ∧
  rdr_pos r' ≤ len (rdr_b r) ∧ (Forall is_byte (rdr_b r) → 0 ≤ v < 2 ^ (8 * Z.of_nat n)).
Proof.
  intros E. pose proof E as E'. unfold rd_uint in E.
  apply P_bind_Some in E as (s & r1 & E & Er). unfold mret, P_ret in Er. simplify_eq.
  apply rd_take_Some in E as (? & ? & ? & ? & ? & _). split_and!; auto.
  intros Hb. by apply (rd_uint_bound n r _ r').
Qed.

Lemma parse_Some {A} (p : P A) b a : parse p b = Some a → ∃ r, p (rdr_new b) = Some (a, r).
Proof. unfold parse. destruct (p (rdr_new b)) as [[a' r]|]; simpl; intros; simplify_eq. eauto. Qed.

Ltac parse_inv :=
  repeat match goal with
  | H : mbind _ _ _ = Some _ |- _ => apply P_bind_Some in H as (? & ? & ? & H)
  | H : mret _ _ = Some _ |- _ => unfold mret, P_ret in H; simplify_eq
  | H : P_fail _ = Some _ |- _ => discriminate H
  | H : ensure ?b _ = Some _ |- _ => unfold ensure in H; destruct b eqn:?
  | H : rd_skip _ _ = Some _ |- _ => unfold rd_skip in H
  | H : (if ?b then _ else _) _ = Some _ |- _ => destruct b eqn:?
  | H : (let '(_, _) := ?x in _) _ = Some _ |- _ => destruct x
  | H : rd_uint _ _ = Some _ |- _ => apply rd_uint_Some in H as (? & ? & ? & ? & ?)
  | H : rd_take _ _ = Some _ |- _ => apply rd_take_Some in H as (? & ? & ? & ? & ? & _)
  end.

(** [parses_to p i a rest]: on input [i], [p] returns [a] and leaves [rest]. *)
Definition parses_to {A} (p : P A) (i : bytes) (a : A) (rest : bytes) : Prop :=
  ∀ r, rdr_ok r → rdr_rest r = i →
  ∃ r', p r = Some (a, r') ∧ rdr_ok r' ∧ rdr_rest r' = rest.

Lemma parses_ret {A} (a : A) i : parses_to (mret a) i a i.
Proof. intros r ? ?. by exists r. Qed.

Lemma parses_bind {A B} (m : P A) (k : A → P B) i1 a i2 b i3 :
  parses_to m i1 a i2 → parses_to (k a) i2 b i3 → parses_to (m ≫= k) i1 b i3.
Proof.
  intros Hm Hk r Hr Hi. destruct (Hm r Hr Hi) as (r1 & E & Hr1 & Hi1).
  destruct (Hk r1 Hr1 Hi1) as (r2 & E2 & ?). exists r2. unfold mbind, P_bind. by rewrite E.
Qed.

Lemma parses_uint n v rest :
  0 ≤ v < 2 ^ (8 * Z.of_nat n) → parses_to (rd_uint n) (le_bytes n v ++ rest) v rest.
Proof. intros Hv r Hr Hi. destruct (rd_uint_app n v r rest Hr Hv Hi) as (r' & ? & ? & ? & _). eauto. Qed.

Lemma parses_take n s rest : len s = n → parses_to (rd_take n) (s ++ rest) s rest.
Proof. intros <- r Hr Hi. destruct (rd_take_app r s rest Hr Hi) as (r' & ? & ? & ? & _). eauto. Qed.

Lemma parses_skip n s rest : len s = n → parses_to (rd_skip n) (s ++ rest) tt rest.
Proof. intros ?. eapply parses_bind; [by apply parses_take|apply parses_ret]. Qed.

Lemma parses_ensure c i : c = true → parses_to (ensure c) i tt i.
Proof. intros ->. apply parses_ret. Qed.

Lemma parse_parses {A} (p : P A) i a rest : len i < 2 ^ 64 → parses_to p i a rest → parse p i = Some a.
Proof.
  intros Hl Hp. destruct (Hp (rdr_new i)) as (r' & E & _); [by apply rdr_new_ok|done|].
  unfold parse. by rewrite E.
Qed.

Create HintDb parses.
#[export] Hint Resolve parses_ret parses_uint parses_take parses_skip parses_ensure : parses.

(** Run a parser along input written field by field. *)
Ltac parses_auto :=
  repeat (eapply parses_bind;
          [solve [unfold rd_u8, rd_u16, rd_u32, rd_u64; eauto with parses lia] |cbn beta iota]);
  try solve [eauto with parses].

(** ** The writers (trait [Put] on [Vec<u8>])

    A writer maps the vector to the extended vector; [b ▷ w] is [b.w(..)]. *)
Notation "b ▷ w" := (w b) (at level 61, left associativity, only parsing) : stdpp_scope.

Definition pbytes (v : bytes) (b : bytes) : bytes := b ++ v.
Definition p8 (v : Z) : bytes → bytes := pbytes (le_bytes 1 v).
Definition p16 (v : Z) : bytes → bytes := pbytes (le_bytes 2 v).
Definition p32 (v : Z) : bytes → bytes := pbytes (le_bytes 4 v).
Definition p64 (v : Z) : bytes → bytes := pbytes (le_bytes 8 v).
Definition zeros (n : Z) : bytes → bytes := pbytes (replicate (Z.to_nat n) 0).
Definition patch32 (off v : Z) (b : bytes) : bytes := patch b off (le_bytes 4 v).
(** Pad with zeros so that (len - base) is a multiple of 8. *)
Definition pad8 (base : Z) (b : bytes) : bytes :=
  let rem := (len b - base) mod 8 in
  if rem =? 0 then b else zeros (8 - rem) b.

Lemma length_pbytes v b : len (pbytes v b) = len b + len v.
Proof. unfold pbytes. rewrite length_app. lia. Qed.
Lemma length_p8 v b : len (p8 v b) = len b + 1.
Proof. unfold p8. by rewrite length_pbytes, length_le_bytes. Qed.
Lemma length_p16 v b : len (p16 v b) = len b + 2.
Proof. unfold p16. by rewrite length_pbytes, length_le_bytes. Qed.
Lemma length_p32 v b : len (p32 v b) = len b + 4.
Proof. unfold p32. by rewrite length_pbytes, length_le_bytes. Qed.
Lemma length_p64 v b : len (p64 v b) = len b + 8.
Proof. unfold p64. by rewrite length_pbytes, length_le_bytes. Qed.
Lemma length_zeros n b : 0 ≤ n → len (zeros n b) = len b + n.
Proof. intros. unfold zeros. rewrite length_pbytes, length_replicate. lia. Qed.

Create HintDb put.
#[export] Hint Rewrite length_pbytes length_p8 length_p16 length_p32 length_p64 : put.
#[export] Hint Rewrite length_zeros using lia : put.
#[export] Hint Rewrite length_le_bytes (@length_replicate Z) : put.

Lemma pad8_spec base b : base ≤ len b →
  ∃ n, pad8 base b = zeros n b ∧ 0 ≤ n < 8 ∧ (len (pad8 base b) - base) mod 8 = 0.
Proof.
  intros. unfold pad8. pose proof (Z.mod_pos_bound (len b - base) 8).
  destruct (Z.eqb_spec ((len b - base) mod 8) 0) as [E|E].
  - exists 0. unfold zeros, pbytes; simpl. rewrite app_nil_r. split_and!; [done|lia..].
  - eexists. split; [reflexivity|]. split; [lia|].
    rewrite length_zeros by lia.
    replace (len b + (8 - (len b - base) mod 8) - base)
      with ((len b - base) - (len b - base) mod 8 + 1 * 8) by lia.
    rewrite Z.mod_add by lia. rewrite Zminus_mod_idemp_r, Z.sub_diag. done.
Qed.

(** ** Chained entries

    Several replies are lists of entries that each start with a 32-bit offset
    to the next one, zero in the last; the code writes zeros and patches. *)

(** [for w in starts.windows(2) { patch32(w[0], w[1] - w[0]) }]. *)
Fixpoint patch_windows (starts : list Z) (b : bytes) : bytes :=
  match starts with
  | a :: ((c :: _) as r) => patch_windows r (patch32 a (c - a) b)
  | _ => b
  end.

(** The chain of entries with these bodies, as a reader should see it. *)
Fixpoint chain (ts : list bytes) : bytes :=
  match ts with
  | [] => []
  | [t] => le_bytes 4 0 ++ t
  | t :: ts => le_bytes 4 (4 + len t) ++ t ++ chain ts
  end.

(** The same entries before patching, and where they start. *)
Definition unpatched (ts : list bytes) : bytes := concat ((λ t, le_bytes 4 0 ++ t) <$> ts).
Fixpoint starts_from (base : Z) (ts : list bytes) : list Z :=
  match ts with
  | [] => []
  | t :: ts => base :: starts_from (base + 4 + len t) ts
  end.

(** A reader that follows the offsets. *)
Fixpoint read_chain (fuel : nat) (b : bytes) : list bytes :=
  match fuel with
  | O => []
  | S fuel =>
      let next := le_val (take 4 b) in
      if next =? 0 then [drop 4 b]
      else sub b 4 next :: read_chain fuel (drop (Z.to_nat next) b)
  end.

Lemma starts_from_snoc ts t : ∀ base,
  starts_from base (ts ++ [t]) = starts_from base ts ++ [base + len (unpatched ts)].
Proof.
  induction ts as [|u ts IH]; intros base; cbn [starts_from app];
    [by rewrite Z.add_0_r|].
  rewrite IH. change (unpatched (u :: ts)) with ((le_bytes 4 0 ++ u) ++ unpatched ts).
  rewrite !length_app, length_le_bytes. do 3 f_equal. lia.
Qed.

Lemma patch_windows_chain ts : ∀ pre,
  patch_windows (starts_from (len pre) ts) (pre ++ unpatched ts) = pre ++ chain ts.
Proof.
  induction ts as [|t ts IH]; intros pre; [done|].
  destruct ts as [|u ts]; [by unfold unpatched; simpl; rewrite app_nil_r|].
  change (starts_from (len pre) (t :: u :: ts))
    with (len pre :: starts_from (len pre + 4 + len t) (u :: ts)).
  cbn [patch_windows starts_from].
  change (len pre + 4 + len t :: starts_from (len pre + 4 + len t + 4 + len u) ts)
    with (starts_from (len pre + 4 + len t) (u :: ts)).
  change (unpatched (t :: u :: ts)) with ((le_bytes 4 0 ++ t) ++ unpatched (u :: ts)).
  rewrite <-app_assoc. unfold patch32. rewrite patch_app by (by rewrite !length_le_bytes).
  replace (len pre + 4 + len t - len pre) with (4 + len t) by lia.
  specialize (IH (pre ++ le_bytes 4 (4 + len t) ++ t)).
  rewrite !length_app, length_le_bytes in IH.
  replace (Z.of_nat (length pre + (4 + length t))) with (len pre + 4 + len t) in IH by lia.
  rewrite <-!app_assoc in IH. exact IH.
Qed.

Lemma read_chain_chain ts : ∀ fuel,
  ts ≠ [] → (length ts ≤ fuel)%nat → Forall (λ t, 4 + len t < 2 ^ 32) ts →
  read_chain fuel (chain ts) = ts.
Proof.
  induction ts as [|t ts IH]; intros [|fuel] Hne Hf Hl; try done; [simpl in Hf; lia|].
  apply Forall_cons in Hl as [Ht Hl]. destruct ts as [|u ts].
  - cbn [chain read_chain]. rewrite take_app_length', drop_app_length' by (by rewrite length_le_bytes).
    by rewrite le_val_le_bytes.
  - change (chain (t :: u :: ts)) with (le_bytes 4 (4 + len t) ++ t ++ chain (u :: ts)).
    cbn [read_chain]. rewrite take_app_length' by (by rewrite length_le_bytes).
    rewrite le_val_le_bytes by (change (2 ^ (8 * Z.of_nat 4)) with (2 ^ 32); lia).
    destruct (Z.eqb_spec (4 + len t) 0); [lia|]. unfold sub.
    change (Z.to_nat 4) with 4%nat. rewrite drop_app_length' by (by rewrite length_le_bytes).
    replace (Z.to_nat (4 + len t - 4)) with (length t) by lia. rewrite take_app_length. f_equal.
    rewrite app_assoc, drop_app_length' by (rewrite length_app, length_le_bytes; lia).
    apply IH; [done| |done]. simpl in *. lia.
Qed.

(** ** UTF-16LE *)

(** [char::encode_utf16]: one unit, or a surrogate pair. *)
Definition encode_char (c : Z) : list Z :=
  if c <? 0x10000 then [c]
  else [0xD800 + (c - 0x10000) / 1024; 0xDC00 + (c - 0x10000) mod 1024].

Definition encode_utf16 (s : str) : list Z := s ≫= encode_char.

Definition utf16le (s : str) : bytes := encode_utf16 s ≫= le_bytes 2.

(** [u16] units of [b.chunks_exact(2)] (a trailing odd byte is dropped). *)
Fixpoint units16 (b : bytes) : list Z :=
  match b with
  | c0 :: c1 :: b => le_val [c0; c1] :: units16 b
  | _ => []
  end.

Definition REPLACEMENT : Z := 0xFFFD.

(** [String::from_utf16_lossy]: an unpaired surrogate becomes U+FFFD. *)
Fixpoint from_utf16_lossy (u : list Z) : str :=
  match u with
  | [] => []
  | x :: r =>
      if (x <? 0xD800) || (0xDFFF <? x) then x :: from_utf16_lossy r
      else if 0xDC00 <=? x then REPLACEMENT :: from_utf16_lossy r
      else match r with
           | [] => [REPLACEMENT]
           | y :: r' =>
               if (y <? 0xDC00) || (0xDFFF <? y) then REPLACEMENT :: from_utf16_lossy r
               else (x - 0xD800) * 1024 + (y - 0xDC00) + 0x10000 :: from_utf16_lossy r'
           end
  end.

Definition from_utf16le (b : bytes) : str := from_utf16_lossy (units16 b).

(** A Unicode scalar value: what a Rust [char] can be. *)
Definition is_scalar (c : Z) : Prop := 0 ≤ c < 0xD800 ∨ 0xE000 ≤ c < 0x110000.
#[global] Instance is_scalar_dec c : Decision (is_scalar c) := _.

Lemma units16_app2 x b : 0 ≤ x < 65536 → units16 (le_bytes 2 x ++ b) = x :: units16 b.
Proof. intros. unfold le_bytes. simpl. f_equal. exact (le_val_le_bytes 2 x ltac:(done)). Qed.

Lemma units16_utf16 u : Forall (λ x, 0 ≤ x < 65536) u → units16 (u ≫= le_bytes 2) = u.
Proof.
  induction 1 as [|x u ?? IH]; [done|].
  rewrite bind_cons, units16_app2 by done. by rewrite IH.
Qed.

Lemma encode_char_units c : is_scalar c → Forall (λ x, 0 ≤ x < 65536) (encode_char c).
Proof.
  unfold is_scalar, encode_char. intros Hc. destruct (Z.ltb_spec c 0x10000).
  - repeat constructor; lia.
  - pose proof (Z.mod_pos_bound (c - 0x10000) 1024).
    assert (0 ≤ (c - 0x10000) / 1024 < 1024).
    { split; [apply Z.div_pos; lia|]. apply Z.div_lt_upper_bound; lia. }
    repeat constructor; lia.
Qed.

Lemma from_utf16_lossy_char c u :
  is_scalar c → from_utf16_lossy (encode_char c ++ u) = c :: from_utf16_lossy u.
Proof.
  unfold is_scalar, encode_char. intros Hc. destruct (Z.ltb_spec c 0x10000); cbn.
  - destruct (Z.ltb_spec c 0xD800), (Z.ltb_spec 0xDFFF c); simpl; done || lia.
  - pose proof (Z.mod_pos_bound (c - 0x10000) 1024).
    assert (0 ≤ (c - 0x10000) / 1024 < 1024).
    { split; [apply Z.div_pos; lia|]. apply Z.div_lt_upper_bound; lia. }
    pose proof (Z.div_mod (c - 0x10000) 1024).
    set (hi := (c - 0x10000) / 1024) in *. set (lo := (c - 0x10000) mod 1024) in *.
    rewrite (proj2 (Z.ltb_ge (0xD800 + hi) 0xD800)), (proj2 (Z.ltb_ge 0xDFFF (0xD800 + hi))),
      (proj2 (Z.leb_gt 0xDC00 (0xD800 + hi))) by lia. simpl.
    rewrite (proj2 (Z.ltb_ge (0xDC00 + lo) 0xDC00)), (proj2 (Z.ltb_ge 0xDFFF (0xDC00 + lo))) by lia.
    simpl. f_equal. lia.
Qed.

(** UTF-16LE encoding followed by decoding gives back every Rust string. *)
Lemma from_utf16le_utf16le s : Forall is_scalar s → from_utf16le (utf16le s) = s.
Proof.
  intros Hs. unfold from_utf16le, utf16le. rewrite units16_utf16.
  - unfold encode_utf16. induction Hs as [|c s Hc _ IH]; [done|].
    rewrite bind_cons, from_utf16_lossy_char by done. by rewrite IH.
  - unfold encode_utf16. induction Hs; [constructor|]. rewrite bind_cons.
    apply Forall_app; auto using encode_char_units.
Qed.

(** What decoding produces is always a valid Rust string. *)
Lemma from_utf16_lossy_scalar u :
  Forall (λ x, 0 ≤ x < 65536) u → Forall is_scalar (from_utf16_lossy u).
Proof.
  remember (length u) as n eqn:Hn. revert u Hn.
  induction (lt_wf n) as [n _ IH]. intros u -> Hu.
  assert (is_scalar REPLACEMENT) by (right; unfold REPLACEMENT; lia).
  destruct Hu as [|x r Hx Hr]; simpl; [constructor|].
  destruct (Z.ltb_spec x 0xD800), (Z.ltb_spec 0xDFFF x); simpl;
    try (constructor; [unfold is_scalar; lia|eapply IH; [|done..]; simpl; lia]).
  destruct (Z.leb_spec 0xDC00 x).
  - constructor; [done|]. eapply IH; [|done..]; simpl; lia.
  - destruct Hr as [|y r' Hy Hr]; [by repeat constructor|].
    destruct (Z.ltb_spec y 0xDC00), (Z.ltb_spec 0xDFFF y); simpl orb; cbn iota;
      try (constructor; [done|eapply IH; [|done|by constructor]; simpl; lia]).
    constructor; [unfold is_scalar; lia|]. eapply IH; [|done..]; simpl; lia.
Qed.

Lemma length_utf16le_even s : Z.even (len (utf16le s)) = true.
Proof.
  unfold utf16le. induction (encode_utf16 s) as [|x u IH]; [done|].
  rewrite bind_cons, length_app, length_le_bytes, Nat2Z.inj_add.
  by rewrite Z.even_add, IH.
Qed.

Lemma units16_bound b : Forall is_byte b → Forall (λ x, 0 ≤ x < 65536) (units16 b).
Proof.
  remember (length b) as n eqn:Hn. revert b Hn.
  induction (lt_wf n) as [n _ IH]. intros b -> Hb.
  destruct Hb as [|x b Hx Hb]; simpl; [constructor|].
  destruct Hb as [|y b Hy Hb]; simpl; [constructor|]. constructor.
  - change 65536 with (2 ^ (8 * len [x; y])). apply le_val_bound. auto.
  - eapply IH; [|done..]. simpl; lia.
Qed.

(** C40: Names survive the wire: encoding a Rust string as UTF-16LE and
    decoding it gives the string back (surrogate pairs included), and decoding
    arbitrary bytes always gives a valid Rust string (no unpaired surrogate),
    which the encoder then carries faithfully. *)
Theorem utf16le_roundtrip :
  (∀ s, Forall is_scalar s → from_utf16le (utf16le s) = s) ∧
  (∀ b, Forall is_byte b →
     Forall is_scalar (from_utf16le b) ∧
     from_utf16le (utf16le (from_utf16le b)) = from_utf16le b).
Proof.
  split; [apply from_utf16le_utf16le|]. intros b Hb.
  assert (Forall is_scalar (from_utf16le b)) by (by apply from_utf16_lossy_scalar, units16_bound).
  split; [done|]. by apply from_utf16le_utf16le.
Qed.

Lemma utf16le_roundtrip_witness :
  from_utf16le (utf16le [0x1F600; 97]) = [0x1F600; 97] ∧
  Forall is_scalar (from_utf16le [0x00; 0xD8; 0x61]).
Proof.
  split; [apply utf16le_roundtrip|apply utf16le_roundtrip]; apply (bool_decide_unpack _); by vm_compute.
Defined.

(** ** UTF-8 *)

(** The continuation bytes a UTF-8 lead byte asks for, and the range of the
    first of them. *)
Definition utf8_lead (b : Z) : option (nat * Z * Z) :=
  if b <? 0x80 then Some (0%nat, 0, 0)
  else if (0xC2 <=? b) && (b <=? 0xDF) then Some (1%nat, 0x80, 0xBF)
  else if b =? 0xE0 then Some (2%nat, 0xA0, 0xBF)
  else if b =? 0xED then Some (2%nat, 0x80, 0x9F)
  else if (0xE1 <=? b) && (b <=? 0xEF) then Some (2%nat, 0x80, 0xBF)
  else if b =? 0xF0 then Some (3%nat, 0x90, 0xBF)
  else if (0xF1 <=? b) && (b <=? 0xF3) then Some (3%nat, 0x80, 0xBF)
  else if b =? 0xF4 then Some (3%nat, 0x80, 0x8F)
  else None.

(** The leading bytes that continue a character, at most [n]. *)
Fixpoint utf8_cont (n : nat) (lo hi : Z) (b : bytes) : bytes :=
  match n, b with
  | S n, x :: b => if (lo <=? x) && (x <=? hi) then x :: utf8_cont n 0x80 0xBF b else []
  | _, _ => []
  end.

Definition utf8_char (b : Z) (cont : bytes) : Z :=
  let top := match length cont with 0%nat => b | 1%nat => Z.land b 0x1F | 2%nat => Z.land b 0xF | _ => Z.land b 0x7 end in
  foldl (λ a x, Z.lor (Z.shiftl a 6) (Z.land x 0x3F)) top cont.

(** [String::from_utf8_lossy]: a maximal invalid prefix becomes one U+FFFD. *)
Fixpoint from_utf8_lossy_fuel (fuel : nat) (b : bytes) : str :=
  match fuel, b with
  | S fuel, x :: b =>
      match utf8_lead x with
      | None => REPLACEMENT :: from_utf8_lossy_fuel fuel b
      | Some (n, lo, hi) =>
          let cont := utf8_cont n lo hi b in
          (if (length cont =? n)%nat then utf8_char x cont else REPLACEMENT)
            :: from_utf8_lossy_fuel fuel (drop (length cont) b)
      end
  | _, _ => []
  end.
Definition from_utf8_lossy (b : bytes) : str := from_utf8_lossy_fuel (length b) b.
