(* ===== verification/Status.v ===== *)
(** NT status codes used on the wire, and the mapping of a Unix errno to one.
    Models src/status.rs. *)
From S2P Require Import Prelude.
Local Open Scope Z_scope.

Module status.
Definition SUCCESS : Z := 0x00000000.
Definition PENDING : Z := 0x00000103.
Definition NOTIFY_CLEANUP : Z := 0x0000010B.
Definition NOTIFY_ENUM_DIR : Z := 0x0000010C.
Definition BUFFER_OVERFLOW : Z := 0x80000005.
Definition NO_MORE_FILES : Z := 0x80000006.
Definition UNSUCCESSFUL : Z := 0xC0000001.
Definition INVALID_PARAMETER : Z := 0xC000000D.
Definition NO_SUCH_FILE : Z := 0xC000000F.
Definition INVALID_DEVICE_REQUEST : Z := 0xC0000010.
Definition END_OF_FILE : Z := 0xC0000011.
Definition MORE_PROCESSING_REQUIRED : Z := 0xC0000016.
Definition ACCESS_DENIED : Z := 0xC0000022.
Definition REQUEST_NOT_ACCEPTED : Z := 0xC00000D0.
Definition BUFFER_TOO_SMALL : Z := 0xC0000023.
Definition OBJECT_NAME_INVALID : Z := 0xC0000033.
Definition OBJECT_NAME_NOT_FOUND : Z := 0xC0000034.
Definition OBJECT_NAME_COLLISION : Z := 0xC0000035.
Definition OBJECT_PATH_NOT_FOUND : Z := 0xC000003A.
Definition SHARING_VIOLATION : Z := 0xC0000043.
Definition LOCK_NOT_GRANTED : Z := 0xC0000055.
Definition LOGON_FAILURE : Z := 0xC000006D.
(** Kerberos clock skew. *)
Definition TIME_DIFFERENCE_AT_DC : Z := 0xC0000133.
Definition DISK_FULL : Z := 0xC000007F.
Definition INSUFFICIENT_RESOURCES : Z := 0xC000009A.
Definition IO_DEVICE_ERROR : Z := 0xC0000185.
Definition FILE_IS_A_DIRECTORY : Z := 0xC00000BA.
Definition NOT_SUPPORTED : Z := 0xC00000BB.
Definition BAD_NETWORK_NAME : Z := 0xC00000CC.
Definition NETWORK_NAME_DELETED : Z := 0xC00000C9.
Definition DIRECTORY_NOT_EMPTY : Z := 0xC0000101.
Definition NOT_A_DIRECTORY : Z := 0xC0000103.
Definition CANCELLED : Z := 0xC0000120.
Definition FILE_CLOSED : Z := 0xC0000128.
Definition USER_SESSION_DELETED : Z := 0xC0000203.
End status.

(** The Linux errno values the code names. *)
Module libc.
Definition EPERM : Z := 1.
Definition ENOENT : Z := 2.
Definition EINTR : Z := 4.
Definition EIO : Z := 5.
Definition ENXIO : Z := 6.
Definition EBADF : Z := 9.
Definition EAGAIN : Z := 11.
Definition ENOMEM : Z := 12.
Definition EACCES : Z := 13.
Definition EBUSY : Z := 16.
Definition EEXIST : Z := 17.
Definition ENOTDIR : Z := 20.
Definition EISDIR : Z := 21.
Definition EINVAL : Z := 22.
Definition ENFILE : Z := 23.
Definition EMFILE : Z := 24.
Definition ENOSPC : Z := 28.
Definition EROFS : Z := 30.
Definition ENOTEMPTY : Z := 39.
Definition EDQUOT : Z := 122.
End libc.

(** The arms of [from_errno], in source order. *)
Definition errno_arms : list (list Z * Z) :=
  [ ([libc.ENOENT], status.OBJECT_NAME_NOT_FOUND);
    ([libc.ENOTDIR], status.OBJECT_PATH_NOT_FOUND);
    ([libc.EACCES; libc.EPERM; libc.EROFS; libc.EBADF], status.ACCESS_DENIED);
    ([libc.EEXIST], status.OBJECT_NAME_COLLISION);
    ([libc.EISDIR], status.FILE_IS_A_DIRECTORY);
    ([libc.ENOTEMPTY], status.DIRECTORY_NOT_EMPTY);
    ([libc.ENOSPC; libc.EDQUOT], status.DISK_FULL);
    ([libc.ENFILE; libc.EMFILE; libc.ENOMEM], status.INSUFFICIENT_RESOURCES);
    ([libc.EINVAL], status.INVALID_PARAMETER);
    ([libc.EBUSY], status.SHARING_VIOLATION);
    ([libc.EIO], status.IO_DEVICE_ERROR) ].

(** Map a Unix errno to the closest NT status: the first arm that lists it. *)
Definition from_errno (e : Z) : Z :=
  match list_find (λ arm : list Z * Z, e ∈ arm.1) errno_arms with
  | Some (_, arm) => arm.2
  | None => status.UNSUCCESSFUL
  end.

(** NT error severity: the two top bits set. *)
Definition is_error (st : Z) : Prop := 0xC0000000 ≤ st < 2 ^ 32.

(** No errno is ever reported to a client as success or as a warning. *)
Lemma from_errno_error e : is_error (from_errno e).
Proof.
  unfold from_errno.
  destruct (list_find _ _) as [[i arm]|] eqn:E; [|done].
  apply list_find_Some in E as (E & _ & _).
  assert (Forall (λ arm : list Z * Z, is_error arm.2) errno_arms) as H.
  { repeat constructor; done. }
  exact (Forall_lookup_1 _ _ _ _ H E).
Qed.

Lemma from_errno_not_success e : from_errno e ≠ status.SUCCESS.
Proof. pose proof (from_errno_error e) as H. intros E. rewrite E in H. by destruct H. Qed.
