(* ===== verification/Lease.v ===== *)
(** The shared lease registry and the per-worker break mailboxes.
    Models src/lease.rs: [LeaseTable] (grant, break_conflicts, release,
    release_conn) and [Mailbox] (post, drain). *)
From S2P Require Import Prelude.
Local Open Scope Z_scope.

Record BreakMsg := mkBreakMsg {
  bm_wid : Z; bm_conn_idx : Z; bm_conn_gen : Z; bm_lease_key : bytes;
  bm_cur_state : Z; bm_new_state : Z; bm_epoch : Z; bm_session_id : Z }.

Record LeaseGrant := mkLeaseGrant {
  lg_lease_key : bytes; lg_state : Z; lg_epoch : Z; lg_session_id : Z;
  lg_wid : Z; lg_conn_idx : Z; lg_conn_gen : Z }.

#[global] Instance BreakMsg_eq_dec : EqDecision BreakMsg.
Proof. solve_decision. Defined.
#[global] Instance LeaseGrant_eq_dec : EqDecision LeaseGrant.
Proof. solve_decision. Defined.

(** [HashMap<(u32, u64), Vec<LeaseGrant>>], keyed by (share index, inode). *)
Abbreviation LeaseTable := (gmap (Z * Z) (list LeaseGrant)).

(** ** Operations *)

(** [v.iter_mut().find(same key)]: replace that entry, or push. *)
Fixpoint grant_vec (v : list LeaseGrant) (g : LeaseGrant) : list LeaseGrant :=
  match v with
  | [] => [g]
  | e :: v => if decide (lg_lease_key e = lg_lease_key g) then g :: v else e :: grant_vec v g
  end.

Definition lease_grant (key : Z * Z) (g : LeaseGrant) (m : LeaseTable) : LeaseTable :=
  <[key := grant_vec (default [] (m !! key)) g]> m.

(** [if v.is_empty() { m.remove(&key) }], else store the retained vector. *)
Definition put_vec (key : Z * Z) (v : list LeaseGrant) (m : LeaseTable) : LeaseTable :=
  match v with [] => delete key m | _ => <[key := v]> m end.

Definition break_msg (g : LeaseGrant) : BreakMsg :=
  {| bm_wid := lg_wid g; bm_conn_idx := lg_conn_idx g; bm_conn_gen := lg_conn_gen g;
     bm_lease_key := lg_lease_key g; bm_cur_state := lg_state g; bm_new_state := 0;
     bm_epoch := wrap 16 (lg_epoch g + 1); bm_session_id := lg_session_id g |}.

Definition break_conflicts (key : Z * Z) (writer_key : option bytes) (m : LeaseTable) :
    list BreakMsg * LeaseTable :=
  match m !! key with
  | None => ([], m)
  | Some v =>
      (break_msg <$> filter (λ g, writer_key ≠ Some (lg_lease_key g)) v,
       put_vec key (filter (λ g, writer_key = Some (lg_lease_key g)) v) m)
  end.

Definition lease_release (key : Z * Z) (lease_key : bytes) (m : LeaseTable) : LeaseTable :=
  match m !! key with
  | None => m
  | Some v => put_vec key (filter (λ g, lg_lease_key g ≠ lease_key) v) m
  end.

Definition held_by (wid idx gen : Z) (g : LeaseGrant) : Prop :=
  lg_wid g = wid ∧ lg_conn_idx g = idx ∧ lg_conn_gen g = gen.
#[global] Instance held_by_dec wid idx gen g : Decision (held_by wid idx gen g) := _.

Definition release_conn (wid idx gen : Z) (m : LeaseTable) : LeaseTable :=
  omap (λ v, match filter (λ g, ¬ held_by wid idx gen g) v with [] => None | v' => Some v' end) m.

(** ** Mailboxes *)

(** [efd] is the eventfd's counter: [post] adds one, or fails with EAGAIN
    (ignored) when the counter would reach 2^64 - 1. *)
Record Mailbox := mkMailbox { mb_queue : list BreakMsg; mb_efd : Z }.

Definition mailbox_new : Mailbox := {| mb_queue := []; mb_efd := 0 |}.

Definition mailbox_post (msg : BreakMsg) (mb : Mailbox) : Mailbox :=
  {| mb_queue := mb_queue mb ++ [msg];
     mb_efd := if mb_efd mb + 1 <? U64_MAX then mb_efd mb + 1 else mb_efd mb |}.

Definition mailbox_drain (mb : Mailbox) : list BreakMsg * Mailbox :=
  (mb_queue mb, {| mb_queue := []; mb_efd := mb_efd mb |}).

(** ** Well-formedness: no empty vectors, one grant per (file, lease key) *)
Definition vec_wf (v : list LeaseGrant) : Prop := v ≠ [] ∧ NoDup (lg_lease_key <$> v).
Definition lease_wf (m : LeaseTable) : Prop := map_Forall (λ _ v, vec_wf v) m.

(** The abstract view: which grant a lease key holds on a file. *)
Definition find_key (lk : bytes) (v : list LeaseGrant) : option LeaseGrant :=
  snd <$> list_find (λ g, lg_lease_key g = lk) v.
Definition held (m : LeaseTable) (key : Z * Z) (lk : bytes) : option LeaseGrant :=
  m !! key ≫= find_key lk.

Lemma find_key_cons lk g v :
  find_key lk (g :: v) = if decide (lg_lease_key g = lk) then Some g else find_key lk v.
Proof.
  unfold find_key; simpl. case_decide; [done|].
  by destruct (list_find _ _) as [[i x]|].
Qed.

Lemma find_key_Some lk v g : find_key lk v = Some g → lg_lease_key g = lk ∧ g ∈ v.
Proof.
  induction v as [|e v IH]; [done|]. rewrite find_key_cons. case_decide.
  - intros [= <-]. split; [done|left].
  - intros [? ?]%IH. split; [done|by right].
Qed.

Lemma find_key_None lk v : find_key lk v = None ↔ lk ∉ (lg_lease_key <$> v).
Proof.
  induction v as [|e v IH]; [split; [intros _; apply not_elem_of_nil|done]|].
  rewrite find_key_cons, fmap_cons, not_elem_of_cons. case_decide; naive_solver.
Qed.

Lemma find_key_elem v g :
  NoDup (lg_lease_key <$> v) → g ∈ v → find_key (lg_lease_key g) v = Some g.
Proof.
  induction v as [|e v IH]; [by intros _ ?%not_elem_of_nil|].
  rewrite fmap_cons, NoDup_cons, elem_of_cons, find_key_cons. intros [Hn Hd] [->|Hg].
  - by rewrite decide_True.
  - rewrite decide_False; [auto|]. intros E. apply Hn. rewrite E. apply list_elem_of_fmap; eauto.
Qed.

Lemma find_key_grant_vec lk v g :
  find_key lk (grant_vec v g) = if decide (lg_lease_key g = lk) then Some g else find_key lk v.
Proof.
  induction v as [|e v IH]; simpl; [by rewrite find_key_cons|].
  destruct (decide (lg_lease_key e = lg_lease_key g)) as [E|E]; rewrite !find_key_cons.
  - rewrite E. by case_decide.
  - rewrite IH. repeat case_decide; congruence.
Qed.

Lemma grant_vec_keys v g k :
  k ∈ lg_lease_key <$> grant_vec v g → k = lg_lease_key g ∨ k ∈ lg_lease_key <$> v.
Proof.
  induction v as [|e v IH]; simpl; [rewrite list_elem_of_singleton; auto|].
  case_decide as E; simpl; rewrite !elem_of_cons; [naive_solver|naive_solver].
Qed.

Lemma grant_vec_wf v g : NoDup (lg_lease_key <$> v) → vec_wf (grant_vec v g).
Proof.
  split; [destruct v; simpl; [done|by case_decide]|].
  induction v as [|e v IH]; simpl in *; [apply NoDup_singleton|].
  rewrite NoDup_cons in H. destruct H as [Hn Hd].
  case_decide as E; simpl; apply NoDup_cons; [by rewrite <-E|].
  split; [|auto]. intros [?|?]%grant_vec_keys; [done|done].
Qed.

Lemma filter_keys_NoDup (Q : LeaseGrant → Prop) `{∀ g, Decision (Q g)} v :
  NoDup (lg_lease_key <$> v) → NoDup (lg_lease_key <$> filter Q v).
Proof. intros Hd. eapply sublist_NoDup; [exact Hd|]. by apply fmap_sublist, sublist_filter. Qed.

Lemma find_key_filter (Q : LeaseGrant → Prop) `{∀ g, Decision (Q g)} lk v :
  NoDup (lg_lease_key <$> v) →
  find_key lk (filter Q v) = g ← find_key lk v; if decide (Q g) then Some g else None.
Proof.
  induction v as [|e v IH]; [done|].
  rewrite fmap_cons, NoDup_cons, filter_cons, find_key_cons. intros [Hn Hd].
  destruct (decide (Q e)) as [HQ|HQ]; rewrite ?find_key_cons, IH by done.
  - case_decide; simpl; [by rewrite decide_True|done].
  - case_decide as E; simpl; [|done]. rewrite decide_False by done.
    subst lk. apply find_key_None in Hn. by rewrite Hn.
Qed.

(** ** The operations preserve well-formedness *)
Lemma put_vec_lookup key v m k :
  put_vec key v m !! k =
    if decide (key = k) then (match v with [] => None | _ => Some v end) else m !! k.
Proof.
  unfold put_vec. destruct v; [rewrite lookup_delete|rewrite lookup_insert]; by case_decide.
Qed.

Lemma put_vec_wf key v m : lease_wf m → NoDup (lg_lease_key <$> v) → lease_wf (put_vec key v m).
Proof.
  intros Hm Hd k w. rewrite put_vec_lookup. case_decide; [|apply Hm].
  destruct v; [done|]. intros [= <-]. split; done.
Qed.

Lemma lookup_keys_NoDup key m : lease_wf m → NoDup (lg_lease_key <$> default [] (m !! key)).
Proof. intros Hm. destruct (m !! key) as [v|] eqn:E; simpl; [apply (Hm _ _ E)|constructor]. Qed.

Lemma lease_grant_wf key g m : lease_wf m → lease_wf (lease_grant key g m).
Proof.
  intros Hm. apply map_Forall_insert_2; [|done]. by apply grant_vec_wf, lookup_keys_NoDup.
Qed.

Lemma break_conflicts_wf key wk m : lease_wf m → lease_wf (break_conflicts key wk m).2.
Proof.
  intros Hm. unfold break_conflicts. destruct (m !! key) as [v|] eqn:E; simpl; [|done].
  apply put_vec_wf; [done|]. apply filter_keys_NoDup, (Hm _ _ E).
Qed.

Lemma lease_release_wf key lk m : lease_wf m → lease_wf (lease_release key lk m).
Proof.
  intros Hm. unfold lease_release. destruct (m !! key) as [v|] eqn:E; simpl; [|done].
  apply put_vec_wf; [done|]. apply filter_keys_NoDup, (Hm _ _ E).
Qed.

Lemma release_conn_wf wid idx gen m : lease_wf m → lease_wf (release_conn wid idx gen m).
Proof.
  intros Hm k w. unfold release_conn. rewrite lookup_omap_Some. intros (v & Hv & E).
  destruct (filter _ v) eqn:Ef; simplify_eq. split; [done|].
  rewrite <-Ef. apply filter_keys_NoDup, (Hm _ _ E).
Qed.

(** ** The operations on the abstract view *)
Lemma held_grant key g m k lk :
  held (lease_grant key g m) k lk =
    if decide (k = key ∧ lk = lg_lease_key g) then Some g else held m k lk.
Proof.
  unfold held, lease_grant. rewrite lookup_insert.
  destruct (decide (key = k)) as [<-|]; simpl.
  - rewrite find_key_grant_vec. destruct (m !! key); repeat case_decide; naive_solver.
  - rewrite decide_False; naive_solver.
Qed.

Lemma held_put_filter (Q : LeaseGrant → Prop) `{∀ g, Decision (Q g)} key v m k lk :
  lease_wf m → m !! key = Some v →
  held (put_vec key (filter Q v) m) k lk =
    g ← held m k lk; if decide (k = key → Q g) then Some g else None.
Proof.
  intros Hm E. unfold held. rewrite put_vec_lookup. destruct (decide (key = k)) as [<-|].
  - rewrite E; simpl.
    transitivity (find_key lk (filter Q v)); [by destruct (filter Q v)|].
    rewrite find_key_filter by apply (Hm _ _ E).
    destruct (find_key lk v); simpl; [|done]. repeat case_decide; naive_solver.
  - destruct (m !! k) as [w|]; simpl; [|done]. destruct (find_key lk w); simpl; [|done].
    rewrite decide_True; [done|]. congruence.
Qed.

Lemma held_break key wk m k lk :
  lease_wf m →
  held (break_conflicts key wk m).2 k lk =
    if decide (k = key ∧ wk ≠ Some lk) then None else held m k lk.
Proof.
  intros Hm. unfold break_conflicts. destruct (m !! key) as [v|] eqn:E; simpl.
  - rewrite held_put_filter by done. destruct (held m k lk) as [g|] eqn:Eg; simpl.
    + unfold held in Eg. destruct (m !! k); simpl in Eg; [|done].
      apply find_key_Some in Eg as [<- _].
      destruct (decide (wk = Some (lg_lease_key g))); repeat case_decide; naive_solver.
    + by case_decide.
  - case_decide as H; [|done]. destruct H as [-> _]. unfold held. by rewrite E.
Qed.

Lemma held_release key lk0 m k lk :
  lease_wf m →
  held (lease_release key lk0 m) k lk =
    if decide (k = key ∧ lk = lk0) then None else held m k lk.
Proof.
  intros Hm. unfold lease_release. destruct (m !! key) as [v|] eqn:E; simpl.
  - rewrite held_put_filter by done. destruct (held m k lk) as [g|] eqn:Eg; simpl.
    + unfold held in Eg. destruct (m !! k); simpl in Eg; [|done].
      apply find_key_Some in Eg as [<- _].
      destruct (decide (lg_lease_key g = lk0)); repeat case_decide; naive_solver.
    + by case_decide.
  - case_decide as H; [|done]. destruct H as [-> _]. unfold held. by rewrite E.
Qed.

Lemma held_release_conn wid idx gen m k lk :
  lease_wf m →
  held (release_conn wid idx gen m) k lk =
    g ← held m k lk; if decide (held_by wid idx gen g) then None else Some g.
Proof.
  intros Hm. unfold held, release_conn. rewrite lookup_omap.
  destruct (m !! k) as [v|] eqn:E; simpl; [|done].
  transitivity (find_key lk (filter (λ g, ¬ held_by wid idx gen g) v)).
  { by destruct (filter _ v). }
  rewrite find_key_filter by apply (Hm _ _ E).
  destruct (find_key lk v); simpl; [|done]. repeat case_decide; naive_solver.
Qed.

(** Messages are one per holder of another key. *)
Lemma break_conflicts_msgs key wk m bm :
  lease_wf m →
  bm ∈ (break_conflicts key wk m).1 ↔
    ∃ lk g, held m key lk = Some g ∧ wk ≠ Some lk ∧ bm = break_msg g.
Proof.
  intros Hm. unfold break_conflicts, held. destruct (m !! key) as [v|] eqn:E; simpl.
  - rewrite list_elem_of_fmap. setoid_rewrite list_elem_of_filter. split.
    + intros (g & -> & Hw & Hg). exists (lg_lease_key g), g.
      split_and!; [|done..]. apply find_key_elem; [apply (Hm _ _ E)|done].
    + intros (lk & g & [<- ?]%find_key_Some & ? & ->). eauto.
  - rewrite elem_of_nil. naive_solver.
Qed.

(** C20: The lease table implements a map from (file, lease key) to the grant
    held: a grant replaces the binding of its own key and no other; a write
    under [writer_key] removes exactly the bindings of that file under other
    keys; a release removes exactly one binding; closing a connection removes
    exactly the grants it holds. Every operation keeps the representation
    invariant (no empty vector, one grant per file and lease key). *)
Theorem lease_table_refines_map m :
  lease_wf m →
  (∀ key g, lease_wf (lease_grant key g m) ∧ ∀ k lk,
     held (lease_grant key g m) k lk =
       if decide (k = key ∧ lk = lg_lease_key g) then Some g else held m k lk) ∧
  (∀ key wk, lease_wf (break_conflicts key wk m).2 ∧ ∀ k lk,
     held (break_conflicts key wk m).2 k lk =
       if decide (k = key ∧ wk ≠ Some lk) then None else held m k lk) ∧
  (∀ key lk0, lease_wf (lease_release key lk0 m) ∧ ∀ k lk,
     held (lease_release key lk0 m) k lk =
       if decide (k = key ∧ lk = lk0) then None else held m k lk) ∧
  (∀ wid idx gen, lease_wf (release_conn wid idx gen m) ∧ ∀ k lk,
     held (release_conn wid idx gen m) k lk =
       g ← held m k lk; if decide (held_by wid idx gen g) then None else Some g).
Proof.
  intros Hm. split_and!; intros; split; intros;
    auto using lease_grant_wf, break_conflicts_wf, lease_release_wf, release_conn_wf,
      held_grant, held_break, held_release, held_release_conn.
Qed.

(** Two connections hold read leases on file 11 of share 0. *)
Definition sample_grant (k conn : Z) : LeaseGrant :=
  mkLeaseGrant (replicate 16 k) 1 1 7 0 conn 1.
Definition sample_table : LeaseTable :=
  lease_grant (0, 11) (sample_grant 2 5) (lease_grant (0, 11) (sample_grant 1 4) ∅).

Lemma sample_table_wf : lease_wf sample_table.
Proof. apply lease_grant_wf, lease_grant_wf, map_Forall_empty. Qed.

Lemma lease_table_refines_map_witness :
  held (break_conflicts (0, 11) (Some (replicate 16 1)) sample_table).2 (0, 11) (replicate 16 2) = None ∧
  held (release_conn 0 4 1 sample_table) (0, 11) (replicate 16 2) = Some (sample_grant 2 5).
Proof.
  destruct (lease_table_refines_map sample_table sample_table_wf) as (_ & Hb & _ & Hc). split.
  - destruct (Hb (0, 11) (Some (replicate 16 1))) as [_ ->]. by vm_compute.
  - destruct (Hc 0 4 1) as [_ ->]. by vm_compute.
Defined.

(** Posting a list of messages, in order. *)
Definition post_all (msgs : list BreakMsg) (mb : Mailbox) : Mailbox :=
  foldl (λ mb m, mailbox_post m mb) mb msgs.

Lemma post_all_queue msgs : ∀ mb, mb_queue (post_all msgs mb) = mb_queue mb ++ msgs.
Proof.
  unfold post_all. induction msgs as [|m msgs IH]; intros mb; simpl; [by rewrite app_nil_r|].
  rewrite IH. simpl. by rewrite <-app_assoc.
Qed.

Lemma filter_filter_neg {A} (Q : A → Prop) `{∀ x, Decision (Q x)} (v : list A) :
  filter (λ x, ¬ Q x) (filter Q v) = [].
Proof.
  induction v as [|x v IH]; [done|]. rewrite filter_cons. case_decide; [|done].
  rewrite filter_cons, decide_False by (by intros ?). done.
Qed.

(** C22: A write breaks each conflicting lease exactly once: the messages are
    one per grant held on the file under another key, addressed to the
    holder's worker and connection, with the held state going to none and the
    next epoch; breaking the same file again finds nothing; and a mailbox
    delivers what was posted, once, in order. *)
Theorem break_notifies_each_holder_once m key wk :
  lease_wf m →
  let '(msgs, m') := break_conflicts key wk m in
  (∀ bm, bm ∈ msgs ↔
     ∃ lk g, held m key lk = Some g ∧ wk ≠ Some lk ∧
       bm = mkBreakMsg (lg_wid g) (lg_conn_idx g) (lg_conn_gen g) lk (lg_state g) 0
              ((lg_epoch g + 1) mod 2 ^ 16) (lg_session_id g)) ∧
  NoDup (bm_lease_key <$> msgs) ∧
  break_conflicts key wk m' = ([], m') ∧
  (∀ mb, let '(q, mb') := mailbox_drain (post_all msgs mb) in
     q = mb_queue mb ++ msgs ∧ (mailbox_drain mb').1 = []).
Proof.
  intros Hm. pose proof (λ bm, break_conflicts_msgs key wk m bm Hm) as Hmsgs.
  pose proof (break_conflicts_wf key wk m Hm) as Hwf.
  unfold break_conflicts in *. destruct (m !! key) as [v|] eqn:Ev; simpl in *.
  - split_and!.
    + intros bm. rewrite Hmsgs. split; intros (lk & g & Hh & Hw & ->); exists lk, g;
        (split_and!; [done..|]); unfold held in Hh; rewrite Ev in Hh; simpl in Hh;
        by apply find_key_Some in Hh as [<- _].
    + rewrite <-list_fmap_compose. apply (filter_keys_NoDup _ v (proj2 (Hm _ _ Ev))).
    + rewrite put_vec_lookup, decide_True by done.
      set (kept := filter (λ g, wk = Some (lg_lease_key g)) v).
      assert (filter (λ g, wk ≠ Some (lg_lease_key g)) kept = []) as E1 by apply filter_filter_neg.
      assert (filter (λ g, wk = Some (lg_lease_key g)) kept = kept) as E2.
      { unfold kept. rewrite list_filter_filter. apply list_filter_iff. naive_solver. }
      destruct kept as [|g kept]; [done|]. rewrite E1, E2. simpl. f_equal.
      apply map_eq. intros k. rewrite !lookup_insert. by case_decide.
    + intros mb. by rewrite post_all_queue.
  - split_and!; [|constructor|by rewrite Ev|by intros mb; rewrite app_nil_r].
    intros bm. rewrite elem_of_nil. split; [done|]. unfold held. rewrite Ev. naive_solver.
Qed.

Lemma break_notifies_each_holder_once_witness :
  (break_conflicts (0, 11) (Some (replicate 16 1)) sample_table).1
    = [mkBreakMsg 0 5 1 (replicate 16 2) 1 0 2 7] ∧
  NoDup (bm_lease_key <$> (break_conflicts (0, 11) (Some (replicate 16 1)) sample_table).1).
Proof.
  split; [by vm_compute|].
  pose proof (break_notifies_each_holder_once sample_table (0, 11) (Some (replicate 16 1))
    sample_table_wf) as H.
  destruct (break_conflicts _ _ _) as [msgs m']. exact (proj1 (proj2 H)).
Defined.
