(* ===== verification/Os.v ===== *)
(** The outside world as the server sees it: the system calls, the standard
    library's Unicode case tables and the cryptographic primitives are
    parameters, gathered in the class [Env]. Every system call goes through
    [sys] and is recorded in a trace, so that "what the server did to the
    filesystem" is a property of the trace. *)
From S2P Require Import Prelude.
Local Open Scope Z_scope.

(** A host path: its Unicode string (configuration and client names are
    Rust strings, so every path the server builds is one). *)
Abbreviation path := (list Z).

(** The fields of [struct stat] the code reads. *)
Record Stat := mkStat {
  sx_mode : Z; sx_size : Z; sx_blocks : Z; sx_ino : Z; sx_nlink : Z;
  sx_atime : Z; sx_atime_nsec : Z; sx_mtime : Z; sx_mtime_nsec : Z;
  sx_ctime : Z; sx_ctime_nsec : Z }.

Record StatVfs := mkStatVfs { sv_frsize : Z; sv_blocks : Z; sv_bavail : Z; sv_bfree : Z }.

Inductive LockKind := Shared | Exclusive | Unlock.
#[global] Instance LockKind_eq_dec : EqDecision LockKind.
Proof. solve_decision. Defined.

(** One entry a directory iterator yields: [None] is an [Err] item (dropped
    by [flatten]); a name is [None] when it is not valid UTF-8. *)
Record RawDirEnt := mkRawDirEnt { rde_name : option str; rde_path : path }.

(** What [gss_accept_sec_context] returns: the status pair, the context, the
    client's name (0 when there is none) and the token for the client. *)
Record GssAccept := mkGssAccept {
  ga_major : Z; ga_minor : Z; ga_ctx : Z; ga_name : Z; ga_out : bytes }.

(** A network interface address as [getifaddrs] lists it: the name, the
    flags, and the address family with the address in network order. *)
Record IfAddr := mkIfAddr { ifa_name : bytes; ifa_flags : Z; ifa_addr : option (Z * bytes) }.

(** [std::net::SocketAddr]: address octets, port and, for IPv6, scope id. *)
Inductive SocketAddr := SaV4 (ip : bytes) (port : Z) | SaV6 (ip : bytes) (port scope : Z).

(** The system calls. An [std::fs] function reports an [io::Error], of which
    the code uses [raw_os_error() : Option<i32>]; a raw [libc] call reports
    [errno]. *)
Inductive call : Type → Type :=
| c_stat (p : path) : call (result Stat (option Z))
| c_lstat (p : path) : call (result Stat (option Z))
| c_entry_meta (p : path) : call (result Stat (option Z))
| c_fmetadata (fd : Z) : call (result Stat (option Z))
| c_open (p : path) (flags mode : Z) : call (result Z Z)
| c_fstat (fd : Z) : call (result Stat Z)
| c_getfl (fd : Z) : call (result Z Z)
| c_setfl (fd fl : Z) : call (result unit Z)
| c_close (fd : Z) : call unit
| c_dup (fd : Z) : call (result Z Z)
| c_mkdir (p : path) (mode : Z) : call (result unit Z)
| c_pread (fd count off : Z) : call (result bytes Z)
| c_pwrite (fd : Z) (data : bytes) (off : Z) : call (result Z Z)
| c_ftruncate (fd length : Z) : call (result unit Z)
| c_ofd_setlk (fd : Z) (kind : LockKind) (start length : Z) : call (result unit Z)
| c_fsync (fd : Z) : call (result unit Z)
| c_fadvise_seq (fd : Z) : call unit
| c_statvfs (fd : Z) : call (result StatVfs Z)
| c_futimens (fd : Z) (atime mtime : option (Z * Z)) : call (result unit Z)
| c_rename (from to : path) : call (result unit (option Z))
| c_rename_noreplace (from to : path) : call (result unit Z)
| c_unlink (p : path) : call (result unit (option Z))
| c_rmdir (p : path) : call (result unit (option Z))
| c_read_dir (p : path) : call (result (list (option RawDirEnt)) (option Z))
| c_urandom (n : Z) : call bytes
| c_now : call (Z * Z)
| c_pipe2 : call (result (Z * Z) Z)
| c_setpipe_sz (fd n : Z) : call unit
| c_getpipe_sz (fd : Z) : call Z
| c_read (fd n : Z) : call Z
| c_shutdown (fd : Z) : call unit
| c_nodelay (fd : Z) : call unit
| c_inotify_init : call Z
| c_inotify_add_watch (ifd : Z) (p : path) (mask : Z) : call Z
| c_inotify_rm_watch (ifd wd : Z) : call unit
(** The GSS library (RFC 2744). Its handles are pointers, 0 the null one;
    the first result is the major status. *)
| c_gss_import_name (name : str) (oid : bytes) : call (Z * Z * Z)
| c_gss_release_name (name : Z) : call unit
| c_gss_acquire_cred (name : Z) : call (Z * Z * Z)
| c_gss_accept (ctx cred : Z) (token : bytes) : call GssAccept
| c_gss_delete_ctx (ctx : Z) : call unit
| c_gss_display_name (name : Z) : call (Z * bytes)
| c_gss_name_attr (name : Z) (attr : bytes) : call (Z * Z * bytes)
| c_gss_inquire_ctx (ctx : Z) (oid : bytes) : call (Z * Z * option (list bytes))
| c_gss_display_status (value kind msg_ctx : Z) : call (Z * Z * bytes)
(** Start-up and the health thread. Of an error only that it happened is used. *)
| c_read_file (p : path) : call (option str)
| c_getifaddrs : call (option (list IfAddr))
| c_if_nametoindex (name : bytes) : call Z
| c_ncpu : call Z
| c_setaffinity (core : Z) : call unit
| c_parallelism : call (option positive)
| c_eventfd : call (option Z)
| c_ignore_sigpipe : call unit
| c_setenv (var value : str) : call unit
| c_ring (entries : Z) (sqpoll : bool) : call bool
| c_probe_send_zc : call bool
| c_socket (domain : Z) : call (option Z)
| c_reuse (fd : Z) (port : bool) : call unit
| c_bind (fd : Z) (sa : bytes) : call bool
| c_listen (fd backlog : Z) : call bool
| c_tcp_listen (addr : str) : call (option Z)
| c_tcp_accept (fd : Z) : call (option Z)
| c_spawn (name : str) : call bool
| c_instant : call Z
| c_sock_timeout (fd : Z) (write : bool) (ns : Z) : call bool
| c_sock_read (fd n : Z) : call (option bytes)
| c_sock_write (fd : Z) (data : bytes) : call bool.

Module oflag.
Definition RDONLY : Z := 0.
Definition RDWR : Z := 2.
Definition CREAT : Z := 0x40.
Definition EXCL : Z := 0x80.
Definition TRUNC : Z := 0x200.
Definition NONBLOCK : Z := 0x800.
Definition DIRECTORY : Z := 0x10000.
Definition CLOEXEC : Z := 0x80000.
End oflag.

(** The calls that change what is on disk. Opening a file does so only when
    it may create or truncate it. *)
Definition mutates {A} (c : call A) : bool :=
  match c with
  | c_open _ flags _ => has_bits flags (Z.lor oflag.CREAT oflag.TRUNC)
  | c_mkdir _ _ | c_pwrite _ _ _ | c_ftruncate _ _ | c_futimens _ _ _
  | c_rename _ _ | c_rename_noreplace _ _ | c_unlink _ | c_rmdir _ => true
  | _ => false
  end.

(** The paths a call names. *)
Definition call_paths {A} (c : call A) : list path :=
  match c with
  | c_stat p | c_lstat p | c_entry_meta p | c_open p _ _ | c_mkdir p _
  | c_unlink p | c_rmdir p | c_read_dir p | c_inotify_add_watch _ p _ | c_read_file p => [p]
  | c_rename p q | c_rename_noreplace p q => [p; q]
  | _ => []
  end.

Class Env := {
  (** Whether the server is built with the [kerberos] feature. *)
  kerberos : bool;
  (** The operating system: its state and how it answers a call. *)
  os : Type;
  sys : ∀ A, call A → os → A * os;
  (** Fuel of the loops that retry until the system lets them finish. *)
  retry : nat;
  (** Unicode case mapping of the Rust standard library. *)
  to_lowercase : str → str;
  to_uppercase : str → str;
  (** [s.parse::<SocketAddr>()]. *)
  parse_socket_addr : str → option SocketAddr;
  (** Cryptographic primitives (RustCrypto or OpenSSL). *)
  md4 : bytes → bytes;
  hmac_md5 : bytes → bytes → bytes;
  hmac_sha256 : bytes → list bytes → bytes;
  aes128_cmac : bytes → list bytes → bytes;
  sha512 : list bytes → bytes;
  aead_seal : Z → bytes → bytes → bytes → bytes → bytes * bytes;
  aead_open : Z → bytes → bytes → bytes → bytes → bytes → option bytes;
}.

(** The sizes of key and nonce of the SMB3 ciphers, by their numbers on the
    wire: AES-128-CCM, AES-128-GCM, AES-256-CCM, AES-256-GCM. *)
Definition aead_sizes (cipher : Z) : option (nat * nat) :=
  match cipher with
  | 1 => Some (16, 11)%nat
  | 2 => Some (16, 12)%nat
  | 3 => Some (32, 11)%nat
  | 4 => Some (32, 12)%nat
  | _ => None
  end.

(** Documented facts about the primitives: digest sizes, and that an AEAD
    used with a key and a nonce of its sizes, on a message whose length fits
    its length field, opens what it sealed under the same associated data. *)
Class CryptoLaws `{Env} := {
  md4_len d : length (md4 d) = 16%nat;
  hmac_md5_len k d : length (hmac_md5 k d) = 16%nat;
  hmac_sha256_len k d : length (hmac_sha256 k d) = 32%nat;
  aes128_cmac_len k d : length (aes128_cmac k d) = 16%nat;
  sha512_len d : length (sha512 d) = 64%nat;
  aead_tag_len c k n a p : length (aead_seal c k n a p).2 = 16%nat;
  aead_seal_len c k n a p : length (aead_seal c k n a p).1 = length p;
  aead_open_seal c k n a p ct tag :
    aead_sizes c = Some (length k, length n) → len p < 2 ^ 32 →
    aead_seal c k n a p = (ct, tag) → aead_open c k n a ct tag = Some p;
}.

(** A hash is a function of the concatenation of its parts. *)
Class CryptoStreams `{Env} := {
  hmac_sha256_concat k ps : hmac_sha256 k ps = hmac_sha256 k [concat ps];
  aes128_cmac_concat k ps : aes128_cmac k ps = aes128_cmac k [concat ps];
}.

Inductive event : Type := Ev (A : Type) (c : call A) (a : A).
Arguments Ev {A} c a.

Definition ev_mutates (e : event) : bool := match e with Ev c _ => mutates c end.
Definition ev_paths (e : event) : list path := match e with Ev c _ => call_paths c end.

(** ** The I/O monad *)
Section io.
Context `{Env}.

Record OsSt := mkOsSt { os_st : os; os_trace : list event }.

Definition IO (A : Type) : Type := ST OsSt A.

Definition do {A} (c : call A) : IO A := λ s,
  let '(a, o) := sys A c (os_st s) in
  (inl a, {| os_st := o; os_trace := os_trace s ++ [Ev c a] |}).

(** The calls made between two states all satisfy [Q]. *)
Definition io_only (Q : event → Prop) (s s' : OsSt) : Prop :=
  ∃ t, os_trace s' = os_trace s ++ t ∧ Forall Q t.

#[global] Instance io_only_preorder Q : PreOrder (io_only Q).
Proof.
  split.
  - intros s. exists []. by rewrite app_nil_r.
  - intros s1 s2 s3 (t1 & E1 & H1) (t2 & E2 & H2). exists (t1 ++ t2).
    rewrite E2, E1, app_assoc. split; [done|]. by apply Forall_app.
Qed.

Lemma io_only_do (Q : event → Prop) {A} (c : call A) :
  (∀ a, Q (Ev c a)) → respects (io_only Q) (do c).
Proof.
  intros HQ s. unfold do. destruct (sys A c (os_st s)) as [a o]. simpl.
  exists [Ev c a]. split; [done|]. by repeat constructor.
Qed.

Lemma io_only_mono (Q Q' : event → Prop) s s' :
  (∀ e, Q e → Q' e) → io_only Q s s' → io_only Q' s s'.
Proof. intros HQ (t & ? & ?). exists t. split; [done|]. eapply Forall_impl; eauto. Qed.
End io.

#[export] Hint Resolve io_only_do : respects.
