(* ===== verification/Sample.v ===== *)
(** A concrete environment: an in-memory filesystem and toy primitives, used
    to evaluate the model on concrete inputs and to show that the laws the
    development assumes of the outside world can hold together. *)
From S2P Require Import Prelude Status Os.
Local Open Scope Z_scope.

(** A file: directory flag, contents, inode. *)
Record File := mkFile { f_dir : bool; f_data : bytes; f_ino : Z }.

Record MemFs := mkMemFs {
  fs_files : gmap path File;
  fs_fds : gmap Z path;
  fs_next : Z;                     (** next fd, inode and random byte *)
  fs_locks : list (Z * LockKind * Z * Z) }.

Definition mem_stat (f : File) : Stat :=
  {| sx_mode := (if f_dir f then 0x4000 else 0x8000) + 0x1A4; sx_size := len (f_data f);
     sx_blocks := 1; sx_ino := f_ino f; sx_nlink := 1;
     sx_atime := 0; sx_atime_nsec := 0; sx_mtime := 0; sx_mtime_nsec := 0;
     sx_ctime := 0; sx_ctime_nsec := 0 |}.

Definition with_files (m : gmap path File) (o : MemFs) : MemFs :=
  {| fs_files := m; fs_fds := fs_fds o; fs_next := fs_next o; fs_locks := fs_locks o |}.
Definition with_fds (m : gmap Z path) (o : MemFs) : MemFs :=
  {| fs_files := fs_files o; fs_fds := m; fs_next := fs_next o + 1; fs_locks := fs_locks o |}.
Definition with_locks (l : list (Z * LockKind * Z * Z)) (o : MemFs) : MemFs :=
  {| fs_files := fs_files o; fs_fds := fs_fds o; fs_next := fs_next o; fs_locks := l |}.

Definition mem_lookup (p : path) (o : MemFs) : result Stat (option Z) :=
  match fs_files o !! p with Some f => Ok (mem_stat f) | None => Err (Some libc.ENOENT) end.

Definition fd_file (fd : Z) (o : MemFs) : option (path * File) :=
  p ← fs_fds o !! fd; f ← fs_files o !! p; Some (p, f).

Definition mem_open (p : path) (flags : Z) (o : MemFs) : result Z Z * MemFs :=
  let fd := fs_next o in
  let opened o := (Ok fd, with_fds (<[fd := p]> (fs_fds o)) o) in
  match fs_files o !! p with
  | Some f =>
      if has_bits flags oflag.EXCL then (Err libc.EEXIST, o)
      else if has_bits flags oflag.TRUNC
      then opened (with_files (<[p := mkFile (f_dir f) [] (f_ino f)]> (fs_files o)) o)
      else opened o
  | None =>
      if has_bits flags oflag.CREAT
      then opened (with_files (<[p := mkFile false [] (1000 + fd)]> (fs_files o)) o)
      else (Err libc.ENOENT, o)
  end.

(** Writes take at most two bytes per call, so that the write loop runs. *)
Definition mem_pwrite (fd : Z) (d : bytes) (off : Z) (o : MemFs) : result Z Z * MemFs :=
  match fd_file fd o with
  | None => (Err libc.EBADF, o)
  | Some (p, f) =>
      let d := take 2 d in
      let old := f_data f ++ replicate (Z.to_nat off - length (f_data f)) 0 in
      let data := take (Z.to_nat off) old ++ d ++ drop (Z.to_nat off + length d) old in
      (Ok (len d), with_files (<[p := mkFile (f_dir f) data (f_ino f)]> (fs_files o)) o)
  end.

Definition overlaps (s1 l1 s2 l2 : Z) : bool := (s1 <? s2 + l2) && (s2 <? s1 + l1).

Definition mem_setlk (fd : Z) (k : LockKind) (s l : Z) (o : MemFs) : result unit Z * MemFs :=
  let own := filter (λ x : Z * LockKind * Z * Z, ¬ (x.1.1.1 = fd ∧ overlaps s l x.1.2 x.2 = true)) (fs_locks o) in
  match k with
  | Unlock => (Ok tt, with_locks own o)
  | _ =>
      if existsb (λ x : Z * LockKind * Z * Z,
            overlaps s l x.1.2 x.2 && negb (x.1.1.1 =? fd) &&
            bool_decide (k = Exclusive ∨ x.1.1.2 = Exclusive)) (fs_locks o)
      then (Err libc.EAGAIN, o)
      else (Ok tt, with_locks ((fd, k, s, l) :: own) o)
  end.

(** The entries of a directory: the files one component below it. *)
Definition dir_base (p : path) : path :=
  if bool_decide (p = [] ∨ last p = Some 47) then p else p ++ [47].
Definition mem_children (p : path) (o : MemFs) : list (option RawDirEnt) :=
  omap (λ '(q, _),
    let name := drop (length (dir_base p)) q in
    if bool_decide (q = dir_base p ++ name ∧ name ≠ [] ∧ name ≠ lit "." ∧ name ≠ lit ".." ∧
                    0 ∉ name ∧ 47 ∉ name)
    then Some (Some (mkRawDirEnt (Some name) q)) else None) (map_to_list (fs_files o)).

(** A token that ends in 1 completes an exchange, one in 2 continues it. *)
Definition mem_accept (ctx : Z) (token : bytes) : GssAccept :=
  match last token with
  | Some 1 => mkGssAccept 0 0 4 5 (lit "ap-rep")
  | Some 2 => mkGssAccept 1 0 4 0 (lit "more")
  | _ => mkGssAccept 0xD0000 37 ctx 0 []
  end.

Definition mem_sys (A : Type) (c : call A) (o : MemFs) : A * MemFs :=
  match c in call A return A * MemFs with
  | c_stat p | c_lstat p | c_entry_meta p => (mem_lookup p o, o)
  | c_fmetadata fd =>
      (match fd_file fd o with Some (_, f) => Ok (mem_stat f) | None => Err (Some libc.EBADF) end, o)
  | c_open p flags _ => mem_open p flags o
  | c_fstat fd =>
      (match fd_file fd o with Some (_, f) => Ok (mem_stat f) | None => Err libc.EBADF end, o)
  | c_getfl _ => (Ok oflag.NONBLOCK, o)
  | c_setfl _ _ => (Ok tt, o)
  | c_close fd => (tt, with_fds (delete fd (fs_fds o)) o)
  | c_dup fd =>
      (match fs_fds o !! fd with
       | Some p => (Ok (fs_next o), with_fds (<[fs_next o := p]> (fs_fds o)) o)
       | None => (Err libc.EBADF, o)
       end)
  | c_mkdir p _ =>
      match fs_files o !! p with
      | Some _ => (Err libc.EEXIST, o)
      | None => (Ok tt, with_files (<[p := mkFile true [] (2000 + fs_next o)]> (fs_files o)) o)
      end
  | c_pread fd count off =>
      (match fd_file fd o with
       | Some (_, f) => Ok (take (Z.to_nat count) (drop (Z.to_nat off) (f_data f)))
       | None => Err libc.EBADF
       end, o)
  | c_pwrite fd d off => mem_pwrite fd d off o
  | c_ftruncate fd n =>
      match fd_file fd o with
      | Some (p, f) =>
          (Ok tt, with_files (<[p := mkFile (f_dir f) (take (Z.to_nat n) (f_data f)) (f_ino f)]> (fs_files o)) o)
      | None => (Err libc.EBADF, o)
      end
  | c_ofd_setlk fd k s l => mem_setlk fd k s l o
  | c_fsync _ => (Ok tt, o)
  | c_fadvise_seq _ => (tt, o)
  | c_statvfs _ => (Ok (mkStatVfs 4096 1000 500 600), o)
  | c_futimens _ _ _ => (Ok tt, o)
  | c_rename p q =>
      match fs_files o !! p with
      | Some f => (Ok tt, with_files (<[q := f]> (delete p (fs_files o))) o)
      | None => (Err (Some libc.ENOENT), o)
      end
  | c_rename_noreplace p q =>
      match fs_files o !! p, fs_files o !! q with
      | _, Some _ => (Err libc.EEXIST, o)
      | Some f, None => (Ok tt, with_files (<[q := f]> (delete p (fs_files o))) o)
      | None, None => (Err libc.ENOENT, o)
      end
  | c_unlink p | c_rmdir p =>
      match fs_files o !! p with
      | Some _ => (Ok tt, with_files (delete p (fs_files o)) o)
      | None => (Err (Some libc.ENOENT), o)
      end
  | c_read_dir p => (Ok (mem_children p o), o)
  | c_urandom n =>
      (take (Z.to_nat n) (le_bytes 8 (fs_next o) ++ replicate (Z.to_nat n) 7), with_fds (fs_fds o) o)
  | c_now => ((0, 0), o)
  | c_pipe2 => (Ok (fs_next o, fs_next o + 1), with_fds (fs_fds o) (with_fds (fs_fds o) o))
  | c_setpipe_sz _ _ => (tt, o)
  | c_getpipe_sz _ => (65536, o)
  | c_read _ n => (n, o)
  | c_shutdown _ => (tt, o)
  | c_nodelay _ => (tt, o)
  | c_inotify_init => (fs_next o, with_fds (fs_fds o) o)
  | c_inotify_add_watch _ p _ => (match fs_files o !! p with Some f => f_ino f | None => -1 end, o)
  | c_inotify_rm_watch _ _ => (tt, o)
  | c_gss_import_name _ _ => ((0, 0, 1), o)
  | c_gss_release_name _ => (tt, o)
  | c_gss_acquire_cred _ => ((0, 0, 2), o)
  | c_gss_accept ctx _ token => (mem_accept ctx token, o)
  | c_gss_delete_ctx _ => (tt, o)
  | c_gss_display_name _ => ((0, lit "alice@R"), o)
  | c_gss_name_attr _ _ => ((1, 0, []), o)
  | c_gss_inquire_ctx _ _ => ((0, 0, Some [replicate 32 9]), o)
  | c_gss_display_status _ _ _ => ((0, 0, lit "Clock skew too great"), o)
  | c_read_file p =>
      (if bool_decide (p = lit "/sys/class/net/eth0/speed") then Some (lit "2500" ++ [10])
       else if bool_decide (p = lit "rocketsmbd.toml") then Some [] else None, o)
  | c_getifaddrs =>
      (Some [mkIfAddr (lit "lo") 0x49 (Some (2, [127; 0; 0; 1])); mkIfAddr (lit "eth0") 0x1043 (Some (2, [10; 0; 0; 7]));
             mkIfAddr (lit "eth0") 0x1043 (Some (10, replicate 15 0 ++ [9])); mkIfAddr (lit "eth1") 0x1002 (Some (2, [10; 0; 0; 8]));
             mkIfAddr (lit "eth0") 0x1043 None], o)
  | c_if_nametoindex n => (len n mod 2 ^ 32, o)
  | c_ncpu => (4, o)
  | c_setaffinity _ => (tt, o)
  | c_parallelism => (Some 2%positive, o)
  | c_eventfd => (Some (fs_next o), with_fds (fs_fds o) o)
  | c_ignore_sigpipe => (tt, o)
  | c_setenv _ _ => (tt, o)
  | c_ring _ _ => (true, o)
  | c_probe_send_zc => (true, o)
  | c_socket _ => (Some (fs_next o), with_fds (fs_fds o) o)
  | c_reuse _ _ => (tt, o)
  | c_bind _ _ => (true, o)
  | c_listen _ _ => (true, o)
  | c_tcp_listen _ => (Some (fs_next o), with_fds (fs_fds o) o)
  | c_tcp_accept _ => (Some (fs_next o), with_fds (fs_fds o) o)
  | c_spawn _ => (true, o)
  | c_instant => (0, o)
  | c_sock_timeout _ _ _ => (true, o)
  | c_sock_read _ n => (Some (take (Z.to_nat n) (lit "GET /healthz HTTP/1.1" ++ [13; 10; 13; 10])), o)
  | c_sock_write _ _ => (true, o)
  end.

(** Toy primitives: a 16-, 32- or 64-byte digest of the input bytes. *)
Definition toy_digest (n : nat) (k d : bytes) : bytes :=
  le_bytes n (foldl (λ h b, (h * 31 + b + 1) mod 2 ^ 61) 7 (k ++ d)).

Definition toy_seal (k n a p : bytes) : bytes * bytes := (p, toy_digest 16 (k ++ n) (a ++ p)).

Definition mem_env : Env := {|
  kerberos := true;
  os := MemFs;
  sys := mem_sys;
  retry := 64;
  to_lowercase := λ s, ascii_lower <$> s;
  to_uppercase := λ s, ascii_upper <$> s;
  parse_socket_addr := λ s, if bool_decide (s = []) then None else Some (SaV4 [0; 0; 0; 0] 445);
  md4 := toy_digest 16 [];
  Os.hmac_md5 := toy_digest 16;
  hmac_sha256 := λ k ps, toy_digest 32 k (concat ps);
  aes128_cmac := λ k ps, toy_digest 16 k (concat ps);
  sha512 := λ ps, toy_digest 64 [] (concat ps);
  aead_seal := λ _ k n a p, toy_seal k n a p;
  aead_open := λ _ k n a ct tag, if decide ((toy_seal k n a ct).2 = tag) then Some ct else None;
|}.

#[global] Instance mem_crypto_laws : @CryptoLaws mem_env.
Proof.
  constructor; intros; simpl in *; unfold toy_digest; rewrite ?length_le_bytes; try done.
  unfold toy_seal in *. simplify_eq. by rewrite decide_True.
Qed.

#[global] Instance mem_crypto_streams : @CryptoStreams mem_env.
Proof. constructor; intros; simpl; by rewrite app_nil_r. Qed.

(** A share at [/s] with one file [/s/a] holding [hello] and one directory
    [/s/d]. *)
Definition mem_fs : MemFs := {|
  fs_files := <[lit "/s" := mkFile true [] 1]> (<[lit "/s/a" := mkFile false (lit "hello") 11]>
                (<[lit "/s/d" := mkFile true [] 12]> ∅));
  fs_fds := ∅; fs_next := 3; fs_locks := [] |}.
