(* ===== verification/Vfs.v ===== *)
(** The filesystem layer: metadata mapping, path resolution, opening, reading,
    writing and locking. Models src/vfs.rs (the open-handle table is in
    Handles.v). *)
From S2P Require Import Prelude Wire Status Os Sample.
Local Open Scope Z_scope.

Definition ATTR_READONLY : Z := 0x01.
Definition ATTR_HIDDEN : Z := 0x02.
Definition ATTR_DIRECTORY : Z := 0x10.
Definition ATTR_ARCHIVE : Z := 0x20.

Definition EPOCH_DELTA_SECS : Z := 11644473600.

(** Unix time to Windows FILETIME (100 ns ticks since 1601). *)
Definition filetime (secs nsec : Z) : Z :=
  if secs <? - EPOCH_DELTA_SECS then 0
  else wrap 64 (wrap 64 (wrap 64 (secs + EPOCH_DELTA_SECS) * 10000000) + wrap 64 nsec / 100).

Record Meta := mkMeta {
  m_size : Z; m_alloc : Z; m_attrs : Z; m_crtime : Z; m_atime : Z; m_mtime : Z;
  m_ctime : Z; m_ino : Z; m_nlink : Z; m_is_dir : bool }.

Definition S_IFMT : Z := 0xF000.
Definition S_IFDIR : Z := 0x4000.
Definition S_IFREG : Z := 0x8000.

(** [std::fs::Metadata::is_dir]. *)
Definition stat_is_dir (m : Stat) : bool := Z.land (sx_mode m) S_IFMT =? S_IFDIR.

Definition meta_from_std (m : Stat) : Meta :=
  let is_dir := stat_is_dir m in
  let attrs := if is_dir then ATTR_DIRECTORY else 0 in
  let attrs := if Z.land (sx_mode m) 0x80 =? 0 then Z.lor attrs ATTR_READONLY else attrs in
  let attrs := if attrs =? 0 then ATTR_ARCHIVE else attrs in
  let mtime := filetime (sx_mtime m) (sx_mtime_nsec m) in
  {| m_size := sx_size m; m_alloc := wrap 64 (sx_blocks m * 512); m_attrs := attrs;
     m_crtime := mtime; m_atime := filetime (sx_atime m) (sx_atime_nsec m);
     m_mtime := mtime; m_ctime := filetime (sx_ctime m) (sx_ctime_nsec m);
     m_ino := sx_ino m; m_nlink := wrap 32 (sx_nlink m); m_is_dir := is_dir |}.

(** Dotfiles get the DOS hidden attribute. *)
Definition finalize_attrs (attrs : Z) (leaf : str) : Z :=
  if bool_decide (head leaf = Some 46 ∧ leaf ≠ lit "." ∧ leaf ≠ lit "..")
  then Z.lor attrs ATTR_HIDDEN else attrs.

(** ** Path resolution *)

Definition BACKSLASH : Z := 92.
Definition SLASH : Z := 47.
Definition is_sep (c : Z) : bool := (c =? BACKSLASH) || (c =? SLASH).

(** [PathBuf::push] (an absolute argument replaces the path). *)
Definition path_push (p c : path) : path :=
  if bool_decide (head c = Some SLASH) then c
  else if bool_decide (p = [] ∨ last p = Some SLASH) then p ++ c
  else p ++ [SLASH] ++ c.

(** The loop of [resolve] over the components. *)
Fixpoint resolve_comps (p : path) (rel : str) (comps : list str) : result (path * str) Z :=
  match comps with
  | [] => Ok (p, rel)
  | c :: comps =>
      if bool_decide (c = [] ∨ c = lit ".") then resolve_comps p rel comps
      else if bool_decide (c = lit "..") then Err status.OBJECT_NAME_INVALID
      else if bool_decide (0 ∈ c) then Err status.OBJECT_NAME_INVALID
      else resolve_comps (path_push p c)
             (match rel with [] => c | _ => rel ++ [BACKSLASH] ++ c end) comps
  end.

(** Resolve a share-relative SMB name to a host path and the normalized
    relative name. *)
Definition resolve (root : path) (smb_name : str) : result (path * str) Z :=
  resolve_comps root [] (split_on is_sep smb_name).

(** [CString::new] refuses an interior NUL. *)
Definition cpath (p : path) : result path Z :=
  if bool_decide (0 ∈ p) then Err libc.EINVAL else Ok p.

(** [rel.rsplit('\\').next().unwrap_or("")]: the last component. *)
Definition rsplit_last (sep : Z) (s : str) : str :=
  default [] (last (split_on (λ c, c =? sep) s)).

(** ** System-call wrappers *)
Section vfs.
Context `{Env}.

Definition filetime_now : IO Z :=
  '(s, n) ← do c_now; mret (filetime s n).

(** [e.raw_os_error().unwrap_or(libc::EIO)]. *)
Definition io_errno (e : option Z) : Z := default libc.EIO e.

Definition stat_meta (p : path) : IO (result Meta Z) :=
  r ← do (c_stat p);
  mret (match r with Ok m => Ok (meta_from_std m) | Err e => Err (io_errno e) end).

Definition rename_noreplace (from to : path) : IO (result unit Z) :=
  match cpath from, cpath to with
  | Ok a, Ok b => do (c_rename_noreplace a b)
  | Err e, _ | _, Err e => mret (Err e)
  end.

Definition fstat_meta (fd : Z) : IO (result Meta Z) :=
  if fd <? 0 then mret (Err libc.EBADF)
  else r ← do (c_fmetadata fd);
       mret (match r with Ok m => Ok (meta_from_std m) | Err e => Err (io_errno e) end).

(** Open a regular file or directory; anything else is refused and the fd
    closed. The fd is returned in blocking mode. *)
Definition open_raw (p : path) (flags mode : Z) : IO (result Z Z) :=
  match cpath p with
  | Err e => mret (Err e)
  | Ok c =>
      r ← do (c_open c (Z.lor (Z.lor flags oflag.CLOEXEC) oflag.NONBLOCK) mode);
      match r with
      | Err e => mret (Err e)
      | Ok fd =>
          st ← do (c_fstat fd);
          let kind_ok : result unit Z :=
            match st with
            | Err e => Err e
            | Ok st =>
                let kind := Z.land (sx_mode st) S_IFMT in
                if (kind =? S_IFREG) || (kind =? S_IFDIR) then Ok tt else Err libc.ENXIO
            end in
          ok ← match kind_ok with
               | Err e => mret (Err e)
               | Ok _ =>
                   fl ← do (c_getfl fd);
                   match fl with
                   | Err e => mret (Err e)
                   | Ok fl => do (c_setfl fd (Z.ldiff fl oflag.NONBLOCK))
                   end
               end;
          match ok with
          | Ok _ => mret (Ok fd)
          | Err e => do (c_close fd) ;; mret (Err e)
          end
      end
  end.

(** [x as libc::off_t] of a u64. *)
Definition as_i64 (v : Z) : Z := if v <? 2 ^ 63 then v else v - 2 ^ 64.

(** [loop { pread }] until it is not interrupted. *)
Fixpoint pread_loop (fuel : nat) (fd count off : Z) : IO (result bytes Z) :=
  match fuel with
  | O => halt Spin
  | S fuel =>
      r ← do (c_pread fd count (as_i64 off));
      match r with
      | Ok d => mret (Ok d)
      | Err e => if e =? libc.EINTR then pread_loop fuel fd count off else mret (Err e)
      end
  end.
Definition pread (fd count off : Z) : IO (result bytes Z) := pread_loop retry fd count off.

(** [while !buf.is_empty() { pwrite ... }]; a count past the buffer would
    panic at [&buf[n..]]. *)
Fixpoint pwrite_loop (fuel : nat) (fd : Z) (buf : bytes) (off : Z) : IO (result unit Z) :=
  match buf with
  | [] => mret (Ok tt)
  | _ =>
      match fuel with
      | O => halt Spin
      | S fuel =>
          r ← do (c_pwrite fd buf (as_i64 off));
          match r with
          | Err e => if e =? libc.EINTR then pwrite_loop fuel fd buf off else mret (Err e)
          | Ok n =>
              if len buf <? n then halt Panic
              else pwrite_loop fuel fd (drop (Z.to_nat n) buf) (wrap 64 (off + n))
          end
      end
  end.
Definition pwrite_all (fd : Z) (buf : bytes) (off : Z) : IO (result unit Z) :=
  pwrite_loop retry fd buf off.

Definition ftruncate (fd length : Z) : IO (result unit Z) :=
  do (c_ftruncate fd (as_i64 length)).

(** The clamped range handed to [fcntl]: [None] when it covers no bytes. *)
Definition lock_range (off length : Z) : option (Z * Z) :=
  let start := Z.min off I64_MAX in
  let l_len := Z.min length (I64_MAX - start) in
  if l_len =? 0 then None else Some (start, l_len).

Definition range_lock (fd off length : Z) (kind : LockKind) : IO (result unit Z) :=
  match lock_range off length with
  | None => mret (Ok tt)
  | Some (start, l_len) => do (c_ofd_setlk fd kind start l_len)
  end.

Definition fsync (fd : Z) : IO (result unit Z) := do (c_fsync fd).

Definition advise_sequential (fd : Z) : IO unit := do (c_fadvise_seq fd).

(** (total units, caller-available, actually available, sectors per unit,
    bytes per sector). *)
Definition fs_sizes (fd : Z) : IO (result (Z * Z * Z * Z * Z) Z) :=
  r ← do (c_statvfs fd);
  mret (match r with
        | Err e => Err e
        | Ok s =>
            let frsize := if 0 <? sv_frsize s then sv_frsize s else 512 in
            let spu := wrap 32 (Z.max (frsize / 512) 1) in
            Ok (sv_blocks s, sv_bavail s, sv_bfree s, spu, 512)
        end).
End vfs.

(** ** Path resolution stays in the share *)

(** A component that names something strictly inside the current directory. *)
Definition clean (c : str) : Prop :=
  c ≠ [] ∧ c ≠ lit "." ∧ c ≠ lit ".." ∧ 0 ∉ c ∧ SLASH ∉ c ∧ BACKSLASH ∉ c.

(** The components joined with backslashes: the normalized relative name. *)
Fixpoint join_comps (comps : list str) : str :=
  match comps with
  | [] => []
  | [c] => c
  | c :: comps => c ++ [BACKSLASH] ++ join_comps comps
  end.

Definition trivial_comp (c : str) : Prop := c = [] ∨ c = lit ".".
Definition bad_comp (c : str) : Prop := c = lit ".." ∨ 0 ∈ c.
#[global] Instance trivial_comp_dec c : Decision (trivial_comp c) := _.
#[global] Instance bad_comp_dec c : Decision (bad_comp c) := _.

Lemma split_on_join p comps :
  p BACKSLASH = true → comps ≠ [] → Forall (λ w, Forall (λ c, p c = false) w) comps →
  split_on p (join_comps comps) = comps.
Proof.
  intros Hp Hne H. induction H as [|w comps Hw Hc IH]; [done|]. simpl.
  destruct comps as [|w' comps]; [by apply split_on_word|].
  by rewrite (split_on_app p w BACKSLASH), IH.
Qed.

Lemma is_sep_false c : is_sep c = false ↔ c ≠ BACKSLASH ∧ c ≠ SLASH.
Proof. unfold is_sep. rewrite orb_false_iff, !Z.eqb_neq. done. Qed.

Lemma no_sep_elem w : Forall (λ c, is_sep c = false) w → SLASH ∉ w ∧ BACKSLASH ∉ w.
Proof. rewrite Forall_forall. intros Hw. split; intros ?%Hw%is_sep_false; naive_solver. Qed.

Lemma join_comps_snoc comps c :
  Forall (λ w, w ≠ []) comps →
  join_comps (comps ++ [c]) =
    match join_comps comps with [] => c | _ => join_comps comps ++ [BACKSLASH] ++ c end.
Proof.
  induction 1 as [|w comps Hw Hc IH]; [done|]. simpl.
  destruct Hc as [|w' comps Hw' Hc]; simpl in *; [by destruct w|].
  rewrite IH.
  assert (join_comps (w' :: comps) ≠ []) as Hj.
  { simpl. destruct comps; [done|]. by destruct w'. }
  simpl in Hj. destruct w as [|x w]; [done|]. simpl.
  destruct (match comps with [] => w' | _ :: _ => _ end) as [|y j]; [done|].
  simpl. by rewrite <-!app_assoc.
Qed.

Lemma dot_no_nul : 0 ∉ lit ".".
Proof. apply (bool_decide_unpack _). by vm_compute. Qed.

(** The loop keeps the non-trivial components, in order. *)
Lemma resolve_comps_spec comps : ∀ p done,
  Forall (λ w, w ≠ []) done →
  resolve_comps p (join_comps done) comps =
    if decide (Exists bad_comp comps) then Err status.OBJECT_NAME_INVALID
    else Ok (foldl path_push p (filter (λ c, ¬ trivial_comp c) comps),
             join_comps (done ++ filter (λ c, ¬ trivial_comp c) comps)).
Proof.
  induction comps as [|c comps IH]; intros p dn Hd; cbn [resolve_comps].
  - rewrite decide_False by (by intros ?%Exists_nil). by rewrite filter_nil, app_nil_r.
  - rewrite filter_cons.
    case_bool_decide as Ht.
    { rewrite IH by done.
      assert (¬ bad_comp c) as Hb.
      { unfold bad_comp. destruct Ht as [->| ->].
        - rewrite elem_of_nil. intros [[=]|[]].
        - intros [[=]|Hin]. by apply dot_no_nul. }
      rewrite (decide_False (P := ¬ trivial_comp c)) by (intros Hn; by apply Hn).
      destruct (decide (Exists bad_comp comps)) as [E|E].
      - by rewrite decide_True by (by apply Exists_cons_tl).
      - rewrite decide_False; [done|]. rewrite Exists_cons. naive_solver. }
    rewrite (decide_True (P := ¬ trivial_comp c)) by done.
    case_bool_decide as Hdd.
    { subst c. rewrite decide_True; [done|]. apply Exists_cons_hd. by left. }
    case_bool_decide as H0.
    { rewrite decide_True; [done|]. apply Exists_cons_hd. by right. }
    assert (c ≠ []) as Hc by (intros ->; apply Ht; by left).
    rewrite <-join_comps_snoc by done.
    rewrite IH by (apply Forall_app; split; [done|by repeat constructor]).
    simpl. rewrite <-app_assoc. simpl.
    destruct (decide (Exists bad_comp comps)) as [E|E].
    + by rewrite decide_True by (by apply Exists_cons_tl).
    + rewrite decide_False; [done|]. rewrite Exists_cons. unfold bad_comp at 1. naive_solver.
Qed.

Definition kept (name : str) : list str :=
  filter (λ c, ¬ trivial_comp c) (split_on is_sep name).

Lemma resolve_spec root name :
  resolve root name =
    if decide (Exists bad_comp (split_on is_sep name)) then Err status.OBJECT_NAME_INVALID
    else Ok (foldl path_push root (kept name), join_comps (kept name)).
Proof. unfold resolve. apply (resolve_comps_spec _ root []). constructor. Qed.

Lemma kept_clean name : ¬ Exists bad_comp (split_on is_sep name) → Forall clean (kept name).
Proof.
  intros Hb. apply Forall_forall. intros c [Ht Hc]%list_elem_of_filter.
  pose proof (split_on_no_sep is_sep name) as Hs. rewrite Forall_forall in Hs.
  destruct (no_sep_elem _ (Hs _ Hc)) as [Hn1 Hn2].
  assert (¬ bad_comp c) as Hbc by (intros ?; apply Hb, Exists_exists; eauto).
  unfold clean, trivial_comp, bad_comp in *. split_and!; naive_solver.
Qed.

Lemma path_push_prefix p c : SLASH ∉ c → p `prefix_of` path_push p c.
Proof.
  intros Hc. unfold path_push. case_bool_decide as E.
  - destruct c; simplify_eq/=. exfalso. apply Hc. left.
  - case_bool_decide; by apply prefix_app_r.
Qed.

Lemma foldl_push_prefix comps : ∀ p,
  Forall clean comps → p `prefix_of` foldl path_push p comps.
Proof.
  induction comps as [|c comps IH]; intros p Hc; simpl; [done|].
  apply Forall_cons in Hc as [Hc Hcs]. etrans; [|by apply IH].
  apply path_push_prefix, Hc.
Qed.

Lemma clean_not_trivial c : clean c → ¬ trivial_comp c.
Proof. unfold clean, trivial_comp. naive_solver. Qed.

Lemma filter_clean comps :
  Forall clean comps → filter (λ c, ¬ trivial_comp c) comps = comps.
Proof.
  induction 1 as [|c comps Hc _ IH]; [done|].
  rewrite filter_cons, decide_True, IH by (by apply clean_not_trivial). done.
Qed.

Lemma clean_no_sep c : clean c → Forall (λ x, is_sep x = false) c.
Proof.
  intros (_ & _ & _ & _ & Hs & Hb). apply Forall_forall. intros x Hx.
  apply is_sep_false. split; intros ->; done.
Qed.

Lemma resolve_join root comps :
  Forall clean comps →
  resolve root (join_comps comps) = Ok (foldl path_push root comps, join_comps comps).
Proof.
  intros Hc. rewrite resolve_spec. unfold kept.
  destruct (decide (comps = [])) as [->|Hne]; [done|].
  rewrite split_on_join; [|done..|].
  - rewrite filter_clean by done. rewrite decide_False; [done|].
    rewrite Exists_exists. intros (c & Hin & Hbad). rewrite Forall_forall in Hc.
    destruct (Hc _ Hin) as (_ & _ & ? & ? & _). destruct Hbad; done.
  - eapply Forall_impl; [exact Hc|]. apply clean_no_sep.
Qed.

(** A name that resolves stays in the share: the host path is the share
    root extended with components none of which is empty, [.], [..], or
    contains a separator or NUL; the normalized relative name is those
    components, and resolving it again gives the same result. *)
Theorem resolve_stays_in_share root name p rel :
  resolve root name = Ok (p, rel) →
  ∃ comps, Forall clean comps ∧ p = foldl path_push root comps ∧ root `prefix_of` p ∧
    rel = join_comps comps ∧ resolve root rel = Ok (p, rel).
Proof.
  rewrite resolve_spec. case_decide as Hb; [done|]. intros [= <- <-].
  apply kept_clean in Hb. exists (kept name).
  split_and!; [done..|by apply foldl_push_prefix|done|by apply resolve_join].
Qed.

Lemma resolve_stays_in_share_witness :
  ∃ comps, Forall clean comps ∧
    lit "/srv/data/dir/f.txt" = foldl path_push (lit "/srv/data") comps ∧
    lit "/srv/data" `prefix_of` lit "/srv/data/dir/f.txt" ∧
    lit "dir\f.txt" = join_comps comps ∧
    resolve (lit "/srv/data") (lit "dir\f.txt") = Ok (lit "/srv/data/dir/f.txt", lit "dir\f.txt").
Proof. apply (resolve_stays_in_share _ (lit "dir\.\\f.txt")). by vm_compute. Defined.

(** Resolution fails exactly on names with a [..] component or a NUL, and
    always with OBJECT_NAME_INVALID. *)
Theorem resolve_rejects root name e :
  resolve root name = Err e ↔
  e = status.OBJECT_NAME_INVALID ∧ ∃ c, c ∈ split_on is_sep name ∧ (c = lit ".." ∨ 0 ∈ c).
Proof.
  rewrite resolve_spec. rewrite <-(Exists_exists bad_comp).
  case_decide; naive_solver.
Qed.

(** ** Byte-range locks *)

(** C38: The range handed to the kernel is the client's range clipped to file
    offsets below 2^63 - 1: it never overflows a signed 64-bit offset, is
    never the zero length that POSIX reads as "to the end of the file", and no
    call is made when the clipped range is empty. *)
Theorem lock_range_clips off length :
  0 ≤ off → 0 ≤ length →
  (∀ start l, lock_range off length = Some (start, l) →
     0 ≤ start ∧ 0 < l ∧ start + l ≤ I64_MAX ∧
     ∀ x, start ≤ x < start + l ↔ off ≤ x < off + length ∧ x < I64_MAX) ∧
  (lock_range off length = None ↔ ¬ ∃ x, off ≤ x < off + length ∧ x < I64_MAX).
Proof.
  intros Ho Hl. unfold lock_range. assert (0 < I64_MAX) by done.
  destruct (Z.eqb_spec (Z.min length (I64_MAX - Z.min off I64_MAX)) 0) as [E|E]; split.
  - done.
  - split; [|done]. intros _ (x & Hx). lia.
  - intros start l [= <- <-]. split_and!; try lia.
  - split; [done|]. intros Hn. exfalso. apply Hn. exists off. lia.
Qed.

Lemma lock_range_clips_witness :
  lock_range 10 (2 ^ 64 - 1) = Some (10, I64_MAX - 10) ∧
  ∀ x, 10 ≤ x < 10 + (I64_MAX - 10) ↔ 10 ≤ x < 10 + (2 ^ 64 - 1) ∧ x < I64_MAX.
Proof.
  assert (lock_range 10 (2 ^ 64 - 1) = Some (10, I64_MAX - 10)) as E by (by vm_compute).
  split; [exact E|].
  destruct (lock_range_clips 10 (2 ^ 64 - 1) ltac:(lia) ltac:(lia)) as [Hs _].
  apply (Hs _ _ E).
Defined.

(** ** Writing *)
Section writing.
Context `{Env}.

(** What the kernel accepted, call by call: offset and bytes. *)
Definition accepted (fd : Z) (t : list event) : list (Z * bytes) :=
  t ≫= λ e, match e with
            | Ev c a =>
                match c in call A return A → list (Z * bytes) with
                | c_pwrite fd' d off => λ r,
                    match r with
                    | Ok n => if fd' =? fd then [(off, take (Z.to_nat n) d)] else []
                    | Err _ => []
                    end
                | _ => λ _, []
                end a
            end.

Lemma accepted_ok fd d off n t :
  accepted fd (Ev (c_pwrite fd d off) (Ok n) :: t) = (off, take (Z.to_nat n) d) :: accepted fd t.
Proof. unfold accepted. rewrite bind_cons, Z.eqb_refl. done. Qed.

(** Consecutive pieces starting at [off]. *)
Fixpoint contiguous (off : Z) (ps : list (Z * bytes)) : Prop :=
  match ps with
  | [] => True
  | (o, d) :: ps => o = as_i64 off ∧ contiguous (wrap 64 (off + len d)) ps
  end.

(** The kernel never reports writing a negative count or more than asked. *)
Definition pwrite_bounded : Prop := ∀ fd d off o n o',
  sys _ (c_pwrite fd d off) o = (Ok n, o') → 0 ≤ n ≤ len d.

Lemma pwrite_loop_S fuel fd buf off s :
  buf ≠ [] →
  pwrite_loop (S fuel) fd buf off s =
    let '(r, o) := sys _ (c_pwrite fd buf (as_i64 off)) (os_st s) in
    let s' := {| os_st := o; os_trace := os_trace s ++ [Ev (c_pwrite fd buf (as_i64 off)) r] |} in
    match r with
    | Err e => if e =? libc.EINTR then pwrite_loop fuel fd buf off s' else (inl (Err e), s')
    | Ok n =>
        if len buf <? n then (inr Panic, s')
        else pwrite_loop fuel fd (drop (Z.to_nat n) buf) (wrap 64 (off + n)) s'
    end.
Proof.
  intros Hb. destruct buf as [|x buf]; [done|]. unfold pwrite_loop at 1; fold pwrite_loop.
  unfold mbind, ST_bind, do. destruct (sys _ _ _) as [[n|e] o].
  - by destruct (_ <? _).
  - by destruct (e =? libc.EINTR).
Qed.

Lemma pwrite_loop_ok (Hb : pwrite_bounded) fuel : ∀ fd buf off s s',
  pwrite_loop fuel fd buf off s = (inl (Ok tt), s') →
  ∃ t, os_trace s' = os_trace s ++ t ∧ concat (accepted fd t).*2 = buf ∧
    contiguous off (accepted fd t).
Proof.
  induction fuel as [|fuel IH]; intros fd buf off s s'.
  { destruct buf; simpl; [|done]. intros [= <-]. exists []. by rewrite app_nil_r. }
  destruct (decide (buf = [])) as [->|Hne].
  { simpl. intros [= <-]. exists []. by rewrite app_nil_r. }
  rewrite pwrite_loop_S by done. destruct (sys _ _ _) as [[n|e] o] eqn:Es.
  - apply Hb in Es. destruct (Z.ltb_spec (len buf) n); [done|].
    intros (t & Ht & Hc & Hg)%IH. simpl in Ht.
    exists (Ev (c_pwrite fd buf (as_i64 off)) (Ok n) :: t).
    split; [by rewrite Ht, <-app_assoc|].
    rewrite accepted_ok, fmap_cons. cbn [concat contiguous snd].
    rewrite length_take, Nat2Z.inj_min, Z2Nat.id, Z.min_l by lia.
    rewrite Hc, take_drop. done.
  - destruct (Z.eqb_spec e libc.EINTR); [|done].
    intros (t & Ht & Hc & Hg)%IH. simpl in Ht.
    exists (Ev (c_pwrite fd buf (as_i64 off)) (Err e) :: t).
    split; [by rewrite Ht, <-app_assoc|]. done.
Qed.

(** The kernel answers every write with progress or with an error other
    than EINTR. *)
Definition pwrite_progress : Prop := ∀ fd d off o r o',
  d ≠ [] → sys _ (c_pwrite fd d off) o = (r, o') →
  match r with Ok n => 0 < n ≤ len d | Err e => e ≠ libc.EINTR end.

Lemma pwrite_loop_total (Hp : pwrite_progress) fuel : ∀ fd buf off s,
  (length buf ≤ fuel)%nat → ∃ r, (pwrite_loop fuel fd buf off s).1 = inl r.
Proof.
  induction fuel as [|fuel IH]; intros fd buf off s Hl.
  { destruct buf; simpl in *; [eauto|lia]. }
  destruct (decide (buf = [])) as [->|Hne]; [simpl; eauto|].
  rewrite pwrite_loop_S by done. destruct (sys _ _ _) as [r o] eqn:Es.
  apply Hp in Es; [|done]. destruct r as [n|e].
  - destruct (Z.ltb_spec (len buf) n); [lia|]. apply IH. rewrite length_drop. lia.
  - destruct (Z.eqb_spec e libc.EINTR); [done|]. eauto.
Qed.

(** C37: When a write reports success, the bytes the kernel accepted, over
    all the calls made, are exactly the client's buffer at consecutive
    offsets from the requested one; and as long as the kernel makes
    progress on every call, the loop returns. *)
Theorem pwrite_all_writes_all fd buf off s :
  (pwrite_bounded → ∀ s', pwrite_all fd buf off s = (inl (Ok tt), s') →
     ∃ t, os_trace s' = os_trace s ++ t ∧ concat (accepted fd t).*2 = buf ∧
       contiguous off (accepted fd t)) ∧
  (pwrite_progress → (length buf ≤ retry)%nat → ∃ r, (pwrite_all fd buf off s).1 = inl r).
Proof.
  split.
  - intros Hb s'. by apply pwrite_loop_ok.
  - intros Hp Hl. by apply pwrite_loop_total.
Qed.
End writing.

(** Writing three bytes into the sample filesystem, two per call at most. *)
Definition mem_open_a : @OsSt mem_env :=
  @mkOsSt mem_env (with_fds (<[3 := lit "/s/a"]> ∅) mem_fs) [].

Lemma mem_pwrite_bounded : @pwrite_bounded mem_env.
Proof.
  intros fd d off o n o'. simpl. unfold mem_pwrite.
  destruct (fd_file fd o) as [[p f]|]; [|done]. intros [= <- _].
  rewrite length_take. lia.
Qed.

Lemma mem_pwrite_progress : @pwrite_progress mem_env.
Proof.
  intros fd d off o r o' Hd. simpl. unfold mem_pwrite.
  destruct (fd_file fd o) as [[p f]|]; intros [= <- _]; [|done].
  rewrite length_take. destruct d; [done|]. cbn [length]. lia.
Qed.

Lemma pwrite_all_writes_all_witness :
  (∃ t, os_trace (@pwrite_all mem_env 3 (lit "abc") 1 mem_open_a).2 = [] ++ t ∧
     concat (accepted 3 t).*2 = lit "abc" ∧ contiguous 1 (accepted 3 t)) ∧
  ∃ r, (@pwrite_all mem_env 3 (lit "abc") 1 mem_open_a).1 = inl r.
Proof.
  destruct (@pwrite_all_writes_all mem_env 3 (lit "abc") 1 mem_open_a) as [H1 H2]. split.
  - apply (H1 mem_pwrite_bounded), fst_eq_pair. by vm_compute.
  - apply (H2 mem_pwrite_progress). vm_compute. lia.
Defined.
