(* ===== verification/Handles.v ===== *)
(** Open files and the generation-tagged table of open handles of a session.
    Models [OpenFile], [DirState], [dir_snapshot] and [HandleTable] of
    src/vfs.rs. *)
From S2P Require Import Prelude Wire Status Os Vfs.
Local Open Scope Z_scope.

Record DirEnt := mkDirEnt { de_name : str; de_meta : Meta }.

Record DirState := mkDirState { ds_entries : list DirEnt; ds_pos : Z; ds_pattern : str }.

Record OpenFile := mkOpenFile {
  of_fd : Z; of_path : path; of_rel : str; of_leaf : str; of_share_idx : Z; of_tree_id : Z;
  of_is_dir : bool; of_writable : bool; of_delete_on_close : bool; of_dir : option DirState;
  of_oplock_ino : option Z; of_lease_key : option bytes; of_lease_granted : Z }.

Definition of_set_dir (d : option DirState) (o : OpenFile) : OpenFile :=
  mkOpenFile (of_fd o) (of_path o) (of_rel o) (of_leaf o) (of_share_idx o) (of_tree_id o)
    (of_is_dir o) (of_writable o) (of_delete_on_close o) d
    (of_oplock_ino o) (of_lease_key o) (of_lease_granted o).
Definition of_set_delete (b : bool) (o : OpenFile) : OpenFile :=
  mkOpenFile (of_fd o) (of_path o) (of_rel o) (of_leaf o) (of_share_idx o) (of_tree_id o)
    (of_is_dir o) (of_writable o) b (of_dir o)
    (of_oplock_ino o) (of_lease_key o) (of_lease_granted o).
Definition of_set_name (p : path) (rel leaf : str) (o : OpenFile) : OpenFile :=
  mkOpenFile (of_fd o) p rel leaf (of_share_idx o) (of_tree_id o)
    (of_is_dir o) (of_writable o) (of_delete_on_close o) (of_dir o)
    (of_oplock_ino o) (of_lease_key o) (of_lease_granted o).

Section snapshot.
Context `{Env}.

(** The body of the [for ent in rd.flatten()] loop. *)
Fixpoint snapshot_entries (ents : list (option RawDirEnt)) : IO (list DirEnt) :=
  match ents with
  | [] => mret []
  | None :: ents => snapshot_entries ents
  | Some e :: ents =>
      match rde_name e with
      | None => snapshot_entries ents
      | Some name =>
          r ← do (c_entry_meta (rde_path e));
          r ← (match r with Ok m => mret (Ok m) | Err _ => do (c_lstat (rde_path e)) end);
          match r with
          | Err _ => snapshot_entries ents
          | Ok md =>
              let meta := meta_from_std md in
              let meta := mkMeta (m_size meta) (m_alloc meta) (finalize_attrs (m_attrs meta) name)
                            (m_crtime meta) (m_atime meta) (m_mtime meta) (m_ctime meta)
                            (m_ino meta) (m_nlink meta) (m_is_dir meta) in
              rest ← snapshot_entries ents;
              mret (mkDirEnt name meta :: rest)
          end
      end
  end.

(** The full listing, [.] and [..] first, then the pattern applied. *)
Definition dir_snapshot (f : OpenFile) (pattern : str) : IO (result (list DirEnt) Z) :=
  sm ← fstat_meta (of_fd f);
  match sm with
  | Err e => mret (Err e)
  | Ok self_meta =>
      rd ← do (c_read_dir (of_path f));
      match rd with
      | Err e => mret (Err (io_errno e))
      | Ok ents =>
          rest ← snapshot_entries ents;
          let out := mkDirEnt (lit ".") self_meta :: mkDirEnt (lit "..") self_meta :: rest in
          mret (Ok (if bool_decide (pattern = [] ∨ pattern = lit "*") then out
                    else filter (λ e, to_lowercase (de_name e) = to_lowercase pattern) out))
      end
  end.
End snapshot.

(** ** The handle table *)

(** [free] is a stack: the head is the top ([Vec::push] / [Vec::pop]). *)
Record HandleTable := mkHandleTable {
  ht_slots : list (option OpenFile); ht_gens : list Z; ht_free : list nat }.

Definition ht_empty : HandleTable := mkHandleTable [] [] [].

Definition mk_fid (gen : Z) (idx : nat) : Z := Z.lor (Z.shiftl gen 32) (Z.of_nat idx).

Definition ht_insert (f : OpenFile) (t : HandleTable) : Z * HandleTable :=
  match ht_free t with
  | i :: free =>
      (mk_fid (default 0 (ht_gens t !! i)) i,
       mkHandleTable (<[i := Some f]> (ht_slots t)) (ht_gens t) free)
  | [] =>
      (mk_fid 1 (length (ht_slots t)),
       mkHandleTable (ht_slots t ++ [Some f]) (ht_gens t ++ [1]) [])
  end.

Definition ht_slot (id : Z) (t : HandleTable) : option nat :=
  let idx := Z.to_nat (Z.land id 0xFFFFFFFF) in
  let gen := Z.shiftr id 32 in
  if bool_decide ((idx < length (ht_slots t))%nat ∧ ht_gens t !! idx = Some gen ∧
                  is_Some (mjoin (ht_slots t !! idx)))
  then Some idx else None.

(** [HandleTable::get]: the live handle [id], if opened on [tree_id]. *)
Definition ht_get (id tree_id : Z) (t : HandleTable) : option OpenFile :=
  idx ← ht_slot id t;
  f ← mjoin (ht_slots t !! idx);
  if of_tree_id f =? tree_id then Some f else None.

(** A change through the [&mut OpenFile] that [get] returns. *)
Definition ht_set (id : Z) (f : OpenFile) (t : HandleTable) : HandleTable :=
  match ht_slot id t with
  | Some idx => mkHandleTable (<[idx := Some f]> (ht_slots t)) (ht_gens t) (ht_free t)
  | None => t
  end.

(** [gens[i].wrapping_add(1).max(1)]. *)
Definition next_gen (g : Z) : Z := Z.max (wrap 32 (g + 1)) 1.

(** A slot's file leaves: the slot empties, its generation moves on. *)
Definition ht_vacate (idx : nat) (t : HandleTable) : HandleTable :=
  mkHandleTable (<[idx := None]> (ht_slots t)) (alter next_gen idx (ht_gens t)) (idx :: ht_free t).

Definition ht_remove (id tree_id : Z) (t : HandleTable) : option (OpenFile * HandleTable) :=
  idx ← ht_slot id t;
  f ← mjoin (ht_slots t !! idx);
  if of_tree_id f =? tree_id then Some (f, ht_vacate idx t) else None.

Definition ht_len (t : HandleTable) : Z := len (ht_slots t) - len (ht_free t).

(** The ids of every handle opened on [tree_id]. *)
Definition ht_ids_in_tree (tree_id : Z) (t : HandleTable) : list Z :=
  omap (λ i, f ← mjoin (ht_slots t !! i);
             if of_tree_id f =? tree_id then Some (mk_fid (default 0 (ht_gens t !! i)) i) else None)
    (seq 0 (length (ht_slots t))).

(** [take_all]: the loop over the slot indices. *)
Fixpoint ht_take_from (idxs : list nat) (t : HandleTable) : list OpenFile * HandleTable :=
  match idxs with
  | [] => ([], t)
  | i :: idxs =>
      match mjoin (ht_slots t !! i) with
      | Some f => let '(v, t') := ht_take_from idxs (ht_vacate i t) in (f :: v, t')
      | None => ht_take_from idxs t
      end
  end.
Definition ht_take_all (t : HandleTable) : list OpenFile * HandleTable :=
  ht_take_from (seq 0 (length (ht_slots t))) t.

(** ** Handle ids *)
Lemma mk_fid_index gen idx :
  0 ≤ gen → Z.of_nat idx < 2 ^ 32 → Z.land (mk_fid gen idx) 0xFFFFFFFF = Z.of_nat idx.
Proof.
  intros. unfold mk_fid. change 0xFFFFFFFF with (Z.ones 32).
  rewrite Z.land_lor_distr_l, !Z.land_ones, Z.shiftl_mul_pow2, Z.mod_mul by lia.
  rewrite Z.lor_0_l. apply Z.mod_small. lia.
Qed.

Lemma mk_fid_gen gen idx :
  0 ≤ gen → Z.of_nat idx < 2 ^ 32 → Z.shiftr (mk_fid gen idx) 32 = gen.
Proof.
  intros. unfold mk_fid. rewrite Z.shiftr_lor, Z.shiftr_shiftl_l, Z.shiftl_0_r by lia.
  rewrite (Z.shiftr_div_pow2 (Z.of_nat idx)), Z.div_small, Z.lor_0_r by lia. done.
Qed.

Lemma mk_fid_eta id : mk_fid (Z.shiftr id 32) (Z.to_nat (Z.land id 0xFFFFFFFF)) = id.
Proof.
  unfold mk_fid. change 0xFFFFFFFF with (Z.ones 32).
  rewrite Z2Nat.id by (rewrite Z.land_ones by lia; apply Z.mod_pos_bound; lia).
  by apply lor_high_low.
Qed.

Lemma mk_fid_inj g i g' i' :
  0 ≤ g → 0 ≤ g' → Z.of_nat i < 2 ^ 32 → Z.of_nat i' < 2 ^ 32 →
  mk_fid g i = mk_fid g' i' → g = g' ∧ i = i'.
Proof.
  intros ???? E. split.
  - by rewrite <-(mk_fid_gen g i), E, mk_fid_gen.
  - apply Nat2Z.inj. by rewrite <-(mk_fid_index g i), E, mk_fid_index.
Qed.

(** ** Well-formedness *)
Record ht_wf (t : HandleTable) : Prop := {
  wf_len : length (ht_gens t) = length (ht_slots t);
  wf_cap : len (ht_slots t) < 2 ^ 32;
  wf_gens : ∀ i g, ht_gens t !! i = Some g → 1 ≤ g < 2 ^ 32;
  wf_free_nodup : NoDup (ht_free t);
  wf_free : ∀ i, i ∈ ht_free t ↔ ht_slots t !! i = Some None }.

(** The abstract view: the finite map from live ids to open files. *)
Definition ht_view (t : HandleTable) (id : Z) : option OpenFile :=
  idx ← ht_slot id t; mjoin (ht_slots t !! idx).

Definition live_at (t : HandleTable) (i : nat) (g : Z) (f : OpenFile) : Prop :=
  ht_gens t !! i = Some g ∧ ht_slots t !! i = Some (Some f).

Lemma ht_slot_Some id t idx :
  ht_slot id t = Some idx ↔
  idx = Z.to_nat (Z.land id 0xFFFFFFFF) ∧ ∃ f, live_at t idx (Z.shiftr id 32) f.
Proof.
  unfold ht_slot, live_at. case_bool_decide as Hd.
  - destruct Hd as (Hl & Hg & [f Hf]). split.
    + intros [= <-]. split; [done|]. exists f.
      destruct (ht_slots t !! _) as [[?|]|]; simplify_eq/=. done.
    + by intros [-> _].
  - split; [done|]. intros (-> & f & Hg & Hs). exfalso. apply Hd.
    split_and!; [by eapply lookup_lt_Some|done|]. rewrite Hs. simpl. eauto.
Qed.

Lemma live_cap t i g f : ht_wf t → live_at t i g f → Z.of_nat i < 2 ^ 32 ∧ 1 ≤ g < 2 ^ 32.
Proof.
  intros Hw [Hg Hs]. split; [|by eapply wf_gens].
  pose proof (wf_cap _ Hw). apply lookup_lt_Some in Hs. lia.
Qed.

Lemma ht_view_Some t id f :
  ht_wf t → ht_view t id = Some f ↔ ∃ i g, id = mk_fid g i ∧ live_at t i g f.
Proof.
  intros Hw. unfold ht_view. split.
  - destruct (ht_slot id t) as [idx|] eqn:E; simpl; [|done].
    apply ht_slot_Some in E as (-> & f' & Hl). intros Hf.
    eexists _, _. split; [symmetry; apply mk_fid_eta|].
    destruct Hl as [Hg Hs]. rewrite Hs in Hf. simplify_eq/=. done.
  - intros (i & g & -> & Hl). destruct (live_cap _ _ _ _ Hw Hl).
    assert (ht_slot (mk_fid g i) t = Some i) as ->.
    { apply ht_slot_Some. rewrite mk_fid_index, mk_fid_gen, Nat2Z.id by lia. eauto. }
    simpl. by rewrite (proj2 Hl).
Qed.

(** Two tables whose live slots agree away from [i] have the same view there. *)
Lemma ht_view_ext t t' id :
  ht_wf t → ht_wf t' →
  (∀ i g f, id = mk_fid g i → live_at t' i g f ↔ live_at t i g f) →
  ht_view t' id = ht_view t id.
Proof.
  intros Hw Hw' He. apply option_eq. intros f. rewrite !ht_view_Some by done.
  split; intros (i & g & Hid & Hl); exists i, g; (split; [done|]); by apply (He _ _ _ Hid).
Qed.

Lemma ht_view_None t id i g :
  ht_wf t → id = mk_fid g i → 0 ≤ g → Z.of_nat i < 2 ^ 32 →
  (∀ f, ¬ live_at t i g f) → ht_view t id = None.
Proof.
  intros Hw -> Hg Hi Hn. apply eq_None_not_Some. intros [f Hf].
  apply ht_view_Some in Hf as (i' & g' & E & Hl); [|done].
  destruct (live_cap _ _ _ _ Hw Hl).
  apply mk_fid_inj in E as [-> ->]; [|lia..]. by apply (Hn f).
Qed.

Lemma ht_empty_wf : ht_wf ht_empty.
Proof. constructor; simpl; try done; [constructor|]. intros i. rewrite elem_of_nil. done. Qed.

(** ** Insertion *)
Lemma ht_insert_wf f t :
  ht_wf t → ht_len t < 2 ^ 32 - 1 → ht_wf (ht_insert f t).2.
Proof.
  intros Hw Hlen. unfold ht_insert, ht_len in *. destruct (ht_free t) as [|i free] eqn:Ef; simpl.
  - constructor; simpl.
    + rewrite !length_app, (wf_len _ Hw). done.
    + rewrite length_app; simpl in *. lia.
    + intros j g [Hj|[_ Hj]]%lookup_app_Some; [by eapply wf_gens|].
      apply list_lookup_singleton_Some in Hj as [_ <-]. done.
    + constructor.
    + intros j. rewrite elem_of_nil. split; [done|].
      intros [Hj|[_ Hj]]%lookup_app_Some; [|by apply list_lookup_singleton_Some in Hj as [_ ?]].
      apply (wf_free _ Hw) in Hj. rewrite Ef in Hj. by apply elem_of_nil in Hj.
  - assert (ht_slots t !! i = Some None) as Hi.
    { apply (wf_free _ Hw). rewrite Ef. left. }
    pose proof (wf_free_nodup _ Hw) as Hnd. rewrite Ef in Hnd. apply NoDup_cons in Hnd as [Hni Hnd].
    constructor; simpl.
    + rewrite length_insert. apply (wf_len _ Hw).
    + rewrite length_insert. apply (wf_cap _ Hw).
    + apply (wf_gens _ Hw).
    + done.
    + intros j. destruct (decide (i = j)) as [<-|Hne].
      * rewrite list_lookup_insert_eq by (by eapply lookup_lt_Some). naive_solver.
      * rewrite list_lookup_insert_ne by done. rewrite <-(wf_free _ Hw), Ef, elem_of_cons.
        naive_solver.
Qed.

Lemma ht_insert_live f t :
  ht_wf t → ht_len t < 2 ^ 32 - 1 →
  ∃ i g, (ht_insert f t).1 = mk_fid g i ∧ 1 ≤ g < 2 ^ 32 ∧ Z.of_nat i < 2 ^ 32 ∧
    (∀ f', ¬ live_at t i g f') ∧ live_at (ht_insert f t).2 i g f ∧
    (∀ j, j ≠ i → (ht_insert f t).2.(ht_gens) !! j = ht_gens t !! j ∧
                  (ht_insert f t).2.(ht_slots) !! j = ht_slots t !! j) ∧
    (∀ g', ht_gens t !! i = Some g' → g' = g ∧ ht_slots t !! i = Some None).
Proof.
  intros Hw Hlen. unfold ht_insert, ht_len, live_at in *.
  destruct (ht_free t) as [|i free] eqn:Ef; simpl in *.
  - exists (length (ht_slots t)), 1. split_and!; try done; try lia.
    + intros f' [_ Hs%lookup_lt_Some]. lia.
    + rewrite lookup_app_r by (rewrite (wf_len _ Hw); done). by rewrite (wf_len _ Hw), Nat.sub_diag.
    + rewrite lookup_app_r, Nat.sub_diag by done. done.
    + intros j Hj. destruct (decide (j < length (ht_slots t))%nat).
      * by rewrite !lookup_app_l by (rewrite ?(wf_len _ Hw); done).
      * rewrite !lookup_ge_None_2 by (rewrite ?length_app, ?(wf_len _ Hw); simpl; lia). done.
    + intros g' Hg%lookup_lt_Some. rewrite (wf_len _ Hw) in Hg. lia.
  - assert (ht_slots t !! i = Some None) as Hi.
    { apply (wf_free _ Hw). rewrite Ef. left. }
    pose proof (lookup_lt_Some _ _ _ Hi) as Hil.
    destruct (lookup_lt_is_Some_2 (ht_gens t) i) as [g Hg]; [by rewrite (wf_len _ Hw)|].
    rewrite Hg. simpl. exists i, g. pose proof (wf_gens _ Hw _ _ Hg). pose proof (wf_cap _ Hw).
    split_and!; try done; try lia.
    + intros f' [_ Hs]. congruence.
    + by rewrite list_lookup_insert_eq.
    + intros j Hj. by rewrite list_lookup_insert_ne.
    + intros g' Hg'. by simplify_eq.
Qed.

Lemma ht_len_insert f t : ht_len (ht_insert f t).2 = ht_len t + 1.
Proof.
  unfold ht_insert, ht_len. destruct (ht_free t); simpl;
    rewrite ?length_app, ?length_insert; simpl; lia.
Qed.

(** ** Removal *)
Lemma next_gen_range g : 1 ≤ next_gen g < 2 ^ 32.
Proof.
  unfold next_gen, wrap. pose proof (Z.mod_pos_bound (g + 1) (2 ^ 32)). lia.
Qed.

Lemma next_gen_small g : 1 ≤ g < 2 ^ 32 - 1 → next_gen g = g + 1.
Proof. intros. unfold next_gen, wrap. rewrite Z.mod_small; lia. Qed.

Lemma next_gen_ne g : 1 ≤ g < 2 ^ 32 → next_gen g ≠ g.
Proof.
  intros. unfold next_gen, wrap. destruct (decide (g = 2 ^ 32 - 1)) as [->|]; [done|].
  rewrite Z.mod_small; lia.
Qed.

Lemma ht_vacate_wf i g f t : ht_wf t → live_at t i g f → ht_wf (ht_vacate i t).
Proof.
  intros Hw [Hg Hs]. constructor; simpl.
  - rewrite length_insert, length_alter. apply (wf_len _ Hw).
  - rewrite length_insert. apply (wf_cap _ Hw).
  - intros j g' Hj. destruct (decide (i = j)) as [<-|].
    + rewrite list_lookup_alter_eq, Hg in Hj. simplify_eq/=. apply next_gen_range.
    + rewrite list_lookup_alter_ne in Hj by done. by eapply wf_gens.
  - constructor; [|apply (wf_free_nodup _ Hw)]. intros Hi%(wf_free _ Hw). congruence.
  - intros j. rewrite elem_of_cons. destruct (decide (i = j)) as [<-|Hne].
    + rewrite list_lookup_insert_eq by (by eapply lookup_lt_Some). naive_solver.
    + rewrite list_lookup_insert_ne by done. rewrite (wf_free _ Hw). naive_solver.
Qed.

Lemma ht_vacate_live i g f t j g' f' :
  ht_wf t → live_at t i g f → live_at (ht_vacate i t) j g' f' ↔ j ≠ i ∧ live_at t j g' f'.
Proof.
  intros Hw [Hg Hs]. unfold live_at; simpl. destruct (decide (j = i)) as [->|Hne].
  - rewrite list_lookup_insert_eq by (by eapply lookup_lt_Some). naive_solver.
  - rewrite list_lookup_alter_ne, list_lookup_insert_ne by done. naive_solver.
Qed.

Lemma ht_len_vacate i t : ht_len (ht_vacate i t) = ht_len t - 1.
Proof. unfold ht_len, ht_vacate; simpl. rewrite length_insert. lia. Qed.

Lemma ht_remove_Some id tree t f t' :
  ht_wf t → ht_remove id tree t = Some (f, t') ↔
  ∃ i g, id = mk_fid g i ∧ live_at t i g f ∧ of_tree_id f = tree ∧ t' = ht_vacate i t.
Proof.
  intros Hw. unfold ht_remove. split.
  - destruct (ht_slot id t) as [i|] eqn:E; simpl; [|done].
    apply ht_slot_Some in E as (-> & f' & Hl). rewrite (proj2 Hl); simpl.
    destruct (Z.eqb_spec (of_tree_id f') tree); [|done]. intros; simplify_eq.
    eexists _, _. split_and!; [symmetry; apply mk_fid_eta|done..].
  - intros (i & g & -> & Hl & <- & ->). destruct (live_cap _ _ _ _ Hw Hl).
    assert (ht_slot (mk_fid g i) t = Some i) as ->.
    { apply ht_slot_Some. rewrite mk_fid_index, mk_fid_gen, Nat2Z.id by lia. eauto. }
    simpl. rewrite (proj2 Hl); simpl. by rewrite Z.eqb_refl.
Qed.

Lemma ht_get_view id tree t :
  ht_get id tree t = f ← ht_view t id; if of_tree_id f =? tree then Some f else None.
Proof. unfold ht_get, ht_view. by destruct (ht_slot id t). Qed.

Lemma ht_view_vacate t i g f id :
  ht_wf t → live_at t i g f →
  ht_view (ht_vacate i t) id = if decide (id = mk_fid g i) then None else ht_view t id.
Proof.
  intros Hw Hl. pose proof (ht_vacate_wf _ _ _ _ Hw Hl) as Hw'.
  destruct (live_cap _ _ _ _ Hw Hl). case_decide as Hid.
  - eapply ht_view_None; [done|exact Hid|lia|lia|]. intros f' [? _]%(ht_vacate_live _ _ _ _ _ _ _ Hw Hl).
    done.
  - apply ht_view_ext; [done..|]. intros j g' f' ->. rewrite ht_vacate_live by done.
    split; [by intros []|]. intros Hl'. split; [|done]. intros ->.
    destruct Hl as [Hg _], Hl' as [Hg' _]. congruence.
Qed.

(** ** Changes in place *)
Lemma ht_set_wf id f t : ht_wf t → ht_wf (ht_set id f t).
Proof.
  intros Hw. unfold ht_set. destruct (ht_slot id t) as [i|] eqn:E; [|done].
  apply ht_slot_Some in E as (_ & f0 & Hg & Hs). constructor; simpl.
  - rewrite length_insert. apply (wf_len _ Hw).
  - rewrite length_insert. apply (wf_cap _ Hw).
  - apply (wf_gens _ Hw).
  - apply (wf_free_nodup _ Hw).
  - intros j. rewrite (wf_free _ Hw). destruct (decide (i = j)) as [<-|].
    + rewrite list_lookup_insert_eq by (by eapply lookup_lt_Some). naive_solver.
    + by rewrite list_lookup_insert_ne.
Qed.

Lemma ht_len_set id f t : ht_len (ht_set id f t) = ht_len t.
Proof. unfold ht_set. destruct (ht_slot id t); [|done]. unfold ht_len; simpl. by rewrite length_insert. Qed.

Lemma ht_view_set id f f0 t id' :
  ht_wf t → ht_view t id = Some f0 →
  ht_view (ht_set id f t) id' = if decide (id' = id) then Some f else ht_view t id'.
Proof.
  intros Hw Hv. pose proof (ht_set_wf id f t Hw) as Hw'.
  apply ht_view_Some in Hv as (i & g & -> & Hl); [|done].
  destruct (live_cap _ _ _ _ Hw Hl) as [Hi Hg].
  assert (ht_slot (mk_fid g i) t = Some i) as Hsl.
  { apply ht_slot_Some. rewrite mk_fid_index, mk_fid_gen, Nat2Z.id by lia. eauto. }
  unfold ht_set in *. rewrite Hsl in *. destruct Hl as [Hlg Hls].
  pose proof (lookup_lt_Some _ _ _ Hls). case_decide as E.
  - subst id'. apply ht_view_Some; [done|]. exists i, g. split; [done|]. split; simpl; [done|].
    by rewrite list_lookup_insert_eq.
  - apply ht_view_ext; [done..|]. intros j g' f' ->. unfold live_at; simpl.
    destruct (decide (j = i)) as [->|]; [|by rewrite list_lookup_insert_ne].
    split; intros [? ?]; congruence.
Qed.

(** ** Enumeration and teardown *)
Lemma elem_of_ids_in_tree tree t id :
  ht_wf t → id ∈ ht_ids_in_tree tree t ↔ ∃ f, ht_get id tree t = Some f.
Proof.
  intros Hw. unfold ht_ids_in_tree. rewrite list_elem_of_omap.
  setoid_rewrite ht_get_view. split.
  - intros (i & _ & Hi). destruct (ht_slots t !! i) as [[f|]|] eqn:Es; simplify_eq/=.
    destruct (Z.eqb_spec (of_tree_id f) tree); simplify_eq.
    destruct (lookup_lt_is_Some_2 (ht_gens t) i) as [g Hg].
    { rewrite (wf_len _ Hw). by eapply lookup_lt_Some. }
    rewrite Hg. simpl. exists f.
    rewrite (proj2 (ht_view_Some t (mk_fid g i) f Hw)); simpl; [by rewrite Z.eqb_refl|].
    exists i, g. done.
  - intros (f & Hf). destruct (ht_view t id) as [f0|] eqn:Hv; simpl in Hf; [|done].
    apply ht_view_Some in Hv as (i & g & -> & Hg & Hs); [|done]. exists i. split.
    + apply elem_of_seq. apply lookup_lt_Some in Hs. lia.
    + rewrite Hs; simpl. destruct (of_tree_id f0 =? tree); [|done]. by rewrite Hg.
Qed.

Lemma ht_take_from_spec idxs : ∀ t,
  ht_wf t → NoDup idxs →
  let '(v, t') := ht_take_from idxs t in
  ht_wf t' ∧ v = omap (λ i, mjoin (ht_slots t !! i)) idxs ∧
  (∀ j, j ∉ idxs → ht_slots t' !! j = ht_slots t !! j ∧ ht_gens t' !! j = ht_gens t !! j) ∧
  (∀ j f, j ∈ idxs → ht_slots t' !! j ≠ Some (Some f)) ∧
  (∀ j g, j ∈ idxs → ht_gens t !! j = Some g →
     ht_gens t' !! j = Some (if decide (is_Some (mjoin (ht_slots t !! j))) then next_gen g else g)).
Proof.
  induction idxs as [|i idxs IH]; intros t Hw Hnd; simpl.
  { split_and!; try done; by intros ? ? ?%elem_of_nil. }
  apply NoDup_cons in Hnd as [Hni Hnd].
  destruct (mjoin (ht_slots t !! i)) as [f|] eqn:Ei.
  - assert (ht_slots t !! i = Some (Some f)) as Hs.
    { destruct (ht_slots t !! i) as [[?|]|]; by simplify_eq/=. }
    destruct (lookup_lt_is_Some_2 (ht_gens t) i) as [g Hg].
    { rewrite (wf_len _ Hw). by eapply lookup_lt_Some. }
    assert (live_at t i g f) as Hl by done.
    pose proof (lookup_lt_Some _ _ _ Hs) as Hlt.
    specialize (IH (ht_vacate i t) (ht_vacate_wf _ _ _ _ Hw Hl) Hnd).
    destruct (ht_take_from idxs (ht_vacate i t)) as [v t'].
    destruct IH as (Hw' & -> & Ho & Hd & Hgs). split; [done|]. split; [|split; [|split]].
    + f_equal. apply list_omap_ext. apply Forall2_same_length_lookup. split; [done|].
      intros k x y Hx Hy. simplify_eq. simpl.
      rewrite list_lookup_insert_ne; [done|]. intros ->. apply Hni. by eapply list_elem_of_lookup_2.
    + intros j [Hji Hj]%not_elem_of_cons. destruct (Ho j Hj) as [-> ->]. simpl.
      by rewrite list_lookup_insert_ne, list_lookup_alter_ne.
    + intros j f' [->|Hj]%elem_of_cons; [|by apply Hd].
      destruct (Ho i Hni) as [-> _]. simpl. by rewrite list_lookup_insert_eq.
    + intros j g' [->|Hj]%elem_of_cons Hg'.
      * destruct (Ho i Hni) as [_ ->]. simpl. rewrite list_lookup_alter_eq, Hg'. simpl.
        rewrite decide_True; [done|]. rewrite Ei. eauto.
      * assert (j ≠ i) by congruence.
        erewrite (Hgs j g'); [|done|]; simpl; [|by rewrite list_lookup_alter_ne].
        by rewrite list_lookup_insert_ne.
  - specialize (IH t Hw Hnd). destruct (ht_take_from idxs t) as [v t'].
    destruct IH as (Hw' & -> & Ho & Hd & Hgs). split; [done|]. split; [done|]. split; [|split].
    + intros j [Hji Hj]%not_elem_of_cons. by apply Ho.
    + intros j f' [->|Hj]%elem_of_cons; [|by apply Hd].
      destruct (Ho i Hni) as [-> _]. intros Hs. by rewrite Hs in Ei.
    + intros j g [->|Hj]%elem_of_cons Hg; [|by apply Hgs].
      destruct (Ho i Hni) as [_ ->]. rewrite Hg, Ei. rewrite decide_False; [done|]. by intros [].
Qed.

Lemma ht_view_insert f t id' :
  ht_wf t → ht_len t < 2 ^ 32 - 1 →
  ht_view t (ht_insert f t).1 = None ∧
  ht_view (ht_insert f t).2 id' =
    if decide (id' = (ht_insert f t).1) then Some f else ht_view t id'.
Proof.
  intros Hw Hlen. pose proof (ht_insert_wf f t Hw Hlen) as Hw'.
  destruct (ht_insert_live f t Hw Hlen) as (i & g & Hid & Hg & Hi & Hn & Hl & Ho & Hold).
  split; [eapply ht_view_None; try done; lia|]. case_decide as E.
  - apply ht_view_Some; [done|]. exists i, g. by rewrite E.
  - apply ht_view_ext; [done..|]. intros j g' f' ->. unfold live_at.
    destruct (decide (j = i)) as [->|Hne].
    + destruct Hl as [Hlg _]. split; intros [Hg' Hs']; [congruence|].
      apply Hold in Hg' as [_ ?]. congruence.
    + by destruct (Ho j Hne) as [-> ->].
Qed.

Lemma ht_take_all_view t :
  ht_wf t →
  let '(v, t') := ht_take_all t in
  ht_wf t' ∧ (∀ id, ht_view t' id = None) ∧ (∀ f, f ∈ v ↔ ∃ id, ht_view t id = Some f).
Proof.
  intros Hw. unfold ht_take_all.
  pose proof (ht_take_from_spec (seq 0 (length (ht_slots t))) t Hw (NoDup_seq _ _)) as Ht.
  destruct (ht_take_from _ t) as [v t']. destruct Ht as (Hw' & -> & Ho & Hd & _).
  split; [done|]. split.
  - intros id. apply eq_None_not_Some. intros [f Hf].
    apply ht_view_Some in Hf as (i & g & _ & _ & Hs); [|done].
    destruct (decide (i ∈ seq 0 (length (ht_slots t)))) as [Hin|Hin]; [by apply (Hd i f)|].
    destruct (Ho i Hin) as [E _]. rewrite E in Hs. apply lookup_lt_Some in Hs.
    apply Hin, elem_of_seq. lia.
  - intros f. rewrite list_elem_of_omap. split.
    + intros (i & _ & Hi). destruct (ht_slots t !! i) as [[f'|]|] eqn:Es; simplify_eq/=.
      destruct (lookup_lt_is_Some_2 (ht_gens t) i) as [g Hg].
      { rewrite (wf_len _ Hw). by eapply lookup_lt_Some. }
      exists (mk_fid g i). apply ht_view_Some; [done|]. by exists i, g.
    + intros [id (i & g & -> & _ & Hs)%ht_view_Some]; [|done]. exists i. split.
      * apply elem_of_seq. apply lookup_lt_Some in Hs. lia.
      * by rewrite Hs.
Qed.

(** C14: The handle table implements a finite map from handle ids to open
    files, as long as fewer than 2^32 - 1 handles are open: an insertion
    returns an id that was not live and adds exactly that binding; [get] and
    [remove] see a handle only through the tree it was opened on; a removal
    deletes exactly that binding; [ids_in_tree] lists exactly the handles of a
    tree; and [take_all] returns every open file and leaves none. *)
Theorem handle_table_refines_map t :
  ht_wf t → ht_len t < 2 ^ 32 - 1 →
  (∀ f, let '(id, t') := ht_insert f t in
     ht_wf t' ∧ ht_len t' = ht_len t + 1 ∧ ht_view t id = None ∧
     ∀ id', ht_view t' id' = if decide (id' = id) then Some f else ht_view t id') ∧
  (∀ id tree, ht_get id tree t =
     f ← ht_view t id; if of_tree_id f =? tree then Some f else None) ∧
  (∀ id tree, match ht_remove id tree t with
     | Some (f, t') => ht_get id tree t = Some f ∧ ht_wf t' ∧ ht_len t' = ht_len t - 1 ∧
         ∀ id', ht_view t' id' = if decide (id' = id) then None else ht_view t id'
     | None => ht_get id tree t = None
     end) ∧
  (∀ tree id, id ∈ ht_ids_in_tree tree t ↔ ∃ f, ht_get id tree t = Some f) ∧
  (let '(v, t') := ht_take_all t in
     ht_wf t' ∧ (∀ id, ht_view t' id = None) ∧ ∀ f, f ∈ v ↔ ∃ id, ht_view t id = Some f).
Proof.
  intros Hw Hlen. split_and!.
  - intros f. pose proof (ht_insert_wf f t Hw Hlen). pose proof (ht_len_insert f t).
    pose proof (λ id', ht_view_insert f t id' Hw Hlen) as Hv.
    destruct (ht_insert f t) as [id t']; simpl in *. split_and!; try done.
    + apply (Hv 0).
    + intros id'. apply Hv.
  - intros. apply ht_get_view.
  - intros id tree. destruct (ht_remove id tree t) as [[f t']|] eqn:E.
    + apply ht_remove_Some in E as (i & g & -> & Hl & <- & ->); [|done].
      split_and!; [|by eapply ht_vacate_wf|apply ht_len_vacate|intros; by eapply ht_view_vacate].
      rewrite ht_get_view, (proj2 (ht_view_Some _ _ f Hw)) by eauto. simpl. by rewrite Z.eqb_refl.
    + unfold ht_remove, ht_get in *. destruct (ht_slot id t) as [i|]; simpl in *; [|done].
      destruct (mjoin _); simpl in *; [|done]. by destruct (_ =? tree).
  - intros. by apply elem_of_ids_in_tree.
  - by apply ht_take_all_view.
Qed.

(** An open file of tree 1, as in the code's own test. *)
Definition sample_file : OpenFile :=
  mkOpenFile (-1) (lit "/tmp") [] [] 0 1 true false false None None None 0.

Lemma handle_table_refines_map_witness :
  let t := (ht_insert sample_file ht_empty).2 in
  ht_get (mk_fid 1 0) 1 t = Some sample_file ∧ ht_get (mk_fid 1 0) 2 t = None ∧
  ∀ id', ht_view t id' = if decide (id' = mk_fid 1 0) then Some sample_file else ht_view ht_empty id'.
Proof.
  split; [by vm_compute|]. split; [by vm_compute|].
  destruct (handle_table_refines_map ht_empty ht_empty_wf ltac:(by vm_compute)) as (H & _).
  apply (H sample_file).
Defined.

(** ** Handle ids are not reused *)
Inductive ht_op :=
| HInsert (f : OpenFile)
| HRemove (id tree : Z)
| HSet (id : Z) (f : OpenFile)
| HTakeAll.

(** One operation: the new table, and the id an insertion returned. *)
Definition ht_step (o : ht_op) (t : HandleTable) : list Z * HandleTable :=
  match o with
  | HInsert f => let '(id, t') := ht_insert f t in ([id], t')
  | HRemove id tree => ([], match ht_remove id tree t with Some (_, t') => t' | None => t end)
  | HSet id f => ([], ht_set id f t)
  | HTakeAll => ([], (ht_take_all t).2)
  end.

(** The ids returned by a sequence of operations. *)
Fixpoint ht_run (ops : list ht_op) (t : HandleTable) : list Z * HandleTable :=
  match ops with
  | [] => ([], t)
  | o :: ops =>
      let '(ids, t1) := ht_step o t in
      let '(ids', t2) := ht_run ops t1 in (ids ++ ids', t2)
  end.

(** After [n] operations: generations are small, and every issued id belongs
    to an earlier generation of its slot, or to its current occupant. *)
Record issued_ok (n : Z) (ids : list Z) (t : HandleTable) : Prop := {
  io_wf : ht_wf t;
  io_slots : len (ht_slots t) ≤ n;
  io_gens : ∀ i g, ht_gens t !! i = Some g → g ≤ 1 + n;
  io_ids : ∀ id, id ∈ ids → ∃ i g g', id = mk_fid g i ∧ 1 ≤ g ∧ ht_gens t !! i = Some g' ∧
             (g < g' ∨ (g = g' ∧ ∃ f, ht_slots t !! i = Some (Some f))) }.

Lemma issued_ok_mono n m ids t : n ≤ m → issued_ok n ids t → issued_ok m ids t.
Proof.
  intros Hnm [Hw Hs Hg Hi]. constructor; try done; [lia|]. intros i g E%Hg. lia.
Qed.

(** Removal of one live handle. *)
Lemma issued_ok_vacate n ids t i g f :
  n < 2 ^ 32 - 2 → issued_ok n ids t → live_at t i g f → issued_ok (n + 1) ids (ht_vacate i t).
Proof.
  intros Hn [Hw Hs Hg Hi] Hl. pose proof Hl as [Hlg Hls].
  pose proof (wf_gens _ Hw _ _ Hlg). pose proof (Hg _ _ Hlg).
  constructor; simpl.
  - by eapply ht_vacate_wf.
  - rewrite length_insert. lia.
  - intros j g' Hj. destruct (decide (j = i)) as [->|Hne].
    + rewrite list_lookup_alter_eq, Hlg in Hj. simplify_eq/=. rewrite next_gen_small; lia.
    + rewrite list_lookup_alter_ne in Hj by done. apply Hg in Hj. lia.
  - intros id (j & g' & g'' & -> & Hg1 & Hgj & Hd)%Hi. exists j, g'.
    destruct (decide (j = i)) as [->|Hne].
    + simplify_eq. exists (next_gen g). rewrite list_lookup_alter_eq, Hlg.
      split_and!; [done..|]. left. rewrite next_gen_small by lia. destruct Hd as [?|[-> _]]; lia.
    + exists g''. by rewrite list_lookup_alter_ne, list_lookup_insert_ne.
Qed.

Lemma lookup_slot_cap t i g : ht_wf t → ht_gens t !! i = Some g → Z.of_nat i < 2 ^ 32.
Proof.
  intros Hw Hg%lookup_lt_Some. rewrite (wf_len _ Hw) in Hg. pose proof (wf_cap _ Hw). lia.
Qed.

Lemma issued_ok_insert n ids t f :
  n < 2 ^ 32 - 2 → issued_ok n ids t →
  (ht_insert f t).1 ∉ ids ∧ issued_ok (n + 1) (ids ++ [(ht_insert f t).1]) (ht_insert f t).2.
Proof.
  intros Hn [Hw Hs Hg Hi].
  assert (ht_len t < 2 ^ 32 - 1) as Hlen by (unfold ht_len; lia).
  pose proof (ht_insert_wf f t Hw Hlen) as Hw'.
  assert (len (ht_slots (ht_insert f t).2) ≤ n + 1) as Hs'.
  { unfold ht_insert. destruct (ht_free t); simpl; rewrite ?length_app, ?length_insert; simpl; lia. }
  destruct (ht_insert_live f t Hw Hlen) as (i & g & Hid & Hgr & Hir & Hnl & Hl & Ho & Hold).
  assert (g ≤ 1 + n) as Hgn.
  { destruct (ht_gens t !! i) as [g'|] eqn:E; [destruct (Hold _ eq_refl) as [<- _]; by apply Hg in E|].
    unfold ht_insert in Hid. destruct (ht_free t) as [|j free] eqn:Ef; simpl in Hid.
    - apply mk_fid_inj in Hid as [<- _]; pose proof (wf_cap _ Hw); lia.
    - assert (ht_slots t !! j = Some None) as Hj by (apply (wf_free _ Hw); rewrite Ef; left).
      apply lookup_lt_Some in Hj. pose proof (wf_cap _ Hw).
      destruct (lookup_lt_is_Some_2 (ht_gens t) j) as [gj Hgj]; [by rewrite (wf_len _ Hw)|].
      rewrite Hgj in Hid. simpl in Hid. pose proof (wf_gens _ Hw _ _ Hgj).
      apply mk_fid_inj in Hid as [-> ->]; [|lia..]. congruence. }
  split.
  - rewrite Hid. intros (j & g1 & g2 & E & Hg1 & Hg2 & Hd)%Hi.
    pose proof (lookup_slot_cap _ _ _ Hw Hg2).
    apply mk_fid_inj in E as [-> ->]; [|lia..].
    destruct (Hold _ Hg2) as [-> Hs0]. destruct Hd as [?|[_ [f' ?]]]; [lia|congruence].
  - constructor; [done..| |].
    + intros j g' Hj. destruct (decide (j = i)) as [->|Hne].
      * destruct Hl as [Hl _]. rewrite Hl in Hj. simplify_eq. lia.
      * destruct (Ho j Hne) as [E _]. rewrite E in Hj. apply Hg in Hj. lia.
    + intros id [Hin|Hin]%elem_of_app.
      * apply Hi in Hin as (j & g1 & g2 & -> & Hg1 & Hg2 & Hd). exists j, g1, g2.
        split_and!; [done..| |]; destruct (decide (j = i)) as [->|Hne].
        -- destruct (Hold _ Hg2) as [-> _]. apply Hl.
        -- by destruct (Ho j Hne) as [-> _].
        -- destruct (Hold _ Hg2) as [-> Hs0]. destruct Hd as [?|[_ [f' ?]]]; [by left|congruence].
        -- destruct (Ho j Hne) as [_ ->]. done.
      * apply list_elem_of_singleton in Hin as ->. rewrite Hid. exists i, g, g.
        split_and!; [done|lia|apply Hl|]. right. split; [done|]. exists f. apply Hl.
Qed.

Lemma issued_ok_set n ids t id f : issued_ok n ids t → issued_ok n ids (ht_set id f t).
Proof.
  intros [Hw Hs Hg Hi]. pose proof (ht_set_wf id f t Hw) as Hw'.
  unfold ht_set in *. destruct (ht_slot id t) as [j|] eqn:E; [|done].
  constructor; [done|simpl; by rewrite length_insert|done|]. simpl.
  intros id' (i & g & g' & -> & Hg1 & Hg' & Hd)%Hi. exists i, g, g'. split_and!; [done..|].
  destruct Hd as [?|[-> [f' Hf]]]; [by left|]. right. split; [done|].
  destruct (decide (i = j)) as [->|].
  - exists f. rewrite list_lookup_insert_eq; [done|]. by eapply lookup_lt_Some.
  - exists f'. by rewrite list_lookup_insert_ne.
Qed.

Lemma issued_ok_take_all n ids t :
  n < 2 ^ 32 - 2 → issued_ok n ids t → issued_ok (n + 1) ids (ht_take_all t).2.
Proof.
  intros Hn [Hw Hs Hg Hi]. unfold ht_take_all.
  pose proof (ht_take_from_spec (seq 0 (length (ht_slots t))) t Hw (NoDup_seq _ _)) as Ht.
  destruct (ht_take_from _ t) as [v t']. destruct Ht as (Hw' & _ & Ho & Hd & Hgs). simpl.
  assert (∀ i g, ht_gens t !! i = Some g → i ∈ seq 0 (length (ht_slots t))) as Hseq.
  { intros i g Hi'%lookup_lt_Some. apply elem_of_seq. rewrite (wf_len _ Hw) in Hi'. lia. }
  assert (∀ i, is_Some (ht_gens t' !! i) → is_Some (ht_gens t !! i)) as Hback.
  { intros i Hi'. destruct (decide (i ∈ seq 0 (length (ht_slots t)))) as [Hin|Hin].
    - apply lookup_lt_is_Some_2. rewrite (wf_len _ Hw). apply elem_of_seq in Hin. lia.
    - by destruct (Ho i Hin) as [_ <-]. }
  constructor.
  - done.
  - rewrite <-(wf_len _ Hw'). destruct (decide (length (ht_gens t') ≤ length (ht_slots t))%nat); [lia|].
    assert (is_Some (ht_gens t' !! length (ht_slots t))) as Hx by (apply lookup_lt_is_Some_2; lia).
    apply Hback, lookup_lt_is_Some in Hx. rewrite (wf_len _ Hw) in Hx. lia.
  - intros i g' Hg'. destruct (Hback i) as [g E]; [eauto|].
    rewrite (Hgs i g (Hseq _ _ E) E) in Hg'. pose proof (Hg _ _ E). pose proof (wf_gens _ Hw _ _ E).
    case_decide; simplify_eq; [rewrite next_gen_small|]; lia.
  - intros id (i & g & g' & -> & Hg1 & E & Hdis)%Hi. exists i, g.
    rewrite (Hgs i g' (Hseq _ _ E) E). eexists. split_and!; [done..|].
    pose proof (wf_gens _ Hw _ _ E). pose proof (Hg _ _ E).
    case_decide as Hlive; [left; rewrite next_gen_small; destruct Hdis as [?|[-> _]]; lia|].
    destruct Hdis as [?|[-> [f Hf]]]; [by left|]. rewrite Hf in Hlive. exfalso. apply Hlive. simpl; eauto.
Qed.

Lemma ht_step_issued n ids t o :
  n < 2 ^ 32 - 2 → issued_ok n ids t → NoDup ids →
  NoDup (ids ++ (ht_step o t).1) ∧ issued_ok (n + 1) (ids ++ (ht_step o t).1) (ht_step o t).2.
Proof.
  intros Hn Hok Hnd. destruct o as [f|id tree|id f|]; simpl.
  - destruct (issued_ok_insert n ids t f Hn Hok) as [Hni Hok'].
    destruct (ht_insert f t) as [id t']; simpl in *. split; [|done].
    apply NoDup_app. split_and!; [done| |apply NoDup_singleton].
    intros x Hx ->%list_elem_of_singleton. done.
  - rewrite app_nil_r. split; [done|].
    destruct (ht_remove id tree t) as [[f t']|] eqn:E; [|eapply issued_ok_mono; [|done]; lia].
    apply ht_remove_Some in E as (i & g & -> & Hl & _ & ->); [|by apply Hok].
    by eapply issued_ok_vacate.
  - rewrite app_nil_r. split; [done|].
    eapply issued_ok_mono; [|by apply issued_ok_set]. lia.
  - rewrite app_nil_r. split; [done|]. by apply issued_ok_take_all.
Qed.

Lemma ht_run_issued ops : ∀ n ids t,
  n + len ops < 2 ^ 32 - 1 → issued_ok n ids t → NoDup ids → NoDup (ids ++ (ht_run ops t).1).
Proof.
  induction ops as [|o ops IH]; intros n ids t Hn Hok Hnd; simpl; [by rewrite app_nil_r|].
  simpl length in Hn.
  destruct (ht_step_issued n ids t o ltac:(lia) Hok Hnd) as [Hnd' Hok'].
  destruct (ht_step o t) as [ids1 t1]; simpl in *.
  specialize (IH (n + 1) (ids ++ ids1) t1 ltac:(lia) Hok' Hnd').
  destruct (ht_run ops t1) as [ids2 t2]; simpl in *. by rewrite app_assoc.
Qed.

(** C21: A stale FileId misses: over any history of fewer than 2^32 - 1
    operations on a session's handle table (opens, closes, changes in place,
    teardowns, in any order and with any ids), no two opens are given the same
    id. *)
Theorem handle_ids_never_reused ops :
  len ops < 2 ^ 32 - 1 → NoDup (ht_run ops ht_empty).1.
Proof.
  intros Hn. apply (ht_run_issued ops 0 [] ht_empty); [lia| |constructor].
  constructor; [apply ht_empty_wf|done|done|]. by intros id ?%elem_of_nil.
Qed.

Lemma handle_ids_never_reused_witness :
  let ops := [HInsert sample_file; HRemove (mk_fid 1 0) 1; HInsert sample_file; HTakeAll;
              HInsert sample_file] in
  (ht_run ops ht_empty).1 = [mk_fid 1 0; mk_fid 2 0; mk_fid 3 0] ∧ NoDup (ht_run ops ht_empty).1.
Proof. split; [by vm_compute|]. apply handle_ids_never_reused. by vm_compute. Defined.
