(* ===== verification/Health.v ===== *)
(** The health endpoint. Models src/health.rs: the count of live workers, the
    reply to a probe, and the thread that serves one connection at a time.

    A read of the socket returns at most as many bytes as asked for. *)
From S2P Require Import Prelude Hoare Wire Status Os Sample Vfs.
Local Open Scope Z_scope.

Definition MAX_REQUEST : Z := 4096.
(** Two seconds, in nanoseconds. *)
Definition IO_TIMEOUT : Z := 2000000000.

(** [env!("CARGO_PKG_VERSION")]. *)
Definition PKG_VERSION : str := lit "1.4.0".

Record HealthState := mkHealthState { hs_total : Z; hs_live : Z; hs_paths : list path }.

(** The atomic counter a [WorkerGuard] holds. *)
Definition guard_new (live : Z) : Z := wrap 64 (live + 1).
Definition guard_drop (live : Z) : Z := wrap 64 (live - 1).

Definition CR : Z := 13.
Definition LF : Z := 10.
Definition crlf : bytes := [CR; LF].
Definition QUOTE : Z := 34.
Definition quoted (s : str) : str := [QUOTE] ++ s ++ [QUOTE].

(** The bytes of an ASCII string are its characters. *)
Definition reply (status body : str) (head : bool) : bytes :=
  lit "HTTP/1.1 " ++ status ++ crlf ++ lit "Content-Type: application/json" ++ crlf ++
  lit "Content-Length: " ++ show_uint (len body) ++ crlf ++ lit "Cache-Control: no-store" ++ crlf ++
  lit "Connection: close" ++ crlf ++ crlf ++ (if head then [] else body).

Definition error_body (text : str) : str := lit "{" ++ quoted (lit "error") ++ lit ":" ++ quoted text ++ lit "}".

Definition health_body (ok : bool) (live total shares_ok shares : Z) : str :=
  lit "{" ++ quoted (lit "status") ++ lit ":" ++ quoted (if ok then lit "ok" else lit "degraded") ++ lit "," ++
  quoted (lit "version") ++ lit ":" ++ quoted PKG_VERSION ++ lit "," ++
  quoted (lit "workers") ++ lit ":{" ++ quoted (lit "live") ++ lit ":" ++ show_uint live ++ lit "," ++
  quoted (lit "total") ++ lit ":" ++ show_uint total ++ lit "}," ++
  quoted (lit "shares") ++ lit ":{" ++ quoted (lit "ok") ++ lit ":" ++ show_uint shares_ok ++ lit "," ++
  quoted (lit "total") ++ lit ":" ++ show_uint shares ++ lit "}}".

(** [parts.next().unwrap_or("")] of a split. *)
Definition nth_part (n : nat) (l : list str) : str := default [] (l !! n).

(** The method and the path of a request. *)
Definition request_line (req : bytes) : str * str :=
  let line := nth_part 0 (split_on (λ b, (b =? CR) || (b =? LF)) req) in
  let parts := split_on (λ c, c =? 32) (from_utf8_lossy line) in
  (nth_part 0 parts, nth_part 0 (split_on (λ c, c =? 63) (nth_part 1 parts))).

Section health.
Context `{Env}.

(** [p.is_dir()]. *)
Definition path_is_dir (p : path) : IO bool :=
  r ← do (c_stat p); mret (match r with Ok st => stat_is_dir st | Err _ => false end).

Fixpoint count_dirs (l : list path) : IO Z :=
  match l with
  | [] => mret 0
  | p :: l => b ← path_is_dir p; n ← count_dirs l; mret (if (b : bool) then n + 1 else n)
  end.

Definition respond (req : bytes) (st : HealthState) : IO bytes :=
  let '(method, path) := request_line req in
  let head := bool_decide (method = lit "HEAD") in
  if negb (bool_decide (method = lit "GET")) && negb head
  then mret (reply (lit "405 Method Not Allowed") (error_body (lit "method not allowed")) false)
  else if negb (bool_decide (path = lit "/healthz"))
  then mret (reply (lit "404 Not Found") (error_body (lit "not found")) head)
  else
    shares_ok ← count_dirs (hs_paths st);
    let ok := (hs_live st =? hs_total st) && (shares_ok =? len (hs_paths st)) in
    mret (reply (if ok then lit "200 OK" else lit "503 Service Unavailable")
            (health_body ok (hs_live st) (hs_total st) shares_ok (len (hs_paths st))) head).

(** [buf.windows(4).any(|w| w == b"\r\n\r\n")]. *)
Fixpoint head_end (s : bytes) : option (bytes * bytes) :=
  match s with
  | [] => None
  | c :: r =>
      if bool_decide (take 4 s = [CR; LF; CR; LF]) then Some ([], drop 4 s)
      else match head_end r with Some (a, b) => Some (c :: a, b) | None => None end
  end.

(** Read until the end of the head, the size cap or the deadline; [None]: the
    connection is dropped unanswered. Each read adds a byte, so that the fuel
    suffices. *)
Fixpoint read_head (fuel : nat) (s deadline : Z) (buf : bytes) : IO (option bytes) :=
  match fuel with
  | O => halt Spin
  | S fuel =>
      if (len buf <? MAX_REQUEST) && negb (bool_decide (is_Some (head_end buf))) then
        now ← do c_instant;
        if deadline <=? now then mret None
        else
          ok ← do (c_sock_timeout s false (deadline - now));
          if negb ok then mret None
          else
            r ← do (c_sock_read s (MAX_REQUEST - len buf));
            match r with
            | None | Some [] => mret (Some buf)
            | Some b => read_head fuel s deadline (buf ++ b)
            end
      else mret (Some buf)
  end.

(** The stream is closed when it is dropped. *)
Definition handle (s : Z) (st : HealthState) : IO unit :=
  do (c_sock_timeout s false IO_TIMEOUT) ;;
  do (c_sock_timeout s true IO_TIMEOUT) ;;
  now ← do c_instant;
  req ← read_head (S (Z.to_nat MAX_REQUEST)) s (now + IO_TIMEOUT) [];
  match req with
  | Some req => r ← respond req st; do (c_sock_write s r) ;; do (c_close s)
  | None => do (c_close s)
  end.

(** The first [n] connections of the endless loop. *)
Fixpoint serve (n : nat) (listener : Z) (st : HealthState) : IO unit :=
  match n with
  | O => mret tt
  | S n =>
      conn ← do (c_tcp_accept listener);
      match conn with Some s => handle s st | None => mret tt end ;;
      serve n listener st
  end.

(** The listener, or that start-up fails. *)
Definition health_spawn (addr : str) : IO (option Z) :=
  l ← do (c_tcp_listen addr);
  match l with
  | None => mret None
  | Some l => ok ← do (c_spawn (lit "health")); mret (if (ok : bool) then Some l else None)
  end.
End health.

(** ** Reading a reply

    What an HTTP client takes from it: the status code, the declared length
    and the body. *)
Definition http_lines (head : bytes) : list bytes :=
  filter (λ c, c ≠ CR) <$> split_on (λ c, c =? LF) head.

Definition header (name : str) (lines : list bytes) : option bytes :=
  x ← list_find (λ l, take (length name) l = name) lines; Some (drop (length name) x.2).

Definition http_read (r : bytes) : option (Z * Z * bytes) :=
  '(head, body) ← head_end r;
  let lines := http_lines head in
  code ← parse_uint 999 (take 3 (drop 9 (nth_part 0 lines)));
  v ← header (lit "Content-Length: ") lines;
  n ← parse_uint U64_MAX v;
  Some (code, n, body).

(** A line of a head: not empty, without line breaks. *)
Definition plain_line (l : bytes) : Prop := l ≠ [] ∧ Forall (λ c, c ≠ CR ∧ c ≠ LF) l.

Lemma head_end_skip d s : Forall (λ c, c ≠ CR) d → head_end (d ++ s) = prod_map (app d) id <$> head_end s.
Proof.
  induction d as [|c d IH]; intros Hd; simpl; [by destruct (head_end s) as [[]|]|].
  apply Forall_cons in Hd as [Hc Hd]. rewrite bool_decide_false by naive_solver. rewrite IH by done.
  by destruct (head_end s) as [[]|].
Qed.

Lemma head_end_line l s :
  Forall (λ c, c ≠ CR) l → head s ≠ Some CR → head_end (l ++ crlf ++ s) = prod_map (app (l ++ crlf)) id <$> head_end s.
Proof.
  intros Hl Hs. rewrite head_end_skip by done. simpl.
  rewrite bool_decide_false by (destruct s; naive_solver).
  destruct (head_end s) as [[a b]|]; simpl; [|done]. by rewrite <-app_assoc.
Qed.

Lemma head_end_lines ls b :
  ls ≠ [] → Forall plain_line ls →
  ∃ head, head_end (concat ((λ l, l ++ crlf) <$> ls) ++ crlf ++ b) = Some (head, b) ∧ http_lines head = ls.
Proof.
  induction ls as [|l ls IH]; intros Hne Hls; [done|]. apply Forall_cons in Hls as [[Hl0 Hl] Hls].
  assert (Forall (λ c, c ≠ CR) l) as Hcr by (eapply Forall_impl; [exact Hl|naive_solver]).
  assert (filter (λ c, c ≠ CR) l = l) as Ef by (clear -Hcr; induction Hcr; [done|rewrite filter_cons_True by done; congruence]).
  assert (Forall (λ c, (c =? LF) = false) l) as Hlf by (eapply Forall_impl; [exact Hl|intros c [_ ?]; by apply Z.eqb_neq]).
  destruct ls as [|l2 ls].
  - exists l. simpl. rewrite app_nil_r, <-!app_assoc, head_end_skip by done. split; [simpl; by rewrite app_nil_r|].
    unfold http_lines. rewrite split_on_word by done. simpl. by rewrite Ef.
  - destruct IH as (h & Eh & El); [done|done|]. exists (l ++ crlf ++ h).
    apply Forall_cons in Hls as [[Hl20 Hl2] _].
    replace (concat ((λ l, l ++ crlf) <$> l :: l2 :: ls) ++ crlf ++ b)
      with (l ++ crlf ++ (concat ((λ l, l ++ crlf) <$> l2 :: ls) ++ crlf ++ b))
      by (rewrite (fmap_cons _ l); cbn [concat]; by rewrite <-!app_assoc).
    rewrite (head_end_line l); [|done|destruct l2; [done|]; simpl; apply Forall_cons in Hl2; naive_solver].
    rewrite Eh. simpl. split; [by rewrite <-app_assoc|].
    unfold http_lines. replace (l ++ CR :: LF :: h) with ((l ++ [CR]) ++ LF :: h) by (by rewrite <-app_assoc).
    rewrite split_on_app; [|apply Forall_app; split; [done|by repeat constructor]|done].
    rewrite fmap_cons. fold (http_lines h). rewrite El, filter_app, Ef. simpl. by rewrite app_nil_r.
Qed.

Definition reply_lines (status body : str) : list bytes :=
  [lit "HTTP/1.1 " ++ status; lit "Content-Type: application/json"; lit "Content-Length: " ++ show_uint (len body);
   lit "Cache-Control: no-store"; lit "Connection: close"].

Lemma reply_as_lines status body head :
  reply status body head =
    concat ((λ l, l ++ crlf) <$> reply_lines status body) ++ crlf ++ (if head then [] else body).
Proof. unfold reply, reply_lines. rewrite !fmap_cons. cbn [concat fmap list_fmap]. by rewrite <-!app_assoc. Qed.

(** The status lines in use. *)
Definition statuses : list (str * Z) :=
  [(lit "200 OK", 200); (lit "404 Not Found", 404); (lit "405 Method Not Allowed", 405);
   (lit "503 Service Unavailable", 503)].

Lemma reply_read status code body head :
  (status, code) ∈ statuses → len body < 10 ^ 19 →
  http_read (reply status body head) = Some (code, len body, if head then [] else body).
Proof.
  intros Hs Hb. rewrite reply_as_lines.
  assert (plain_line (lit "HTTP/1.1 " ++ status) ∧
    parse_uint 999 (take 3 (drop 9 (lit "HTTP/1.1 " ++ status))) = Some code ∧
    take 16 (lit "HTTP/1.1 " ++ status) ≠ lit "Content-Length: ") as (H1 & H2 & H3).
  { unfold plain_line, statuses in *. rewrite !elem_of_cons, elem_of_nil in Hs.
    destruct Hs as [[= -> ->]|[[= -> ->]|[[= -> ->]|[[= -> ->]|[]]]]]; split_and!; try done; by repeat constructor. }
  destruct (head_end_lines (reply_lines status body) (if head then [] else body)) as (h & Eh & El); [done| |].
  { assert (plain_line (lit "Content-Length: " ++ show_uint (len body))) as Hcl.
    { split; [done|]. apply Forall_app. split; [by repeat constructor|]. apply Forall_forall.
      intros c Hc. split; intros ->; revert Hc; apply show_uint_no_sep; unfold CR, LF; lia. }
    unfold reply_lines. apply Forall_cons_2; [exact H1|]. apply Forall_cons_2; [split; [done|by repeat constructor]|].
    apply Forall_cons_2; [exact Hcl|]. repeat apply Forall_cons_2; try apply Forall_nil_2; split; (done || by repeat constructor). }
  unfold http_read. rewrite Eh. cbn [mbind option_bind]. rewrite El.
  change (nth_part 0 (reply_lines status body)) with (lit "HTTP/1.1 " ++ status).
  rewrite H2. cbn [mbind option_bind].
  assert (header (lit "Content-Length: ") (reply_lines status body) = Some (show_uint (len body))) as ->.
  { unfold header, reply_lines. change (length (lit "Content-Length: ")) with 16%nat. cbn [list_find].
    rewrite decide_False by exact H3. rewrite decide_False by done. by rewrite decide_True. }
  cbn [mbind option_bind]. rewrite parse_show_uint by (unfold U64_MAX; lia). done.
Qed.

(** ** What a request asks for *)

(** The request line is [m], a space and the path [/healthz], then nothing,
    a query or another word. *)
Definition asks (m : str) (req : bytes) : Prop :=
  ∃ line rest tail, req = line ++ rest ∧ Forall (λ b, b ≠ CR ∧ b ≠ LF) line ∧
    (rest = [] ∨ head rest = Some CR ∨ head rest = Some LF) ∧
    from_utf8_lossy line = m ++ [32] ++ lit "/healthz" ++ tail ∧
    (tail = [] ∨ head tail = Some 32 ∨ head tail = Some 63).

Definition word (p : Z → bool) (s : str) : str := nth_part 0 (split_on p s).

Lemma word_app p w r :
  Forall (λ c, p c = false) w → (∀ c, head r = Some c → p c = true) → word p (w ++ r) = w.
Proof.
  intros Hw Hr. unfold word, nth_part. destruct r as [|c r].
  - by rewrite app_nil_r, split_on_word.
  - by rewrite split_on_app by auto.
Qed.

Lemma word_spec p s : ∃ r, s = word p s ++ r ∧ Forall (λ c, p c = false) (word p s) ∧
  (∀ c, head r = Some c → p c = true) ∧ nth_part 1 (split_on p s) = word p (tail r).
Proof.
  induction s as [|c s (r & E & Hw & Hr & H1)]; [by exists []|].
  unfold word, nth_part in *. cbn [split_on]. destruct (p c) eqn:Ec.
  - exists (c :: s). simpl. split_and!; [done|done|by intros ? [= <-]|done].
  - destruct (split_on p s) as [|h t] eqn:Es; [by destruct (split_on_not_nil p s)|]. exists r. simpl in *.
    split_and!; [congruence|by constructor|done|done].
Qed.

Lemma request_line_asks m req :
  32 ∉ m → request_line req = (m, lit "/healthz") ↔ asks m req.
Proof.
  intros Hm. unfold request_line. fold (word (λ b, (b =? CR) || (b =? LF)) req).
  set (sp := λ c, c =? 32). set (qm := λ c, c =? 63). set (nl := λ b, (b =? CR) || (b =? LF)).
  assert (∀ c, nl c = true ↔ c = CR ∨ c = LF) as Hnl by (intros c; unfold nl; rewrite orb_true_iff, !Z.eqb_eq; done).
  split.
  - intros [= E1 E2]. destruct (word_spec nl req) as (rest & E & Hl & Hr & _).
    set (line := word nl req) in *. fold (word sp (from_utf8_lossy line)) in E1.
    destruct (word_spec sp (from_utf8_lossy line)) as (r & Er & _ & Hsp & H1). rewrite E1 in Er.
    fold (nth_part 1 (split_on sp (from_utf8_lossy line))) in E2. rewrite H1 in E2.
    destruct r as [|c r]; [by vm_compute in E2|]. specialize (Hsp c eq_refl). apply Z.eqb_eq in Hsp as ->. simpl in *.
    destruct (word_spec sp r) as (r2 & E3 & _ & Hr2 & _). fold (word qm (word sp r)) in E2.
    destruct (word_spec qm (word sp r)) as (r3 & E4 & _ & Hr3 & _). rewrite E2 in E4. rewrite E4 in E3.
    exists line, rest, (r3 ++ r2). split; [done|]. split; [|split; [|split]].
    + eapply Forall_impl; [exact Hl|]. intros b Hb. rewrite <-not_true_iff_false, Hnl in Hb. tauto.
    + destruct rest as [|b rest]; [by left|]. right. destruct (proj1 (Hnl b) (Hr b eq_refl)) as [-> | ->]; auto.
    + rewrite Er, E3, <-app_assoc. done.
    + destruct r3 as [|c r3]; [destruct r2 as [|c r2]; [by left|]|].
      * right; left. simpl. f_equal. by apply Z.eqb_eq, Hr2.
      * right; right. simpl. f_equal. by apply Z.eqb_eq, Hr3.
  - intros (line & rest & tl & -> & Hl & Hr & El & Ht).
    rewrite word_app; [|eapply Forall_impl; [exact Hl|]; intros b [? ?]; rewrite <-not_true_iff_false, Hnl; tauto
      |intros c Hc; apply Hnl; naive_solver].
    rewrite El. assert (Forall (λ c, sp c = false) m) as Hm'.
    { apply Forall_forall. intros c Hc. apply Z.eqb_neq. by intros ->. }
    change (m ++ [32] ++ lit "/healthz" ++ tl) with (m ++ 32 :: (lit "/healthz" ++ tl)).
    rewrite split_on_app by done. change (nth_part 0 (m :: ?l)) with m. f_equal.
    set (t := lit "/healthz" ++ tl). change (nth_part 1 (m :: split_on sp t)) with (word sp t).
    change (word qm (word sp t) = lit "/healthz"). subst t.
    destruct Ht as [->|[Ht|Ht]]; [done|rewrite (word_app sp); [done|by repeat constructor|naive_solver]|].
    destruct tl as [|c tl]; [done|]. injection Ht as ->. destruct (word_spec sp tl) as (r & E & Hw & Hr' & _). rewrite E.
    replace (lit "/healthz" ++ 63 :: word sp tl ++ r) with ((lit "/healthz" ++ 63 :: word sp tl) ++ r) by done.
    rewrite (word_app sp (lit "/healthz" ++ 63 :: word sp tl)); [|by repeat constructor|done].
    rewrite (word_app qm); [done|by repeat constructor|by intros ? [= <-]].
Qed.

(** ** The answer *)

(** The system says that it is a directory. *)
Definition found (r : result Stat (option Z)) : Prop := ∃ st, r = Ok st ∧ stat_is_dir st = true.

Lemma length_dec_digits fuel : ∀ n acc, len (dec_digits fuel n acc) ≤ Z.of_nat fuel + len acc.
Proof.
  induction fuel as [|fuel IH]; intros n acc; cbn [dec_digits]; [lia|]. cbv zeta.
  destruct (n <? 10); [cbn [length]; lia|]. specialize (IH (n / 10) ((48 + n mod 10) :: acc)). cbn [length] in IH. lia.
Qed.

Lemma length_show_uint n : len (show_uint n) ≤ 20.
Proof. unfold show_uint. pose proof (length_dec_digits 20 n []). simpl in *. lia. Qed.

Lemma length_health_body ok live total n m : len (health_body ok live total n m) < 10 ^ 19.
Proof.
  unfold health_body, quoted. rewrite !length_app.
  pose proof (length_show_uint live). pose proof (length_show_uint total).
  pose proof (length_show_uint n). pose proof (length_show_uint m).
  destruct ok; cbn [length lit fmap list_fmap]; simpl length; lia.
Qed.

Section answer.
Context `{Env}.

Lemma path_is_dir_spec p o : ∃ r o',
  path_is_dir p o = (inl (match r with Ok st => stat_is_dir st | Err _ => false end), o') ∧
  os_trace o' = os_trace o ++ [Ev (c_stat p) r].
Proof. unfold path_is_dir, mbind, ST_bind, do. destruct (sys _ _ _) as [r o1]. by eexists r, _. Qed.

Lemma count_dirs_spec l : ∀ o, ∃ n rs o',
  count_dirs l o = (inl n, o') ∧ length rs = length l ∧
  os_trace o' = os_trace o ++ zip_with (λ p r, Ev (c_stat p) r) l rs ∧ n ≤ len l ∧ (n = len l ↔ Forall found rs).
Proof.
  induction l as [|p l IH]; intros o; cbn [count_dirs].
  { exists 0, [], o. simpl. rewrite app_nil_r. split_and!; try done. }
  destruct (path_is_dir_spec p o) as (r & o1 & E & Hr). destruct (IH o1) as (n & rs & o' & E' & Hl & Ht & Hn & Hf).
  unfold mbind, ST_bind. rewrite E, E'.
  eexists _, (r :: rs), o'. split; [done|]. split; [simpl; by rewrite Hl|]. split.
  { rewrite Ht, Hr. simpl. by rewrite <-app_assoc. }
  rewrite Forall_cons, <-Hf. unfold found.
  destruct r as [st|e]; [destruct (stat_is_dir st) eqn:Ed|]; cbn [length]; (split; [lia|]).
  - split; [intros; split; [by eauto|lia]|intros [_ ?]; lia].
  - split; [intros; lia|]. intros [(st' & [= <-] & ?) _]. congruence.
  - split; [intros; lia|]. by intros [(st' & ? & ?) _].
Qed.
End answer.

(** C35: The health page tells the truth. Whatever bytes a probe sends, it
    gets one well-formed reply whose declared length is that of its body
    (HEAD gets none). Exactly when the request line asks for [/healthz] with
    GET or HEAD, the server asks the system about each share's path, once and
    in order, and makes no other call; the answer is then 200 if every worker
    is alive and every share is a directory, and 503 otherwise. Any other
    request is refused with 404 or 405 without touching the disk. *)
Theorem health_reports_truth `{Env} req st o :
  ∃ out o' code n body rs,
    respond req st o = (inl out, o') ∧ http_read out = Some (code, n, body) ∧
    (n = len body ∨ body = [] ∧ (request_line req).1 = lit "HEAD") ∧
    os_trace o' = os_trace o ++ zip_with (λ p r, Ev (c_stat p) r) (hs_paths st) rs ∧
    (asks (lit "GET") req ∨ asks (lit "HEAD") req →
       length rs = length (hs_paths st) ∧ (code = 200 ∨ code = 503) ∧
       (code = 200 ↔ hs_live st = hs_total st ∧ Forall found rs)) ∧
    (¬ (asks (lit "GET") req ∨ asks (lit "HEAD") req) → rs = [] ∧ (code = 404 ∨ code = 405)).
Proof.
  assert (asks (lit "GET") req ∨ asks (lit "HEAD") req ↔
    request_line req = (lit "GET", lit "/healthz") ∨ request_line req = (lit "HEAD", lit "/healthz")) as Ha
    by (rewrite !request_line_asks by (vm_compute; set_solver); done).
  unfold respond. destruct (request_line req) as [m p]. cbn [fst].
  assert (∀ (b : bool) (body : bytes), len body = len (if b then [] else body) ∨
    (if b then [] else body) = [] ∧ b = true) as Hb by (intros [] ?; auto).
  set (hd := bool_decide (m = lit "HEAD")).
  assert (hd = true → m = lit "HEAD") as Hhd by (by intros ?%bool_decide_eq_true).
  destruct (negb (bool_decide (m = lit "GET")) && negb hd) eqn:Em.
  { apply andb_true_iff in Em as [Eg%negb_true_iff%bool_decide_eq_false Eh%negb_true_iff%bool_decide_eq_false].
    eexists _, o, 405, _, _, []. split; [done|]. split; [apply reply_read; [set_solver|done]|].
    split; [by left|]. split; [by destruct (hs_paths st); rewrite app_nil_r|]. rewrite Ha. split; [naive_solver|auto]. }
  destruct (bool_decide (p = lit "/healthz")) eqn:Ep; simpl.
  2:{ apply bool_decide_eq_false in Ep. eexists _, o, 404, _, _, []. split; [done|].
      split; [apply reply_read; [set_solver|done]|].
      split; [destruct (Hb hd (error_body (lit "not found"))) as [?|[??]]; auto|].
      split; [by destruct (hs_paths st); rewrite app_nil_r|]. rewrite Ha. split; [naive_solver|auto]. }
  apply bool_decide_eq_true in Ep as ->. destruct (count_dirs_spec (hs_paths st) o) as (k & rs & o' & E & Hl & Ht & _ & Hk).
  unfold mbind, ST_bind. rewrite E. set (ok := (_ =? _) && (_ =? _)).
  assert (ok = true ↔ hs_live st = hs_total st ∧ Forall found rs) as Hok.
  { unfold ok. by rewrite andb_true_iff, !Z.eqb_eq, Hk. }
  set (body := health_body ok _ _ _ _).
  exists (reply (if ok then lit "200 OK" else lit "503 Service Unavailable") body hd), o',
    (if ok then 200 else 503), (len body), (if hd then [] else body), rs.
  split; [done|]. split; [apply reply_read; [destruct ok; set_solver|apply length_health_body]|].
  split; [destruct (Hb hd body) as [?|[??]]; auto|]. split; [done|]. rewrite Ha. split.
  - intros _. split; [done|]. split; [destruct ok; auto|]. rewrite <-Hok. by destruct ok.
  - intros Hn. exfalso. apply Hn. apply andb_false_iff in Em as [E1|E1]; apply negb_false_iff in E1;
      apply bool_decide_eq_true in E1 as ->; auto.
Qed.

(** ** One connection *)
Section handle.
Context `{Env}.

Lemma do_any {A} (c : call A) o : ∃ a o', do c o = (inl a, o').
Proof. unfold do. destruct (sys _ _ _) as [a o1]. by eexists a, _. Qed.

Lemma read_head_returns fuel s deadline : ∀ buf o,
  Z.max 0 (MAX_REQUEST - len buf) < Z.of_nat fuel → ∃ r o', read_head fuel s deadline buf o = (inl r, o').
Proof.
  induction fuel as [|fuel IH]; intros buf o Hf; cbn [read_head].
  - lia.
  - destruct (_ && _) eqn:Eb; [|by eexists _, _]. apply andb_prop in Eb as [Eb%Z.ltb_lt _].
    unfold mbind, ST_bind. destruct (do_any c_instant o) as (now & o1 & ->).
    destruct (_ <=? _); [by eexists _, _|]. destruct (do_any (c_sock_timeout s false (deadline - now)) o1) as (ok & o2 & ->).
    destruct (negb ok); [by eexists _, _|].
    destruct (do_any (c_sock_read s (MAX_REQUEST - len buf)) o2) as ([[|x b]|] & o3 & ->); [by eexists _, _| |by eexists _, _].
    apply IH. rewrite length_app. cbn [length]. lia.
Qed.
End handle.


(** A probe of a healthy server, and of one with a dead worker. *)
Lemma health_samples :
  let code st := match @respond mem_env (lit "GET /healthz?x HTTP/1.1" ++ [13; 10; 13; 10]) st (@mkOsSt mem_env mem_fs []) with
                 | (inl out, _) => (λ x : Z * Z * bytes, x.1.1) <$> http_read out
                 | _ => None
                 end in
  code (mkHealthState 2 2 [lit "/s"]) = Some 200 ∧ code (mkHealthState 2 1 [lit "/s"]) = Some 503 ∧
  code (mkHealthState 2 2 [lit "/s/a"]) = Some 503.
Proof. by vm_compute. Qed.
