(* ===== verification/Spnego.v ===== *)
(** SPNEGO: the DER writer and reader, the NegTokenInit2 hint, classification
    of an inbound security blob, and the NegTokenResp builder. Models
    src/spnego.rs. *)
From S2P Require Import Prelude Wire.
Local Open Scope Z_scope.

Definition ntlm_sig : bytes := lit "NTLMSSP" ++ [0].

Definition OID_SPNEGO : bytes := [0x2B; 0x06; 0x01; 0x05; 0x05; 0x02].
Definition OID_NTLMSSP : bytes := [0x2B; 0x06; 0x01; 0x04; 0x01; 0x82; 0x37; 0x02; 0x02; 0x0A].
Definition OID_KRB5 : bytes := [0x2A; 0x86; 0x48; 0x86; 0xF7; 0x12; 0x01; 0x02; 0x02].
Definition OID_MS_KRB5 : bytes := [0x2A; 0x86; 0x48; 0x82; 0xF7; 0x12; 0x01; 0x02; 0x02].

Inductive Mech := Krb5 | Ntlmssp | MechUnknown.
#[global] Instance Mech_eq_dec : EqDecision Mech.
Proof. solve_decision. Defined.

Definition mech_from_oid (oid : bytes) : Mech :=
  if bool_decide (oid = OID_KRB5 ∨ oid = OID_MS_KRB5) then Krb5
  else if bool_decide (oid = OID_NTLMSSP) then Ntlmssp
  else MechUnknown.

(** ** DER *)

(** The length octets: short form, or one or two bytes in long form. *)
Definition der_len (n : Z) : bytes :=
  if n <? 128 then [wrap 8 n]
  else if n <? 256 then [0x81; wrap 8 n]
  else [0x82; wrap 8 (Z.shiftr n 8); wrap 8 (Z.land n 0xFF)].

Definition der (tag : Z) (content : bytes) : bytes :=
  [tag] ++ der_len (len content) ++ content.

Definition der_oid (body : bytes) : bytes := der 0x06 body.

Record Tlv := mkTlv { tlv_tag : Z; tlv_val : bytes; tlv_len : Z }.

(** The header length and content length, from the bytes after the tag. *)
Definition tlv_header (buf : bytes) : option (Z * Z) :=
  match buf with
  | _ :: b1 :: rest =>
      if b1 <? 0x80 then Some (2, b1)
      else if b1 =? 0x81 then
        match rest with b2 :: _ => Some (3, b2) | _ => None end
      else if b1 =? 0x82 then
        match rest with b2 :: b3 :: _ => Some (4, Z.lor (Z.shiftl b2 8) b3) | _ => None end
      else None
  | _ => None
  end.

(** One TLV at the front of [buf]. *)
Definition tlv (buf : bytes) : option Tlv :=
  '(hdr, n) ← tlv_header buf;
  let e := hdr + n in
  if len buf <? e then None
  else Some (mkTlv (default 0 (head buf)) (sub buf hdr e) e).

(** The children of a constructed element, up to the first malformed one.
    Every step consumes at least two bytes, so [length buf] steps suffice. *)
Fixpoint children_fuel (fuel : nat) (buf : bytes) : list Tlv :=
  match fuel with
  | O => []
  | S fuel =>
      match tlv buf with
      | None => []
      | Some t => t :: children_fuel fuel (drop (Z.to_nat (tlv_len t)) buf)
      end
  end.
Definition children (buf : bytes) : list Tlv := children_fuel (length buf) buf.

(** ** The NegTokenInit2 hint *)
Definition mech_oid (m : Mech) : option bytes :=
  match m with
  | Krb5 => Some OID_KRB5
  | Ntlmssp => Some OID_NTLMSSP
  | MechUnknown => None
  end.

Definition hint_string : bytes := lit "not_defined_in_RFC4178@please_ignore".

Definition neg_init_hint (mechs : list Mech) : bytes :=
  match mechs with
  | [] => []
  | _ =>
      let oids := concat (der_oid <$> omap mech_oid mechs) in
      let mech_list := der 0xA0 (der 0x30 oids) in
      let hint_str := der 0x1B hint_string in
      let hints := der 0xA3 (der 0x30 (der 0xA0 hint_str)) in
      let token := der 0xA0 (der 0x30 (mech_list ++ hints)) in
      der 0x60 (der_oid OID_SPNEGO ++ token)
  end.

(** ** Classification of an inbound blob *)
Record Incoming := mkIncoming { in_mech : Mech; in_spnego : bool; in_token : bytes }.

(** [tlv(b).filter(|t| t.tag == tag)]. *)
Definition tlv_tagged (tag : Z) (b : bytes) : option Tlv :=
  t ← tlv b; if tlv_tag t =? tag then Some t else None.

(** The first OID of the list that names a mechanism we understand. *)
Definition first_mech (oids : list Tlv) : option Mech :=
  head (filter (λ m, m ≠ MechUnknown)
          ((λ t, mech_from_oid (tlv_val t)) <$> filter (λ t, tlv_tag t = 0x06) oids)).

(** One field of a NegTokenInit updates (mech, token). *)
Definition init_field (acc : Mech * bytes) (field : Tlv) : Mech * bytes :=
  let '(mech, token) := acc in
  if tlv_tag field =? 0xA0 then
    match tlv_tagged 0x30 (tlv_val field) with
    | Some l => (default mech (first_mech (children (tlv_val l))), token)
    | None => acc
    end
  else if tlv_tag field =? 0xA2 then
    match tlv_tagged 0x04 (tlv_val field) with
    | Some o => (mech, tlv_val o)
    | None => acc
    end
  else acc.

Definition parse_neg_init (body : bytes) : Incoming :=
  match tlv_tagged 0x30 body with
  | None => mkIncoming MechUnknown true []
  | Some seq =>
      let '(mech, token) := foldl init_field (MechUnknown, []) (children (tlv_val seq)) in
      mkIncoming mech true token
  end.

Definition resp_field (acc : Mech * bytes) (field : Tlv) : Mech * bytes :=
  let '(mech, token) := acc in
  if tlv_tag field =? 0xA1 then
    match tlv_tagged 0x06 (tlv_val field) with
    | Some o => (mech_from_oid (tlv_val o), token)
    | None => acc
    end
  else if tlv_tag field =? 0xA2 then
    match tlv_tagged 0x04 (tlv_val field) with
    | Some o => (mech, tlv_val o)
    | None => acc
    end
  else acc.

(** [b.starts_with(p)]. *)
Definition starts_with (p b : bytes) : bool := bool_decide (take (length p) b = p).

(** The mechanism sniffed from the token when supportedMech was omitted. *)
Definition sniff_mech (mech : Mech) (token : bytes) : Mech :=
  match mech with
  | MechUnknown =>
      if starts_with ntlm_sig token then Ntlmssp
      else if bool_decide (head token = Some 0x60) then Krb5
      else MechUnknown
  | _ => mech
  end.

Definition parse_neg_resp (blob : bytes) : Incoming :=
  match tlv_tagged 0xA1 blob with
  | None => mkIncoming MechUnknown true []
  | Some outer =>
      match tlv_tagged 0x30 (tlv_val outer) with
      | None => mkIncoming MechUnknown true []
      | Some seq =>
          let '(mech, token) := foldl resp_field (MechUnknown, []) (children (tlv_val seq)) in
          mkIncoming (sniff_mech mech token) true token
      end
  end.

Definition classify (blob : bytes) : Incoming :=
  let unknown := mkIncoming MechUnknown false blob in
  match head blob with
  | Some 0x60 =>
      match tlv blob with
      | None => unknown
      | Some t =>
          match children (tlv_val t) with
          | [] => unknown
          | oid :: it =>
              if (tlv_tag oid =? 0x06) && bool_decide (tlv_val oid = OID_SPNEGO) then
                match it with
                | neg :: _ => parse_neg_init (tlv_val neg)
                | [] => unknown
                end
              else if tlv_tag oid =? 0x06
              then mkIncoming (mech_from_oid (tlv_val oid)) false blob
              else unknown
          end
      end
  | Some 0xA1 => parse_neg_resp blob
  | _ => if starts_with ntlm_sig blob then mkIncoming Ntlmssp false blob else unknown
  end.

(** ** NegTokenResp *)
Definition ACCEPT_COMPLETED : Z := 0x00.
Definition ACCEPT_INCOMPLETE : Z := 0x01.

Definition neg_resp (state : Z) (mech : Mech) (token : bytes) : bytes :=
  let oid := default [] (mech_oid mech) in
  let inner := der 0xA0 [0x0A; 0x01; state] in
  let inner := match oid with [] => inner | _ => inner ++ der 0xA1 (der_oid oid) end in
  let inner := match token with [] => inner | _ => inner ++ der 0xA2 (der 0x04 token) end in
  der 0xA1 (der 0x30 inner).

(** ** DER round trips *)
#[local] Arguments der : simpl never.

Lemma length_der_len n : 1 ≤ len (der_len n) ≤ 3.
Proof. unfold der_len. destruct (n <? 128), (n <? 256); simpl; lia. Qed.

Lemma length_der tag c : len c + 2 ≤ len (der tag c) ≤ len c + 4.
Proof. unfold der. pose proof (length_der_len (len c)). rewrite !length_app. simpl. lia. Qed.

Lemma wrap8_byte v : is_byte (wrap 8 v).
Proof. unfold is_byte, wrap. change (2 ^ 8) with 256. apply Z.mod_pos_bound. lia. Qed.

Lemma der_bytes tag c : is_byte tag → Forall is_byte c → Forall is_byte (der tag c).
Proof.
  intros Ht Hc. unfold der. repeat apply Forall_app_2; auto.
  unfold der_len. repeat case_match; repeat constructor; try apply wrap8_byte; lia.
Qed.

Lemma tlv_header_der tag c rest :
  len c < 65536 →
  tlv_header (der tag c ++ rest) = Some (1 + len (der_len (len c)), len c).
Proof.
  intros Hc. unfold der, der_len. set (n := len c) in *.
  assert (0 ≤ n) by lia.
  destruct (Z.ltb_spec n 128) as [H1|H1]; [|destruct (Z.ltb_spec n 256) as [H2|H2]]; simpl.
  - unfold wrap. rewrite Z.mod_small by lia. by rewrite (proj2 (Z.ltb_lt n 128)).
  - unfold wrap. rewrite Z.mod_small by lia. done.
  - unfold wrap. do 2 f_equal. change 0xFF with (Z.ones 8).
    rewrite (Z.mod_small (Z.land n (Z.ones 8))) by
      (rewrite Z.land_ones by lia; apply Z.mod_pos_bound; lia).
    rewrite Z.mod_small by (rewrite Z.shiftr_div_pow2 by lia; split;
      [apply Z.div_pos; lia|apply Z.div_lt_upper_bound; lia]).
    by apply lor_high_low.
Qed.

(** The reader takes back what the writer produced, and stops after it. *)
Lemma tlv_der tag c rest :
  len c < 65536 → tlv (der tag c ++ rest) = Some (mkTlv tag c (len (der tag c))).
Proof.
  intros Hc. unfold tlv. rewrite tlv_header_der by done. cbn [mbind option_bind].
  assert (len (der tag c) = 1 + len (der_len (len c)) + len c) as El.
  { unfold der. rewrite !length_app. simpl. lia. }
  rewrite <-El.
  destruct (Z.ltb_spec (len (der tag c ++ rest)) (len (der tag c))) as [H|_];
    [rewrite length_app in H; lia|].
  f_equal. f_equal. unfold sub.
  replace (len (der tag c) - (1 + len (der_len (len c)))) with (len c) by lia.
  replace (der tag c ++ rest) with (([tag] ++ der_len (len c)) ++ c ++ rest)
    by (unfold der; by rewrite <-!app_assoc).
  replace (Z.to_nat (1 + len (der_len (len c)))) with (length ([tag] ++ der_len (len c)))
    by (rewrite length_app; simpl; lia).
  by rewrite drop_app_length, Nat2Z.id, take_app_length.
Qed.

Lemma tlv_len_ge buf t : Forall is_byte buf → tlv buf = Some t → 2 ≤ tlv_len t ≤ len buf.
Proof.
  intros Hb. unfold tlv. destruct (tlv_header buf) as [[hdr n]|] eqn:E; simpl; [|done].
  destruct (Z.ltb_spec (len buf) (hdr + n)); [done|]. intros [= <-]. simpl.
  enough (2 ≤ hdr ∧ 0 ≤ n) by lia. revert E. unfold tlv_header.
  assert (∀ x, x ∈ buf → is_byte x) as Hx by (by apply Forall_forall).
  destruct buf as [|x0 [|b1 rest]]; [done..|].
  assert (is_byte b1) as Hb1 by (apply Hx; set_solver). unfold is_byte in *.
  destruct (b1 <? 128); [intros [= <- <-]; lia|].
  destruct (b1 =? 129); [destruct rest as [|b2 ?]; [done|]; intros [= <- <-]|].
  { assert (0 ≤ b2) by (apply Hx; set_solver). lia. }
  destruct (b1 =? 130); [|done]. destruct rest as [|b2 [|b3 ?]]; [done..|]. intros [= <- <-].
  assert (0 ≤ b2 ∧ 0 ≤ b3) as [? ?] by (split; apply Hx; set_solver).
  split; [lia|]. apply Z.lor_nonneg. split; [by apply Z.shiftl_nonneg|done].
Qed.

(** More fuel than bytes changes nothing. *)
Lemma children_fuel_enough n : ∀ buf,
  Forall is_byte buf → (length buf ≤ n)%nat → children_fuel n buf = children buf.
Proof.
  unfold children. induction (lt_wf n) as [n _ IH]. intros buf Hb Hn.
  destruct n as [|n]; [by destruct buf; simpl in *; [|lia]|].
  destruct (length buf) as [|m] eqn:El; [by destruct buf|].
  simpl. destruct (tlv buf) as [t|] eqn:Et; [|done]. f_equal.
  pose proof (tlv_len_ge _ _ Hb Et).
  assert (length (drop (Z.to_nat (tlv_len t)) buf) ≤ m)%nat by (rewrite length_drop; lia).
  rewrite IH; [|lia|by apply Forall_drop|lia].
  destruct (decide (m = n)) as [->|]; [symmetry; apply IH; [lia|by apply Forall_drop|lia]|].
  symmetry. apply IH; [lia|by apply Forall_drop|lia].
Qed.

Lemma children_der tag c rest :
  len c < 65536 → Forall is_byte rest →
  children (der tag c ++ rest) = mkTlv tag c (len (der tag c)) :: children rest.
Proof.
  intros Hc Hr. unfold children at 1.
  pose proof (length_der tag c).
  destruct (length (der tag c ++ rest)) as [|m] eqn:El; [rewrite length_app in El; lia|].
  cbn [children_fuel]. rewrite tlv_der by done. f_equal. cbn [tlv_len].
  rewrite Nat2Z.id, drop_app_length. apply children_fuel_enough; [done|].
  rewrite length_app in El. lia.
Qed.

Lemma children_nil : children [] = [].
Proof. done. Qed.

Lemma tlv_tagged_der tag c :
  len c < 65536 → tlv_tagged tag (der tag c) = Some (mkTlv tag c (len (der tag c))).
Proof.
  intros. unfold tlv_tagged. rewrite <-(app_nil_r (der tag c)) at 1.
  rewrite tlv_der by done. simpl. by rewrite Z.eqb_refl.
Qed.

Lemma mech_oid_bound m oid : mech_oid m = Some oid → len oid ≤ 10 ∧ Forall is_byte oid ∧ oid ≠ [].
Proof. destruct m; intros [= <-]; (split_and!; [done| |done]); repeat constructor; unfold is_byte; lia. Qed.

Lemma mech_from_oid_oid m oid : mech_oid m = Some oid → mech_from_oid oid = m.
Proof. by destruct m; intros [= <-]. Qed.

(** The token field of a response, when there is one. *)
Definition token_field (token : bytes) : bytes :=
  match token with [] => [] | _ => der 0xA2 (der 0x04 token) end.

Lemma neg_resp_shape state mech oid token :
  mech_oid mech = Some oid →
  neg_resp state mech token =
    der 0xA1 (der 0x30 (der 0xA0 [0x0A; 0x01; state] ++ der 0xA1 (der_oid oid) ++ token_field token)).
Proof.
  intros Ho. destruct (mech_oid_bound _ _ Ho) as (_ & _ & Hne).
  unfold neg_resp. rewrite Ho. cbn [default from_option id].
  destruct oid as [|o oid]; [done|].
  destruct token as [|x token]; cbn [token_field]; [by rewrite app_nil_r|].
  by rewrite <-(app_assoc (der 0xA0 _)).
Qed.

Lemma token_field_bytes token : Forall is_byte token → Forall is_byte (token_field token).
Proof.
  intros. destruct token; [constructor|].
  apply der_bytes; [unfold is_byte; lia|]. apply der_bytes; [unfold is_byte; lia|done].
Qed.

Lemma length_token_field token : len (token_field token) ≤ len token + 8.
Proof.
  destruct token as [|x token]; [done|]. unfold token_field.
  pose proof (length_der 0xA2 (der 0x04 (x :: token))). pose proof (length_der 0x04 (x :: token)). lia.
Qed.

(** A NegTokenResp the server builds is read back by the server's own
    classifier: same mechanism, SPNEGO-wrapped, same token. *)
Theorem neg_resp_classify state mech token :
  is_byte state → mech ≠ MechUnknown → Forall is_byte token → len token < 65000 →
  classify (neg_resp state mech token) = mkIncoming mech true token.
Proof.
  intros Hst Hm Ht Hl.
  destruct (mech_oid mech) as [oid|] eqn:Ho; [|by destruct mech].
  destruct (mech_oid_bound _ _ Ho) as (Hol & Hob & _).
  rewrite (neg_resp_shape _ _ _ _ Ho).
  set (f0 := [0x0A; 0x01; state]). set (f1 := der_oid oid).
  pose proof (length_token_field token). pose proof (length_der 0x06 oid) as Hf1.
  fold (der_oid oid) in Hf1. fold f1 in Hf1.
  pose proof (length_der 0xA0 f0) as H0. pose proof (length_der 0xA1 f1) as H1.
  change (len f0) with 3 in H0.
  set (inner := der 0xA0 f0 ++ der 0xA1 f1 ++ token_field token).
  assert (len inner < 65500) as Hin by (unfold inner; rewrite !length_app; lia).
  pose proof (length_der 0x30 inner) as H2.
  change (classify (der 0xA1 (der 0x30 inner))) with (parse_neg_resp (der 0xA1 (der 0x30 inner))).
  unfold parse_neg_resp. rewrite tlv_tagged_der by lia. simpl tlv_val.
  rewrite tlv_tagged_der by lia. simpl tlv_val. unfold inner.
  assert (Forall is_byte f1) as Hbf1 by (apply der_bytes; [unfold is_byte; lia|done]).
  rewrite children_der; [|done|apply Forall_app_2; [apply der_bytes; [unfold is_byte; lia|done]|
                                 by apply token_field_bytes]].
  rewrite children_der by (lia || by apply token_field_bytes).
  assert (foldl resp_field (mech, []) (children (token_field token)) = (mech, token)) as Hf.
  { destruct token as [|x token]; [done|]. unfold token_field.
    rewrite <-(app_nil_r (der 0xA2 _)). pose proof (length_der 0x04 (x :: token)).
    rewrite children_der by (done || lia).
    cbn [foldl resp_field tlv_tag tlv_val Z.eqb Pos.eqb].
    by rewrite tlv_tagged_der by lia. }
  cbn [foldl resp_field tlv_tag tlv_val Z.eqb Pos.eqb].
  unfold f1, der_oid at 1. rewrite tlv_tagged_der by lia. cbn [tlv_val].
  rewrite (mech_from_oid_oid _ _ Ho), Hf.
  by destruct mech.
Qed.

Lemma neg_resp_classify_witness :
  classify (neg_resp ACCEPT_INCOMPLETE Krb5 (lit "ap-rep")) = mkIncoming Krb5 true (lit "ap-rep").
Proof.
  apply neg_resp_classify; [unfold is_byte, ACCEPT_INCOMPLETE; lia|done| |done].
  apply (bool_decide_unpack _). by vm_compute.
Defined.

(** ** The token is no longer than the blob *)
Lemma tlv_val_le buf t : tlv buf = Some t → len (tlv_val t) ≤ len buf.
Proof.
  unfold tlv. intros ([h n] & _ & E)%bind_Some. cbv beta iota zeta in E. case_match; [done|]. injection E as <-.
  cbn [tlv_val]. unfold sub. rewrite length_take, length_drop. lia.
Qed.
Lemma tlv_tagged_le tag buf t : tlv_tagged tag buf = Some t → len (tlv_val t) ≤ len buf.
Proof. unfold tlv_tagged. intros (t' & E & Ht)%bind_Some. case_match; [|done]. injection Ht as <-. by apply tlv_val_le. Qed.
Lemma children_le buf t : t ∈ children buf → len (tlv_val t) ≤ len buf.
Proof.
  unfold children. generalize (length buf) at 1. intros fuel. revert buf. induction fuel as [|fuel IH]; intros buf; cbn [children_fuel];
    [by intros ?%elem_of_nil|]. destruct (tlv buf) as [t'|] eqn:E; [|by intros ?%elem_of_nil].
  intros [->|Ht]%elem_of_cons; [by apply tlv_val_le|]. apply IH in Ht. rewrite length_drop in Ht. lia.
Qed.
Lemma foldl_token_le (f : Mech * bytes → Tlv → Mech * bytes) n l : ∀ acc,
  (∀ acc t, len acc.2 ≤ n → len (tlv_val t) ≤ n → len (f acc t).2 ≤ n) →
  Forall (λ t, len (tlv_val t) ≤ n) l → len acc.2 ≤ n → len (foldl f acc l).2 ≤ n.
Proof. induction l as [|t l IH]; intros acc Hf Hl Ha; [done|]. apply Forall_cons in Hl as [Ht Hl]. simpl. apply IH; auto. Qed.

Lemma classify_token_le blob : len (in_token (classify blob)) ≤ len blob.
Proof.
  assert (∀ (f : Mech * bytes → Tlv → Mech * bytes) (t0 : bytes), (∀ n acc t, len acc.2 ≤ n → len (tlv_val t) ≤ n → len (f acc t).2 ≤ n) →
    len (foldl f (MechUnknown, []) (children t0)).2 ≤ len t0) as Hfold.
  { intros f t0 Hf. apply foldl_token_le; [apply Hf|apply Forall_forall, children_le|simpl; lia]. }
  assert (∀ n acc t, len acc.2 ≤ n → len (tlv_val t) ≤ n → len (init_field acc t).2 ≤ n) as Hinit.
  { intros n [m tok] t Ha Ht. unfold init_field. repeat case_match; simpl in *; try lia.
    match goal with H : tlv_tagged _ _ = Some _ |- _ => apply tlv_tagged_le in H; lia end. }
  assert (∀ n acc t, len acc.2 ≤ n → len (tlv_val t) ≤ n → len (resp_field acc t).2 ≤ n) as Hresp.
  { intros n [m tok] t Ha Ht. unfold resp_field. repeat case_match; simpl in *; try lia.
    match goal with H : tlv_tagged _ _ = Some _ |- _ => apply tlv_tagged_le in H; lia end. }
  assert (∀ b, len (in_token (parse_neg_init b)) ≤ len b) as Hi.
  { intros b. unfold parse_neg_init. destruct (tlv_tagged 0x30 b) as [s|] eqn:E; [|simpl; lia].
    pose proof (Hfold _ (tlv_val s) Hinit). destruct (foldl _ _ _). apply tlv_tagged_le in E. simpl in *. lia. }
  assert (len (in_token (parse_neg_resp blob)) ≤ len blob) as Hr.
  { unfold parse_neg_resp. destruct (tlv_tagged 0xA1 blob) as [o|] eqn:E; [|simpl; lia].
    destruct (tlv_tagged 0x30 (tlv_val o)) as [s|] eqn:E2; [|simpl; lia].
    pose proof (Hfold _ (tlv_val s) Hresp). destruct (foldl _ _ _). apply tlv_tagged_le in E, E2. simpl in *. lia. }
  unfold classify. cbv zeta. repeat case_match; cbn [in_token]; try lia; try exact Hr.
  match goal with H : children _ = _ :: ?n :: _, H2 : tlv _ = Some ?t |- _ =>
    pose proof (children_le (tlv_val t) n); apply tlv_val_le in H2; rewrite H in *; specialize (Hi (tlv_val n)) end.
  rewrite !elem_of_cons in *. intuition lia.
Qed.
