(* ===== verification/Crypto.v ===== *)
(** The crypto constructions the server builds from primitives: the SP800-108
    key derivation, RC4, the wire signature, and the cipher parameters.
    Models src/crypto.rs; the primitives are parameters of [Env]. *)
From S2P Require Import Prelude Wire Os Sample.
Local Open Scope Z_scope.

Inductive SignAlg := HmacSha256 | AesCmac.
#[global] Instance SignAlg_eq_dec : EqDecision SignAlg.
Proof. solve_decision. Defined.

Definition CIPHER_AES128_CCM : Z := 0x0001.
Definition CIPHER_AES128_GCM : Z := 0x0002.
Definition CIPHER_AES256_CCM : Z := 0x0003.
Definition CIPHER_AES256_GCM : Z := 0x0004.

Definition cipher_key_len (cipher : Z) : Z :=
  if (cipher =? CIPHER_AES256_GCM) || (cipher =? CIPHER_AES256_CCM) then 32 else 16.

Definition cipher_nonce_len (cipher : Z) : Z :=
  if (cipher =? CIPHER_AES128_CCM) || (cipher =? CIPHER_AES256_CCM) then 11 else 12.

(** ** RC4 *)
Definition at_ (s : list Z) (i : Z) : Z := default 0 (s !! Z.to_nat i).

Definition swap (s : list Z) (i j : Z) : list Z :=
  <[Z.to_nat i := at_ s j]> (<[Z.to_nat j := at_ s i]> s).

(** One round of the key schedule. *)
Definition ksa_step (key : bytes) (st : list Z * Z) (i : Z) : list Z * Z :=
  let '(s, j) := st in
  let j := wrap 8 (wrap 8 (j + at_ s i) + at_ key (i mod len key)) in
  (swap s i j, j).

Definition rc4_init (key : bytes) : list Z :=
  (foldl (ksa_step key) (seqZ 0 256, 0) (seqZ 0 256)).1.

(** One byte of key stream, and the next state (s, i, j). *)
Definition prga_step (st : list Z * Z * Z) : Z * (list Z * Z * Z) :=
  let '(s, i, j) := st in
  let i := wrap 8 (i + 1) in
  let j := wrap 8 (j + at_ s i) in
  let s := swap s i j in
  (at_ s (wrap 8 (at_ s i + at_ s j)), (s, i, j)).

Fixpoint rc4_stream (st : list Z * Z * Z) (data : bytes) : bytes :=
  match data with
  | [] => []
  | b :: data => let '(k, st') := prga_step st in Z.lxor b k :: rc4_stream st' data
  end.

Definition rc4 (key data : bytes) : bytes := rc4_stream (rc4_init key, 0, 0) data.

Section crypto.
Context `{Env}.

(** MD4 of the UTF-16LE password. *)
Definition nt_hash (password : str) : bytes := md4 (utf16le password).

Definition kdf128 (key label context : bytes) : bytes :=
  take 16 (hmac_sha256 key [be_bytes 4 1; label; [0]; context; be_bytes 4 128]).

Definition smb2_signature (alg : SignAlg) (key : bytes) (parts : list bytes) : bytes :=
  match alg with
  | HmacSha256 => take 16 (hmac_sha256 key parts)
  | AesCmac => aes128_cmac key parts
  end.

(** [while out.len() < out_bytes]: each block adds at least one byte when
    the MAC is not empty, so [out_bytes] iterations suffice. *)
Fixpoint kdf_loop (fuel : nat) (key label context : bytes) (out_bits counter : Z) (out : bytes) : bytes :=
  match fuel with
  | O => out
  | S fuel =>
      if len out <? out_bits / 8 then
        let block := hmac_sha256 key
          [be_bytes 4 counter; label; [0]; context; be_bytes 4 out_bits] in
        kdf_loop fuel key label context out_bits (wrap 32 (counter + 1)) (out ++ block)
      else out
  end.
Definition kdf (key label context : bytes) (out_bits : Z) : bytes :=
  take (Z.to_nat (out_bits / 8))
    (kdf_loop (Z.to_nat (out_bits / 8)) key label context out_bits 1 []).

(** [k] copied into a zeroed 32-byte buffer. *)
Definition key32 (k : bytes) : bytes := k ++ replicate (32 - length k) 0.

Definition smb311_encryption_keys (cipher : Z) (session_key preauth : bytes) : bytes * bytes :=
  let bits := wrap 32 (cipher_key_len cipher * 8) in
  (key32 (kdf session_key (lit "SMBC2SCipherKey" ++ [0]) preauth bits),
   key32 (kdf session_key (lit "SMBS2CCipherKey" ++ [0]) preauth bits)).

(** ** Facts *)
Lemma length_kdf_loop `{!CryptoLaws} fuel : ∀ key label context bits counter out,
  0 ≤ bits → bits / 8 ≤ len out + 32 * Z.of_nat fuel →
  bits / 8 ≤ len (kdf_loop fuel key label context bits counter out).
Proof.
  induction fuel as [|fuel IH]; intros key label ctx bits c out Hb Hl; cbn [kdf_loop]; [lia|].
  destruct (Z.ltb_spec (len out) (bits / 8)); [|lia].
  apply IH; [done|]. rewrite length_app, hmac_sha256_len. lia.
Qed.

Lemma length_kdf `{!CryptoLaws} key label ctx bits :
  0 ≤ bits → len (kdf key label ctx bits) = bits / 8.
Proof.
  intros Hb. unfold kdf. rewrite length_take.
  assert (0 ≤ bits / 8) by (apply Z.div_pos; lia).
  pose proof (length_kdf_loop (Z.to_nat (bits / 8)) key label ctx bits 1 [] Hb
                ltac:(simpl; lia)). lia.
Qed.

Lemma smb2_signature_len `{!CryptoLaws} alg key ps : length (smb2_signature alg key ps) = 16%nat.
Proof. destruct alg; simpl; [rewrite length_take, hmac_sha256_len|rewrite aes128_cmac_len]; done. Qed.

Lemma smb2_signature_concat `{!CryptoStreams} alg key ps :
  smb2_signature alg key ps = smb2_signature alg key [concat ps].
Proof. destruct alg; simpl; [by rewrite hmac_sha256_concat|by rewrite aes128_cmac_concat]. Qed.

(** The derived encryption keys fill exactly the cipher's key length of
    the 32-byte buffers (16 bytes for AES-128, 32 for AES-256), the rest
    being zero; the derivation loop ends with enough blocks, and the 128-bit
    derivation agrees with the general one. *)
Theorem encryption_keys_length `{!CryptoLaws} cipher session_key preauth :
  let '(c2s, s2c) := smb311_encryption_keys cipher session_key preauth in
  let n := Z.to_nat (cipher_key_len cipher) in
  length c2s = 32%nat ∧ length s2c = 32%nat ∧
  take n c2s = kdf session_key (lit "SMBC2SCipherKey" ++ [0]) preauth (8 * cipher_key_len cipher) ∧
  take n s2c = kdf session_key (lit "SMBS2CCipherKey" ++ [0]) preauth (8 * cipher_key_len cipher) ∧
  (∀ key label ctx, kdf key label ctx 128 = kdf128 key label ctx).
Proof.
  unfold smb311_encryption_keys, key32.
  assert (wrap 32 (cipher_key_len cipher * 8) = 8 * cipher_key_len cipher) as ->.
  { unfold cipher_key_len. by destruct (_ || _). }
  assert (cipher_key_len cipher = 16 ∨ cipher_key_len cipher = 32) as Hk.
  { unfold cipher_key_len. destruct (_ || _); auto. }
  set (k1 := kdf session_key _ _ _). set (k2 := kdf session_key (lit "SMBS2CCipherKey" ++ [0]) _ _).
  assert (∀ lbl, len (kdf session_key lbl preauth (8 * cipher_key_len cipher)) = cipher_key_len cipher) as Hl.
  { intros lbl. rewrite length_kdf by lia. rewrite Z.mul_comm, Z.div_mul; lia. }
  pose proof (Hl (lit "SMBC2SCipherKey" ++ [0])) as H1. fold k1 in H1.
  pose proof (Hl (lit "SMBS2CCipherKey" ++ [0])) as H2. fold k2 in H2.
  split_and!.
  - rewrite length_app, length_replicate. lia.
  - rewrite length_app, length_replicate. lia.
  - replace (Z.to_nat (cipher_key_len cipher)) with (length k1) by lia. by rewrite take_app_length.
  - replace (Z.to_nat (cipher_key_len cipher)) with (length k2) by lia. by rewrite take_app_length.
  - intros key label ctx. unfold kdf, kdf128. change (Z.to_nat (128 / 8)) with 16%nat.
    cbn [kdf_loop]. change (len [] <? 128 / 8) with true. cbn [app].
    rewrite (proj2 (Z.ltb_ge _ _)) by (rewrite hmac_sha256_len; done). done.
Qed.
End crypto.

Lemma encryption_keys_length_witness :
  let '(c2s, s2c) := @smb311_encryption_keys mem_env CIPHER_AES256_GCM (lit "k") (lit "p") in
  length c2s = 32%nat ∧ length s2c = 32%nat.
Proof.
  pose proof (@encryption_keys_length mem_env mem_crypto_laws CIPHER_AES256_GCM (lit "k") (lit "p")) as E.
  destruct (smb311_encryption_keys _ _ _) as [c2s s2c]. destruct E as (H1 & H2 & _).
  split; [exact H1|exact H2].
Defined.

Lemma rc4_twice key data : rc4 key (rc4 key data) = data.
Proof.
  unfold rc4. generalize (rc4_init key, 0, 0). induction data as [|b data IH]; intros st; [done|].
  simpl. destruct (prga_step st) as [k st'] eqn:E. simpl. rewrite E, IH.
  by rewrite Z.lxor_assoc, Z.lxor_nilpotent, Z.lxor_0_r.
Qed.

Lemma length_rc4 key data : length (rc4 key data) = length data.
Proof.
  unfold rc4. generalize (rc4_init key, 0, 0). induction data as [|b data IH]; intros st; [done|].
  simpl. destruct (prga_step st) as [k st']. simpl. by rewrite IH.
Qed.

(** The RFC 6229-style vector of the code's own test ("Key" / "Plaintext"). *)
Example rc4_vector :
  rc4 (lit "Key") (lit "Plaintext") = [0xBB; 0xF3; 0x16; 0xE8; 0xD9; 0x40; 0xAF; 0x0A; 0xD3].
Proof. by vm_compute. Qed.
