(* ===== verification/Ntlm.v ===== *)
(** NTLMSSP: locating and classifying tokens, the CHALLENGE message, parsing
    AUTHENTICATE, NTLMv2 verification with session-key recovery, and the
    SPNEGO wrappers of the NTLM-only build. Models src/ntlm.rs. *)
From S2P Require Import Prelude Wire Os Sample Spnego Crypto.
Local Open Scope Z_scope.

Definition FLAG_ANONYMOUS : Z := 0x800.
Definition FLAG_KEY_EXCH : Z := 0x40000000.

Inductive Token := TNegotiate | TAuthenticate | TOther.
#[global] Instance Token_eq_dec : EqDecision Token.
Proof. solve_decision. Defined.

(** [blob.windows(8).position(|w| w == SIG)], then the rest from there. *)
Fixpoint find_token (blob : bytes) : option bytes :=
  if starts_with ntlm_sig blob then Some blob
  else match blob with [] => None | _ :: r => find_token r end.

Definition ntlm_classify (blob : bytes) : Token :=
  match find_token blob with
  | None => TOther
  | Some tok =>
      if len tok <? 12 then TOther
      else let ty := le_val (sub tok 8 12) in
           if ty =? 1 then TNegotiate else if ty =? 3 then TAuthenticate else TOther
  end.

Definition NTLM_FLAGS : Z :=
  foldl Z.lor 0 [0x1; 0x10; 0x200; 0x8000; 0x20000; 0x80000; 0x800000; 0x2000000;
                 0x20000000; 0x40000000; 0x80000000].

(** The AV pairs: NetBIOS domain, NetBIOS computer, end of list. *)
Definition av_pairs (target : bytes) : bytes :=
  foldl (λ info (id : Z), info ▷ p16 id ▷ p16 (len target) ▷ pbytes target) [] [2; 1]
    ▷ p16 0 ▷ p16 0.

(** The CHALLENGE_MESSAGE (type 2). *)
Definition challenge (server_name : str) (chal : bytes) : bytes :=
  let target := utf16le server_name in
  let info := av_pairs target in
  let HDR := 56 in
  [] ▷ pbytes ntlm_sig
     ▷ p32 2
     ▷ p16 (len target) ▷ p16 (len target) ▷ p32 HDR
     ▷ p32 NTLM_FLAGS
     ▷ pbytes chal
     ▷ p64 0
     ▷ p16 (len info) ▷ p16 (len info) ▷ p32 (HDR + len target)
     ▷ pbytes [0x06; 0x01; 0xB1; 0x1D; 0x00; 0x00; 0x00; 0x0F]
     ▷ pbytes target
     ▷ pbytes info.

Record Authenticate := mkAuthenticate {
  au_user : str; au_domain : str; au_nt_response : bytes;
  au_enc_session_key : bytes; au_flags : Z }.

Definition is_anonymous (a : Authenticate) : bool :=
  has_bits (au_flags a) FLAG_ANONYMOUS ||
  (bool_decide (au_user a = []) && (len (au_nt_response a) <? 16)).

(** A (length, max length, offset) descriptor, resolved in the token. *)
Definition field (tok : bytes) : P bytes :=
  n ← rd_u16; _ ← rd_u16; off ← rd_u32;
  if n =? 0 then mret [] else lift (slice tok off (off + n)).

Definition parse_authenticate (blob : bytes) : option Authenticate :=
  tok ← find_token blob;
  parse (_ ← rd_skip 8; ty ← rd_u32; _ ← ensure (ty =? 3);
         _ ← field tok; nt ← field tok; domain ← field tok; user ← field tok;
         _ ← field tok; key ← field tok; flags ← rd_u32;
         mret (mkAuthenticate (from_utf16le user) (from_utf16le domain) nt key flags)) tok.

(** [x.iter().zip(y).fold(0, |a, (x, y)| a | (x ^ y))]: the comparison without
    early exit. *)
Definition ct_diff (x y : bytes) : Z :=
  foldl (λ a (p : Z * Z), Z.lor a (Z.lxor p.1 p.2)) 0 (zip x y).

Section ntlm.
Context `{Env}.

(** HMAC-MD5(NT hash, UPPER(user) + domain). *)
Definition v2_hash (nt_hash : bytes) (user domain : str) : bytes :=
  hmac_md5 nt_hash (utf16le (to_uppercase user) ++ utf16le domain).

Definition verify_ntlmv2 (nt_hash : bytes) (auth : Authenticate) (server_challenge : bytes)
    : option bytes :=
  if len (au_nt_response auth) <? 16 + 28 then None
  else
    let v2 := v2_hash nt_hash (au_user auth) (au_domain auth) in
    let proof := take 16 (au_nt_response auth) in
    let temp := drop 16 (au_nt_response auth) in
    let expect := hmac_md5 v2 (server_challenge ++ temp) in
    if negb (len expect =? len proof) || negb (ct_diff expect proof =? 0) then None
    else
      let session_base := hmac_md5 v2 proof in
      Some (if has_bits (au_flags auth) FLAG_KEY_EXCH && (len (au_enc_session_key auth) =? 16)
            then rc4 session_base (au_enc_session_key auth)
            else session_base).
End ntlm.

(** ** SPNEGO, as the NTLM-only build writes it *)
Definition is_spnego (blob : bytes) : bool :=
  bool_decide (head blob = Some 0x60 ∨ head blob = Some 0xA1).

Definition spnego_hint : bytes :=
  let mech_list := der 0xA0 (der 0x30 (der 0x06 OID_NTLMSSP)) in
  let hint_str := der 0x1B hint_string in
  let hints := der 0xA3 (der 0x30 (der 0xA0 hint_str)) in
  let token := der 0xA0 (der 0x30 (mech_list ++ hints)) in
  der 0x60 (der 0x06 OID_SPNEGO ++ token).

Definition spnego_wrap_challenge (token : bytes) : bytes :=
  let inner := der 0xA0 [0x0A; 0x01; 0x01] in
  let inner := inner ++ der 0xA1 (der 0x06 OID_NTLMSSP) in
  let inner := inner ++ der 0xA2 (der 0x04 token) in
  der 0xA1 (der 0x30 inner).

Definition spnego_accept_completed : bytes :=
  der 0xA1 (der 0x30 (der 0xA0 [0x0A; 0x01; 0x00])).

(** ** Comparing without early exit is comparing *)
Lemma ct_fold_0 l : ∀ a,
  foldl (λ a (p : Z * Z), Z.lor a (Z.lxor p.1 p.2)) a l = 0 ↔
  a = 0 ∧ Forall (λ p : Z * Z, p.1 = p.2) l.
Proof.
  induction l as [|p l IH]; intros a; simpl; [split; [by split|by intros []]|].
  rewrite IH, Z.lor_eq_0_iff, Z.lxor_eq_0_iff, Forall_cons. tauto.
Qed.

Lemma ct_diff_0 x y : length x = length y → ct_diff x y = 0 ↔ x = y.
Proof.
  intros Hl. unfold ct_diff. rewrite ct_fold_0. split.
  - intros [_ Hf]. revert y Hl Hf. induction x as [|a x IH]; intros [|b y] [=] Hf; [done|].
    simpl in Hf. apply Forall_cons in Hf as [? ?]. simpl in *. f_equal; auto.
  - intros ->. split; [done|]. clear Hl. induction y as [|b y IH]; constructor; auto.
Qed.

(** ** Verification *)
Section ntlm_proofs.
Context `{CryptoLaws}.

(** C28: The server accepts an NTLMv2 response exactly when its 16-byte proof
    is HMAC-MD5, under the key derived from the user's NT hash, of this
    server's challenge and the client's blob (of at least 28 bytes); the key
    it then uses is the client's session key: the RC4-wrapped key of the
    message when key exchange is on and 16 bytes were sent, the session base
    key otherwise. The key is 16 bytes. *)
Theorem verify_ntlmv2_exact nt auth chal k :
  verify_ntlmv2 nt auth chal = Some k ↔
  let v2 := v2_hash nt (au_user auth) (au_domain auth) in
  ∃ proof temp, au_nt_response auth = proof ++ temp ∧ length proof = 16%nat ∧ 28 ≤ len temp ∧
    proof = hmac_md5 v2 (chal ++ temp) ∧ length k = 16%nat ∧
    k = if has_bits (au_flags auth) FLAG_KEY_EXCH && (len (au_enc_session_key auth) =? 16)
        then rc4 (hmac_md5 v2 proof) (au_enc_session_key auth)
        else hmac_md5 v2 proof.
Proof.
  unfold verify_ntlmv2. set (v2 := v2_hash _ _ _). set (r := au_nt_response auth).
  assert (∀ p, length (if has_bits (au_flags auth) FLAG_KEY_EXCH && (len (au_enc_session_key auth) =? 16)
                       then rc4 (hmac_md5 v2 p) (au_enc_session_key auth)
                       else hmac_md5 v2 p) = 16%nat) as Hk.
  { intros p. destruct (_ && (len _ =? 16)) eqn:E.
    - apply andb_prop in E as [_ E%Z.eqb_eq]. rewrite length_rc4. lia.
    - apply hmac_md5_len. }
  simpl. split.
  - destruct (Z.ltb_spec (len r) (16 + 28)); [done|].
    assert (length (take 16 r) = 16%nat) as Hp by (rewrite length_take; lia).
    rewrite hmac_md5_len, Hp, Z.eqb_refl. cbn [negb orb].
    destruct (Z.eqb_spec (ct_diff (hmac_md5 v2 (chal ++ drop 16 r)) (take 16 r)) 0) as [E|];
      cbn [negb]; [|done].
    apply ct_diff_0 in E; [|by rewrite hmac_md5_len].
    intros [= <-]. exists (take 16 r), (drop 16 r). rewrite take_drop.
    split_and!; auto. rewrite length_drop; lia.
  - intros (proof & temp & -> & Hp & Ht & Hproof & _ & ->).
    rewrite length_app. destruct (Z.ltb_spec (Z.of_nat (length proof + length temp)) (16 + 28)); [lia|].
    rewrite take_app_length', drop_app_length' by done.
    rewrite <-Hproof, Z.eqb_refl, (proj2 (ct_diff_0 proof proof eq_refl) eq_refl). done.
Qed.

(** C29: An honest client gets in with the key it chose: when it proves
    knowledge of the NT hash over the server's challenge and wraps its own
    16-byte session key with RC4 under the session base key, the server
    accepts and recovers exactly that key. *)
Theorem ntlm_key_agreement nt user domain chal temp exported :
  28 ≤ len temp → length exported = 16%nat →
  let v2 := v2_hash nt user domain in
  let proof := hmac_md5 v2 (chal ++ temp) in
  verify_ntlmv2 nt
    (mkAuthenticate user domain (proof ++ temp) (rc4 (hmac_md5 v2 proof) exported) FLAG_KEY_EXCH)
    chal = Some exported.
Proof.
  intros Ht He v2 proof. unfold verify_ntlmv2. cbn [au_nt_response au_user au_domain au_flags
    au_enc_session_key]. fold v2.
  assert (length proof = 16%nat) as Hp by apply hmac_md5_len.
  rewrite length_app. destruct (Z.ltb_spec (Z.of_nat (length proof + length temp)) (16 + 28)); [lia|].
  rewrite take_app_length', drop_app_length' by done. fold proof.
  rewrite Z.eqb_refl, (proj2 (ct_diff_0 proof proof eq_refl) eq_refl). cbn [negb orb Z.eqb].
  rewrite length_rc4, He. cbn. f_equal. apply rc4_twice.
Qed.
End ntlm_proofs.

Lemma verify_ntlmv2_exact_witness :
  let v2 := @v2_hash mem_env (lit "hash") (lit "bob") [] in
  let temp := replicate 28 9 in
  let proof := @Os.hmac_md5 mem_env v2 (lit "chal" ++ temp) in
  @verify_ntlmv2 mem_env (lit "hash") (mkAuthenticate (lit "bob") [] (proof ++ temp) [] 0) (lit "chal")
    = Some (@Os.hmac_md5 mem_env v2 proof).
Proof.
  apply (@verify_ntlmv2_exact mem_env mem_crypto_laws). do 2 eexists.
  split_and!; [reflexivity|..]; by vm_compute.
Defined.

Lemma ntlm_key_agreement_witness :
  let v2 := @v2_hash mem_env (lit "hash") (lit "bob") [] in
  let proof := @Os.hmac_md5 mem_env v2 (lit "chal" ++ replicate 28 9) in
  @verify_ntlmv2 mem_env (lit "hash")
    (mkAuthenticate (lit "bob") [] (proof ++ replicate 28 9)
       (rc4 (@Os.hmac_md5 mem_env v2 proof) (replicate 16 5)) FLAG_KEY_EXCH) (lit "chal")
    = Some (replicate 16 5).
Proof. apply (@ntlm_key_agreement mem_env mem_crypto_laws); by vm_compute. Defined.

(** ** The wrappers agree with SPNEGO *)


