(* ===== verification/Pac.v ===== *)
(** Windows security identifiers and the decoding of a Kerberos ticket's PAC
    (its KERB_VALIDATION_INFO, an NDR serialization with deferred referents).
    Models src/pac.rs. *)
From S2P Require Import Prelude Wire.
Local Open Scope Z_scope.

Definition MAX_SUBAUTH : Z := 15.
Definition MAX_GROUPS : Z := 8192.
Definition DASH : Z := 45.

(** ** SIDs *)
Record Sid := mkSid { sid_revision : Z; sid_authority : Z; sid_sub : list Z }.
#[global] Instance Sid_eq_dec : EqDecision Sid.
Proof. solve_decision. Defined.

(** [it.map(parse).collect::<Option<Vec<_>>>()]. *)
Definition sid_parse (s : str) : option Sid :=
  match split_on (λ c, c =? DASH) s with
  | tag :: rev :: auth :: subs =>
      if negb (eq_ignore_case tag (lit "S")) then None
      else
        revision ← parse_uint 255 rev;
        authority ← parse_uint U64_MAX auth;
        if negb (revision =? 1) || (2 ^ 48 <=? authority) then None
        else
          sub ← mapM (parse_uint U32_MAX) subs;
          if bool_decide (sub = []) || (MAX_SUBAUTH <? len sub) then None
          else Some (mkSid revision authority sub)
  | _ => None
  end.

Definition with_rid (s : Sid) (rid : Z) : Sid :=
  mkSid (sid_revision s) (sid_authority s) (sid_sub s ++ [rid]).

(** [impl Display for Sid]. *)
Definition sid_display (s : Sid) : str :=
  lit "S-" ++ show_uint (sid_revision s) ++ [DASH] ++ show_uint (sid_authority s) ++
  (sid_sub s ≫= λ x, DASH :: show_uint x).

Record LogonInfo := mkLogonInfo {
  li_user : str; li_domain : str; li_domain_sid : option Sid; li_user_sid : option Sid;
  li_groups : list Sid }.

Definition has_sid (l : LogonInfo) (s : Sid) : bool :=
  bool_decide (li_user_sid l = Some s) || existsb (λ g, bool_decide (g = s)) (li_groups l).

(** ** The NDR reader *)
Inductive PacErr :=
| Overflow | Truncated | BadBufferCount | LogonInfoOutOfBounds | NoLogonInfo
| BadNdrHeader | NullValidationInfo | BadStringLength | BadSid | TooManyGroups | TooManyExtraSids.

Definition R (A : Type) : Type := Rdr → result (A * Rdr) PacErr.
#[global] Instance R_ret : MRet R := λ A a r, Ok (a, r).
#[global] Instance R_bind : MBind R := λ A B k m r,
  match m r with Ok (a, r') => k a r' | Err e => Err e end.
Definition R_err {A} (e : PacErr) : R A := λ _, Err e.

Definition ndr_take (n : Z) : R bytes := λ r,
  if rdr_pos r + n <? 2 ^ 64 then
    match slice (rdr_b r) (rdr_pos r) (rdr_pos r + n) with
    | Some s => Ok (s, mkRdr (rdr_b r) (rdr_pos r + n))
    | None => Err Truncated
    end
  else Err Overflow.
Definition ndr_skip (n : Z) : R unit := _ ← ndr_take n; mret tt.
Definition ndr_align (a : Z) : R unit := λ r, ndr_skip ((a - rdr_pos r mod a) mod a) r.
Definition ndr_u8 : R Z := s ← ndr_take 1; mret (le_val s).
Definition ndr_u16 : R Z := _ ← ndr_align 2; s ← ndr_take 2; mret (le_val s).
Definition ndr_u32 : R Z := _ ← ndr_align 4; s ← ndr_take 4; mret (le_val s).
Definition ndr_u64 : R Z := lo ← ndr_u32; hi ← ndr_u32; mret (Z.lor lo (Z.shiftl hi 32)).
(** [r.u32()? != 0]: a pointer's presence. *)
Definition ndr_ptr : R bool := v ← ndr_u32; mret (negb (v =? 0)).

Fixpoint ndr_repeat {A} (n : nat) (p : R A) : R (list A) :=
  match n with
  | O => mret []
  | S n => x ← p; xs ← ndr_repeat n p; mret (x :: xs)
  end.

Record UStr := mkUStr { us_len : Z; us_present : bool }.

Definition ustr_hdr : R UStr :=
  n ← ndr_u16; _ ← ndr_u16; present ← ndr_ptr; mret (mkUStr n present).

Definition ustr_body (h : UStr) : R (option str) :=
  if us_present h then
    _ ← ndr_u32; _ ← ndr_u32; actual ← ndr_u32;
    if (actual * 2 <? us_len h) || (0x8000 <? actual) then R_err BadStringLength
    else
      raw ← ndr_take (actual * 2);
      mret (Some (from_utf16_lossy (take (Z.to_nat (us_len h / 2)) (units16 raw))))
  else mret None.

Definition ndr_sid : R Sid :=
  max ← ndr_u32; revision ← ndr_u8; n ← ndr_u8;
  if negb (n =? max) || (n =? 0) || (MAX_SUBAUTH <? n) then R_err BadSid
  else
    a ← ndr_take 6;
    sub ← ndr_repeat (Z.to_nat n) ndr_u32;
    mret (mkSid revision (foldl (λ acc b, Z.lor (Z.shiftl acc 8) b) 0 a) sub).

Definition ndr_rids : R (list Z) :=
  n ← ndr_u32;
  if MAX_GROUPS <? n then R_err TooManyGroups
  else ndr_repeat (Z.to_nat n) (rid ← ndr_u32; _ ← ndr_u32; mret rid).

(** The ExtraSids array: (SID pointer, Attributes) pairs, then the non-null
    SIDs in order. *)
Fixpoint ndr_present_sids (present : list bool) : R (list Sid) :=
  match present with
  | [] => mret []
  | true :: present => s ← ndr_sid; rest ← ndr_present_sids present; mret (s :: rest)
  | false :: present => ndr_present_sids present
  end.
Definition ndr_extra_sids : R (list Sid) :=
  n ← ndr_u32;
  if MAX_GROUPS <? n then R_err TooManyExtraSids
  else
    present ← ndr_repeat (Z.to_nat n) (p ← ndr_ptr; _ ← ndr_u32; mret p);
    ndr_present_sids present.

(** The fixed part of KERB_VALIDATION_INFO, as far as it is used. *)
Record Fixed := mkFixed {
  fx_strs : list UStr; fx_user_id : Z; fx_primary_group : Z; fx_group_ids : bool;
  fx_logon_server : UStr; fx_domain_name : UStr; fx_domain_sid : bool;
  fx_extra_sids : bool; fx_res_domain : bool; fx_res_ids : bool }.

Definition ndr_fixed : R Fixed :=
  _ ← ndr_skip (6 * 8);
  strs ← ndr_repeat 6 ustr_hdr;
  _ ← ndr_u16; _ ← ndr_u16;
  user_id ← ndr_u32; primary_group ← ndr_u32; _ ← ndr_u32; group_ids ← ndr_ptr;
  _ ← ndr_u32; _ ← ndr_skip 16;
  logon_server ← ustr_hdr; domain_name ← ustr_hdr; domain_sid ← ndr_ptr;
  _ ← ndr_skip (2 * 4); _ ← ndr_u32; _ ← ndr_u32; _ ← ndr_skip (2 * 8);
  _ ← ndr_u32; _ ← ndr_u32; _ ← ndr_u32;
  extra_sids ← ndr_ptr; res_domain ← ndr_ptr; _ ← ndr_u32; res_ids ← ndr_ptr;
  mret (mkFixed strs user_id primary_group group_ids logon_server domain_name domain_sid
          extra_sids res_domain res_ids).

(** [if !groups.contains(&s) { groups.push(s) }]. *)
Definition add_group (groups : list Sid) (s : Sid) : list Sid :=
  if bool_decide (s ∈ groups) then groups else groups ++ [s].

(** [if let Some(d) { for rid { add(d.with_rid(rid)) } }]. *)
Definition in_domain (d : option Sid) (rids : list Z) : list Sid :=
  match d with Some d => with_rid d <$> rids | None => [] end.

(** Every SID the token lists, in the order it is added. *)
Definition listed_groups (primary_group : Z) (rids : list Z) (domain_sid : option Sid)
    (extra : list Sid) (res_domain : option Sid) (res_rids : list Z) : list Sid :=
  in_domain domain_sid (primary_group :: rids) ++ extra ++ in_domain res_domain res_rids.

Fixpoint ndr_each (hs : list UStr) : R unit :=
  match hs with [] => mret tt | h :: hs => _ ← ustr_body h; ndr_each hs end.

Definition ndr_opt {A} (c : bool) (p : R A) : R (option A) :=
  if c then x ← p; mret (Some x) else mret None.

Definition ndr_logon_info : R LogonInfo :=
  ver ← ndr_u8; endian ← ndr_u8; hlen ← ndr_u16;
  if negb (ver =? 1) || negb (endian =? 0x10) || negb (hlen =? 8) then R_err BadNdrHeader
  else
    _ ← ndr_u32; _ ← ndr_u32; _ ← ndr_u32; p ← ndr_ptr;
    if negb p then R_err NullValidationInfo
    else
      fx ← ndr_fixed;
      user ← match fx_strs fx with h :: _ => ustr_body h | [] => mret None end;
      _ ← ndr_each (tail (fx_strs fx));
      rids ← ndr_opt (fx_group_ids fx) ndr_rids;
      _ ← ustr_body (fx_logon_server fx);
      domain ← ustr_body (fx_domain_name fx);
      domain_sid ← ndr_opt (fx_domain_sid fx) ndr_sid;
      extra ← ndr_opt (fx_extra_sids fx) ndr_extra_sids;
      res_domain ← ndr_opt (fx_res_domain fx) ndr_sid;
      res_rids ← ndr_opt (fx_res_ids fx) ndr_rids;
      mret (mkLogonInfo (default [] user) (default [] domain) domain_sid
        (flip with_rid (fx_user_id fx) <$> domain_sid)
        (foldl add_group [] (listed_groups (fx_primary_group fx) (default [] rids) domain_sid
           (default [] extra) res_domain (default [] res_rids)))).

Definition parse_logon_info (buf : bytes) : result LogonInfo PacErr :=
  match ndr_logon_info (rdr_new buf) with Ok (l, _) => Ok l | Err e => Err e end.

Definition PAC_LOGON_INFO : Z := 1.

(** The loop over the PAC_INFO_BUFFER entries. *)
Fixpoint pac_entries (n : nat) (pac : bytes) : R LogonInfo :=
  match n with
  | O => R_err NoLogonInfo
  | S n =>
      ty ← ndr_u32; size ← ndr_u32; off ← ndr_u64;
      if ty =? PAC_LOGON_INFO then
        if 2 ^ 64 <=? off + size then R_err Overflow
        else match slice pac off (off + size) with
             | None => R_err LogonInfoOutOfBounds
             | Some buf => λ r, match parse_logon_info buf with Ok l => Ok (l, r) | Err e => Err e end
             end
      else pac_entries n pac
  end.

Definition parse_pac (pac : bytes) : result LogonInfo PacErr :=
  match (count ← ndr_u32; _ ← ndr_u32;
         if (count =? 0) || (64 <? count) then R_err BadBufferCount
         else pac_entries (Z.to_nat count) pac) (rdr_new pac) with
  | Ok (l, _) => Ok l
  | Err e => Err e
  end.

(** ** SID strings *)

(** What [sid_parse] accepts. *)
Definition sid_ok (s : Sid) : Prop :=
  sid_revision s = 1 ∧ 0 ≤ sid_authority s < 2 ^ 48 ∧
  Forall (λ x, 0 ≤ x ≤ U32_MAX) (sid_sub s) ∧ sid_sub s ≠ [] ∧ len (sid_sub s) ≤ MAX_SUBAUTH.

Lemma no_dash s : DASH ∉ s → Forall (λ c, (c =? DASH) = false) s.
Proof. rewrite Forall_forall. intros Hs c Hc. apply Z.eqb_neq. by intros ->. Qed.

Lemma split_dash w r :
  DASH ∉ w → split_on (λ c, c =? DASH) (w ++ [DASH] ++ r) = w :: split_on (λ c, c =? DASH) r.
Proof. intros Hw. by apply (split_on_app (λ c, c =? DASH)); [apply no_dash|]. Qed.

Lemma split_sub subs : ∀ w, DASH ∉ w → Forall (λ x, 0 ≤ x ≤ U32_MAX) subs →
  split_on (λ c, c =? DASH) (w ++ (subs ≫= λ x, DASH :: show_uint x)) = w :: (show_uint <$> subs).
Proof.
  induction subs as [|x subs IH]; intros w Hw Hs.
  - simpl. rewrite app_nil_r. by apply split_on_word, no_dash.
  - apply Forall_cons in Hs as [Hx Hs]. rewrite bind_cons, <-app_comm_cons.
    rewrite split_on_app by (by apply no_dash || done). rewrite fmap_cons. f_equal.
    apply IH; [|done]. unfold U32_MAX in Hx. apply show_uint_no_sep; unfold DASH; lia.
Qed.

Lemma mapM_show subs :
  Forall (λ x, 0 ≤ x ≤ U32_MAX) subs → mapM (parse_uint U32_MAX) (show_uint <$> subs) = Some subs.
Proof.
  intros Hs. apply mapM_Some. induction Hs as [|x subs Hx _ IH]; constructor; [|done].
  unfold U32_MAX in *. apply parse_show_uint; lia.
Qed.

(** SID strings round-trip: every SID that can be written in a
    configuration file is printed as a string that parses back to it, and
    whatever parses is a revision-1 SID with a 48-bit authority and 1 to 15
    32-bit sub-authorities. *)
Theorem sid_display_parse s :
  (sid_ok s → sid_parse (sid_display s) = Some s) ∧
  (∀ t, sid_parse t = Some s → sid_ok s).
Proof.
  split.
  - intros (Hr & Ha & Hs & Hne & Hl). destruct s as [rev auth sub]; simpl in *. subst rev.
    unfold sid_display, sid_parse; cbn [sid_revision sid_authority sid_sub].
    change (lit "S-") with (lit "S" ++ [DASH]). rewrite <-app_assoc.
    rewrite split_dash by (apply (bool_decide_unpack _); by vm_compute).
    change (show_uint 1) with [49].
    rewrite split_dash by (apply (bool_decide_unpack _); by vm_compute).
    rewrite split_sub by (try apply show_uint_no_sep; unfold DASH; done || lia).
    change (parse_uint 255 [49]) with (Some 1).
    rewrite parse_show_uint by (unfold U64_MAX; lia). cbn -[len MAX_SUBAUTH].
    rewrite (proj2 (Z.leb_gt (2 ^ 48) auth)) by lia. rewrite mapM_show by done. cbn -[len MAX_SUBAUTH].
    rewrite bool_decide_false by done. by rewrite (proj2 (Z.ltb_ge _ _)) by lia.
  - intros t. unfold sid_parse.
    destruct (split_on _ t) as [|tag [|rev [|auth subs]]]; try done.
    destruct (negb _); [done|].
    destruct (parse_uint 255 rev) as [r|] eqn:Er; [|done]. simpl.
    destruct (parse_uint U64_MAX auth) as [a|] eqn:Ea; [|done]. simpl.
    destruct (Z.eqb_spec r 1) as [->|]; [|done]. simpl.
    destruct (Z.leb_spec (2 ^ 48) a); [done|].
    destruct (mapM _ subs) as [sub|] eqn:Em; [|done]. simpl.
    case_bool_decide; [done|]. simpl. destruct (Z.ltb_spec MAX_SUBAUTH (len sub)); [done|].
    intros [= <-]. apply parse_uint_bound in Ea. unfold sid_ok; simpl.
    split_and!; try done; try lia.
    apply mapM_Some_1 in Em. clear -Em.
    induction Em; constructor; eauto using parse_uint_bound.
Qed.

Lemma sid_display_parse_witness :
  sid_parse (sid_display (mkSid 1 5 [21; 7; 1105])) = Some (mkSid 1 5 [21; 7; 1105]).
Proof.
  apply sid_display_parse. unfold sid_ok. simpl. split_and!; try done.
  repeat constructor; by vm_compute.
Defined.

(** ** Decoding a PAC *)
Lemma R_bind_Ok {A B} (m : R A) (k : A → R B) r b r' :
  (m ≫= k) r = Ok (b, r') → ∃ a r1, m r = Ok (a, r1) ∧ k a r1 = Ok (b, r').
Proof. unfold mbind, R_bind. destruct (m r) as [[a r1]|e]; [eauto|done]. Qed.

Ltac ndr_inv :=
  repeat match goal with
  | H : mbind _ _ _ = Ok _ |- _ => apply R_bind_Ok in H as (? & ? & ? & H)
  | H : mret _ _ = Ok _ |- _ => unfold mret, R_ret in H; simplify_eq
  | H : R_err _ _ = Ok _ |- _ => discriminate H
  | H : (if ?b then _ else _) _ = Ok _ |- _ => destruct b eqn:?
  end.

Lemma ndr_repeat_length {A} (p : R A) n : ∀ r l r',
  ndr_repeat n p r = Ok (l, r') → length l = n.
Proof. induction n as [|n IH]; simpl; intros r l r' H; ndr_inv; simpl; eauto. Qed.

Lemma ndr_present_sids_length ps : ∀ r l r',
  ndr_present_sids ps r = Ok (l, r') → (length l ≤ length ps)%nat.
Proof.
  induction ps as [|[] ps IH]; simpl; intros r l r' H; ndr_inv; simpl;
    repeat match goal with H : ndr_present_sids ps _ = Ok _ |- _ => apply IH in H end; lia.
Qed.

Lemma ndr_rids_length r l r' : ndr_rids r = Ok (l, r') → len l ≤ MAX_GROUPS.
Proof.
  unfold ndr_rids. intros H. ndr_inv. apply ndr_repeat_length in H as ->.
  unfold MAX_GROUPS in *. lia.
Qed.

Lemma ndr_extra_sids_length r l r' : ndr_extra_sids r = Ok (l, r') → len l ≤ MAX_GROUPS.
Proof.
  unfold ndr_extra_sids. intros H. ndr_inv. apply ndr_present_sids_length in H.
  repeat match goal with E : ndr_repeat _ _ _ = Ok _ |- _ => apply ndr_repeat_length in E end.
  unfold MAX_GROUPS in *. lia.
Qed.

Lemma ndr_opt_length {A} c (p : R (list A)) n r l r' :
  0 ≤ n → (∀ r l r', p r = Ok (l, r') → len l ≤ n) →
  ndr_opt c p r = Ok (l, r') → len (default [] l) ≤ n.
Proof. unfold ndr_opt. intros ? Hp H. ndr_inv; simpl; [by eapply Hp|lia]. Qed.

Lemma add_group_spec l : ∀ acc, NoDup acc →
  NoDup (foldl add_group acc l) ∧ (∀ s, s ∈ foldl add_group acc l ↔ s ∈ acc ∨ s ∈ l) ∧
  len (foldl add_group acc l) ≤ len acc + len l.
Proof.
  induction l as [|x l IH]; intros acc Hacc; simpl.
  { split_and!; [done| |simpl; lia]. intros s. rewrite elem_of_nil. tauto. }
  assert (NoDup (add_group acc x)) as Hx.
  { unfold add_group. case_bool_decide; [done|]. apply NoDup_app. split_and!; [done| |apply NoDup_singleton].
    intros y Hy ->%list_elem_of_singleton. done. }
  destruct (IH _ Hx) as (H1 & H2 & H3). split_and!; [done| |].
  - intros s. rewrite H2, elem_of_cons. unfold add_group. case_bool_decide.
    + naive_solver.
    + rewrite elem_of_app, list_elem_of_singleton. tauto.
  - unfold add_group in *. case_bool_decide; [lia|]. rewrite length_app in H3. simpl in *. lia.
Qed.

Lemma length_in_domain d rids : len (in_domain d rids) ≤ len rids.
Proof. destruct d; simpl; [rewrite length_fmap|]; lia. Qed.

(** A decoded PAC yields a bounded, duplicate-free set of group SIDs: at
    most three arrays of 8192 plus the primary group, whatever counts the
    bytes claim; the user's SID is the domain SID extended with one RID (none
    without a domain SID); and a session carries a SID exactly when it is the
    user's or one of those groups. *)
Theorem parse_logon_info_groups buf l :
  parse_logon_info buf = Ok l →
  NoDup (li_groups l) ∧ len (li_groups l) ≤ 3 * MAX_GROUPS + 1 ∧
  (∃ rid, li_user_sid l = flip with_rid rid <$> li_domain_sid l) ∧
  (∀ d, li_domain_sid l = Some d → ∃ primary, has_sid l (with_rid d primary) = true) ∧
  (∀ s, has_sid l s = true ↔ li_user_sid l = Some s ∨ s ∈ li_groups l).
Proof.
  unfold parse_logon_info. destruct (ndr_logon_info _) as [[l' r]|e] eqn:E; [|done].
  intros [= ->]. unfold ndr_logon_info in E. ndr_inv.
  repeat match goal with
  | H : ndr_opt _ ndr_rids _ = Ok _ |- _ =>
      apply (ndr_opt_length _ _ MAX_GROUPS) in H; [|done|apply ndr_rids_length]
  | H : ndr_opt _ ndr_extra_sids _ = Ok _ |- _ =>
      apply (ndr_opt_length _ _ MAX_GROUPS) in H; [|done|apply ndr_extra_sids_length]
  end.
  cbn [li_groups li_user_sid li_domain_sid].
  match goal with |- context [foldl add_group [] ?g] => set (gs := g) end.
  destruct (add_group_spec gs [] ltac:(constructor)) as (G1 & G2 & G3).
  assert (len gs ≤ 3 * MAX_GROUPS + 1).
  { unfold gs, listed_groups. rewrite !length_app.
    repeat match goal with |- context [in_domain ?d ?l] =>
      pose proof (length_in_domain d l); generalize dependent (in_domain d l); intros end.
    simpl length in *. lia. }
  assert (∀ u s, bool_decide (u = Some s) || existsb (λ g, bool_decide (g = s)) (foldl add_group [] gs) = true
     ↔ u = Some s ∨ s ∈ foldl add_group [] gs) as Hhas.
  { intros u s. rewrite orb_true_iff, bool_decide_eq_true, existsb_exists.
    setoid_rewrite bool_decide_eq_true. setoid_rewrite <-list_elem_of_In. naive_solver. }
  split_and!; [done|simpl in G3; lia|by eexists| |intros s; apply Hhas].
  intros d Hd. eexists. apply Hhas. right. apply G2. right. unfold gs, listed_groups.
  rewrite Hd. simpl. left.
Qed.

(** A minimal LOGON_INFO: domain SID S-1-5-21, user 1000, primary group 513. *)
Definition sample_logon_info : bytes :=
  [1; 0x10; 8; 0; 0; 0; 0; 0; 0; 0; 0; 0; 0; 0; 0; 0; 1; 0; 0; 0]
  ++ replicate 48 0 ++ replicate 48 0 ++ [0; 0; 0; 0]
  ++ le_bytes 4 1000 ++ le_bytes 4 513 ++ le_bytes 4 0 ++ le_bytes 4 0
  ++ le_bytes 4 0 ++ replicate 16 0 ++ replicate 8 0 ++ replicate 8 0 ++ le_bytes 4 1
  ++ replicate 8 0 ++ le_bytes 4 0 ++ le_bytes 4 0 ++ replicate 16 0 ++ replicate 12 0
  ++ le_bytes 4 0 ++ le_bytes 4 0 ++ le_bytes 4 0 ++ le_bytes 4 0
  ++ le_bytes 4 1 ++ [1; 1; 0; 0; 0; 0; 0; 5] ++ le_bytes 4 21.

Lemma parse_logon_info_groups_witness :
  let l := mkLogonInfo [] [] (Some (mkSid 1 5 [21])) (Some (mkSid 1 5 [21; 1000])) [mkSid 1 5 [21; 513]] in
  parse_logon_info sample_logon_info = Ok l ∧ has_sid l (mkSid 1 5 [21; 513]) = true.
Proof.
  intros l. assert (parse_logon_info sample_logon_info = Ok l) as E by (by vm_compute).
  split; [exact E|]. apply (parse_logon_info_groups _ _ E). right. left.
Defined.
