(* ===== verification/Net.v ===== *)
(** Network interfaces: their discovery at start-up and the reply to
    FSCTL_QUERY_NETWORK_INTERFACE_INFO. Models src/net.rs. *)
From S2P Require Import Prelude Hoare Wire Os.
Local Open Scope Z_scope.

Inductive IpAddr := V4 (octets : bytes) | V6 (octets : bytes).
Record Iface := mkIface {
  if_index : Z; if_addr : IpAddr; if_speed : Z; if_capability : Z; if_loopback : bool }.

(** SOCKADDR_STORAGE: family and address, padded to 128 bytes. *)
Definition sockaddr (a : IpAddr) (out : bytes) : bytes :=
  let sa_start := len out in
  let out :=
    match a with
    | V4 octets => out ▷ p16 2 ▷ p16 0 ▷ pbytes octets ▷ zeros 8
    | V6 octets => out ▷ p16 23 ▷ p16 0 ▷ p32 0 ▷ pbytes octets ▷ p32 0
    end in
  out ▷ zeros (128 - (len out - sa_start)).

(** The first loop: entries with a zero Next, and their offsets. *)
Definition encode_iface (st : list Z * bytes) (ifc : Iface) : list Z * bytes :=
  let '(entry_offsets, out) := st in
  (entry_offsets ++ [len out],
   out ▷ p32 0 ▷ p32 (if_index ifc) ▷ p32 (if_capability ifc) ▷ p32 0 ▷ p64 (if_speed ifc)
       ▷ sockaddr (if_addr ifc)).

Definition encode_interface_info (ifaces : list Iface) : bytes :=
  let '(entry_offsets, out) := foldl encode_iface ([], []) ifaces in
  patch_windows entry_offsets out.

(** ** Discovery *)
Definition IF_CAP_RSS : Z := 1.
Definition IFF_UP : Z := 0x1.
Definition IFF_LOOPBACK : Z := 0x8.
Definition AF_INET : Z := 2.
Definition AF_INET6 : Z := 10.

(** [s.parse::<i64>()]. *)
Definition parse_i64 (s : str) : option Z :=
  match s with
  | 45 :: d =>
      if bool_decide (d ≠ []) && forallb is_digit d && (dec_val d <=? 2 ^ 63) then Some (- dec_val d) else None
  | _ => parse_uint I64_MAX s
  end.

Section discover.
Context `{Env}.

(** [mbps as u64 * 1_000_000] wraps in a release build. *)
Definition link_speed_bps (name : str) (loopback : bool) : IO Z :=
  s ← do (c_read_file (lit "/sys/class/net/" ++ name ++ lit "/speed"));
  let fallback := if loopback then 100000000000 else 10000000000 in
  mret (match s ≫= λ s, parse_i64 (trim s) with
        | Some mbps => if 0 <? mbps then wrap 64 (mbps * 1000000) else fallback
        | None => fallback
        end).

(** One element of the list; [None]: it is skipped. *)
Definition iface_of (ifa : IfAddr) : IO (option Iface) :=
  match ifa_addr ifa with
  | None => mret None
  | Some (family, octets) =>
      let name := from_utf8_lossy (ifa_name ifa) in
      let loopback := has_bits (ifa_flags ifa) IFF_LOOPBACK in
      if negb (has_bits (ifa_flags ifa) IFF_UP) then mret None
      else
        match (if family =? AF_INET then Some (V4 octets)
               else if family =? AF_INET6 then Some (V6 octets) else None) with
        | None => mret None
        | Some addr =>
            index ← do (c_if_nametoindex (ifa_name ifa));
            speed ← link_speed_bps name loopback;
            mret (Some (mkIface index addr speed IF_CAP_RSS loopback))
        end
  end.

Fixpoint ifaces_of (l : list IfAddr) : IO (list Iface) :=
  match l with
  | [] => mret []
  | ifa :: l => i ← iface_of ifa; r ← ifaces_of l; mret (match i with Some i => i :: r | None => r end)
  end.

Definition interfaces : IO (list Iface) :=
  l ← do c_getifaddrs;
  match l with None => mret [] | Some l => ifaces_of l end.
End discover.

(** ** [IpAddr::to_string] *)
Definition join (sep : str) (l : list str) : str :=
  match l with [] => [] | x :: r => foldl (λ a y, a ++ sep ++ y) x r end.

(** [{:x}] of a 16-bit number: no leading zeros. *)
Definition hex16 (v : Z) : str :=
  let digit i := let d := Z.land (Z.shiftr v (4 * i)) 15 in if d <? 10 then 48 + d else 87 + d in
  let n := if v <? 16 then 1 else if v <? 256 then 2 else if v <? 4096 then 3 else 4 in
  drop (Z.to_nat (4 - n)) (digit <$> [3; 2; 1; 0]).

(** The first of the longest runs of zeros: start and length. *)
Fixpoint zero_run (l : list Z) (i : Z) (cur best : Z * Z) : Z * Z :=
  match l with
  | [] => best
  | x :: l =>
      if x =? 0 then
        let cur := (if cur.2 =? 0 then i else cur.1, cur.2 + 1) in
        zero_run l (i + 1) cur (if best.2 <? cur.2 then cur else best)
      else zero_run l (i + 1) (0, 0) best
  end.

Fixpoint segments (o : bytes) : list Z :=
  match o with a :: b :: o => (256 * a + b) :: segments o | _ => [] end.

Definition ip_to_string (a : IpAddr) : str :=
  let v4 o := join (lit ".") (show_uint <$> o) in
  match a with
  | V4 o => v4 o
  | V6 o =>
      if bool_decide (take 12 o = replicate 10 0 ++ [255; 255]) then lit "::ffff:" ++ v4 (drop 12 o)
      else
        let segs := segments o in
        let fmt l := join (lit ":") (hex16 <$> l) in
        let '(start, n) := zero_run segs 0 (0, 0) (0, 0) in
        if 1 <? n
        then fmt (take (Z.to_nat start) segs) ++ lit "::" ++ fmt (drop (Z.to_nat (start + n)) segs)
        else fmt segs
  end.

Example ip_strings :
  ip_to_string (V4 [10; 0; 0; 7]) = lit "10.0.0.7" ∧
  ip_to_string (V6 (replicate 15 0 ++ [1])) = lit "::1" ∧
  ip_to_string (V6 ([0xfe; 0x80] ++ replicate 6 0 ++ [0; 1; 0; 0; 0; 0; 0; 0x2a])) = lit "fe80::1:0:0:2a" ∧
  ip_to_string (V6 (replicate 10 0 ++ [255; 255; 192; 0; 2; 1])) = lit "::ffff:192.0.2.1".
Proof. by vm_compute. Qed.

(** ** What a client reads back *)
Definition octets_ok (a : IpAddr) : Prop :=
  match a with V4 o => length o = 4%nat | V6 o => length o = 16%nat end.

(** One entry's bytes after Next. *)
Definition iface_body (i : Iface) : bytes :=
  le_bytes 4 (if_index i) ++ le_bytes 4 (if_capability i) ++ le_bytes 4 0 ++ le_bytes 8 (if_speed i) ++
  match if_addr i with
  | V4 o => le_bytes 2 2 ++ le_bytes 2 0 ++ o ++ replicate 120 0
  | V6 o => le_bytes 2 23 ++ le_bytes 2 0 ++ le_bytes 4 0 ++ o ++ replicate 104 0
  end.

Lemma length_iface_body i : octets_ok (if_addr i) → length (iface_body i) = 148%nat.
Proof.
  unfold iface_body, octets_ok. destruct (if_addr i) as [o|o]; intros E;
    rewrite !length_app, !length_le_bytes, E, length_replicate; done.
Qed.

Lemma sockaddr_eq a out :
  octets_ok a → sockaddr a out = out ++
    match a with
    | V4 o => le_bytes 2 2 ++ le_bytes 2 0 ++ o ++ replicate 120 0
    | V6 o => le_bytes 2 23 ++ le_bytes 2 0 ++ le_bytes 4 0 ++ o ++ replicate 104 0
    end.
Proof.
  unfold sockaddr, octets_ok. destruct a as [o|o]; intros E.
  - set (b := out ▷ p16 2 ▷ p16 0 ▷ pbytes o ▷ zeros 8).
    assert (len b = len out + 16) as -> by (unfold b; autorewrite with put; lia).
    replace (128 - (len out + 16 - len out)) with 112 by lia.
    unfold b, p16, zeros, pbytes. by rewrite <-!app_assoc.
  - set (b := out ▷ p16 23 ▷ p16 0 ▷ p32 0 ▷ pbytes o ▷ p32 0).
    assert (len b = len out + 28) as -> by (unfold b; autorewrite with put; lia).
    replace (128 - (len out + 28 - len out)) with 100 by lia.
    unfold b, p16, p32, zeros, pbytes. by rewrite <-!app_assoc.
Qed.

Lemma encode_iface_snoc dn i :
  octets_ok (if_addr i) →
  encode_iface (starts_from 0 dn, unpatched dn) i =
    (starts_from 0 (dn ++ [iface_body i]), unpatched (dn ++ [iface_body i])).
Proof.
  intros Hi. unfold encode_iface. rewrite starts_from_snoc, sockaddr_eq by done. f_equal.
  unfold unpatched. rewrite fmap_app, concat_app. cbn [fmap list_fmap concat].
  rewrite app_nil_r. unfold p32, p64, pbytes, iface_body. by rewrite <-!app_assoc.
Qed.

Lemma encode_iface_fold ifaces : ∀ dn,
  Forall (λ i, octets_ok (if_addr i)) ifaces →
  foldl encode_iface (starts_from 0 dn, unpatched dn) ifaces =
    (starts_from 0 (dn ++ (iface_body <$> ifaces)), unpatched (dn ++ (iface_body <$> ifaces))).
Proof.
  induction ifaces as [|i ifaces IH]; intros dn Hf; cbn [foldl fmap list_fmap];
    [by rewrite app_nil_r|].
  apply Forall_cons in Hf as [Hi Hf].
  rewrite encode_iface_snoc, IH, <-app_assoc by done. done.
Qed.

(** A client that follows the Next offsets of the reply finds exactly the
    server's interfaces, in order: 152 bytes each, carrying the index, the
    capability, the link speed and the address; the last Next is zero. *)
Theorem interface_info_roundtrip ifaces :
  ifaces ≠ [] → Forall (λ i, octets_ok (if_addr i)) ifaces →
  let out := encode_interface_info ifaces in
  len out = 152 * len ifaces ∧
  read_chain (length ifaces) out = iface_body <$> ifaces ∧
  (∀ i r, rdr_ok r → octets_ok (if_addr i) → 0 ≤ if_index i < 2 ^ 32 → 0 ≤ if_capability i < 2 ^ 32 →
     0 ≤ if_speed i < 2 ^ 64 → rdr_rest r = iface_body i →
     ∃ r', (x ← rd_u32; c ← rd_u32; _ ← rd_u32; s ← rd_u64; mret (x, c, s)) r
             = Some ((if_index i, if_capability i, if_speed i), r')).
Proof.
  intros Hne Hf out.
  assert (out = chain (iface_body <$> ifaces)) as Eout.
  { unfold out, encode_interface_info.
    pose proof (encode_iface_fold ifaces [] Hf) as E. cbn [app starts_from] in E.
    unfold unpatched at 1 in E. cbn in E. rewrite E. apply (patch_windows_chain _ []). }
  rewrite Eout. split_and!.
  - clear -Hf. induction ifaces as [|i ifaces IH]; [done|].
    apply Forall_cons in Hf as [Hi Hf]. specialize (IH Hf). pose proof (length_iface_body i Hi).
    destruct ifaces as [|j ifaces].
    + rewrite fmap_cons. cbn [chain fmap list_fmap]. rewrite length_app, length_le_bytes.
      cbn [length]. lia.
    + change (chain (iface_body <$> i :: j :: ifaces)) with
        (le_bytes 4 (4 + len (iface_body i)) ++ iface_body i ++ chain (iface_body <$> j :: ifaces)).
      rewrite !length_app, length_le_bytes. cbn [length] in *. lia.
  - apply read_chain_chain; [by destruct ifaces|by rewrite length_fmap|].
    apply Forall_fmap. eapply Forall_impl; [exact Hf|]. intros i Hi. cbn beta.
    pose proof (length_iface_body i Hi). unfold compose. lia.
  - intros i r Hr Ho Hi Hc Hs E. unfold iface_body in E.
    destruct (rd_uint_app 4 (if_index i) _ _ Hr ltac:(done) E) as (r1 & E1 & Hr1 & R1 & _).
    destruct (rd_uint_app 4 (if_capability i) _ _ Hr1 ltac:(done) R1) as (r2 & E2 & Hr2 & R2 & _).
    destruct (rd_uint_app 4 0 _ _ Hr2 ltac:(lia) R2) as (r3 & E3 & Hr3 & R3 & _).
    destruct (rd_uint_app 8 (if_speed i) _ _ Hr3 ltac:(done) R3) as (r4 & E4 & Hr4 & R4 & _).
    exists r4. unfold mbind, P_bind, rd_u32, rd_u64. by rewrite E1, E2, E3, E4.
Qed.

Lemma interface_info_roundtrip_witness :
  let ifs := [mkIface 2 (V4 [10; 0; 0; 1]) 1000 1 false; mkIface 3 (V6 (replicate 16 1)) 2000 0 false] in
  len (encode_interface_info ifs) = 304 ∧ read_chain 2 (encode_interface_info ifs) = iface_body <$> ifs.
Proof.
  intros ifs. destruct (interface_info_roundtrip ifs) as (H1 & H2 & _); [done|by repeat constructor|].
  split; [exact H1|exact H2].
Defined.

(** ** The discovered interfaces can be reported *)

(** Documented of [getifaddrs] and [if_nametoindex]: an address has the octets
    of its family, and an index is an [unsigned int]. *)
Class NetLaws `{Env} : Prop := {
  net_addr o l o' ifa fam oct :
    sys _ c_getifaddrs o = (Some l, o') → ifa ∈ l → ifa_addr ifa = Some (fam, oct) →
    (fam = AF_INET → length oct = 4%nat) ∧ (fam = AF_INET6 → length oct = 16%nat);
  net_index n o i o' : sys _ (c_if_nametoindex n) o = (i, o') → 0 ≤ i < 2 ^ 32 }.

Definition iface_ok (i : Iface) : Prop :=
  octets_ok (if_addr i) ∧ 0 ≤ if_index i < 2 ^ 32 ∧ 0 ≤ if_capability i < 2 ^ 32 ∧ 0 ≤ if_speed i < 2 ^ 64.

Section discovered.
Context `{Env} `{!NetLaws}.

Lemma link_speed_range name lb : yields (λ _, True) (link_speed_bps name lb) (λ v, 0 ≤ v < 2 ^ 64).
Proof.
  unfold link_speed_bps. eapply (yields_bind _ _ _ (λ _, True)); [done|]. intros s _. apply yields_ret.
  pose proof (Z.mod_pos_bound (default 0 (s ≫= λ s, parse_i64 (trim s)) * 1000000) (2 ^ 64)) as Hw.
  destruct (s ≫= _) as [mbps|]; [|by destruct lb]. simpl in Hw. destruct (0 <? mbps); [|by destruct lb].
  unfold wrap. lia.
Qed.

Lemma iface_of_ok ifa :
  (∀ fam oct, ifa_addr ifa = Some (fam, oct) →
     (fam = AF_INET → length oct = 4%nat) ∧ (fam = AF_INET6 → length oct = 16%nat)) →
  yields (λ _, True) (iface_of ifa) (λ r, ∀ i, r = Some i → iface_ok i).
Proof.
  intros Ha. unfold iface_of. destruct (ifa_addr ifa) as [[fam oct]|]; [|by apply yields_ret].
  destruct (Ha fam oct eq_refl) as [H4 H6]. destruct (negb _); [by apply yields_ret|].
  assert (∀ addr, octets_ok addr → yields (λ _, True) (index ← do (c_if_nametoindex (ifa_name ifa));
    speed ← link_speed_bps (from_utf8_lossy (ifa_name ifa)) (has_bits (ifa_flags ifa) IFF_LOOPBACK);
    mret (Some (mkIface index addr speed IF_CAP_RSS (has_bits (ifa_flags ifa) IFF_LOOPBACK))))
    (λ r, ∀ i, r = Some i → iface_ok i)) as Hk.
  { intros addr Hadr. eapply (yields_bind _ _ _ (λ i, 0 ≤ i < 2 ^ 32)).
    - intros o i o' _. unfold do. destruct (sys _ _ _) as [j o1] eqn:E. intros [= <- <-].
      split; [done|]. by eapply net_index.
    - intros i Hi. eapply yields_bind; [apply link_speed_range|]. intros v Hv. apply yields_ret.
      intros ? [= <-]. unfold iface_ok, IF_CAP_RSS. cbn [if_addr if_index if_capability if_speed]. cbv beta in *. by split_and!; try lia. }
  destruct (Z.eqb_spec fam AF_INET); [apply Hk; by apply H4|].
  destruct (Z.eqb_spec fam AF_INET6); [apply Hk; by apply H6|by apply yields_ret].
Qed.

Lemma interfaces_ok : yields (λ _, True) interfaces (Forall iface_ok).
Proof.
  unfold interfaces. eapply (yields_bind _ _ _ (λ r, ∀ l, r = Some l → ∀ ifa fam oct, ifa ∈ l →
    ifa_addr ifa = Some (fam, oct) → (fam = AF_INET → length oct = 4%nat) ∧ (fam = AF_INET6 → length oct = 16%nat))).
  - intros o r o' _. unfold do. destruct (sys _ _ _) as [l o1] eqn:E. intros [= <- <-]. split; [done|].
    intros l' -> ifa fam oct. by eapply net_addr.
  - intros [l|] Hl; [|by apply yields_ret]. specialize (Hl l eq_refl).
    induction l as [|ifa l IH]; simpl; [by apply yields_ret|].
    eapply yields_bind; [apply iface_of_ok; intros; eapply Hl; [by left|done]|]. intros i Hi.
    eapply yields_bind; [apply IH; intros; eapply Hl; [by right|done]|]. intros r Hr. apply yields_ret.
    destruct i as [i|]; [|done]. constructor; [by apply Hi|done].
Qed.
End discovered.
