(* ===== verification/Config.v ===== *)
(** The configuration and the server context resolved from it. Models
    src/config.rs; [Config::validate] is in Authz.v, since it checks the share
    user lists. *)
From S2P Require Import Prelude Wire Os Crypto Net.
Local Open Scope Z_scope.

Inductive AuthMode := Ntlm | Kerberos | Both.
#[global] Instance AuthMode_eq_dec : EqDecision AuthMode.
Proof. solve_decision. Defined.

Definition allows_ntlm (m : AuthMode) : bool := bool_decide (m = Ntlm ∨ m = Both).
Definition allows_kerberos (m : AuthMode) : bool := bool_decide (m = Kerberos ∨ m = Both).

Record KerberosCfg := mkKerberosCfg {
  kc_enabled : bool; kc_keytab : option path; kc_spn : option str; kc_realm : option str }.

Inductive AcceptorName := HostBased (s : str) | Principal (s : str).
#[global] Instance AcceptorName_eq_dec : EqDecision AcceptorName.
Proof. solve_decision. Defined.

Record UserCfg := mkUserCfg { uc_name : str; uc_password : option str; uc_nt_hash : option str }.

Record ShareCfg := mkShareCfg {
  sc_name : str; sc_path : path; sc_read_only : bool;
  sc_valid_users : list str; sc_invalid_users : list str; sc_read_only_users : list str }.

Record GroupCfg := mkGroupCfg { gc_name : str; gc_sid : option str; gc_members : list str }.

Record Config := mkConfig {
  cf_listen : str; cf_workers : Z; cf_server_name : str; cf_log_level : Z;
  cf_allow_guest : option bool; cf_require_signing : option bool;
  cf_multichannel : bool; cf_encrypt : bool; cf_advertise_only : list str;
  cf_core_pinning : bool; cf_sqpoll : bool; cf_health_listen : option str;
  cf_prefer_aes256 : bool; cf_oplocks : bool; cf_auth : AuthMode;
  cf_kerberos : option KerberosCfg;
  cf_shares : list ShareCfg; cf_users : list UserCfg; cf_groups : list GroupCfg }.

(** What serde takes for an absent key. *)
Definition default_listen : str := lit "0.0.0.0:445".
Definition default_server_name : str := lit "ROCKETSMBD".
Definition default_log_level : Z := 1.
Definition default_true : bool := true.
Definition default_auth : AuthMode := Both.

Definition AT : Z := 64.

(** [s.contains(['@', '/'])]. *)
Definition contains_any (cs : list Z) (s : str) : bool := existsb (λ c, bool_decide (c ∈ cs)) s.

(** Errors, by kind (the message texts are not modelled). *)
Inductive CfgErr :=
| BadListen | BadHealthListen | NoShare | BadShareName | DuplicateShare | NotADir | ReservedShare
| BadUser | BadUserSecret | BadRealm | BadSpn | SpnRealmMismatch | BadGroup | BadEntry.

Definition kerberos_validate (k : KerberosCfg) : result unit CfgErr :=
  let bad_realm r := bool_decide (r = []) || contains_any [AT; 47] r in
  if match kc_realm k with Some r => bad_realm r | None => false end then Err BadRealm
  else
    match kc_spn k with
    | None => Ok tt
    | Some spn =>
        let '(svc, realm) :=
          match split_once AT spn with Some (svc, realm) => (svc, Some realm) | None => (spn, None) end in
        let svc_ok :=
          match split_once 47 svc with
          | Some (s, h) => bool_decide (s ≠ []) && bool_decide (h ≠ [])
          | None => false
          end in
        if negb svc_ok || match realm with Some r => bad_realm r | None => false end then Err BadSpn
        else match realm, kc_realm k with
             | Some a, Some b => if bool_decide (a = b) then Ok tt else Err SpnRealmMismatch
             | _, _ => Ok tt
             end
    end.

(** [spn.replacen('/', "@", 1)]. *)
Definition replace_first (c d : Z) (s : str) : str :=
  match split_once c s with Some (a, b) => a ++ [d] ++ b | None => s end.

Definition krb_acceptor_name (c : Config) : AcceptorName :=
  let spn := default (lit "cifs/" ++ cf_server_name c) (cf_kerberos c ≫= kc_spn) in
  match bool_decide (AT ∈ spn), cf_kerberos c ≫= kc_realm with
  | true, _ => Principal spn
  | false, Some realm => Principal (spn ++ [AT] ++ realm)
  | false, None => HostBased (replace_first 47 AT spn)
  end.

Definition kerberos_configured (c : Config) : bool :=
  match cf_kerberos c with Some k => kc_enabled k | None => false end ||
  bool_decide (cf_auth c = Kerberos).

Definition guest_allowed (c : Config) : bool :=
  default (bool_decide (cf_users c = []) && negb (kerberos_configured c)) (cf_allow_guest c).

Definition signing_required_cfg (c : Config) : bool := default false (cf_require_signing c).

(** The number of [Config::warnings]. *)
Definition warnings (c : Config) : Z := match cf_require_signing c with None => 1 | Some _ => 0 end.

(** [char::to_digit(16)], and [u8::from_str_radix(two chars, 16)]. *)
Definition hex_digit (c : Z) : option Z :=
  if is_digit c then Some (c - 48)
  else if (97 <=? c) && (c <=? 102) then Some (c - 87)
  else if (65 <=? c) && (c <=? 70) then Some (c - 55)
  else None.
Fixpoint hex_bytes (s : str) : option bytes :=
  match s with
  | [] => Some []
  | [_] => None
  | a :: b :: s => x ← hex_digit a; y ← hex_digit b; r ← hex_bytes s; Some (16 * x + y :: r)
  end.

Section config.
Context `{Env}.

(** The NT hash of a user; [None] is a user that [validate] refuses. *)
Definition user_hash (u : UserCfg) : option bytes :=
  match uc_password u, uc_nt_hash u with
  | Some p, _ => Some (nt_hash p)
  | None, Some h => hex_bytes h
  | None, None => None
  end.

Definition user_db (c : Config) : option (gmap str bytes) :=
  l ← mapM (λ u, h ← user_hash u; Some (to_lowercase (uc_name u), h)) (cf_users c);
  Some (foldl (λ (m : gmap str bytes) p, <[p.1 := p.2]> m) ∅ l).
End config.

(** The immutable part of [Srv]; its registries are in the world state. *)
Record Srv := mkSrv {
  srv_cfg : Config; srv_guid : bytes; srv_max_read : Z; srv_start_ft : Z;
  srv_users : gmap str bytes; srv_allow_guest : bool; srv_interfaces : list Iface }.
