(* ===== verification/Gss.v ===== *)
(** The Kerberos acceptor. Models src/krb5.rs: acquiring the service
    credential, feeding one token of the client to the GSS library, and
    reading the client's name, session key and PAC off a finished exchange.

    The GSS library is outside the program: its functions are calls of [Env]
    and leave an event in the trace. Its objects are pointers; freeing those
    that a value owns when the value is dropped is not modelled. *)
From S2P Require Import Prelude Hoare Wire Status Os Pac Config.
Local Open Scope Z_scope.

Definition GSS_S_COMPLETE : Z := 0.
Definition GSS_S_CONTINUE_NEEDED : Z := 1.
Definition GSS_C_GSS_CODE : Z := 1.
Definition GSS_C_MECH_CODE : Z := 2.

(** [GSS_C_NT_HOSTBASED_SERVICE] of the library. *)
Definition NT_HOSTBASED_OID : bytes := [0x2A; 0x86; 0x48; 0x86; 0xF7; 0x12; 0x01; 0x02; 0x01; 0x04].
Definition NT_KRB5_PRINCIPAL_OID : bytes := [0x2A; 0x86; 0x48; 0x86; 0xF7; 0x12; 0x01; 0x02; 0x02; 0x01].
Definition SESSION_KEY_OID : bytes := [0x2A; 0x86; 0x48; 0x86; 0xF7; 0x12; 0x01; 0x02; 0x02; 0x05; 0x05].

Record Established := mkEstablished {
  es_client : str; es_session_key : bytes; es_pac : option LogonInfo; es_out : bytes }.

Inductive Step := Continue (out : bytes) | Done (est : Established) | Failed (reason : str).

(** [{:08x}] of a 32-bit number. *)
Definition hex_lower (d : Z) : Z := if d <? 10 then 48 + d else 87 + d.
Definition hex8 (v : Z) : str :=
  (λ i, hex_lower (Z.land (Z.shiftr v (4 * i)) 15)) <$> [7; 6; 5; 4; 3; 2; 1; 0].

(** [s.contains(t)]. *)
Fixpoint contains (s t : str) : bool :=
  bool_decide (take (length t) s = t) || match s with [] => false | _ :: s => contains s t end.

Definition status_for_failure (reason : str) : Z :=
  let r := ascii_lower <$> reason in
  if contains r (lit "clock skew") || contains r (lit "time") && contains r (lit "skew")
  then status.TIME_DIFFERENCE_AT_DC else status.LOGON_FAILURE.

Section gss.
Context `{Env}.

(** The texts of one status value, at most eight of them. *)
Fixpoint display_status_loop (n : nat) (value kind msg_ctx : Z) (parts : list str) : IO (list str) :=
  match n with
  | O => mret parts
  | S n =>
      '(major, msg_ctx, text) ← do (c_gss_display_status value kind msg_ctx);
      if negb (major =? GSS_S_COMPLETE) then mret parts
      else
        let parts := if bool_decide (text = []) then parts else parts ++ [from_utf8_lossy text] in
        if msg_ctx =? 0 then mret parts else display_status_loop n value kind msg_ctx parts
  end.

(** [parts.join("; ")]. *)
Definition join_semi (parts : list str) : str :=
  match parts with [] => [] | x :: r => foldl (λ a y, a ++ lit "; " ++ y) x r end.

Definition display_status (value kind : Z) : IO str :=
  if value =? 0 then mret []
  else parts ← display_status_loop 8 value kind 0 []; mret (join_semi parts).

Definition status_str (major minor : Z) : IO str :=
  maj ← display_status major GSS_C_GSS_CODE;
  min ← display_status minor GSS_C_MECH_CODE;
  let paren (t : str) := if bool_decide (t = []) then [] else lit " (" ++ t ++ lit ")" in
  mret (lit "major=0x" ++ hex8 major ++ paren maj ++ lit " minor=0x" ++ hex8 minor ++ paren min).

Definition import_name (s : str) (oid : bytes) : IO (result Z str) :=
  '(major, minor, name) ← do (c_gss_import_name s oid);
  if negb (major =? GSS_S_COMPLETE)
  then t ← status_str major minor; mret (Err (lit "gss_import_name(" ++ s ++ lit ") failed: " ++ t))
  else mret (Ok name).

Definition release_name (name : Z) : IO unit :=
  if name =? 0 then mret tt else do (c_gss_release_name name).

Definition display_name (name : Z) : IO str :=
  if name =? 0 then mret []
  else
    '(major, text) ← do (c_gss_display_name name);
    mret (if negb (major =? GSS_S_COMPLETE) then [] else from_utf8_lossy text).

(** [Acceptor::new]. *)
Definition acceptor_new (a : AcceptorName) : IO (result Z str) :=
  let '(shown, oid) := match a with
                       | HostBased n => (n, NT_HOSTBASED_OID)
                       | Principal n => (n, NT_KRB5_PRINCIPAL_OID)
                       end in
  r ← import_name shown oid;
  match r with
  | Err e => mret (Err e)
  | Ok name =>
      '(major, minor, cred) ← do (c_gss_acquire_cred name);
      release_name name ;;
      if negb (major =? GSS_S_COMPLETE)
      then t ← status_str major minor; mret (Err (lit "gss_acquire_cred(" ++ shown ++ lit ") failed: " ++ t))
      else mret (Ok cred)
  end.

(** The two attributes a PAC may be read from, with their parsers. *)
Definition pac_attrs : list (bytes * (bytes → result LogonInfo PacErr)) :=
  [(lit "urn:mspac:logon-info", parse_logon_info); (lit "urn:mspac:", parse_pac)].

Fixpoint name_pac_loop (attrs : list (bytes * (bytes → result LogonInfo PacErr))) (name : Z) : IO (option LogonInfo) :=
  match attrs with
  | [] => mret None
  | (attr, parse) :: attrs =>
      '(major, authenticated, v) ← do (c_gss_name_attr name attr);
      if negb (major =? GSS_S_COMPLETE) then name_pac_loop attrs name
      else if authenticated =? 0 then mret None
      else mret (match parse v with Ok li => Some li | Err _ => None end)
  end.

Definition name_pac (name : Z) : IO (option LogonInfo) :=
  if name =? 0 then mret None else name_pac_loop pac_attrs name.

(** [GssAcceptCtx::session_key]. *)
Definition session_key (ctx : Z) : IO (result bytes str) :=
  '(major, minor, set) ← do (c_gss_inquire_ctx ctx SESSION_KEY_OID);
  match set with
  | Some bufs =>
      if negb (major =? GSS_S_COMPLETE) then t ← status_str major minor; mret (Err t)
      else
        let key := default [] (head bufs) in
        mret (if bool_decide (key = []) then Err (lit "empty session key") else Ok key)
  | None => t ← status_str major minor; mret (Err t)
  end.

(** [GssAcceptCtx::step]: the outcome and the context for the next one. *)
Definition gss_step (ctx acc : Z) (token : bytes) : IO (Step * Z) :=
  a ← do (c_gss_accept ctx acc token);
  if ga_major a =? GSS_S_COMPLETE then
    client ← display_name (ga_name a);
    pac ← name_pac (ga_name a);
    release_name (ga_name a) ;;
    k ← session_key (ga_ctx a);
    mret (match k with
          | Ok key => Done (mkEstablished client key pac (ga_out a))
          | Err e => Failed (lit "session-key inquire failed: " ++ e)
          end, ga_ctx a)
  else if has_bits (ga_major a) GSS_S_CONTINUE_NEEDED then
    release_name (ga_name a) ;; mret (Continue (ga_out a), ga_ctx a)
  else
    release_name (ga_name a) ;;
    t ← status_str (ga_major a) (ga_minor a);
    mret (Failed (lit "gss_accept_sec_context failed: " ++ t), ga_ctx a).

(** [Drop for GssAcceptCtx]. *)
Definition ctx_drop (ctx : Z) : IO unit := if ctx =? 0 then mret tt else do (c_gss_delete_ctx ctx).
End gss.

(** ** What the acceptor does to the system

    It only calls the GSS library: an invariant that those calls keep is kept. *)
Definition gss_call {A} (c : call A) : bool :=
  match c with
  | c_gss_import_name _ _ | c_gss_release_name _ | c_gss_acquire_cred _ | c_gss_accept _ _ _
  | c_gss_delete_ctx _ | c_gss_display_name _ | c_gss_name_attr _ _ | c_gss_inquire_ctx _ _
  | c_gss_display_status _ _ _ => true
  | _ => false
  end.

Lemma gss_call_plain {A} (c : call A) : gss_call c = true → call_paths c = [] ∧ mutates c = false.
Proof. by destruct c. Qed.

Section only_gss.
Context `{Env} (I : OsSt → Prop).
Context (HI : ∀ A (c : call A), gss_call c = true → safe I (do c) (λ _, True)).

Ltac g_step :=
  match goal with
  | |- safe _ (mret _) _ => by apply safe_ret
  | |- safe _ (do _) _ => by apply HI
  | |- safe _ (mbind _ _) _ => apply (safe_bind _ _ _ (λ _, True)); [|intros ? _]
  | |- safe _ (match ?x with _ => _ end) _ => destruct x
  end.

Lemma safe_display_status_loop n value kind : ∀ ctx parts,
  safe I (display_status_loop n value kind ctx parts) (λ _, True).
Proof. induction n as [|n IH]; intros ctx parts; cbn [display_status_loop]; repeat g_step. apply IH. Qed.

Lemma safe_display_status value kind : safe I (display_status value kind) (λ _, True).
Proof. unfold display_status. repeat first [apply safe_display_status_loop | g_step]. Qed.

Lemma safe_status_str major minor : safe I (status_str major minor) (λ _, True).
Proof. unfold status_str. repeat first [apply safe_display_status | g_step]. Qed.

Lemma safe_acceptor_new a : safe I (acceptor_new a) (λ _, True).
Proof. unfold acceptor_new, import_name, release_name. repeat first [apply safe_status_str | g_step]. Qed.

Lemma safe_name_pac name : safe I (name_pac name) (λ _, True).
Proof.
  unfold name_pac. destruct (_ =? 0); [g_step|]. generalize pac_attrs.
  induction l as [|[attr parse] l IH]; cbn [name_pac_loop]; repeat g_step. apply IH.
Qed.

Lemma safe_gss_step ctx acc token : safe I (gss_step ctx acc token) (λ _, True).
Proof.
  unfold gss_step, display_name, release_name, session_key.
  repeat first [apply safe_status_str | apply safe_name_pac | g_step].
Qed.

Lemma safe_ctx_drop ctx : safe I (ctx_drop ctx) (λ _, True).
Proof. unfold ctx_drop. repeat g_step. Qed.
End only_gss.

(** ** What a finished exchange rests on *)

(** Among the calls [t]: the library accepted [token], and name, session key
    and group claims of [est] are what it then reported for that exchange; a
    PAC counts only when the library vouches for it. (The client's name is
    empty when the library cannot display it.) *)
Definition completed (t : list event) (token : bytes) (est : Established) : Prop :=
  ∃ ctx acc a minor bufs,
    Ev (c_gss_accept ctx acc token) a ∈ t ∧ ga_major a = GSS_S_COMPLETE ∧
    (es_client est = [] ∨
     ∃ text, Ev (c_gss_display_name (ga_name a)) (GSS_S_COMPLETE, text) ∈ t ∧ es_client est = from_utf8_lossy text) ∧
    Ev (c_gss_inquire_ctx (ga_ctx a) SESSION_KEY_OID) (GSS_S_COMPLETE, minor, Some (es_session_key est :: bufs)) ∈ t ∧
    es_session_key est ≠ [] ∧
    ∀ li, es_pac est = Some li → ∃ attr parse auth v,
      (attr, parse) ∈ pac_attrs ∧ Ev (c_gss_name_attr (ga_name a) attr) (GSS_S_COMPLETE, auth, v) ∈ t ∧
      auth ≠ 0 ∧ parse v = Ok li.

Lemma completed_mono t t' token est : completed t token est → t ⊆ t' → completed t' token est.
Proof.
  intros (ctx & acc & a & minor & bufs & ? & ? & Hc & ? & ? & Hp) Hsub.
  exists ctx, acc, a, minor, bufs. split_and!; try done; try by apply Hsub.
  - destruct Hc as [?|(text & ? & ?)]; [by left|]. right. exists text. split; [by apply Hsub|done].
  - intros li E. destruct (Hp li E) as (attr & parse & auth & v & ? & ? & ? & ?). exists attr, parse, auth, v.
    split_and!; try done. by apply Hsub.
Qed.

Section trace.
Context `{Env}.

(** The calls made from [o] to [o']. *)
Definition grew (t : list event) (o o' : OsSt) : Prop := os_trace o' = os_trace o ++ t.

Lemma grew_trans t1 t2 o1 o2 o3 : grew t1 o1 o2 → grew t2 o2 o3 → grew (t1 ++ t2) o1 o3.
Proof. unfold grew. intros -> ->. by rewrite app_assoc. Qed.

Lemma do_returns {A} (c : call A) o a o' : do c o = (inl a, o') → grew [Ev c a] o o'.
Proof. unfold do. destruct (sys _ _ _) as [b o1]. by intros [= <- <-]. Qed.

(** Computations that only call the library grow the trace. *)
Lemma gss_grows {A} (m : IO A) o a o' :
  (∀ I, (∀ B (c : call B), gss_call c = true → safe I (do c) (λ _, True)) → safe I m (λ _, True)) →
  m o = (inl a, o') → ∃ t, grew t o o'.
Proof.
  intros Hm E. assert (safe (λ o2, ∃ t, grew t o o2) m (λ _, True)) as Hs.
  { apply Hm. intros B c _ o1 [t Ht]. destruct (do c o1) as [[b|x] o2] eqn:Ed; [|by unfold do in Ed; destruct (sys _ _ _)].
    split; [|done]. eexists. eapply grew_trans; [exact Ht|by eapply do_returns]. }
  specialize (Hs o). rewrite E in Hs. destruct Hs as [Hs _]; [|done]. exists []. unfold grew. by rewrite app_nil_r.
Qed.

Lemma name_pac_returns name o r o' :
  name_pac name o = (inl r, o') → ∃ t, grew t o o' ∧
    ∀ li, r = Some li → ∃ attr parse auth v, (attr, parse) ∈ pac_attrs ∧
      Ev (c_gss_name_attr name attr) (GSS_S_COMPLETE, auth, v) ∈ t ∧ auth ≠ 0 ∧ parse v = Ok li.
Proof.
  unfold name_pac. destruct (name =? 0).
  { intros [= <- <-]. exists []. unfold grew. by rewrite app_nil_r. }
  assert (pac_attrs ⊆ pac_attrs) as Hsub by done. revert Hsub. generalize pac_attrs at 1 3. intros l.
  revert o. induction l as [|[attr parse] l IH]; intros o Hsub; cbn [name_pac_loop].
  { intros [= <- <-]. exists []. unfold grew. by rewrite app_nil_r. }
  intros ([[major auth] v] & o1 & Hd & Hk)%bind_returns. apply do_returns in Hd.
  destruct (major =? GSS_S_COMPLETE) eqn:Em; simpl in Hk; [apply Z.eqb_eq in Em as ->|].
  2:{ destruct (IH o1) as (t & Ht & Hp); [set_solver|done|]. eexists. split; [by eapply grew_trans|].
      intros li E. destruct (Hp li E) as (at' & ps & au & w & ? & ? & ? & ?). exists at', ps, au, w. set_solver. }
  destruct (auth =? 0) eqn:Ea; injection Hk as <- <-; (eexists; split; [exact Hd|]); [done|].
  intros li E. exists attr, parse, auth, v. apply Z.eqb_neq in Ea. split_and!; [set_solver|by left|done|].
  by destruct (parse v); simplify_eq.
Qed.

Lemma display_name_returns name o r o' :
  display_name name o = (inl r, o') → ∃ t, grew t o o' ∧
    (r = [] ∨ ∃ text, Ev (c_gss_display_name name) (GSS_S_COMPLETE, text) ∈ t ∧ r = from_utf8_lossy text).
Proof.
  unfold display_name. destruct (name =? 0).
  { intros [= <- <-]. exists []. unfold grew. rewrite app_nil_r. auto. }
  intros ([major text] & o1 & Hd & Hk)%bind_returns. apply do_returns in Hd. injection Hk as <- <-.
  eexists. split; [exact Hd|]. destruct (major =? GSS_S_COMPLETE) eqn:Em; [|by left].
  apply Z.eqb_eq in Em as ->. right. exists text. split; [by left|done].
Qed.

Lemma session_key_returns ctx o key o' :
  session_key ctx o = (inl (Ok key), o') → ∃ t minor bufs, grew t o o' ∧ key ≠ [] ∧
    Ev (c_gss_inquire_ctx ctx SESSION_KEY_OID) (GSS_S_COMPLETE, minor, Some (key :: bufs)) ∈ t.
Proof.
  unfold session_key. intros ([[major minor] set] & o1 & Hd & Hk)%bind_returns. apply do_returns in Hd.
  destruct set as [bufs|]; [|by apply bind_returns in Hk as (? & ? & _ & ?)].
  destruct (major =? GSS_S_COMPLETE) eqn:Em; simpl in Hk; [|by apply bind_returns in Hk as (? & ? & _ & ?)].
  apply Z.eqb_eq in Em as ->. case_bool_decide as Hnil; [done|]. destruct bufs as [|k bufs]; [done|].
  simpl in *. injection Hk as <- <-. exists [Ev (c_gss_inquire_ctx ctx SESSION_KEY_OID) (GSS_S_COMPLETE, minor, Some (k :: bufs))], minor, bufs.
  split_and!; [exact Hd|done|by left].
Qed.

Lemma gss_step_done ctx acc token o est ctx' o' :
  gss_step ctx acc token o = (inl (Done est, ctx'), o') → ∃ t, grew t o o' ∧ completed t token est.
Proof.
  unfold gss_step. intros (a & o1 & Hd & Hk)%bind_returns. apply do_returns in Hd.
  destruct (ga_major a =? GSS_S_COMPLETE) eqn:Em.
  2:{ destruct (has_bits _ _); apply bind_returns in Hk as (? & ? & _ & Hk); [done|].
      by apply bind_returns in Hk as (? & ? & _ & ?). }
  apply Z.eqb_eq in Em.
  apply bind_returns in Hk as (client & o2 & (t2 & G2 & Hc)%display_name_returns & Hk).
  apply bind_returns in Hk as (pac & o3 & (t3 & G3 & Hp)%name_pac_returns & Hk).
  apply bind_returns in Hk as (u & o4 & [t4 G4]%gss_grows & Hk); [|intros I HI; unfold release_name; destruct (_ =? 0); [by apply safe_ret|by apply HI]].
  apply bind_returns in Hk as ([key|e] & o5 & Hs & [= <- <- <-]).
  apply session_key_returns in Hs as (t5 & minor & bufs & G5 & Hne & Hin).
  pose proof (grew_trans _ _ _ _ _ (grew_trans _ _ _ _ _ (grew_trans _ _ _ _ _ (grew_trans _ _ _ _ _ Hd G2) G3) G4) G5) as G.
  eexists. split; [exact G|]. exists ctx, acc, a, minor, bufs. cbn [es_client es_session_key es_pac].
  rewrite !elem_of_app. split_and!; try done; [auto using list_elem_of_here| | |].
  - destruct Hc as [?|(text & ? & ?)]; [by left|]. right. exists text. rewrite !elem_of_app. auto 10.
  - auto.
  - intros li E. destruct (Hp li E) as (attr & parse & auth & v & ? & ? & ? & ?).
    exists attr, parse, auth, v. rewrite !elem_of_app. auto 10.
Qed.
End trace.
