(* ===== verification/Authz.v ===== *)
(** Per-share authorization: user and group entries, who matches them, the
    TREE_CONNECT decision, and the validation of a configuration. Models
    src/authz.rs and [Config::validate] of src/config.rs.

    A result of [None] stands for a Rust panic. *)
From S2P Require Import Prelude Wire Os Vfs Crypto Pac Config Sample.
Local Open Scope Z_scope.

Definition WELL_KNOWN : list (str * Z) :=
  [(lit "domain admins", 512); (lit "domain users", 513); (lit "domain guests", 514);
   (lit "domain computers", 515); (lit "domain controllers", 516); (lit "cert publishers", 517);
   (lit "schema admins", 518); (lit "enterprise admins", 519);
   (lit "group policy creator owners", 520); (lit "read-only domain controllers", 521);
   (lit "cloneable domain controllers", 522); (lit "protected users", 525);
   (lit "key admins", 526); (lit "enterprise key admins", 527)].

Inductive UserPat :=
| Bare (n : str)
| PrincipalPat (p : str)
| DomUser (domain name : str).
#[global] Instance UserPat_eq_dec : EqDecision UserPat.
Proof. solve_decision. Defined.

Inductive Entry :=
| EUser (p : UserPat)
| EGroupSid (s : Sid)
| EWellKnown (domain : option str) (rid : Z)
| ETable (i : nat).

Definition userpat_parse (s : str) : result UserPat CfgErr :=
  let s := trim s in
  if bool_decide (s = []) then Err BadEntry
  else
    match split_once BACKSLASH s with
    | Some (d, n) =>
        if bool_decide (d = []) || bool_decide (n = []) || contains_any [BACKSLASH; AT] n
        then Err BadEntry else Ok (DomUser d n)
    | None =>
        match rsplit_once AT s with
        | Some (u, r) => if bool_decide (u ≠ []) && bool_decide (r ≠ []) then Ok (PrincipalPat s) else Err BadEntry
        | None => Ok (Bare s)
        end
    end.

(** [&g[..2]], on UTF-8 bytes: a panic when byte 2 is inside a character. *)
Definition prefix2 (g : str) : option str :=
  match g with
  | a :: r =>
      if utf8_width a =? 2 then Some [a]
      else match r with
           | b :: _ => if (utf8_width a =? 1) && (utf8_width b =? 1) then Some [a; b] else None
           | [] => None
           end
  | [] => None
  end.

(** The group part of [Entry::parse], after the [S-] test. *)
Definition group_parse (g : str) (cfg : Config) : result Entry CfgErr :=
  match list_find (λ t, eq_ignore_case (gc_name t) g = true) (cf_groups cfg) with
  | Some (i, _) => Ok (ETable i)
  | None =>
      let '(domain, name) :=
        match split_once BACKSLASH g with
        | Some (d, n) => if bool_decide (d ≠ []) then (Some d, n) else (None, g)
        | None => (None, g)
        end in
      match list_find (λ w : str * Z, eq_ignore_case w.1 name = true) WELL_KNOWN with
      | Some (_, (_, rid)) => Ok (EWellKnown domain rid)
      | None => Err BadEntry
      end
  end.

Definition entry_parse (s : str) (cfg : Config) : option (result Entry CfgErr) :=
  match strip_prefix AT (trim s) with
  | Some g =>
      let g := trim g in
      if 2 <? utf8_len g then
        pre ← prefix2 g;
        if eq_ignore_case pre (lit "S-")
        then Some (match sid_parse g with Some sid => Ok (EGroupSid sid) | None => Err BadEntry end)
        else Some (group_parse g cfg)
      else Some (group_parse g cfg)
  | None => Some (match userpat_parse s with Ok p => Ok (EUser p) | Err e => Err e end)
  end.

Record Who := mkWho {
  who_guest : bool; who_user : str; who_kerberos : bool; who_pac : option LogonInfo }.

Inductive Access := Denied | ReadOnly | ReadWrite.
#[global] Instance Access_eq_dec : EqDecision Access.
Proof. solve_decision. Defined.

Definition user_matches (p : UserPat) (who : Who) (cfg : Config) : bool :=
  if who_guest who || bool_decide (who_user who = []) then false
  else
    match p with
    | Bare n =>
        if negb (who_kerberos who) then eq_ignore_case (who_user who) n
        else match cf_kerberos cfg ≫= kc_realm, rsplit_once AT (who_user who) with
             | Some realm, Some (u, r) => eq_ignore_case u n && eq_ignore_case r realm
             | _, _ => false
             end
    | PrincipalPat pr => who_kerberos who && eq_ignore_case (who_user who) pr
    | DomUser domain name =>
        match who_pac who with
        | Some l => eq_ignore_case (li_domain l) domain && eq_ignore_case (li_user l) name
        | None => false
        end
    end.

(** [who.pac.is_some_and(|l| l.has_sid(s))]. *)
Definition pac_has (who : Who) (s : Sid) : bool :=
  match who_pac who with Some l => has_sid l s | None => false end.

Definition entry_matches (e : Entry) (who : Who) (cfg : Config) : option bool :=
  if who_guest who then Some false
  else
    match e with
    | EUser p => Some (user_matches p who cfg)
    | EGroupSid s => Some (pac_has who s)
    | EWellKnown domain rid =>
        Some (match who_pac who with
              | Some l =>
                  match domain with Some d => eq_ignore_case (li_domain l) d | None => true end &&
                  match li_domain_sid l with Some ds => has_sid l (with_rid ds rid) | None => false end
              | None => false
              end)
    | ETable i =>
        g ← cf_groups cfg !! i;
        let by_sid := match gc_sid g ≫= sid_parse with Some s => pac_has who s | None => false end in
        Some (by_sid ||
              existsb (λ m, match userpat_parse m with
                            | Ok p => user_matches p who cfg
                            | Err _ => false
                            end) (gc_members g))
    end.

Fixpoint any_matches (l : list str) (who : Who) (cfg : Config) : option bool :=
  match l with
  | [] => Some false
  | s :: l =>
      r ← entry_parse s cfg;
      b ← match r with Ok e => entry_matches e who cfg | Err _ => Some false end;
      if (b : bool) then Some true else any_matches l who cfg
  end.

Definition check (cfg : Config) (share : ShareCfg) (who : Who) : option Access :=
  bad ← any_matches (sc_invalid_users share) who cfg;
  if (bad : bool) then Some Denied
  else
    ok ← (if bool_decide (sc_valid_users share = []) then Some true
          else any_matches (sc_valid_users share) who cfg);
    if negb ok then Some Denied
    else
      ro ← (if sc_read_only share then Some true
            else any_matches (sc_read_only_users share) who cfg);
      Some (if (ro : bool) then ReadOnly else ReadWrite).

(** ** Validation *)
Fixpoint all_entries (l : list str) (cfg : Config) : option (result unit CfgErr) :=
  match l with
  | [] => Some (Ok tt)
  | e :: l =>
      r ← entry_parse e cfg;
      match r with Ok _ => all_entries l cfg | Err err => Some (Err err) end
  end.

Definition validate_share (cfg : Config) (s : ShareCfg) : option (result unit CfgErr) :=
  all_entries (sc_valid_users s ++ sc_invalid_users s ++ sc_read_only_users s) cfg.

Definition validate_member (m : str) : result unit CfgErr :=
  if bool_decide (head (trim_start m) = Some AT) then Err BadGroup
  else match userpat_parse m with Ok _ => Ok tt | Err e => Err e end.

Fixpoint validate_members (ms : list str) : result unit CfgErr :=
  match ms with
  | [] => Ok tt
  | m :: ms => match validate_member m with Ok _ => validate_members ms | Err e => Err e end
  end.

Fixpoint validate_shares (cfg : Config) (l : list ShareCfg) : option (result unit CfgErr) :=
  match l with
  | [] => Some (Ok tt)
  | s :: l =>
      r ← validate_share cfg s;
      match r with Ok _ => validate_shares cfg l | Err e => Some (Err e) end
  end.

Section authz.
Context `{Env}.

Fixpoint validate_groups (seen : list str) (gs : list GroupCfg) : result unit CfgErr :=
  match gs with
  | [] => Ok tt
  | g :: gs =>
      let lower := to_lowercase (gc_name g) in
      if bool_decide (trim (gc_name g) = []) || bool_decide (head (gc_name g) = Some AT) ||
         bool_decide (lower ∈ seen)
      then Err BadGroup
      else if bool_decide (gc_sid g = None ∧ gc_members g = []) then Err BadGroup
      else if match gc_sid g with Some s => bool_decide (sid_parse s = None) | None => false end
      then Err BadGroup
      else match validate_members (gc_members g) with
           | Ok _ => validate_groups (seen ++ [lower]) gs
           | Err e => Err e
           end
  end.

Definition authz_validate (cfg : Config) : option (result unit CfgErr) :=
  match validate_groups [] (cf_groups cfg) with
  | Err e => Some (Err e)
  | Ok _ => validate_shares cfg (cf_shares cfg)
  end.

(** [Config::validate]'s loops over the shares and the users. *)
Fixpoint validate_share_names (seen : list str) (l : list ShareCfg) : IO (result unit CfgErr) :=
  match l with
  | [] => mret (Ok tt)
  | s :: l =>
      let lower := to_lowercase (sc_name s) in
      if bool_decide (sc_name s = []) || contains_any [BACKSLASH; SLASH] (sc_name s)
      then mret (Err BadShareName)
      else if bool_decide (lower ∈ seen) then mret (Err DuplicateShare)
      else
        m ← do (c_stat (sc_path s));
        if negb (match m with Ok st => stat_is_dir st | Err _ => false end) then mret (Err NotADir)
        else if eq_ignore_case (sc_name s) (lit "IPC$") then mret (Err ReservedShare)
        else validate_share_names (seen ++ [lower]) l
  end.

(** Exactly one secret, and an NT hash of 32 hex digits. *)
Definition secret_ok (u : UserCfg) : bool :=
  match uc_password u, uc_nt_hash u with
  | Some _, None => true
  | None, Some h => (utf8_len h =? 32) && forallb (λ c, bool_decide (is_Some (hex_digit c))) h
  | _, _ => false
  end.

Fixpoint validate_users (seen : list str) (l : list UserCfg) : result unit CfgErr :=
  match l with
  | [] => Ok tt
  | u :: l =>
      let lower := to_lowercase (uc_name u) in
      if bool_decide (uc_name u = []) || bool_decide (lower ∈ seen) then Err BadUser
      else if secret_ok u then validate_users (seen ++ [lower]) l
      else Err BadUserSecret
  end.

Definition config_validate (c : Config) : IO (result unit CfgErr) :=
  if negb (bool_decide (is_Some (parse_socket_addr (cf_listen c)))) then mret (Err BadListen)
  else if match cf_health_listen c with Some h => negb (bool_decide (is_Some (parse_socket_addr h))) | None => false end
  then mret (Err BadHealthListen)
  else if bool_decide (cf_shares c = []) then mret (Err NoShare)
  else
    r ← validate_share_names [] (cf_shares c);
    match r with
    | Err e => mret (Err e)
    | Ok _ =>
        match validate_users [] (cf_users c) with
        | Err e => mret (Err e)
        | Ok _ =>
            match (match cf_kerberos c with Some k => kerberos_validate k | None => Ok tt end) with
            | Err e => mret (Err e)
            | Ok _ => match authz_validate c with Some r => mret r | None => halt Panic end
            end
        end
    end.
End authz.

(** ** What a list means *)

(** Entry [s] of a list names [who]. *)
Definition names (cfg : Config) (who : Who) (s : str) : Prop :=
  ∃ e, entry_parse s cfg = Some (Ok e) ∧ entry_matches e who cfg = Some true.

(** The entry parses without a panic. *)
Definition parses (cfg : Config) (s : str) : Prop := ∃ e, entry_parse s cfg = Some (Ok e).

Lemma group_parse_table g cfg i : group_parse g cfg = Ok (ETable i) → is_Some (cf_groups cfg !! i).
Proof.
  unfold group_parse. destruct (list_find _ (cf_groups cfg)) as [[j t]|] eqn:E.
  - intros [= <-]. apply list_find_Some in E as (? & _). eauto.
  - destruct (match split_once _ g with Some _ => _ | None => _ end) as [d n].
    by destruct (list_find _ WELL_KNOWN) as [[? [? ?]]|].
Qed.

Lemma entry_parse_table s cfg i : entry_parse s cfg = Some (Ok (ETable i)) → is_Some (cf_groups cfg !! i).
Proof.
  unfold entry_parse. destruct (strip_prefix _ _) as [g|]; [|by destruct (userpat_parse s)].
  destruct (2 <? _); [|intros [= ?]; by eapply group_parse_table].
  destruct (prefix2 _) as [pre|]; simpl; [|done]. destruct (eq_ignore_case _ _).
  - by destruct (sid_parse _).
  - intros [= ?]; by eapply group_parse_table.
Qed.

Lemma entry_matches_total cfg who s e :
  entry_parse s cfg = Some (Ok e) → is_Some (entry_matches e who cfg).
Proof.
  intros Ep. unfold entry_matches. destruct (who_guest who); [eauto|].
  destruct e as [p|sid|d rid|i]; eauto.
  apply entry_parse_table in Ep as [g ->]. simpl. eauto.
Qed.

Lemma any_matches_spec cfg who l :
  Forall (parses cfg) l →
  ∃ b, any_matches l who cfg = Some b ∧ (b = true ↔ Exists (names cfg who) l).
Proof.
  induction 1 as [|s l (e & Ep) _ IH]; simpl.
  - exists false. split; [done|]. split; [done|]. by intros ?%Exists_nil.
  - rewrite Ep. simpl. destruct (entry_matches_total cfg who s e Ep) as [b Eb]. rewrite Eb. simpl.
    destruct b.
    + exists true. split; [done|]. split; [|done]. intros _. left. by exists e.
    + destruct IH as (b & -> & Hb). exists b. split; [done|]. rewrite Hb, Exists_cons.
      split; [by right|]. intros [(e' & Ep' & Em)|?]; [|done]. congruence.
Qed.

Lemma all_entries_parses cfg l : all_entries l cfg = Some (Ok tt) → Forall (parses cfg) l.
Proof.
  induction l as [|s l IH]; simpl; [constructor|].
  destruct (entry_parse s cfg) as [[e|err]|] eqn:E; simpl; try done.
  intros ?. constructor; [by exists e|auto].
Qed.

Lemma validate_shares_parses cfg l s :
  validate_shares cfg l = Some (Ok tt) → s ∈ l →
  Forall (parses cfg) (sc_valid_users s ++ sc_invalid_users s ++ sc_read_only_users s).
Proof.
  induction l as [|s' l IH]; simpl; [by intros _ ?%elem_of_nil|].
  destruct (validate_share cfg s') as [[[]|err]|] eqn:E; simpl; try done.
  intros Hl [->|Hs]%elem_of_cons; [by apply all_entries_parses|auto].
Qed.

(** C25: On a validated configuration the access check of a TREE_CONNECT is
    total (no list entry can make it panic) and decides as documented: a user
    named by [invalid_users] is denied; with a non-empty [valid_users] so is
    everyone it does not name; of the others, those named by
    [read_only_users], or all if the share is read-only, get it read-only. *)
Theorem share_access_decision `{Env} cfg share who :
  authz_validate cfg = Some (Ok tt) → share ∈ cf_shares cfg →
  ∃ a, check cfg share who = Some a ∧
  (a = Denied ↔ Exists (names cfg who) (sc_invalid_users share) ∨
                (sc_valid_users share ≠ [] ∧ ¬ Exists (names cfg who) (sc_valid_users share))) ∧
  (a = ReadOnly → sc_read_only share = true ∨ Exists (names cfg who) (sc_read_only_users share)) ∧
  (a = ReadWrite → sc_read_only share = false ∧ ¬ Exists (names cfg who) (sc_read_only_users share)).
Proof.
  unfold authz_validate. destruct (validate_groups _ _); [|done]. intros Hv Hs.
  pose proof (validate_shares_parses _ _ _ Hv Hs) as Hp.
  apply Forall_app in Hp as [Hpv [Hpi Hpr]%Forall_app].
  destruct (any_matches_spec cfg who _ Hpi) as (bi & Ei & Hi).
  destruct (any_matches_spec cfg who _ Hpv) as (bv & Ev & Hbv).
  destruct (any_matches_spec cfg who _ Hpr) as (br & Er & Hbr).
  unfold check. rewrite Ei, Ev, Er. simpl. destruct bi.
  { exists Denied. split_and!; try done. split; [|done]. intros _. left. by apply Hi. }
  assert (¬ Exists (names cfg who) (sc_invalid_users share)) by (intros ?%Hi; done).
  case_bool_decide as Ee; cbn [mbind option_bind negb]; [|destruct bv; cbn [negb]].
  3:{ exists Denied. split_and!; try done. split; [|done]. intros _. right. split; [done|].
      intros ?%Hbv. done. }
  all: destruct (sc_read_only share) eqn:Ero; simpl; [exists ReadOnly|destruct br; [exists ReadOnly|exists ReadWrite]].
  all: split_and!; try done; try naive_solver.
  all: split; [done|].
  all: intros [?|[??]]; [done|]; naive_solver.
Qed.


(** A configuration with a group, a user list and a read-only list. *)
Definition sample_share : ShareCfg :=
  mkShareCfg (lit "s") (lit "/s") false [lit "@staff"; lit "carol"] [lit "mallory"] [lit "carol"].
Definition sample_cfg : Config :=
  mkConfig (lit "0.0.0.0:445") 1 (lit "SRV") 1 (Some true) (Some true) false false [] true false
    None false true Both None [sample_share]
    [mkUserCfg (lit "alice") (Some (lit "pw")) None] [mkGroupCfg (lit "Staff") None [lit "Alice"]].

Lemma share_access_decision_witness :
  ∃ a, check sample_cfg sample_share (mkWho false (lit "ALICE") false None) = Some a ∧ a = ReadWrite.
Proof.
  destruct (@share_access_decision mem_env sample_cfg sample_share (mkWho false (lit "ALICE") false None))
    as (a & Ha & _).
  - by vm_compute.
  - left.
  - exists a. split; [exact Ha|]. vm_compute in Ha. congruence.
Defined.


(** A group entry whose third byte is inside a character panics instead of
    being reported as a configuration error. *)
Lemma entry_parse_panics : entry_parse (lit "@a" ++ [0xE9]) sample_cfg = None.
Proof. by vm_compute. Qed.

(** ** The user database *)
Lemma hex_digit_range c d : hex_digit c = Some d → 0 ≤ d < 16 ∧ 0 ≤ c < 0x80.
Proof.
  unfold hex_digit, is_digit. intros E. repeat case_match; simplify_eq;
    repeat match goal with H : _ && _ = true |- _ => apply andb_prop in H as [?%Z.leb_le ?%Z.leb_le] end; lia.
Qed.

Lemma hex_bytes_total n : ∀ h,
  length h = (2 * n)%nat → Forall (λ c, is_Some (hex_digit c)) h →
  ∃ b, hex_bytes h = Some b ∧ length b = n ∧ Forall is_byte b.
Proof.
  induction n as [|n IH]; intros h Hl Hf.
  - destruct h; [|done]. exists []. by split_and!.
  - destruct h as [|c0 [|c1 h]]; simpl in Hl; try lia.
    apply Forall_cons in Hf as [[x Hx] Hf]. apply Forall_cons in Hf as [[y Hy] Hf].
    destruct (IH h ltac:(lia) Hf) as (b & Eb & Hb & Hby). simpl. rewrite Hx, Hy, Eb. simpl.
    eexists. split_and!; [done|simpl; lia|]. constructor; [|done].
    apply hex_digit_range in Hx, Hy. unfold is_byte. lia.
Qed.

Lemma ascii_utf8_len h : Forall (λ c, is_Some (hex_digit c)) h → utf8_len h = len h.
Proof.
  induction 1 as [|c h [d Hd] _ IH]; [done|]. simpl. rewrite IH. apply hex_digit_range in Hd.
  unfold utf8_width. rewrite (proj2 (Z.ltb_lt c 0x80)) by lia. lia.
Qed.

Section user_db.
Context `{CryptoLaws}.

Lemma user_hash_total u : secret_ok u = true → ∃ h, user_hash u = Some h ∧ length h = 16%nat.
Proof.
  unfold secret_ok, user_hash. destruct (uc_password u) as [p|], (uc_nt_hash u) as [h|]; try done.
  - intros _. eexists. split; [done|]. apply md4_len.
  - intros [Hl Hf]%andb_prop. apply Z.eqb_eq in Hl.
    assert (Forall (λ c, is_Some (hex_digit c)) h) as Hh.
    { apply Forall_forall. intros c Hc%list_elem_of_In. rewrite forallb_forall in Hf.
      by apply Hf, bool_decide_eq_true in Hc. }
    rewrite ascii_utf8_len in Hl by done.
    destruct (hex_bytes_total 16 h) as (b & -> & Hb & _); [lia|done|]. eauto.
Qed.

Lemma validate_users_spec l : ∀ seen,
  validate_users seen l = Ok tt → NoDup seen →
  NoDup (seen ++ (to_lowercase ∘ uc_name <$> l)) ∧ Forall (λ u, secret_ok u = true) l.
Proof.
  induction l as [|u l IH]; intros seen Hv Hn; simpl in *; [by rewrite app_nil_r|].
  case_bool_decide; [done|]. case_bool_decide; [done|]. simpl in Hv.
  destruct (secret_ok u) eqn:Hs; [|done].
  destruct (IH _ Hv) as [Hn' Hf].
  { apply NoDup_app. split_and!; [done| |apply NoDup_singleton].
    intros x Hx ->%list_elem_of_singleton. done. }
  split; [|by constructor]. by rewrite <-app_assoc in Hn'.
Qed.

Lemma foldl_insert_lookup l : ∀ (m : gmap str bytes) k h,
  NoDup (l.*1) → (k, h) ∈ l → foldl (λ m p, <[p.1 := p.2]> m) m l !! k = Some h.
Proof.
  assert (∀ l (m : gmap str bytes) k, k ∉ l.*1 → foldl (λ m p, <[p.1 := p.2]> m) m l !! k = m !! k) as Hout.
  { clear l. induction l as [|[k' h'] l IH]; intros m k Hk; simpl in *; [done|].
    apply not_elem_of_cons in Hk as [??]. rewrite IH by done. by rewrite lookup_insert_ne. }
  induction l as [|[k' h'] l IH]; intros m k h Hn Hin; simpl in *; [by apply elem_of_nil in Hin|].
  apply NoDup_cons in Hn as [Hk Hn]. apply elem_of_cons in Hin as [[= -> ->]|Hin].
  - rewrite Hout by done. by rewrite lookup_insert_eq.
  - by apply IH.
Qed.

Lemma foldl_insert_dom l : ∀ (m : gmap str bytes) k h,
  foldl (λ m p, <[p.1 := p.2]> m) m l !! k = Some h → (k, h) ∈ l ∨ m !! k = Some h.
Proof.
  induction l as [|[k' h'] l IH]; intros m k h E; simpl in *; [by right|].
  apply IH in E as [?|E]; [left; by right|]. destruct (decide (k' = k)) as [->|].
  - rewrite lookup_insert_eq in E. simplify_eq. left. left.
  - rewrite lookup_insert_ne in E by done. by right.
Qed.

(** C27: On validated users the database that NTLM logons consult is total and
    exact: every configured user is found under its lowercased name with its
    own 16-byte NT hash (derived from the password or decoded from the 32 hex
    digits), and nothing else is in it. *)
Theorem user_db_exact c :
  validate_users [] (cf_users c) = Ok tt →
  ∃ db, user_db c = Some db ∧
  ∀ k h, db !! k = Some h ↔
    ∃ u, u ∈ cf_users c ∧ k = to_lowercase (uc_name u) ∧ user_hash u = Some h ∧ length h = 16%nat.
Proof.
  intros Hv. destruct (validate_users_spec _ _ Hv) as [Hn Hs]; [constructor|]. simpl in Hn.
  unfold user_db. set (f := λ u, h ← user_hash u; Some (to_lowercase (uc_name u), h)).
  assert (∃ l, mapM f (cf_users c) = Some l ∧ l.*1 = (to_lowercase ∘ uc_name <$> cf_users c) ∧
    ∀ k h, (k, h) ∈ l ↔ ∃ u, u ∈ cf_users c ∧ k = to_lowercase (uc_name u) ∧
      user_hash u = Some h ∧ length h = 16%nat) as (l & -> & Hk & Hl).
  { clear Hn Hv. induction Hs as [|u l Hu _ (r & Er & Hr & Hin)].
    - exists []. split_and!; [done..|]. intros k h. setoid_rewrite elem_of_nil. naive_solver.
    - destruct (user_hash_total u Hu) as (hu & Ehu & Hlen).
      exists ((to_lowercase (uc_name u), hu) :: r).
      assert (f u = Some (to_lowercase (uc_name u), hu)) as Ef by (unfold f; by rewrite Ehu).
      split_and!; [apply mapM_Some; constructor; [done|by apply mapM_Some]|by rewrite !fmap_cons, Hr|].
      intros k h.
      setoid_rewrite elem_of_cons. rewrite Hin. naive_solver. }
  simpl. eexists. split; [done|]. intros k h. rewrite <-Hl. split.
  - intros E. apply foldl_insert_dom in E as [?|E]; [done|]. by rewrite lookup_empty in E.
  - intros Hin. apply foldl_insert_lookup; [by rewrite Hk|done].
Qed.
End user_db.

Lemma user_db_exact_witness :
  ∃ db, @user_db mem_env sample_cfg = Some db ∧
    db !! lit "alice" = Some (@nt_hash mem_env (lit "pw")).
Proof.
  destruct (@user_db_exact mem_env mem_crypto_laws sample_cfg) as (db & E & Hdb); [by vm_compute|].
  exists db. split; [exact E|]. apply Hdb. exists (mkUserCfg (lit "alice") (Some (lit "pw")) None).
  split_and!; [left|by vm_compute|done|by vm_compute].
Defined.
