(* ===== verification/Session.v ===== *)
(** The cross-connection session registry. Models src/session.rs.

    A session sits behind its own lock and is reached through a reference
    counted pointer; one command runs with the lock of its session held, so
    the registry is a map from session ids to session states. *)
From S2P Require Import Prelude Wire Os Sample Handles Pac.
Local Open Scope Z_scope.

(** A tree connect of a session (src/smb2/mod.rs). *)
Record Tree := mkTree { tr_share_idx : Z; tr_ipc : bool; tr_read_only : bool }.

Record SessionInner := mkSessionInner {
  s_session_key : bytes; s_established : bool; s_guest : bool; s_signing_required : bool;
  s_user : str; s_kerberos : bool; s_pac : option LogonInfo;
  s_trees : gmap Z Tree; s_next_tree_id : Z; s_handles : HandleTable; s_channels : Z }.

Definition session_new : SessionInner :=
  mkSessionInner (replicate 16 0) false false false [] false None ∅ 0 ht_empty 0.

Definition s_set_trees (t : gmap Z Tree) (s : SessionInner) : SessionInner :=
  mkSessionInner (s_session_key s) (s_established s) (s_guest s) (s_signing_required s) (s_user s)
    (s_kerberos s) (s_pac s) t (s_next_tree_id s) (s_handles s) (s_channels s).
Definition s_set_next_tree (n : Z) (s : SessionInner) : SessionInner :=
  mkSessionInner (s_session_key s) (s_established s) (s_guest s) (s_signing_required s) (s_user s)
    (s_kerberos s) (s_pac s) (s_trees s) n (s_handles s) (s_channels s).
Definition s_set_handles (t : HandleTable) (s : SessionInner) : SessionInner :=
  mkSessionInner (s_session_key s) (s_established s) (s_guest s) (s_signing_required s) (s_user s)
    (s_kerberos s) (s_pac s) (s_trees s) (s_next_tree_id s) t (s_channels s).
Definition s_set_channels (n : Z) (s : SessionInner) : SessionInner :=
  mkSessionInner (s_session_key s) (s_established s) (s_guest s) (s_signing_required s) (s_user s)
    (s_kerberos s) (s_pac s) (s_trees s) (s_next_tree_id s) (s_handles s) n.

Abbreviation Registry := (gmap Z SessionInner).

Section session.
Context `{Env}.

(** [config::urandom]. *)
Definition urandom (n : Z) : IO bytes := do (c_urandom n).

(** The loop of [Registry::create]: draw until the id is fresh and not a
    protocol sentinel. *)
Fixpoint fresh_id (fuel : nat) (m : Registry) : IO Z :=
  match fuel with
  | O => halt Spin
  | S fuel =>
      b ← urandom 8;
      let id := le_val b in
      if negb (id =? 0) && negb (id =? U64_MAX) && bool_decide (m !! id = None)
      then mret id else fresh_id fuel m
  end.

Definition reg_create (m : Registry) : IO (Z * Registry) :=
  id ← fresh_id retry m; mret (id, <[id := session_new]> m).

Definition reg_len (m : Registry) : Z := Z.of_nat (size m).
Definition reg_get (id : Z) (m : Registry) : option SessionInner := m !! id.
Definition reg_remove (id : Z) (m : Registry) : option SessionInner * Registry := (m !! id, delete id m).

Lemma fresh_id_spec fuel m : ∀ s id s',
  fresh_id fuel m s = (inl id, s') → id ≠ 0 ∧ id ≠ U64_MAX ∧ m !! id = None.
Proof.
  induction fuel as [|fuel IH]; intros s id s'; [done|]. cbn [fresh_id].
  unfold mbind, ST_bind. destruct (urandom 8 s) as [[b|e] s1]; [|done].
  destruct (_ && _ && _) eqn:E; [|apply IH].
  unfold mret, ST_ret. intros [= <- <-].
  apply andb_prop in E as [[E1 E2]%andb_prop E3].
  apply negb_true_iff, Z.eqb_neq in E1, E2. by apply bool_decide_eq_true in E3.
Qed.

(** A new session never shadows a live one: its id was unused, is not a
    protocol sentinel, and the other sessions are untouched. *)
Lemma reg_create_fresh m s id m' s' :
  reg_create m s = (inl (id, m'), s') →
  id ≠ 0 ∧ id ≠ U64_MAX ∧ m !! id = None ∧ m' = <[id := session_new]> m.
Proof.
  unfold reg_create, mbind, ST_bind.
  destruct (fresh_id _ _ s) as [[i|e] s1] eqn:E; [|done]. unfold mret, ST_ret. intros [= <- <- <-].
  apply fresh_id_spec in E as (? & ? & ?). done.
Qed.
End session.
