(* ===== verification/Smb2.v ===== *)
(** SMB2 core: the connection's protocol state, the header codec, signing, the
    encryption transform, and the messages built outside a request (zero-copy
    READ responses, CHANGE_NOTIFY completions, lease breaks). Models
    src/smb2/mod.rs up to [process_frame], which is in Frame.v. *)
From S2P Require Import Prelude Wire Status Os Sample Crypto Ntlm Session Config.
Local Open Scope Z_scope.

Module cmd.
Definition NEGOTIATE : Z := 0.
Definition SESSION_SETUP : Z := 1.
Definition LOGOFF : Z := 2.
Definition TREE_CONNECT : Z := 3.
Definition TREE_DISCONNECT : Z := 4.
Definition CREATE : Z := 5.
Definition CLOSE : Z := 6.
Definition FLUSH : Z := 7.
Definition READ : Z := 8.
Definition WRITE : Z := 9.
Definition LOCK : Z := 10.
Definition IOCTL : Z := 11.
Definition CANCEL : Z := 12.
Definition ECHO : Z := 13.
Definition QUERY_DIRECTORY : Z := 14.
Definition CHANGE_NOTIFY : Z := 15.
Definition QUERY_INFO : Z := 16.
Definition SET_INFO : Z := 17.
Definition OPLOCK_BREAK : Z := 18.
End cmd.

Definition OPLOCK_NONE : Z := 0x00.
Definition OPLOCK_LEASE : Z := 0xFF.
Definition LEASE_READ_CACHING : Z := 0x01.
Definition LEASE_HANDLE_CACHING : Z := 0x02.
Definition CTX_NAME_RQLS : bytes := lit "RqLs".

Definition FLAG_RESPONSE : Z := 0x1.
Definition FLAG_ASYNC : Z := 0x2.
Definition FLAG_RELATED : Z := 0x4.
Definition FLAG_SIGNED : Z := 0x8.

Definition MAX_TRANSACT : Z := 4 * 2 ^ 20.
Definition MAX_WRITE : Z := 4 * 2 ^ 20.
Definition MAX_READ_TARGET : Z := 2 ^ 20.
Definition ZC_MIN_READ : Z := 8 * 1024.
Definition HDR_LEN : Z := 64.

Record ReqHdr := mkReqHdr {
  h_credit_charge : Z; h_command : Z; h_credits : Z; h_flags : Z; h_next : Z; h_msg_id : Z;
  h_tree_id : Z; h_session_id : Z; h_async_id : option Z }.

Definition h_set_credits (c : Z) (h : ReqHdr) : ReqHdr :=
  mkReqHdr (h_credit_charge h) (h_command h) c (h_flags h) (h_next h) (h_msg_id h) (h_tree_id h)
    (h_session_id h) (h_async_id h).

Definition SMB2_PROTO : bytes := [0xFE; 0x53; 0x4D; 0x42].

Definition parse_hdr (b : bytes) : option ReqHdr :=
  parse (proto ← rd_take 4; _ ← ensure (bool_decide (proto = SMB2_PROTO));
         sz ← rd_u16; _ ← ensure (sz =? 64);
         credit_charge ← rd_u16; _ ← rd_u32; command ← rd_u16; credits ← rd_u16;
         flags ← rd_u32; next ← rd_u32; msg_id ← rd_u64;
         '(async_id, tree_id, session_id) ←
           (if has_bits flags FLAG_ASYNC
            then a ← rd_u64; s ← rd_u64; mret (Some a, 0, s)
            else _ ← rd_u32; t ← rd_u32; s ← rd_u64; mret (None, t, s));
         _ ← rd_skip 16;
         mret (mkReqHdr credit_charge command credits flags next msg_id tree_id session_id async_id)) b.

Record SignCtx := mkSignCtx { sg_alg : SignAlg; sg_key : bytes }.
Record EncCtx := mkEncCtx { en_cipher : Z; en_c2s : bytes; en_s2c : bytes; en_nonce_ctr : Z }.
Record PendingAuth := mkPendingAuth { pa_challenge : bytes; pa_spnego : bool; pa_binding : bool }.

Record ChannelState := mkChannelState {
  ch_established : bool; ch_signing_required : bool; ch_sign : option SignCtx;
  ch_pending : option PendingAuth; ch_preauth : bytes; ch_enc : option EncCtx; ch_encrypt : bool;
  ch_krb_pending : option Z                (** the GSS context between two legs *) }.

Definition channel_default : ChannelState :=
  mkChannelState false false None None (replicate 64 0) None false None.

Definition ch_set_encrypt (b : bool) (c : ChannelState) : ChannelState :=
  mkChannelState (ch_established c) (ch_signing_required c) (ch_sign c) (ch_pending c) (ch_preauth c)
    (ch_enc c) b (ch_krb_pending c).
Definition ch_set_enc (e : option EncCtx) (c : ChannelState) : ChannelState :=
  mkChannelState (ch_established c) (ch_signing_required c) (ch_sign c) (ch_pending c) (ch_preauth c)
    e (ch_encrypt c) (ch_krb_pending c).
Definition ch_set_preauth (p : bytes) (c : ChannelState) : ChannelState :=
  mkChannelState (ch_established c) (ch_signing_required c) (ch_sign c) (ch_pending c) p
    (ch_enc c) (ch_encrypt c) (ch_krb_pending c).
Definition ch_set_pending (p : option PendingAuth) (c : ChannelState) : ChannelState :=
  mkChannelState (ch_established c) (ch_signing_required c) (ch_sign c) p (ch_preauth c)
    (ch_enc c) (ch_encrypt c) (ch_krb_pending c).

Definition ch_set_krb (x : option Z) (c : ChannelState) : ChannelState :=
  mkChannelState (ch_established c) (ch_signing_required c) (ch_sign c) (ch_pending c) (ch_preauth c)
    (ch_enc c) (ch_encrypt c) x.

Record AsyncMeta := mkAsyncMeta {
  am_msg_id : Z; am_credit_charge : Z; am_session_id : Z; am_async_id : Z; am_want_sign : bool }.
Record NotifyPend := mkNotifyPend {
  np_async_id : Z; np_fid : Z; np_path : path; np_recursive : bool; np_filter : Z;
  np_out_len : Z; np_meta : AsyncMeta }.
Record NotifyDone := mkNotifyDone { nd_async_id : Z; nd_status : Z }.
Record ClientNeg := mkClientNeg { cn_secmode : Z; cn_caps : Z; cn_guid : bytes }.
#[global] Instance ClientNeg_eq_dec : EqDecision ClientNeg.
Proof. solve_decision. Defined.

(** The connection. Its MessageId window ([msg_low], [msg_seen]) is a record
    of its own, see Credits.v. *)
Record MsgWin := mkMsgWin { mw_low : Z; mw_seen : gset Z }.

Record ProtoConn := mkProtoConn {
  pc_dialect : Z; pc_cipher : Z; pc_channels : gmap Z ChannelState; pc_max_read : Z;
  pc_preauth_neg : bytes; pc_credits_out : Z; pc_next_async_id : Z;
  pc_notify_new : list NotifyPend; pc_notify_done : list NotifyDone;
  pc_notify_active : list (Z * Z); pc_wid : Z; pc_conn_idx : Z; pc_conn_gen : Z;
  pc_close : bool; pc_negotiated : bool; pc_client_neg : option ClientNeg;
  pc_server_caps : Z; pc_msgs : MsgWin;
  pc_krb_acceptor : option Z               (** the GSS credential *) }.

Definition pc_new (srv : Srv) (wid conn_idx conn_gen : Z) : ProtoConn :=
  mkProtoConn 0 0 ∅ (srv_max_read srv) (replicate 64 0) 0 1 [] [] [] wid conn_idx conn_gen
    false false None 0 (mkMsgWin 0 ∅) None.

(** Field updates, [pc.f = v]. *)
Definition pc_set_channels (v : gmap Z ChannelState) (p : ProtoConn) : ProtoConn :=
  mkProtoConn (pc_dialect p) (pc_cipher p) v (pc_max_read p) (pc_preauth_neg p) (pc_credits_out p)
    (pc_next_async_id p) (pc_notify_new p) (pc_notify_done p) (pc_notify_active p) (pc_wid p)
    (pc_conn_idx p) (pc_conn_gen p) (pc_close p) (pc_negotiated p) (pc_client_neg p)
    (pc_server_caps p) (pc_msgs p) (pc_krb_acceptor p).
Definition pc_set_preauth_neg (v : bytes) (p : ProtoConn) : ProtoConn :=
  mkProtoConn (pc_dialect p) (pc_cipher p) (pc_channels p) (pc_max_read p) v (pc_credits_out p)
    (pc_next_async_id p) (pc_notify_new p) (pc_notify_done p) (pc_notify_active p) (pc_wid p)
    (pc_conn_idx p) (pc_conn_gen p) (pc_close p) (pc_negotiated p) (pc_client_neg p)
    (pc_server_caps p) (pc_msgs p) (pc_krb_acceptor p).
Definition pc_set_credits (v : Z) (p : ProtoConn) : ProtoConn :=
  mkProtoConn (pc_dialect p) (pc_cipher p) (pc_channels p) (pc_max_read p) (pc_preauth_neg p) v
    (pc_next_async_id p) (pc_notify_new p) (pc_notify_done p) (pc_notify_active p) (pc_wid p)
    (pc_conn_idx p) (pc_conn_gen p) (pc_close p) (pc_negotiated p) (pc_client_neg p)
    (pc_server_caps p) (pc_msgs p) (pc_krb_acceptor p).
(** The CHANGE_NOTIFY queues and the next async id. *)
Definition pc_set_notify (next : Z) (new : list NotifyPend) (done : list NotifyDone)
    (active : list (Z * Z)) (p : ProtoConn) : ProtoConn :=
  mkProtoConn (pc_dialect p) (pc_cipher p) (pc_channels p) (pc_max_read p) (pc_preauth_neg p)
    (pc_credits_out p) next new done active (pc_wid p)
    (pc_conn_idx p) (pc_conn_gen p) (pc_close p) (pc_negotiated p) (pc_client_neg p)
    (pc_server_caps p) (pc_msgs p) (pc_krb_acceptor p).
Definition pc_set_close (v : bool) (p : ProtoConn) : ProtoConn :=
  mkProtoConn (pc_dialect p) (pc_cipher p) (pc_channels p) (pc_max_read p) (pc_preauth_neg p)
    (pc_credits_out p) (pc_next_async_id p) (pc_notify_new p) (pc_notify_done p)
    (pc_notify_active p) (pc_wid p) (pc_conn_idx p) (pc_conn_gen p) v (pc_negotiated p)
    (pc_client_neg p) (pc_server_caps p) (pc_msgs p) (pc_krb_acceptor p).
(** The result of a NEGOTIATE. *)
Definition pc_set_negotiated (dialect cipher : Z) (neg : ClientNeg) (p : ProtoConn) : ProtoConn :=
  mkProtoConn dialect cipher (pc_channels p) (pc_max_read p) (pc_preauth_neg p)
    (pc_credits_out p) (pc_next_async_id p) (pc_notify_new p) (pc_notify_done p)
    (pc_notify_active p) (pc_wid p) (pc_conn_idx p) (pc_conn_gen p) (pc_close p) true
    (Some neg) (pc_server_caps p) (pc_msgs p) (pc_krb_acceptor p).
Definition pc_set_server_caps (v : Z) (p : ProtoConn) : ProtoConn :=
  mkProtoConn (pc_dialect p) (pc_cipher p) (pc_channels p) (pc_max_read p) (pc_preauth_neg p)
    (pc_credits_out p) (pc_next_async_id p) (pc_notify_new p) (pc_notify_done p)
    (pc_notify_active p) (pc_wid p) (pc_conn_idx p) (pc_conn_gen p) (pc_close p)
    (pc_negotiated p) (pc_client_neg p) v (pc_msgs p) (pc_krb_acceptor p).
Definition pc_set_msgs (v : MsgWin) (p : ProtoConn) : ProtoConn :=
  mkProtoConn (pc_dialect p) (pc_cipher p) (pc_channels p) (pc_max_read p) (pc_preauth_neg p)
    (pc_credits_out p) (pc_next_async_id p) (pc_notify_new p) (pc_notify_done p)
    (pc_notify_active p) (pc_wid p) (pc_conn_idx p) (pc_conn_gen p) (pc_close p)
    (pc_negotiated p) (pc_client_neg p) (pc_server_caps p) v (pc_krb_acceptor p).

Definition pc_set_krb_acceptor (v : option Z) (p : ProtoConn) : ProtoConn :=
  mkProtoConn (pc_dialect p) (pc_cipher p) (pc_channels p) (pc_max_read p) (pc_preauth_neg p)
    (pc_credits_out p) (pc_next_async_id p) (pc_notify_new p) (pc_notify_done p)
    (pc_notify_active p) (pc_wid p) (pc_conn_idx p) (pc_conn_gen p) (pc_close p)
    (pc_negotiated p) (pc_client_neg p) (pc_server_caps p) (pc_msgs p) v.

Record ZcReadPlan := mkZcReadPlan {
  zp_fd : Z; zp_offset : Z; zp_length : Z; zp_min_count : Z; zp_msg_id : Z;
  zp_credit_charge : Z; zp_credits : Z; zp_tree_id : Z; zp_session_id : Z; zp_linked : bool }.

Definition MAX_COMPOUND : Z := 128.
Definition COMPOUND_RESP_CAP : Z := 8 * 2 ^ 20.

Inductive FrameAction := Respond | ZcRead (p : ZcReadPlan) | RespondClose | Close.

Record Chain := mkChain {
  cn_related : bool; cn_session_id : Z; cn_tree_id : Z; cn_last_fid : option Z;
  cn_single : bool; cn_transform_sid : option Z }.

(** ** Response headers *)

(** The 64 header bytes of a response. *)
Definition begin_resp (h : ReqHdr) (st : Z) (related : bool) (tree_id session_id : Z) (tx : bytes) : bytes :=
  tx ▷ pbytes SMB2_PROTO ▷ p16 64 ▷ p16 (h_credit_charge h) ▷ p32 st ▷ p16 (h_command h)
     ▷ p16 (h_credits h) ▷ p32 (Z.lor FLAG_RESPONSE (if related then FLAG_RELATED else 0))
     ▷ p32 0 ▷ p64 (h_msg_id h) ▷ p32 0 ▷ p32 tree_id ▷ p64 session_id ▷ zeros 16.

Definition begin_resp_async (meta : AsyncMeta) (st credits command : Z) (tx : bytes) : bytes :=
  tx ▷ pbytes SMB2_PROTO ▷ p16 64 ▷ p16 (am_credit_charge meta) ▷ p32 st ▷ p16 command
     ▷ p16 credits ▷ p32 (Z.lor FLAG_RESPONSE FLAG_ASYNC)
     ▷ p32 0 ▷ p64 (am_msg_id meta) ▷ p64 (am_async_id meta) ▷ p64 (am_session_id meta) ▷ zeros 16.

Definition err_body (tx : bytes) : bytes := tx ▷ p16 9 ▷ p8 0 ▷ p8 0 ▷ p32 0 ▷ p8 0.

Definition err_resp (h : ReqHdr) (st : Z) (chain : Chain) (tx : bytes) : bytes :=
  tx ▷ begin_resp h st (cn_related chain) (cn_tree_id chain) (cn_session_id chain) ▷ err_body.

(** The four NBT bytes: a zero and the 24-bit big-endian length. *)
Definition finish_nbt_with (base n : Z) (tx : bytes) : bytes :=
  patch tx base [0; Z.land (Z.shiftr n 16) 0xFF; Z.land (Z.shiftr n 8) 0xFF; Z.land n 0xFF].

Definition TRANSFORM_PROTO : bytes := [0xFD; 0x53; 0x4D; 0x42].
Definition TRANSFORM_HDR_LEN : Z := 52.

Definition is_transform (frame : bytes) : bool :=
  (4 <=? len frame) && bool_decide (take 4 frame = TRANSFORM_PROTO).

Definition read_plan_hdr (plan : ZcReadPlan) : ReqHdr :=
  mkReqHdr (zp_credit_charge plan) cmd.READ (zp_credits plan) 0 0 (zp_msg_id plan)
    (zp_tree_id plan) (zp_session_id plan) None.

Definition build_read_resp_prefix (plan : ZcReadPlan) (n : Z) : bytes :=
  let tx := [] ▷ zeros 4
       ▷ begin_resp (read_plan_hdr plan) status.SUCCESS false (zp_tree_id plan) (zp_session_id plan)
       ▷ p16 17 ▷ p8 80 ▷ p8 0 ▷ p32 n ▷ p32 0 ▷ p32 0 in
  finish_nbt_with 0 (wrap 32 (len tx - 4 + n)) tx.

Definition build_read_err (plan : ZcReadPlan) (st : Z) : bytes :=
  let tx := [] ▷ zeros 4
       ▷ begin_resp (read_plan_hdr plan) st false (zp_tree_id plan) (zp_session_id plan)
       ▷ err_body in
  finish_nbt_with 0 (len tx - 4) tx.

(** The FILE_NOTIFY_INFORMATION loop: entries aligned to 4, and their starts. *)
Definition notify_entry (st : list Z * bytes) (ev : Z * str) : list Z * bytes :=
  let '(starts, data) := st in
  let data := data ▷ zeros ((4 - len data mod 4) mod 4) in
  let n16 := utf16le ev.2 in
  (starts ++ [len data], data ▷ p32 0 ▷ p32 ev.1 ▷ p32 (len n16) ▷ pbytes n16).

Definition notify_data (events : list (Z * str)) : bytes :=
  let '(starts, data) := foldl notify_entry ([], []) events in patch_windows starts data.

Section smb2.
Context `{Env}.

(** ** Signing *)
Definition sign_in_place (start e : Z) (sc : SignCtx) (tx : bytes) : bytes :=
  let cur := le_val (sub tx (start + 16) (start + 20)) in
  let tx := patch tx (start + 16) (le_bytes 4 (Z.lor cur FLAG_SIGNED)) in
  patch tx (start + 48) (smb2_signature (sg_alg sc) (sg_key sc) [sub tx start e]).

Definition verify_signature (msg : bytes) (sc : SignCtx) : bool :=
  if len msg <? 64 then false
  else
    let sig := smb2_signature (sg_alg sc) (sg_key sc)
                 [take 48 msg; replicate 16 0; drop 64 msg] in
    ct_diff sig (sub msg 48 64) =? 0.

Definition derive_sign_ctx (dialect : Z) (session_key preauth : bytes) : SignCtx :=
  if (dialect =? 0x0202) || (dialect =? 0x0210) then mkSignCtx HmacSha256 session_key
  else if dialect =? 0x0311
  then mkSignCtx AesCmac (kdf128 session_key (lit "SMBSigningKey" ++ [0]) preauth)
  else mkSignCtx AesCmac (kdf128 session_key (lit "SMB2AESCMAC" ++ [0]) (lit "SmbSign" ++ [0])).

(** ** The encryption transform *)
Definition decrypt_transform (frame : bytes) (enc : EncCtx) : option bytes :=
  if (len frame <? TRANSFORM_HDR_LEN) || negb (bool_decide (take 4 frame = TRANSFORM_PROTO)) then None
  else
    let tag := sub frame 4 20 in
    let orig_size := le_val (sub frame 36 40) in
    let aad := sub frame 20 TRANSFORM_HDR_LEN in
    let klen := cipher_key_len (en_cipher enc) in
    let nlen := cipher_nonce_len (en_cipher enc) in
    let nonce := sub frame 20 (20 + nlen) in
    let ct := drop (Z.to_nat TRANSFORM_HDR_LEN) frame in
    if negb (len ct =? orig_size) then None
    else aead_open (en_cipher enc) (take (Z.to_nat klen) (en_c2s enc)) nonce aad ct tag.

Definition wrap_transform (plain : bytes) (enc : EncCtx) (session_id : Z) (tx : bytes) : EncCtx * bytes :=
  let base := len tx in
  let ctr := wrap 64 (en_nonce_ctr enc + 1) in
  let nonce16 := le_bytes 8 ctr ++ replicate 8 0 in
  let tx := tx ▷ zeros 4 in
  let hdr := len tx in
  let tx := tx ▷ pbytes TRANSFORM_PROTO in
  let sig_off := len tx in
  let tx := tx ▷ zeros 16 ▷ pbytes nonce16 ▷ p32 (len plain) ▷ p16 0 ▷ p16 1 ▷ p64 session_id in
  let aad_start := hdr + 20 in
  let ct_off := len tx in
  let klen := cipher_key_len (en_cipher enc) in
  let nlen := cipher_nonce_len (en_cipher enc) in
  let '(ct, tag) := aead_seal (en_cipher enc) (take (Z.to_nat klen) (en_s2c enc))
                      (take (Z.to_nat nlen) nonce16) (sub tx aad_start ct_off) plain in
  let tx := patch (tx ▷ pbytes ct) sig_off tag in
  (mkEncCtx (en_cipher enc) (en_c2s enc) (en_s2c enc) ctr,
   finish_nbt_with base (wrap 32 (len tx - base - 4)) tx).

(** ** Messages built outside a request *)
Definition finalize_async (pc : ProtoConn) (meta : AsyncMeta) (start : Z) (tx : bytes) : bytes :=
  let tx :=
    if am_want_sign meta then
      match pc_channels pc !! am_session_id meta ≫= ch_sign with
      | Some sc => sign_in_place start (len tx) sc tx
      | None => tx
      end
    else tx in
  finish_nbt_with 0 (wrap 32 (len tx - 4)) tx.

Definition build_notify_final (pc : ProtoConn) (meta : AsyncMeta) (st : Z) (events : list (Z * str))
    (out_len : Z) : bytes * ProtoConn :=
  let data := if (st =? status.SUCCESS) && bool_decide (events ≠ []) then notify_data events else [] in
  let tx0 := [] ▷ zeros 4 in
  let tx :=
    if (st =? status.SUCCESS) && bool_decide (events ≠ []) && (len data <=? out_len) then
      tx0 ▷ begin_resp_async meta st 0 cmd.CHANGE_NOTIFY
          ▷ p16 9 ▷ p16 72 ▷ p32 (len data) ▷ pbytes data
          ▷ finalize_async pc meta (len tx0)
    else
      let final_st := if st =? status.SUCCESS then status.NOTIFY_ENUM_DIR else st in
      tx0 ▷ begin_resp_async meta final_st 0 cmd.CHANGE_NOTIFY ▷ err_body
          ▷ finalize_async pc meta (len tx0) in
  match pc_channels pc !! am_session_id meta with
  | Some ch =>
      match ch_encrypt ch, ch_enc ch with
      | true, Some enc =>
          let '(enc', sealed) := wrap_transform (drop 4 tx) enc (am_session_id meta) [] in
          (sealed, pc_set_channels
                     (<[am_session_id meta := ch_set_enc (Some enc') ch]> (pc_channels pc)) pc)
      | _, _ => (tx, pc)
      end
  | None => (tx, pc)
  end.

Definition build_lease_break (lease_key : bytes) (cur_state new_state epoch session_id : Z)
    (sign : option SignCtx) : bytes :=
  let tx := [] ▷ zeros 4 in
  let start := len tx in
  let tx := tx ▷ pbytes SMB2_PROTO ▷ p16 64 ▷ p16 0 ▷ p32 0 ▷ p16 cmd.OPLOCK_BREAK ▷ p16 0
     ▷ p32 FLAG_RESPONSE ▷ p32 0 ▷ p64 U64_MAX ▷ p32 0 ▷ p32 0 ▷ p64 session_id ▷ zeros 16
     ▷ p16 44 ▷ p16 epoch ▷ p32 0 ▷ pbytes lease_key ▷ p32 cur_state ▷ p32 new_state
     ▷ p32 0 ▷ p32 0 ▷ p32 0 in
  let tx := match sign with Some sc => sign_in_place start (len tx) sc tx | None => tx end in
  finish_nbt_with 0 (wrap 32 (len tx - 4)) tx.
End smb2.
