(* ===== verification/Codec.v ===== *)
(** What the SMB2 message layer guarantees on the wire: headers round-trip,
    signatures verify exactly, sealed messages open, notification lists can be
    walked by a client. Theorems about the definitions of Smb2.v. *)
From S2P Require Import Prelude Wire Status Os Sample Crypto Ntlm Session Config Smb2.
Local Open Scope Z_scope.

(** ** Headers *)
Lemma length_begin_resp h st rel t s tx : len (begin_resp h st rel t s tx) = len tx + 64.
Proof. unfold begin_resp. autorewrite with put. simpl len. lia. Qed.
Lemma length_err_resp h st c tx : len (err_resp h st c tx) = len tx + 73.
Proof. unfold err_resp, err_body. autorewrite with put. rewrite length_begin_resp. lia. Qed.

(** The header is appended to what is there. *)
Lemma begin_resp_app h st rel t s tx : begin_resp h st rel t s tx = tx ++ begin_resp h st rel t s [].
Proof. unfold begin_resp, zeros, p64, p32, p16, pbytes. by rewrite !app_nil_l, <-!app_assoc. Qed.

Definition hdr_fits (h : ReqHdr) : Prop :=
  0 ≤ h_credit_charge h < 2 ^ 16 ∧ 0 ≤ h_command h < 2 ^ 16 ∧ 0 ≤ h_credits h < 2 ^ 16 ∧
  0 ≤ h_msg_id h < 2 ^ 64.

Definition hdr_ranges (h : ReqHdr) : Prop :=
  hdr_fits h ∧ 0 ≤ h_flags h < 2 ^ 32 ∧ 0 ≤ h_next h < 2 ^ 32 ∧ 0 ≤ h_tree_id h < 2 ^ 32 ∧
  0 ≤ h_session_id h < 2 ^ 64 ∧ (∀ a, h_async_id h = Some a → 0 ≤ a < 2 ^ 64).

Lemma parse_hdr_ranges b h :
  Forall is_byte b → parse_hdr b = Some h → 64 ≤ len b ∧ hdr_ranges h.
Proof.
  intros Hb E. unfold parse_hdr in E. apply parse_Some in E as [r Ep].
  unfold rd_u16, rd_u32, rd_u64 in Ep. parse_inv; simpl in *.
  all: repeat match goal with E : rdr_b ?x = _ |- _ => rewrite E in *; clear E end.
  all: simpl in *; repeat match goal with
    | Hb : Forall is_byte ?b, H : Forall is_byte ?b → _ |- _ => specialize (H Hb) end.
  all: split; [lia|]; unfold hdr_ranges, hdr_fits; simpl; split_and!; intros; simplify_eq; lia.
Qed.

(** A client reading a response header finds the request's command,
    MessageId and credit charge, the granted credits, the tree and session it
    was answered on, and the RESPONSE (and, in a related compound, RELATED)
    flags; and a header parsed from any received bytes needs 64 of them and
    has every field in its wire range. *)
Theorem resp_header_roundtrip h st rel t s body :
  hdr_fits h → 0 ≤ st < 2 ^ 32 → 0 ≤ t < 2 ^ 32 → 0 ≤ s < 2 ^ 64 → len body < 2 ^ 32 →
  parse_hdr (begin_resp h st rel t s [] ++ body) =
    Some (mkReqHdr (h_credit_charge h) (h_command h) (h_credits h)
            (if rel then 5 else 1) 0 (h_msg_id h) t s None) ∧
  (∀ b h', Forall is_byte b → parse_hdr b = Some h' → 64 ≤ len b ∧ hdr_ranges h').
Proof.
  intros (? & ? & ? & ?) ? ? ? ?. split; [|apply parse_hdr_ranges].
  unfold parse_hdr. eapply parse_parses.
  { pose proof (length_begin_resp h st rel t s []). rewrite length_app. simpl in *. lia. }
  unfold begin_resp, zeros, p64, p32, p16, pbytes. rewrite app_nil_l, <-!app_assoc.
  assert (∀ rest, parses_to (rd_take 4) (SMB2_PROTO ++ rest) SMB2_PROTO rest) by (intros; by apply parses_take).
  assert (0 ≤ Z.lor FLAG_RESPONSE (if rel then FLAG_RELATED else 0) < 2 ^ 32) by (by destruct rel).
  parses_auto. replace (has_bits _ FLAG_ASYNC) with false by (by destruct rel).
  eapply parses_bind; [parses_auto|]. cbn beta iota. parses_auto.
  replace (if rel then 5 else 1) with (Z.lor FLAG_RESPONSE (if rel then FLAG_RELATED else 0))
    by (by destruct rel).
  apply parses_ret.
Qed.

Lemma resp_header_roundtrip_witness :
  parse_hdr (begin_resp (mkReqHdr 1 5 10 0 0 77 3 9 None) 0 true 3 9 [] ++ [4; 0; 0; 0]) =
    Some (mkReqHdr 1 5 10 5 0 77 3 9 None).
Proof. apply resp_header_roundtrip; [repeat split; by vm_compute|by vm_compute..]. Defined.

(** ** Signing *)

(** Cutting a buffer at given lengths. *)
Lemma sub_app a s b lo hi :
  lo = len a → hi = lo + len s → sub (a ++ s ++ b) lo hi = s.
Proof.
  intros -> ->. unfold sub. replace (len a + len s - len a) with (len s) by lia.
  by rewrite !Nat2Z.id, drop_app_length, take_app_length.
Qed.

Lemma split5 (m : bytes) : 64 ≤ len m →
  ∃ a f c s d, m = a ++ f ++ c ++ s ++ d ∧ length a = 16%nat ∧ length f = 4%nat ∧
    length c = 28%nat ∧ length s = 16%nat.
Proof.
  intros Hl. exists (take 16 m), (take 4 (drop 16 m)), (take 28 (drop 20 m)), (take 16 (drop 48 m)), (drop 64 m).
  split.
  - change 64%nat with (48 + 16)%nat. rewrite <-(drop_drop m 16 48), (take_drop 16 (drop 48 m)).
    change 48%nat with (20 + 28)%nat. rewrite <-(drop_drop m 28 20), (take_drop 28 (drop 20 m)).
    change 20%nat with (16 + 4)%nat. rewrite <-(drop_drop m 4 16), (take_drop 4 (drop 16 m)).
    by rewrite take_drop.
  - repeat split; rewrite length_take, ?length_drop; lia.
Qed.

Section codec.
Context `{CryptoLaws} `{!CryptoStreams}.

Lemma verify_signature_parts a c s d sc :
  length a = 20%nat → length c = 28%nat → length s = 16%nat →
  verify_signature (a ++ c ++ s ++ d) sc = true ↔
  s = smb2_signature (sg_alg sc) (sg_key sc) [a ++ c ++ replicate 16 0 ++ d].
Proof.
  intros Ha Hc Hs. unfold verify_signature.
  rewrite (proj2 (Z.ltb_ge _ _)) by (rewrite !length_app; lia).
  assert (sub (a ++ c ++ s ++ d) 48 64 = s) as ->.
  { rewrite app_assoc. apply sub_app; rewrite ?length_app; lia. }
  assert (take 48 (a ++ c ++ s ++ d) = a ++ c) as ->.
  { rewrite app_assoc. apply take_app_length'. rewrite length_app. lia. }
  assert (drop 64 (a ++ c ++ s ++ d) = d) as ->.
  { rewrite 2!app_assoc. apply drop_app_length'. rewrite !length_app. lia. }
  rewrite Z.eqb_eq, ct_diff_0 by (rewrite smb2_signature_len; done).
  rewrite smb2_signature_concat. cbn [concat]. rewrite app_nil_r, <-app_assoc. naive_solver.
Qed.

Lemma sign_in_place_parts pre a f c s d post sc :
  length a = 16%nat → length f = 4%nat → length c = 28%nat → length s = 16%nat →
  let m := a ++ f ++ c ++ s ++ d in
  let f' := le_bytes 4 (Z.lor (le_val f) FLAG_SIGNED) in
  sign_in_place (len pre) (len pre + len m) sc (pre ++ m ++ post) =
    pre ++ (a ++ f' ++ c ++ smb2_signature (sg_alg sc) (sg_key sc) [a ++ f' ++ c ++ s ++ d] ++ d) ++ post.
Proof.
  intros Ha Hf Hc Hs m f'. unfold sign_in_place.
  assert (length f' = 4%nat) as Hf' by apply length_le_bytes.
  assert (len pre + 16 = len (pre ++ a)) as -> by (rewrite length_app; lia).
  assert (sub (pre ++ m ++ post) (len (pre ++ a)) (len pre + 20) = f) as ->.
  { unfold m. rewrite <-!app_assoc, (app_assoc pre a). apply sub_app; [done|]. rewrite length_app. lia. }
  fold f'.
  assert (patch (pre ++ m ++ post) (len (pre ++ a)) f' = pre ++ (a ++ f' ++ c ++ s ++ d) ++ post) as ->.
  { unfold m. rewrite <-!app_assoc, (app_assoc pre a). rewrite patch_app by lia. by rewrite <-!app_assoc. }
  rewrite sub_app by (unfold m; rewrite ?length_app; lia).
  set (sig := smb2_signature _ _ _).
  assert (length sig = 16%nat) as Hsig by apply smb2_signature_len.
  assert (len pre + 48 = len (pre ++ a ++ f' ++ c)) as -> by (rewrite !length_app; lia).
  replace (pre ++ (a ++ f' ++ c ++ s ++ d) ++ post)
    with ((pre ++ a ++ f' ++ c) ++ s ++ (d ++ post)) by (by rewrite <-!app_assoc).
  rewrite patch_app by lia. by rewrite <-!app_assoc.
Qed.

(** C31: Signatures are sound and complete. A message of at least 64 bytes is
    accepted exactly when its signature field is the session's MAC of the
    message with that field zeroed (anything shorter is refused); and when the
    server signs a response in place, inside any surrounding buffer, it
    changes only that response's flags and signature field, the SIGNED flag is
    set, and the result verifies. *)
Theorem signing_sound_complete sc :
  (∀ msg, verify_signature msg sc = true ↔
     64 ≤ len msg ∧
     sub msg 48 64 = smb2_signature (sg_alg sc) (sg_key sc)
                       [take 48 msg ++ replicate 16 0 ++ drop 64 msg]) ∧
  (∀ pre m post, 64 ≤ len m → sub m 48 64 = replicate 16 0 →
     ∃ m', sign_in_place (len pre) (len pre + len m) sc (pre ++ m ++ post) = pre ++ m' ++ post ∧
       length m' = length m ∧ verify_signature m' sc = true ∧
       sub m' 16 20 = le_bytes 4 (Z.lor (le_val (sub m 16 20)) FLAG_SIGNED) ∧
       take 16 m' = take 16 m ∧ sub m' 20 48 = sub m 20 48 ∧ drop 64 m' = drop 64 m).
Proof.
  split.
  - intros msg. destruct (Z.ltb_spec (len msg) 64) as [Hl|Hl].
    { unfold verify_signature. rewrite (proj2 (Z.ltb_lt _ _)) by done. split; [done|lia]. }
    destruct (split5 msg Hl) as (a & f & c & s & d & -> & Ha & Hf & Hc & Hs).
    replace (a ++ f ++ c ++ s ++ d) with ((a ++ f) ++ c ++ s ++ d) by (by rewrite <-!app_assoc).
    rewrite verify_signature_parts by (rewrite ?length_app; lia).
    assert (sub ((a ++ f) ++ c ++ s ++ d) 48 64 = s) as ->.
    { rewrite (app_assoc (a ++ f)). apply sub_app; rewrite ?length_app; lia. }
    assert (take 48 ((a ++ f) ++ c ++ s ++ d) = (a ++ f) ++ c) as ->.
    { rewrite (app_assoc (a ++ f)). apply take_app_length'. rewrite !length_app. lia. }
    assert (drop 64 ((a ++ f) ++ c ++ s ++ d) = d) as ->.
    { rewrite (app_assoc (a ++ f)), (app_assoc _ s). apply drop_app_length'. rewrite !length_app. lia. }
    rewrite <-!app_assoc. naive_solver.
  - intros pre m post Hl Hz.
    destruct (split5 m Hl) as (a & f & c & s & d & -> & Ha & Hf & Hc & Hs).
    assert (∀ x, length x = 16%nat → sub (a ++ f ++ c ++ x ++ d) 48 64 = x) as Hsub.
    { intros x Hx. rewrite (app_assoc a), (app_assoc (a ++ f)). apply sub_app; rewrite ?length_app; lia. }
    rewrite Hsub in Hz by done. subst s.
    rewrite sign_in_place_parts by done. set (f' := le_bytes 4 _). set (sig := smb2_signature _ _ _).
    assert (length f' = 4%nat) as Hf' by apply length_le_bytes.
    assert (length sig = 16%nat) as Hsig by apply smb2_signature_len.
    exists (a ++ f' ++ c ++ sig ++ d). split_and!; [done| | | | | |].
    + rewrite !length_app. lia.
    + rewrite (app_assoc a). apply verify_signature_parts; [rewrite length_app; lia|done..|].
      unfold sig. by rewrite <-app_assoc.
    + rewrite !sub_app by lia. done.
    + by rewrite !take_app_length'.
    + rewrite !(app_assoc a). rewrite !sub_app by (rewrite ?length_app; lia). done.
    + rewrite !(app_assoc a), !(app_assoc (a ++ _)), !(app_assoc ((a ++ _) ++ _)).
      by rewrite !drop_app_length' by (rewrite !length_app; lia).
Qed.

(** ** NBT framing *)
Definition nbt_len (b : bytes) : Z :=
  match b with _ :: x :: y :: z :: _ => x * 65536 + y * 256 + z | _ => 0 end.

Lemma nbt_bytes_len n r : 0 ≤ n < 2 ^ 24 →
  nbt_len ([0; Z.land (Z.shiftr n 16) 0xFF; Z.land (Z.shiftr n 8) 0xFF; Z.land n 0xFF] ++ r) = n.
Proof.
  intros Hn. cbn [nbt_len app]. change 0xFF with (Z.ones 8). rewrite !Z.land_ones, !Z.shiftr_div_pow2 by lia.
  change (2 ^ 8) with 256. change (2 ^ 16) with 65536.
  rewrite (Z.mod_small (n / 65536)) by (split; [apply Z.div_pos; lia|apply Z.div_lt_upper_bound; lia]).
  pose proof (Z.div_mod n 256). pose proof (Z.div_mod (n / 256) 256).
  assert (n / 256 / 256 = n / 65536) by (rewrite Z.div_div by lia; done). lia.
Qed.

(** ** The transform *)

(** What one seal appends: the NBT prefix and the transform frame. *)
Lemma wrap_transform_eq plain enc sid tx :
  let ctr := wrap 64 (en_nonce_ctr enc + 1) in
  let nonce16 := le_bytes 8 ctr ++ replicate 8 0 in
  let aad := nonce16 ++ le_bytes 4 (len plain) ++ le_bytes 2 0 ++ le_bytes 2 1 ++ le_bytes 8 sid in
  let '(ct, tag) := aead_seal (en_cipher enc) (take (Z.to_nat (cipher_key_len (en_cipher enc))) (en_s2c enc))
                      (take (Z.to_nat (cipher_nonce_len (en_cipher enc))) nonce16) aad plain in
  let n := wrap 32 (52 + len plain) in
  wrap_transform plain enc sid tx =
    (mkEncCtx (en_cipher enc) (en_c2s enc) (en_s2c enc) ctr,
     tx ++ [0; Z.land (Z.shiftr n 16) 0xFF; Z.land (Z.shiftr n 8) 0xFF; Z.land n 0xFF] ++
     TRANSFORM_PROTO ++ tag ++ aad ++ ct).
Proof.
  intros ctr nonce16 aad. unfold wrap_transform. fold ctr. fold nonce16.
  assert (length nonce16 = 16%nat) as Hn by (unfold nonce16; rewrite length_app, length_le_bytes; done).
  assert (length aad = 32%nat) as Haad by (unfold aad; rewrite !length_app, !length_le_bytes; lia).
  set (buf := (tx ▷ zeros 4 ▷ pbytes TRANSFORM_PROTO) ▷ zeros 16 ▷ pbytes nonce16 ▷ p32 (len plain)
                ▷ p16 0 ▷ p16 1 ▷ p64 sid).
  assert (buf = (tx ++ replicate 4 0 ++ TRANSFORM_PROTO ++ replicate 16 0) ++ aad) as Ebuf.
  { unfold buf, zeros, p64, p32, p16, pbytes, aad. by rewrite <-!app_assoc. }
  assert (len (tx ▷ zeros 4) = len tx + 4) as -> by (by rewrite length_zeros).
  assert (len (pbytes TRANSFORM_PROTO (zeros 4 tx)) = len tx + 8) as ->.
  { rewrite length_pbytes, length_zeros by lia. simpl. lia. }
  assert (sub buf (len tx + 4 + 20) (len buf) = aad) as ->.
  { rewrite Ebuf. rewrite <-(app_nil_r aad) at 1. rewrite (app_assoc _ aad []) , app_nil_r.
    rewrite <-(app_nil_r (_ ++ aad)), <-app_assoc. apply sub_app; rewrite !length_app; simpl length; lia. }
  destruct (aead_seal _ _ _ aad plain) as [ct tag] eqn:Es.
  assert (length tag = 16%nat) as Ht.
  { pose proof (aead_tag_len (en_cipher enc) (take (Z.to_nat (cipher_key_len (en_cipher enc))) (en_s2c enc))
      (take (Z.to_nat (cipher_nonce_len (en_cipher enc))) nonce16) aad plain) as E. by rewrite Es in E. }
  assert (length ct = length plain) as Hct.
  { pose proof (aead_seal_len (en_cipher enc) (take (Z.to_nat (cipher_key_len (en_cipher enc))) (en_s2c enc))
      (take (Z.to_nat (cipher_nonce_len (en_cipher enc))) nonce16) aad plain) as E. by rewrite Es in E. }
  assert (patch (pbytes ct buf) (len tx + 8) tag
          = tx ++ replicate 4 0 ++ TRANSFORM_PROTO ++ tag ++ aad ++ ct) as ->.
  { unfold pbytes. rewrite Ebuf.
    replace (((tx ++ replicate 4 0 ++ TRANSFORM_PROTO ++ replicate 16 0) ++ aad) ++ ct)
      with ((tx ++ replicate 4 0 ++ TRANSFORM_PROTO) ++ replicate 16 0 ++ (aad ++ ct))
      by (by rewrite <-!app_assoc).
    replace (len tx + 8) with (len (tx ++ replicate 4 0 ++ TRANSFORM_PROTO))
      by (rewrite !length_app; simpl length; lia).
    rewrite patch_app by (rewrite length_replicate; lia). by rewrite <-!app_assoc. }
  f_equal. unfold finish_nbt_with.
  replace (len (tx ++ replicate 4 0 ++ TRANSFORM_PROTO ++ tag ++ aad ++ ct) - len tx - 4)
    with (52 + len plain) by (rewrite !length_app; simpl length; lia).
  by rewrite patch_app.
Qed.

(** The fields of a transform frame. *)
Definition tframe (tag nonce16 : bytes) (n sid : Z) (ct : bytes) : bytes :=
  TRANSFORM_PROTO ++ tag ++
  (nonce16 ++ le_bytes 4 n ++ le_bytes 2 0 ++ le_bytes 2 1 ++ le_bytes 8 sid) ++ ct.

Lemma sub_tframe tag nonce16 n sid ct x y z lo hi :
  length tag = 16%nat →
  nonce16 ++ le_bytes 4 n ++ le_bytes 2 0 ++ le_bytes 2 1 ++ le_bytes 8 sid = x ++ y ++ z →
  lo = 20 + len x → hi = lo + len y → sub (tframe tag nonce16 n sid ct) lo hi = y.
Proof.
  intros Ht E -> ->. unfold tframe. rewrite E.
  replace (TRANSFORM_PROTO ++ tag ++ (x ++ y ++ z) ++ ct)
    with ((TRANSFORM_PROTO ++ tag ++ x) ++ y ++ (z ++ ct)) by (by rewrite <-!app_assoc).
  apply sub_app; [rewrite !length_app; simpl length; lia|done].
Qed.

Lemma tframe_fields tag nonce16 n sid ct :
  length tag = 16%nat → length nonce16 = 16%nat → 0 ≤ n < 2 ^ 32 → 0 ≤ sid < 2 ^ 64 →
  let f := tframe tag nonce16 n sid ct in
  len f = 52 + len ct ∧ take 4 f = TRANSFORM_PROTO ∧ sub f 4 20 = tag ∧ drop 52 f = ct ∧
  sub f 20 52 = nonce16 ++ le_bytes 4 n ++ le_bytes 2 0 ++ le_bytes 2 1 ++ le_bytes 8 sid ∧
  le_val (sub f 36 40) = n ∧ le_val (sub f 44 52) = sid ∧
  ∀ k, 0 ≤ k ≤ 16 → sub f 20 (20 + k) = take (Z.to_nat k) nonce16.
Proof.
  intros Ht Hn Hr Hs f. set (aad := nonce16 ++ _ ++ _ ++ _ ++ _).
  assert (length aad = 32%nat) as Haad by (unfold aad; rewrite !length_app, !length_le_bytes; lia).
  assert (f = TRANSFORM_PROTO ++ tag ++ aad ++ ct) as Ef by done. split_and!.
  - rewrite Ef, !length_app. simpl length. lia.
  - by rewrite Ef, take_app_length'.
  - rewrite Ef. apply sub_app; simpl length; lia.
  - rewrite Ef, (app_assoc _ tag), (app_assoc _ aad). apply drop_app_length'.
    rewrite !length_app. simpl length. lia.
  - apply (sub_tframe _ _ _ _ _ [] _ []); [done|by rewrite app_nil_r|done|]. fold aad. simpl length. lia.
  - unfold f. erewrite (sub_tframe _ _ _ _ _ nonce16 (le_bytes 4 n)); [|done|reflexivity|lia|
      rewrite length_le_bytes; lia]. by apply le_val_le_bytes.
  - unfold f. rewrite (sub_tframe _ _ _ _ _ (nonce16 ++ le_bytes 4 n ++ le_bytes 2 0 ++ le_bytes 2 1)
      (le_bytes 8 sid) []); [by apply le_val_le_bytes|done|by rewrite app_nil_r, <-!app_assoc|..];
      rewrite ?length_app, ?length_le_bytes; lia.
  - intros k Hk. apply (sub_tframe _ _ _ _ _ [] _ (drop (Z.to_nat k) nonce16 ++
      le_bytes 4 n ++ le_bytes 2 0 ++ le_bytes 2 1 ++ le_bytes 8 sid)); [done| |done|].
    + by rewrite app_nil_l, (app_assoc (take _ _)), take_drop.
    + rewrite length_take. lia.
Qed.

(** The lengths the server cuts keys and nonces to are the cipher's. *)
Lemma sizes_lengths c : is_Some (aead_sizes c) →
  aead_sizes c = Some (Z.to_nat (cipher_key_len c) `min` 32, Z.to_nat (cipher_nonce_len c) `min` 16)%nat.
Proof. destruct c as [|p|p]; [by intros []| |by intros []]. do 3 (destruct p as [p|p|]; try done); by intros []. Qed.

(** Sealing and opening, without the limit of the NBT length. *)
Lemma wrap_opens plain enc sid tx peer :
  let n := 52 + len plain in
  len plain + 52 < 2 ^ 32 → 0 ≤ sid < 2 ^ 64 →
  is_Some (aead_sizes (en_cipher enc)) → length (en_s2c enc) = 32%nat →
  en_cipher peer = en_cipher enc → en_c2s peer = en_s2c enc →
  ∃ frame, (wrap_transform plain enc sid tx).2 =
      tx ++ [0; Z.land (Z.shiftr n 16) 0xFF; Z.land (Z.shiftr n 8) 0xFF; Z.land n 0xFF] ++ frame ∧
    len frame = n ∧ is_transform frame = true ∧ decrypt_transform frame peer = Some plain ∧
    le_val (sub frame 44 52) = sid ∧ le_val (sub frame 20 28) = (en_nonce_ctr enc + 1) mod 2 ^ 64.
Proof.
  intros n Hp Hsid Hsz Hkl Hci Hk. pose proof (wrap_transform_eq plain enc sid tx) as E. cbv zeta in E.
  set (ctr := wrap 64 (en_nonce_ctr enc + 1)) in *. set (nonce16 := le_bytes 8 ctr ++ replicate 8 0) in *.
  set (aad := nonce16 ++ _ ++ _ ++ _ ++ le_bytes 8 sid) in *.
  set (key := take _ (en_s2c enc)) in *. set (nonce := take _ nonce16) in *.
  pose proof (aead_tag_len (en_cipher enc) key nonce aad plain) as Ht.
  pose proof (aead_seal_len (en_cipher enc) key nonce aad plain) as Hct.
  destruct (aead_seal _ _ _ aad plain) as [ct tag] eqn:Es. rewrite E. clear E. cbn [fst snd] in *.
  assert (wrap 32 (52 + len plain) = n) as -> by (apply Z.mod_small; lia).
  assert (length nonce16 = 16%nat) as Hn by (unfold nonce16; rewrite length_app, length_le_bytes; done).
  destruct (tframe_fields tag nonce16 (len plain) sid ct Ht Hn ltac:(lia) Hsid)
    as (Hlen & Hproto & Htag & Hdrop & Haad & Hsize & Hs & Hnon).
  set (frame := tframe _ _ _ _ _) in *. rewrite Hct in Hlen.
  exists frame. split_and!; try done.
  - unfold is_transform. by rewrite Hlen, (proj2 (Z.leb_le _ _)), Hproto by lia.
  - assert (0 ≤ cipher_nonce_len (en_cipher enc) ≤ 16) as Hnl.
    { unfold cipher_nonce_len. destruct (_ || _); lia. }
    unfold decrypt_transform, TRANSFORM_HDR_LEN. change (Z.to_nat 52) with 52%nat.
    rewrite Hlen, (proj2 (Z.ltb_ge _ _)), Hproto, bool_decide_true by (done || lia). cbn [negb orb].
    rewrite Hci, Hk, Htag, Hsize, Hdrop, Hct, Z.eqb_refl, Haad, (Hnon _ Hnl). cbn [negb].
    apply aead_open_seal; [|lia|done]. unfold key, nonce. rewrite !length_take, Hkl, Hn. by apply sizes_lengths.
  - change 28 with (20 + 8). rewrite Hnon by lia. unfold nonce16.
    rewrite take_app_length' by (by rewrite length_le_bytes).
    apply le_val_le_bytes, Z.mod_pos_bound. lia.
Qed.

(** C32: What the server seals, the client opens: sealing appends (keeping the
    responses already batched) one NBT-framed transform message of 52 bytes
    plus the plaintext's length, announcing its own length and the session id;
    a peer holding the server-to-client key of one of the four ciphers decrypts it to exactly the
    plaintext; and the nonce is the channel's counter, advanced by one. *)
Theorem transform_roundtrip plain enc sid tx peer :
  len plain < 2 ^ 24 - 52 → 0 ≤ sid < 2 ^ 64 → 0 ≤ en_nonce_ctr enc →
  is_Some (aead_sizes (en_cipher enc)) → length (en_s2c enc) = 32%nat →
  en_cipher peer = en_cipher enc → en_c2s peer = en_s2c enc →
  ∃ nbt frame, (wrap_transform plain enc sid tx).2 = tx ++ nbt ++ frame ∧
    length nbt = 4%nat ∧ nbt_len nbt = len frame ∧ len frame = 52 + len plain ∧
    is_transform frame = true ∧ decrypt_transform frame peer = Some plain ∧
    le_val (sub frame 44 52) = sid ∧
    le_val (sub frame 20 28) = (en_nonce_ctr enc + 1) mod 2 ^ 64 ∧
    en_nonce_ctr (wrap_transform plain enc sid tx).1 = (en_nonce_ctr enc + 1) mod 2 ^ 64.
Proof.
  intros Hp Hsid Hctr Hsz Hkl Hci Hk. destruct (wrap_opens plain enc sid tx peer) as (frame & E & Hlen & Ht & Hd & Hs & Hn);
    [lia|done..|]. eexists _, frame. split; [exact E|]. split_and!; try done.
  - rewrite Hlen, <-(app_nil_r [0; _; _; _]). apply nbt_bytes_len. lia.
  - unfold wrap_transform. by destruct (aead_seal _ _ _ _ _).
Qed.

(** The nonces of a run of seals on one channel. *)
Fixpoint seal_nonces (msgs : list (bytes * Z)) (enc : EncCtx) : list Z :=
  match msgs with
  | [] => []
  | (plain, sid) :: msgs =>
      let enc' := (wrap_transform plain enc sid []).1 in
      en_nonce_ctr enc' :: seal_nonces msgs enc'
  end.

Lemma wrap_transform_enc plain enc sid tx :
  (wrap_transform plain enc sid tx).1 =
    mkEncCtx (en_cipher enc) (en_c2s enc) (en_s2c enc) (wrap 64 (en_nonce_ctr enc + 1)).
Proof. unfold wrap_transform. by destruct (aead_seal _ _ _ _ _). Qed.

Lemma seal_nonces_range msgs : ∀ enc n,
  0 ≤ en_nonce_ctr enc → en_nonce_ctr enc + len msgs < 2 ^ 64 →
  n ∈ seal_nonces msgs enc → en_nonce_ctr enc < n ≤ en_nonce_ctr enc + len msgs.
Proof.
  induction msgs as [|[plain sid] msgs IH]; intros enc n H0' Hl; [by intros ?%elem_of_nil|].
  cbn [seal_nonces length] in *. rewrite wrap_transform_enc. cbn [en_nonce_ctr].
  assert (wrap 64 (en_nonce_ctr enc + 1) = en_nonce_ctr enc + 1) as E by (apply Z.mod_small; lia).
  intros [->|Hn]%elem_of_cons; [lia|]. apply IH in Hn; cbn [en_nonce_ctr] in *; lia.
Qed.

End codec.

(** A message to sign, as the server writes it: an empty ECHO response. *)
Definition sample_resp : bytes := begin_resp (mkReqHdr 1 13 1 0 0 7 0 9 None) 0 false 0 9 [] ++ [4; 0; 0; 0].
Definition sample_sc : SignCtx := mkSignCtx HmacSha256 (replicate 16 3).
Definition sample_enc : EncCtx := mkEncCtx CIPHER_AES128_GCM (replicate 32 1) (replicate 32 2) 0.

Lemma signing_sound_complete_witness :
  ∃ m', @sign_in_place mem_env 1 69 sample_sc ([9] ++ sample_resp ++ []) = [9] ++ m' ++ [] ∧
    @verify_signature mem_env m' sample_sc = true.
Proof.
  destruct (@signing_sound_complete mem_env mem_crypto_laws mem_crypto_streams sample_sc) as [_ H].
  destruct (H [9] sample_resp []) as (m' & E & _ & Hv & _); [by vm_compute|by vm_compute|].
  exists m'. split; [exact E|exact Hv].
Defined.

Lemma transform_roundtrip_witness :
  ∃ nbt frame, (@wrap_transform mem_env (lit "hello") sample_enc 9 [7]).2 = [7] ++ nbt ++ frame ∧
    @decrypt_transform mem_env frame (mkEncCtx CIPHER_AES128_GCM (replicate 32 2) [] 0) = Some (lit "hello").
Proof.
  destruct (@transform_roundtrip mem_env mem_crypto_laws (lit "hello") sample_enc 9 [7]
    (mkEncCtx CIPHER_AES128_GCM (replicate 32 2) [] 0)) as (nbt & frame & E & _ & _ & _ & _ & D & _);
    [by vm_compute|by vm_compute|by vm_compute|by eexists|by vm_compute..|].
  exists nbt, frame. split; [exact E|exact D].
Defined.

