(* ===== verification/Credits.v ===== *)
(** The MessageId replay window and the credit window of a connection.
    Models [consume_msg_ids] and the credit accounting of [dispatch] in
    src/smb2/handlers.rs. *)
From S2P Require Import Prelude Smb2.
Local Open Scope Z_scope.

Definition CREDIT_WINDOW : Z := 512.
Definition MSG_WINDOW : Z := 2 ^ 16.
Definition MSG_SEEN_MAX : Z := 4096.

(** ** MessageIds *)

(** [msg_seen.iter().next()]: the least element. *)
Definition set_min (s : gset Z) : option Z :=
  match elements s with
  | [] => None
  | x :: l => Some (foldl Z.min x l)
  end.

(** [seen.extend(id..end)]. *)
Definition id_range (id n : Z) : gset Z := list_to_set (seqZ id n).

(** [while seen.remove(&low) { low += 1 }]. *)
Fixpoint advance (fuel : nat) (w : MsgWin) : MsgWin :=
  match fuel with
  | O => w
  | S fuel =>
      if bool_decide (mw_low w ∈ mw_seen w)
      then advance fuel (mkMsgWin (mw_low w + 1) (mw_seen w ∖ {[mw_low w]}))
      else w
  end.

(** The outer [loop]: each round removes at least one id, so [size seen]
    rounds of each loop suffice ([compact_small]). *)
Fixpoint compact (fuel : nat) (w : MsgWin) : MsgWin :=
  let w := advance (S (size (mw_seen w))) w in
  if Z.of_nat (size (mw_seen w)) <=? MSG_SEEN_MAX then w
  else match fuel with
       | O => w
       | S fuel => compact fuel (mkMsgWin (default (mw_low w) (set_min (mw_seen w))) (mw_seen w))
       end.

Definition consume_msg_ids (id charge : Z) (w : MsgWin) : bool * MsgWin :=
  let n := Z.max charge 1 in
  let e := id + n in
  if U64_MAX <? e then (false, w)
  else if (id <? mw_low w) || (Z.min (mw_low w + MSG_WINDOW) U64_MAX <? e) then (false, w)
  else if bool_decide (set_Exists (λ x, id ≤ x < e) (mw_seen w)) then (false, w)
  else
    let seen := mw_seen w ∪ id_range id n in
    (true, compact (S (size seen)) (mkMsgWin (mw_low w) seen)).

(** ** Credits *)

(** Consume the charge, grant within the window: the credits granted and the
    credits then outstanding. *)
Definition grant_credits (charge credits credits_out : Z) : Z * Z :=
  let credits_out := Z.max (credits_out - Z.max charge 1) 0 in
  let avail := Z.max (CREDIT_WINDOW - credits_out) 1 in
  let grant := Z.min (Z.max credits 1) avail in
  (grant, credits_out + grant).

(** ** The window as a set of used ids *)
Definition used (w : MsgWin) (x : Z) : Prop := x < mw_low w ∨ x ∈ mw_seen w.

(** Remembered ids lie strictly above [msg_low] and within the window. *)
Record win_ok (w : MsgWin) : Prop := {
  wo_low : 0 ≤ mw_low w ≤ U64_MAX;
  wo_seen : ∀ x, x ∈ mw_seen w → mw_low w < x < U64_MAX;
  wo_size : Z.of_nat (size (mw_seen w)) ≤ MSG_SEEN_MAX }.

Lemma set_min_spec (s : gset Z) m :
  set_min s = Some m → m ∈ s ∧ ∀ x, x ∈ s → m ≤ x.
Proof.
  unfold set_min. destruct (elements s) as [|y l] eqn:E; [done|]. intros [= <-].
  assert (∀ l y, foldl Z.min y l ∈ y :: l ∧ ∀ x, x ∈ y :: l → foldl Z.min y l ≤ x) as Hg.
  { clear. induction l as [|z l IH]; intros y; simpl.
    - split; [left|]. intros x ->%list_elem_of_singleton. lia.
    - destruct (IH (Z.min y z)) as [H1 H2]. split.
      + apply elem_of_cons in H1 as [->|H1]; [|by do 2 right].
        destruct (Z.min_spec y z) as [[_ ->]|[_ ->]]; [left|right; left].
      + intros x Hx. specialize (H2 (Z.min y z) ltac:(left)) as H3.
        apply elem_of_cons in Hx as [->|[->|Hx]%elem_of_cons]; [lia..|]. apply H2. by right. }
  destruct (Hg l y) as [H1 H2]. rewrite <-E in H1, H2. split.
  - by apply elem_of_elements.
  - intros x Hx. apply H2. by apply elem_of_elements.
Qed.

Lemma set_min_Some (s : gset Z) : s ≠ ∅ → is_Some (set_min s).
Proof.
  intros Hs. unfold set_min. destruct (elements s) eqn:E; [|eauto].
  apply elements_empty_inv in E. set_solver.
Qed.

Lemma elem_of_id_range x id n : x ∈ id_range id n ↔ id ≤ x < id + n.
Proof. unfold id_range. rewrite elem_of_list_to_set, elem_of_seqZ. done. Qed.

Lemma advance_used fuel : ∀ w x, used (advance fuel w) x ↔ used w x.
Proof.
  induction fuel as [|fuel IH]; intros w x; simpl; [done|]. case_bool_decide; [|done].
  rewrite IH. unfold used; simpl. rewrite elem_of_difference, elem_of_singleton.
  destruct (decide (x = mw_low w)) as [->|]; [|destruct (decide (x < mw_low w))]; intuition lia.
Qed.

(** What the inner loop leaves, with enough fuel. *)
Lemma advance_spec fuel : ∀ w, (size (mw_seen w) < fuel)%nat →
  mw_low (advance fuel w) ∉ mw_seen (advance fuel w) ∧
  mw_seen (advance fuel w) ⊆ mw_seen w ∧ mw_low w ≤ mw_low (advance fuel w) ∧
  (mw_low w ∈ mw_seen w → (size (mw_seen (advance fuel w)) < size (mw_seen w))%nat).
Proof.
  induction fuel as [|fuel IH]; intros w Hf; [lia|]. cbn [advance]. case_bool_decide as Hin.
  - set (w' := mkMsgWin _ _).
    assert (size (mw_seen w') < size (mw_seen w))%nat as Hsz.
    { apply subset_size. unfold w'; simpl. set_solver. }
    destruct (IH w' ltac:(lia)) as (H1 & H2 & H3 & _). simpl in *. split_and!; [done|set_solver|lia|].
    intros _. eapply Nat.le_lt_trans; [|exact Hsz]. by apply subseteq_size.
  - split_and!; [done..|lia|done].
Qed.

(** An id the inner loop passed over was in the set. *)
Lemma advance_bound fuel : ∀ w M,
  mw_low w ≤ M → (∀ x, x ∈ mw_seen w → x < M) →
  mw_low (advance fuel w) ≤ M.
Proof.
  induction fuel as [|fuel IH]; intros w M Hl HM; simpl; [done|]. case_bool_decide as Hin; [|done].
  apply IH; simpl; [apply HM in Hin; lia|]. set_solver.
Qed.

(** What the loops do to a window whose remembered ids are not below [low]. *)
Record compacted (w w' : MsgWin) : Prop := {
  cp_out : mw_low w' ∉ mw_seen w';
  cp_sub : mw_seen w' ⊆ mw_seen w;
  cp_low : mw_low w ≤ mw_low w';
  cp_above : ∀ x, x ∈ mw_seen w' → mw_low w' < x;
  cp_size : Z.of_nat (size (mw_seen w')) ≤ MSG_SEEN_MAX;
  cp_used : ∀ x, used w x → used w' x;
  cp_bound : ∀ M, mw_low w ≤ M → (∀ x, x ∈ mw_seen w → x < M) → mw_low w' ≤ M }.

Lemma advance_above fuel : ∀ w,
  (∀ x, x ∈ mw_seen w → mw_low w ≤ x) → ∀ x, x ∈ mw_seen (advance fuel w) → mw_low (advance fuel w) ≤ x.
Proof.
  induction fuel as [|fuel IH]; intros w Hw; simpl; [done|]. case_bool_decide; [|done].
  apply IH. simpl. intros x [Hx Hn]%elem_of_difference. apply Hw in Hx. set_unfold. lia.
Qed.

Lemma compact_spec fuel : ∀ w,
  (∀ x, x ∈ mw_seen w → mw_low w ≤ x) →
  (size (mw_seen w) < fuel)%nat ∨ (mw_low w ∈ mw_seen w ∧ (size (mw_seen w) ≤ fuel)%nat) →
  compacted w (compact fuel w).
Proof.
  induction fuel as [|fuel IH]; intros w Hw Hf.
  { destruct Hf as [?|[Hin Hs]]; [lia|]. apply Nat.le_0_r, size_empty_inv in Hs. set_solver. }
  cbn [compact]. set (w1 := advance _ w).
  destruct (advance_spec (S (size (mw_seen w))) w ltac:(lia)) as (H1 & H2 & H3 & H4). fold w1 in H1, H2, H3, H4.
  pose proof (λ x, advance_used (S (size (mw_seen w))) w x) as Hu. fold w1 in Hu.
  pose proof (λ M, advance_bound (S (size (mw_seen w))) w M) as Hb. fold w1 in Hb.
  pose proof (advance_above (S (size (mw_seen w))) w Hw) as Ha. fold w1 in Ha.
  destruct (Z.leb_spec (Z.of_nat (size (mw_seen w1))) MSG_SEEN_MAX) as [Hs|Hs].
  { constructor; try done; [|intros x; by rewrite Hu].
    intros x Hx. pose proof (Ha x Hx). destruct (decide (x = mw_low w1)) as [->|]; [done|lia]. }
  assert (mw_seen w1 ≠ ∅) as Hne by (intros E; rewrite E, size_empty in Hs; unfold MSG_SEEN_MAX in Hs; lia).
  destruct (set_min_Some _ Hne) as [m Hm]. rewrite Hm. cbn [default from_option].
  destruct (set_min_spec _ _ Hm) as [Hmin Hle]. pose proof (subseteq_size _ _ H2) as Hsz.
  destruct (IH (mkMsgWin m (mw_seen w1))) as [I1 I2 I3 I4 I5 I6 I7]; [done| |].
  { right. split; [done|]. simpl. destruct Hf as [?|[Hin ?]]; [lia|]. specialize (H4 Hin). lia. }
  simpl in *. pose proof (Ha m Hmin). constructor; try done; [set_solver|lia| |].
  - intros x [Hx|Hx]%Hu; apply I6; [left; simpl; lia|by right].
  - intros M HM Hx. apply I7; [|set_solver]. apply H2, Hx in Hmin. lia.
Qed.

Lemma consume_ok id charge w :
  win_ok w → 0 ≤ id →
  let '(b, w') := consume_msg_ids id charge w in
  let n := Z.max charge 1 in
  win_ok w' ∧
  (∀ x, used w x → used w' x) ∧
  (b = false → w' = w) ∧
  (b = true → ∀ x, id ≤ x < id + n → ¬ used w x ∧ used w' x) ∧
  (b = true ↔ mw_low w ≤ id ∧ id + n ≤ Z.min (mw_low w + MSG_WINDOW) U64_MAX ∧
              ∀ x, id ≤ x < id + n → ¬ used w x).
Proof.
  intros Hw Hid. unfold consume_msg_ids. set (n := Z.max charge 1).
  destruct (Z.ltb_spec U64_MAX (id + n)).
  { split_and!; try done. split; [done|]. intros (? & ? & _). lia. }
  destruct (Z.ltb_spec id (mw_low w)); cbn [orb].
  { split_and!; try done. split; [done|]. intros (? & ? & _). lia. }
  destruct (Z.ltb_spec (Z.min (mw_low w + MSG_WINDOW) U64_MAX) (id + n)).
  { split_and!; try done. split; [done|]. intros (? & ? & _). lia. }
  case_bool_decide as He.
  { split_and!; try done. split; [done|]. intros (_ & _ & Hn). exfalso.
    destruct He as (x & Hx & Hr). apply (Hn x Hr). by right. }
  assert (∀ x, id ≤ x < id + n → x ∉ mw_seen w) as Hns by (intros x ? Hx; apply He; by exists x).
  set (w1 := mkMsgWin (mw_low w) (mw_seen w ∪ id_range id n)).
  assert (∀ x, x ∈ mw_seen w1 → mw_low w ≤ x < U64_MAX) as Hr1.
  { intros x [Hx|Hx%elem_of_id_range]%elem_of_union; [apply (wo_seen _ Hw) in Hx|]; lia. }
  destruct (compact_spec (S (size (mw_seen w ∪ id_range id n))) w1) as [I1 I2 I3 I4 I5 I6 I7].
  { intros x Hx. apply Hr1 in Hx. simpl. lia. }
  { left. simpl. lia. }
  fold w1. split_and!; try done.
  - constructor; [|intros x Hx; split; [by apply I4|]; apply I2, Hr1 in Hx; lia|done].
    split; [pose proof (wo_low _ Hw); change (mw_low w1) with (mw_low w) in I3; lia|].
    apply I7; [apply Hw|]. intros x Hx. apply Hr1 in Hx. lia.
  - intros x Hx. apply I6. destruct Hx as [?|?]; [by left|]. right. simpl. set_solver.
  - intros _ x Hx. split.
    + intros [?|?]; [lia|by apply (Hns x)].
    + apply I6. right. simpl. apply elem_of_union. right. by apply elem_of_id_range.
  - split; [|done]. intros _. split_and!; [lia..|]. intros x Hx [?|?]; [lia|by apply (Hns x)].
Qed.

(** A history of requests: which were accepted, and the window after. *)
Fixpoint consume_all (reqs : list (Z * Z)) (w : MsgWin) : list (Z * Z) * MsgWin :=
  match reqs with
  | [] => ([], w)
  | (id, charge) :: reqs =>
      let '(b, w1) := consume_msg_ids id charge w in
      let '(acc, w2) := consume_all reqs w1 in
      (if b then (id, charge) :: acc else acc, w2)
  end.

Definition covers (r : Z * Z) (x : Z) : Prop := r.1 ≤ x < r.1 + Z.max r.2 1.

Lemma consume_all_spec reqs : ∀ w,
  win_ok w → Forall (λ r : Z * Z, 0 ≤ r.1) reqs →
  let '(acc, w') := consume_all reqs w in
  win_ok w' ∧ (∀ r x, r ∈ acc → covers r x → ¬ used w x) ∧
  (∀ i j ri rj x, acc !! i = Some ri → acc !! j = Some rj → covers ri x → covers rj x → i = j).
Proof.
  induction reqs as [|[id charge] reqs IH]; intros w Hw Hr; cbn [consume_all].
  { split_and!; [done|by intros r x ?%elem_of_nil|done]. }
  apply Forall_cons in Hr as [Hid Hr]. simpl in Hid.
  pose proof (consume_ok id charge w Hw Hid) as Hc.
  destruct (consume_msg_ids id charge w) as [b w1]. destruct Hc as (Hw1 & Hmono & _ & Hacc & _).
  specialize (IH w1 Hw1 Hr). destruct (consume_all reqs w1) as [acc w2].
  destruct IH as (Hw2 & Hfresh & Hdis). split; [done|].
  assert (∀ r x, r ∈ acc → covers r x → ¬ used w x) as Hold.
  { intros r x Hin Hx Hu. by apply (Hfresh r x Hin Hx), Hmono. }
  destruct b; [|done]. specialize (Hacc eq_refl). split.
  - intros r x [->|Hin]%elem_of_cons Hx; [|by eapply Hold]. by apply (Hacc x).
  - assert (∀ r x, r ∈ acc → covers r x → covers (id, charge) x → False) as Hsep.
    { intros r x Hin Hx Hx'. apply (Hfresh r x Hin Hx). by apply (Hacc x). }
    intros [|i] [|j] ri rj x Hi Hj Hxi Hxj; simpl in *; simplify_eq; [done|..].
    + exfalso. eapply Hsep; [by eapply list_elem_of_lookup_2|done..].
    + exfalso. eapply Hsep; [by eapply list_elem_of_lookup_2|done..].
    + f_equal. by eapply Hdis.
Qed.

(** C16: Replay protection: over any history of requests on a connection, in
    any order and with any charges, each MessageId is accepted at most once
    (the id ranges of accepted requests are pairwise disjoint), so a captured
    signed or sealed request cannot be replayed; and the server never
    remembers more than 4096 ids for it. *)
Theorem message_ids_never_replayed reqs :
  Forall (λ r : Z * Z, 0 ≤ r.1) reqs →
  let '(acc, w) := consume_all reqs (mkMsgWin 0 ∅) in
  (∀ i j ri rj x, acc !! i = Some ri → acc !! j = Some rj → covers ri x → covers rj x → i = j) ∧
  Z.of_nat (size (mw_seen w)) ≤ MSG_SEEN_MAX ∧
  (∀ id charge x, x ∈ acc ≫= (λ r, seqZ r.1 (Z.max r.2 1)) → id ≤ x < id + Z.max charge 1 → 0 ≤ id →
     (consume_msg_ids id charge w).1 = false).
Proof.
  intros Hr.
  assert (win_ok (mkMsgWin 0 ∅)) as Hw0 by (constructor; simpl; [by vm_compute|set_solver|by vm_compute]).
  pose proof (consume_all_spec reqs _ Hw0 Hr) as Hs.
  assert (∀ reqs w, win_ok w → Forall (λ r : Z * Z, 0 ≤ r.1) reqs →
    (∀ x, used w x → used (consume_all reqs w).2 x) ∧
    ∀ r x, r ∈ (consume_all reqs w).1 → covers r x → used (consume_all reqs w).2 x) as Hused.
  { clear. induction reqs as [|[id charge] reqs IH]; intros w Hw Hr; cbn [consume_all].
    { split; [done|]. by intros r x ?%elem_of_nil. }
    apply Forall_cons in Hr as [Hid Hr].
    pose proof (consume_ok id charge w Hw Hid) as Hc.
    destruct (consume_msg_ids id charge w) as [b w1]. destruct Hc as (Hw1 & Hmono & _ & Hacc & _).
    destruct (IH w1 Hw1 Hr) as [IH1 IH2]. destruct (consume_all reqs w1) as [acc w2]. simpl in *.
    split; [auto|]. intros r x. destruct b; [|by apply IH2].
    intros [->|Hin]%elem_of_cons Hx; [|by eapply IH2]. apply IH1. by apply Hacc. }
  destruct (Hused reqs _ Hw0 Hr) as [_ Hu].
  destruct (consume_all reqs _) as [acc w]. destruct Hs as (Hw & _ & Hd).
  split_and!; [done|apply Hw|]. intros id charge x Hx Hin Hid.
  pose proof (consume_ok id charge w Hw Hid) as Hc.
  destruct (consume_msg_ids id charge w) as [b w']. destruct Hc as (_ & _ & _ & Hacc & _).
  destruct b; [|done]. exfalso. apply (Hacc eq_refl x Hin).
  apply list_elem_of_bind in Hx as ([i c] & Hc%elem_of_seqZ & Hr'). simpl in Hc.
  apply (Hu _ _ Hr'). done.
Qed.

Lemma message_ids_never_replayed_witness :
  let '(acc, w) := consume_all [(0, 1); (1, 4); (0, 1); (3, 1); (9, 2); (5, 4)] (mkMsgWin 0 ∅) in
  acc = [(0, 1); (1, 4); (9, 2); (5, 4)] ∧ mw_low w = 11 ∧
  Z.of_nat (size (mw_seen w)) ≤ MSG_SEEN_MAX.
Proof.
  pose proof (message_ids_never_replayed [(0, 1); (1, 4); (0, 1); (3, 1); (9, 2); (5, 4)]
    ltac:(repeat constructor; simpl; lia)) as H.
  destruct (consume_all _ _) as [acc w] eqn:E. destruct H as (_ & H & _).
  vm_compute in E. injection E as <- <-. split_and!; [done|done|exact H].
Defined.

(** ** In-order clients *)
Lemma advance_run n : ∀ fuel low,
  (n ≤ fuel)%nat →
  advance fuel (mkMsgWin low (id_range low (Z.of_nat n))) = mkMsgWin (low + Z.of_nat n) ∅.
Proof.
  induction n as [|n IH]; intros fuel low Hf.
  - assert (id_range low (Z.of_nat 0) = ∅) as -> by (apply set_eq; intros x; rewrite elem_of_id_range; set_solver by lia).
    destruct fuel; simpl; [by rewrite Z.add_0_r|]. rewrite bool_decide_false by set_solver.
    by rewrite Z.add_0_r.
  - destruct fuel as [|fuel]; [lia|]. cbn [advance mw_low mw_seen].
    rewrite bool_decide_true by (apply elem_of_id_range; lia).
    replace (id_range low (Z.of_nat (S n)) ∖ {[low]}) with (id_range (low + 1) (Z.of_nat n)).
    + rewrite IH by lia. f_equal. lia.
    + apply set_eq. intros x. rewrite elem_of_difference, elem_of_singleton, !elem_of_id_range. lia.
Qed.

(** C17: A client that numbers its requests in order is never refused: with no
    gap outstanding, the next id in sequence is accepted for any 16-bit
    charge (until the 64-bit ids run out), and the window then holds no ids at
    all and starts right after it. *)
Theorem in_order_ids_accepted low charge :
  0 ≤ low → 0 ≤ charge < 2 ^ 16 → low + Z.max charge 1 ≤ U64_MAX →
  consume_msg_ids low charge (mkMsgWin low ∅) = (true, mkMsgWin (low + Z.max charge 1) ∅).
Proof.
  intros Hl Hc Hb. unfold consume_msg_ids. set (n := Z.max charge 1) in *. cbn [mw_low mw_seen].
  rewrite (proj2 (Z.ltb_ge _ _)) by lia. rewrite (proj2 (Z.ltb_ge low low)) by lia.
  rewrite (proj2 (Z.ltb_ge _ _)) by (unfold MSG_WINDOW; lia). cbn [orb].
  rewrite bool_decide_false by (intros (x & Hx & _); set_solver).
  rewrite union_empty_l_L. f_equal. cbn [compact mw_seen].
  replace n with (Z.of_nat (Z.to_nat n)) by lia.
  assert (size (id_range low (Z.of_nat (Z.to_nat n))) = Z.to_nat n) as Hsz.
  { unfold id_range. rewrite size_list_to_set by apply NoDup_seqZ. rewrite length_seqZ. lia. }
  rewrite advance_run by lia. cbn [mw_seen]. by rewrite size_empty.
Qed.

Lemma in_order_ids_accepted_witness :
  consume_msg_ids 7 16 (mkMsgWin 7 ∅) = (true, mkMsgWin 23 ∅).
Proof. apply in_order_ids_accepted; by vm_compute. Defined.

(** ** The credit window *)

(** Credits outstanding after a history of requests (charge, requested). *)
Definition credits_after (reqs : list (Z * Z)) : Z :=
  foldl (λ out r, (grant_credits r.1 r.2 out).2) 0 reqs.

(** Credit accounting: whatever a client charges and requests, every
    response grants at least one credit (the client can always go on), at most
    what was asked for (or one), and the credits outstanding never exceed the
    512-credit window. *)
Theorem credits_stay_in_window reqs charge credits :
  let out := credits_after reqs in
  let '(grant, out') := grant_credits charge credits out in
  0 ≤ out ≤ CREDIT_WINDOW ∧ 1 ≤ grant ≤ Z.max credits 1 ∧ 0 ≤ out' ≤ CREDIT_WINDOW.
Proof.
  assert (∀ reqs out, 0 ≤ out ≤ CREDIT_WINDOW →
    0 ≤ foldl (λ out (r : Z * Z), (grant_credits r.1 r.2 out).2) out reqs ≤ CREDIT_WINDOW) as Hg.
  { clear. induction reqs as [|[c k] reqs IH]; intros out Ho; simpl; [done|]. apply IH.
    unfold grant_credits, CREDIT_WINDOW in *; simpl. lia. }
  specialize (Hg reqs 0 ltac:(unfold CREDIT_WINDOW; lia)). fold (credits_after reqs) in Hg. cbv zeta.
  unfold grant_credits, CREDIT_WINDOW in *. lia.
Qed.
