(* ===== verification/State.v ===== *)
(** The state a request handler runs on, and the helpers all handlers share.

    [World] is what the workers share: the system, the session registry, the
    lease table and the mailboxes. A request runs on one connection, in one
    compound chain, appending to one transmit buffer. [st_sess] is the session
    whose lock the handler holds (it is loaded from the registry and stored
    back by [with_session]). One dispatched command is one atomic step of the
    model. Models the helpers of src/smb2/handlers.rs. *)
From S2P Require Import Prelude Wire Status Os Lease Vfs Handles Crypto Session Config Smb2.
Local Open Scope Z_scope.

Section state.
Context `{Env}.

Record World := mkWorld {
  w_os : OsSt; w_sessions : Registry; w_leases : LeaseTable; w_mailboxes : list Mailbox }.

Record St := mkSt {
  st_w : World; st_pc : ProtoConn; st_chain : Chain; st_tx : bytes; st_sess : SessionInner }.

Definition M (A : Type) : Type := ST St A.

Definition w_set_os (o : OsSt) (w : World) : World :=
  mkWorld o (w_sessions w) (w_leases w) (w_mailboxes w).
Definition w_set_sessions (m : Registry) (w : World) : World :=
  mkWorld (w_os w) m (w_leases w) (w_mailboxes w).
Definition w_set_leases (l : LeaseTable) (w : World) : World :=
  mkWorld (w_os w) (w_sessions w) l (w_mailboxes w).
Definition w_set_mailboxes (l : list Mailbox) (w : World) : World :=
  mkWorld (w_os w) (w_sessions w) (w_leases w) l.

Definition st_set_w (w : World) (s : St) : St :=
  mkSt w (st_pc s) (st_chain s) (st_tx s) (st_sess s).
Definition st_set_pc (p : ProtoConn) (s : St) : St :=
  mkSt (st_w s) p (st_chain s) (st_tx s) (st_sess s).
Definition st_set_chain (c : Chain) (s : St) : St :=
  mkSt (st_w s) (st_pc s) c (st_tx s) (st_sess s).
Definition st_set_tx (b : bytes) (s : St) : St :=
  mkSt (st_w s) (st_pc s) (st_chain s) b (st_sess s).
Definition st_set_sess (x : SessionInner) (s : St) : St :=
  mkSt (st_w s) (st_pc s) (st_chain s) (st_tx s) x.

(** A system-call computation inside a handler. *)
Definition io {A} (m : IO A) : M A :=
  zoom (λ s, w_os (st_w s)) (λ o s, st_set_w (w_set_os o (st_w s)) s) m.

Definition upd_w (f : World → World) : M unit := modify (λ s, st_set_w (f (st_w s)) s).
Definition upd_pc (f : ProtoConn → ProtoConn) : M unit := modify (λ s, st_set_pc (f (st_pc s)) s).
Definition upd_chain (f : Chain → Chain) : M unit := modify (λ s, st_set_chain (f (st_chain s)) s).
Definition upd_sess (f : SessionInner → SessionInner) : M unit :=
  modify (λ s, st_set_sess (f (st_sess s)) s).
(** [tx.w(..)]. *)
Definition put (f : bytes → bytes) : M unit := modify (λ s, st_set_tx (f (st_tx s)) s).

Definition chain_set_sid (sid : Z) (c : Chain) : Chain :=
  mkChain (cn_related c) sid (cn_tree_id c) (cn_last_fid c) (cn_single c) (cn_transform_sid c).
Definition chain_set_tree (t : Z) (c : Chain) : Chain :=
  mkChain (cn_related c) (cn_session_id c) t (cn_last_fid c) (cn_single c) (cn_transform_sid c).
Definition chain_set_fid (f : Z) (c : Chain) : Chain :=
  mkChain (cn_related c) (cn_session_id c) (cn_tree_id c) (Some f) (cn_single c) (cn_transform_sid c).

(** ** Responses *)
Definition fail_resp (h : ReqHdr) (st : Z) : M unit :=
  c ← gets st_chain; put (err_resp h st c).

(** The success header on the chain's tree and session, then the body. *)
Definition ok_resp (h : ReqHdr) (body : bytes → bytes) : M unit :=
  c ← gets st_chain;
  put (λ tx, tx ▷ begin_resp h status.SUCCESS (cn_related c) (cn_tree_id c) (cn_session_id c) ▷ body).

Definition simple_resp (h : ReqHdr) : M unit := ok_resp h (λ tx, tx ▷ p16 4 ▷ p16 0).

(** All-ones means the previous handle of the compound chain. *)
Definition parse_fid (chain : Chain) : P Z :=
  persistent ← rd_u64; volatile ← rd_u64;
  if (persistent =? U64_MAX) && (volatile =? U64_MAX)
  then lift (cn_last_fid chain) else mret volatile.

Definition put_fid (fid : Z) (tx : bytes) : bytes := tx ▷ p64 fid ▷ p64 fid.

(** ** Handles of the locked session *)

(** [sess.handles.get(fid, chain.tree_id)]. *)
Definition get_handle (fid : Z) : M (option OpenFile) :=
  gets (λ s, ht_get fid (cn_tree_id (st_chain s)) (s_handles (st_sess s))).

(** Writing back what a handler changed through [&mut OpenFile]. *)
Definition set_handle (fid : Z) (f : OpenFile) : M unit :=
  upd_sess (λ x, s_set_handles (ht_set fid f (s_handles x)) x).

(** [sess.handles.remove(fid, tree_id)]. *)
Definition remove_handle (fid tree_id : Z) : M (option OpenFile) :=
  x ← gets st_sess;
  match ht_remove fid tree_id (s_handles x) with
  | Some (f, t) => upd_sess (s_set_handles t) ;; mret (Some f)
  | None => mret None
  end.

(** [Drop for OpenFile]: close the fd. *)
Definition drop_file (f : OpenFile) : M unit :=
  if 0 <=? of_fd f then io (do (c_close (of_fd f))) else mret tt.

(** Run [m] with session [sid]'s state loaded, and store it back. *)
Definition with_session {A} (sid : Z) (x : SessionInner) (m : M A) : M A := λ s,
  let '(r, s') := m (st_set_sess x s) in
  (r, st_set_w (w_set_sessions (<[sid := st_sess s']> (w_sessions (st_w s'))) (st_w s'))
        (st_set_sess (st_sess s) s')).

(** ** Lease breaks and closing *)

(** [if let Some(mb) = srv.mailboxes.get(b.wid) { mb.post(b) }]. *)
Definition post_break (l : list Mailbox) (b : BreakMsg) : list Mailbox :=
  if bm_wid b <? 0 then l
  else match l !! Z.to_nat (bm_wid b) with
       | Some mb => <[Z.to_nat (bm_wid b) := mailbox_post b mb]> l
       | None => l
       end.

Definition break_leases (key : Z * Z) (except : option bytes) : M unit :=
  upd_w (λ w, let '(msgs, l) := break_conflicts key except (w_leases w) in
              w_set_mailboxes (foldl post_break (w_mailboxes w) msgs) (w_set_leases l w)).

Definition finish_close (f : OpenFile) : M Z :=
  match of_oplock_ino f, of_lease_key f with
  | Some ino, Some lk =>
      if Z.land (of_lease_granted f) LEASE_HANDLE_CACHING =? 0
      then upd_w (λ w, w_set_leases (lease_release (of_share_idx f, ino) lk (w_leases w)) w)
      else mret tt
  | _, _ => mret tt
  end ;;
  if negb (of_delete_on_close f) then mret status.SUCCESS
  else
    (if of_is_dir f then mret tt
     else
       m ← io (fstat_meta (of_fd f));
       match m with
       | Ok m => break_leases (of_share_idx f, m_ino m) (of_lease_key f)
       | Err _ => mret tt
       end) ;;
    r ← io (if of_is_dir f then do (c_rmdir (of_path f)) else do (c_unlink (of_path f)));
    mret (match r with Ok _ => status.SUCCESS | Err e => from_errno (io_errno e) end).

(** [finish_close(srv, &of)] and then the drop of [of]. *)
Definition close_file (f : OpenFile) : M unit := finish_close f ;; drop_file f.

(** Complete the CHANGE_NOTIFYs pended on handle [fid]: each leaves
    [notify_active] and is queued with [NOTIFY_CLEANUP], in order. *)
Definition notify_cleanup (fid : Z) : M unit :=
  upd_pc (λ p, pc_set_notify (pc_next_async_id p) (pc_notify_new p)
    (pc_notify_done p ++ ((λ a : Z * Z, mkNotifyDone a.2 status.NOTIFY_CLEANUP) <$>
                          filter (λ a : Z * Z, a.1 = fid) (pc_notify_active p)))
    (filter (λ a : Z * Z, a.1 ≠ fid) (pc_notify_active p)) p).
End state.
