(* ===== verification/Negotiate.v ===== *)
(** NEGOTIATE: dialect and cipher selection, the SMB1 upgrade, the response.
    Models [negotiate], the [smb1_*] functions and [negotiate_body] of
    src/smb2/handlers.rs. *)
From S2P Require Import Prelude Wire Status Os Sample Vfs Crypto Ntlm Session Config Smb2 State.
Local Open Scope Z_scope.

Definition SUPPORTED_DIALECTS : list Z := [0x0311; 0x0302; 0x0300; 0x0210; 0x0202].
Definition CAP_LEASING : Z := 0x2.
Definition CAP_LARGE_MTU : Z := 0x4.
Definition CAP_MULTI_CHANNEL : Z := 0x8.
Definition SECURITY_MODE_SIGNING_ENABLED : Z := 0x1.
Definition SECURITY_MODE_SIGNING_REQUIRED : Z := 0x2.

(** [l.iter().find(p)]. *)
Definition find_first (p : Z → bool) (l : list Z) : option Z := snd <$> list_find (λ x, p x = true) l.
Definition contains (x : Z) (l : list Z) : bool := bool_decide (x ∈ l).

(** The first supported dialect, strongest first, that the client lists. *)
Definition choose_dialect (dialects : list Z) : option Z :=
  find_first (λ d, contains d dialects) SUPPORTED_DIALECTS.

Definition parse_negotiate (body : bytes) : option (list Z * Z * Z * ClientNeg) :=
  parse (sz ← rd_u16; _ ← ensure (sz =? 36);
         count ← rd_u16; secmode ← rd_u16; _ ← rd_skip 2; caps ← rd_u32; guid ← rd_take 16;
         ctx_off ← rd_u32; ctx_count ← rd_u16; _ ← rd_skip 2;
         dialects ← rd_repeat (Z.to_nat (Z.min count 16)) rd_u16;
         mret (dialects, ctx_off, ctx_count, mkClientNeg secmode caps guid)) body.

(** [for _ in 0..n { if r.u16()? == 1 { return Some(true) } } Some(false)]. *)
Fixpoint find_sha512 (n : nat) : P bool :=
  match n with
  | O => mret false
  | S n => a ← rd_u16; if a =? 1 then mret true else find_sha512 n
  end.

(** PREAUTH_INTEGRITY_CAPABILITIES lists SHA-512. *)
Definition preauth_ctx (data : bytes) : option bool :=
  parse (n ← rd_u16; _ ← rd_u16; find_sha512 (Z.to_nat (Z.min n 8))) data.

Definition supported_cipher (c : Z) : bool :=
  contains c [CIPHER_AES128_GCM; CIPHER_AES256_GCM; CIPHER_AES128_CCM; CIPHER_AES256_CCM].

(** The server's preference, or the client's order. *)
Definition choose_cipher (prefer_aes256 : bool) (offered : list Z) : Z :=
  if prefer_aes256
  then default 0 (find_first (λ c, contains c offered)
                    [CIPHER_AES256_GCM; CIPHER_AES256_CCM; CIPHER_AES128_GCM; CIPHER_AES128_CCM])
  else default 0 (head offered).

Definition encryption_ctx (prefer_aes256 : bool) (data : bytes) : option Z :=
  parse (n ← rd_u16; cs ← rd_repeat (Z.to_nat (Z.min n 8)) rd_u16;
         mret (choose_cipher prefer_aes256 (filter (λ c, supported_cipher c = true) cs))) data.

(** The negotiate-context loop: (have_preauth, cipher). *)
Fixpoint neg_contexts (n : nat) (prefer_aes256 : bool) (msg : bytes) (off : Z) (have_preauth : bool)
    (cipher : Z) : bool * Z :=
  match n with
  | O => (have_preauth, cipher)
  | S n =>
      match slice_from msg off ≫= parse (t ← rd_u16; l ← rd_u16; _ ← rd_skip 4; mret (t, l)) with
      | None => (have_preauth, cipher)
      | Some (t, data_len) =>
          let data := slice msg (off + 8) (off + 8 + data_len) in
          let have_preauth := if t =? 1 then bool_decide (data ≫= preauth_ctx = Some true) else have_preauth in
          let cipher := if t =? 2 then default cipher (data ≫= encryption_ctx prefer_aes256) else cipher in
          neg_contexts n prefer_aes256 msg ((off + 8 + data_len + 7) / 8 * 8) have_preauth cipher
      end
  end.

(** ** SMB1 *)
Definition SMB1_COM_NEGOTIATE : Z := 0x72.
Definition SMB1_PROTO : bytes := [0xFF; 0x53; 0x4D; 0x42].

(** The dialect strings; each iteration drops at least two bytes. Only ASCII
    names matter, so the bytes of a name stand for its characters. *)
Fixpoint smb1_dialects (fuel : nat) (b : bytes) (out : list bytes) : option (list bytes) :=
  match b with
  | [] => Some out
  | fmt :: rest =>
      match fuel with
      | O => None
      | S fuel =>
          if negb (fmt =? 0x02) then None
          else
            '(name, rest) ← split_once 0 rest;
            let out := out ++ [name] in
            if 64 <? len out then None else smb1_dialects fuel rest out
      end
  end.

Definition smb1_negotiate_dialects (frame : bytes) : option (list bytes) :=
  if (len frame <? 35) || negb (bool_decide (take 4 frame = SMB1_PROTO)) ||
     negb (bool_decide (frame !! 4%nat = Some SMB1_COM_NEGOTIATE)) then None
  else
    let wc := default 0 (frame !! 32%nat) in
    let bc_off := 33 + 2 * wc in
    bc ← slice frame bc_off (bc_off + 2);
    b ← slice_from frame (bc_off + 2);
    let b := take (Z.to_nat (le_val bc)) b in
    smb1_dialects (length b) b [].

Definition smb1_offers_smb2 (dialects : list bytes) : bool :=
  existsb (λ d, bool_decide (d = lit "SMB 2.002" ∨ d = lit "SMB 2.???")) dialects.

Definition smb1_negotiate_refuse (req : bytes) (tx : bytes) : bytes :=
  tx ▷ pbytes (SMB1_PROTO ++ [SMB1_COM_NEGOTIATE]) ▷ p32 0 ▷ p8 0x80
     ▷ pbytes (sub req 10 12) ▷ pbytes (sub req 12 14) ▷ zeros 8 ▷ p16 0
     ▷ pbytes (sub req 24 32) ▷ p8 1 ▷ p16 0xFFFF ▷ p16 0.

Section negotiate.
Context `{Env}.

Definition server_secmode (cfg : Config) : Z :=
  if signing_required_cfg cfg
  then Z.lor SECURITY_MODE_SIGNING_ENABLED SECURITY_MODE_SIGNING_REQUIRED
  else SECURITY_MODE_SIGNING_ENABLED.

Definition negotiated_caps (cfg : Config) (dialect : Z) : Z :=
  let caps := CAP_LARGE_MTU in
  let caps := if (0x0300 <=? dialect) && cf_multichannel cfg then Z.lor caps CAP_MULTI_CHANNEL else caps in
  if (0x0210 <=? dialect) && cf_oplocks cfg then Z.lor caps CAP_LEASING else caps.

(** The 3.1.1 contexts, after padding, and the patches of the fixed body. *)
Definition negotiate_contexts (cipher resp_start : Z) (salt : bytes) (tx : bytes) : bytes :=
  let body := resp_start + 64 in
  let tx := tx ▷ pad8 resp_start in
  let ctx_off := len tx - resp_start in
  let tx := tx ▷ p16 1 ▷ p16 38 ▷ p32 0 ▷ p16 1 ▷ p16 32 ▷ p16 1 ▷ pbytes salt in
  let '(tx, count) :=
    if negb (cipher =? 0)
    then (tx ▷ pad8 resp_start ▷ p16 2 ▷ p16 4 ▷ p32 0 ▷ p16 1 ▷ p16 cipher, 2)
    else (tx, 1) in
  let tx := tx ▷ patch32 (body + 60) ctx_off in
  patch tx (body + 6) (le_bytes 2 count).

Definition negotiate_body (srv : Srv) (dialect cipher resp_start : Z) : M unit :=
  let hint := spnego_hint in
  let caps := negotiated_caps (srv_cfg srv) dialect in
  upd_pc (pc_set_server_caps caps) ;;
  max_read ← gets (λ s, pc_max_read (st_pc s));
  now ← io filetime_now;
  put (λ tx, tx ▷ p16 65 ▷ p16 (server_secmode (srv_cfg srv)) ▷ p16 dialect ▷ p16 0
       ▷ pbytes (srv_guid srv) ▷ p32 caps ▷ p32 MAX_TRANSACT ▷ p32 max_read ▷ p32 MAX_WRITE
       ▷ p64 now ▷ p64 (srv_start_ft srv) ▷ p16 128 ▷ p16 (len hint) ▷ p32 0 ▷ pbytes hint) ;;
  if dialect =? 0x0311 then
    salt ← io (urandom 32);
    put (negotiate_contexts cipher resp_start salt)
  else mret tt.

Definition negotiate (srv : Srv) (h : ReqHdr) (msg : bytes) : M unit :=
  let parsed := parse_negotiate (drop 64 msg) in
  negotiated ← gets (λ s, pc_negotiated (st_pc s));
  if (negotiated : bool) then upd_pc (pc_set_close true)
  else
    match parsed with
    | None => fail_resp h status.INVALID_PARAMETER
    | Some (dialects, ctx_off, ctx_count, client_neg) =>
        match choose_dialect dialects with
        | None => fail_resp h status.NOT_SUPPORTED
        | Some chosen =>
            let '(have_preauth, cipher) :=
              if chosen =? 0x0311
              then neg_contexts (Z.to_nat (Z.min ctx_count 16)) (cf_prefer_aes256 (srv_cfg srv))
                     msg ctx_off false 0
              else (true, 0) in
            if negb have_preauth then fail_resp h status.INVALID_PARAMETER
            else
              upd_pc (pc_set_negotiated chosen cipher client_neg) ;;
              start ← gets (λ s, len (st_tx s));
              put (begin_resp h status.SUCCESS false 0 0) ;;
              negotiate_body srv chosen cipher start
        end
    end.

Definition negotiate_resp_smb1_wildcard (srv : Srv) : M unit :=
  let h := mkReqHdr 0 cmd.NEGOTIATE 1 0 0 0 0 0 None in
  start ← gets (λ s, len (st_tx s));
  put (begin_resp h status.SUCCESS false 0 0) ;;
  negotiate_body srv 0x02FF 0 start.
End negotiate.
