(* ===== verification/Setup.v ===== *)
(** SESSION_SETUP, LOGOFF and the end of sessions and connections. Models
    [session_setup], [ntlm_session_setup], [kerberos_session_setup], [logoff],
    [end_session] and [teardown_conn] of src/smb2/handlers.rs, as built with
    NTLM, and with Kerberos when [kerberos] of the environment says so. *)
From S2P Require Import Prelude Wire Status Os Sample Lease Vfs Handles Spnego Crypto Ntlm Session.
From S2P Require Import Config Gss Smb2 State Negotiate.
Local Open Scope Z_scope.

Definition SESSION_FLAG_IS_GUEST : Z := 0x1.
Definition SESSION_FLAG_ENCRYPT_DATA : Z := 0x4.
Definition SESSION_FLAG_BINDING : Z := 0x01.
Definition MAX_PENDING_SETUPS : Z := 4.

(** The security buffer of a request: [msg.get(off..off + len)], or empty. *)
Definition sec_buffer (msg : bytes) (off n : Z) : option bytes :=
  if n =? 0 then Some [] else slice msg off (off + n).

Definition parse_setup_blob (msg : bytes) : option bytes :=
  parse (sz ← rd_u16; _ ← ensure (sz =? 25); _ ← rd_skip (1 + 1 + 4 + 4);
         off ← rd_u16; n ← rd_u16; lift (sec_buffer msg off n)) (drop 64 msg).

Definition parse_setup (msg : bytes) : option (Z * Z * bytes) :=
  parse (sz ← rd_u16; _ ← ensure (sz =? 25); flags ← rd_u8; secmode ← rd_u8; _ ← rd_skip (4 + 4);
         off ← rd_u16; n ← rd_u16; _ ← rd_u64; blob ← lift (sec_buffer msg off n);
         mret (flags, secmode, blob)) (drop 64 msg).

Section setup.
Context `{Env}.

Definition ss_resp (h : ReqHdr) (st : Z) (related : bool) (sid flags : Z) (blob : bytes) (tx : bytes) : bytes :=
  tx ▷ begin_resp h st related 0 sid ▷ p16 9 ▷ p16 flags ▷ p16 72 ▷ p16 (len blob) ▷ pbytes blob.

Definition put_ss (h : ReqHdr) (st sid flags : Z) (blob : bytes) : M unit :=
  c ← gets st_chain; put (ss_resp h st (cn_related c) sid flags blob).

(** ** The end of a session *)
Definition end_session (sid : Z) : M unit :=
  m ← gets (λ s, w_sessions (st_w s));
  let '(x, m) := reg_remove sid m in
  upd_w (w_set_sessions m) ;;
  match x with
  | Some x => for_each (ht_take_all (s_handles x)).1 close_file
  | None => mret tt
  end.

(** [s.channels = s.channels.saturating_sub(1)] on the registered session;
    returns whether none is left. *)
Definition drop_channel (sid : Z) (x : SessionInner) : M bool :=
  let n := Z.max (s_channels x - 1) 0 in
  upd_w (λ w, w_set_sessions (<[sid := s_set_channels n x]> (w_sessions w)) w) ;;
  mret (n =? 0).

Definition logoff (h : ReqHdr) : M unit :=
  sid ← gets (λ s, cn_session_id (st_chain s));
  chans ← gets (λ s, pc_channels (st_pc s));
  if negb (match chans !! sid with Some c => ch_established c | None => false end)
  then fail_resp h status.USER_SESSION_DELETED
  else
    upd_pc (λ p, pc_set_channels (delete sid (pc_channels p)) p) ;;
    m ← gets (λ s, w_sessions (st_w s));
    match reg_get sid m with
    | Some x => last ← drop_channel sid x; if (last : bool) then end_session sid else mret tt
    | None => mret tt
    end ;;
    simple_resp h.

(** One channel of a connection that is gone. *)
Definition teardown_channel (p : Z * ChannelState) : M unit :=
  let '(sid, ch) := p in
  m ← gets (λ s, w_sessions (st_w s));
  match reg_get sid m with
  | None => mret tt
  | Some x =>
      e ← (if ch_established ch then drop_channel sid x else mret (negb (s_established x)));
      if (e : bool) then end_session sid else mret tt
  end.

(** [pc.channels.drain()] yields the channels in no particular order. *)
Definition teardown_conn : M unit :=
  chans ← gets (λ s, pc_channels (st_pc s));
  upd_pc (pc_set_channels ∅) ;;
  for_each (map_to_list chans) teardown_channel.

(** ** NTLM *)

(** The channel's own encryption keys. *)
Definition channel_enc (cipher dialect : Z) (key preauth : bytes) : option EncCtx :=
  if negb (cipher =? 0) && (dialect =? 0x0311)
  then let '(c2s, s2c) := smb311_encryption_keys cipher key preauth in
       Some (mkEncCtx cipher c2s s2c 0)
  else None.

(** [encrypt = true] with no cipher to seal with. *)
Definition cannot_seal (srv : Srv) (cipher dialect : Z) : bool :=
  cf_encrypt (srv_cfg srv) && negb (negb (cipher =? 0) && (dialect =? 0x0311)).

(** The state of a channel that has authenticated as a user. *)
Definition established_channel (srv : Srv) (signing : bool) (cipher dialect : Z) (key : bytes)
    (c : ChannelState) : ChannelState :=
  let enc := channel_enc cipher dialect key (ch_preauth c) in
  mkChannelState true signing (Some (derive_sign_ctx dialect key (ch_preauth c)))
    (ch_pending c) (ch_preauth c)
    (match enc with Some e => Some e | None => ch_enc c end)
    (match enc with Some _ => cf_encrypt (srv_cfg srv) || ch_encrypt c | None => ch_encrypt c end)
    (ch_krb_pending c).

Definition ss_enc_flag (srv : Srv) (cipher dialect : Z) : Z :=
  if negb (cipher =? 0) && (dialect =? 0x0311) && cf_encrypt (srv_cfg srv)
  then SESSION_FLAG_ENCRYPT_DATA else 0.

(** Refuse a setup and forget what it created. *)
Definition drop_setup (sid : Z) : M unit :=
  upd_pc (λ p, pc_set_channels (delete sid (pc_channels p)) p) ;;
  upd_w (λ w, w_set_sessions (reg_remove sid (w_sessions w)).2 w).

Inductive Verdict := VUser (key : bytes) (user : str) | VGuest | VReject.

Definition verdict (srv : Srv) (auth : option Authenticate) (chal : bytes) : Verdict :=
  let no_user := if srv_allow_guest srv then VGuest else VReject in
  match auth with
  | Some a =>
      if is_anonymous a then no_user
      else match srv_users srv !! to_lowercase (au_user a) with
           | Some nt =>
               match verify_ntlmv2 nt a chal with
               | Some key => VUser key (au_user a)
               | None => VReject
               end
           | None => no_user
           end
  | None => no_user
  end.

(** May this message bind a channel to session [x]? *)
Definition bind_ok (srv : Srv) (x : SessionInner) (auth : option Authenticate) (chal : bytes) : bool :=
  if negb (s_established x) || s_guest x then false
  else
    match auth with
    | Some a =>
        if is_anonymous a then false
        else eq_ignore_case (au_user a) (s_user x) &&
             match srv_users srv !! to_lowercase (au_user a) with
             | Some nt => match verify_ntlmv2 nt a chal with Some _ => true | None => false end
             | None => false
             end
    | None => false
    end.

(** The first leg: NTLMSSP NEGOTIATE. *)
Definition ntlm_negotiate (srv : Srv) (h : ReqHdr) (msg : bytes) (binding spnego : bool) : M unit :=
  pc ← gets st_pc; m ← gets (λ s, w_sessions (st_w s));
  let go sid : M unit :=
    upd_chain (chain_set_sid sid) ;;
    chal ← io (urandom 8);
    let preauth := if pc_dialect pc =? 0x0311 then sha512 [pc_preauth_neg pc; msg] else pc_preauth_neg pc in
    let ch := ch_set_preauth preauth (ch_set_pending (Some (mkPendingAuth chal spnego binding)) channel_default) in
    upd_pc (λ p, pc_set_channels (<[sid := ch]> (pc_channels p)) p) ;;
    let token := challenge (cf_server_name (srv_cfg srv)) chal in
    let token := if spnego then spnego_wrap_challenge token else token in
    put_ss h status.MORE_PROCESSING_REQUIRED sid 0 token in
  if binding then
    if negb (cf_multichannel (srv_cfg srv)) || (pc_dialect pc <? 0x0300)
    then fail_resp h status.REQUEST_NOT_ACCEPTED
    else
      let bindable := match reg_get (h_session_id h) m with
                      | Some x => s_established x && negb (s_guest x)
                      | None => false
                      end in
      if (h_session_id h =? 0) || negb bindable then fail_resp h status.USER_SESSION_DELETED
      else if match pc_channels pc !! h_session_id h with Some c => ch_established c | None => false end
      then fail_resp h status.REQUEST_NOT_ACCEPTED
      else go (h_session_id h)
  else
    let pending := len (filter (λ p : Z * ChannelState, ch_established p.2 = false)
                          (map_to_list (pc_channels pc))) in
    if MAX_PENDING_SETUPS <=? pending then fail_resp h status.INSUFFICIENT_RESOURCES
    else
      '(sid, m) ← io (reg_create m);
      upd_w (w_set_sessions m) ;;
      go sid.

(** Binding another channel to an established session. *)
Definition ntlm_bind (srv : Srv) (h : ReqHdr) (sid : Z) (x : SessionInner) (ch : ChannelState)
    (auth : option Authenticate) (chal : bytes) (signing : bool) (done : bytes) : M unit :=
  pc ← gets st_pc;
  if negb (bind_ok srv x auth chal) || cannot_seal srv (pc_cipher pc) (pc_dialect pc)
  then
    upd_pc (λ p, pc_set_channels (delete sid (pc_channels p)) p) ;;
    fail_resp h status.ACCESS_DENIED
  else
    upd_w (λ w, w_set_sessions (<[sid := s_set_channels (wrap 32 (s_channels x + 1)) x]> (w_sessions w)) w) ;;
    upd_pc (λ p, pc_set_channels (<[sid := established_channel srv signing (pc_cipher pc) (pc_dialect pc)
                                              (s_session_key x) ch]> (pc_channels p)) p) ;;
    put_ss h status.SUCCESS sid (ss_enc_flag srv (pc_cipher pc) (pc_dialect pc)) done.

(** The first authentication on a fresh session. *)
Definition ntlm_first (srv : Srv) (h : ReqHdr) (sid : Z) (x : SessionInner) (ch : ChannelState)
    (auth : option Authenticate) (chal : bytes) (signing : bool) (done : bytes) : M unit :=
  pc ← gets st_pc;
  match verdict srv auth chal with
  | VUser key user =>
      if cannot_seal srv (pc_cipher pc) (pc_dialect pc)
      then drop_setup sid ;; fail_resp h status.ACCESS_DENIED
      else
        upd_w (λ w, w_set_sessions
          (<[sid := mkSessionInner key true false signing user (s_kerberos x) (s_pac x) (s_trees x)
                      (s_next_tree_id x) (s_handles x) 1]> (w_sessions w)) w) ;;
        upd_pc (λ p, pc_set_channels (<[sid := established_channel srv signing (pc_cipher pc) (pc_dialect pc)
                                                  key ch]> (pc_channels p)) p) ;;
        put_ss h status.SUCCESS sid (ss_enc_flag srv (pc_cipher pc) (pc_dialect pc)) done
  | VGuest =>
      if cf_encrypt (srv_cfg srv)
      then drop_setup sid ;; fail_resp h status.ACCESS_DENIED
      else
        upd_w (λ w, w_set_sessions
          (<[sid := mkSessionInner (s_session_key x) true true (s_signing_required x) (s_user x)
                      (s_kerberos x) (s_pac x) (s_trees x) (s_next_tree_id x) (s_handles x) 1]>
             (w_sessions w)) w) ;;
        upd_pc (λ p, pc_set_channels
          (<[sid := mkChannelState true (ch_signing_required ch) (ch_sign ch) (ch_pending ch)
                      (ch_preauth ch) (ch_enc ch) (ch_encrypt ch) (ch_krb_pending ch)]> (pc_channels p)) p) ;;
        put_ss h status.SUCCESS sid SESSION_FLAG_IS_GUEST done
  | VReject => drop_setup sid ;; fail_resp h status.LOGON_FAILURE
  end.

(** The second leg: NTLMSSP AUTHENTICATE. *)
Definition ntlm_authenticate (srv : Srv) (h : ReqHdr) (msg blob : bytes) (spnego signing : bool) : M unit :=
  let sid := h_session_id h in
  upd_chain (chain_set_sid sid) ;;
  pc ← gets st_pc;
  match pc_channels pc !! sid with
  | None => fail_resp h status.USER_SESSION_DELETED
  | Some ch =>
      let ch := if pc_dialect pc =? 0x0311 then ch_set_preauth (sha512 [ch_preauth ch; msg]) ch else ch in
      let pending := ch_pending ch in
      let ch := ch_set_pending None ch in
      upd_pc (λ p, pc_set_channels (<[sid := ch]> (pc_channels p)) p) ;;
      match pending with
      | None =>
          put_ss h status.SUCCESS sid
            (match ch_sign ch with None => SESSION_FLAG_IS_GUEST | Some _ => 0 end) []
      | Some pending =>
          let done := if pa_spnego pending || spnego then spnego_accept_completed else [] in
          m ← gets (λ s, w_sessions (st_w s));
          match reg_get sid m with
          | None => fail_resp h status.USER_SESSION_DELETED
          | Some x =>
              let auth := parse_authenticate blob in
              if pa_binding pending
              then ntlm_bind srv h sid x ch auth (pa_challenge pending) signing done
              else ntlm_first srv h sid x ch auth (pa_challenge pending) signing done
          end
      end
  end.

(** No NTLMSSP token at all: guest if allowed. *)
Definition ntlm_anonymous (srv : Srv) (h : ReqHdr) : M unit :=
  if srv_allow_guest srv && cf_encrypt (srv_cfg srv) then fail_resp h status.ACCESS_DENIED
  else if srv_allow_guest srv then
    m ← gets (λ s, w_sessions (st_w s));
    '(sid, m) ← io (reg_create m);
    upd_w (w_set_sessions
      (<[sid := mkSessionInner (replicate 16 0) true true false [] false None ∅ 0 ht_empty 1]> m)) ;;
    upd_pc (λ p, pc_set_channels
      (<[sid := mkChannelState true false None None (pc_preauth_neg p) None false None]> (pc_channels p)) p) ;;
    upd_chain (chain_set_sid sid) ;;
    put_ss h status.SUCCESS sid SESSION_FLAG_IS_GUEST []
  else fail_resp h status.LOGON_FAILURE.

Definition ntlm_session_setup (srv : Srv) (h : ReqHdr) (msg : bytes) : M unit :=
  match parse_setup msg with
  | None => fail_resp h status.INVALID_PARAMETER
  | Some (ss_flags, client_secmode, blob) =>
      let spnego := is_spnego blob in
      let binding := has_bits ss_flags SESSION_FLAG_BINDING in
      let signing := signing_required_cfg (srv_cfg srv) ||
                     has_bits client_secmode SECURITY_MODE_SIGNING_REQUIRED in
      match ntlm_classify blob with
      | TNegotiate => ntlm_negotiate srv h msg binding spnego
      | TAuthenticate => ntlm_authenticate srv h msg blob spnego signing
      | TOther => ntlm_anonymous srv h
      end
  end.

(** ** Kerberos *)

(** The connection's acceptor credential, acquired on first use, or the
    status to answer with. *)
Definition krb_acceptor (srv : Srv) : M (result Z Z) :=
  pc ← gets st_pc;
  match pc_krb_acceptor pc with
  | Some a => mret (Ok a)
  | None =>
      if match cf_kerberos (srv_cfg srv) with Some k => negb (kc_enabled k) | None => false end
      then mret (Err status.NOT_SUPPORTED)
      else
        r ← io (acceptor_new (krb_acceptor_name (srv_cfg srv)));
        match r with
        | Ok a => upd_pc (pc_set_krb_acceptor (Some a)) ;; mret (Ok a)
        | Err _ => mret (Err status.LOGON_FAILURE)
        end
  end.

(** Take the GSS context the channel of the request keeps from its last leg:
    [pc.channels.get_mut(&h.session_id).and_then(|c| c.krb_pending.take())]. *)
Definition krb_take (h : ReqHdr) : M (option Z) :=
  pc ← gets st_pc;
  match pc_channels pc !! h_session_id h with
  | Some c =>
      upd_pc (λ p, pc_set_channels (<[h_session_id h := ch_set_krb None c]> (pc_channels p)) p) ;;
      mret (ch_krb_pending c)
  | None => mret None
  end.

(** The token for the client, in SPNEGO when the request was. *)
Definition krb_token (wrapped : bool) (state : Z) (out : bytes) : bytes :=
  if wrapped then neg_resp state Krb5 out else out.

(** The session of a multi-leg exchange is forgotten when it fails. *)
Definition krb_forget (existing : option Z) : M unit :=
  match existing with Some sid => drop_setup sid | None => mret tt end.

(** Keep the context of an unfinished exchange on the channel of [sid]. *)
Definition krb_keep (h : ReqHdr) (sid ctx : Z) (preauth : bytes) (wrapped : bool) (out : bytes) : M unit :=
  upd_pc (λ p, pc_set_channels
    (<[sid := ch_set_preauth preauth (ch_set_krb (Some ctx) (default channel_default (pc_channels p !! sid)))]>
       (pc_channels p)) p) ;;
  upd_chain (chain_set_sid sid) ;;
  put_ss h status.MORE_PROCESSING_REQUIRED sid 0 (krb_token wrapped ACCEPT_INCOMPLETE out).

(** More legs: a first one creates the session. *)
Definition krb_continue (srv : Srv) (h : ReqHdr) (existing : option Z) (ctx : Z) (preauth : bytes)
    (wrapped : bool) (out : bytes) : M unit :=
  pc ← gets st_pc; m ← gets (λ s, w_sessions (st_w s));
  match existing with
  | Some sid => krb_keep h sid ctx preauth wrapped out
  | None =>
      let pending := len (filter (λ p : Z * ChannelState, ch_established p.2 = false)
                            (map_to_list (pc_channels pc))) in
      if MAX_PENDING_SETUPS <=? pending
      then fail_resp h status.INSUFFICIENT_RESOURCES ;; io (ctx_drop ctx)
      else '(sid, m) ← io (reg_create m); upd_w (w_set_sessions m) ;; krb_keep h sid ctx preauth wrapped out
  end.

(** The SMB session key: the first 16 bytes of the Kerberos one, padded. *)
Definition krb_key (k : bytes) : bytes := take 16 (k ++ replicate 16 0).

(** The channel of an authenticated principal. *)
Definition krb_channel (srv : Srv) (signing : bool) (cipher dialect : Z) (key preauth : bytes) : ChannelState :=
  let enc := channel_enc cipher dialect key preauth in
  mkChannelState true signing (Some (derive_sign_ctx dialect key preauth)) None preauth enc
    (match enc with Some _ => cf_encrypt (srv_cfg srv) | None => false end) None.

(** The exchange is complete. *)
Definition krb_done (srv : Srv) (h : ReqHdr) (existing : option Z) (preauth : bytes) (signing wrapped : bool)
    (est : Established) : M unit :=
  pc ← gets st_pc;
  if cannot_seal srv (pc_cipher pc) (pc_dialect pc)
  then krb_forget existing ;; fail_resp h status.ACCESS_DENIED
  else
    let key := krb_key (es_session_key est) in
    m ← gets (λ s, w_sessions (st_w s));
    '(sid, m) ← match existing ≫= λ sid, x ← reg_get sid m; Some sid with
                | Some sid => mret (sid, m)
                | None => io (reg_create m)
                end;
    let x := default session_new (reg_get sid m) in
    upd_chain (chain_set_sid sid) ;;
    upd_w (w_set_sessions
      (<[sid := mkSessionInner key true false signing (es_client est) true (es_pac est) (s_trees x)
                  (s_next_tree_id x) (s_handles x) 1]> m)) ;;
    upd_pc (λ p, pc_set_channels
      (<[sid := krb_channel srv signing (pc_cipher pc) (pc_dialect pc) key preauth]> (pc_channels p)) p) ;;
    put_ss h status.SUCCESS sid (ss_enc_flag srv (pc_cipher pc) (pc_dialect pc))
      (krb_token wrapped ACCEPT_COMPLETED (es_out est)).

Definition kerberos_session_setup (srv : Srv) (h : ReqHdr) (msg : bytes) : M unit :=
  match parse_setup msg with
  | None => fail_resp h status.INVALID_PARAMETER
  | Some (_, client_secmode, blob) =>
      let incoming := classify blob in
      let signing := signing_required_cfg (srv_cfg srv) ||
                     has_bits client_secmode SECURITY_MODE_SIGNING_REQUIRED in
      acc ← krb_acceptor srv;
      match acc with
      | Err st => fail_resp h st
      | Ok acc =>
          taken ← krb_take h;
          pc ← gets st_pc;
          let existing := match taken with Some _ => Some (h_session_id h) | None => None end in
          let base := match existing with
                      | Some sid => default (pc_preauth_neg pc) (ch_preauth <$> pc_channels pc !! sid)
                      | None => pc_preauth_neg pc
                      end in
          let preauth := if pc_dialect pc =? 0x0311 then sha512 [base; msg] else replicate 64 0 in
          '(step, ctx) ← io (gss_step (default 0 taken) acc (in_token incoming));
          match step with
          | Done est => io (ctx_drop ctx) ;; krb_done srv h existing preauth signing (in_spnego incoming) est
          | Continue out => krb_continue srv h existing ctx preauth (in_spnego incoming) out
          | Failed e => krb_forget existing ;; fail_resp h (status_for_failure e) ;; io (ctx_drop ctx)
          end
      end
  end.

(** A later leg of a Kerberos exchange need not name the mechanism: the
    channel's pending context decides. *)
Definition setup_mech (h : ReqHdr) (blob : bytes) (pc : ProtoConn) : Mech :=
  if kerberos && bool_decide (is_Some (pc_channels pc !! h_session_id h ≫= ch_krb_pending))
  then Krb5 else in_mech (classify blob).

Definition session_setup (srv : Srv) (h : ReqHdr) (msg : bytes) : M unit :=
  match parse_setup_blob msg with
  | None => fail_resp h status.INVALID_PARAMETER
  | Some blob =>
      pc ← gets st_pc;
      match setup_mech h blob pc with
      | Krb5 =>
          if allows_kerberos (cf_auth (srv_cfg srv)) && kerberos then kerberos_session_setup srv h msg
          else fail_resp h status.NOT_SUPPORTED
      | Ntlmssp | MechUnknown =>
          if allows_ntlm (cf_auth (srv_cfg srv)) then ntlm_session_setup srv h msg
          else fail_resp h status.NOT_SUPPORTED
      end
  end.
End setup.
