(* ===== verification/Create.v ===== *)
(** TREE_CONNECT, TREE_DISCONNECT and CREATE. Models [tree_connect],
    [parse_create], [parse_lease_ctx] and [create] of src/smb2/handlers.rs. *)
From S2P Require Import Prelude Wire Status Os Sample Lease Vfs Handles Session Config Authz Smb2 State.
Local Open Scope Z_scope.

Definition WRITE_BITS : Z := 0x50000006.
Definition MAXIMUM_ALLOWED : Z := 0x02000000.
(** [WRITE_BITS | DELETE | WRITE_EA | WRITE_ATTRIBUTES | WRITE_DAC | WRITE_OWNER]. *)
Definition READ_ONLY_DENIED : Z :=
  Z.lor WRITE_BITS (Z.lor 0x00010000 (Z.lor 0x10 (Z.lor 0x100 (Z.lor 0x00040000 0x00080000)))).

Definition FILE_SUPERSEDE : Z := 0.
Definition FILE_OPEN : Z := 1.
Definition FILE_CREATE : Z := 2.
Definition FILE_OPEN_IF : Z := 3.
Definition FILE_OVERWRITE : Z := 4.
Definition FILE_OVERWRITE_IF : Z := 5.

Definition FILE_DIRECTORY_FILE : Z := 0x0001.
Definition FILE_NON_DIRECTORY_FILE : Z := 0x0040.
Definition FILE_DELETE_ON_CLOSE : Z := 0x1000.

Definition CREATE_ACTION_OPENED : Z := 1.
Definition CREATE_ACTION_CREATED : Z := 2.
Definition CREATE_ACTION_OVERWRITTEN : Z := 3.

Definition MAXIMAL_ACCESS_ALL : Z := 0x001F01FF.
Definition MAXIMAL_ACCESS_READ : Z := 0x001200A9.
Definition MAX_OPENS_PER_SESSION : Z := 16384.
Definition MAX_TREES_PER_SESSION : Z := 1024.

(** ** Parsing *)
Record LeaseReq := mkLeaseReq { lr_key : bytes; lr_state : Z; lr_v2 : bool; lr_parent : bytes; lr_epoch : Z }.
Record CreateReq := mkCreateReq {
  cr_desired : Z; cr_disposition : Z; cr_options : Z; cr_name : str; cr_oplock : Z;
  cr_lease : option LeaseReq }.

(** The lease request in the data of an RqLs context. *)
Definition lease_data (data : bytes) : LeaseReq :=
  let v2 := 52 <=? len data in
  mkLeaseReq (sub data 0 16) (le_val (sub data 16 20)) v2
    (if v2 then sub data 32 48 else replicate 16 0) (if v2 then le_val (sub data 48 50) else 0).

(** The context list; every step drops at least one byte. *)
Fixpoint parse_lease_ctx_fuel (fuel : nat) (buf : bytes) : option LeaseReq :=
  match fuel with
  | O => None
  | S fuel =>
      if len buf <? 16 then None
      else
        let next := le_val (sub buf 0 4) in
        let name_off := le_val (sub buf 4 6) in
        let name_len := le_val (sub buf 6 8) in
        let data_off := le_val (sub buf 10 12) in
        let data_len := le_val (sub buf 12 16) in
        let found :=
          if name_len =? 4 then
            match slice buf name_off (name_off + 4), slice buf data_off (data_off + data_len) with
            | Some nm, Some data =>
                if bool_decide (nm = CTX_NAME_RQLS) && (32 <=? len data) then Some (lease_data data) else None
            | _, _ => None
            end
          else None in
        match found with
        | Some l => Some l
        | None =>
            if (next =? 0) || (len buf <=? next) then None
            else parse_lease_ctx_fuel fuel (drop (Z.to_nat next) buf)
        end
  end.
Definition parse_lease_ctx (buf : bytes) : option LeaseReq := parse_lease_ctx_fuel (length buf) buf.

Definition parse_create (msg : bytes) : option CreateReq :=
  body ← slice_from msg 64;
  parse (sz ← rd_u16; _ ← ensure (sz =? 57);
         _ ← rd_skip 1; oplock ← rd_u8; _ ← rd_skip (4 + 8 + 8);
         desired ← rd_u32; _ ← rd_u32; _ ← rd_u32; disposition ← rd_u32; options ← rd_u32;
         name_off ← rd_u16; name_len ← rd_u16; cc_off ← rd_u32; cc_len ← rd_u32;
         name ← (if name_len =? 0 then mret []
                 else s ← lift (slice msg name_off (name_off + name_len)); mret (from_utf16le s));
         let lease := if 0 <? cc_len then slice msg cc_off (cc_off + cc_len) ≫= parse_lease_ctx else None in
         mret (mkCreateReq desired disposition options name oplock lease)) body.

(** [path.rsplit('\\').next()] of the tree path. *)
Definition parse_tree_connect (msg : bytes) : option str :=
  parse (sz ← rd_u16; _ ← ensure (sz =? 9); _ ← rd_skip 2; off ← rd_u16; n ← rd_u16;
         s ← lift (slice msg off (off + n)); mret (from_utf16le s)) (drop 64 msg).

(** The flags of the [open] for a file. *)
Definition create_flags (disposition : Z) (try_rw : bool) : Z :=
  let flags :=
    if disposition =? FILE_CREATE then Z.lor oflag.CREAT oflag.EXCL
    else if disposition =? FILE_OPEN_IF then oflag.CREAT
    else if disposition =? FILE_OVERWRITE then oflag.TRUNC
    else if (disposition =? FILE_OVERWRITE_IF) || (disposition =? FILE_SUPERSEDE)
    then Z.lor oflag.CREAT oflag.TRUNC
    else 0 in
  Z.lor flags (if try_rw then oflag.RDWR else oflag.RDONLY).

Definition creates_file (disposition : Z) : bool :=
  bool_decide (disposition ∈ [FILE_SUPERSEDE; FILE_CREATE; FILE_OVERWRITE; FILE_OVERWRITE_IF]).

(** The refusals of CREATE that depend on what is there already, in order. *)
Definition create_refused (req : CreateReq) (read_only exists_ existing_dir : bool) (rel : str) : option Z :=
  let delete_on_close := has_bits (cr_options req) FILE_DELETE_ON_CLOSE in
  let dir_requested := has_bits (cr_options req) FILE_DIRECTORY_FILE in
  if read_only && negb exists_ && (cr_disposition req =? FILE_OPEN_IF) then Some status.ACCESS_DENIED
  else if delete_on_close && bool_decide (rel = []) then Some status.ACCESS_DENIED
  else if exists_ && (cr_disposition req =? FILE_CREATE) then Some status.OBJECT_NAME_COLLISION
  else if negb exists_ && ((cr_disposition req =? FILE_OPEN) || (cr_disposition req =? FILE_OVERWRITE))
  then Some status.OBJECT_NAME_NOT_FOUND
  else if existing_dir && has_bits (cr_options req) FILE_NON_DIRECTORY_FILE
  then Some status.FILE_IS_A_DIRECTORY
  else if exists_ && negb existing_dir && dir_requested then Some status.NOT_A_DIRECTORY
  else None.

(** The CREATE response after the header. *)
Definition create_body (action : Z) (meta : Meta) (attrs fid : Z) (lease : option (LeaseReq * Z)) (tx : bytes) : bytes :=
  let tx := tx ▷ p16 89 ▷ p8 (match lease with Some _ => OPLOCK_LEASE | None => OPLOCK_NONE end) ▷ p8 0
     ▷ p32 action ▷ p64 (m_crtime meta) ▷ p64 (m_atime meta) ▷ p64 (m_mtime meta) ▷ p64 (m_ctime meta)
     ▷ p64 (m_alloc meta) ▷ p64 (m_size meta) ▷ p32 attrs ▷ p32 0 ▷ put_fid fid in
  match lease with
  | Some (l, granted_state) =>
      let data_len := if lr_v2 l then 52 else 32 in
      let tx := tx ▷ p32 152 ▷ p32 (24 + data_len) ▷ p32 0 ▷ p16 16 ▷ p16 4 ▷ p16 0 ▷ p16 24
         ▷ p32 data_len ▷ pbytes CTX_NAME_RQLS ▷ zeros 4 ▷ pbytes (lr_key l) ▷ p32 granted_state
         ▷ p32 0 ▷ p64 0 in
      if lr_v2 l then tx ▷ pbytes (lr_parent l) ▷ p16 (lr_epoch l) ▷ p16 0 else tx
  | None => tx ▷ p32 0 ▷ p32 0
  end.

Section create.
Context `{Env}.

(** ** TREE_CONNECT *)
Definition tree_connect (srv : Srv) (h : ReqHdr) (msg : bytes) : M unit :=
  match parse_tree_connect msg with
  | None => fail_resp h status.INVALID_PARAMETER
  | Some p =>
      let share_name := rsplit_last BACKSLASH p in
      let ipc := eq_ignore_case share_name (lit "IPC$") in
      sess ← gets st_sess;
      match (if ipc then Some (U32_MAX, None)
             else '(i, sh) ← list_find (λ s, eq_ignore_case (sc_name s) share_name = true)
                               (cf_shares (srv_cfg srv));
                  Some (wrap 32 (Z.of_nat i), Some sh)) with
      | None => fail_resp h status.BAD_NETWORK_NAME
      | Some (share_idx, sh) =>
          let access :=
            match sh with
            | None => Some ReadWrite
            | Some sh => check (srv_cfg srv) sh (mkWho (s_guest sess) (s_user sess) (s_kerberos sess) (s_pac sess))
            end in
          match access with
          | None => halt Panic
          | Some Denied => fail_resp h status.ACCESS_DENIED
          | Some acc =>
              let read_only := bool_decide (acc = ReadOnly) in
              if MAX_TREES_PER_SESSION <=? Z.of_nat (size (s_trees sess))
              then fail_resp h status.INSUFFICIENT_RESOURCES
              else
                let tree_id := wrap 32 (s_next_tree_id sess + 1) in
                upd_sess (s_set_next_tree tree_id) ;;
                upd_sess (λ x, s_set_trees (<[tree_id := mkTree share_idx ipc read_only]> (s_trees x)) x) ;;
                upd_chain (chain_set_tree tree_id) ;;
                ok_resp h (λ tx, tx ▷ p16 16 ▷ p8 (if ipc then 2 else 1) ▷ p8 0 ▷ p32 0 ▷ p32 0
                   ▷ p32 (if ipc then 0x001F00A9
                          else if read_only then MAXIMAL_ACCESS_READ else MAXIMAL_ACCESS_ALL))
          end
      end
  end.

(** TREE_DISCONNECT: the tree's opens close with it. *)
Definition tree_disconnect (h : ReqHdr) : M unit :=
  tree_id ← gets (λ s, cn_tree_id (st_chain s));
  upd_sess (λ x, s_set_trees (delete tree_id (s_trees x)) x) ;;
  ids ← gets (λ s, ht_ids_in_tree tree_id (s_handles (st_sess s)));
  for_each ids (λ fid,
    f ← remove_handle fid tree_id;
    match f with Some f => close_file f | None => mret tt end ;;
    notify_cleanup fid) ;;
  simple_resp h.

(** ** CREATE *)

(** Opening what the name resolved to: (fd, is_dir, writable, action), or the
    status to fail with. *)
Definition open_dir (p : path) (exists_ : bool) : M (result (Z * bool * bool * Z) Z) :=
  mk ← (if exists_ then mret (Ok CREATE_ACTION_OPENED)
        else match cpath p with
             | Err e => mret (Err e)
             | Ok c =>
                 r ← io (do (c_mkdir c 0x1ED));
                 mret (match r with Ok _ => Ok CREATE_ACTION_CREATED | Err e => Err e end)
             end);
  match mk with
  | Err e => mret (Err (from_errno e))
  | Ok action =>
      r ← io (open_raw p (Z.lor oflag.RDONLY oflag.DIRECTORY) 0);
      mret (match r with Ok fd => Ok (fd, true, false, action) | Err e => Err (from_errno e) end)
  end.

Definition open_file (req : CreateReq) (p : path) (read_only exists_ : bool) : M (result (Z * bool * bool * Z) Z) :=
  let wants_write := has_bits (cr_desired req) WRITE_BITS in
  let try_rw := wants_write || (has_bits (cr_desired req) MAXIMUM_ALLOWED && negb read_only) ||
                creates_file (cr_disposition req) in
  let flags := create_flags (cr_disposition req) try_rw in
  r ← io (open_raw p flags 0x1A4);
  match r with
  | Ok fd =>
      let action := if negb exists_ then CREATE_ACTION_CREATED
                    else if has_bits flags oflag.TRUNC then CREATE_ACTION_OVERWRITTEN
                    else CREATE_ACTION_OPENED in
      mret (Ok (fd, false, try_rw, action))
  | Err e =>
      if (e =? libc.EACCES) && try_rw && negb wants_write then
        r ← io (open_raw p (Z.lor (Z.ldiff flags oflag.RDWR) oflag.RDONLY) 0);
        mret (match r with Ok fd => Ok (fd, false, false, CREATE_ACTION_OPENED) | Err e => Err (from_errno e) end)
      else mret (Err (from_errno e))
  end.

(** The lease granted to this open, with its state. *)
Definition granted_lease (srv : Srv) (allow_oplock is_dir : bool) (lease : option LeaseReq) : option (LeaseReq * Z) :=
  match lease with
  | Some l =>
      if cf_oplocks (srv_cfg srv) && allow_oplock && negb is_dir && has_bits (lr_state l) LEASE_READ_CACHING
      then Some (l, Z.lor LEASE_READ_CACHING (Z.land (lr_state l) LEASE_HANDLE_CACHING))
      else None
  | None => None
  end.

(** What CREATE does once the file is open. *)
Definition create_opened (srv : Srv) (h : ReqHdr) (req : CreateReq) (tree : Tree) (cid : Z * Z * Z)
    (allow_oplock : bool) (p : path) (rel : str) (opened : Z * bool * bool * Z) : M unit :=
  let '(fd, is_dir, writable, action) := opened in
  let share_idx := tr_share_idx tree in
  let key := lr_key <$> cr_lease req in
  m ← io (fstat_meta fd);
  match m with
  | Err e => io (do (c_close fd)) ;; fail_resp h (from_errno e)
  | Ok meta =>
      (if negb is_dir then io (advise_sequential fd) else mret tt) ;;
      (if action =? CREATE_ACTION_OVERWRITTEN then break_leases (share_idx, m_ino meta) key else mret tt) ;;
      let leaf := rsplit_last BACKSLASH rel in
      let attrs := finalize_attrs (m_attrs meta) leaf in
      let lease := granted_lease srv allow_oplock is_dir (cr_lease req) in
      chain ← gets st_chain;
      sess ← gets st_sess;
      let '(fid, t) := ht_insert
        (mkOpenFile fd p rel leaf share_idx (cn_tree_id chain) is_dir writable
           (has_bits (cr_options req) FILE_DELETE_ON_CLOSE) None
           (match lease with Some _ => Some (m_ino meta) | None => None end) key
           (match lease with Some (_, g) => g | None => 0 end)) (s_handles sess) in
      upd_sess (s_set_handles t) ;;
      upd_chain (chain_set_fid fid) ;;
      match lease with
      | Some (l, g) =>
          upd_w (λ w, w_set_leases
            (lease_grant (share_idx, m_ino meta)
               (mkLeaseGrant (lr_key l) g (lr_epoch l) (cn_session_id chain) cid.1.1 cid.1.2 cid.2)
               (w_leases w)) w)
      | None => mret tt
      end ;;
      ok_resp h (create_body action meta attrs fid lease)
  end.

Definition create (srv : Srv) (h : ReqHdr) (msg : bytes) (share : ShareCfg) (tree : Tree)
    (cid : Z * Z * Z) (allow_oplock : bool) : M unit :=
  match parse_create msg with
  | None => fail_resp h status.INVALID_PARAMETER
  | Some req =>
      match resolve (sc_path share) (cr_name req) with
      | Err st => fail_resp h st
      | Ok (p, rel) =>
          sess ← gets st_sess;
          if MAX_OPENS_PER_SESSION <=? ht_len (s_handles sess)
          then fail_resp h status.INSUFFICIENT_RESOURCES
          else if tr_read_only tree &&
                  (has_bits (cr_desired req) READ_ONLY_DENIED || creates_file (cr_disposition req) ||
                   has_bits (cr_options req) FILE_DELETE_ON_CLOSE)
          then fail_resp h status.ACCESS_DENIED
          else
            existing ← io (stat_meta p);
            let exists_ := match existing with Ok _ => true | Err _ => false end in
            let existing_dir := match existing with Ok m => m_is_dir m | Err _ => false end in
            match create_refused req (tr_read_only tree) exists_ existing_dir rel with
            | Some st => fail_resp h st
            | None =>
                let treat_as_dir := existing_dir ||
                  (has_bits (cr_options req) FILE_DIRECTORY_FILE && negb exists_) in
                r ← (if treat_as_dir then open_dir p exists_
                     else open_file req p (tr_read_only tree) exists_);
                match r with
                | Err st => fail_resp h st
                | Ok opened => create_opened srv h req tree cid allow_oplock p rel opened
                end
            end
      end
  end.
End create.
