(* ===== verification/FileOps.v ===== *)
(** CLOSE, FLUSH, READ, WRITE and LOCK. Models those handlers of
    src/smb2/handlers.rs. *)
From S2P Require Import Prelude Wire Status Os Sample Lease Vfs Handles Session Config Smb2 State.
Local Open Scope Z_scope.

Definition parse_close (chain : Chain) (body : bytes) : option (Z * Z) :=
  parse (sz ← rd_u16; _ ← ensure (sz =? 24); flags ← rd_u16; _ ← rd_skip 4; fid ← parse_fid chain;
         mret (flags, fid)) body.

Definition parse_flush (chain : Chain) (body : bytes) : option Z :=
  parse (sz ← rd_u16; _ ← ensure (sz =? 24); _ ← rd_skip (2 + 4); parse_fid chain) body.

(** (length, offset, fid, min_count). *)
Definition parse_read (chain : Chain) (body : bytes) : option (Z * Z * Z * Z) :=
  parse (sz ← rd_u16; _ ← ensure (sz =? 49); _ ← rd_skip (1 + 1); n ← rd_u32; offset ← rd_u64;
         fid ← parse_fid chain; min_count ← rd_u32; mret (n, offset, fid, min_count)) body.

(** (data, offset, fid). *)
Definition parse_write (chain : Chain) (msg : bytes) : option (bytes * Z * Z) :=
  parse (sz ← rd_u16; _ ← ensure (sz =? 49); data_off ← rd_u16; n ← rd_u32; offset ← rd_u64;
         fid ← parse_fid chain; data ← lift (slice msg data_off (data_off + n));
         mret (data, offset, fid)) (drop 64 msg).

(** (fid, [(offset, length, flags)]). *)
Definition parse_lock (chain : Chain) (body : bytes) : option (Z * list (Z * Z * Z)) :=
  parse (sz ← rd_u16; _ ← ensure (sz =? 48); count ← rd_u16; _ ← rd_skip 4; fid ← parse_fid chain;
         _ ← ensure (negb ((count =? 0) || (64 <? count)));
         elems ← rd_repeat (Z.to_nat count)
           (off ← rd_u64; n ← rd_u64; flags ← rd_u32; _ ← rd_skip 4; mret (off, n, flags));
         mret (fid, elems)) body.

Definition LOCKFLAG_SHARED : Z := 0x1.
Definition LOCKFLAG_EXCLUSIVE : Z := 0x2.
Definition LOCKFLAG_UNLOCK : Z := 0x4.

(** The kind of lock an element asks for; [None] is an invalid element. *)
Definition lock_kind (flags : Z) : option LockKind :=
  if has_bits flags LOCKFLAG_UNLOCK then Some Unlock
  else if has_bits flags LOCKFLAG_EXCLUSIVE then Some Exclusive
  else if has_bits flags LOCKFLAG_SHARED then Some Shared
  else None.

(** A response on this channel covers its payload (signed or sealed). *)
Definition must_sign (pc : ProtoConn) (sid flags : Z) : bool :=
  match pc_channels pc !! sid with
  | Some c => ch_encrypt c || (bool_decide (ch_sign c ≠ None) && (ch_signing_required c || has_bits flags FLAG_SIGNED))
  | None => false
  end.

Section fileops.
Context `{Env}.

Definition close (h : ReqHdr) (body : bytes) : M unit :=
  chain ← gets st_chain;
  match parse_close chain body with
  | None => fail_resp h status.INVALID_PARAMETER
  | Some (flags, fid) =>
      f ← remove_handle fid (cn_tree_id chain);
      match f with
      | None => fail_resp h status.FILE_CLOSED
      | Some f =>
          notify_cleanup fid ;;
          let post_attrib := has_bits flags 0x1 in
          meta ← (if post_attrib then r ← io (fstat_meta (of_fd f)); mret (result_ok r) else mret None);
          st ← finish_close f;
          (if negb (st =? status.SUCCESS) then fail_resp h st
           else ok_resp h (λ tx,
             let tx := tx ▷ p16 60 ▷ p16 (if post_attrib then 1 else 0) ▷ p32 0 in
             match meta with
             | Some m => tx ▷ p64 (m_crtime m) ▷ p64 (m_atime m) ▷ p64 (m_mtime m) ▷ p64 (m_ctime m)
                 ▷ p64 (m_alloc m) ▷ p64 (m_size m) ▷ p32 (finalize_attrs (m_attrs m) (of_leaf f))
             | None => tx ▷ zeros 52
             end)) ;;
          drop_file f
      end
  end.

Definition flush (h : ReqHdr) (body : bytes) : M unit :=
  chain ← gets st_chain;
  match parse_flush chain body with
  | None => fail_resp h status.INVALID_PARAMETER
  | Some fid =>
      f ← get_handle fid;
      match f with
      | None => fail_resp h status.FILE_CLOSED
      | Some f =>
          r ← io (fsync (of_fd f));
          match r with Ok _ => simple_resp h | Err e => fail_resp h (from_errno e) end
      end
  end.

(** The buffered path: [pread], close the dup, answer. *)
Definition read_buffered (h : ReqHdr) (dup n offset min_count : Z) : M unit :=
  r ← io (pread dup n offset);
  io (do (c_close dup)) ;;
  match r with
  | Ok d =>
      if (len d =? 0) && (0 <? n) then fail_resp h status.END_OF_FILE
      else if len d <? min_count then fail_resp h status.END_OF_FILE
      else ok_resp h (λ tx, tx ▷ p16 17 ▷ p8 80 ▷ p8 0 ▷ p32 (len d) ▷ p32 0 ▷ p32 0 ▷ pbytes d)
  | Err e => fail_resp h (from_errno e)
  end.

Definition read (h : ReqHdr) (body : bytes) : M (option ZcReadPlan) :=
  chain ← gets st_chain;
  pc ← gets st_pc;
  match parse_read chain body with
  | None => fail_resp h status.INVALID_PARAMETER ;; mret None
  | Some (n, offset, fid, min_count) =>
      f ← get_handle fid;
      match f with
      | None => fail_resp h status.FILE_CLOSED ;; mret None
      | Some f =>
          if of_is_dir f then fail_resp h status.INVALID_DEVICE_REQUEST ;; mret None
          else
            r ← io (do (c_dup (of_fd f)));
            match r with
            | Err _ => fail_resp h status.INSUFFICIENT_RESOURCES ;; mret None
            | Ok dup =>
                let n := Z.min n (pc_max_read pc) in
                if cn_single chain && (ZC_MIN_READ <=? n) &&
                   negb (must_sign pc (cn_session_id chain) (h_flags h))
                then
                  m ← io (fstat_meta dup);
                  let linked := match m with
                                | Ok m => Z.min (offset + n) U64_MAX <=? m_size m
                                | Err _ => false
                                end in
                  mret (Some (mkZcReadPlan dup offset n min_count (h_msg_id h) (h_credit_charge h)
                                (h_credits h) (cn_tree_id chain) (cn_session_id chain) linked))
                else read_buffered h dup n offset min_count ;; mret None
            end
      end
  end.

Definition write (h : ReqHdr) (msg : bytes) (tree : Tree) : M unit :=
  chain ← gets st_chain;
  match parse_write chain msg with
  | None => fail_resp h status.INVALID_PARAMETER
  | Some (data, offset, fid) =>
      if tr_read_only tree then fail_resp h status.ACCESS_DENIED
      else
        f ← get_handle fid;
        match f with
        | None => fail_resp h status.FILE_CLOSED
        | Some f =>
            if negb (of_writable f) then fail_resp h status.ACCESS_DENIED
            else
              m ← io (fstat_meta (of_fd f));
              r ← io (pwrite_all (of_fd f) data offset);
              match r with
              | Ok _ =>
                  match m with
                  | Ok m => break_leases (tr_share_idx tree, m_ino m) (of_lease_key f)
                  | Err _ => mret tt
                  end ;;
                  ok_resp h (λ tx, tx ▷ p16 17 ▷ p16 0 ▷ p32 (len data) ▷ p32 0 ▷ p16 0 ▷ p16 0)
              | Err e => fail_resp h (from_errno e)
              end
        end
  end.

(** ** LOCK *)

(** The loop over the elements: the status, and the locks taken, in order. *)
Fixpoint lock_elems (fd : Z) (elems : list (Z * Z * Z)) (applied : list (Z * Z)) : IO (Z * list (Z * Z)) :=
  match elems with
  | [] => mret (status.SUCCESS, applied)
  | (off, n, flags) :: elems =>
      match lock_kind flags with
      | None => mret (status.INVALID_PARAMETER, applied)
      | Some kind =>
          r ← range_lock fd off n kind;
          match r with
          | Ok _ => lock_elems fd elems (if has_bits flags LOCKFLAG_UNLOCK then applied else applied ++ [(off, n)])
          | Err e =>
              if (e =? libc.EAGAIN) || (e =? libc.EACCES)
              then mret (status.LOCK_NOT_GRANTED, applied)
              else mret (from_errno e, applied)
          end
      end
  end.

(** Unwinding: release what was taken, last first. *)
Definition unlock_all (fd : Z) (applied : list (Z * Z)) : IO unit :=
  for_each (reverse applied) (λ p, _ ← range_lock fd p.1 p.2 Unlock; mret tt).

Definition lock (h : ReqHdr) (body : bytes) : M unit :=
  chain ← gets st_chain;
  match parse_lock chain body with
  | None => fail_resp h status.INVALID_PARAMETER
  | Some (fid, elems) =>
      f ← get_handle fid;
      match f with
      | None => fail_resp h status.FILE_CLOSED
      | Some f =>
          if of_is_dir f then fail_resp h status.INVALID_PARAMETER
          else
            '(fail, applied) ← io (lock_elems (of_fd f) elems []);
            if negb (fail =? status.SUCCESS)
            then io (unlock_all (of_fd f) applied) ;; fail_resp h fail
            else simple_resp h
      end
  end.
End fileops.
