(* ===== verification/Query.v ===== *)
(** QUERY_DIRECTORY and QUERY_INFO. Models [query_directory],
    [put_dir_entry], [query_info], [file_info], [security_descriptor] and
    [fs_info] of src/smb2/handlers.rs. *)
From S2P Require Import Prelude Wire Status Os Sample Vfs Handles Session Config Smb2 State Create.
Local Open Scope Z_scope.

Definition QD_RESTART_SCANS : Z := 0x01.
Definition QD_RETURN_SINGLE : Z := 0x02.
Definition QD_REOPEN : Z := 0x10.

Definition FILE_DIRECTORY_INFORMATION : Z := 1.
Definition FILE_FULL_DIRECTORY_INFORMATION : Z := 2.
Definition FILE_BOTH_DIRECTORY_INFORMATION : Z := 3.
Definition FILE_NAMES_INFORMATION : Z := 12.
Definition FILE_ID_BOTH_DIRECTORY_INFORMATION : Z := 37.
Definition FILE_ID_FULL_DIRECTORY_INFORMATION : Z := 38.

(** ** Directory entries *)

(** The class-specific part between the common fields and the name. *)
Definition dir_entry_tail (class : Z) (m : Meta) : option (bytes → bytes) :=
  if class =? FILE_DIRECTORY_INFORMATION then Some (λ b, b)
  else if class =? FILE_FULL_DIRECTORY_INFORMATION then Some (λ b, b ▷ p32 0)
  else if class =? FILE_BOTH_DIRECTORY_INFORMATION then Some (λ b, b ▷ p32 0 ▷ p8 0 ▷ p8 0 ▷ zeros 24)
  else if class =? FILE_ID_BOTH_DIRECTORY_INFORMATION
  then Some (λ b, b ▷ p32 0 ▷ p8 0 ▷ p8 0 ▷ zeros 24 ▷ p16 0 ▷ p64 (m_ino m))
  else if class =? FILE_ID_FULL_DIRECTORY_INFORMATION then Some (λ b, b ▷ p32 0 ▷ p32 0 ▷ p64 (m_ino m))
  else None.

(** One entry; [None] is an unknown class ([return false]). *)
Definition put_dir_entry (class : Z) (e : DirEnt) : option bytes :=
  let name := utf16le (de_name e) in
  let m := de_meta e in
  let b := [] ▷ p32 0 ▷ p32 0 in
  if class =? FILE_NAMES_INFORMATION then Some (b ▷ p32 (len name) ▷ pbytes name)
  else
    let b := b ▷ p64 (m_crtime m) ▷ p64 (m_atime m) ▷ p64 (m_mtime m) ▷ p64 (m_ctime m)
               ▷ p64 (m_size m) ▷ p64 (m_alloc m) ▷ p32 (m_attrs m) ▷ p32 (len name) in
    f ← dir_entry_tail class m; Some (f b ▷ pbytes name).

(** Padded to 8, with its own length stamped as NextEntryOffset. *)
Definition stamp_entry (entry : bytes) : bytes :=
  let entry := entry ▷ zeros ((8 - len entry mod 8) mod 8) in
  patch entry 0 (le_bytes 4 (len entry)).

(** The fill loop: the data, where the last entry starts, and how many were
    emitted; [None] is an unknown class (with the entries consumed so far). *)
Fixpoint fill_dir (class flags out_len : Z) (ents : list DirEnt) (data : bytes) (last emitted : Z)
    : option (bytes * Z) * Z :=
  match ents with
  | [] => (Some (data, last), emitted)
  | e :: ents =>
      match put_dir_entry class e with
      | None => (None, emitted)
      | Some entry =>
          let entry := stamp_entry entry in
          if out_len <? len data + len entry then (Some (data, last), emitted)
          else if has_bits flags QD_RETURN_SINGLE then (Some (data ++ entry, len data), emitted + 1)
          else fill_dir class flags out_len ents (data ++ entry) (len data) (emitted + 1)
      end
  end.

(** (class, flags, fid, out_len, pattern). *)
Definition parse_query_dir (chain : Chain) (msg : bytes) : option (Z * Z * Z * Z * str) :=
  parse (sz ← rd_u16; _ ← ensure (sz =? 33); class ← rd_u8; flags ← rd_u8; _ ← rd_u32;
         fid ← parse_fid chain; name_off ← rd_u16; name_len ← rd_u16; out_len ← rd_u32;
         pattern ← (if name_len =? 0 then mret []
                    else s ← lift (slice msg name_off (name_off + name_len)); mret (from_utf16le s));
         mret (class, flags, fid, out_len, pattern)) (drop 64 msg).

(** (info_type, class, out_len, fid). *)
Definition parse_query_info (chain : Chain) (body : bytes) : option (Z * Z * Z * Z) :=
  parse (sz ← rd_u16; _ ← ensure (sz =? 41); info_type ← rd_u8; class ← rd_u8; out_len ← rd_u32;
         _ ← rd_skip (2 + 2 + 4 + 4 + 4); fid ← parse_fid chain;
         mret (info_type, class, out_len, fid)) body.

Definition INFO_FILE : Z := 1.
Definition INFO_FILESYSTEM : Z := 2.
Definition INFO_SECURITY : Z := 3.

Definition put_basic_info (m : Meta) (attrs : Z) (b : bytes) : bytes :=
  b ▷ p64 (m_crtime m) ▷ p64 (m_atime m) ▷ p64 (m_mtime m) ▷ p64 (m_ctime m) ▷ p32 attrs ▷ p32 0.

Definition bool8 (b : bool) : Z := if b then 1 else 0.

Definition put_standard_info (m : Meta) (delete_pending : bool) (b : bytes) : bytes :=
  b ▷ p64 (m_alloc m) ▷ p64 (m_size m) ▷ p32 (m_nlink m) ▷ p8 (bool8 delete_pending)
    ▷ p8 (bool8 (m_is_dir m)) ▷ p16 0.

Definition put_name_info (rel : str) (b : bytes) : bytes :=
  let name := utf16le (BACKSLASH :: rel) in b ▷ p32 (len name) ▷ pbytes name.

(** The information of a file by class, from its metadata. *)
Definition file_info_data (f : OpenFile) (m : Meta) (class : Z) : option bytes :=
  let attrs := finalize_attrs (m_attrs m) (of_leaf f) in
  let del := of_delete_on_close f in
  match class with
  | 4 => Some ([] ▷ put_basic_info m attrs)
  | 5 => Some ([] ▷ put_standard_info m del)
  | 6 => Some ([] ▷ p64 (m_ino m))
  | 7 => Some ([] ▷ p32 0)
  | 8 => Some ([] ▷ p32 MAXIMAL_ACCESS_ALL)
  | 9 => Some ([] ▷ put_name_info (of_rel f))
  | 14 => Some ([] ▷ p64 0)
  | 16 | 17 => Some ([] ▷ p32 0)
  | 18 => Some ([] ▷ put_basic_info m attrs ▷ put_standard_info m del ▷ p64 (m_ino m) ▷ p32 0
                   ▷ p32 MAXIMAL_ACCESS_ALL ▷ p64 0 ▷ p32 0 ▷ p32 0 ▷ put_name_info (of_rel f))
  | 22 => Some (if m_is_dir m then []
                else let name := utf16le (lit "::$DATA") in
                     [] ▷ p32 0 ▷ p32 (len name) ▷ p64 (m_size m) ▷ p64 (m_alloc m) ▷ pbytes name)
  | 34 => Some ([] ▷ p64 (m_crtime m) ▷ p64 (m_atime m) ▷ p64 (m_mtime m) ▷ p64 (m_ctime m)
                   ▷ p64 (m_alloc m) ▷ p64 (m_size m) ▷ p32 attrs ▷ p32 0)
  | 35 => Some ([] ▷ p32 attrs ▷ p32 0)
  | _ => None
  end.

Definition security_descriptor : bytes :=
  let admins := [1; 2; 0; 0; 0; 0; 0; 5; 32; 0; 0; 0; 32; 2; 0; 0] in
  let everyone := [1; 1; 0; 0; 0; 0; 0; 1; 0; 0; 0; 0] in
  [] ▷ p8 1 ▷ p8 0 ▷ p16 0x8004 ▷ p32 48 ▷ p32 64 ▷ p32 0 ▷ p32 20
     ▷ p8 2 ▷ p8 0 ▷ p16 28 ▷ p16 1 ▷ p16 0
     ▷ p8 0 ▷ p8 0 ▷ p16 20 ▷ p32 0x001F01FF ▷ pbytes everyone
     ▷ pbytes admins ▷ pbytes admins.

Section query.
Context `{Env}.

Definition query_directory (h : ReqHdr) (msg : bytes) : M unit :=
  chain ← gets st_chain;
  match parse_query_dir chain msg with
  | None => fail_resp h status.INVALID_PARAMETER
  | Some (class, flags, fid, out_len, pattern) =>
      f ← get_handle fid;
      match f with
      | None => fail_resp h status.FILE_CLOSED
      | Some f =>
          if negb (of_is_dir f) then fail_resp h status.INVALID_PARAMETER
          else
            let restart := has_bits flags (Z.lor QD_RESTART_SCANS QD_REOPEN) in
            let need_new := match of_dir f with
                            | None => true
                            | Some d => restart || negb (bool_decide (ds_pattern d = pattern))
                            end in
            snap ← (if need_new then
                      r ← io (dir_snapshot f pattern);
                      mret (match r with
                            | Ok entries => Ok (mkDirState entries 0 pattern)
                            | Err e => Err e
                            end)
                    else mret (Ok (default (mkDirState [] 0 []) (of_dir f))));
            match snap with
            | Err e => fail_resp h (from_errno e)
            | Ok d =>
                if len (ds_entries d) <=? ds_pos d then
                  set_handle fid (of_set_dir (Some d) f) ;;
                  fail_resp h (if bool_decide (ds_entries d = []) then status.NO_SUCH_FILE
                               else status.NO_MORE_FILES)
                else
                  let out_len := Z.min out_len MAX_TRANSACT in
                  let '(res, emitted) := fill_dir class flags out_len
                    (drop (Z.to_nat (ds_pos d)) (ds_entries d)) [] 0 0 in
                  set_handle fid (of_set_dir (Some (mkDirState (ds_entries d) (ds_pos d + emitted)
                                                      (ds_pattern d))) f) ;;
                  match res with
                  | None => fail_resp h status.INVALID_PARAMETER
                  | Some (data, last) =>
                      if emitted =? 0 then fail_resp h status.BUFFER_TOO_SMALL
                      else
                        let data := patch data last (le_bytes 4 0) in
                        ok_resp h (λ tx, tx ▷ p16 9 ▷ p16 72 ▷ p32 (len data) ▷ pbytes data)
                  end
            end
      end
  end.

(** A status other than success stands for [return st]. *)
Definition file_info (f : OpenFile) (class : Z) : M (result bytes Z) :=
  m ← io (fstat_meta (of_fd f));
  mret (match m with
        | Err e => Err (from_errno e)
        | Ok m => match file_info_data f m class with Some b => Ok b | None => Err status.NOT_SUPPORTED end
        end).

Definition fs_info (srv : Srv) (f : OpenFile) (class : Z) : M (result bytes Z) :=
  match class with
  | 1 =>
      match cf_shares (srv_cfg srv) !! Z.to_nat (of_share_idx f) with
      | None => halt Panic
      | Some sh =>
          let label := utf16le (sc_name sh) in
          mret (Ok ([] ▷ p64 (srv_start_ft srv) ▷ p32 0x524B54 ▷ p32 (len label) ▷ p8 0 ▷ p8 0 ▷ pbytes label))
      end
  | 3 =>
      r ← io (fs_sizes (of_fd f));
      mret (match r with
            | Ok (total, avail, _, spu, bps) => Ok ([] ▷ p64 total ▷ p64 avail ▷ p32 spu ▷ p32 bps)
            | Err e => Err (from_errno e)
            end)
  | 4 => mret (Ok ([] ▷ p32 7 ▷ p32 0x20))
  | 5 => let name := utf16le (lit "NTFS") in
         mret (Ok ([] ▷ p32 0x47 ▷ p32 255 ▷ p32 (len name) ▷ pbytes name))
  | 7 =>
      r ← io (fs_sizes (of_fd f));
      mret (match r with
            | Ok (total, avail, free, spu, bps) =>
                Ok ([] ▷ p64 total ▷ p64 avail ▷ p64 free ▷ p32 spu ▷ p32 bps)
            | Err e => Err (from_errno e)
            end)
  | _ => mret (Err status.NOT_SUPPORTED)
  end.

Definition query_info (srv : Srv) (h : ReqHdr) (body : bytes) : M unit :=
  chain ← gets st_chain;
  match parse_query_info chain body with
  | None => fail_resp h status.INVALID_PARAMETER
  | Some (info_type, class, out_len, fid) =>
      f ← get_handle fid;
      match f with
      | None => fail_resp h status.FILE_CLOSED
      | Some f =>
          r ← (if info_type =? INFO_FILE then file_info f class
               else if info_type =? INFO_FILESYSTEM then fs_info srv f class
               else if info_type =? INFO_SECURITY then mret (Ok security_descriptor)
               else mret (Err status.NOT_SUPPORTED));
          match r with
          | Err st => fail_resp h st
          | Ok data =>
              let final_st := if out_len <? len data then status.BUFFER_OVERFLOW else status.SUCCESS in
              let data := take (Z.to_nat out_len) data in
              c ← gets st_chain;
              put (λ tx, tx ▷ begin_resp h final_st (cn_related c) (cn_tree_id c) (cn_session_id c)
                            ▷ p16 9 ▷ p16 72 ▷ p32 (len data) ▷ pbytes data)
          end
      end
  end.
End query.
