(* ===== verification/SetInfo.v ===== *)
(** SET_INFO, CHANGE_NOTIFY, CANCEL and IOCTL. Models those handlers of
    src/smb2/handlers.rs, with [set_basic_info], [set_disposition] and
    [set_rename]. *)
From S2P Require Import Prelude Wire Status Os Sample Lease Vfs Handles Session Net Config Smb2 State.
From S2P Require Import Negotiate Query.
Local Open Scope Z_scope.

(** (info_type, class, fid, data). *)
Definition parse_set_info (chain : Chain) (msg : bytes) : option (Z * Z * Z * bytes) :=
  parse (sz ← rd_u16; _ ← ensure (sz =? 33); info_type ← rd_u8; class ← rd_u8; buf_len ← rd_u32;
         buf_off ← rd_u16; _ ← rd_skip (2 + 4); fid ← parse_fid chain;
         data ← lift (slice msg buf_off (buf_off + buf_len));
         mret (info_type, class, fid, data)) (drop 64 msg).

(** The access and write times of FileBasicInformation. *)
Definition parse_basic_info (data : bytes) : option (Z * Z) :=
  parse (_ ← rd_u64; at_ ← rd_u64; mt ← rd_u64; _ ← rd_u64; _ ← rd_u32; mret (at_, mt)) data.

(** (replace, new name). *)
Definition parse_rename (data : bytes) : option (bool * str) :=
  parse (replace ← rd_u8; _ ← rd_skip (7 + 8); name_len ← rd_u32; name ← rd_take name_len;
         mret (negb (replace =? 0), from_utf16le name)) data.

Definition FT_UNIX_EPOCH : Z := 116444736000000000.

(** FILETIME to [timespec]; [None] is UTIME_OMIT. *)
Definition ts (ft : Z) : option (Z * Z) :=
  if (ft =? 0) || (ft =? U64_MAX) then None
  else
    let unix100 := as_i64 (wrap 64 (as_i64 ft - FT_UNIX_EPOCH)) in
    Some (unix100 / 10000000, unix100 mod 10000000 * 100).

Definition MAX_NOTIFY_PER_CONN : Z := 1024.

(** (flags, out_len, fid, filter). *)
Definition parse_change_notify (chain : Chain) (body : bytes) : option (Z * Z * Z * Z) :=
  parse (sz ← rd_u16; _ ← ensure (sz =? 32); flags ← rd_u16; out_len ← rd_u32; fid ← parse_fid chain;
         filter ← rd_u32; mret (flags, out_len, fid, filter)) body.

Definition FSCTL_VALIDATE_NEGOTIATE_INFO : Z := 0x00140204.
Definition FSCTL_QUERY_NETWORK_INTERFACE_INFO : Z := 0x001401FC.

Definition parse_ioctl (body : bytes) : option Z :=
  parse (sz ← rd_u16; _ ← ensure (sz =? 57); _ ← rd_skip 2; ctl ← rd_u32; _ ← rd_skip 16; mret ctl) body.

(** What the client says it sent in NEGOTIATE. *)
Definition parse_validate_neg (msg : bytes) : option (ClientNeg * list Z) :=
  b ← slice_from msg (64 + 24);
  '(in_off, in_len) ← parse (o ← rd_u32; l ← rd_u32; mret (o, l)) b;
  input ← slice msg in_off (in_off + in_len);
  parse (caps ← rd_u32; guid ← rd_take 16; secmode ← rd_u16; n ← rd_u16;
         dialects ← rd_repeat (Z.to_nat (Z.min n 16)) rd_u16;
         mret (mkClientNeg secmode caps guid, dialects)) input.

(** The repeated parameters match, and select the same dialect again. *)
Definition negotiate_valid (pc : ProtoConn) (input : option (ClientNeg * list Z)) : bool :=
  match input, pc_client_neg pc with
  | Some (cn, dialects), Some orig =>
      bool_decide (cn = orig) && bool_decide (choose_dialect dialects = Some (pc_dialect pc))
  | _, _ => false
  end.

Section setinfo.
Context `{Env}.

Definition set_basic_info (f : OpenFile) (data : bytes) : M Z :=
  match parse_basic_info data with
  | None => mret status.INVALID_PARAMETER
  | Some (at_, mt) =>
      r ← io (do (c_futimens (of_fd f) (ts at_) (ts mt)));
      mret (match r with
            | Ok _ => status.SUCCESS
            | Err e => if (e =? libc.EACCES) || (e =? libc.EPERM) then status.SUCCESS else from_errno e
            end)
  end.

(** Returns the status and the changed open file. *)
Definition set_disposition (f : OpenFile) (data : bytes) : M (Z * OpenFile) :=
  match data with
  | [] => mret (status.INVALID_PARAMETER, f)
  | flag :: _ =>
      if negb (flag =? 0) && bool_decide (of_rel f = []) then mret (status.ACCESS_DENIED, f)
      else
        refused ← (if negb (flag =? 0) && of_is_dir f then
                     r ← io (do (c_read_dir (of_path f)));
                     mret (match r with
                           | Ok [] => None
                           | Ok (_ :: _) => Some status.DIRECTORY_NOT_EMPTY
                           | Err e => Some (from_errno (io_errno e))
                           end)
                   else mret None);
        mret (match refused with
              | Some st => (st, f)
              | None => (status.SUCCESS, of_set_delete (negb (flag =? 0)) f)
              end)
  end.

(** The inode of a file the rename will replace. *)
Definition rename_target (f : OpenFile) (new_path : path) : M (option Z) :=
  r ← io (stat_meta new_path);
  match r with
  | Ok m =>
      if m_is_dir m then mret None
      else
        own ← io (fstat_meta (of_fd f));
        mret (match own with
              | Ok o => if m_ino o =? m_ino m then None else Some (m_ino m)
              | Err _ => Some (m_ino m)
              end)
  | Err _ => mret None
  end.

Definition set_rename (f : OpenFile) (data : bytes) (share_root : path) : M (Z * option Z * OpenFile) :=
  match parse_rename data with
  | None => mret (status.INVALID_PARAMETER, None, f)
  | Some (replace, name) =>
      match resolve share_root name with
      | Err st => mret (st, None, f)
      | Ok (new_path, new_rel) =>
          if bool_decide (of_rel f = []) || bool_decide (new_rel = [])
          then mret (status.ACCESS_DENIED, None, f)
          else
            collision ← (if negb replace then
                           r ← io (do (c_stat new_path)); mret (bool_decide (is_Some (result_ok r)))
                         else mret false);
            if (collision : bool) then mret (status.OBJECT_NAME_COLLISION, None, f)
            else
              replaced ← rename_target f new_path;
              res ← (if replace
                     then r ← io (do (c_rename (of_path f) new_path)); mret (result_map_err io_errno r)
                     else io (rename_noreplace (of_path f) new_path));
              mret (match res with
                    | Err e => (if e =? libc.EEXIST then status.OBJECT_NAME_COLLISION else from_errno e, None, f)
                    | Ok _ => (status.SUCCESS, replaced,
                               of_set_name new_path new_rel (rsplit_last BACKSLASH new_rel) f)
                    end)
      end
  end.

(** The class dispatch: the status, the files whose leases break, and the open
    file as changed. *)
Definition set_info_class (class : Z) (f : OpenFile) (data : bytes) (share_root : path)
    (own : list (Z * Z)) : M (Z * list (Z * Z) * OpenFile) :=
  match class with
  | 4 => st ← set_basic_info f data; mret (st, [], f)
  | 13 =>
      '(st, f) ← set_disposition f data;
      mret (st, if (st =? status.SUCCESS) && of_delete_on_close f then own else [], f)
  | 10 =>
      '(st, replaced, f) ← set_rename f data share_root;
      mret (st, if st =? status.SUCCESS
                then own ++ match replaced with Some ino => [(of_share_idx f, ino)] | None => [] end
                else [], f)
  | 19 => mret (status.SUCCESS, [], f)
  | 20 =>
      match parse rd_u64 data with
      | None => mret (status.INVALID_PARAMETER, [], f)
      | Some n =>
          r ← io (ftruncate (of_fd f) n);
          mret (match r with Ok _ => (status.SUCCESS, own, f) | Err e => (from_errno e, [], f) end)
      end
  | _ => mret (status.NOT_SUPPORTED, [], f)
  end.

Definition set_info (h : ReqHdr) (msg : bytes) (share : ShareCfg) (read_only : bool) : M unit :=
  chain ← gets st_chain;
  match parse_set_info chain msg with
  | None => fail_resp h status.INVALID_PARAMETER
  | Some (info_type, class, fid, data) =>
      if negb (info_type =? INFO_FILE) then fail_resp h status.NOT_SUPPORTED
      else if read_only then fail_resp h status.ACCESS_DENIED
      else
        f ← get_handle fid;
        match f with
        | None => fail_resp h status.FILE_CLOSED
        | Some f =>
            m ← io (fstat_meta (of_fd f));
            let own := match m with
                       | Ok m => if m_is_dir m then [] else [(of_share_idx f, m_ino m)]
                       | Err _ => []
                       end in
            '(st, broken, f) ← set_info_class class f data (sc_path share) own;
            set_handle fid f ;;
            for_each broken (λ key, break_leases key (of_lease_key f)) ;;
            if negb (st =? status.SUCCESS) then fail_resp h st
            else ok_resp h (p16 2)
        end
  end.

(** ** CHANGE_NOTIFY and CANCEL *)
Definition change_notify (h : ReqHdr) (body : bytes) : M unit :=
  chain ← gets st_chain;
  pc ← gets st_pc;
  match parse_change_notify chain body with
  | None => fail_resp h status.INVALID_PARAMETER
  | Some (flags, out_len, fid, flt) =>
      if MAX_NOTIFY_PER_CONN <=? len (pc_notify_active pc) then fail_resp h status.INSUFFICIENT_RESOURCES
      else
        let want_sign :=
          match pc_channels pc !! cn_session_id chain with
          | Some c => bool_decide (ch_sign c ≠ None) && (ch_signing_required c || has_bits (h_flags h) FLAG_SIGNED)
          | None => false
          end in
        f ← get_handle fid;
        match f with
        | None => fail_resp h status.FILE_CLOSED
        | Some f =>
            if negb (of_is_dir f) then fail_resp h status.INVALID_PARAMETER
            else
              let async_id := pc_next_async_id pc in
              let meta := mkAsyncMeta (h_msg_id h) (h_credit_charge h) (cn_session_id chain) async_id want_sign in
              let pend := mkNotifyPend async_id fid (of_path f) (has_bits flags 0x1) flt
                            (Z.min out_len MAX_TRANSACT) meta in
              upd_pc (λ p, pc_set_notify (wrap 64 (async_id + 1)) (pc_notify_new p ++ [pend])
                             (pc_notify_done p) (pc_notify_active p ++ [(fid, async_id)]) p) ;;
              put (λ tx, tx ▷ begin_resp_async meta status.PENDING (h_credits h) cmd.CHANGE_NOTIFY ▷ err_body)
        end
  end.

(** [notify_active.remove(pos)] of the first entry with this async id. *)
Fixpoint remove_active (aid : Z) (l : list (Z * Z)) : option (list (Z * Z)) :=
  match l with
  | [] => None
  | p :: l => if p.2 =? aid then Some l else cons p <$> remove_active aid l
  end.

Definition cancel (h : ReqHdr) : M unit :=
  match h_async_id h with
  | None => mret tt
  | Some aid =>
      upd_pc (λ p, match remove_active aid (pc_notify_active p) with
                   | Some l => pc_set_notify (pc_next_async_id p) (pc_notify_new p)
                                 (pc_notify_done p ++ [mkNotifyDone aid status.CANCELLED]) l p
                   | None => p
                   end)
  end.

(** ** IOCTL *)
Definition ioctl (srv : Srv) (h : ReqHdr) (msg : bytes) : M unit :=
  pc ← gets st_pc;
  let reply ctl out : M unit :=
    ok_resp h (λ tx, tx ▷ p16 49 ▷ p16 0 ▷ p32 ctl ▷ p64 U64_MAX ▷ p64 U64_MAX ▷ p32 112 ▷ p32 0
      ▷ p32 112 ▷ p32 (len out) ▷ p32 0 ▷ p32 0 ▷ pbytes out) in
  match parse_ioctl (drop 64 msg) with
  | None => fail_resp h status.INVALID_PARAMETER
  | Some ctl =>
      if ctl =? FSCTL_VALIDATE_NEGOTIATE_INFO then
        if negb (negotiate_valid pc (parse_validate_neg msg)) then upd_pc (pc_set_close true)
        else reply ctl ([] ▷ p32 (pc_server_caps pc) ▷ pbytes (srv_guid srv)
                           ▷ p16 (server_secmode (srv_cfg srv)) ▷ p16 (pc_dialect pc))
      else if ctl =? FSCTL_QUERY_NETWORK_INTERFACE_INFO then
        reply ctl (encode_interface_info (filter (λ i, if_loopback i = false) (srv_interfaces srv)))
      else fail_resp h status.NOT_SUPPORTED
  end.
End setinfo.
