(* ===== verification/Dispatch.v ===== *)
(** The command dispatcher and the processing of frames. Models [dispatch] of
    src/smb2/handlers.rs and [process_plain] and [process_frame] of
    src/smb2/mod.rs. *)
From S2P Require Import Prelude Wire Status Os Sample Lease Vfs Handles Crypto Session Config Authz.
From S2P Require Import Smb2 Credits State Negotiate Setup Create FileOps Query SetInfo.
Local Open Scope Z_scope.

(** [n != 0 && n != uN::MAX]: an id that names something. *)
Definition real_id (max v : Z) : bool := negb (v =? 0) && negb (v =? max).

(** The session and tree a request acts on: a related request keeps those of
    its chain where it does not name its own. *)
Definition resolve_chain (h : ReqHdr) (c : Chain) : Chain :=
  if has_bits (h_flags h) FLAG_RELATED
  then mkChain true
         (if real_id U64_MAX (h_session_id h) then h_session_id h else cn_session_id c)
         (if real_id U32_MAX (h_tree_id h) then h_tree_id h else cn_tree_id c)
         (cn_last_fid c) (cn_single c) (cn_transform_sid c)
  else mkChain false (h_session_id h) (h_tree_id h) (cn_last_fid c) (cn_single c) (cn_transform_sid c).

(** The commands exempt from sealing, and from signing. *)
Definition setup_cmd (c : Z) : bool := (c =? cmd.NEGOTIATE) || (c =? cmd.SESSION_SETUP).

Section dispatch.
Context `{Env}.

(** Is the request refused for want of encryption or a valid signature? *)
Definition refused_by_channel (ch : ChannelState) (sealed : bool) (h : ReqHdr) (msg : bytes) : bool :=
  if ch_encrypt ch && negb sealed && negb (setup_cmd (h_command h)) then true
  else if sealed then false
  else match ch_sign ch with
       | None => false
       | Some sc =>
           if has_bits (h_flags h) FLAG_SIGNED then negb (verify_signature msg sc)
           else ch_signing_required ch && negb (setup_cmd (h_command h) || (h_command h =? cmd.CANCEL))
       end.

(** Commands on a tree connect of the locked session (not IPC$). *)
Definition dispatch_tree (srv : Srv) (h : ReqHdr) (msg : bytes) (tree : Tree) : M (option ZcReadPlan) :=
  let body := drop 64 msg in
  match cf_shares (srv_cfg srv) !! Z.to_nat (tr_share_idx tree) with
  | None => halt Panic
  | Some share =>
      pc ← gets st_pc;
      let cid := (pc_wid pc, pc_conn_idx pc, pc_conn_gen pc) in
      let allow_oplock := negb (match pc_channels pc !! h_session_id h with
                                | Some c => ch_encrypt c
                                | None => false
                                end) in
      let c := h_command h in
      if c =? cmd.READ then read h body
      else
        (if c =? cmd.CREATE then create srv h msg share tree cid allow_oplock
         else if c =? cmd.CLOSE then close h body
         else if c =? cmd.FLUSH then flush h body
         else if c =? cmd.WRITE then write h msg tree
         else if c =? cmd.QUERY_DIRECTORY then query_directory h msg
         else if c =? cmd.QUERY_INFO then query_info srv h body
         else if c =? cmd.SET_INFO then set_info h msg share (tr_read_only tree)
         else if c =? cmd.IOCTL then ioctl srv h msg
         else if c =? cmd.LOCK then lock h body
         else if c =? cmd.CHANGE_NOTIFY then change_notify h body
         else fail_resp h status.NOT_SUPPORTED) ;;
        mret None
  end.

(** Commands of an established session, its state loaded. *)
Definition dispatch_locked (srv : Srv) (h : ReqHdr) (msg : bytes) : M (option ZcReadPlan) :=
  if h_command h =? cmd.TREE_CONNECT then tree_connect srv h msg ;; mret None
  else
    tree ← gets (λ s, s_trees (st_sess s) !! cn_tree_id (st_chain s));
    match tree with
    | None => fail_resp h status.NETWORK_NAME_DELETED ;; mret None
    | Some tree =>
        if h_command h =? cmd.TREE_DISCONNECT then tree_disconnect h ;; mret None
        else if tr_ipc tree then
          (if h_command h =? cmd.IOCTL then ioctl srv h msg else fail_resp h status.ACCESS_DENIED) ;;
          mret None
        else dispatch_tree srv h msg tree
    end.

Definition dispatch_session (srv : Srv) (h : ReqHdr) (msg : bytes) : M (option ZcReadPlan) :=
  sid ← gets (λ s, cn_session_id (st_chain s));
  ch ← gets (λ s, pc_channels (st_pc s) !! sid);
  if negb (match ch with Some c => ch_established c | None => false end)
  then fail_resp h status.USER_SESSION_DELETED ;; mret None
  else
    x ← gets (λ s, reg_get sid (w_sessions (st_w s)));
    match x with
    | None => fail_resp h status.USER_SESSION_DELETED ;; mret None
    | Some x => with_session sid x (dispatch_locked srv h msg)
    end.

(** The handler of a command that has passed the checks. *)
Definition dispatch_cmd (srv : Srv) (h : ReqHdr) (msg : bytes) : M (option ZcReadPlan) :=
  let c := h_command h in
  if c =? cmd.NEGOTIATE then negotiate srv h msg ;; mret None
  else if c =? cmd.ECHO then simple_resp h ;; mret None
  else if c =? cmd.CANCEL then cancel h ;; mret None
  else if c =? cmd.SESSION_SETUP then session_setup srv h msg ;; mret None
  else if c =? cmd.LOGOFF then logoff h ;; mret None
  else dispatch_session srv h msg.

Definition dispatch (srv : Srv) (h : ReqHdr) (msg : bytes) : M (option ZcReadPlan) :=
  fresh ← (if h_command h =? cmd.CANCEL then mret true
           else
             '(b, w) ← gets (λ s, consume_msg_ids (h_msg_id h) (h_credit_charge h) (pc_msgs (st_pc s)));
             upd_pc (pc_set_msgs w) ;; mret b);
  if negb fresh then upd_pc (pc_set_close true) ;; mret None
  else
    upd_chain (resolve_chain h) ;;
    '(grant, out) ← gets (λ s, grant_credits (h_credit_charge h) (h_credits h) (pc_credits_out (st_pc s)));
    upd_pc (pc_set_credits out) ;;
    let h := h_set_credits grant h in
    chain ← gets st_chain;
    if match cn_transform_sid chain with
       | Some tsid => negb (cn_session_id chain =? tsid)
       | None => false
       end
    then upd_pc (pc_set_close true) ;; mret None
    else
      ch ← gets (λ s, pc_channels (st_pc s) !! cn_session_id chain);
      if match ch with
         | Some ch => refused_by_channel ch (bool_decide (is_Some (cn_transform_sid chain))) h msg
         | None => false
         end
      then fail_resp h status.ACCESS_DENIED ;; mret None
      else dispatch_cmd srv h msg.

(** ** One frame *)

(** Bookkeeping of one response, for the post-passes. *)
Record RespRec := mkRespRec {
  rr_cmd : Z; rr_start : Z; rr_req_off : Z; rr_req_end : Z; rr_sess_id : Z; rr_sign : option SignCtx }.

Record LoopSt := mkLoopSt {
  ls_off : Z; ls_members : Z; ls_prev : option Z; ls_plan : option ZcReadPlan; ls_recs : list RespRec }.

(** The compound loop. It runs at most [MAX_COMPOUND] members before closing
    the connection, so [MAX_COMPOUND + 1] iterations suffice. *)
Fixpoint compound_loop (fuel : nat) (srv : Srv) (frame : bytes) (base : Z) (l : LoopSt) : M LoopSt :=
  match fuel with
  | O => halt Spin
  | S fuel =>
      match parse_hdr (drop (Z.to_nat (ls_off l)) frame) with
      | None => mret l
      | Some h =>
          tx_len ← gets (λ s, len (st_tx s));
          let members := ls_members l + 1 in
          if (MAX_COMPOUND <? members) || (COMPOUND_RESP_CAP <? tx_len - base)
          then upd_pc (pc_set_close true) ;; mret l
          else
            let off := ls_off l in
            let msg_end := if 0 <? h_next h then Z.min (off + h_next h) (len frame) else len frame in
            if msg_end <? off + HDR_LEN then mret l
            else
              let msg := sub frame off msg_end in
              upd_chain (λ c, mkChain (cn_related c) (cn_session_id c) (cn_tree_id c) (cn_last_fid c)
                                ((off =? 0) && (h_next h =? 0)) (cn_transform_sid c)) ;;
              match ls_prev l with
              | Some p => put (pad8 (base + 4)) ;; put (λ tx, patch32 (p + 20) (len tx - p) tx)
              | None => mret tt
              end ;;
              resp_start ← gets (λ s, len (st_tx s));
              logoff_sign ← gets (λ s,
                if h_command h =? cmd.LOGOFF then
                  let sid := if real_id U64_MAX (h_session_id h) then h_session_id h
                             else cn_session_id (st_chain s) in
                  pc_channels (st_pc s) !! sid ≫= ch_sign
                else None);
              z ← dispatch srv h msg;
              now ← gets (λ s, len (st_tx s));
              sess_id ← gets (λ s, cn_session_id (st_chain s));
              let plan := match z with Some z => Some z | None => ls_plan l end in
              let '(prev, recs) :=
                if resp_start <? now
                then (Some resp_start,
                      ls_recs l ++ [mkRespRec (h_command h) resp_start off msg_end sess_id logoff_sign])
                else (ls_prev l, ls_recs l) in
              let off' := off + h_next h in
              let l' := mkLoopSt off' members prev plan recs in
              if (h_next h =? 0) || (len frame <? off' + HDR_LEN) then mret l'
              else compound_loop fuel srv frame base l'
      end
  end.

(** Each response ends where the next one starts. *)
Fixpoint rec_ends (recs : list RespRec) (tx_len : Z) : list (RespRec * Z) :=
  match recs with
  | [] => []
  | r :: recs => (r, match recs with r' :: _ => rr_start r' | [] => tx_len end) :: rec_ends recs tx_len
  end.

(** Post-pass 1: sign the responses of an authenticated channel. *)
Definition sign_responses (recs : list RespRec) : M unit :=
  n ← gets (λ s, len (st_tx s));
  for_each (rec_ends recs n) (λ '(rec, e),
    sc ← gets (λ s, match pc_channels (st_pc s) !! rr_sess_id rec ≫= ch_sign with
                    | Some sc => Some sc
                    | None => rr_sign rec
                    end);
    match sc with
    | Some sc => put (sign_in_place (rr_start rec) e sc)
    | None => mret tt
    end).

(** Post-pass 2 (3.1.1): chain the preauth hashes over the bytes sent. *)
Definition hash_responses (frame : bytes) (recs : list RespRec) : M unit :=
  n ← gets (λ s, len (st_tx s));
  for_each (rec_ends recs n) (λ '(rec, e),
    tx ← gets st_tx;
    if rr_cmd rec =? cmd.NEGOTIATE then
      let h0 := sha512 [replicate 64 0; sub frame (rr_req_off rec) (rr_req_end rec)] in
      upd_pc (pc_set_preauth_neg (sha512 [h0; sub tx (rr_start rec) e]))
    else if (rr_cmd rec =? cmd.SESSION_SETUP) &&
            (le_val (sub tx (rr_start rec + 8) (rr_start rec + 12)) =? status.MORE_PROCESSING_REQUIRED) then
      upd_pc (λ p, match pc_channels p !! rr_sess_id rec with
                   | Some ch => pc_set_channels
                       (<[rr_sess_id rec := ch_set_preauth (sha512 [ch_preauth ch; sub tx (rr_start rec) e]) ch]>
                          (pc_channels p)) p
                   | None => p
                   end)
    else mret tt).

(** [tx.truncate(base)]. *)
Definition truncate (base : Z) : M unit := put (take (Z.to_nat base)).
(** [finish_nbt_with(&mut tx[base..], tx.len() - base - 4)]. *)
Definition finish_frame (base : Z) : M unit :=
  put (λ tx, finish_nbt_with base (wrap 32 (len tx - base - 4)) tx).

(** The SMB1 branch of [process_plain]. *)
Definition process_smb1 (srv : Srv) (frame : bytes) (base : Z) (sealed : bool) : M FrameAction :=
  negotiated ← gets (λ s, pc_negotiated (st_pc s));
  if negotiated || sealed then truncate base ;; mret Close
  else
    match smb1_negotiate_dialects frame with
    | None => truncate base ;; mret Close
    | Some dialects =>
        if negb (smb1_offers_smb2 dialects)
        then put (smb1_negotiate_refuse frame) ;; finish_frame base ;; mret RespondClose
        else negotiate_resp_smb1_wildcard srv ;; finish_frame base ;; mret Respond
    end.

Definition process_plain (srv : Srv) (frame : bytes) (transform_sid : option Z) : M FrameAction :=
  base ← gets (λ s, len (st_tx s));
  put (zeros 4) ;;
  if (4 <=? len frame) && bool_decide (take 4 frame = SMB1_PROTO)
  then process_smb1 srv frame base (bool_decide (is_Some transform_sid))
  else
    upd_chain (λ _, mkChain false 0 0 None true transform_sid) ;;
    l ← compound_loop (Z.to_nat MAX_COMPOUND + 1) srv frame base (mkLoopSt 0 0 None None []);
    closing ← gets (λ s, pc_close (st_pc s));
    if (closing : bool) then
      truncate base ;;
      match ls_plan l with Some p => io (do (c_close (zp_fd p))) | None => mret tt end ;;
      mret Close
    else
      match ls_plan l with
      | Some p => truncate base ;; mret (ZcRead p)
      | None =>
          (if bool_decide (is_Some transform_sid) then mret tt else sign_responses (ls_recs l)) ;;
          dialect ← gets (λ s, pc_dialect (st_pc s));
          (if dialect =? 0x0311 then hash_responses frame (ls_recs l) else mret tt) ;;
          total ← gets (λ s, len (st_tx s) - base - 4);
          (if total =? 0 then truncate base else finish_frame base) ;;
          mret Respond
      end.

(** Run [m] on a buffer of its own; the caller's comes back unchanged. *)
Definition with_buffer {A} (m : M A) : M (A * bytes) := λ s,
  let '(r, s') := m (st_set_tx [] s) in
  (match r with inl a => inl (a, st_tx s') | inr e => inr e end, st_set_tx (st_tx s) s').

(** Seal the reply of a sealed frame with the session's context, which moves
    to its next nonce. *)
Definition seal_reply (sid : Z) (enc : EncCtx) (inner : bytes) : M FrameAction :=
  if len inner <=? 4 then mret Respond
  else
    enc2 ← gets (λ s, default enc (pc_channels (st_pc s) !! sid ≫= ch_enc));
    tx ← gets st_tx;
    let '(enc2, tx) := wrap_transform (drop 4 inner) enc2 sid tx in
    put (λ _, tx) ;;
    upd_pc (λ p, pc_set_channels
      (alter (λ c, match ch_enc c with
                   | Some e => if bool_decide (en_s2c e = en_s2c enc2)
                               then ch_set_enc (Some enc2) c else c
                   | None => c
                   end) sid (pc_channels p)) p) ;;
    mret Respond.

Definition process_frame (srv : Srv) (frame : bytes) : M FrameAction :=
  if is_transform frame then
    if len frame <? TRANSFORM_HDR_LEN then mret Close
    else
      let sid := le_val (sub frame 44 52) in
      chans ← gets (λ s, pc_channels (st_pc s));
      match chans !! sid ≫= ch_enc with
      | None => mret Close
      | Some enc =>
          match decrypt_transform frame enc with
          | None => mret Close
          | Some plain =>
              upd_pc (λ p, pc_set_channels (alter (ch_set_encrypt true) sid (pc_channels p)) p) ;;
              '(action, inner) ← with_buffer (process_plain srv plain (Some sid));
              match action with
              | Close | RespondClose => mret Close
              | _ =>
                  match action with
                  | ZcRead plan => io (do (c_close (zp_fd plan)))
                  | _ => mret tt
                  end ;;
                  seal_reply sid enc inner
              end
          end
      end
  else process_plain srv frame None.
End dispatch.
