(* ===== verification/Confine.v ===== *)
(** Which system calls a request can cause.

    The filesystem layer and the handlers' helpers are shown to stay inside a
    share: every path they hand to the system is the share's root extended
    with proper directory-entry names, and on a read-only tree no call that
    changes the disk is made. The lemmas hold for any invariant that depends
    only on the locked session, the registry, the current tree and the trace
    ([Quiet]). *)
From S2P Require Import Prelude Hoare Wire Status Os Sample Lease Vfs Handles Crypto Session Config.
From S2P Require Import Smb2 State.
Local Open Scope Z_scope.

(** ** Paths inside a share *)

(** What a directory entry can be called. *)
Definition entry_name (c : str) : Prop :=
  c ≠ [] ∧ c ≠ lit "." ∧ c ≠ lit ".." ∧ 0 ∉ c ∧ SLASH ∉ c.

(** [p] is [root] followed by proper names: no [..], no empty or absolute
    component. *)
Definition inside (root p : path) : Prop :=
  ∃ comps, Forall entry_name comps ∧ p = foldl path_push root comps.

(** How far a request may go: change the disk; only read it; or, for an
    OPEN_IF on a read-only tree, read it and open with O_CREAT (the server has
    seen that the file exists). *)
Inductive reach := MayWrite | MayOpenIf | MayRead.

(** An open that neither truncates nor insists on creating. *)
Definition opens_if (e : event) : bool :=
  match e with
  | Ev (c_open _ flags _) _ => negb (has_bits flags (Z.lor oflag.EXCL oflag.TRUNC))
  | _ => false
  end.

(** A call names only paths inside [root] and does not exceed its reach. *)
Definition allowed (root : path) (m : reach) (e : event) : Prop :=
  (∀ p, p ∈ ev_paths e → inside root p) ∧
  match m with
  | MayWrite => True
  | MayOpenIf => ev_mutates e = false ∨ opens_if e = true
  | MayRead => ev_mutates e = false
  end.

(** Facts about paths and open files, for the side conditions of calls. *)
Create HintDb inside.

(** A list of paths known to be inside. *)
Ltac paths := simpl; repeat first [apply Forall_nil_2 | apply Forall_cons_2; [by eauto with inside|]]; try done.
#[export] Hint Extern 1 (Forall (inside _) _) => paths : inside.
#[export] Hint Extern 1 (mutates _ = false) => simpl; congruence : inside.

Lemma inside_push root p c : inside root p → entry_name c → inside root (path_push p c).
Proof.
  intros (comps & Hc & ->) He. exists (comps ++ [c]). rewrite foldl_app, Forall_app.
  split; [split; [done|by apply Forall_singleton]|done].
Qed.

Lemma inside_resolve root name p rel : resolve root name = Ok (p, rel) → inside root p.
Proof.
  rewrite resolve_spec. case_decide as Hb; [done|]. intros [= <- <-].
  exists (kept name). split; [|done]. apply kept_clean in Hb.
  eapply Forall_impl; [exact Hb|]. unfold clean, entry_name. naive_solver.
Qed.

Lemma cpath_Ok p q : cpath p = Ok q → q = p.
Proof. unfold cpath. case_bool_decide; naive_solver. Qed.

(** Documented behaviour of the system the results rely on: [pwrite] reports
    at most the bytes it was given, and a directory iterator yields the
    entries other than [.] and [..], with [DirEntry::path] the directory's
    path joined with the name. *)
Class OsLaws `{Env} : Prop := {
  os_pwrite : pwrite_bounded;
  os_read_dir p o ents o' e name :
    sys _ (c_read_dir p) o = (Ok ents, o') → Some e ∈ ents → rde_name e = Some name →
    entry_name name ∧ rde_path e = path_push p name;
}.

#[global] Instance mem_os_laws : @OsLaws mem_env.
Proof.
  constructor; [exact mem_pwrite_bounded|].
  intros p o ents o' e name [= <- <-] Hin Hn. unfold mem_children in Hin.
  apply list_elem_of_omap in Hin as ([q f] & _ & Hq). case_bool_decide as Hb; [|done].
  simplify_eq. simpl in *. simplify_eq. destruct Hb as (E & ? & ? & ? & ? & Hs).
  split; [done|]. rewrite E at 1. generalize dependent (drop (length (dir_base p)) q). intros name _ _ _ _ _ Hs.
  unfold path_push, dir_base, SLASH. rewrite (bool_decide_false (head name = _)).
  - case_bool_decide; [done|by rewrite <-app_assoc].
  - intros Hh. apply Hs. destruct name as [|x l]; [done|]. simplify_eq/=. by left.
Qed.

(** ** The system-call layer *)
Section io.
Context `{Env} `{!OsLaws} (root : path) (m : reach) (s0 : OsSt).

#[local] Abbreviation isafe := (safe (io_only (allowed root m) s0)).

Lemma safe_do {A} (c : call A) (P : A → Prop) :
  (∀ a, allowed root m (Ev c a)) → (∀ a o o', sys A c o = (a, o') → P a) → isafe (do c) P.
Proof.
  intros Ha HP s Hs. unfold do. destruct (sys A c (os_st s)) as [a o] eqn:E.
  split; [|by eapply HP]. etrans; [exact Hs|]. exists [Ev c a]. split; [done|]. by apply Forall_singleton.
Qed.

Lemma safe_do_any {A} (c : call A) :
  (∀ a, allowed root m (Ev c a)) → isafe (do c) (λ _, True).
Proof. intros. by apply safe_do. Qed.

(** A call without paths that does not change the disk is always allowed. *)
Lemma allowed_plain {A} (c : call A) a :
  call_paths c = [] → mutates c = false → allowed root m (Ev c a).
Proof. intros Hp Hm. split; simpl; [rewrite Hp; by intros ? ?%elem_of_nil|destruct m; auto]. Qed.

(** A call on paths inside the share is allowed if it does not change the
    disk or the tree is writable. *)
Lemma allowed_at {A} (c : call A) a :
  Forall (inside root) (call_paths c) → (m ≠ MayWrite → mutates c = false) → allowed root m (Ev c a).
Proof.
  intros Hp Hm. split; [simpl; by rewrite <-Forall_forall|].
  destruct m; [done|left; by apply Hm|by apply Hm].
Qed.

Lemma safe_plain {A} (c : call A) :
  call_paths c = [] → mutates c = false → isafe (do c) (λ _, True).
Proof. intros. apply safe_do_any. intros. by apply allowed_plain. Qed.

Lemma safe_at {A} (c : call A) :
  Forall (inside root) (call_paths c) → (m ≠ MayWrite → mutates c = false) → isafe (do c) (λ _, True).
Proof. intros. apply safe_do_any. intros. by apply allowed_at. Qed.

(** Adding O_CLOEXEC and O_NONBLOCK does not make an open destructive. *)
Lemma open_flags_harmless flags mask :
  Z.land oflag.CLOEXEC mask = 0 → Z.land oflag.NONBLOCK mask = 0 →
  has_bits (Z.lor (Z.lor flags oflag.CLOEXEC) oflag.NONBLOCK) mask = has_bits flags mask.
Proof. intros E1 E2. unfold has_bits. by rewrite !Z.land_lor_distr_l, E1, E2, !Z.lor_0_r. Qed.

(** The flags an open may carry within its reach. *)
Definition flags_ok (flags : Z) : Prop :=
  match m with
  | MayWrite => True
  | MayOpenIf => has_bits flags (Z.lor oflag.EXCL oflag.TRUNC) = false
  | MayRead => has_bits flags (Z.lor oflag.CREAT oflag.TRUNC) = false
  end.

Lemma allowed_open p flags mode a :
  inside root p → flags_ok flags →
  allowed root m (Ev (c_open p (Z.lor (Z.lor flags oflag.CLOEXEC) oflag.NONBLOCK) mode) a).
Proof.
  intros Hp Hf. split; [simpl; by intros ? ->%list_elem_of_singleton|].
  unfold flags_ok in Hf. destruct m; simpl; [done|right|]; by rewrite open_flags_harmless, Hf.
Qed.

Lemma safe_stat_meta p : inside root p → isafe (stat_meta p) (λ _, True).
Proof.
  intros. eapply safe_bind; [apply safe_at|intros; by apply safe_ret]; [by paths|done].
Qed.

Lemma safe_fstat_meta fd : isafe (fstat_meta fd) (λ _, True).
Proof.
  unfold fstat_meta. destruct (fd <? 0); [by apply safe_ret|].
  eapply safe_bind; [by apply safe_plain|]. intros. by apply safe_ret.
Qed.

Lemma safe_open_raw p flags mode :
  inside root p → flags_ok flags → isafe (open_raw p flags mode) (λ _, True).
Proof.
  intros Hp Hf. unfold open_raw. destruct (cpath p) as [c|e] eqn:Ec; [|by apply safe_ret].
  apply cpath_Ok in Ec as ->.
  eapply safe_bind.
  { apply safe_do_any. intros. by apply allowed_open. }
  intros [fd|e] _; [|by apply safe_ret].
  eapply safe_bind; [by apply safe_plain|]. intros st _. cbv zeta.
  apply (safe_bind _ _ _ (λ _, True)).
  - destruct (match st with Ok _ => _ | Err _ => _ end); [|by apply safe_ret].
    eapply safe_bind; [by apply safe_plain|]. intros [fl|e] _; [by apply safe_plain|by apply safe_ret].
  - intros [|] _; [by apply safe_ret|]. apply safe_seq; [by apply safe_plain|by apply safe_ret].
Qed.

Lemma safe_pread fd n off : isafe (pread fd n off) (λ _, True).
Proof.
  unfold pread. induction retry as [|k IH]; simpl; [apply safe_halt|].
  eapply safe_bind; [by apply safe_plain|]. intros [d|e] _; [by apply safe_ret|].
  destruct (e =? _); [done|by apply safe_ret].
Qed.

Lemma safe_pwrite_all fd buf off : m = MayWrite → isafe (pwrite_all fd buf off) (λ _, True).
Proof.
  intros Hm. unfold pwrite_all. revert buf off.
  induction retry as [|k IH]; intros buf off; destruct buf as [|b buf]; simpl; try (by apply safe_ret).
  { apply safe_halt. }
  eapply safe_bind.
  { apply (safe_do _ (λ r, ∀ n, r = Ok n → n ≤ len (b :: buf))).
    - intros. apply allowed_at; [by paths|]. by rewrite Hm.
    - intros r o o' E n ->. apply os_pwrite in E. simpl in *. lia. }
  intros [n|e] Hn; [|destruct (e =? _); [apply IH|by apply safe_ret]].
  rewrite (proj2 (Z.ltb_ge _ _)) by (apply Hn; done). apply IH.
Qed.

Lemma safe_range_lock fd off n k : isafe (range_lock fd off n k) (λ _, True).
Proof.
  unfold range_lock. destruct (lock_range off n) as [[a b]|]; [by apply safe_plain|by apply safe_ret].
Qed.

Lemma safe_fs_sizes fd : isafe (fs_sizes fd) (λ _, True).
Proof. eapply safe_bind; [by apply safe_plain|]. intros. by apply safe_ret. Qed.

Lemma safe_rename_noreplace p q :
  m = MayWrite → inside root p → inside root q → isafe (rename_noreplace p q) (λ _, True).
Proof.
  intros Hro Hp Hq. unfold rename_noreplace.
  destruct (cpath p) as [p'|e] eqn:Ep; [|by apply safe_ret].
  destruct (cpath q) as [q'|e] eqn:Eq; [|by apply safe_ret].
  apply cpath_Ok in Ep as ->. apply cpath_Ok in Eq as ->.
  apply safe_at; [by paths|by rewrite Hro].
Qed.

Lemma safe_snapshot_entries ents :
  (∀ e name, Some e ∈ ents → rde_name e = Some name → inside root (rde_path e)) →
  isafe (snapshot_entries ents) (λ _, True).
Proof.
  induction ents as [|[e|] ents IH]; intros Hin; simpl; [by apply safe_ret| |].
  - assert (isafe (snapshot_entries ents) (λ _, True)) as IH'.
    { apply IH. intros. eapply Hin; [by right|done]. }
    destruct (rde_name e) as [name|] eqn:En; [|done].
    assert (inside root (rde_path e)) as Hp by (eapply Hin; [by left|done]).
    eapply safe_bind; [apply safe_at; [by paths|done]|]. intros r _.
    apply (safe_bind _ _ _ (λ _, True)).
    { destruct r; [by apply safe_ret|apply safe_at; [by paths|done]]. }
    intros [md|e'] _; [|done]. eapply safe_bind; [exact IH'|]. intros. by apply safe_ret.
  - apply IH. intros. eapply Hin; [by right|done].
Qed.

Lemma safe_dir_snapshot f pattern :
  inside root (of_path f) → isafe (dir_snapshot f pattern) (λ _, True).
Proof.
  intros Hp. eapply safe_bind; [apply safe_fstat_meta|]. intros [sm|e] _; [|by apply safe_ret].
  eapply safe_bind.
  { apply (safe_do _ (λ r, ∀ ents, r = Ok ents → ∀ e name, Some e ∈ ents → rde_name e = Some name →
                        inside root (rde_path e))).
    - intros. apply allowed_at; [by paths|done].
    - intros r o o' E ents -> e name Hin Hn.
      destruct (os_read_dir _ _ _ _ _ _ E Hin Hn) as [? ->]. by apply inside_push. }
  intros [ents|e] Hents; [|by apply safe_ret].
  eapply safe_bind; [apply safe_snapshot_entries; by apply Hents|]. intros. by apply safe_ret.
Qed.
End io.

(** ** Handler helpers *)

(** A path that CHANGE_NOTIFY leaves for the reactor to watch is allowed as
    the call that watches it would be; [noted Q l0 p]: so are those that are
    waiting on the connection [p], except for [l0]. *)
Definition watchable (Q : event → Prop) (np : NotifyPend) : Prop :=
  ∀ fd mask wd, Q (Ev (c_inotify_add_watch fd (np_path np) mask) wd).

Definition noted (Q : event → Prop) (l0 : list NotifyPend) (p : ProtoConn) : Prop :=
  ∀ np, np ∈ pc_notify_new p → np ∈ l0 ∨ watchable Q np.

Lemma noted_same Q p p' : pc_notify_new p' = pc_notify_new p → noted Q (pc_notify_new p) p'.
Proof. intros E np. rewrite E. by left. Qed.

Lemma noted_trans Q l0 p p' : noted Q l0 p → noted Q (pc_notify_new p) p' → noted Q l0 p'.
Proof. intros H1 H2 np Hnp. destruct (H2 np Hnp) as [?%H1|]; auto. Qed.

Lemma noted_mono (Q Q' : event → Prop) l0 p : (∀ e, Q e → Q' e) → noted Q l0 p → noted Q' l0 p.
Proof. intros HQ Hp np Hnp. destruct (Hp np Hnp) as [|Hw]; [by left|]. right. intros fd mask wd. apply HQ, Hw. Qed.

Lemma watchable_inside root m np : inside root (np_path np) → watchable (allowed root m) np.
Proof. intros Hp fd mask wd. apply allowed_at; [by repeat constructor|done]. Qed.

(** The invariant is insensitive to the transmit buffer, the lease table, the
    mailboxes and all of the connection but the paths to watch, and is closed
    under allowed calls. *)
Class Quiet `{Env} (Q : event → Prop) (I : St → Prop) : Prop :=
  quiet : ∀ s s', I s → st_sess s' = st_sess s → w_sessions (st_w s') = w_sessions (st_w s) →
    cn_tree_id (st_chain s') = cn_tree_id (st_chain s) → noted Q (pc_notify_new (st_pc s)) (st_pc s') →
    io_only Q (w_os (st_w s)) (w_os (st_w s')) → I s'.

#[global] Instance quiet_handles `{Env} Q I t :
  Quiet Q I → Quiet Q (λ s, I s ∧ s_handles (st_sess s) = t).
Proof. intros HI s s' [Hs <-] E ????. split; [by eapply quiet|by rewrite E]. Qed.

Section helpers.
Context `{Env} (root : path) (m : reach) (I : St → Prop) `{!Quiet (allowed root m) I}.

Lemma safe_io {A} (k : IO A) (P : A → Prop) :
  (∀ s0, safe (io_only (allowed root m) s0) k P) → safe I (io k) P.
Proof.
  intros Hk s Hs. unfold io, zoom. specialize (Hk (w_os (st_w s)) (w_os (st_w s)) (reflexivity _)).
  destruct (k (w_os (st_w s))) as [[a|e] o]; destruct Hk.
  - split; [by eapply quiet; eauto using noted_same|done].
  - split; [done|by eapply quiet; eauto using noted_same].
Qed.

Lemma safe_quiet (f : St → St) :
  (∀ s, st_sess (f s) = st_sess s ∧ w_sessions (st_w (f s)) = w_sessions (st_w s) ∧
        cn_tree_id (st_chain (f s)) = cn_tree_id (st_chain s) ∧
        noted (allowed root m) (pc_notify_new (st_pc s)) (st_pc (f s)) ∧ w_os (st_w (f s)) = w_os (st_w s)) →
  safe I (modify f) (λ _, True).
Proof.
  intros Hf. apply safe_modify. intros s Hs. destruct (Hf s) as (?&?&?&?&E).
  eapply quiet; [exact Hs|done..|]. by rewrite E.
Qed.

Lemma safe_put f : safe I (put f) (λ _, True).
Proof. apply safe_quiet. intros s. split_and!; try done; by apply noted_same. Qed.

Lemma safe_upd_pc f :
  (∀ p, noted (allowed root m) (pc_notify_new p) (f p)) → safe I (upd_pc f) (λ _, True).
Proof. intros Hf. apply safe_quiet. intros s. split_and!; try done; apply Hf. Qed.

Lemma safe_upd_leases f : safe I (upd_w (λ w, w_set_leases (f w) w)) (λ _, True).
Proof. apply safe_quiet. intros s. split_and!; try done; by apply noted_same. Qed.

Lemma safe_set_fid fid : safe I (upd_chain (chain_set_fid fid)) (λ _, True).
Proof. apply safe_quiet. intros s. split_and!; try done; by apply noted_same. Qed.

Lemma safe_fail_resp h st : safe I (fail_resp h st) (λ _, True).
Proof. eapply safe_bind; [by apply (safe_gets _ _ (λ _, True))|]. intros. apply safe_put. Qed.

Lemma safe_ok_resp h body : safe I (ok_resp h body) (λ _, True).
Proof. eapply safe_bind; [by apply (safe_gets _ _ (λ _, True))|]. intros. apply safe_put. Qed.

Lemma safe_simple_resp h : safe I (simple_resp h) (λ _, True).
Proof. apply safe_ok_resp. Qed.

Lemma safe_break_leases key except : safe I (break_leases key except) (λ _, True).
Proof.
  apply safe_quiet. intros s. simpl. destruct (break_conflicts key except _).
  split_and!; try done; by apply noted_same.
Qed.

Lemma safe_notify_cleanup fid : safe I (notify_cleanup fid) (λ _, True).
Proof. apply safe_upd_pc. intros p. by apply noted_same. Qed.

Lemma safe_drop_file f : safe I (drop_file f) (λ _, True).
Proof.
  unfold drop_file. destruct (0 <=? of_fd f); [|by apply safe_ret].
  apply safe_io. intros. by apply safe_plain.
Qed.

(** Closing removes a file only inside the share, and on a read-only tree not
    at all. *)
Lemma safe_finish_close f :
  inside root (of_path f) → (m ≠ MayWrite → of_delete_on_close f = false) →
  safe I (finish_close f) (λ _, True).
Proof.
  intros Hp Hd. unfold finish_close. apply safe_seq.
  { destruct (of_oplock_ino f), (of_lease_key f); try by apply safe_ret.
    destruct (_ =? 0); [apply safe_upd_leases|by apply safe_ret]. }
  destruct (of_delete_on_close f) eqn:Edel; simpl; [|by apply safe_ret].
  assert (m ≠ MayWrite → true = false) as Hro by (intros; by apply Hd).
  apply safe_seq.
  { destruct (of_is_dir f); [by apply safe_ret|].
    eapply safe_bind; [apply safe_io; intros; apply safe_fstat_meta|].
    intros [md|e] _; [apply safe_break_leases|by apply safe_ret]. }
  eapply (safe_bind _ _ _ (λ _, True)); [|intros; by apply safe_ret].
  apply safe_io. intros s0. destruct (of_is_dir f); (apply safe_at; [by paths|exact Hro]).
Qed.

Lemma safe_close_file f :
  inside root (of_path f) → (m ≠ MayWrite → of_delete_on_close f = false) →
  safe I (close_file f) (λ _, True).
Proof. intros. apply safe_seq; [by eapply safe_any, safe_finish_close|apply safe_drop_file]. Qed.
End helpers.

#[export] Hint Resolve safe_put safe_upd_leases safe_set_fid safe_fail_resp safe_ok_resp
  safe_simple_resp safe_break_leases safe_notify_cleanup safe_drop_file safe_finish_close safe_close_file
  safe_io safe_stat_meta safe_fstat_meta safe_open_raw safe_pread safe_pwrite_all safe_range_lock
  safe_fs_sizes safe_rename_noreplace safe_dir_snapshot safe_plain safe_at : safe.
