(* ===== verification/TreeSafe.v ===== *)
(** Safety of the commands on a tree connect.

    The invariant ties every open handle to the tree it was opened on: its
    path is inside that tree's share, and a handle of a read-only tree is
    never marked for deletion. Each handler keeps it, makes only the system
    calls the tree allows, and does not panic. *)
From S2P Require Import Prelude Hoare Wire Status Os Sample Lease Vfs Handles Crypto Session Config Authz.
From S2P Require Import Smb2 State Create FileOps Query SetInfo Negotiate Dispatch Confine.
Local Open Scope Z_scope.

(** ** The invariant *)

(** An open file belongs to a live disk tree and lies inside its share. *)
Definition handle_ok (cfg : Config) (T : gmap Z Tree) (f : OpenFile) : Prop :=
  ∃ tr share, T !! of_tree_id f = Some tr ∧ tr_ipc tr = false ∧
    cf_shares cfg !! Z.to_nat (tr_share_idx tr) = Some share ∧
    of_share_idx f = tr_share_idx tr ∧ inside (sc_path share) (of_path f) ∧
    (tr_read_only tr = true → of_delete_on_close f = false).

Definition handles_ok (cfg : Config) (T : gmap Z Tree) (t : HandleTable) : Prop :=
  ht_wf t ∧ ∀ fid f, ht_view t fid = Some f → handle_ok cfg T f.

(** Every disk tree names a configured share. *)
Definition trees_ok (cfg : Config) (T : gmap Z Tree) : Prop :=
  ∀ id tr, T !! id = Some tr → tr_ipc tr = false → is_Some (cf_shares cfg !! Z.to_nat (tr_share_idx tr)).

(** The lock batch makes no call on a path. *)
Section locks.
Context `{Env} (root : path) (m : reach) (s0 : OsSt).
#[local] Abbreviation isafe := (safe (io_only (allowed root m) s0)).

Lemma safe_lock_elems fd elems : ∀ applied, isafe (lock_elems fd elems applied) (λ _, True).
Proof.
  induction elems as [|[[off n] flags] elems IH]; intros applied; simpl; [by apply safe_ret|].
  destruct (lock_kind flags); [|by apply safe_ret].
  eapply safe_bind; [apply safe_range_lock|]. intros [u|e] _; [apply IH|].
  destruct (_ || _); by apply safe_ret.
Qed.

Lemma safe_unlock_all fd applied : isafe (unlock_all fd applied) (λ _, True).
Proof.
  apply safe_for_each. intros [a b] _. apply safe_seq; [apply safe_range_lock|by apply safe_ret].
Qed.
End locks.

Section tree.
Context `{Env} `{!OsLaws} (srv : Srv) (T : gmap Z Tree) (n : Z) (reg : Registry) (tid : Z).
Context (tree : Tree) (share : ShareCfg) (o0 : OsSt) (l0 : list NotifyPend).
Context (Htree : T !! tid = Some tree) (Hipc : tr_ipc tree = false).
Context (Hshare : cf_shares (srv_cfg srv) !! Z.to_nat (tr_share_idx tree) = Some share).

Context (m : reach) (Hm : tr_read_only tree = false → m = MayWrite).

#[local] Abbreviation ok_event := (allowed (sc_path share) m).

(** The state of a handler running on tree [tid] of the locked session. *)
Record tree_inv (s : St) : Prop := {
  ti_trees : s_trees (st_sess s) = T;
  ti_next : s_next_tree_id (st_sess s) = n;
  ti_handles : handles_ok (srv_cfg srv) T (s_handles (st_sess s));
  ti_reg : w_sessions (st_w s) = reg;
  ti_tid : cn_tree_id (st_chain s) = tid;
  ti_noted : noted ok_event l0 (st_pc s);
  ti_trace : io_only ok_event o0 (w_os (st_w s)) }.

#[global] Instance tree_inv_quiet : Quiet ok_event tree_inv.
Proof.
  intros s s' [] E1 E2 E3 E4 E5. constructor; rewrite ?E1, ?E2, ?E3; try done; [by eapply noted_trans|by etrans].
Qed.

(** What a handler knows of a handle it looked up. *)
Record file_of (f : OpenFile) : Prop := {
  fo_tree : of_tree_id f = tid;
  fo_share : of_share_idx f = tr_share_idx tree;
  fo_path : inside (sc_path share) (of_path f);
  fo_del : tr_read_only tree = true → of_delete_on_close f = false }.

Lemma file_of_ok f : of_tree_id f = tid → handle_ok (srv_cfg srv) T f ↔ file_of f.
Proof.
  intros Et. split.
  - intros (tr & sh & E & ? & Es & ? & ? & ?). rewrite Et in E. simplify_eq. by constructor.
  - intros []. exists tree, share. by rewrite Et.
Qed.

Lemma file_of_set_dir d f : file_of f → file_of (of_set_dir d f).
Proof. by intros []. Qed.

Lemma reach_ro : m ≠ MayWrite → tr_read_only tree = true.
Proof. destruct (tr_read_only tree); naive_solver. Qed.

Lemma file_of_del f : file_of f → m ≠ MayWrite → of_delete_on_close f = false.
Proof. intros Hf Hw. apply fo_del; [done|]. by apply reach_ro. Qed.

(** ** Access to handles *)
Lemma safe_get_handle fid : safe tree_inv (get_handle fid) (λ r, ∀ f, r = Some f → file_of f).
Proof.
  apply safe_gets. intros s [] f Hf. rewrite ti_tid0, ht_get_view in Hf.
  destruct (ht_view _ fid) as [f'|] eqn:Hv; simpl in Hf; [|done].
  destruct (Z.eqb_spec (of_tree_id f') tid); [|done]. injection Hf as <-. apply file_of_ok; [done|].
  by eapply ti_handles0.
Qed.

Lemma handles_ok_set t fid f :
  handles_ok (srv_cfg srv) T t → handle_ok (srv_cfg srv) T f →
  handles_ok (srv_cfg srv) T (ht_set fid f t).
Proof.
  intros [Hw Hv] Hf. split; [by apply ht_set_wf|]. intros fid' f'.
  destruct (ht_view t fid) as [f0|] eqn:E.
  - rewrite (ht_view_set _ _ f0) by done. case_decide; [naive_solver|apply Hv].
  - unfold ht_set. unfold ht_view in E. destruct (ht_slot fid t) as [i|] eqn:Es; [|apply Hv].
    apply ht_slot_Some in Es as (_ & f1 & _ & E'). simpl in E. by rewrite E' in E.
Qed.

Lemma safe_set_handle fid f : file_of f → safe tree_inv (set_handle fid f) (λ _, True).
Proof.
  intros Hf. apply safe_modify. intros s []. constructor; try done.
  apply handles_ok_set; [done|]. by apply file_of_ok; [apply Hf|].
Qed.

Lemma handles_ok_remove t fid tr f t' :
  handles_ok (srv_cfg srv) T t → ht_remove fid tr t = Some (f, t') →
  handles_ok (srv_cfg srv) T t' ∧ handle_ok (srv_cfg srv) T f ∧ of_tree_id f = tr ∧
  ∀ id, ht_view t' id = if decide (id = fid) then None else ht_view t id.
Proof.
  intros [Hw Hv] (i & g & -> & Hl & <- & ->)%ht_remove_Some; [|done].
  assert (∀ id, ht_view (ht_vacate i t) id = if decide (id = mk_fid g i) then None else ht_view t id)
    as Hview by (intros; by eapply ht_view_vacate).
  split_and!; [split|..]; try done.
  - by eapply ht_vacate_wf.
  - intros fid f'. rewrite Hview. case_decide; [done|apply Hv].
  - eapply Hv, ht_view_Some; [done|]. eauto.
Qed.

Lemma safe_remove_handle fid tr :
  tr = tid → safe tree_inv (remove_handle fid tr) (λ r, ∀ f, r = Some f → file_of f).
Proof.
  intros ->. unfold remove_handle. apply triple_bind_gets. intros s0 [].
  destruct (ht_remove fid tid (s_handles (st_sess s0))) as [[f t']|] eqn:E; intros s ->; simpl;
    [|by split; [constructor|]].
  destruct (handles_ok_remove _ _ _ _ _ ti_handles0 E) as (Ht & Hf & Et & _).
  split; [by constructor|]. intros f' [= <-]. by apply file_of_ok.
Qed.

Lemma safe_chain : safe tree_inv (gets st_chain) (λ c, cn_tree_id c = tid).
Proof. apply safe_gets. by intros s []. Qed.

Lemma safe_gets_any {A} (f : St → A) : safe tree_inv (gets f) (λ _, True).
Proof. by apply safe_gets. Qed.
#[local] Hint Resolve fo_path file_of_del file_of_set_dir Hm : inside.

(** The lemma for one system-call computation, and for one helper. *)
Ltac io_op :=
  lazymatch goal with
  | |- safe _ (fstat_meta _) _ => apply safe_fstat_meta
  | |- safe _ (stat_meta _) _ => apply safe_stat_meta
  | |- safe _ (open_raw _ _ _) _ => apply safe_open_raw
  | |- safe _ (pread _ _ _) _ => apply safe_pread
  | |- safe _ (pwrite_all _ _ _) _ => apply safe_pwrite_all
  | |- safe _ (range_lock _ _ _ _) _ => apply safe_range_lock
  | |- safe _ (fs_sizes _) _ => apply safe_fs_sizes
  | |- safe _ (rename_noreplace _ _) _ => apply safe_rename_noreplace
  | |- safe _ (dir_snapshot _ _) _ => apply safe_dir_snapshot
  | |- safe _ (lock_elems _ _ _) _ => apply safe_lock_elems
  | |- safe _ (unlock_all _ _) _ => apply safe_unlock_all
  | |- safe _ (fsync _) _ => by apply safe_plain
  | |- safe _ (advise_sequential _) _ => by apply safe_plain
  | |- safe _ (ftruncate _ _) _ => apply safe_at
  | |- safe _ (do _) _ => first [by apply safe_plain | apply safe_at]
  end.
Ltac helper_op :=
  lazymatch goal with
  | |- safe _ (mret _) _ => by apply safe_ret
  | |- safe _ (fail_resp _ _) _ => eapply safe_fail_resp; apply _
  | |- safe _ (ok_resp _ _) _ => eapply safe_ok_resp; apply _
  | |- safe _ (simple_resp _) _ => eapply safe_simple_resp; apply _
  | |- safe _ (put _) _ => eapply safe_put; apply _
  | |- safe _ (upd_pc _) _ => eapply safe_upd_pc; [apply _|intros ?; try (by apply noted_same)]
  | |- safe _ (upd_chain (chain_set_fid _)) _ => eapply safe_set_fid; apply _
  | |- safe _ (upd_w _) _ => eapply (safe_upd_leases _ _ _ (λ w, _)); apply _
  | |- safe _ (break_leases _ _) _ => eapply safe_break_leases; apply _
  | |- safe _ (notify_cleanup _) _ => eapply safe_notify_cleanup; apply _
  | |- safe _ (drop_file _) _ => eapply safe_drop_file; apply _
  | |- safe _ (finish_close _) _ => eapply safe_finish_close; [apply _|..]
  | |- safe _ (close_file _) _ => eapply safe_close_file; [apply _|..]
  | |- safe _ (io _) _ => eapply safe_io; [apply _|intros ?; io_op]
  end.

(** The lemma for an access to the locked session. *)
Ltac session_op :=
  lazymatch goal with
  | |- safe _ (gets st_chain) _ => apply safe_chain
  | |- safe _ (gets _) _ => apply safe_gets_any
  | |- safe _ (get_handle _) _ => apply safe_get_handle
  | |- safe _ (set_handle _ _) _ => apply safe_set_handle
  | |- safe _ (remove_handle _ _) _ => apply safe_remove_handle
  end.

(** One step along the structure of a handler. *)
Ltac handler_step :=
  lazymatch goal with
  | |- safe _ (mbind (λ _, ?k) _) _ => apply safe_seq
  | |- safe _ (mbind _ _) _ =>
      first [ eapply safe_bind; [first [helper_op | session_op]; solve [eauto with inside]
                                |intros ? ?; cbv beta in *]
            | apply (safe_bind _ _ _ (λ _, True)); [|intros ? _] ]
  | Hf : ∀ f, ?x = Some f → _ |- safe _ (match ?x with _ => _ end) _ =>
      let f := fresh "f" in destruct x as [f|]; [specialize (Hf f eq_refl)|clear Hf]
  | |- safe _ (match ?x with _ => _ end) _ => destruct x eqn:?
  | |- safe _ (for_each _ _) _ => apply safe_for_each; intros ? _
  | |- safe _ _ _ => first [helper_op | session_op]
  end.
Ltac handler := repeat handler_step; eauto with inside.

Lemma safe_close h body : safe tree_inv (close h body) (λ _, True).
Proof. unfold close. handler. Qed.

Lemma safe_flush h body : safe tree_inv (flush h body) (λ _, True).
Proof. unfold flush. handler. Qed.

Lemma safe_read h body : safe tree_inv (read h body) (λ _, True).
Proof. unfold read, read_buffered. handler. Qed.

Lemma safe_write h msg : safe tree_inv (write h msg tree) (λ _, True).
Proof. unfold write. handler. Qed.

Lemma safe_lock h body : safe tree_inv (lock h body) (λ _, True).
Proof.
  unfold lock. handler.
Qed.

Lemma safe_query_directory h msg : safe tree_inv (query_directory h msg) (λ _, True).
Proof. unfold query_directory. handler. Qed.

(** The volume label is that of the handle's share, which exists. *)
Lemma safe_fs_info f class : file_of f → safe tree_inv (fs_info srv f class) (λ _, True).
Proof. intros Hf. unfold fs_info. rewrite (fo_share f Hf), Hshare. handler. Qed.

Lemma safe_query_info h body : safe tree_inv (query_info srv h body) (λ _, True).
Proof.
  unfold query_info. handler; [|by apply safe_fs_info..].
  unfold file_info. handler.
Qed.

Lemma safe_change_notify h body : safe tree_inv (change_notify h body) (λ _, True).
Proof.
  unfold change_notify. handler. intros np Hnp. apply elem_of_app in Hnp as [?|Hnp]; [by left|]. right.
  apply list_elem_of_singleton in Hnp as ->.
  apply watchable_inside. eauto with inside.
Qed.

Lemma safe_ioctl h body : safe tree_inv (ioctl srv h body) (λ _, True).
Proof. unfold ioctl. handler. Qed.

(** ** SET_INFO, on a writable tree *)
Lemma safe_set_disposition f data :
  tr_read_only tree = false → file_of f →
  safe tree_inv (set_disposition f data) (λ r, file_of r.2).
Proof.
  intros Hro Hf. pose proof (Hm Hro). destruct data as [|flag data]; simpl; [by apply safe_ret|].
  destruct (negb (flag =? 0) && bool_decide (of_rel f = [])); [by apply safe_ret|].
  apply (safe_bind _ _ _ (λ _, True)); [handler|].
  intros [st|] _; apply safe_ret; [done|]. destruct Hf. constructor; try done. by rewrite Hro.
Qed.

Lemma safe_rename_target f p :
  inside (sc_path share) p → safe tree_inv (rename_target f p) (λ _, True).
Proof. intros Hp. unfold rename_target. handler. Qed.

Lemma safe_set_rename f data :
  tr_read_only tree = false → file_of f →
  safe tree_inv (set_rename f data (sc_path share)) (λ r, file_of r.2).
Proof.
  intros Hro Hf. pose proof (Hm Hro). unfold set_rename. destruct (parse_rename data) as [[replace name]|]; [|by apply safe_ret].
  destruct (resolve (sc_path share) name) as [[p rel]|st] eqn:Er; [|by apply safe_ret].
  apply inside_resolve in Er. destruct (_ || _); [by apply safe_ret|].
  apply (safe_bind _ _ _ (λ _, True)); [handler|]. intros collision _.
  destruct collision; [by apply safe_ret|].
  eapply safe_bind; [by apply safe_rename_target|]. intros replaced _.
  apply (safe_bind _ _ _ (λ _, True)); [handler|].
  intros [u|e] _; apply safe_ret; [|done]. destruct Hf. by constructor.
Qed.

Lemma safe_set_info_class class f data own :
  tr_read_only tree = false → file_of f →
  safe tree_inv (set_info_class class f data (sc_path share) own) (λ r, file_of r.2).
Proof.
  intros Hro Hf. pose proof (Hm Hro). unfold set_info_class.
  repeat case_match; try (by apply safe_ret);
  lazymatch goal with
  | |- safe _ (mbind _ (set_basic_info _ _)) _ =>
      eapply (safe_bind _ _ _ (λ _, True)); [unfold set_basic_info; handler|intros; by apply safe_ret]
  | |- safe _ (mbind _ (set_disposition _ _)) _ =>
      eapply safe_bind; [by apply safe_set_disposition|intros [??] ?; by apply safe_ret]
  | |- safe _ (mbind _ (set_rename _ _ _)) _ =>
      eapply safe_bind; [by apply safe_set_rename|intros [[??]?] ?; by apply safe_ret]
  | |- _ => eapply (safe_bind _ _ _ (λ _, True)); [handler|intros [|] _; by apply safe_ret]
  end.
Qed.

Lemma safe_set_info h msg ro :
  tr_read_only tree = ro → safe tree_inv (set_info h msg share ro) (λ _, True).
Proof.
  intros Hro.
  unfold set_info.
  repeat lazymatch goal with
  | |- safe _ (mbind _ (set_info_class _ _ _ _ _)) _ =>
      eapply safe_bind; [by apply safe_set_info_class|intros [[??]?] ?; cbn [snd] in *]
  | |- _ => handler_step
  end; eauto with inside.
Qed.

(** ** CREATE *)

(** The dispositions the protocol defines. *)
Definition disposition_ok (d : Z) : Prop := 0 ≤ d ≤ 5.

(** A request that may not write may reach as far as its disposition. *)
Definition reach_create (d : Z) : Prop :=
  m ≠ MayWrite → disposition_ok d ∧ (d = FILE_OPEN_IF → m = MayOpenIf).

(** The flags of an open that passed the read-only checks. *)
Lemma create_flags_ok d rw :
  (m ≠ MayWrite → creates_file d = false) → reach_create d → flags_ok m (create_flags d rw).
Proof.
  intros Hc Hr. unfold flags_ok, reach_create in *. clear Hm. destruct m; [done|..].
  all: destruct (Hr ltac:(done)) as [Hd Ho]; specialize (Hc ltac:(done)).
  all: unfold creates_file in Hc; rewrite bool_decide_eq_false in Hc.
  all: assert (d = FILE_OPEN ∨ d = FILE_OPEN_IF) as [-> | ->]
         by (unfold disposition_ok, FILE_OPEN, FILE_OPEN_IF, FILE_SUPERSEDE, FILE_CREATE, FILE_OVERWRITE,
               FILE_OVERWRITE_IF in *; destruct (decide (d = 1 ∨ d = 3)); [naive_solver|];
             exfalso; apply Hc; rewrite !elem_of_cons; lia).
  all: try (by specialize (Ho eq_refl)). all: by destruct rw.
Qed.

Lemma flags_ok_retry flags : flags_ok m flags → flags_ok m (Z.lor (Z.ldiff flags oflag.RDWR) oflag.RDONLY).
Proof.
  unfold flags_ok. destruct m; [done|..]; unfold has_bits; change oflag.RDONLY with 0;
    rewrite Z.lor_0_r, !negb_false_iff, !Z.eqb_eq; intros E; apply Z.bits_inj'; intros k Hk;
    apply (f_equal (λ z, Z.testbit z k)) in E; rewrite Z.land_spec, Z.bits_0 in *; rewrite Z.ldiff_spec;
    by destruct (Z.testbit flags k), (Z.testbit oflag.RDWR k); simpl in *.
Qed.

(** [mkdir] is out of reach on a read-only tree. *)
Lemma safe_open_dir I `{!Quiet ok_event I} p exists_ :
  inside (sc_path share) p → (m ≠ MayWrite → exists_ = true) →
  safe I (open_dir p exists_) (λ _, True).
Proof.
  intros Hp Hro. unfold open_dir. apply (safe_bind _ _ _ (λ _, True)).
  - destruct exists_; [by apply safe_ret|]. destruct (cpath p) as [c|e] eqn:Ec; [|by apply safe_ret].
    apply cpath_Ok in Ec as ->. assert (m = MayWrite) by (destruct m; naive_solver). handler.
  - intros [a|e] _; [|by apply safe_ret]. handler. by destruct m.
Qed.

Lemma safe_open_file I `{!Quiet ok_event I} req p exists_ :
  inside (sc_path share) p → (m ≠ MayWrite → creates_file (cr_disposition req) = false) →
  reach_create (cr_disposition req) →
  safe I (open_file req p (tr_read_only tree) exists_) (λ _, True).
Proof.
  intros Hp Hro Hr. unfold open_file. handler; auto using create_flags_ok, flags_ok_retry.
Qed.


Lemma handles_ok_insert t f id t' :
  ht_insert f t = (id, t') →
  handles_ok (srv_cfg srv) T t → ht_len t < 2 ^ 32 - 1 → handle_ok (srv_cfg srv) T f →
  handles_ok (srv_cfg srv) T t'.
Proof.
  intros E [Hw Hv] Hl Hf. replace t' with (ht_insert f t).2 by (by rewrite E). split; [by apply ht_insert_wf|]. intros fid f'.
  rewrite (proj2 (ht_view_insert f t fid Hw Hl)). case_decide; [naive_solver|apply Hv].
Qed.

(** The invariant while the handle table is still [t]. *)
#[local] Abbreviation inv_at t := (λ s, tree_inv s ∧ s_handles (st_sess s) = t).

Lemma triple_create_opened t h req cid oplock p rel opened :
  ht_len t < 2 ^ 32 - 1 → inside (sc_path share) p →
  (tr_read_only tree = true → has_bits (cr_options req) FILE_DELETE_ON_CLOSE = false) →
  triple (inv_at t) (create_opened srv h req tree cid oplock p rel opened) (λ _, tree_inv) tree_inv.
Proof.
  intros Hlen Hp Hdel. unfold create_opened. destruct opened as [[[fd is_dir] writable] action].
  assert (∀ s, inv_at t s → tree_inv s) as Hinv by tauto.
  eapply (triple_safe_bind _ _ _ (λ _, True)); [handler|done|]. intros [meta|e] _.
  2:{ eapply (triple_safe (inv_at t) _ (λ _, True)); [handler|tauto..]. }
  eapply (triple_safe_bind _ _ _ (λ _, True)); [handler|done|]. intros _ _.
  eapply (triple_safe_bind _ _ _ (λ _, True)); [handler|done|]. intros _ _. cbv zeta.
  apply triple_bind_gets. intros s0 [Hs0 Ht0]. apply triple_bind_gets. intros ? ->.
  rewrite Ht0. destruct (ht_insert _ t) as [fid t'] eqn:Ei.
  eapply (triple_bind _ _ _ (λ _, tree_inv)).
  - apply triple_modify. intros ? ->. destruct Hs0. constructor; try done. simpl.
    eapply handles_ok_insert; [exact Ei|by rewrite <-Ht0|done|].
    apply file_of_ok; [done|]. by constructor.
  - intros _. eapply (triple_safe tree_inv _ (λ _, True)); [|tauto..]. handler.
Qed.

(** What passes the checks of CREATE on a read-only tree exists already. *)
Lemma create_refused_ro req ex ed rel :
  disposition_ok (cr_disposition req) → creates_file (cr_disposition req) = false →
  create_refused req true ex ed rel = None → ex = true.
Proof.
  unfold disposition_ok, creates_file, create_refused. rewrite bool_decide_eq_false. intros Hd Hc.
  destruct ex; [done|]. simpl.
  destruct (Z.eqb_spec (cr_disposition req) FILE_OPEN_IF); [done|].
  destruct (_ && bool_decide (rel = [])); [done|].
  destruct (Z.eqb_spec (cr_disposition req) FILE_OPEN); [done|].
  destruct (Z.eqb_spec (cr_disposition req) FILE_OVERWRITE); [done|].
  intros _. exfalso. apply Hc. rewrite !elem_of_cons.
  unfold FILE_OPEN, FILE_OPEN_IF, FILE_SUPERSEDE, FILE_CREATE, FILE_OVERWRITE, FILE_OVERWRITE_IF in *. lia.
Qed.

Lemma safe_create h msg cid oplock :
  (∀ req, parse_create msg = Some req → reach_create (cr_disposition req)) →
  safe tree_inv (create srv h msg share tree cid oplock) (λ _, True).
Proof.
  intros Hreach. unfold create. destruct (parse_create msg) as [req|]; [|handler].
  specialize (Hreach req eq_refl).
  destruct (resolve (sc_path share) (cr_name req)) as [[p rel]|st] eqn:Er; [|handler].
  apply inside_resolve in Er. apply triple_bind_gets. intros s0 Hs0.
  set (t := s_handles (st_sess s0)).
  apply (triple_conseq (inv_at t) _ tree_inv _ (λ _, tree_inv) _); [|by intros ? ->|tauto|done].
  assert (∀ s, inv_at t s → tree_inv s) as Hinv by tauto.
  destruct (Z.leb_spec MAX_OPENS_PER_SESSION (ht_len t)) as [|Hlen].
  { eapply (triple_safe (inv_at t) _ (λ _, True)); [handler|tauto..]. }
  destruct (tr_read_only tree && _) eqn:Ero.
  { eapply (triple_safe (inv_at t) _ (λ _, True)); [handler|tauto..]. }
  eapply (triple_safe_bind _ _ _ (λ _, True)); [handler|done|]. intros existing _. cbv zeta.
  destruct (create_refused _ _ _ _ _) as [st|] eqn:Eref.
  { eapply (triple_safe (inv_at t) _ (λ _, True)); [handler|tauto..]. }
  assert (tr_read_only tree = true → creates_file (cr_disposition req) = false ∧
    has_bits (cr_options req) FILE_DELETE_ON_CLOSE = false) as Hro.
  { intros E. rewrite E in Ero. simpl in Ero. by apply orb_false_iff in Ero as [[_ ?]%orb_false_iff ?]. }
  set (ex := match existing with Ok _ => true | Err _ => false end) in *.
  assert (m ≠ MayWrite → ex = true) as Hex.
  { intros Hw. pose proof (reach_ro Hw) as E. rewrite E in Eref. destruct (Hro E), (Hreach Hw).
    by apply create_refused_ro in Eref. }
  eapply (triple_safe_bind _ _ _ (λ _, True)); [|done|].
  { match goal with |- safe _ (if ?b then _ else _) _ => destruct b end; [apply safe_open_dir; [apply _|done..]|].
    apply safe_open_file; [apply _|done| |done]. intros E%reach_ro. by apply Hro. }
  intros [opened|st] _; [|eapply (triple_safe (inv_at t) _ (λ _, True)); [handler|tauto..]].
  apply triple_create_opened; [unfold MAX_OPENS_PER_SESSION in Hlen; lia|done|]. intros E. by apply Hro.
Qed.

(** ** Any command on a disk tree *)
Definition req_reach (h : ReqHdr) (msg : bytes) : Prop :=
  h_command h = cmd.CREATE → ∀ req, parse_create msg = Some req → reach_create (cr_disposition req).

Lemma safe_dispatch_tree h msg :
  req_reach h msg → safe tree_inv (dispatch_tree srv h msg tree) (λ _, True).
Proof.
  intros Hreq. unfold dispatch_tree. rewrite Hshare.
  eapply safe_bind; [apply safe_gets_any|]. intros pc _. cbv zeta.
  destruct (_ =? cmd.READ); [apply safe_read|]. apply safe_seq; [|by apply safe_ret].
  destruct (Z.eqb_spec (h_command h) cmd.CREATE); [apply safe_create; by apply Hreq|].
  repeat case_match; first [apply safe_close | apply safe_flush | apply safe_write
    | apply safe_query_directory | apply safe_query_info | by apply safe_set_info | apply safe_ioctl
    | apply safe_lock | apply safe_change_notify | handler].
Qed.
End tree.
