(* ===== verification/SessionSafe.v ===== *)
(** Safety of the commands of an established session: the tree commands and
    the dispatch to a tree. *)
From S2P Require Import Prelude Hoare Wire Status Os Sample Lease Vfs Handles Crypto Session Config Authz.
From S2P Require Import Smb2 State Create FileOps Query SetInfo Negotiate Dispatch Confine TreeSafe.
Local Open Scope Z_scope.

(** ** The invariant of a session *)

(** [N] bounds the tree connects the session has seen. *)
Record sess_ok (cfg : Config) (N : Z) (x : SessionInner) : Prop := {
  so_next : 0 ≤ s_next_tree_id x ≤ N;
  so_ids : ∀ id tr, s_trees x !! id = Some tr → id ≤ s_next_tree_id x;
  so_trees : trees_ok cfg (s_trees x);
  so_handles : handles_ok cfg (s_trees x) (s_handles x) }.

(** A configuration the server starts with. *)
Record srv_ok `{Env} (srv : Srv) : Prop := {
  sv_some : cf_shares (srv_cfg srv) ≠ [];
  sv_authz : authz_validate (srv_cfg srv) = Some (Ok tt);
  sv_shares : len (cf_shares (srv_cfg srv)) ≤ 2 ^ 32 }.

Lemma sess_ok_new cfg N : 0 ≤ N → sess_ok cfg N session_new.
Proof.
  intros HN. constructor; simpl; [lia|by intros ? ? ?%lookup_empty_Some| |].
  - by intros ? ? ?%lookup_empty_Some.
  - split; [apply ht_empty_wf|]. intros fid f Hf.
    apply ht_view_Some in Hf as (i & g & _ & Hl & _); [|apply ht_empty_wf]. done.
Qed.

Lemma sess_ok_mono cfg N M x : N ≤ M → sess_ok cfg N x → sess_ok cfg M x.
Proof. intros ? []. constructor; try done. lia. Qed.

(** A new tree: its handles are those of the trees before it, so none. *)
Lemma sess_ok_connect cfg N x tr :
  sess_ok cfg N x →
  (tr_ipc tr = false → is_Some (cf_shares cfg !! Z.to_nat (tr_share_idx tr))) →
  sess_ok cfg (N + 1)
    (s_set_trees (<[s_next_tree_id x + 1 := tr]> (s_trees x)) (s_set_next_tree (s_next_tree_id x + 1) x)).
Proof.
  intros [Hn Hi Ht [Hw Hv]] Htr. constructor; simpl; [lia|..].
  - intros id tr' [[<- _]|[_ E]]%lookup_insert_Some; [lia|]. apply Hi in E. lia.
  - intros id tr' [[<- <-]|[_ E]]%lookup_insert_Some; [done|by eapply Ht].
  - split; [done|]. intros fid f (tr' & sh & E & ?)%Hv. exists tr', sh.
    rewrite lookup_insert_ne; [done|]. apply Hi in E. lia.
Qed.

(** A tree goes once no handle refers to it. *)
Lemma sess_ok_disconnect cfg N x T tid :
  s_trees x = delete tid T → 0 ≤ s_next_tree_id x ≤ N →
  (∀ id tr, T !! id = Some tr → id ≤ s_next_tree_id x) → trees_ok cfg T →
  handles_ok cfg T (s_handles x) → (∀ fid f, ht_view (s_handles x) fid = Some f → of_tree_id f ≠ tid) →
  sess_ok cfg N x.
Proof.
  intros E Hn Hi Ht [Hw Hv] Hno. constructor; rewrite ?E; [done|..].
  - intros id tr [_ ?]%lookup_delete_Some. eauto.
  - intros id tr [_ ?]%lookup_delete_Some. eauto.
  - split; [done|]. intros fid f Hf. destruct (Hv _ _ Hf) as (tr & sh & Etr & ?).
    exists tr, sh. rewrite lookup_delete_ne; [done|]. intros E'. by apply (Hno _ _ Hf).
Qed.

Lemma check_total `{Env} cfg share who :
  authz_validate cfg = Some (Ok tt) → share ∈ cf_shares cfg → is_Some (check cfg share who).
Proof.
  intros Hv Hin. unfold authz_validate in Hv. destruct (validate_groups _ _); [|done].
  apply (validate_shares_parses _ _ _ Hv) in Hin.
  apply Forall_app in Hin as [Hva [Hin Hro]%Forall_app].
  destruct (any_matches_spec cfg who _ Hin) as (b & E & _).
  destruct (any_matches_spec cfg who _ Hva) as (b' & E' & _).
  destruct (any_matches_spec cfg who _ Hro) as (b'' & E'' & _).
  unfold check. rewrite E. simpl. destruct b; [eauto|].
  case_bool_decide; simpl; rewrite ?E'; simpl; [|destruct b'; simpl; [|eauto]];
    (destruct (sc_read_only share); simpl; [eauto|rewrite E''; simpl; destruct b''; eauto]).
Qed.

(** ** Commands *)
Section session.
Context `{Env} `{!OsLaws} (srv : Srv) (Hsrv : srv_ok srv) (N : Z) (HN : N + 1 < 2 ^ 32).
Context (reg : Registry) (o0 : OsSt) (l0 : list NotifyPend) (root : path) (m : reach).

#[local] Abbreviation Q := (allowed root m).

(** The state while the lock of a session is held. *)
Record locked_inv (M : Z) (s : St) : Prop := {
  li_sess : sess_ok (srv_cfg srv) M (st_sess s);
  li_reg : w_sessions (st_w s) = reg;
  li_noted : noted Q l0 (st_pc s);
  li_trace : io_only Q o0 (w_os (st_w s)) }.

(** What is known of a run that has not returned. *)
Definition traced (s : St) : Prop := io_only Q o0 (w_os (st_w s)).

#[global] Instance locked_inv_quiet M : Quiet Q (locked_inv M).
Proof. intros s s' [] E1 E2 _ E4 E5. constructor; rewrite ?E1, ?E2; try done; [by eapply noted_trans|by etrans]. Qed.

Lemma locked_inv_mono M M' s : M ≤ M' → locked_inv M s → locked_inv M' s.
Proof. intros ? []. constructor; try done. by eapply sess_ok_mono. Qed.

Lemma safe_locked_fail M h st : safe (locked_inv M) (fail_resp h st) (λ _, True).
Proof. eapply safe_fail_resp, _. Qed.

(** The share a TREE_CONNECT names. *)
Lemma find_share_spec (ipc : bool) name idx (sh : option ShareCfg) :
  (if ipc then Some (U32_MAX, None)
   else '(i, sh) ← list_find (λ s : ShareCfg, eq_ignore_case (sc_name s) name = true) (cf_shares (srv_cfg srv));
        Some (wrap 32 (Z.of_nat i), Some sh)) = Some (idx, sh) →
  match sh with
  | None => ipc = true
  | Some sh => ipc = false ∧ sh ∈ cf_shares (srv_cfg srv) ∧ cf_shares (srv_cfg srv) !! Z.to_nat idx = Some sh
  end.
Proof.
  destruct ipc; [by intros [= <- <-]|].
  destruct (list_find _ _) as [[i sh']|] eqn:E; simpl; [|done]. intros [= <- <-].
  apply list_find_Some in E as (El & _). split_and!; [done|by eapply list_elem_of_lookup_2|].
  pose proof (lookup_lt_Some _ _ _ El). pose proof (sv_shares srv Hsrv).
  unfold wrap. rewrite Z.mod_small by lia. by rewrite Nat2Z.id.
Qed.

(** The new tree enters the session. *)
Lemma triple_add_tree h s0 tr body :
  locked_inv N s0 → (tr_ipc tr = false → is_Some (cf_shares (srv_cfg srv) !! Z.to_nat (tr_share_idx tr))) →
  let tree_id := wrap 32 (s_next_tree_id (st_sess s0) + 1) in
  triple (λ s, s = s0)
    (upd_sess (s_set_next_tree tree_id) ;;
     upd_sess (λ x, s_set_trees (<[tree_id := tr]> (s_trees x)) x) ;;
     upd_chain (chain_set_tree tree_id) ;; ok_resp h body) (λ _, locked_inv (N + 1)) traced.
Proof.
  intros [Hs Hr Ht] Htr. destruct (so_next _ _ _ Hs). unfold wrap. rewrite Z.mod_small by lia. cbv zeta.
  do 3 apply triple_bind_modify.
  eapply triple_safe; [eapply safe_ok_resp, locked_inv_quiet| |done|by intros ? []].
  intros ? ->. constructor; [|done..]. exact (sess_ok_connect _ _ (st_sess s0) tr Hs Htr).
Qed.

(** TREE_CONNECT admits a tree of a configured share; the access check does
    not panic on a validated configuration. *)
Lemma triple_tree_connect h msg :
  triple (locked_inv N) (tree_connect srv h msg) (λ _, locked_inv (N + 1)) traced.
Proof.
  assert (∀ st, triple (locked_inv N) (fail_resp h st) (λ _, locked_inv (N + 1)) traced) as Hfail.
  { intros st. eapply triple_safe; [apply safe_locked_fail|done| |by intros ? []].
    intros _ s Hs _. apply (locked_inv_mono N); [lia|done]. }
  unfold tree_connect. destruct (parse_tree_connect msg) as [p|]; [|apply Hfail]. cbv zeta.
  set (name := rsplit_last BACKSLASH p).
  apply triple_bind_gets. intros s0 Hs0.
  assert (∀ st, triple (λ s, s = s0) (fail_resp h st) (λ _, locked_inv (N + 1)) traced) as Hfail0.
  { intros st. eapply triple_conseq; [apply Hfail|by intros ? ->|done..]. }
  match goal with |- triple _ (match ?x with _ => _ end) _ _ => destruct x as [[idx sh]|] eqn:Ex end;
    [|apply Hfail0].
  apply find_share_spec in Ex.
  match goal with |- triple _ (match ?x with _ => _ end) _ _ => assert (is_Some x) as [acc ->] end.
  { destruct sh as [sh|]; [|eauto]. apply check_total; [apply (sv_authz srv Hsrv)|apply Ex]. }
  assert (∀ ro, tr_ipc (mkTree idx (eq_ignore_case name (lit "IPC$")) ro) = false →
    is_Some (cf_shares (srv_cfg srv) !! Z.to_nat idx)) as Htr.
  { simpl. intros _ Hi. destruct sh as [sh|]; [|congruence]. destruct Ex as (_ & _ & ->). eauto. }
  destruct acc; [apply Hfail0|..]; (destruct (_ <=? _); [apply Hfail0|]); (apply triple_add_tree; [done|exact (Htr _)]).
Qed.

(** ** TREE_DISCONNECT *)
Section disconnect.
Context (x : SessionInner) (Hx : sess_ok (srv_cfg srv) N x) (tid : Z).
Context (Hfile : ∀ f, handle_ok (srv_cfg srv) (s_trees x) f → of_tree_id f = tid →
  inside root (of_path f) ∧ (m ≠ MayWrite → of_delete_on_close f = false)).

(** The loop: the handles left on the tree are among the ids left. *)
Record closing (ids : list Z) (s : St) : Prop := {
  cl_trees : s_trees (st_sess s) = delete tid (s_trees x);
  cl_next : s_next_tree_id (st_sess s) = s_next_tree_id x;
  cl_handles : handles_ok (srv_cfg srv) (s_trees x) (s_handles (st_sess s));
  cl_left : ∀ fid f, ht_view (s_handles (st_sess s)) fid = Some f → of_tree_id f = tid → fid ∈ ids;
  cl_reg : w_sessions (st_w s) = reg;
  cl_noted : noted Q l0 (st_pc s);
  cl_trace : io_only Q o0 (w_os (st_w s)) }.

#[local] Instance closing_quiet ids : Quiet Q (closing ids).
Proof. intros s s' [] E1 E2 _ E4 E5. constructor; rewrite ?E1, ?E2; try done; [by eapply noted_trans|by etrans]. Qed.

(** A handle is removed, so it is no longer among those left. *)
Lemma triple_remove_left fid ids :
  triple (closing (fid :: ids)) (remove_handle fid tid)
    (λ r s, closing ids s ∧ ∀ f, r = Some f → inside root (of_path f) ∧
       (m ≠ MayWrite → of_delete_on_close f = false)) traced.
Proof.
  unfold remove_handle. apply triple_bind_gets. intros s0 [].
  destruct (ht_remove fid tid (s_handles (st_sess s0))) as [[f t']|] eqn:E; intros s ->; simpl.
  - destruct (handles_ok_remove _ _ _ _ _ _ _ cl_handles0 E) as (Ht & Hf & Et & Hv).
    split; [constructor; try done; simpl|intros f' [= <-]; by apply Hfile].
    intros fid' f'. rewrite Hv. case_decide as Hd; [done|]. intros Hv' Et'.
    specialize (cl_left0 _ _ Hv' Et'). set_solver.
  - split; [|done]. constructor; try done. intros fid' f Hv Et.
    specialize (cl_left0 _ _ Hv Et) as Hin. apply elem_of_cons in Hin as [->|]; [|done].
    exfalso. destruct cl_handles0 as [Hw _]. apply ht_view_Some in Hv as (i & g & -> & Hl); [|done].
    by rewrite (proj2 (ht_remove_Some (mk_fid g i) tid _ f _ Hw)) in E by eauto 6.
Qed.

Lemma triple_disconnect_loop ids :
  triple (closing ids)
    (for_each ids (λ fid,
       f ← remove_handle fid tid;
       match f with Some f => close_file f | None => mret tt end ;;
       notify_cleanup fid)) (λ _, closing []) traced.
Proof.
  apply triple_for_each. intros fid l. eapply triple_bind; [apply triple_remove_left|].
  intros r. apply (triple_pre _ (∀ f, r = Some f → inside root (of_path f) ∧
       (m ≠ MayWrite → of_delete_on_close f = false))); [tauto|]. intros Hf.
  eapply (triple_safe (closing l) _ (λ _, True)); [|tauto|tauto|by intros ? []].
  apply safe_seq; [|eapply safe_notify_cleanup, _].
  destruct r as [f|]; [|by apply safe_ret]. destruct (Hf f eq_refl). eapply (safe_close_file root m); [apply _|done..].
Qed.

Lemma triple_tree_disconnect h :
  triple (λ s, locked_inv N s ∧ st_sess s = x ∧ cn_tree_id (st_chain s) = tid) (tree_disconnect h)
    (λ _, locked_inv N) traced.
Proof.
  unfold tree_disconnect. apply triple_bind_gets. intros s0 ([_ Hr Hn Ht] & Ex & ->).
  apply triple_bind_modify. apply triple_bind_gets. intros ? ->. rewrite Ex. simpl.
  eapply triple_bind.
  - eapply triple_conseq; [apply triple_disconnect_loop| |by intros ? ? ?; exact H1|done].
    intros ? ->. constructor; simpl; rewrite ?Ex; try done; [apply Hx|].
    intros fid f Hv Et. apply elem_of_ids_in_tree; [apply Hx|]. exists f.
    rewrite ht_get_view, Hv. simpl. by rewrite Et, Z.eqb_refl.
  - intros ?. eapply (triple_safe (closing []) _ (λ _, True)); [eapply safe_simple_resp, _|done| |by intros ? []].
    intros _ s [] _. constructor; try done. destruct Hx.
    eapply (sess_ok_disconnect _ _ _ (s_trees x) tid); rewrite ?cl_next0; try done.
    intros fid f Hv Et. by apply (cl_left0 _ _ Hv), elem_of_nil in Et.
Qed.
End disconnect.

(** ** The dispatch of a locked session *)
Lemma safe_ioctl_quiet I `{!Quiet Q I} h msg : safe I (ioctl srv h msg) (λ _, True).
Proof.
  unfold ioctl. eapply safe_bind; [by apply (safe_gets _ _ (λ _, True))|]. intros pc _. cbv zeta.
  destruct (parse_ioctl _) as [ctl|]; [|eapply safe_fail_resp, _].
  destruct (ctl =? FSCTL_VALIDATE_NEGOTIATE_INFO).
  - destruct (negb _); [eapply safe_upd_pc; [apply _|intros ?; by apply noted_same]|eapply safe_ok_resp, _].
  - destruct (ctl =? _); [eapply safe_ok_resp, _|eapply safe_fail_resp, _].
Qed.

(** [root] and [m] fit the tree a request acts on. *)
Definition request_fits (x : SessionInner) (tid : Z) (h : ReqHdr) (msg : bytes) : Prop :=
  ∀ tree, s_trees x !! tid = Some tree → tr_ipc tree = false →
  ∃ share, cf_shares (srv_cfg srv) !! Z.to_nat (tr_share_idx tree) = Some share ∧ root = sc_path share ∧
    (tr_read_only tree = false → m = MayWrite) ∧ req_reach m h msg.

Lemma triple_dispatch_locked x tid h msg :
  sess_ok (srv_cfg srv) N x → request_fits x tid h msg →
  triple (λ s, locked_inv N s ∧ st_sess s = x ∧ cn_tree_id (st_chain s) = tid)
    (dispatch_locked srv h msg) (λ _, locked_inv (N + 1)) traced.
Proof.
  intros Hx Hfit. unfold dispatch_locked.
  assert (∀ (k : M unit), safe (locked_inv N) k (λ _, True) →
    safe (locked_inv N) (k ;; mret (@None ZcReadPlan)) (λ _, True)) as Hseq.
  { intros k Hk. apply safe_seq; [done|by apply safe_ret]. }
  assert (∀ {A} (k : M A), safe (locked_inv N) k (λ _, True) →
    triple (λ s, locked_inv N s ∧ st_sess s = x ∧ cn_tree_id (st_chain s) = tid) k
      (λ _, locked_inv (N + 1)) traced) as Hlift.
  { intros A k Hk. eapply triple_safe; [exact Hk|tauto| |by intros ? []].
    intros _ s Hs _. apply (locked_inv_mono N); [lia|done]. }
  destruct (_ =? cmd.TREE_CONNECT).
  { apply (triple_bind _ _ _ (λ _, locked_inv (N + 1))); [|intros ?; by apply triple_ret].
    eapply triple_conseq; [apply triple_tree_connect|tauto|done|done]. }
  apply triple_bind_gets. intros s0 (Hs0 & Ex & Et). rewrite Ex, Et.
  apply (triple_conseq (λ s, locked_inv N s ∧ st_sess s = x ∧ cn_tree_id (st_chain s) = tid) _
           traced _ (λ _, locked_inv (N + 1)) _); [|by intros ? ->|done|done].
  destruct (s_trees x !! tid) as [tree|] eqn:Etr; [|apply Hlift, Hseq, safe_locked_fail].
  destruct (_ =? cmd.TREE_DISCONNECT).
  { apply (triple_bind _ _ _ (λ _, locked_inv N));
      [|intros ?; apply triple_ret; intros s Hs; apply (locked_inv_mono N); [lia|done]].
    apply triple_tree_disconnect; [done|]. intros f (tr & sh & E & Hipc & Esh & _ & Hp & Hd) Ef.
    rewrite Ef, Etr in E. simplify_eq. destruct (Hfit _ Etr Hipc) as (sh' & Esh' & Er & Hm & _).
    simplify_eq. rewrite Er. split; [done|]. intros Hw. apply Hd. destruct (tr_read_only tr); naive_solver. }
  destruct (tr_ipc tree) eqn:Eipc.
  { apply Hlift, Hseq. destruct (_ =? cmd.IOCTL); [eapply safe_ioctl_quiet, _|apply safe_locked_fail]. }
  destruct (Hfit _ Etr Eipc) as (share & Esh & Er & Hm & Hreq).
  eapply triple_conseq; [eapply (safe_dispatch_tree srv (s_trees x) (s_next_tree_id x) reg tid tree share o0 l0);
    try done| | |intros ? []; unfold traced; by rewrite Er].
  - intros s ([Hs Hr Hn Ht] & <- & <-). rewrite Er in Hn, Ht. constructor; try done. apply Hs.
  - intros _ s [[] _]. constructor; rewrite ?Er; try done. destruct Hx.
    constructor; rewrite ?ti_next, ?ti_trees; try done. lia.
Qed.
End session.

(** ** What a request on a tree can do *)

(** How far a request may go: on a read-only tree it may not change the disk;
    OPEN_IF may still open an existing file with O_CREAT. *)
Definition reach_of (tree : Tree) (h : ReqHdr) (msg : bytes) : reach :=
  if negb (tr_read_only tree) then MayWrite
  else if (h_command h =? cmd.CREATE) &&
          bool_decide (cr_disposition <$> parse_create msg = Some FILE_OPEN_IF) then MayOpenIf
  else MayRead.

Lemma reach_of_req tree h msg :
  (tr_read_only tree = true → h_command h = cmd.CREATE →
     ∀ req, parse_create msg = Some req → disposition_ok (cr_disposition req)) →
  (tr_read_only tree = false → reach_of tree h msg = MayWrite) ∧ req_reach (reach_of tree h msg) h msg.
Proof.
  intros Hd. unfold reach_of, req_reach, reach_create. destruct (tr_read_only tree); simpl; [|done].
  split; [done|]. intros Hc req Hp _. rewrite Hc, Hp, Z.eqb_refl. simpl.
  split; [by apply Hd|]. intros ->. by rewrite bool_decide_true.
Qed.


(** ** A concrete server *)
Definition sample_srv : Srv :=
  mkSrv sample_cfg (replicate 16 0) MAX_READ_TARGET 0 ∅ true [].

(** A CREATE request. *)
Definition sample_create (desired disposition options : Z) (name : str) : bytes :=
  [] ▷ zeros 64 ▷ p16 57 ▷ p8 0 ▷ p8 0 ▷ p32 0 ▷ p64 0 ▷ p64 0 ▷ p32 desired ▷ p32 0 ▷ p32 0
     ▷ p32 disposition ▷ p32 options ▷ p16 120 ▷ p16 (len (utf16le name)) ▷ p32 0 ▷ p32 0
     ▷ pbytes (utf16le name).
Definition sample_hdr (command : Z) : ReqHdr := mkReqHdr 1 command 1 0 0 5 1 7 None.

(** A session with one tree of the share at [/s], and the state of a handler
    on that tree. *)
Definition sample_session (ro : bool) : SessionInner :=
  s_set_trees (<[1 := mkTree 0 false ro]> ∅) (s_set_next_tree 1 session_new).
Definition sample_state (ro : bool) : @St mem_env :=
  @mkSt mem_env (@mkWorld mem_env (@mkOsSt mem_env mem_fs []) ∅ ∅ [])
    (pc_new sample_srv 0 0 0) (mkChain false 7 1 None true None) [] (sample_session ro).

Lemma sample_srv_ok : @srv_ok mem_env sample_srv.
Proof. constructor; [done|by vm_compute|by vm_compute]. Qed.

Lemma sample_session_ok ro : sess_ok sample_cfg 1 (sample_session ro).
Proof.
  apply (sess_ok_connect sample_cfg 0 session_new (mkTree 0 false ro)).
  - by apply sess_ok_new.
  - intros _. by eexists.
Qed.


(** A CREATE with disposition 6, which the protocol does not define, and
    FILE_DIRECTORY_FILE passes every check of a read-only tree and makes a
    directory. *)
Lemma read_only_tree_mkdir :
  let s' := (@dispatch_locked mem_env sample_srv (sample_hdr cmd.CREATE)
               (sample_create 1 6 FILE_DIRECTORY_FILE (lit "new")) (sample_state true)).2 in
  existsb ev_mutates (os_trace (w_os (st_w s'))) = true.
Proof. by vm_compute. Qed.
