(* ===== verification/WorldSafe.v ===== *)
(** Safety of whole frames: every session in the registry stays well formed
    and every system call stays inside the configured shares, whatever bytes
    arrive on whatever connections. *)
From S2P Require Import Prelude Hoare Gss Wire Status Os Sample Lease Vfs Handles Spnego Crypto Ntlm Session Config.
From S2P Require Import Authz Smb2 Credits State Negotiate Setup Create FileOps Query SetInfo Dispatch Confine TreeSafe SessionSafe.
Local Open Scope Z_scope.

(** The paths of a call are inside configured shares. *)
Definition confined (srv : Srv) (e : event) : Prop :=
  ∀ p, p ∈ ev_paths e → ∃ share, share ∈ cf_shares (srv_cfg srv) ∧ inside (sc_path share) p.

Lemma allowed_confined srv share m e :
  share ∈ cf_shares (srv_cfg srv) → allowed (sc_path share) m e → confined srv e.
Proof. intros Hs [Hp _] p ?%Hp. eauto. Qed.

(** Only the trees, the tree counter and the handles matter. *)
Lemma sess_ok_same cfg N x y :
  s_trees y = s_trees x → s_next_tree_id y = s_next_tree_id x → s_handles y = s_handles x →
  sess_ok cfg N x → sess_ok cfg N y.
Proof. intros E1 E2 E3 []. constructor; rewrite ?E1, ?E2, ?E3; done. Qed.

(** Changes of the connection that leave the paths to watch alone. *)
Ltac same_notes := intros ?; repeat case_match; done.

Section world.
Context `{Env} `{!OsLaws} (srv : Srv) (Hsrv : srv_ok srv) (o0 : OsSt) (l0 : list NotifyPend).

#[local] Abbreviation reg_ok N m := (map_Forall (λ (_ : Z) x, sess_ok (srv_cfg srv) N x) m).

Record world_inv (N : Z) (s : St) : Prop := {
  wi_reg : reg_ok N (w_sessions (st_w s));
  wi_noted : noted (confined srv) l0 (st_pc s);
  wi_trace : io_only (confined srv) o0 (w_os (st_w s)) }.

Definition world_traced (s : St) : Prop := io_only (confined srv) o0 (w_os (st_w s)).

Lemma world_inv_mono N M s : N ≤ M → world_inv N s → world_inv M s.
Proof. intros ? [Hr ? ?]. constructor; [|done|done]. intros i x Hx. eapply sess_ok_mono; [done|by apply (Hr i)]. Qed.

(** The invariant does not look at the chain, buffer, leases or mailboxes, nor
    at the rest of the connection, and is kept by what any share allows. *)
Lemma world_inv_quiet N share m :
  share ∈ cf_shares (srv_cfg srv) → Quiet (allowed (sc_path share) m) (world_inv N).
Proof.
  intros Hs s s' [Hr Hn Ht] _ E2 _ E3 E4.
  assert (∀ e, allowed (sc_path share) m e → confined srv e) as Hc by (intros e; by apply allowed_confined).
  constructor; [by rewrite E2|eapply noted_trans; [exact Hn|by eapply noted_mono]|].
  etrans; [exact Ht|]. by eapply io_only_mono.
Qed.

Section inv.
Context (N : Z).
#[local] Abbreviation inv := (world_inv N).

Lemma first_share : ∃ share, share ∈ cf_shares (srv_cfg srv).
Proof. destruct (cf_shares (srv_cfg srv)) as [|sh l] eqn:E; [by destruct (sv_some srv Hsrv)|]. exists sh. left. Qed.

(** ** Steps that leave the registry alone *)
Lemma w_modify (f : St → St) :
  (∀ s, w_sessions (st_w (f s)) = w_sessions (st_w s) ∧ w_os (st_w (f s)) = w_os (st_w s) ∧
        pc_notify_new (st_pc (f s)) = pc_notify_new (st_pc s)) →
  safe inv (modify f) (λ _, True).
Proof.
  intros Hf. apply safe_modify. intros s []. destruct (Hf s) as (E1 & E2 & E3).
  constructor; unfold noted; by rewrite ?E1, ?E2, ?E3.
Qed.

Lemma w_put f : safe inv (put f) (λ _, True).
Proof. by apply w_modify. Qed.
Lemma w_upd_pc f :
  (∀ p, pc_notify_new (f p) = pc_notify_new p) → safe inv (upd_pc f) (λ _, True).
Proof. intros Hf. apply w_modify. intros s. split_and!; try done; apply Hf. Qed.
Lemma w_upd_chain f : safe inv (upd_chain f) (λ _, True).
Proof. by apply w_modify. Qed.
Lemma w_gets {A} (f : St → A) : safe inv (gets f) (λ _, True).
Proof. by apply safe_gets. Qed.
Lemma w_fail_resp h st : safe inv (fail_resp h st) (λ _, True).
Proof. eapply safe_bind; [apply w_gets|]. intros. apply w_put. Qed.
Lemma w_ok_resp h b : safe inv (ok_resp h b) (λ _, True).
Proof. eapply safe_bind; [apply w_gets|]. intros. apply w_put. Qed.
Lemma w_put_ss h st sid flags blob : safe inv (put_ss h st sid flags blob) (λ _, True).
Proof. eapply safe_bind; [apply w_gets|]. intros. apply w_put. Qed.

(** A call without a path. *)
Lemma w_io_plain {A} (c : call A) :
  call_paths c = [] → mutates c = false → safe inv (io (do c)) (λ _, True).
Proof.
  intros Hp Hm. destruct first_share as [share Hs].
  eapply (safe_io (sc_path share) MayRead); [by apply world_inv_quiet|]. intros. by apply safe_plain.
Qed.

Lemma w_filetime_now : safe inv (io filetime_now) (λ _, True).
Proof.
  destruct first_share as [share Hs].
  eapply (safe_io (sc_path share) MayRead); [by apply world_inv_quiet|]. intros s0.
  eapply safe_bind; [by apply safe_plain|]. intros [a b] _. by apply safe_ret.
Qed.

(** ** Steps that change the registry *)
Lemma w_sessions_gets :
  safe inv (gets (λ s, w_sessions (st_w s))) (λ m, reg_ok N m).
Proof. apply safe_gets. by intros s []. Qed.

Lemma w_set_sessions_safe f :
  (∀ m, reg_ok N m → reg_ok N (f m)) →
  safe inv (upd_w (λ w, w_set_sessions (f (w_sessions w)) w)) (λ _, True).
Proof. intros Hf. apply safe_modify. intros s []. constructor; [by apply Hf|done|done]. Qed.

Lemma w_insert_session sid x :
  sess_ok (srv_cfg srv) N x →
  safe inv (upd_w (λ w, w_set_sessions (<[sid := x]> (w_sessions w)) w)) (λ _, True).
Proof.
  intros Hx. apply (w_set_sessions_safe (λ m, <[sid := x]> m)). intros. by apply map_Forall_insert_2.
Qed.

Lemma w_reg_create m : 0 ≤ N → reg_ok N m → safe inv (io (reg_create m)) (λ r, reg_ok N r.2).
Proof.
  intros HN Hm. destruct first_share as [share Hs].
  eapply (safe_io (sc_path share) MayRead); [by apply world_inv_quiet|]. intros s0.
  unfold reg_create. eapply (safe_bind _ _ _ (λ _, True)).
  - induction retry as [|k IH]; simpl; [apply safe_halt|].
    eapply safe_bind; [by apply safe_plain|]. intros b _.
    destruct (_ && _); [by apply safe_ret|apply IH].
  - intros id _. apply safe_ret. simpl. apply map_Forall_insert_2; [by apply sess_ok_new|done].
Qed.

(** Ending a session closes each of its files inside that file's share. *)
Lemma w_end_session sid : safe inv (end_session sid) (λ _, True).
Proof.
  unfold end_session. eapply safe_bind; [apply w_sessions_gets|]. intros m Hm. unfold reg_remove.
  apply safe_seq.
  - apply safe_modify. intros s []. constructor; [by apply map_Forall_delete|done|done].
  - destruct (m !! sid) as [x|] eqn:Ex; [|by apply safe_ret]. apply safe_for_each. intros f Hf.
    pose proof (Hm _ _ Ex) as [_ _ Ht [Hw Hv]].
    pose proof (ht_take_all_view _ Hw) as Hall. destruct (ht_take_all (s_handles x)) as [v t'].
    destruct Hall as (_ & _ & Hall). apply Hall in Hf as [fid Hf].
    destruct (Hv _ _ Hf) as (tr & sh & _ & _ & Es & _ & Hp & _).
    eapply (safe_close_file (sc_path sh) MayWrite); [|done..].
    apply world_inv_quiet. by eapply list_elem_of_lookup_2.
Qed.

Lemma reg_ok_get m sid x : reg_ok N m → reg_get sid m = Some x → sess_ok (srv_cfg srv) N x.
Proof. intros Hm Hx. by apply (Hm sid). Qed.

Lemma w_drop_channel sid x : sess_ok (srv_cfg srv) N x → safe inv (drop_channel sid x) (λ _, True).
Proof.
  intros Hx. apply safe_seq; [|by apply safe_ret]. apply w_insert_session. by apply (sess_ok_same _ _ x).
Qed.

(** ** Commands outside a session *)

(** A step along the structure of a command. *)
Ltac w_step :=
  lazymatch goal with
  | |- safe _ (mret _) _ => by apply safe_ret
  | |- safe _ (fail_resp _ _) _ => apply w_fail_resp
  | |- safe _ (simple_resp _) _ => apply w_ok_resp
  | |- safe _ (put_ss _ _ _ _ _) _ => apply w_put_ss
  | |- safe _ (put _) _ => apply w_put
  | |- safe _ (upd_pc _) _ => apply w_upd_pc; same_notes
  | |- safe _ (upd_chain _) _ => apply w_upd_chain
  | |- safe _ (drop_channel _ _) _ => apply w_drop_channel; by eapply reg_ok_get
  | |- safe _ (end_session _) _ => apply w_end_session
  | |- safe _ (io (do _)) _ => by apply w_io_plain
  | |- safe _ (io (urandom _)) _ => by apply w_io_plain
  | |- safe _ (io filetime_now) _ => apply w_filetime_now
  | |- safe _ (gets (λ s, w_sessions (st_w s))) _ => apply w_sessions_gets
  | |- safe _ (gets _) _ => apply w_gets
  | |- safe _ (mbind (λ _, ?k) _) _ => apply safe_seq
  | |- safe _ (mbind _ (gets (λ s, w_sessions (st_w s)))) _ =>
      eapply safe_bind; [apply w_sessions_gets|intros ? ?; cbv beta in *]
  | |- safe _ (mbind _ _) _ => apply (safe_bind _ _ _ (λ _, True)); [|intros ? _]
  | |- safe _ (match ?x with _ => _ end) _ => destruct x eqn:?
  | |- safe _ (for_each _ _) _ => apply safe_for_each; intros ? ?
  end.
Ltac w_auto := repeat w_step.

Lemma w_negotiate_body dialect cipher start : safe inv (negotiate_body srv dialect cipher start) (λ _, True).
Proof.
  unfold negotiate_body. cbv zeta. w_auto.
Qed.

Lemma w_negotiate h msg : safe inv (negotiate srv h msg) (λ _, True).
Proof. unfold negotiate. cbv zeta. w_auto. all: apply w_negotiate_body. Qed.

Lemma w_cancel h : safe inv (cancel h) (λ _, True).
Proof. unfold cancel. w_auto. Qed.

Lemma w_logoff h : safe inv (logoff h) (λ _, True).
Proof. unfold logoff. w_auto. Qed.

Lemma w_teardown_conn : safe inv teardown_conn (λ _, True).
Proof. unfold teardown_conn, teardown_channel. w_auto. Qed.

(** ** SESSION_SETUP *)
Context (HN : 0 ≤ N).

Lemma w_drop_setup sid : safe inv (drop_setup sid) (λ _, True).
Proof.
  apply safe_seq; [apply w_upd_pc; same_notes|].
  apply (w_set_sessions_safe (λ m, (reg_remove sid m).2)). intros. by apply map_Forall_delete.
Qed.

Lemma w_ntlm_negotiate h msg binding spnego : safe inv (ntlm_negotiate srv h msg binding spnego) (λ _, True).
Proof.
  unfold ntlm_negotiate. eapply safe_bind; [apply w_gets|]. intros pc _.
  eapply safe_bind; [apply w_sessions_gets|]. intros m Hm. cbv zeta.
  destruct binding; [w_auto|]. destruct (_ <=? _); [w_step|].
  eapply safe_bind; [by apply w_reg_create|]. intros [sid m'] Hm'. cbn [snd] in Hm'.
  apply safe_seq; [by apply (w_set_sessions_safe (λ _, m'))|w_auto].
Qed.

Lemma w_ntlm_bind h sid x ch auth chal signing done :
  sess_ok (srv_cfg srv) N x → safe inv (ntlm_bind srv h sid x ch auth chal signing done) (λ _, True).
Proof.
  intros Hx. unfold ntlm_bind. eapply safe_bind; [apply w_gets|]. intros pc _.
  destruct (_ || _); [w_auto|]. apply safe_seq; [|w_auto].
  apply w_insert_session. by apply (sess_ok_same _ _ x).
Qed.

Lemma w_ntlm_first h sid x ch auth chal signing done :
  sess_ok (srv_cfg srv) N x → safe inv (ntlm_first srv h sid x ch auth chal signing done) (λ _, True).
Proof.
  intros Hx. unfold ntlm_first. eapply safe_bind; [apply w_gets|]. intros pc _.
  destruct (verdict _ _ _) as [key user| |].
  - destruct (cannot_seal _ _ _); [apply safe_seq; [apply w_drop_setup|w_step]|].
    apply safe_seq; [|w_auto]. apply w_insert_session. by apply (sess_ok_same _ _ x).
  - destruct (cf_encrypt _); [apply safe_seq; [apply w_drop_setup|w_step]|].
    apply safe_seq; [|w_auto]. apply w_insert_session. by apply (sess_ok_same _ _ x).
  - apply safe_seq; [apply w_drop_setup|w_step].
Qed.

Lemma w_ntlm_authenticate h msg blob spnego signing :
  safe inv (ntlm_authenticate srv h msg blob spnego signing) (λ _, True).
Proof.
  unfold ntlm_authenticate. cbv zeta. apply safe_seq; [w_step|].
  eapply safe_bind; [apply w_gets|]. intros pc _. destruct (pc_channels pc !! _) as [ch|]; [|w_step].
  apply safe_seq; [w_step|]. destruct (ch_pending _) as [pa|]; [|w_step].
  eapply safe_bind; [apply w_sessions_gets|]. intros m Hm.
  destruct (reg_get _ m) as [x|] eqn:Ex; [|w_step]. apply (reg_ok_get _ _ _ Hm) in Ex.
  destruct (pa_binding pa); [by apply w_ntlm_bind|by apply w_ntlm_first].
Qed.

Lemma w_ntlm_anonymous h : safe inv (ntlm_anonymous srv h) (λ _, True).
Proof.
  unfold ntlm_anonymous. destruct (_ && _); [w_step|]. destruct (srv_allow_guest srv); [|w_step].
  eapply safe_bind; [apply w_sessions_gets|]. intros m Hm.
  eapply safe_bind; [by apply w_reg_create|]. intros [sid m'] Hm'. cbn [snd] in Hm'.
  apply safe_seq; [|w_auto].
  apply (w_set_sessions_safe (λ _, _)). intros _ _. apply map_Forall_insert_2; [|done].
  apply (sess_ok_same _ _ session_new); try done. by apply sess_ok_new.
Qed.

(** The GSS library touches no file. *)
Lemma w_gss {A} (k : IO A) :
  (∀ I, (∀ B (c : call B), gss_call c = true → safe I (do c) (λ _, True)) → safe I k (λ _, True)) →
  safe inv (io k) (λ _, True).
Proof.
  intros Hk. destruct first_share as [share Hs].
  eapply (safe_io (sc_path share) MayRead); [by apply world_inv_quiet|]. intros s0. apply Hk.
  intros B c [Hp Hm]%gss_call_plain. by apply safe_plain.
Qed.

Lemma w_krb_forget existing : safe inv (krb_forget existing) (λ _, True).
Proof. destruct existing; [apply w_drop_setup|by apply safe_ret]. Qed.

Lemma w_krb_continue h existing ctx preauth wrapped out :
  safe inv (krb_continue srv h existing ctx preauth wrapped out) (λ _, True).
Proof.
  unfold krb_continue, krb_keep. eapply safe_bind; [apply w_gets|]. intros pc _.
  eapply safe_bind; [apply w_sessions_gets|]. intros m Hm. cbv zeta. destruct existing; [w_auto|].
  destruct (_ <=? _); [apply safe_seq; [w_step|apply w_gss; intros; by apply safe_ctx_drop]|].
  eapply safe_bind; [by apply w_reg_create|]. intros [sid m'] Hm'. cbn [snd] in Hm'.
  apply safe_seq; [by apply (w_set_sessions_safe (λ _, m'))|w_auto].
Qed.

Lemma w_krb_done h existing preauth signing wrapped est :
  safe inv (krb_done srv h existing preauth signing wrapped est) (λ _, True).
Proof.
  unfold krb_done. eapply safe_bind; [apply w_gets|]. intros pc _.
  destruct (cannot_seal _ _ _); [apply safe_seq; [apply w_krb_forget|w_step]|]. cbv zeta.
  eapply safe_bind; [apply w_sessions_gets|]. intros m Hm.
  apply (safe_bind _ _ _ (λ r, reg_ok N r.2)).
  { destruct (_ ≫= _); [by apply safe_ret|by apply w_reg_create]. }
  intros [sid m'] Hm'. cbn [snd] in Hm'. apply safe_seq; [w_step|]. apply safe_seq; [|w_auto].
  apply (w_set_sessions_safe (λ _, _)). intros _ _. apply map_Forall_insert_2; [|done].
  destruct (reg_get sid m') as [x|] eqn:Ex; simpl.
  - apply (reg_ok_get _ _ _ Hm') in Ex. by apply (sess_ok_same _ _ x).
  - apply (sess_ok_same _ _ session_new); try done. by apply sess_ok_new.
Qed.

Lemma w_kerberos h msg : safe inv (kerberos_session_setup srv h msg) (λ _, True).
Proof.
  unfold kerberos_session_setup, krb_acceptor, krb_take.
  repeat first [apply w_krb_done | apply w_krb_continue | apply w_krb_forget
    | (apply w_gss; intros; by (apply safe_acceptor_new || apply safe_gss_step || apply safe_ctx_drop)) | w_step].
Qed.

Lemma w_session_setup h msg : safe inv (session_setup srv h msg) (λ _, True).
Proof.
  unfold session_setup, ntlm_session_setup.
  repeat first [apply w_kerberos | apply w_ntlm_negotiate | apply w_ntlm_authenticate | apply w_ntlm_anonymous | w_step].
Qed.
End inv.

(** ** One command *)

(** A safe step within a growing bound. *)
Lemma lift_safe {A} N N' (k : M A) (Q : A → Prop) :
  N ≤ N' → safe (world_inv N) k Q → triple (world_inv N) k (λ _, world_inv N') world_traced.
Proof.
  intros HM Hk. eapply triple_safe; [exact Hk|done| |by intros ? []].
  intros a s Hs _. by eapply world_inv_mono.
Qed.

(** Some share bounds what a request on the session can do. *)
Lemma request_fits_some N x tid h msg :
  sess_ok (srv_cfg srv) N x →
  ∃ share, share ∈ cf_shares (srv_cfg srv) ∧ request_fits srv (sc_path share) MayWrite x tid h msg.
Proof.
  intros Hx. destruct (s_trees x !! tid) as [tree|] eqn:Et.
  2:{ destruct first_share as [sh Hs]. exists sh. split; [done|]. intros ? E. congruence. }
  destruct (tr_ipc tree) eqn:Ei.
  { destruct first_share as [sh Hs]. exists sh. split; [done|]. intros ? E. congruence. }
  destruct (so_trees _ _ _ Hx _ _ Et Ei) as [sh Es]. exists sh.
  split; [by eapply list_elem_of_lookup_2|]. intros tr E _. simplify_eq. exists sh.
  by split_and!.
Qed.

Lemma triple_with_session N sid x h msg :
  N + 1 < 2 ^ 32 →
  triple (λ s, world_inv N s ∧ w_sessions (st_w s) !! sid = Some x)
    (with_session sid x (dispatch_locked srv h msg)) (λ _, world_inv (N + 1)) world_traced.
Proof.
  intros HN s [[Hr Hn Ht] Ex]. pose proof (Hr _ _ Ex) as Hx. simpl in Hx.
  destruct (request_fits_some N x (cn_tree_id (st_chain s)) h msg Hx) as (share & Hs & Hfit).
  pose proof (triple_dispatch_locked srv Hsrv N HN (w_sessions (st_w s)) (w_os (st_w s)) (pc_notify_new (st_pc s)) (sc_path share)
    MayWrite x (cn_tree_id (st_chain s)) h msg Hx Hfit (st_set_sess x s)) as Hd.
  assert (∀ o, io_only (allowed (sc_path share) MayWrite) (w_os (st_w s)) o → io_only (confined srv) o0 o) as Hio.
  { intros o Ho. etrans; [exact Ht|]. eapply io_only_mono; [|exact Ho]. intros e. by apply allowed_confined. }
  assert (locked_inv srv (w_sessions (st_w s)) (w_os (st_w s)) (pc_notify_new (st_pc s)) (sc_path share) MayWrite N
    (st_set_sess x s)) as Hl by (constructor; try done; by apply noted_same).
  unfold with_session. destruct (dispatch_locked srv h msg (st_set_sess x s)) as [[a|e] s'].
  - destruct Hd as [Hs' Hr' Hn' Ht']; [by split_and!|]. constructor; [|simpl|by apply Hio].
    2:{ eapply noted_trans; [exact Hn|]. eapply noted_mono; [|exact Hn']. intros e. by apply allowed_confined. }
    simpl. rewrite Hr'.
    apply map_Forall_insert_2; [done|]. intros i y Hy. eapply sess_ok_mono; [|by apply (Hr i)]. lia.
  - destruct Hd as [? Ht']; [by split_and!|]. split; [done|]. by apply Hio.
Qed.

Lemma triple_dispatch_session N h msg :
  N + 1 < 2 ^ 32 →
  triple (world_inv N) (dispatch_session srv h msg) (λ _, world_inv (N + 1)) world_traced.
Proof.
  intros HN. unfold dispatch_session.
  assert (triple (world_inv N) (fail_resp h status.USER_SESSION_DELETED ;; mret (@None ZcReadPlan))
    (λ _, world_inv (N + 1)) world_traced) as Hfail.
  { eapply lift_safe; [lia|]. apply safe_seq; [apply w_fail_resp|]. by apply (safe_ret _ _ (λ _, True)). }
  apply triple_bind_gets. intros s0 Hs0. apply triple_bind_gets. intros ? ->.
  apply (triple_conseq (λ s, s = s0) _ world_traced _ (λ _, world_inv (N + 1)) _); [|done..].
  destruct (negb _); [eapply triple_conseq; [exact Hfail|by intros ? ->|done..]|].
  apply triple_bind_gets. intros ? ->. unfold reg_get.
  destruct (w_sessions (st_w s0) !! _) as [x|] eqn:Ex;
    [|eapply triple_conseq; [exact Hfail|by intros ? ->|done..]].
  eapply triple_conseq; [by apply triple_with_session| |done..]. by intros ? ->.
Qed.

Lemma triple_dispatch_cmd N h msg :
  0 ≤ N → N + 1 < 2 ^ 32 →
  triple (world_inv N) (dispatch_cmd srv h msg) (λ _, world_inv (N + 1)) world_traced.
Proof.
  intros H0N HN. unfold dispatch_cmd. cbv zeta.
  assert (∀ k : M unit, safe (world_inv N) k (λ _, True) →
    triple (world_inv N) (k ;; mret (@None ZcReadPlan)) (λ _, world_inv (N + 1)) world_traced) as Hk.
  { intros k Hk. eapply (lift_safe _ _ _ (λ _, True)); [lia|]. apply safe_seq; [done|by apply safe_ret]. }
  destruct (_ =? cmd.NEGOTIATE); [apply Hk, w_negotiate|].
  destruct (_ =? cmd.ECHO); [apply Hk, w_ok_resp|].
  destruct (_ =? cmd.CANCEL); [apply Hk, w_cancel|].
  destruct (_ =? cmd.SESSION_SETUP); [by apply Hk, w_session_setup|].
  destruct (_ =? cmd.LOGOFF); [apply Hk, w_logoff|]. by apply triple_dispatch_session.
Qed.

Lemma triple_dispatch N h msg :
  0 ≤ N → N + 1 < 2 ^ 32 →
  triple (world_inv N) (dispatch srv h msg) (λ _, world_inv (N + 1)) world_traced.
Proof.
  intros H0N HN. unfold dispatch.
  assert (∀ k : M unit, safe (world_inv N) k (λ _, True) →
    triple (world_inv N) (k ;; mret (@None ZcReadPlan)) (λ _, world_inv (N + 1)) world_traced) as Hk.
  { intros k Hk. eapply (lift_safe _ _ _ (λ _, True)); [lia|]. apply safe_seq; [done|by apply safe_ret]. }
  assert (∀ s, world_inv N s → world_traced s) as Htr by (by intros ? []).
  eapply (triple_safe_bind _ _ _ (λ _, True)); [|done|].
  { destruct (_ =? _); [by apply safe_ret|]. eapply safe_bind; [apply w_gets|]. intros [b w] _.
    apply safe_seq; [apply w_upd_pc; same_notes|by apply safe_ret]. }
  intros fresh _. destruct (negb fresh); [apply Hk; apply w_upd_pc; same_notes|].
  eapply triple_safe_bind; [apply w_upd_chain|done|]. intros _ _.
  eapply triple_safe_bind; [apply w_gets|done|]. intros [grant out] _.
  eapply triple_safe_bind; [apply w_upd_pc; same_notes|done|]. intros _ _. cbv zeta.
  eapply triple_safe_bind; [apply w_gets|done|]. intros chain _.
  match goal with |- triple _ (if ?b then _ else _) _ _ => destruct b end; [apply Hk; apply w_upd_pc; same_notes|].
  eapply triple_safe_bind; [apply w_gets|done|]. intros ch _.
  match goal with |- triple _ (if ?b then _ else _) _ _ => destruct b end;
    [apply Hk, w_fail_resp|by apply triple_dispatch_cmd].
Qed.

(** ** One frame *)
Lemma world_inv_traced N s : world_inv N s → world_traced s.
Proof. by intros []. Qed.

Lemma triple_compound_loop frame base fuel : ∀ N l,
  0 ≤ N → N + Z.of_nat fuel < 2 ^ 32 →
  triple (world_inv N) (compound_loop fuel srv frame base l)
    (λ _, world_inv (N + Z.of_nat fuel)) world_traced.
Proof.
  induction fuel as [|fuel IH]; intros N l HN Hb; cbn [compound_loop].
  { intros s Hs. split; [done|by eapply world_inv_traced]. }
  assert (∀ {A} (k : M A), safe (world_inv N) k (λ _, True) →
    triple (world_inv N) k (λ _, world_inv (N + Z.of_nat (S fuel))) world_traced) as Hsafe.
  { intros A k Hk. eapply lift_safe; [lia|exact Hk]. }
  destruct (parse_hdr _) as [h|]; [|apply Hsafe; by apply safe_ret].
  eapply triple_safe_bind; [apply w_gets|apply world_inv_traced|]. intros tx_len _. cbv zeta.
  match goal with |- triple _ (if ?b then _ else _) _ _ => destruct b end.
  { apply Hsafe, safe_seq; [apply w_upd_pc; same_notes|by apply safe_ret]. }
  match goal with |- triple _ (if ?b then _ else _) _ _ => destruct b end; [apply Hsafe; by apply safe_ret|].
  eapply triple_safe_bind; [apply w_upd_chain|apply world_inv_traced|]. intros _ _.
  eapply (triple_safe_bind _ _ _ (λ _, True)); [|apply world_inv_traced|].
  { destruct (ls_prev l); [apply safe_seq; apply w_put|by apply safe_ret]. }
  intros _ _.
  eapply triple_safe_bind; [apply w_gets|apply world_inv_traced|]. intros start _.
  eapply triple_safe_bind; [apply w_gets|apply world_inv_traced|]. intros lsign _.
  eapply triple_bind; [apply triple_dispatch; lia|]. intros z. cbv beta.
  eapply triple_safe_bind; [apply w_gets|apply world_inv_traced|]. intros now _.
  eapply triple_safe_bind; [apply w_gets|apply world_inv_traced|]. intros sess _.
  destruct (if start <? now then _ else _) as [prev recs].
  match goal with |- triple _ (if ?b then _ else _) _ _ => destruct b end.
  - apply triple_ret. intros s Hs. eapply world_inv_mono; [|exact Hs]. lia.
  - replace (N + Z.of_nat (S fuel)) with (N + 1 + Z.of_nat fuel) by lia. apply IH; lia.
Qed.

Lemma w_sign_responses N recs : safe (world_inv N) (sign_responses recs) (λ _, True).
Proof.
  eapply safe_bind; [apply w_gets|]. intros n _. apply safe_for_each. intros [rec e] _.
  eapply safe_bind; [apply w_gets|]. intros [sc|] _; [apply w_put|by apply safe_ret].
Qed.

Lemma w_hash_responses N frame recs : safe (world_inv N) (hash_responses frame recs) (λ _, True).
Proof.
  eapply safe_bind; [apply w_gets|]. intros n _. apply safe_for_each. intros [rec e] _.
  eapply safe_bind; [apply w_gets|]. intros tx _. cbv zeta.
  destruct (_ =? cmd.NEGOTIATE); [apply w_upd_pc; same_notes|].
  match goal with |- safe _ (if ?b then _ else _) _ => destruct b end; [apply w_upd_pc; same_notes|by apply safe_ret].
Qed.

Lemma w_smb1 N frame base sealed : safe (world_inv N) (process_smb1 srv frame base sealed) (λ _, True).
Proof.
  unfold process_smb1, truncate, finish_frame. eapply safe_bind; [apply w_gets|]. intros neg _.
  destruct (neg || sealed); [apply safe_seq; [apply w_put|by apply safe_ret]|].
  destruct (smb1_negotiate_dialects frame) as [ds|]; [|apply safe_seq; [apply w_put|by apply safe_ret]].
  destruct (negb _).
  - do 2 (apply safe_seq; [apply w_put|]). by apply safe_ret.
  - apply safe_seq; [|apply safe_seq; [apply w_put|by apply safe_ret]].
    unfold negotiate_resp_smb1_wildcard. eapply safe_bind; [apply w_gets|]. intros start _.
    apply safe_seq; [apply w_put|apply w_negotiate_body].
Qed.

(** The most tree connects one frame can make. *)
Definition FRAME_CONNECTS : Z := 129.

Lemma triple_process_plain N frame tsid :
  0 ≤ N → N + FRAME_CONNECTS < 2 ^ 32 →
  triple (world_inv N) (process_plain srv frame tsid) (λ _, world_inv (N + FRAME_CONNECTS)) world_traced.
Proof.
  intros HN Hb. unfold process_plain, truncate, finish_frame.
  eapply triple_safe_bind; [apply w_gets|apply world_inv_traced|]. intros base _.
  eapply triple_safe_bind; [apply w_put|apply world_inv_traced|]. intros _ _.
  destruct (_ && _).
  { eapply lift_safe; [|apply w_smb1]. unfold FRAME_CONNECTS. lia. }
  eapply triple_safe_bind; [apply w_upd_chain|apply world_inv_traced|]. intros _ _.
  eapply triple_bind; [by apply triple_compound_loop|]. intros l. cbv beta.
  eapply (triple_safe (world_inv (N + FRAME_CONNECTS)) _ (λ _, True)); [|done..|apply world_inv_traced].
  eapply safe_bind; [apply w_gets|]. intros closing _. destruct closing.
  { apply safe_seq; [apply w_put|]. apply safe_seq; [|by apply safe_ret].
    destruct (ls_plan l); [by apply w_io_plain|by apply safe_ret]. }
  destruct (ls_plan l) as [p|]; [apply safe_seq; [apply w_put|by apply safe_ret]|].
  apply safe_seq; [destruct (bool_decide _); [by apply safe_ret|apply w_sign_responses]|].
  eapply safe_bind; [apply w_gets|]. intros dialect _.
  apply safe_seq; [destruct (_ =? 0x0311); [apply w_hash_responses|by apply safe_ret]|].
  eapply safe_bind; [apply w_gets|]. intros total _.
  apply safe_seq; [destruct (_ =? 0); apply w_put|by apply safe_ret].
Qed.

Lemma triple_with_buffer {A} N N' (k : M A) :
  triple (world_inv N) k (λ _, world_inv N') world_traced →
  triple (world_inv N) (with_buffer k) (λ _, world_inv N') world_traced.
Proof.
  intros Hk s [Hr Hn Ht]. unfold with_buffer. specialize (Hk (st_set_tx [] s)).
  destruct (k (st_set_tx [] s)) as [[a|e] s'].
  - destruct Hk as [? ? ?]; by constructor.
  - destruct Hk as [? ?]; [by constructor|done].
Qed.

Lemma triple_process_frame N frame :
  0 ≤ N → N + FRAME_CONNECTS < 2 ^ 32 →
  triple (world_inv N) (process_frame srv frame) (λ _, world_inv (N + FRAME_CONNECTS)) world_traced.
Proof.
  intros HN Hb. unfold process_frame. destruct (is_transform frame); [|by apply triple_process_plain].
  assert (N ≤ N + FRAME_CONNECTS) by (unfold FRAME_CONNECTS; lia).
  assert (triple (world_inv N) (mret Close) (λ _, world_inv (N + FRAME_CONNECTS)) world_traced) as Hclose.
  { eapply (lift_safe _ _ _ (λ _, True)); [done|by apply safe_ret]. }
  destruct (_ <? _); [done|]. cbv zeta.
  eapply triple_safe_bind; [apply w_gets|apply world_inv_traced|]. intros chans _.
  destruct (chans !! _ ≫= ch_enc) as [enc|]; [|done].
  destruct (decrypt_transform frame enc) as [plain|]; [|done].
  eapply triple_safe_bind; [apply w_upd_pc; same_notes|apply world_inv_traced|]. intros _ _.
  eapply triple_bind; [by apply triple_with_buffer, triple_process_plain|]. intros [action inner]. cbv beta.
  eapply (triple_safe (world_inv (N + FRAME_CONNECTS)) _ (λ _, True)); [|done..|apply world_inv_traced].
  assert (safe (world_inv (N + FRAME_CONNECTS))
    (match action with ZcRead plan => io (do (c_close (zp_fd plan))) | _ => mret tt end) (λ _, True)) as Hzc.
  { destruct action; try (by apply safe_ret). by apply w_io_plain. }
  destruct action; try (by apply safe_ret); unfold seal_reply;
  (apply safe_seq; [exact Hzc|]; destruct (_ <=? 4); [by apply safe_ret|];
   eapply safe_bind; [apply w_gets|]; intros enc2 _; eapply safe_bind; [apply w_gets|]; intros tx _;
   destruct (wrap_transform _ _ _ _); apply safe_seq; [apply w_put|]; apply safe_seq; [apply w_upd_pc; same_notes|];
   by apply safe_ret).
Qed.
End world.

(** ** The server as a transition system

    A worker hands a frame to the connection it arrived on, or tears a
    connection down. The connection state is arbitrary, which covers every
    connection a client can bring about. *)
Section server.
Context `{Env} (srv : Srv).

Definition start (w : World) (pc : ProtoConn) : St :=
  mkSt w pc (mkChain false 0 0 None true None) [] session_new.

Inductive world_step : World → World → Prop :=
| step_frame w pc frame action s' :
    process_frame srv frame (start w pc) = (inl action, s') → world_step w (st_w s')
| step_teardown w pc s' :
    teardown_conn (start w pc) = (inl tt, s') → world_step w (st_w s').

(** A server that has just started. *)
Definition initial (w : World) : Prop := w_sessions w = ∅ ∧ os_trace (w_os w) = [].

Lemma world_step_inv `{!OsLaws} (Hsrv : srv_ok srv) N w w' :
  0 ≤ N → N + FRAME_CONNECTS < 2 ^ 32 → world_step w w' →
  map_Forall (λ (_ : Z) x, sess_ok (srv_cfg srv) N x) (w_sessions w) →
  Forall (confined srv) (os_trace (w_os w)) →
  map_Forall (λ (_ : Z) x, sess_ok (srv_cfg srv) (N + FRAME_CONNECTS) x) (w_sessions w') ∧
  Forall (confined srv) (os_trace (w_os w')).
Proof.
  intros HN Hb Hstep Hr Ht.
  assert (∀ pc, world_inv srv (w_os w) (pc_notify_new pc) N (start w pc)) as Hi
    by (intros pc; constructor; try done; by apply noted_same).
  destruct Hstep as [w pc frame action s' E|w pc s' E].
  - pose proof (triple_process_frame srv Hsrv _ _ N frame HN Hb _ (Hi pc)) as Hp. rewrite E in Hp.
    destruct Hp as [Hr' _ (t & E' & Ht')]. split; [done|]. rewrite E'. by apply Forall_app.
  - pose proof (w_teardown_conn srv (w_os w) _ N _ (Hi pc)) as Hp. rewrite E in Hp.
    destruct Hp as [[Hr' _ (t & E' & Ht')] _]. split; [|rewrite E'; by apply Forall_app].
    intros i x Hx. eapply sess_ok_mono; [|by apply (Hr' i)]. unfold FRAME_CONNECTS. lia.
Qed.

Lemma reachable_inv `{!OsLaws} (Hsrv : srv_ok srv) k : ∀ N w w',
  0 ≤ N → N + FRAME_CONNECTS * Z.of_nat k < 2 ^ 32 → nsteps world_step k w w' →
  map_Forall (λ (_ : Z) x, sess_ok (srv_cfg srv) N x) (w_sessions w) →
  Forall (confined srv) (os_trace (w_os w)) →
  map_Forall (λ (_ : Z) x, sess_ok (srv_cfg srv) (N + FRAME_CONNECTS * Z.of_nat k) x) (w_sessions w') ∧
  Forall (confined srv) (os_trace (w_os w')).
Proof.
  induction k as [|k IH]; intros N w w' HN Hb Hs Hr Ht; inversion Hs as [|? ? w1 ? H1 H2]; subst.
  - by rewrite Z.mul_0_r, Z.add_0_r.
  - unfold FRAME_CONNECTS in *. apply (world_step_inv Hsrv N) in H1 as [Hr1 Ht1];
      [|unfold FRAME_CONNECTS; lia|unfold FRAME_CONNECTS; lia|done|done].
    replace (N + 129 * Z.of_nat (S k)) with (N + 129 + 129 * Z.of_nat k) by lia.
    apply (IH (N + 129) w1); try done; lia.
Qed.

End server.

(** A request frame: the header, then the body. *)
Definition sample_frame (command msg_id tree session : Z) (body : bytes) : bytes :=
  [] ▷ pbytes SMB2_PROTO ▷ p16 64 ▷ p16 1 ▷ p32 0 ▷ p16 command ▷ p16 1 ▷ p32 0 ▷ p32 0 ▷ p64 msg_id
     ▷ p32 0 ▷ p32 tree ▷ p64 session ▷ zeros 16 ▷ pbytes body.

Definition sample_world : @World mem_env := @mkWorld mem_env (@mkOsSt mem_env mem_fs []) ∅ ∅ [].

