(* ===== verification/Channel.v ===== *)
(** What protects a channel: which requests can have an effect at all, and
    what the response to a sealed request is. *)
From S2P Require Import Prelude Hoare Wire Status Os Sample Lease Vfs Handles Spnego Crypto Ntlm Session Config.
From S2P Require Import Authz Smb2 Credits State Negotiate Setup Create FileOps Query SetInfo Dispatch SessionSafe WorldSafe.
Local Open Scope Z_scope.

(** The commands that make sense without an authenticated session. *)
Definition sessionless (c : Z) : Prop :=
  c = cmd.NEGOTIATE ∨ c = cmd.SESSION_SETUP ∨ c = cmd.ECHO ∨ c = cmd.CANCEL.

(** A channel accepts a request: if it encrypts, the request came sealed; if
    it signs, an unsealed request carries a valid signature, or none when
    signing is not required. *)
Definition protected_by `{Env} (ch : ChannelState) (sealed : bool) (h : ReqHdr) (msg : bytes) : Prop :=
  (ch_encrypt ch = true → sealed = true) ∧
  (sealed = false → ∀ sc, ch_sign ch = Some sc →
     (has_bits (h_flags h) FLAG_SIGNED = true → verify_signature msg sc = true) ∧
     (has_bits (h_flags h) FLAG_SIGNED = false → ch_signing_required ch = false)).

Lemma refused_protected `{Env} ch sealed h msg :
  ¬ sessionless (h_command h) → refused_by_channel ch sealed h msg = false → protected_by ch sealed h msg.
Proof.
  intros Hc. unfold refused_by_channel, protected_by.
  assert (setup_cmd (h_command h) = false ∧ (h_command h =? cmd.CANCEL) = false) as [-> ->].
  { unfold setup_cmd, sessionless in *. rewrite orb_false_iff, !Z.eqb_neq. tauto. }
  destruct (ch_encrypt ch), sealed; simpl; try done.
  intros Hr. split; [done|]. intros _ sc Es. rewrite Es in Hr.
  destruct (has_bits _ FLAG_SIGNED); simpl in Hr.
  - split; [intros _; by destruct (verify_signature msg sc)|done].
  - rewrite andb_true_r in Hr. done.
Qed.

Section channel.
Context `{Env} (srv : Srv).

(** The commands that need a session do nothing without an established
    channel. *)
Lemma dispatch_cmd_effect h msg s :
  ¬ sessionless (h_command h) →
  st_w (dispatch_cmd srv h msg s).2 ≠ st_w s →
  ∃ ch, pc_channels (st_pc s) !! cn_session_id (st_chain s) = Some ch ∧ ch_established ch = true.
Proof.
  intros Hc. unfold dispatch_cmd. cbv zeta. unfold sessionless in Hc.
  rewrite !(proj2 (Z.eqb_neq _ _)) by tauto.
  destruct (_ =? cmd.LOGOFF).
  - unfold logoff, mbind, ST_bind, gets.
    destruct (pc_channels (st_pc s) !! cn_session_id (st_chain s)) as [ch|] eqn:E; [|done].
    destruct (ch_established ch) eqn:Ee; [by eauto|done].
  - unfold dispatch_session, mbind, ST_bind, gets.
    destruct (pc_channels (st_pc s) !! cn_session_id (st_chain s)) as [ch|] eqn:E; [|done].
    destruct (ch_established ch) eqn:Ee; [by eauto|done].
Qed.

(** C5: A request that is not one of NEGOTIATE, SESSION_SETUP, ECHO and CANCEL
    can change anything outside its own connection (files, sessions, leases,
    other connections' mailboxes) only if: its message id was fresh; the
    session it acts on, after resolving compound relations, has an
    established channel on this connection; a request that arrived sealed acts
    on the very session that sealed it; and the channel's protection is met:
    an encrypting channel has received it sealed, and an unsealed signature is
    valid, and present when signing is required. *)
Theorem effect_needs_protected_channel h msg s :
  ¬ sessionless (h_command h) →
  st_w (dispatch srv h msg s).2 ≠ st_w s →
  let chain := resolve_chain h (st_chain s) in
  ∃ ch,
    pc_channels (st_pc s) !! cn_session_id chain = Some ch ∧ ch_established ch = true ∧
    (consume_msg_ids (h_msg_id h) (h_credit_charge h) (pc_msgs (st_pc s))).1 = true ∧
    (∀ sid, cn_transform_sid chain = Some sid → cn_session_id chain = sid) ∧
    protected_by ch (bool_decide (is_Some (cn_transform_sid chain))) h msg.
Proof.
  intros Hc. unfold dispatch.
  assert ((h_command h =? cmd.CANCEL) = false) as -> by (apply Z.eqb_neq; unfold sessionless in Hc; tauto).
  unfold mbind, ST_bind, gets, upd_pc, upd_chain, modify, mret, ST_ret.
  destruct (consume_msg_ids _ _ _) as [b w] eqn:Em. cbn [fst snd].
  destruct b; [|done]. cbn -[dispatch_cmd grant_credits resolve_chain refused_by_channel].
  destruct (grant_credits _ _ _) as [grant out]. cbn -[dispatch_cmd resolve_chain refused_by_channel].
  set (chain := resolve_chain h (st_chain s)) in *.
  destruct (match cn_transform_sid chain with Some _ => _ | None => _ end) eqn:Et; [done|].
  assert (∀ sid, cn_transform_sid chain = Some sid → cn_session_id chain = sid) as Hsid.
  { intros sid E. rewrite E in Et. apply negb_false_iff, Z.eqb_eq in Et. done. }
  set (s1 := st_set_pc _ (st_set_chain chain _)).
  change (pc_channels (st_pc s1)) with (pc_channels (st_pc s)). change (st_w s) with (st_w s1) at 1.
  destruct (pc_channels (st_pc s) !! cn_session_id chain) as [ch|] eqn:Ech.
  2:{ intros (ch & E & _)%dispatch_cmd_effect; [|done].
      change (pc_channels (st_pc s) !! cn_session_id chain = Some ch) in E. congruence. }
  destruct (refused_by_channel ch _ _ msg) eqn:Er; [done|].
  intros (ch' & E & He)%dispatch_cmd_effect; [|done].
  change (pc_channels (st_pc s) !! cn_session_id chain = Some ch') in E.
  rewrite Ech in E. injection E as <-. exists ch. split_and!; try done.
  by apply refused_protected in Er.
Qed.

(** The key a session seals with on this connection. *)
Definition seal_key (pc : ProtoConn) (sid : Z) : option bytes :=
  en_s2c <$> (pc_channels pc !! sid ≫= ch_enc).

Lemma wrap_transform_key plain enc sid tx : en_s2c (wrap_transform plain enc sid tx).1 = en_s2c enc.
Proof. unfold wrap_transform. cbv zeta. by destruct (aead_seal _ _ _ _ _). Qed.

(** What [seal_reply] appends. *)
Lemma seal_reply_spec sid enc inner s :
  ∃ s', seal_reply sid enc inner s = (inl Respond, s') ∧
  (st_tx s' = st_tx s ∨
   ∃ enc2, st_tx s' = (wrap_transform (drop 4 inner) enc2 sid (st_tx s)).2 ∧
     (enc2 = enc ∨ seal_key (st_pc s') sid = Some (en_s2c enc2))).
Proof.
  unfold seal_reply. destruct (_ <=? 4); [by eauto|].
  unfold mbind, ST_bind, gets, put, upd_pc, modify, mret, ST_ret.
  change (option_bind _ _ ch_enc (pc_channels (st_pc s) !! sid)) with (pc_channels (st_pc s) !! sid ≫= ch_enc).
  destruct (pc_channels (st_pc s) !! sid ≫= ch_enc) as [e|] eqn:E; cbn [default from_option id].
  - pose proof (wrap_transform_key (drop 4 inner) e sid (st_tx s)) as Hk.
    destruct (wrap_transform _ e sid (st_tx s)) as [enc2 tx] eqn:Ew. simpl in Hk.
    eexists. split; [done|]. right. exists e. rewrite Ew. split; [done|]. right.
    unfold seal_key. simpl. rewrite lookup_alter_eq. destruct (pc_channels (st_pc s) !! sid) as [c|]; [|done].
    cbn in E |- *. rewrite E, bool_decide_true by congruence. simpl. by rewrite Hk.
  - destruct (wrap_transform _ enc sid (st_tx s)) as [enc2 tx] eqn:Ew.
    eexists. split; [done|]. right. exists enc. rewrite Ew. auto.
Qed.

(** Closing a descriptor leaves the buffer and the connection. *)
Lemma io_close_frame fd s : ∃ w, io (do (c_close fd)) s = (inl tt, st_set_w w s).
Proof. unfold io, zoom, do. destruct (sys _ _ _) as [[] o]. eauto. Qed.

(** C8: A sealed frame is answered sealed or not at all: it never becomes a
    zero-copy read (whose payload would leave in the clear), and what is
    appended to the transmit buffer is one transform message of the session
    that sealed the request, under the key that session seals with on this
    connection. *)
Theorem sealed_frames_answered_sealed frame s :
  is_transform frame = true →
  let '(r, s') := process_frame srv frame s in
  let sid := le_val (sub frame 44 52) in
  ∀ a, r = inl a →
    (a = Close ∧ st_tx s' = st_tx s) ∨
    (a = Respond ∧ is_Some (seal_key (st_pc s) sid) ∧
     (st_tx s' = st_tx s ∨
      ∃ plain enc, st_tx s' = (wrap_transform plain enc sid (st_tx s)).2 ∧
        (seal_key (st_pc s) sid = Some (en_s2c enc) ∨ seal_key (st_pc s') sid = Some (en_s2c enc)))).
Proof.
  intros Ht. unfold process_frame. rewrite Ht.
  destruct (_ <? _); [intros a [= <-]; by left|]. cbv zeta. set (sid := le_val (sub frame 44 52)).
  unfold mbind at 1, ST_bind at 1, gets at 1. unfold seal_key at 1 2.
  destruct (pc_channels (st_pc s) !! sid ≫= ch_enc) as [enc|] eqn:Eenc; [|intros a [= <-]; by left].
  destruct (decrypt_transform frame enc) as [plain|]; [|intros a [= <-]; by left].
  unfold mbind, ST_bind, upd_pc, modify, with_buffer.
  destruct (process_plain srv plain (Some sid) _) as [[action|e] s1]; [|done].
  set (s2 := st_set_tx _ s1).
  assert (∀ s3, st_tx s3 = st_tx s → let '(r, s') := seal_reply sid enc (st_tx s1) s3 in
    ∀ a, r = inl a → (a = Close ∧ st_tx s' = st_tx s) ∨
    (a = Respond ∧ is_Some (en_s2c <$> Some enc) ∧
     (st_tx s' = st_tx s ∨
      ∃ plain enc0, st_tx s' = (wrap_transform plain enc0 sid (st_tx s)).2 ∧
        (en_s2c <$> Some enc = Some (en_s2c enc0) ∨ seal_key (st_pc s') sid = Some (en_s2c enc0))))) as Hs.
  { intros s3 Etx. destruct (seal_reply_spec sid enc (st_tx s1) s3) as (s' & -> & Hs').
    intros a [= <-]. right. rewrite Etx in Hs'. split; [done|]. split; [by eauto|].
    destruct Hs' as [?|(enc2 & E & Hk)]; [by auto|]. right. exists (drop 4 (st_tx s1)), enc2.
    split; [done|]. destruct Hk as [->|?]; auto. }
  destruct action as [|zc| |]; [by apply Hs| |intros a [= <-]; by left..].
  destruct (io_close_frame (zp_fd zc) s2) as [w ->]. by apply Hs.
Qed.
End channel.

(** ** A concrete connection *)

(** A guest channel of session 7, and a channel that seals. *)
Definition guest_channel : ChannelState := mkChannelState true false None None [] None false None.
Definition sealing_channel : ChannelState :=
  mkChannelState true true None None [] (Some (mkEncCtx CIPHER_AES128_GCM (replicate 32 1) (replicate 32 2) 0)) true None.

Definition conn_state (ch : ChannelState) : @St mem_env :=
  @mkSt mem_env
    (@mkWorld mem_env (@mkOsSt mem_env mem_fs []) (<[7 := sample_session false]> ∅) ∅ [])
    (pc_set_channels (<[7 := ch]> ∅) (pc_new sample_srv 0 0 0))
    (mkChain false 0 0 None true None) [] session_new.

Lemma effect_needs_protected_channel_witness :
  let h := mkReqHdr 1 cmd.CREATE 1 0 0 0 1 7 None in
  let s := conn_state guest_channel in
  ∃ ch, pc_channels (st_pc s) !! 7 = Some ch ∧ ch_established ch = true.
Proof.
  destruct (@effect_needs_protected_channel mem_env sample_srv (mkReqHdr 1 cmd.CREATE 1 0 0 0 1 7 None)
    (sample_create 1 FILE_OPEN 0 (lit "a")) (conn_state guest_channel)) as (ch & Hch & He & _).
  - by vm_compute; intros [|[|[|]]].
  - intros E. apply (f_equal (λ w, length (os_trace (w_os w)))) in E. by vm_compute in E.
  - by exists ch.
Defined.

(** A sealed ECHO, as the client seals it. *)
Definition sealed_echo : bytes :=
  drop 4 (@wrap_transform mem_env (sample_frame cmd.ECHO 0 0 7 [4; 0; 0; 0])
            (mkEncCtx CIPHER_AES128_GCM (replicate 32 2) (replicate 32 1) 0) 7 []).2.

Lemma sealed_frames_answered_sealed_witness :
  let s := conn_state sealing_channel in
  let s' := (@process_frame mem_env sample_srv sealed_echo s).2 in
  st_tx s' ≠ [] ∧ ∃ plain enc, st_tx s' = (@wrap_transform mem_env plain enc 7 []).2.
Proof.
  pose proof (@sealed_frames_answered_sealed mem_env sample_srv sealed_echo (conn_state sealing_channel)
    ltac:(by vm_compute)) as H. cbv zeta.
  rewrite (fst_eq_pair (@process_frame mem_env sample_srv sealed_echo (conn_state sealing_channel)) (inl Respond)) in H
    by (by vm_compute).
  assert (st_tx (@process_frame mem_env sample_srv sealed_echo (conn_state sealing_channel)).2 ≠ []) as Hne.
  { intros E. apply (f_equal length) in E. by vm_compute in E. }
  split; [exact Hne|]. destruct (H Respond eq_refl) as [[? _]|(_ & _ & [E|(plain & enc & E & _)])]; [done|by destruct Hne|].
  by exists plain, enc.
Defined.
