(* ===== verification/AuthSound.v ===== *)
(** What SESSION_SETUP guarantees: a session is established for a user only
    when that user's password was proved, or when the GSS library accepted the
    token of a Kerberos principal, and a server that requires
    encryption establishes no channel that does not encrypt. *)
From S2P Require Import Prelude Hoare Wire Status Os Sample Lease Vfs Handles Spnego Crypto Ntlm Session Config Pac Gss.
From S2P Require Import Authz Smb2 State Negotiate Setup SessionSafe WorldSafe.
Local Open Scope Z_scope.

(** The client answered the challenge of its pending setup with the NTLMv2
    response of a configured user, and [key] is what the two then share. *)
Definition proved `{Env} (srv : Srv) (pc : ProtoConn) (msg : bytes) (sid : Z) (key : bytes) (user : str) : Prop :=
  ∃ flags secmode blob ch pend a nt,
    parse_setup msg = Some (flags, secmode, blob) ∧
    pc_channels pc !! sid = Some ch ∧ ch_pending ch = Some pend ∧
    parse_authenticate blob = Some a ∧ is_anonymous a = false ∧ au_user a = user ∧
    srv_users srv !! to_lowercase user = Some nt ∧ verify_ntlmv2 nt a (pa_challenge pend) = Some key.

(** Among the calls [t], the GSS library accepted the Kerberos token of the
    request: [user] and [pac] are the principal and the group claims it
    reported, and [key] comes from the session key of that exchange. *)
Definition krb_proved (t : list event) (msg : bytes) (key : bytes) (user : str) (pac : option LogonInfo) : Prop :=
  ∃ flags secmode blob est,
    parse_setup msg = Some (flags, secmode, blob) ∧ completed t (in_token (classify blob)) est ∧
    key = krb_key (es_session_key est) ∧ user = es_client est ∧ pac = es_pac est.

(** The calls [t] were made after [s], as seen in [s']. *)
Definition made_since `{Env} (s s' : St) (t : list event) : Prop :=
  os_trace (w_os (st_w s)) ++ t `prefix_of` os_trace (w_os (st_w s')).

Section auth.
Context `{Env} (srv : Srv) (msg : bytes) (s0 : St).

Section calls.
Context (t : list event).

(** A session that is established for a user was so before, under the same
    key and user, or its user has proved the password now, or its principal
    was accepted in the calls [t]. *)
Definition session_sound (sid : Z) (x : SessionInner) : Prop :=
  s_established x = true → s_guest x = false →
  (∃ y, w_sessions (st_w s0) !! sid = Some y ∧ s_established y = true ∧ s_guest y = false ∧
        s_session_key x = s_session_key y ∧ s_user x = s_user y ∧
        s_kerberos x = s_kerberos y ∧ s_pac x = s_pac y) ∨
  proved srv (st_pc s0) msg sid (s_session_key x) (s_user x) ∨
  (s_kerberos x = true ∧ krb_proved t msg (s_session_key x) (s_user x) (s_pac x)).

(** An established channel was established before, or it is a guest's on a
    server that admits guests, or its user is authenticated; and if the
    server requires encryption, it encrypts and can. *)
Definition channel_sound (sid : Z) (c : ChannelState) : Prop :=
  ch_established c = true →
  (∃ d, pc_channels (st_pc s0) !! sid = Some d ∧ ch_established d = true) ∨
  ((srv_allow_guest srv = true ∨ (∃ key user, proved srv (st_pc s0) msg sid key user) ∨
    ∃ key user pac, krb_proved t msg key user pac) ∧
   (cf_encrypt (srv_cfg srv) = true → ch_encrypt c = true ∧ is_Some (ch_enc c))).

Record sound (s : St) : Prop := {
  sd_sess : map_Forall session_sound (w_sessions (st_w s));
  sd_chan : map_Forall channel_sound (pc_channels (st_pc s));
  sd_made : made_since s0 s t }.

(** ** Steps *)
Lemma sound_modify f :
  (∀ s, w_sessions (st_w (f s)) = w_sessions (st_w s) ∧ pc_channels (st_pc (f s)) = pc_channels (st_pc s) ∧
        w_os (st_w (f s)) = w_os (st_w s)) →
  safe sound (modify f) (λ _, True).
Proof.
  intros Hf. apply safe_modify. intros s []. destruct (Hf s) as (E1 & E2 & E3).
  constructor; unfold made_since; by rewrite ?E1, ?E2, ?E3.
Qed.

Lemma sound_resp h st : safe sound (fail_resp h st) (λ _, True).
Proof. eapply safe_bind; [by apply (safe_gets _ _ (λ _, True))|]. intros. by apply sound_modify. Qed.

Lemma sound_put_ss h st sid flags blob : safe sound (put_ss h st sid flags blob) (λ _, True).
Proof. eapply safe_bind; [by apply (safe_gets _ _ (λ _, True))|]. intros. by apply sound_modify. Qed.

Lemma sound_chans f :
  (∀ m, map_Forall channel_sound m → map_Forall channel_sound (f m)) →
  safe sound (upd_pc (λ p, pc_set_channels (f (pc_channels p)) p)) (λ _, True).
Proof. intros Hf. apply safe_modify. intros s []. constructor; [done|by apply Hf|done]. Qed.

Lemma sound_insert_chan sid c :
  channel_sound sid c → safe sound (upd_pc (λ p, pc_set_channels (<[sid := c]> (pc_channels p)) p)) (λ _, True).
Proof. intros. apply (sound_chans (λ m, <[sid := c]> m)). intros. by apply map_Forall_insert_2. Qed.

Lemma sound_delete_chan sid :
  safe sound (upd_pc (λ p, pc_set_channels (delete sid (pc_channels p)) p)) (λ _, True).
Proof. apply (sound_chans (λ m, delete sid m)). intros. by apply map_Forall_delete. Qed.

Lemma sound_regs f :
  (∀ m, map_Forall session_sound m → map_Forall session_sound (f m)) →
  safe sound (upd_w (λ w, w_set_sessions (f (w_sessions w)) w)) (λ _, True).
Proof. intros Hf. apply safe_modify. intros s []. constructor; [by apply Hf|done|done]. Qed.

Lemma sound_insert_sess sid x :
  session_sound sid x → safe sound (upd_w (λ w, w_set_sessions (<[sid := x]> (w_sessions w)) w)) (λ _, True).
Proof. intros. apply (sound_regs (λ m, <[sid := x]> m)). intros. by apply map_Forall_insert_2. Qed.

Lemma sound_drop_setup sid : safe sound (drop_setup sid) (λ _, True).
Proof.
  apply safe_seq; [apply sound_delete_chan|]. apply (sound_regs (λ m, (reg_remove sid m).2)).
  intros. by apply map_Forall_delete.
Qed.

(** The trace only grows. *)
Definition traced (o : OsSt) : Prop := os_trace (w_os (st_w s0)) ++ t `prefix_of` os_trace o.

Lemma traced_do {A} (c : call A) : safe traced (do c) (λ _, True).
Proof. intros o Ho. unfold do. destruct (sys _ _ _). split; [|done]. by apply prefix_app_r. Qed.

Lemma sound_io {A} (k : IO A) (P : A → Prop) :
  safe traced k P → safe sound (io k) P.
Proof. intros Hk. eapply (safe_zoom _ _ _ traced); [by intros s []| |done]. by intros s o [] Ho. Qed.

Lemma sound_urandom n : safe sound (io (urandom n)) (λ _, True).
Proof. apply sound_io, traced_do. Qed.

(** A new session is not established. *)
Lemma sound_reg_create m :
  map_Forall session_sound m → safe sound (io (reg_create m)) (λ r, map_Forall session_sound r.2).
Proof.
  intros Hm. apply sound_io. unfold reg_create. eapply (safe_bind _ _ _ (λ _, True)).
  - induction retry as [|k IH]; simpl; [apply safe_halt|].
    eapply (safe_bind _ _ _ (λ _, True)); [apply traced_do|].
    intros b _. destruct (_ && _); [by apply safe_ret|apply IH].
  - intros id _. apply safe_ret. simpl. by apply map_Forall_insert_2.
Qed.

Lemma sound_get_sessions : safe sound (gets (λ s, w_sessions (st_w s))) (map_Forall session_sound).
Proof. apply safe_gets. by intros s []. Qed.

Lemma sound_get_pc : safe sound (gets st_pc) (λ pc, map_Forall channel_sound (pc_channels pc)).
Proof. apply safe_gets. by intros s []. Qed.

(** A channel that passes [cannot_seal] encrypts when the server requires it. *)
Lemma established_channel_seals signing cipher dialect key c :
  cannot_seal srv cipher dialect = false → cf_encrypt (srv_cfg srv) = true →
  ch_encrypt (established_channel srv signing cipher dialect key c) = true ∧
  is_Some (ch_enc (established_channel srv signing cipher dialect key c)).
Proof.
  unfold cannot_seal, established_channel, channel_enc. intros Hc He. rewrite He in Hc |- *. simpl in Hc.
  apply negb_false_iff in Hc. rewrite Hc. by destruct (smb311_encryption_keys _ _ _).
Qed.

(** ** The second leg *)
Section leg2.
Context (h : ReqHdr) (sid : Z) (ch : ChannelState) (pend : PendingAuth) (fl sm : Z) (blob : bytes).
Context (Hparse : parse_setup msg = Some (fl, sm, blob)).
Context (d : ChannelState) (Hd : pc_channels (st_pc s0) !! sid = Some d) (Hp : ch_pending d = Some pend).

Lemma verdict_proved key user :
  verdict srv (parse_authenticate blob) (pa_challenge pend) = VUser key user →
  proved srv (st_pc s0) msg sid key user.
Proof.
  unfold verdict. destruct (parse_authenticate blob) as [a|] eqn:Ea; [|by destruct (srv_allow_guest srv)].
  destruct (is_anonymous a) eqn:Ean; [by destruct (srv_allow_guest srv)|].
  destruct (srv_users srv !! _) as [nt|] eqn:Eu; [|by destruct (srv_allow_guest srv)].
  destruct (verify_ntlmv2 _ _ _) as [k|] eqn:Ev; [|done]. intros [= <- <-].
  exists fl, sm, blob, d, pend, a, nt. done.
Qed.

Lemma verdict_guest :
  verdict srv (parse_authenticate blob) (pa_challenge pend) = VGuest → srv_allow_guest srv = true.
Proof.
  unfold verdict. destruct (parse_authenticate blob) as [a|]; [|by destruct (srv_allow_guest srv)].
  destruct (is_anonymous a); [by destruct (srv_allow_guest srv)|].
  destruct (srv_users srv !! _) as [nt|]; [|by destruct (srv_allow_guest srv)].
  by destruct (verify_ntlmv2 _ _ _).
Qed.

Lemma sound_ntlm_first x signing dn :
  safe sound (ntlm_first srv h sid x ch (parse_authenticate blob) (pa_challenge pend) signing dn) (λ _, True).
Proof.
  unfold ntlm_first. eapply safe_bind; [by apply (safe_gets _ _ (λ _, True))|]. intros pc _.
  destruct (verdict _ _ _) as [key user| |] eqn:Ev.
  - apply verdict_proved in Ev. destruct (cannot_seal _ _ _) eqn:Ec.
    { apply safe_seq; [apply sound_drop_setup|apply sound_resp]. }
    apply safe_seq; [apply sound_insert_sess; intros _ _; by right; left|].
    apply safe_seq; [|apply sound_put_ss]. apply sound_insert_chan. intros _. right.
    split; [right; left; by eauto|]. intros He. by apply established_channel_seals.
  - apply verdict_guest in Ev. destruct (cf_encrypt _) eqn:Ec.
    { apply safe_seq; [apply sound_drop_setup|apply sound_resp]. }
    apply safe_seq; [by apply sound_insert_sess|].
    apply safe_seq; [|apply sound_put_ss]. apply sound_insert_chan. intros _. right.
    split; [by left|]. congruence.
  - apply safe_seq; [apply sound_drop_setup|apply sound_resp].
Qed.

Lemma bind_ok_proved x :
  bind_ok srv x (parse_authenticate blob) (pa_challenge pend) = true →
  ∃ key user, proved srv (st_pc s0) msg sid key user.
Proof.
  unfold bind_ok. destruct (_ || _); [done|].
  destruct (parse_authenticate blob) as [a|] eqn:Ea; [|done].
  destruct (is_anonymous a) eqn:Ean; [done|]. intros [_ Hu]%andb_prop.
  destruct (srv_users srv !! _) as [nt|] eqn:Eu; [|done].
  destruct (verify_ntlmv2 _ _ _) as [k|] eqn:Ev; [|done].
  exists k, (au_user a), fl, sm, blob, d, pend, a, nt. done.
Qed.

Lemma sound_ntlm_bind x signing dn :
  session_sound sid x →
  safe sound (ntlm_bind srv h sid x ch (parse_authenticate blob) (pa_challenge pend) signing dn) (λ _, True).
Proof.
  intros Hx. unfold ntlm_bind. eapply safe_bind; [by apply (safe_gets _ _ (λ _, True))|]. intros pc _.
  destruct (negb _ || _) eqn:Eb.
  { apply safe_seq; [apply sound_delete_chan|apply sound_resp]. }
  apply orb_false_iff in Eb as [Eb%negb_false_iff Ec]. apply bind_ok_proved in Eb.
  apply safe_seq; [by apply sound_insert_sess|].
  apply safe_seq; [|apply sound_put_ss]. apply sound_insert_chan. intros _. right.
  split; [by right; left|]. intros He. by apply established_channel_seals.
Qed.
End leg2.

Lemma sound_ntlm_negotiate h binding spnego :
  safe sound (ntlm_negotiate srv h msg binding spnego) (λ _, True).
Proof.
  unfold ntlm_negotiate. eapply safe_bind; [by apply (safe_gets _ _ (λ _, True))|]. intros pc _.
  eapply safe_bind; [apply sound_get_sessions|]. intros m Hm. cbv zeta.
  assert (∀ sid, safe sound (upd_chain (chain_set_sid sid) ;;
    chal ← io (urandom 8);
    upd_pc (λ p, pc_set_channels
      (<[sid := ch_set_preauth
                  (if pc_dialect pc =? 0x0311 then sha512 [pc_preauth_neg pc; msg] else pc_preauth_neg pc)
                  (ch_set_pending (Some (mkPendingAuth chal spnego binding)) channel_default)]> (pc_channels p)) p) ;;
    put_ss h status.MORE_PROCESSING_REQUIRED sid 0
      (if spnego then spnego_wrap_challenge (challenge (cf_server_name (srv_cfg srv)) chal)
       else challenge (cf_server_name (srv_cfg srv)) chal)) (λ _, True)) as Hgo.
  { intros sid. apply safe_seq; [by apply sound_modify|]. eapply safe_bind; [apply sound_urandom|].
    intros chal _. apply safe_seq; [by apply sound_insert_chan|apply sound_put_ss]. }
  destruct binding.
  - repeat (match goal with |- safe _ (if ?b then _ else _) _ => destruct b end; [apply sound_resp|]). apply Hgo.
  - destruct (_ <=? _); [apply sound_resp|].
    eapply safe_bind; [by apply sound_reg_create|]. intros [sid m'] Hm'. cbn [snd] in Hm'.
    apply safe_seq; [by apply (sound_regs (λ _, m'))|apply Hgo].
Qed.

Lemma sound_ntlm_anonymous h : safe sound (ntlm_anonymous srv h) (λ _, True).
Proof.
  unfold ntlm_anonymous. destruct (srv_allow_guest srv) eqn:Eg; simpl; [|apply sound_resp].
  destruct (cf_encrypt _) eqn:Ee; [apply sound_resp|].
  eapply safe_bind; [apply sound_get_sessions|]. intros m Hm.
  eapply safe_bind; [by apply sound_reg_create|]. intros [sid m'] Hm'. cbn [snd] in Hm'.
  apply safe_seq; [apply (sound_regs (λ _, _)); intros _ _; by apply map_Forall_insert_2|].
  apply safe_seq; [|apply safe_seq; [by apply sound_modify|apply sound_put_ss]].
  apply safe_modify. intros s []. constructor; [done| |done]. apply map_Forall_insert_2; [|done].
  intros _. right. split; [by left|]. congruence.
Qed.

(** ** Kerberos *)
Lemma sound_krb_acceptor : safe sound (krb_acceptor srv) (λ _, True).
Proof.
  unfold krb_acceptor. eapply safe_bind; [apply sound_get_pc|]. intros pc _.
  destruct (pc_krb_acceptor pc); [by apply safe_ret|]. match goal with |- safe _ (if ?b then _ else _) _ => destruct b end; [by apply safe_ret|].
  eapply safe_bind; [apply sound_io, safe_acceptor_new; intros; apply traced_do|]. intros [a|e] _; [|by apply safe_ret].
  apply safe_seq; [by apply sound_modify|by apply safe_ret].
Qed.

Lemma sound_krb_take h : safe sound (krb_take h) (λ _, True).
Proof.
  unfold krb_take. eapply safe_bind; [apply sound_get_pc|]. intros pc Hpc.
  destruct (_ !! _) as [c|] eqn:Ec; [|by apply safe_ret].
  apply safe_seq; [|by apply safe_ret]. apply sound_insert_chan. exact (Hpc _ _ Ec).
Qed.

Lemma sound_ctx_drop ctx : safe sound (io (ctx_drop ctx)) (λ _, True).
Proof. apply sound_io, safe_ctx_drop. intros. apply traced_do. Qed.

Lemma sound_krb_forget existing : safe sound (krb_forget existing) (λ _, True).
Proof. destruct existing; [apply sound_drop_setup|by apply safe_ret]. Qed.

Lemma sound_krb_keep h sid ctx preauth wrapped out :
  safe sound (krb_keep h sid ctx preauth wrapped out) (λ _, True).
Proof.
  apply safe_seq; [|apply safe_seq; [by apply sound_modify|apply sound_put_ss]].
  apply (sound_chans (λ m, <[sid := ch_set_preauth preauth (ch_set_krb (Some ctx) (default channel_default (m !! sid)))]> m)).
  intros chans Hc. apply map_Forall_insert_2; [|done]. destruct (chans !! sid) as [c|] eqn:Ec; [exact (Hc _ _ Ec)|done].
Qed.

Lemma sound_krb_continue h existing ctx preauth wrapped out :
  safe sound (krb_continue srv h existing ctx preauth wrapped out) (λ _, True).
Proof.
  unfold krb_continue. eapply safe_bind; [apply sound_get_pc|]. intros pc _.
  eapply safe_bind; [apply sound_get_sessions|]. intros m Hm. cbv zeta.
  destruct existing as [sid|]; [apply sound_krb_keep|]. destruct (_ <=? _).
  { apply safe_seq; [apply sound_resp|apply sound_ctx_drop]. }
  eapply safe_bind; [by apply sound_reg_create|]. intros [sid m'] Hm'. cbn [snd] in Hm'.
  apply safe_seq; [by apply (sound_regs (λ _, m'))|apply sound_krb_keep].
Qed.

Lemma krb_channel_seals signing cipher dialect key preauth :
  cannot_seal srv cipher dialect = false → cf_encrypt (srv_cfg srv) = true →
  ch_encrypt (krb_channel srv signing cipher dialect key preauth) = true ∧
  is_Some (ch_enc (krb_channel srv signing cipher dialect key preauth)).
Proof.
  unfold cannot_seal, krb_channel, channel_enc. intros Hc He. rewrite He in Hc |- *. simpl in Hc.
  apply negb_false_iff in Hc. rewrite Hc. by destruct (smb311_encryption_keys _ _ _).
Qed.

Lemma sound_krb_done h existing preauth signing wrapped est :
  krb_proved t msg (krb_key (es_session_key est)) (es_client est) (es_pac est) →
  safe sound (krb_done srv h existing preauth signing wrapped est) (λ _, True).
Proof.
  intros Hp. unfold krb_done. eapply safe_bind; [apply sound_get_pc|]. intros pc _.
  destruct (cannot_seal _ _ _) eqn:Ec; [apply safe_seq; [apply sound_krb_forget|apply sound_resp]|]. cbv zeta.
  eapply safe_bind; [apply sound_get_sessions|]. intros m Hm.
  eapply (safe_bind _ _ _ (λ r, map_Forall session_sound r.2)).
  { destruct (existing ≫= _); [by apply safe_ret|by apply sound_reg_create]. }
  intros [sid m'] Hm'. cbn [snd] in Hm'. apply safe_seq; [by apply sound_modify|].
  apply safe_seq.
  { apply (sound_regs (λ _, _)). intros _ _. apply map_Forall_insert_2; [|done]. intros _ _. by right; right. }
  apply safe_seq; [|apply sound_put_ss]. apply sound_insert_chan. intros _. right.
  split; [right; right; by eauto|]. intros He. by apply krb_channel_seals.
Qed.
End calls.

Lemma sound_start : sound [] s0.
Proof.
  split; [intros i x Hx He Hg; left; by exists x|intros i x Hx He; left; by exists x|].
  unfold made_since. by rewrite app_nil_r.
Qed.

Lemma sound_ntlm_authenticate h fl sm blob spnego signing :
  parse_setup msg = Some (fl, sm, blob) →
  triple (λ s, s = s0) (ntlm_authenticate srv h msg blob spnego signing) (λ _, sound []) (sound []).
Proof.
  intros Hparse. unfold ntlm_authenticate. cbv zeta. apply triple_bind_modify. set (s1 := st_set_chain _ s0).
  assert (sound [] s1) as Hs1 by (destruct sound_start; by constructor).
  apply triple_bind_gets. intros ? ->.
  change (pc_channels (st_pc s1)) with (pc_channels (st_pc s0)). change (pc_dialect (st_pc s1)) with (pc_dialect (st_pc s0)).
  apply (triple_conseq (sound []) _ (sound []) _ (λ _ s, sound [] s ∧ True) _); [|by intros ? ->|tauto|done].
  destruct (pc_channels (st_pc s0) !! h_session_id h) as [d|] eqn:Ed; [|apply sound_resp].
  set (d' := if _ =? 0x0311 then _ else d).
  assert (ch_established d' = ch_established d ∧ ch_pending d' = ch_pending d) as [Ee Ep].
  { unfold d'. by destruct (_ =? 0x0311). }
  apply safe_seq.
  { apply sound_insert_chan. intros He. left. exists d. split; [done|]. simpl in He. congruence. }
  rewrite Ep. destruct (ch_pending d) as [pend|] eqn:Epd; [|apply sound_put_ss].
  eapply safe_bind; [apply sound_get_sessions|]. intros m Hm.
  destruct (reg_get _ m) as [x|] eqn:Ex; [|apply sound_resp].
  destruct (pa_binding pend); [eapply sound_ntlm_bind; by eauto|eapply sound_ntlm_first; by eauto].
Qed.

(** A finished exchange is one the library reported in the calls made. *)
Lemma sound_gss_step ctx acc token :
  triple (sound []) (io (gss_step ctx acc token))
    (λ r s, match r.1 with Done est => ∃ t, sound t s ∧ completed t token est | _ => sound [] s end) (sound []).
Proof.
  intros s Hs.
  pose proof (sound_io [] (gss_step ctx acc token) (λ _, True)
    (safe_gss_step _ (λ A c _, traced_do [] c) ctx acc token) s Hs) as Hio.
  unfold io, zoom in *. destruct (gss_step _ _ _ _) as [[[step ctx']|e] o'] eqn:E; [|exact Hio].
  destruct Hio as [Hio _]. cbn [fst]. destruct step as [out|est|e]; [exact Hio| |exact Hio].
  apply gss_step_done in E as (t2 & Hg & Hc). destruct Hs as [_ _ [t1 Ht1]]. destruct Hio as [Hse Hch _].
  rewrite app_nil_r in Ht1. exists (t1 ++ t2). split; [|by eapply completed_mono; [exact Hc|set_solver]].
  assert (krb_false : ∀ key user pac, ¬ krb_proved [] msg key user pac).
  { intros key user pac (? & ? & ? & ? & _ & (? & ? & ? & ? & ? & Hin & _) & _). by apply elem_of_nil in Hin. }
  constructor.
  - intros i x Hx He Hgu. destruct (Hse i x Hx He Hgu) as [?|[?|[_ []%krb_false]]]; auto.
  - intros i c Hx He. destruct (Hch i c Hx He) as [?|[[?|[?|(? & ? & ? & []%krb_false)]] ?]]; auto 10.
  - unfold made_since. simpl. unfold grew in Hg. rewrite Hg, Ht1, app_assoc. done.
Qed.

(** The state at the end, for the calls of the whole request. *)
Definition sound_end (s : St) : Prop := ∃ t, sound t s.

Lemma sound_then t (k : M unit) : safe (sound t) k (λ _, True) → triple (sound t) k (λ _, sound_end) sound_end.
Proof. intros Hk. eapply triple_safe; [exact Hk|done|by eexists|by eexists]. Qed.

Lemma sound_kerberos h : triple (sound []) (kerberos_session_setup srv h msg) (λ _, sound_end) sound_end.
Proof.
  assert (∀ s, sound [] s → sound_end s) as Hend by (by eexists).
  unfold kerberos_session_setup. destruct (parse_setup msg) as [[[fl sm] blob]|] eqn:Ep; [|apply sound_then, sound_resp].
  cbv zeta. eapply triple_safe_bind; [apply sound_krb_acceptor|done|]. intros [acc|st] _; [|apply sound_then, sound_resp].
  eapply triple_safe_bind; [apply sound_krb_take|done|]. intros taken _.
  eapply triple_safe_bind; [apply sound_get_pc|done|]. intros pc _.
  eapply triple_bind; [eapply triple_conseq; [apply sound_gss_step|done|intros a s Ha; exact Ha|done]|].
  intros [[out|est|e] ctx]; cbn [fst].
  - apply sound_then, sound_krb_continue.
  - intros s (t & Hs & Hc). revert s Hs. apply sound_then.
    apply safe_seq; [apply sound_ctx_drop|]. apply sound_krb_done. by exists fl, sm, blob, est.
  - apply sound_then. apply safe_seq; [apply sound_krb_forget|]. apply safe_seq; [apply sound_resp|apply sound_ctx_drop].
Qed.

Lemma sound_session_setup h : triple (λ s, s = s0) (session_setup srv h msg) (λ _, sound_end) sound_end.
Proof.
  assert (∀ k : M unit, triple (sound []) k (λ _, sound_end) sound_end → triple (λ s, s = s0) k (λ _, sound_end) sound_end) as Hk.
  { intros k Hk. eapply triple_conseq; [exact Hk| |done|done]. intros ? ->. apply sound_start. }
  assert (triple (λ s, s = s0) (ntlm_session_setup srv h msg) (λ _, sound_end) sound_end) as Hn.
  { unfold ntlm_session_setup. destruct (parse_setup msg) as [[[fl sm] blob]|] eqn:Ep; [|apply Hk, sound_then, sound_resp].
    cbv zeta. destruct (ntlm_classify blob); [apply Hk, sound_then, sound_ntlm_negotiate| |apply Hk, sound_then, sound_ntlm_anonymous].
    eapply triple_conseq; [by eapply sound_ntlm_authenticate|done|by eexists|by eexists]. }
  unfold session_setup. destruct (parse_setup_blob msg) as [b|]; [|apply Hk, sound_then, sound_resp].
  apply triple_bind_gets. intros ? ->.
  destruct (setup_mech _ _ _); [destruct (_ && _); [apply Hk, sound_kerberos|]|..];
    try (destruct (allows_ntlm _); [exact Hn|]); apply Hk, sound_then, sound_resp.
Qed.
End auth.

Lemma session_setup_sound `{Env} srv h msg s : sound_end srv msg s (session_setup srv h msg s).2.
Proof.
  pose proof (sound_session_setup srv msg s h s eq_refl) as Hs.
  destruct (session_setup srv h msg s) as [[a|e] s']; [exact Hs|exact (proj2 Hs)].
Qed.

(** C6: After any SESSION_SETUP, in every state, a session that is established
    for a user (not a guest) either was so before, with the same key, user and
    group claims; or the request carried, for the challenge this connection had
    pending on that session, an NTLMv2 response that verifies against the
    stored hash of that user, and the session key is the one it yields; or the
    GSS library, called during this request with the Kerberos token it carried,
    accepted it, and user, session key and PAC are those it reported, the PAC
    only if the library vouched for it. *)
Theorem user_sessions_are_authenticated `{Env} srv h msg s sid x :
  w_sessions (st_w (session_setup srv h msg s).2) !! sid = Some x →
  s_established x = true → s_guest x = false →
  (∃ y, w_sessions (st_w s) !! sid = Some y ∧ s_established y = true ∧ s_guest y = false ∧
        s_session_key x = s_session_key y ∧ s_user x = s_user y ∧
        s_kerberos x = s_kerberos y ∧ s_pac x = s_pac y) ∨
  proved srv (st_pc s) msg sid (s_session_key x) (s_user x) ∨
  (s_kerberos x = true ∧ ∃ t, made_since s (session_setup srv h msg s).2 t ∧
     krb_proved t msg (s_session_key x) (s_user x) (s_pac x)).
Proof.
  intros Hx He Hg. destruct (session_setup_sound srv h msg s) as [t [Hs _ Ht]].
  destruct (Hs sid x Hx He Hg) as [?|[?|[??]]]; [by left|by right; left|]. right; right. by eauto.
Qed.


(** ** A concrete login *)
Definition bob_hash : bytes := replicate 16 5.
Definition bob_chal : bytes := replicate 8 3.
Definition bob_srv : Srv :=
  mkSrv sample_cfg (replicate 16 0) MAX_READ_TARGET 0 (<[lit "bob" := bob_hash]> ∅) false [].

(** An AUTHENTICATE of user bob answering [bob_chal], with the given hash. *)
Definition bob_authenticate (nt : bytes) : bytes :=
  let temp := replicate 28 9 in
  let proof := @Os.hmac_md5 mem_env (@v2_hash mem_env nt (lit "bob") []) (bob_chal ++ temp) in
  let user := utf16le (lit "bob") in
  let fld n off b := b ▷ p16 n ▷ p16 n ▷ p32 off in
  [] ▷ pbytes (lit "NTLMSSP" ++ [0]) ▷ p32 3 ▷ fld 0 0 ▷ fld 44 64 ▷ fld 0 0 ▷ fld (len user) 108
     ▷ fld 0 0 ▷ fld 0 0 ▷ p32 0 ▷ pbytes (proof ++ temp) ▷ pbytes user.

Definition setup_msg (blob : bytes) : bytes :=
  [] ▷ zeros 64 ▷ p16 25 ▷ p8 0 ▷ p8 0 ▷ p32 0 ▷ p32 0 ▷ p16 88 ▷ p16 (len blob) ▷ p64 0 ▷ pbytes blob.

Definition bob_state : @St mem_env :=
  @mkSt mem_env
    (@mkWorld mem_env (@mkOsSt mem_env mem_fs []) (<[7 := session_new]> ∅) ∅ [])
    (pc_set_channels (<[7 := ch_set_pending (Some (mkPendingAuth bob_chal false false)) channel_default]> ∅)
       (pc_new bob_srv 0 0 0)) (mkChain false 7 0 None true None) [] session_new.

(** The run of bob's SESSION_SETUP. *)
Definition bob_login (nt : bytes) : (unit + stop) * @St mem_env :=
  @session_setup mem_env bob_srv (sample_hdr cmd.SESSION_SETUP) (setup_msg (bob_authenticate nt)) bob_state.

Definition bob_session : SessionInner := default session_new (w_sessions (st_w (bob_login bob_hash).2) !! 7).
Definition bob_channel : ChannelState := default channel_default (pc_channels (st_pc (bob_login bob_hash).2) !! 7).

(** The right hash gets in; a wrong one leaves no session behind. *)
Lemma bob_login_outcomes :
  s_established bob_session = true ∧ s_guest bob_session = false ∧ s_user bob_session = lit "bob" ∧
  ch_established bob_channel = true ∧
  bool_decide (is_Some (w_sessions (st_w (bob_login (replicate 16 6)).2) !! 7)) = false.
Proof. by vm_compute. Qed.

Lemma user_sessions_are_authenticated_witness :
  @proved mem_env bob_srv (st_pc bob_state) (setup_msg (bob_authenticate bob_hash)) 7
    (s_session_key bob_session) (s_user bob_session).
Proof.
  destruct (@user_sessions_are_authenticated mem_env bob_srv (sample_hdr cmd.SESSION_SETUP)
    (setup_msg (bob_authenticate bob_hash)) bob_state 7 bob_session) as [(y & Hy & He & _)|Hp].
  - unfold bob_session. fold (bob_login bob_hash).
    assert (bool_decide (is_Some (w_sessions (st_w (bob_login bob_hash).2) !! 7)) = true) as Hb by (by vm_compute).
    apply bool_decide_eq_true in Hb as [x Hx]. by rewrite Hx.
  - apply bob_login_outcomes.
  - apply bob_login_outcomes.
  - exfalso. change (Some session_new = Some y) in Hy. by injection Hy as <-.
  - destruct Hp as [Hp|[Hk _]]; [exact Hp|]. exfalso. revert Hk. by vm_compute.
Defined.

(** ** A Kerberos login

    The server requires encryption; the toy GSS library accepts a token that
    ends in 1 and asks for another leg after one that ends in 2. *)
Definition alice_srv : Srv :=
  mkSrv (mkConfig (lit "0.0.0.0:445") 1 (lit "SRV") 1 (Some false) (Some true) false true [] true false
           None false true Kerberos None [sample_share] [] [])
    (replicate 16 0) MAX_READ_TARGET 0 ∅ false [].

Definition alice_token (x : Z) : bytes := [0x60; 12; 0x06; 9] ++ OID_KRB5 ++ [x].

Definition alice_state : @St mem_env :=
  @mkSt mem_env (@mkWorld mem_env (@mkOsSt mem_env mem_fs []) ∅ ∅ [])
    (pc_set_negotiated 0x0311 2 (mkClientNeg 1 0 []) (pc_new alice_srv 0 0 0))
    (mkChain false 0 0 None true None) [] session_new.

Definition alice_hdr (sid : Z) : ReqHdr := mkReqHdr 1 cmd.SESSION_SETUP 1 0 0 5 1 sid None.

(** One SESSION_SETUP with the token ending in [x], on session [sid]. *)
Definition alice_login (sid x : Z) (s : @St mem_env) : @St mem_env :=
  (@session_setup mem_env alice_srv (alice_hdr sid) (setup_msg (alice_token x)) s).2.

Definition alice_channel : ChannelState :=
  default channel_default (pc_channels (st_pc (alice_login 0 1 alice_state)) !! 3).

(** One leg or two establish her session, sealed; a refused token leaves
    neither a session nor a channel behind, also on the second leg. *)
Lemma alice_login_outcomes :
  ch_established alice_channel = true ∧
  (s_user <$> w_sessions (st_w (alice_login 3 1 (alice_login 0 2 alice_state))) !! 3) = Some (lit "alice@R") ∧
  (ch_established <$> pc_channels (st_pc (alice_login 0 2 alice_state)) !! 3) = Some false ∧
  map_to_list (w_sessions (st_w (alice_login 3 0 (alice_login 0 2 alice_state)))) = [] ∧
  map_to_list (pc_channels (st_pc (alice_login 3 0 (alice_login 0 2 alice_state)))) = [].
Proof. by vm_compute. Qed.

