(* ===== verification/Compound.v ===== *)
(** The compound loop ends: a frame is processed in at most [MAX_COMPOUND]
    members, so the fuel of [process_plain] is enough. *)
From S2P Require Import Prelude Hoare Wire Status Os Sample Crypto Session Config Smb2 Credits State Dispatch.
From S2P Require Import SessionSafe WorldSafe.
Local Open Scope Z_scope.

(** Two binds agree if their continuations do. *)
Lemma bind_ext {S A B} (m : ST S A) (k k' : A → ST S B) s :
  (∀ a s', k a s' = k' a s') → (m ≫= k) s = (m ≫= k') s.
Proof. intros Hk. unfold mbind, ST_bind. by destruct (m s) as [[a|e] s']. Qed.

(** Where a bind stopped. *)
Lemma bind_stop {S A B} (m : ST S A) (k : A → ST S B) s e s' :
  (m ≫= k) s = (inr e, s') → m s = (inr e, s') ∨ ∃ a s1, m s = (inl a, s1) ∧ k a s1 = (inr e, s').
Proof. unfold mbind, ST_bind. destruct (m s) as [[a|x] s1] eqn:E; [eauto|]. intros [= <- <-]. by left. Qed.

Section loop.
Context `{Env} (srv : Srv) (frame : bytes) (base : Z).

(** The iterations left before the loop gives up. *)
Definition left_over (l : LoopSt) : nat := Z.to_nat (MAX_COMPOUND + 1 - ls_members l).

Lemma compound_loop_ext fuel : ∀ fuel' l s,
  0 ≤ ls_members l ≤ MAX_COMPOUND → (left_over l ≤ fuel)%nat → (left_over l ≤ fuel')%nat →
  compound_loop fuel srv frame base l s = compound_loop fuel' srv frame base l s.
Proof.
  unfold left_over. induction fuel as [|fuel IH]; intros [|fuel'] l s Hm H1 H2; try lia.
  cbn [compound_loop]. destruct (parse_hdr _) as [h|]; [|done].
  apply bind_ext. intros tx_len s1. cbv zeta.
  destruct (Z.ltb_spec MAX_COMPOUND (ls_members l + 1)); [done|]. cbn [orb].
  destruct (COMPOUND_RESP_CAP <? _); [done|]. destruct (_ <? _); [done|].
  do 6 (apply bind_ext; intros ? ?). apply bind_ext. intros sess s8.
  destruct (if _ <? _ then _ else _) as [prev recs].
  match goal with |- (if ?b then _ else _) _ = _ => destruct b end; [done|].
  apply IH; cbn [ls_members]; lia.
Qed.

(** Only a command can stop the loop. *)
Lemma compound_loop_stop fuel : ∀ l s e s',
  0 ≤ ls_members l ≤ MAX_COMPOUND → (left_over l ≤ fuel)%nat →
  compound_loop fuel srv frame base l s = (inr e, s') →
  ∃ h msg s1, dispatch srv h msg s1 = (inr e, s').
Proof.
  unfold left_over. induction fuel as [|fuel IH]; intros l s e s' Hm Hf; [lia|].
  cbn [compound_loop]. destruct (parse_hdr _) as [h|]; [|done].
  intros [?|(tx_len & s1 & _ & Hk)]%bind_stop; [done|]. revert Hk. cbv zeta.
  destruct (Z.ltb_spec MAX_COMPOUND (ls_members l + 1)); [done|]. cbn [orb].
  destruct (COMPOUND_RESP_CAP <? _); [done|]. destruct (_ <? _); [done|].
  intros [?|(? & s2 & _ & Hk)]%bind_stop; [done|].
  apply bind_stop in Hk as [Hk|(? & s3 & _ & Hk)]; [by destruct (ls_prev l)|].
  apply bind_stop in Hk as [?|(? & s4 & _ & Hk)]; [done|].
  apply bind_stop in Hk as [?|(? & s5 & _ & Hk)]; [done|].
  apply bind_stop in Hk as [?|(z & s6 & _ & Hk)]; [by eauto|].
  apply bind_stop in Hk as [?|(now & s7 & _ & Hk)]; [done|].
  apply bind_stop in Hk as [?|(sess & s8 & _ & Hk)]; [done|].
  destruct (if _ <? _ then _ else _) as [prev recs].
  match type of Hk with (if ?b then _ else _) _ = _ => destruct b end; [done|].
  apply IH in Hk; cbn [ls_members] in *; [done|lia|lia].
Qed.

(** C18: The compound loop of a frame terminates within [MAX_COMPOUND + 1]
    iterations: giving it any more changes nothing, and if it does not return,
    it is because the handler of one of the commands does not. *)
Theorem compound_loop_terminates s :
  let l0 := mkLoopSt 0 0 None None [] in
  let fuel := (Z.to_nat MAX_COMPOUND + 1)%nat in
  (∀ more, compound_loop (fuel + more) srv frame base l0 s = compound_loop fuel srv frame base l0 s) ∧
  (∀ e s', compound_loop fuel srv frame base l0 s = (inr e, s') →
     ∃ h msg s1, dispatch srv h msg s1 = (inr e, s')).
Proof.
  intros l0 fuel. assert (0 ≤ ls_members l0 ≤ MAX_COMPOUND) by (unfold MAX_COMPOUND; simpl; lia).
  assert (left_over l0 = fuel) as E by (by vm_compute). split.
  - intros more. apply compound_loop_ext; [done|lia|lia].
  - intros e s'. apply compound_loop_stop; [done|lia].
Qed.
End loop.

Lemma compound_loop_terminates_witness :
  let run n := @compound_loop mem_env n sample_srv (sample_frame cmd.ECHO 0 0 0 [4; 0; 0; 0]) 0
                 (mkLoopSt 0 0 None None []) (start sample_world (pc_new sample_srv 0 0 0)) in
  run 1000%nat = run 129%nat.
Proof.
  exact (proj1 (@compound_loop_terminates mem_env sample_srv (sample_frame cmd.ECHO 0 0 0 [4; 0; 0; 0]) 0
    (start sample_world (pc_new sample_srv 0 0 0))) 871%nat).
Defined.
