(* ===== verification/DirPage.v ===== *)
(** Pages of a directory listing: what QUERY_DIRECTORY puts on the wire is a
    chain of entries a client can walk, in the order of the listing, resuming
    where the last page ended. *)
From S2P Require Import Prelude Wire Status Os Sample Vfs Handles Session Config Smb2 State Create Query.
From S2P Require Import SessionSafe.
Local Open Scope Z_scope.

(** An entry padded to a multiple of 8. *)
Definition pad_entry (entry : bytes) : bytes := entry ▷ zeros ((8 - len entry mod 8) mod 8).

(** An entry as the client sees it, after its NextEntryOffset. *)
Definition dir_body (class : Z) (e : DirEnt) : option bytes :=
  drop 4 ∘ pad_entry <$> put_dir_entry class e.

(** Entries that carry their own length as NextEntryOffset. *)
Definition stamped (ts : list bytes) : bytes := concat ((λ t, le_bytes 4 (4 + len t) ++ t) <$> ts).

(** Where the last of them starts. *)
Definition last_start (ts : list bytes) : Z := len (stamped (take (pred (length ts)) ts)).

Lemma stamped_snoc ts t : stamped (ts ++ [t]) = stamped ts ++ le_bytes 4 (4 + len t) ++ t.
Proof. unfold stamped. rewrite fmap_app, concat_app. simpl. by rewrite app_nil_r. Qed.

Lemma last_start_snoc ts t : last_start (ts ++ [t]) = len (stamped ts).
Proof.
  unfold last_start. rewrite length_app. simpl. replace (pred (length ts + 1)) with (length ts) by lia.
  by rewrite take_app_length.
Qed.

Lemma chain_snoc ts t : chain (ts ++ [t]) = stamped ts ++ le_bytes 4 0 ++ t.
Proof.
  induction ts as [|u ts IH]; [done|].
  change (stamped (u :: ts)) with ((le_bytes 4 (4 + len u) ++ u) ++ stamped ts).
  rewrite <-!app_assoc, <-IH. destruct ts; done.
Qed.

(** Clearing the offset of the last entry ends the chain. *)
Lemma patch_last ts : ts ≠ [] → patch (stamped ts) (last_start ts) (le_bytes 4 0) = chain ts.
Proof.
  destruct ts as [|t ts _] using rev_ind; [done|]. intros _.
  rewrite stamped_snoc, last_start_snoc, chain_snoc. apply patch_app. by rewrite !length_le_bytes.
Qed.

Lemma put_dir_entry_len class e b : put_dir_entry class e = Some b → 4 ≤ len b.
Proof.
  assert (∀ n v x, len (pbytes (le_bytes n v) x) = len x + Z.of_nat n) as Hp.
  { intros n v x. unfold pbytes. rewrite length_app, length_le_bytes. lia. }
  assert (∀ v x, len x ≤ len (pbytes v x)) as Hb by (intros; unfold pbytes; rewrite length_app; lia).
  unfold put_dir_entry. set (h := ([] ▷ p32 0) ▷ p32 0). assert (len h = 8) as Hh by (unfold h, p32; by rewrite !Hp).
  clearbody h. cbv zeta. intros E. destruct (class =? _).
  { injection E as <-. etrans; [|apply Hb]. unfold p32. rewrite Hp. lia. }
  set (f := ((((((((h ▷ _) ▷ _) ▷ _) ▷ _) ▷ _) ▷ _) ▷ _) ▷ _)) in E.
  assert (8 ≤ len f) as Hf by (unfold f, p32, p64; rewrite !Hp; lia). clearbody f.
  destruct (dir_entry_tail class (de_meta e)) as [g|] eqn:Eg; [|done]. injection E as <-.
  etrans; [|apply Hb]. assert (len f ≤ len (g f)); [|lia]. revert Eg. unfold dir_entry_tail, p8, p16, p32, p64, zeros.
  repeat (destruct (class =? _); [intros [= <-]; repeat (etrans; [|apply Hb]); lia|]).
  done.
Qed.

Lemma stamp_entry_body class e entry :
  put_dir_entry class e = Some entry →
  ∃ t, dir_body class e = Some t ∧ stamp_entry entry = le_bytes 4 (4 + len t) ++ t.
Proof.
  intros E. pose proof (put_dir_entry_len _ _ _ E). unfold dir_body. rewrite E. eexists. split; [done|].
  unfold stamp_entry, compose. cbv zeta. fold (pad_entry entry). set (p := pad_entry entry).
  assert (4 ≤ len p) by (unfold p, pad_entry, zeros, pbytes; rewrite length_app; lia).
  assert (4 + len (drop 4 p) = len p) as -> by (rewrite length_drop; lia).
  unfold patch. change (Z.to_nat 0) with 0%nat. by rewrite take_0, length_le_bytes.
Qed.

(** The fill loop emits a prefix of the entries, as many as fit. *)
Lemma fill_dir_spec class flags out_len ents : ∀ ts0 r n,
  fill_dir class flags out_len ents (stamped ts0) (last_start ts0) (len ts0) = (r, n) →
  ∃ k ts, n = len ts0 + Z.of_nat k ∧ mapM (dir_body class) (take k ents) = Some ts ∧
    (k ≤ length ents)%nat ∧
    match r with
    | None => ∃ e, ents !! k = Some e ∧ dir_body class e = None
    | Some (data, last) =>
        data = stamped (ts0 ++ ts) ∧ last = last_start (ts0 ++ ts) ∧
        ((0 < k)%nat → len data ≤ out_len) ∧
        (has_bits flags QD_RETURN_SINGLE = true → (k ≤ 1)%nat) ∧
        (has_bits flags QD_RETURN_SINGLE = false → ∀ e, ents !! k = Some e →
           ∃ t, dir_body class e = Some t ∧ out_len < len data + 4 + len t)
    end.
Proof.
  induction ents as [|e ents IH]; intros ts0 r n E; cbn [fill_dir] in E.
  - injection E as <- <-. exists 0%nat, []. rewrite app_nil_r. split_and!; try done; lia.
  - destruct (put_dir_entry class e) as [entry|] eqn:Ee.
    2:{ injection E as <- <-. exists 0%nat, []. split_and!; try done; [lia..|]. exists e.
        split; [done|]. unfold dir_body. by rewrite Ee. }
    destruct (stamp_entry_body _ _ _ Ee) as (t & Et & Es). rewrite Es in E.
    assert (len (le_bytes 4 (4 + len t) ++ t) = 4 + len t) as Hl by (rewrite length_app, length_le_bytes; lia).
    rewrite Hl in E. destruct (Z.ltb_spec out_len (len (stamped ts0) + (4 + len t))).
    { injection E as <- <-. exists 0%nat, []. rewrite app_nil_r. split_and!; try done; [lia..|].
      intros _ e' [= <-]. exists t. split; [done|lia]. }
    rewrite <-stamped_snoc in E. rewrite <-(last_start_snoc ts0 t) in E.
    replace (len ts0 + 1) with (len (ts0 ++ [t])) in E by (rewrite length_app; simpl; lia).
    assert (len (stamped (ts0 ++ [t])) ≤ out_len) by (rewrite stamped_snoc, length_app; lia).
    destruct (has_bits flags QD_RETURN_SINGLE) eqn:Esingle.
    + injection E as <- <-. exists 1%nat, [t]. simpl. rewrite Et. simpl.
      rewrite length_app. simpl. split_and!; try done; lia.
    + apply IH in E as (k & ts & -> & Hm & Hk & Hr). exists (S k), (t :: ts). simpl. rewrite Et. simpl.
      rewrite Hm. simpl. rewrite length_app. simpl. split_and!; try done; [lia|lia|].
      destruct r as [[data last]|]; [|done]. rewrite <-app_assoc in Hr. simpl in Hr.
      destruct Hr as (-> & -> & Hlen & _ & Hmax). split_and!; try done. intros _.
      destruct k as [|k]; [|apply Hlen; lia]. simpl in Hm. by injection Hm as <-.
Qed.

(** The page the client walks. *)
Lemma fill_dir_page class flags out_len ents data last n :
  fill_dir class flags out_len ents [] 0 0 = (Some (data, last), n) → n ≠ 0 → out_len < 2 ^ 32 →
  let page := patch data last (le_bytes 4 0) in
  (0 < Z.to_nat n ≤ length ents)%nat ∧ len page ≤ out_len ∧
  mapM (dir_body class) (take (Z.to_nat n) ents) = Some (read_chain (Z.to_nat n) page) ∧
  (has_bits flags QD_RETURN_SINGLE = true → n = 1) ∧
  (has_bits flags QD_RETURN_SINGLE = false → ∀ e, ents !! Z.to_nat n = Some e →
     ∃ t, dir_body class e = Some t ∧ out_len < len page + 4 + len t).
Proof.
  intros E Hn Ho. destruct (fill_dir_spec class flags out_len ents [] _ _ E) as (k & ts & -> & Hm & Hk & Hr).
  simpl in Hr. destruct Hr as (-> & -> & Hlen & Hs & Hmax). simpl in Hn. rewrite Z.add_0_l, Nat2Z.id in *.
  assert (length ts = k) as Hts.
  { apply mapM_Some, Forall2_length in Hm. rewrite length_take in Hm. lia. }
  assert (ts ≠ []) as Hne by (intros ->; simpl in Hts; lia).
  specialize (Hlen ltac:(lia)). rewrite patch_last by done.
  assert (len (chain ts) = len (stamped ts)) as Hc.
  { rewrite <-patch_last by done. f_equal. apply length_patch; [unfold last_start; lia|].
    destruct ts as [|t ts' _] using rev_ind; [done|].
    rewrite last_start_snoc, stamped_snoc, !length_app, !length_le_bytes. lia. }
  cbv zeta. rewrite Hc. split_and!; try done; [lia|..].
  - rewrite read_chain_chain; [done|done|lia|]. apply Forall_forall. intros t Ht.
    assert (4 + len t ≤ len (stamped ts)); [|lia].
    apply list_elem_of_split in Ht as (l1 & l2 & ->).
    assert (stamped (l1 ++ t :: l2) = stamped l1 ++ (le_bytes 4 (4 + len t) ++ t) ++ stamped l2) as ->.
    { unfold stamped. by rewrite fmap_app, concat_app. }
    rewrite !length_app, length_le_bytes. lia.
  - intros Hsi. specialize (Hs Hsi). lia.
Qed.

Section pages.
Context `{Env}.

(** C23: A QUERY_DIRECTORY that continues a listing answers with an error, or
    with a page of at most the size the client allows that the client can walk
    by its NextEntryOffsets to find exactly the next [n] entries of the
    listing, in order, encoded in the class it asked for, and as many of them
    as fit (or one, if it asked for one). The handle's position moves past
    exactly those entries, so the next call resumes with the first entry not
    sent. *)
Theorem query_directory_resumes h msg s class flags fid out_len f d :
  parse_query_dir (st_chain s) msg = Some (class, flags, fid, out_len, ds_pattern d) →
  ht_wf (s_handles (st_sess s)) →
  ht_get fid (cn_tree_id (st_chain s)) (s_handles (st_sess s)) = Some f →
  of_is_dir f = true → of_dir f = Some d →
  has_bits flags (Z.lor QD_RESTART_SCANS QD_REOPEN) = false →
  0 ≤ ds_pos d < len (ds_entries d) →
  let ents := drop (Z.to_nat (ds_pos d)) (ds_entries d) in
  ∃ s' n, query_directory h msg s = (inl tt, s') ∧ 0 ≤ n ∧
    ht_view (s_handles (st_sess s')) fid =
      Some (of_set_dir (Some (mkDirState (ds_entries d) (ds_pos d + n) (ds_pattern d))) f) ∧
    ((∃ st, st ≠ status.SUCCESS ∧ st_tx s' = err_resp h st (st_chain s) (st_tx s)) ∨
     (0 < n ≤ len ents ∧ ∃ page,
        st_tx s' = (st_tx s ▷ begin_resp h status.SUCCESS (cn_related (st_chain s)) (cn_tree_id (st_chain s))
                      (cn_session_id (st_chain s)) ▷ p16 9 ▷ p16 72 ▷ p32 (len page) ▷ pbytes page) ∧
        len page ≤ Z.min out_len MAX_TRANSACT ∧
        mapM (dir_body class) (take (Z.to_nat n) ents) = Some (read_chain (Z.to_nat n) page) ∧
        (has_bits flags QD_RETURN_SINGLE = true → n = 1) ∧
        (has_bits flags QD_RETURN_SINGLE = false → ∀ e, ents !! Z.to_nat n = Some e →
           ∃ t, dir_body class e = Some t ∧ Z.min out_len MAX_TRANSACT < len page + 4 + len t))).
Proof.
  intros Hp Hw Hg Hdir Hd Hfl Hpos ents. unfold query_directory, get_handle.
  unfold mbind at 1, ST_bind at 1, gets at 1. rewrite Hp.
  unfold mbind at 1, ST_bind at 1, gets at 1. rewrite Hg, Hdir, Hd. simpl negb. cbv iota zeta.
  rewrite Hfl, bool_decide_true by done. cbn [negb orb]. cbv iota.
  unfold mbind at 1, ST_bind at 1, mret at 1, ST_ret at 1. cbn [default from_option id].
  rewrite (proj2 (Z.leb_gt _ _)) by lia. fold ents.
  destruct (fill_dir _ _ _ ents [] 0 0) as [res n] eqn:Ef.
  unfold set_handle, upd_sess. unfold mbind at 1, ST_bind at 1, modify at 1.
  set (f' := of_set_dir _ f). set (s1 := st_set_sess _ s).
  assert (ht_view (s_handles (st_sess s1)) fid = Some f') as Hv.
  { assert (ht_view (s_handles (st_sess s)) fid = Some f) as Hv0.
    { rewrite ht_get_view in Hg. destruct (ht_view _ fid) as [g|]; [|done]. simpl in Hg. by case_match. }
    simpl. rewrite (ht_view_set _ _ f) by done. by rewrite decide_True. }
  assert (0 ≤ n) as Hn.
  { destruct (fill_dir_spec class flags _ ents [] res n Ef) as (k & ts & -> & _). simpl. lia. }
  destruct res as [[data last]|]; [destruct (Z.eqb_spec n 0) as [->|Hn0]|].
  - eexists _, 0. split; [reflexivity|]. split; [done|]. split; [exact Hv|]. left. eexists. by split; [|reflexivity].
  - eexists _, n. split; [reflexivity|]. split; [done|]. split; [exact Hv|]. right.
    destruct (fill_dir_page _ _ _ _ _ _ _ Ef Hn0) as (Hk & Hlen & Hm & Hs & Hmax); [unfold MAX_TRANSACT; lia|].
    split; [lia|]. eexists. split_and!; done.
  - eexists _, n. split; [reflexivity|]. split; [done|]. split; [exact Hv|]. left. eexists. by split; [|reflexivity].
Qed.
End pages.

(** ** A listing in two pages *)
Definition two_files : DirState :=
  let m := mkMeta 0 0 0 0 0 0 0 1 1 false in
  mkDirState [mkDirEnt (lit "alpha") m; mkDirEnt (lit "beta") m] 0 [].
Definition listing_file (d : DirState) : OpenFile :=
  mkOpenFile 3 (lit "/s") [] [] 0 1 true false false (Some d) None None 0.
Definition listing_state (d : DirState) : @St mem_env :=
  @mkSt mem_env (@mkWorld mem_env (@mkOsSt mem_env mem_fs []) ∅ ∅ [])
    (pc_new sample_srv 0 0 0) (mkChain false 7 1 None true None) []
    (s_set_handles (ht_insert (listing_file d) ht_empty).2 session_new).

(** A request for names with room for one entry. *)
Definition query_names (out_len : Z) : bytes :=
  [] ▷ zeros 64 ▷ p16 33 ▷ p8 FILE_NAMES_INFORMATION ▷ p8 0 ▷ p32 0 ▷ p64 (mk_fid 1 0) ▷ p64 (mk_fid 1 0)
     ▷ p16 0 ▷ p16 0 ▷ p32 out_len.

Lemma query_directory_resumes_witness :
  ∃ s' n, @query_directory mem_env (sample_hdr cmd.QUERY_DIRECTORY) (query_names 32) (listing_state two_files)
            = (inl tt, s') ∧ 0 ≤ n ∧
    ht_view (s_handles (st_sess s')) (mk_fid 1 0) =
      Some (listing_file (mkDirState (ds_entries two_files) n [])).
Proof.
  destruct (@query_directory_resumes mem_env (sample_hdr cmd.QUERY_DIRECTORY) (query_names 32)
    (listing_state two_files) FILE_NAMES_INFORMATION 0 (mk_fid 1 0) 32 (listing_file two_files) two_files)
    as (s' & n & E & Hn & Hv & _);
    [by vm_compute| |by vm_compute|done|done|done|by vm_compute|].
  - apply ht_insert_wf; [apply ht_empty_wf|by vm_compute].
  - exists s', n. split_and!; [exact E|exact Hn|exact Hv].
Defined.
