(* ===== verification/Locks.v ===== *)
(** LOCK batches: the order of the lock calls and the unwinding of a batch
    that fails. *)
From S2P Require Import Prelude Wire Status Os Sample Vfs Handles Session Config Smb2 State FileOps.
From S2P Require Import SessionSafe.
Local Open Scope Z_scope.

(** The lock calls in a trace. *)
Definition setlk_of (e : event) : option (Z * LockKind * Z * Z) :=
  match e with
  | Ev (c_ofd_setlk fd k start l) _ => Some (fd, k, start, l)
  | _ => None
  end.
Definition setlks : list event → list (Z * LockKind * Z * Z) := omap setlk_of.

(** The call for one range, if it covers any byte. *)
Definition range_calls (fd : Z) (k : LockKind) (off n : Z) : list (Z * LockKind * Z * Z) :=
  match lock_range off n with Some (start, l) => [(fd, k, start, l)] | None => [] end.
Definition elem_calls (fd : Z) (e : Z * Z * Z) : list (Z * LockKind * Z * Z) :=
  match lock_kind e.2 with Some k => range_calls fd k e.1.1 e.1.2 | None => [] end.

(** The ranges of the elements that lock. *)
Definition taken (elems : list (Z * Z * Z)) : list (Z * Z) :=
  (λ e : Z * Z * Z, e.1) <$> filter (λ e : Z * Z * Z, has_bits e.2 LOCKFLAG_UNLOCK = false) elems.

Section locks.
Context `{Env}.

(** The state moved by calls whose lock calls are [cs]. *)
Definition locked_by (cs : list (Z * LockKind * Z * Z)) (s s' : OsSt) : Prop :=
  ∃ t, os_trace s' = os_trace s ++ t ∧ setlks t = cs ∧ Forall (λ e, is_Some (setlk_of e)) t.

Lemma locked_by_nil s : locked_by [] s s.
Proof. exists []. by rewrite app_nil_r. Qed.

Lemma locked_by_app cs1 cs2 s1 s2 s3 :
  locked_by cs1 s1 s2 → locked_by cs2 s2 s3 → locked_by (cs1 ++ cs2) s1 s3.
Proof.
  intros (t1 & E1 & <- & F1) (t2 & E2 & <- & F2). exists (t1 ++ t2).
  rewrite E2, E1, app_assoc. split_and!; [done|apply omap_app|by apply Forall_app].
Qed.

Lemma range_lock_calls fd off n k s :
  ∃ r s', range_lock fd off n k s = (inl r, s') ∧ locked_by (range_calls fd k off n) s s'.
Proof.
  unfold range_lock, range_calls. destruct (lock_range off n) as [[start l]|].
  - unfold do. destruct (sys _ _ _) as [r o]. eexists _, _. split; [done|].
    eexists. split_and!; [done|done|]. by apply Forall_singleton.
  - eexists _, _. split; [done|]. apply locked_by_nil.
Qed.

(** Stopping at the first element of what is left. *)
Lemma lock_elems_first fd e elems applied st s s' :
  st ≠ status.SUCCESS → locked_by (elem_calls fd e) s s' →
  ∃ st0 s0 k,
    ((inl (st, applied), s') : (Z * list (Z * Z) + stop) * OsSt) =
      (inl (st0, applied ++ taken (take k (e :: elems))), s0) ∧
    (k ≤ length (e :: elems))%nat ∧ (st0 = status.SUCCESS ↔ k = length (e :: elems)) ∧
    locked_by (concat (elem_calls fd <$> take (S k) (e :: elems))) s s0.
Proof.
  intros Hst Hl. exists st, s', 0%nat. simpl. rewrite !app_nil_r. split_and!; try done; lia.
Qed.

(** The batch runs the elements in order and stops at the first that fails. *)
Lemma lock_elems_calls fd elems : ∀ applied s,
  ∃ st s' k, lock_elems fd elems applied s = (inl (st, applied ++ taken (take k elems)), s') ∧
    (k ≤ length elems)%nat ∧ (st = status.SUCCESS ↔ k = length elems) ∧
    locked_by (concat (elem_calls fd <$> take (S k) elems)) s s'.
Proof.
  induction elems as [|[[off n] flags] elems IH]; intros applied s; cbn [lock_elems].
  - exists status.SUCCESS, s, 0%nat. simpl. rewrite app_nil_r. split_and!; try done. apply locked_by_nil.
  - destruct (lock_kind flags) as [kind|] eqn:Ek.
    2:{ apply lock_elems_first; [done|]. unfold elem_calls. simpl. rewrite Ek. apply locked_by_nil. }
    destruct (range_lock_calls fd off n kind s) as (r & s1 & Er & Hl).
    assert (locked_by (elem_calls fd (off, n, flags)) s s1) as Hl1 by (unfold elem_calls; simpl; by rewrite Ek).
    unfold mbind, ST_bind. rewrite Er. destruct r as [u|e].
    + destruct (IH (if has_bits flags LOCKFLAG_UNLOCK then applied else applied ++ [(off, n)]) s1)
        as (st & s2 & k & E & Hk & Hst & Hl2).
      exists st, s2, (S k). rewrite E. split_and!.
      * do 3 f_equal. unfold taken. rewrite firstn_cons, filter_cons. simpl.
        destruct (has_bits flags LOCKFLAG_UNLOCK); [done|]. simpl. by rewrite <-app_assoc.
      * simpl. lia.
      * rewrite Hst. simpl. lia.
      * rewrite firstn_cons, fmap_cons. by eapply locked_by_app.
    + destruct (_ || _); apply lock_elems_first; try done. apply from_errno_not_success.
Qed.

(** Unwinding releases the ranges taken, the last first. *)
Lemma unlock_all_calls fd applied s :
  ∃ s', unlock_all fd applied s = (inl tt, s') ∧
    locked_by (concat ((λ p : Z * Z, range_calls fd Unlock p.1 p.2) <$> reverse applied)) s s'.
Proof.
  unfold unlock_all. revert s. induction (reverse applied) as [|[off n] l IH]; intros s; simpl.
  - eexists. split; [done|]. apply locked_by_nil.
  - destruct (range_lock_calls fd off n Unlock s) as (r & s1 & Er & Hl).
    destruct (IH s1) as (s2 & E2 & Hl2). exists s2. split; [|by eapply locked_by_app].
    unfold mbind, ST_bind. by rewrite Er.
Qed.

End locks.

(** ** A batch that fails half-way *)

(** [/s/a] opened twice: as 3 by this session, and as 4, which holds an
    exclusive lock on bytes 20 to 30; 3 holds 0 to 10. *)
Definition lock_fs : MemFs :=
  mkMemFs (fs_files mem_fs) (<[3 := lit "/s/a"]> (<[4 := lit "/s/a"]> ∅)) 5
    [(4, Exclusive, 20, 10); (3, Exclusive, 0, 10)].
Definition lock_file : OpenFile :=
  mkOpenFile 3 (lit "/s/a") (lit "a") (lit "a") 0 1 false true false None None None 0.
Definition lock_state : @St mem_env :=
  @mkSt mem_env (@mkWorld mem_env (@mkOsSt mem_env lock_fs []) ∅ ∅ [])
    (pc_new sample_srv 0 0 0) (mkChain false 7 1 None true None) []
    (s_set_handles (ht_insert lock_file ht_empty).2 session_new).

(** A LOCK request with the given (offset, length, flags). *)
Definition lock_req (elems : list (Z * Z * Z)) : bytes :=
  ([] ▷ p16 48 ▷ p16 (len elems) ▷ p32 0 ▷ p64 (mk_fid 1 0) ▷ p64 (mk_fid 1 0)) ++
  concat ((λ e : Z * Z * Z, [] ▷ p64 e.1.1 ▷ p64 e.1.2 ▷ p32 e.2 ▷ p32 0) <$> elems).


(** A batch that fails is not undone in full: an UNLOCK element before the
    refused one has given up a range the handle held, and the unwinding does
    not take it back. *)
Lemma lock_batch_not_atomic :
  let s' := (@lock mem_env (sample_hdr cmd.LOCK)
               (lock_req [(0, 10, LOCKFLAG_UNLOCK); (20, 10, LOCKFLAG_EXCLUSIVE)]) lock_state).2 in
  fs_locks lock_fs = [(4, Exclusive, 20, 10); (3, Exclusive, 0, 10)] ∧
  fs_locks (os_st (w_os (st_w s'))) = [(4, Exclusive, 20, 10)].
Proof. by vm_compute. Qed.
