(* ===== verification/Keys.v ===== *)
(** Where the keys of a connection come from.

    A channel signs and seals with keys the server derived itself, and its
    cipher is one the server offers. This is an invariant of a connection; it
    is kept by every update of the connection that a handler makes. *)
From S2P Require Import Prelude Wire Os Crypto Smb2 Negotiate Setup Dispatch.
Local Open Scope Z_scope.

Section keys.
Context `{Env}.

Definition derived_sign (sc : SignCtx) : Prop := ∃ dialect key preauth, sc = derive_sign_ctx dialect key preauth.

Definition derived_enc (e : EncCtx) : Prop :=
  supported_cipher (en_cipher e) = true ∧
  ∃ key preauth, (en_c2s e, en_s2c e) = smb311_encryption_keys (en_cipher e) key preauth.

Record ch_keyed (c : ChannelState) : Prop := {
  ck_sign : ∀ sc, ch_sign c = Some sc → derived_sign sc;
  ck_enc : ∀ e, ch_enc c = Some e → derived_enc e }.

Definition usable_cipher (c : Z) : Prop := c = 0 ∨ supported_cipher c = true.

Record pc_keyed (p : ProtoConn) : Prop := {
  pk_cipher : usable_cipher (pc_cipher p);
  pk_channels : map_Forall (λ _, ch_keyed) (pc_channels p) }.

Lemma keyed_new srv wid idx gen : pc_keyed (pc_new srv wid idx gen).
Proof. split; [by left|apply map_Forall_empty]. Qed.

(** ** Channels *)
Lemma keyed_bare b sr pend pre enc krb : ch_keyed (mkChannelState b sr None pend pre None enc krb).
Proof. by split. Qed.

Lemma keyed_default : ch_keyed channel_default.
Proof. apply keyed_bare. Qed.

(** The same keys in another channel state. *)
Lemma keyed_copy c b sr pend pre enc krb :
  ch_keyed c → ch_keyed (mkChannelState b sr (ch_sign c) pend pre (ch_enc c) enc krb).
Proof. intros []. by split. Qed.
Lemma keyed_set_preauth v c : ch_keyed c → ch_keyed (ch_set_preauth v c).
Proof. apply keyed_copy. Qed.
Lemma keyed_set_pending v c : ch_keyed c → ch_keyed (ch_set_pending v c).
Proof. apply keyed_copy. Qed.
Lemma keyed_set_krb v c : ch_keyed c → ch_keyed (ch_set_krb v c).
Proof. apply keyed_copy. Qed.
Lemma keyed_set_encrypt v c : ch_keyed c → ch_keyed (ch_set_encrypt v c).
Proof. apply keyed_copy. Qed.

Lemma channel_enc_derived cipher dialect key preauth e :
  usable_cipher cipher → channel_enc cipher dialect key preauth = Some e → derived_enc e.
Proof.
  unfold channel_enc. intros [->|Hc]; [done|]. destruct (_ && _); [|done].
  destruct (smb311_encryption_keys _ _ _) as [c2s s2c] eqn:E. intros [= <-]. split; [done|]. by exists key, preauth.
Qed.

Lemma keyed_established srv sg cipher dialect key c :
  usable_cipher cipher → ch_keyed c → ch_keyed (established_channel srv sg cipher dialect key c).
Proof.
  intros Hc []. split; simpl; [intros sc [= <-]; by do 3 eexists|].
  intros e. destruct (channel_enc _ _ _ _) eqn:E; [|by auto]. intros [= ->]. by eapply channel_enc_derived.
Qed.

Lemma keyed_krb srv sg cipher dialect key preauth :
  usable_cipher cipher → ch_keyed (krb_channel srv sg cipher dialect key preauth).
Proof.
  intros Hc. split; simpl; [intros sc [= <-]; by do 3 eexists|]. intros e. by eapply channel_enc_derived.
Qed.

(** Sealing moves the nonce counter and keeps the keys. *)
Lemma keyed_sealed plain e sid tx : derived_enc e → derived_enc (wrap_transform plain e sid tx).1.
Proof. intros He. unfold wrap_transform. cbv zeta. by destruct (aead_seal _ _ _ _ _). Qed.

Lemma keyed_set_enc e c : derived_enc e → ch_keyed c → ch_keyed (ch_set_enc (Some e) c).
Proof. intros He []. split; [done|]. by intros ? [= <-]. Qed.

(** ** Connections *)
Lemma keyed_lookup p sid c : pc_keyed p → pc_channels p !! sid = Some c → ch_keyed c.
Proof. intros [_ Hc]. apply Hc. Qed.

Lemma keyed_at p sid : pc_keyed p → ch_keyed (default channel_default (pc_channels p !! sid)).
Proof. intros Hp. destruct (pc_channels p !! sid) eqn:E; [by eapply keyed_lookup|apply keyed_default]. Qed.

Lemma keyed_set m p : pc_keyed p → map_Forall (λ _, ch_keyed) m → pc_keyed (pc_set_channels m p).
Proof. intros []. by split. Qed.

Lemma keyed_insert sid c p :
  ch_keyed c → pc_keyed p → pc_keyed (pc_set_channels (<[sid := c]> (pc_channels p)) p).
Proof. intros Hc Hp. apply keyed_set; [done|]. apply map_Forall_insert_2; [done|apply Hp]. Qed.

Lemma keyed_delete sid p : pc_keyed p → pc_keyed (pc_set_channels (delete sid (pc_channels p)) p).
Proof. intros Hp. apply keyed_set; [done|]. apply map_Forall_delete, Hp. Qed.

Lemma keyed_empty p : pc_keyed p → pc_keyed (pc_set_channels ∅ p).
Proof. intros Hp. apply keyed_set; [done|]. apply map_Forall_empty. Qed.

Lemma keyed_alter f sid p :
  (∀ c, pc_channels p !! sid = Some c → ch_keyed c → ch_keyed (f c)) → pc_keyed p →
  pc_keyed (pc_set_channels (alter f sid (pc_channels p)) p).
Proof.
  intros Hf Hp. apply keyed_set; [done|]. intros i c. destruct (decide (i = sid)) as [->|].
  - rewrite lookup_alter_eq. intros (d & Hd & ->)%fmap_Some. eapply Hf; [done|]. by eapply keyed_lookup.
  - rewrite lookup_alter_ne by done. by apply keyed_lookup.
Qed.

Lemma keyed_notify_final p meta st evs n : pc_keyed p → pc_keyed (build_notify_final p meta st evs n).2.
Proof.
  intros Hp. unfold build_notify_final. cbv zeta. set (tx := if (_ : bool) then _ else _). clearbody tx.
  destruct (pc_channels p !! _) as [ch|] eqn:Ec; [|done]. destruct (ch_encrypt ch); [|done].
  destruct (ch_enc ch) as [e|] eqn:Ee; [|done].
  pose proof (keyed_lookup _ _ _ Hp Ec) as Hch.
  pose proof (keyed_sealed (drop 4 tx) e (am_session_id meta) [] (ck_enc _ Hch _ Ee)) as He.
  destruct (wrap_transform _ _ _ _) as [e' sealed]. simpl in *. apply keyed_insert; [|done]. by apply keyed_set_enc.
Qed.

(** What [seal_reply] does to the channel. *)
Lemma keyed_seal_reply enc plain sid tx p :
  let e2 := (wrap_transform plain (default enc (pc_channels p !! sid ≫= ch_enc)) sid tx).1 in
  pc_keyed p →
  pc_keyed (pc_set_channels
    (alter (λ c, match ch_enc c with
                 | Some e => if bool_decide (en_s2c e = en_s2c e2) then ch_set_enc (Some e2) c else c
                 | None => c
                 end) sid (pc_channels p)) p).
Proof.
  intros e2. apply keyed_alter. intros c Hc Hk. destruct (ch_enc c) as [e|] eqn:Ee; [|done].
  case_bool_decide; [|done]. apply keyed_set_enc; [|done]. unfold e2. rewrite Hc. simpl. rewrite Ee.
  by apply keyed_sealed, (ck_enc _ Hk).
Qed.

Lemma keyed_encrypted sid p :
  pc_keyed p → pc_keyed (pc_set_channels (alter (ch_set_encrypt true) sid (pc_channels p)) p).
Proof. apply keyed_alter. intros c _. apply keyed_set_encrypt. Qed.

(** ** NEGOTIATE *)
Lemma choose_supported prefer offered :
  Forall (λ c, supported_cipher c = true) offered → usable_cipher (choose_cipher prefer offered).
Proof.
  intros Ho. unfold choose_cipher. destruct prefer.
  - unfold find_first. destruct (list_find _ _) as [[i c]|] eqn:E; [right|by left]. cbn [fmap option_fmap option_map snd default].
    apply list_find_Some in E as (E & _ & _). do 4 (destruct i as [|i]; [by injection E as <-|]). done.
  - destruct Ho; [by left|by right].
Qed.

Lemma encryption_ctx_usable prefer data c : encryption_ctx prefer data = Some c → usable_cipher c.
Proof.
  unfold encryption_ctx. intros E.
  assert (∃ cs, c = choose_cipher prefer (filter (λ c, supported_cipher c = true) cs)) as [cs ->].
  { apply parse_Some in E as [r E]. apply P_bind_Some in E as (k & r1 & _ & E).
    apply P_bind_Some in E as (cs & r2 & _ & E). exists cs. by injection E. }
  apply choose_supported, Forall_forall. by intros x [? _]%list_elem_of_filter.
Qed.

Lemma neg_contexts_usable n prefer msg : ∀ off hp c,
  usable_cipher c → usable_cipher (neg_contexts n prefer msg off hp c).2.
Proof.
  induction n as [|n IH]; intros off hp c Hc; simpl; [done|]. destruct (_ ≫= _) as [[t l]|]; [|done].
  apply IH. destruct (t =? 2); [|done]. destruct (slice _ _ _ ≫= encryption_ctx prefer) as [c'|] eqn:E; simpl; [|done].
  apply bind_Some in E as (d & _ & E). by eapply encryption_ctx_usable.
Qed.

Lemma keyed_negotiated d c neg p : usable_cipher c → pc_keyed p → pc_keyed (pc_set_negotiated d c neg p).
Proof. intros Hc []. by split. Qed.
End keys.

Create HintDb keyed discriminated.
#[export] Hint Resolve keyed_bare keyed_insert keyed_delete keyed_empty keyed_established keyed_krb
  keyed_negotiated keyed_lookup keyed_at pk_cipher : keyed.
#[export] Hint Resolve keyed_copy keyed_set_preauth keyed_set_pending keyed_set_krb keyed_set_encrypt keyed_default : keyed.

(** An update of a connection that leaves its keys alone, or sets derived ones. *)
Ltac keyed_auto :=
  repeat case_match;
  first [solve [eauto 8 with keyed] | lazymatch goal with Hp : pc_keyed _ |- _ => destruct Hp; split; assumption end].
