(* ===== verification/Appends.v ===== *)
(** Processing a frame only appends to the transmit buffer.

    The reactor batches the responses of several frames in one buffer, so a
    frame must leave what is already there alone, and what it adds must be one
    complete NBT message (or nothing). The same pass shows that a request
    changes neither the connection's location nor the number of mailboxes, and
    keeps the connection's keys derived ones ([pc_keyed]). *)
From S2P Require Import Prelude Hoare Wire Status Os Sample Lease Vfs Handles Spnego Crypto Ntlm Session.
From S2P Require Import Config Authz Smb2 Codec Credits State Negotiate Setup Create FileOps Query SetInfo.
From S2P Require Import Dispatch Keys SessionSafe WorldSafe.
Local Open Scope Z_scope.

(** ** Writers that only append *)
Definition appends (f : bytes → bytes) : Prop := ∀ tx, tx `prefix_of` f tx.

Lemma appends_id : appends (λ tx, tx).
Proof. by intros tx. Qed.
Lemma appends_comp f g : appends f → appends g → appends (λ tx, g (f tx)).
Proof. intros Hf Hg tx. etrans; [apply Hf|apply Hg]. Qed.
Lemma appends_pbytes v : appends (pbytes v).
Proof. intros tx. by eexists. Qed.
Lemma appends_p8 v : appends (p8 v).
Proof. intros tx. by eexists. Qed.
Lemma appends_p16 v : appends (p16 v).
Proof. intros tx. by eexists. Qed.
Lemma appends_p32 v : appends (p32 v).
Proof. intros tx. by eexists. Qed.
Lemma appends_p64 v : appends (p64 v).
Proof. intros tx. by eexists. Qed.
Lemma appends_zeros n : appends (zeros n).
Proof. intros tx. by eexists. Qed.
Lemma appends_pad8 b : appends (pad8 b).
Proof. intros tx. unfold pad8. destruct (_ =? 0); [done|]. apply appends_zeros. Qed.

Create HintDb appends discriminated.
#[export] Hint Constants Opaque : appends.
#[export] Hint Resolve appends_id appends_pbytes appends_p8 appends_p16 appends_p32 appends_p64
  appends_zeros appends_pad8 : appends.

(** Peel the writers of [f tx] off, outermost first. *)
Ltac appends_peel :=
  lazymatch goal with
  | |- ?tx `prefix_of` ?tx => reflexivity
  | |- ?tx `prefix_of` (if ?b then _ else _) => destruct b; appends_peel
  | |- ?tx `prefix_of` (match ?x with _ => _ end) => destruct x; appends_peel
  | |- ?tx `prefix_of` ?f ?x =>
      transitivity x; [appends_peel|let Ha := fresh in assert (appends f) as Ha by eauto with appends; apply Ha]
  end.

Lemma appends_begin_resp h st r t s : appends (begin_resp h st r t s).
Proof. intros tx. unfold begin_resp. appends_peel. Qed.
Lemma appends_begin_resp_async m st c k : appends (begin_resp_async m st c k).
Proof. intros tx. unfold begin_resp_async. appends_peel. Qed.
Lemma appends_err_body : appends err_body.
Proof. intros tx. unfold err_body. appends_peel. Qed.
#[export] Hint Resolve appends_begin_resp appends_begin_resp_async appends_err_body : appends.
Lemma appends_err_resp h st c : appends (err_resp h st c).
Proof. intros tx. unfold err_resp. appends_peel. Qed.
Lemma appends_ss_resp h st r sid flags blob : appends (ss_resp h st r sid flags blob).
Proof. intros tx. unfold ss_resp. appends_peel. Qed.
Lemma appends_put_fid fid : appends (put_fid fid).
Proof. intros tx. unfold put_fid. appends_peel. Qed.
Lemma appends_smb1_refuse req : appends (smb1_negotiate_refuse req).
Proof. intros tx. unfold smb1_negotiate_refuse. appends_peel. Qed.
#[export] Hint Resolve appends_err_resp appends_ss_resp appends_put_fid appends_smb1_refuse : appends.
Lemma appends_create_body a m at_ fid l : appends (create_body a m at_ fid l).
Proof. intros tx. unfold create_body. cbv zeta. appends_peel. Qed.
#[export] Hint Resolve appends_create_body : appends.

(** A patch past [pre] keeps it. *)
Lemma prefix_patch (pre tx v : bytes) off :
  len pre ≤ off → pre `prefix_of` tx → pre `prefix_of` patch tx off v.
Proof.
  intros Hoff [k ->]. unfold patch. replace (Z.to_nat off) with (length pre + (Z.to_nat off - length pre))%nat by lia.
  rewrite take_app_add, <- app_assoc. by eexists.
Qed.

Section appends.
Context `{Env} (wid idx gen : Z) (nmb : nat) (pre : bytes) (kp : Prop).

(** The connection stays where it is, the buffer starts with [pre], and under
    [kp] the keys are derived. *)
Record kept (s : St) : Prop := {
  k_wid : pc_wid (st_pc s) = wid;
  k_idx : pc_conn_idx (st_pc s) = idx;
  k_gen : pc_conn_gen (st_pc s) = gen;
  k_mail : length (w_mailboxes (st_w s)) = nmb;
  k_tx : pre `prefix_of` st_tx s;
  k_keys : kp → pc_keyed (st_pc s) }.

Lemma k_same s s' :
  pc_wid (st_pc s') = pc_wid (st_pc s) → pc_conn_idx (st_pc s') = pc_conn_idx (st_pc s) →
  pc_conn_gen (st_pc s') = pc_conn_gen (st_pc s) →
  length (w_mailboxes (st_w s')) = length (w_mailboxes (st_w s)) → st_tx s `prefix_of` st_tx s' →
  (kp → pc_keyed (st_pc s) → pc_keyed (st_pc s')) → kept s → kept s'.
Proof. intros E1 E2 E3 E4 E5 E6 []. constructor; try congruence; [by etrans|auto]. Qed.

Lemma k_put f : appends f → keeps kept (put f) (λ _, True).
Proof. intros Hf. apply keeps_modify. intros s. by apply k_same. Qed.

Lemma k_upd_pc f :
  (∀ p, pc_wid (f p) = pc_wid p ∧ pc_conn_idx (f p) = pc_conn_idx p ∧ pc_conn_gen (f p) = pc_conn_gen p) →
  (kp → ∀ p, pc_keyed p → pc_keyed (f p)) → keeps kept (upd_pc f) (λ _, True).
Proof. intros Hf Hk. apply keeps_modify. intros s Hs. destruct (Hf (st_pc s)) as (?&?&?). apply (k_same s); try done. simpl. intros. by apply Hk. Qed.

Lemma k_bind_pc {A} (k : ProtoConn → M A) Q :
  (∀ pc, (kp → pc_keyed pc) → keeps kept (k pc) Q) → keeps kept (gets st_pc ≫= k) Q.
Proof. eapply keeps_bind, keeps_gets. intros s Hs. apply Hs. Qed.

Lemma k_upd_w f : (∀ w, length (w_mailboxes (f w)) = length (w_mailboxes w)) → keeps kept (upd_w f) (λ _, True).
Proof. intros Hf. apply keeps_modify. intros s. apply k_same; try done. apply Hf. Qed.

Lemma k_upd_chain f : keeps kept (upd_chain f) (λ _, True).
Proof. apply keeps_modify. intros s. by apply k_same. Qed.
Lemma k_upd_sess f : keeps kept (upd_sess f) (λ _, True).
Proof. apply keeps_modify. intros s. by apply k_same. Qed.

Lemma k_io {A} (m : IO A) : keeps kept (io m) (λ _, True).
Proof.
  intros s Hs. unfold io, zoom. destruct (m _) as [[a|e] o]; [split; [|done]|]; by apply (k_same s).
Qed.

Lemma k_with_session {A} sid x (m : M A) : keeps kept m (λ _, True) → keeps kept (with_session sid x m) (λ _, True).
Proof.
  intros Hm s Hs. unfold with_session. specialize (Hm (st_set_sess x s)).
  destruct (m _) as [[a|e] s']; simpl; [split; [|done]|];
    (apply (k_same s'); [done..|apply Hm; by apply (k_same s)]).
Qed.

Lemma length_post_break msgs : ∀ l, length (foldl post_break l msgs) = length l.
Proof.
  induction msgs as [|b msgs IH]; intros l; simpl; [done|]. rewrite IH. unfold post_break.
  destruct (_ <? 0); [done|]. destruct (l !! _); [|done]. by rewrite length_insert.
Qed.

Lemma k_break_leases key ex : keeps kept (break_leases key ex) (λ _, True).
Proof.
  apply k_upd_w. intros w. destruct (break_conflicts _ _ _). simpl. apply length_post_break.
Qed.
End appends.

#[export] Hint Resolve k_upd_chain k_upd_sess k_io k_with_session k_break_leases : keeps.
#[export] Hint Extern 1 (keeps (kept _ _ _ _ _ _) (put _) _) =>
  (apply k_put; first [by eauto with appends|intros ?; cbv beta zeta; appends_peel]) : keeps.
#[export] Hint Extern 1 (keeps (kept _ _ _ _ _ _) (upd_pc _) _) =>
  (apply k_upd_pc; [intros ?; simpl; repeat case_match; done|intros ? ? ?; keyed_auto]) : keeps.
#[export] Hint Extern 1 (keeps (kept _ _ _ _ _ _) (upd_w _) _) => (apply k_upd_w; intros ?; done) : keeps.

(** ** The handlers *)
Section handlers.
Context `{Env} (srv : Srv) (wid idx gen : Z) (nmb : nat) (pre : bytes) (kp : Prop).
Local Abbreviation keep m := (keeps (kept wid idx gen nmb pre kp) m (λ _, True)).

Lemma k_fail_resp h st : keep (fail_resp h st).
Proof. unfold fail_resp. keeps_auto. Qed.
Lemma k_ok_resp h b : appends b → keep (ok_resp h b).
Proof. intros Hb. unfold ok_resp. keeps_step; [keeps_auto|]. apply k_put. intros tx. etrans; [|apply Hb]. apply appends_begin_resp. Qed.
Lemma k_simple_resp h : keep (simple_resp h).
Proof. unfold simple_resp. apply k_ok_resp. intros tx. appends_peel. Qed.
Lemma k_put_ss h st sid fl b : keep (put_ss h st sid fl b).
Proof. unfold put_ss. keeps_auto. Qed.
Lemma k_finish_close f : keep (finish_close f).
Proof. unfold finish_close. keeps_auto. Qed.
Lemma k_close_file f : keep (close_file f).
Proof. unfold close_file, drop_file. keeps_step; [apply k_finish_close|keeps_auto]. Qed.
Lemma k_notify_cleanup fid : keep (notify_cleanup fid).
Proof. unfold notify_cleanup. keeps_auto. Qed.
End handlers.
#[export] Hint Resolve k_fail_resp k_simple_resp k_put_ss k_finish_close k_close_file k_notify_cleanup : keeps.
#[export] Hint Extern 1 (keeps (kept _ _ _ _ _ _) (ok_resp _ _) _) =>
  (apply k_ok_resp; intros ?; cbv beta zeta; appends_peel) : keeps.

Section commands.
Context `{Env} (srv : Srv) (wid idx gen : Z) (nmb : nat) (pre : bytes) (kp : Prop).
Local Abbreviation keep m := (keeps (kept wid idx gen nmb pre kp) m (λ _, True)).

Lemma k_end_session sid : keep (end_session sid).
Proof. unfold end_session, reg_remove. keeps_auto. Qed.
#[local] Hint Resolve k_end_session : keeps.
Lemma k_drop_channel sid x : keep (drop_channel sid x).
Proof. unfold drop_channel. keeps_auto. Qed.
#[local] Hint Resolve k_drop_channel : keeps.
Lemma k_logoff h : keep (logoff h).
Proof. unfold logoff. keeps_auto. Qed.
#[local] Hint Resolve k_logoff : keeps.
Lemma k_teardown : keep teardown_conn.
Proof. unfold teardown_conn, teardown_channel. keeps_auto. Qed.
#[local] Hint Resolve k_teardown : keeps.

Lemma k_ntlm_negotiate h msg b sp : keep (ntlm_negotiate srv h msg b sp).
Proof. unfold ntlm_negotiate. keeps_auto. Qed.
#[local] Hint Resolve k_ntlm_negotiate : keeps.
Lemma k_ntlm_bind h sid x ch a c sg d : (kp → ch_keyed ch) → keep (ntlm_bind srv h sid x ch a c sg d).
Proof. intros Hch. unfold ntlm_bind. apply k_bind_pc. intros pc Hpc. keeps_auto. Qed.
#[local] Hint Resolve k_ntlm_bind : keeps.
Lemma k_ntlm_first h sid x ch a c sg d : (kp → ch_keyed ch) → keep (ntlm_first srv h sid x ch a c sg d).
Proof. intros Hch. unfold ntlm_first, drop_setup. apply k_bind_pc. intros pc Hpc. keeps_auto. Qed.
#[local] Hint Resolve k_ntlm_first : keeps.
Lemma k_ntlm_authenticate h msg blob sp sg : keep (ntlm_authenticate srv h msg blob sp sg).
Proof.
  unfold ntlm_authenticate. keeps_step; [keeps_auto|]. apply k_bind_pc. intros pc Hpc.
  destruct (pc_channels pc !! _) as [ch|] eqn:Ec; [|keeps_auto].
  assert (kp → ch_keyed ch) as Hch by eauto with keyed. cbv zeta.
  set (ch1 := if (_ : bool) then _ else _).
  assert (kp → ch_keyed (ch_set_pending None ch1)) as Hch1.
  { intros k. unfold ch1. case_match; eauto with keyed. }
  clearbody ch1. keeps_auto.
Qed.
#[local] Hint Resolve k_ntlm_authenticate : keeps.
Lemma k_ntlm_anonymous h : keep (ntlm_anonymous srv h).
Proof. unfold ntlm_anonymous. keeps_auto. Qed.
#[local] Hint Resolve k_ntlm_anonymous : keeps.
Lemma k_krb_acceptor : keep (krb_acceptor srv).
Proof. unfold krb_acceptor. keeps_auto. Qed.
Lemma k_krb_take h : keep (krb_take h).
Proof. unfold krb_take. apply k_bind_pc. intros pc Hpc. keeps_auto. Qed.
Lemma k_krb_forget existing : keep (krb_forget existing).
Proof. unfold krb_forget, drop_setup. keeps_auto. Qed.
#[local] Hint Resolve k_krb_acceptor k_krb_take k_krb_forget : keeps.
Lemma k_krb_continue h existing ctx pa wr out : keep (krb_continue srv h existing ctx pa wr out).
Proof. unfold krb_continue, krb_keep. keeps_auto. Qed.
Lemma k_krb_done h existing pa sg wr est : keep (krb_done srv h existing pa sg wr est).
Proof. unfold krb_done. apply k_bind_pc. intros pc Hpc. keeps_auto. Qed.
#[local] Hint Resolve k_krb_continue k_krb_done : keeps.
Lemma k_kerberos h msg : keep (kerberos_session_setup srv h msg).
Proof. unfold kerberos_session_setup. keeps_auto. Qed.
#[local] Hint Resolve k_kerberos : keeps.
Lemma k_session_setup h msg : keep (session_setup srv h msg).
Proof.
  unfold session_setup, ntlm_session_setup. keeps_auto.
Qed.
#[local] Hint Resolve k_session_setup : keeps.

Lemma k_tree_connect h msg : keep (tree_connect srv h msg).
Proof. unfold tree_connect. keeps_auto. Qed.
#[local] Hint Resolve k_tree_connect : keeps.
Lemma k_tree_disconnect h : keep (tree_disconnect h).
Proof. unfold tree_disconnect, remove_handle. keeps_auto. Qed.
#[local] Hint Resolve k_tree_disconnect : keeps.
Lemma k_create h msg share tree cid ao : keep (create srv h msg share tree cid ao).
Proof. unfold create, open_dir, open_file, create_opened, granted_lease, get_handle. keeps_auto. Qed.
#[local] Hint Resolve k_create : keeps.
Lemma k_close h body : keep (close h body).
Proof. unfold close, remove_handle, drop_file. keeps_auto. Qed.
#[local] Hint Resolve k_close : keeps.
Lemma k_flush h body : keep (flush h body).
Proof. unfold flush, get_handle. keeps_auto. Qed.
#[local] Hint Resolve k_flush : keeps.
Lemma k_read h body : keep (read h body).
Proof. unfold read, read_buffered, get_handle. keeps_auto. Qed.
#[local] Hint Resolve k_read : keeps.
Lemma k_write h msg tree : keep (write h msg tree).
Proof. unfold write, get_handle. keeps_auto. Qed.
#[local] Hint Resolve k_write : keeps.
Lemma k_query_directory h msg : keep (query_directory h msg).
Proof. unfold query_directory, get_handle, set_handle. keeps_auto. Qed.
#[local] Hint Resolve k_query_directory : keeps.
Lemma k_query_info h body : keep (query_info srv h body).
Proof. unfold query_info, get_handle, file_info, fs_info. keeps_auto. Qed.
#[local] Hint Resolve k_query_info : keeps.
Lemma k_set_info h msg share ro : keep (set_info h msg share ro).
Proof.
  unfold set_info, set_info_class, set_basic_info, set_disposition, set_rename, rename_target, get_handle, set_handle.
  keeps_auto.
Qed.
#[local] Hint Resolve k_set_info : keeps.
Lemma k_lock h body : keep (lock h body).
Proof. unfold lock, get_handle. keeps_auto. Qed.
#[local] Hint Resolve k_lock : keeps.
Lemma k_change_notify h body : keep (change_notify h body).
Proof. unfold change_notify, get_handle. keeps_auto. Qed.
#[local] Hint Resolve k_change_notify : keeps.
Lemma k_cancel h : keep (cancel h).
Proof. unfold cancel. keeps_auto. Qed.
#[local] Hint Resolve k_cancel : keeps.
Lemma k_ioctl h msg : keep (ioctl srv h msg).
Proof. unfold ioctl. keeps_auto. Qed.
#[local] Hint Resolve k_ioctl : keeps.

(** NEGOTIATE patches its own response. *)
Lemma k_put_from f : (∀ tx, pre `prefix_of` tx → pre `prefix_of` f tx) → keep (put f).
Proof. intros Hf. apply keeps_modify. intros s []. constructor; try done. by apply Hf. Qed.

Lemma k_tx_len : keeps (kept wid idx gen nmb pre kp) (gets (λ s, len (st_tx s))) (λ n, len pre ≤ n).
Proof. apply keeps_gets. intros s Hs. apply k_tx, prefix_length in Hs. lia. Qed.

Lemma k_negotiate_body dialect cipher start : len pre ≤ start → keep (negotiate_body srv dialect cipher start).
Proof.
  intros Hs. unfold negotiate_body. cbv zeta. keeps_step; [keeps_auto|]. keeps_step; [keeps_auto|].
  keeps_step; [keeps_auto|]. keeps_step; [keeps_auto|]. keeps_step; [|keeps_auto].
  keeps_step; [keeps_auto|]. apply k_put_from. intros tx Htx. unfold negotiate_contexts, patch32.
  assert (pre `prefix_of` (if negb (cipher =? 0) then tx ▷ pad8 start ▷ p16 1 ▷ p16 38 ▷ p32 0 ▷ p16 1 ▷ p16 32 ▷ p16 1
    ▷ pbytes a1 ▷ pad8 start ▷ p16 2 ▷ p16 4 ▷ p32 0 ▷ p16 1 ▷ p16 cipher else
    tx ▷ pad8 start ▷ p16 1 ▷ p16 38 ▷ p32 0 ▷ p16 1 ▷ p16 32 ▷ p16 1 ▷ pbytes a1)).
  { etrans; [exact Htx|]. appends_peel. }
  destruct (negb (cipher =? 0)); cbv beta iota zeta; (apply prefix_patch; [lia|]; apply prefix_patch; [lia|done]).
Qed.

Lemma k_negotiate h msg : keep (negotiate srv h msg).
Proof.
  unfold negotiate. cbv zeta. keeps_step; [keeps_auto|]. destruct a; [keeps_auto|].
  destruct (parse_negotiate _) as [[[[ds o] n] cn]|]; [|keeps_auto].
  destruct (choose_dialect ds) as [d|]; [|keeps_auto].
  assert (∀ x : bool * Z, x = (if d =? 785 then neg_contexts (Z.to_nat (Z.min n 16)) (cf_prefer_aes256 (srv_cfg srv))
    msg o false 0 else (true, 0)) → usable_cipher x.2) as Hc.
  { intros x ->. destruct (d =? _); [apply neg_contexts_usable|]; by left. }
  destruct (if _ =? _ then _ else _) as [hp cipher]. specialize (Hc _ eq_refl). simpl in Hc. destruct (negb hp); [keeps_auto|].
  keeps_step; [keeps_auto|]. eapply keeps_bind; [apply k_tx_len|]. intros start Hs.
  keeps_step; [keeps_auto|]. by apply k_negotiate_body.
Qed.

Lemma k_smb1_wildcard : keep (negotiate_resp_smb1_wildcard srv).
Proof.
  unfold negotiate_resp_smb1_wildcard. eapply keeps_bind; [apply k_tx_len|]. intros start Hs.
  keeps_step; [keeps_auto|]. by apply k_negotiate_body.
Qed.
#[local] Hint Resolve k_negotiate k_smb1_wildcard : keeps.

Lemma k_dispatch_tree h msg tree : keep (dispatch_tree srv h msg tree).
Proof. unfold dispatch_tree. keeps_auto. Qed.
#[local] Hint Resolve k_dispatch_tree : keeps.
Lemma k_dispatch_locked h msg : keep (dispatch_locked srv h msg).
Proof. unfold dispatch_locked. keeps_auto. Qed.
#[local] Hint Resolve k_dispatch_locked : keeps.
Lemma k_dispatch h msg : keep (dispatch srv h msg).
Proof. unfold dispatch, dispatch_cmd, dispatch_session. keeps_auto. Qed.

(** ** One frame *)

(** What the loop remembers points into the part of the buffer it writes. *)
Definition loop_past (l : LoopSt) : Prop :=
  (∀ p, ls_prev l = Some p → len pre ≤ p) ∧ Forall (λ r, len pre ≤ rr_start r) (ls_recs l).

Lemma k_compound_loop frame base fuel : ∀ l,
  loop_past l → keeps (kept wid idx gen nmb pre kp) (compound_loop fuel srv frame base l) loop_past.
Proof.
  induction fuel as [|fuel IH]; intros l [Hp Hr]; simpl; [apply keeps_halt|].
  destruct (parse_hdr _) as [h|]; [|by apply keeps_ret].
  eapply keeps_bind; [apply k_tx_len|]. intros n Hn. destruct (_ || _).
  { keeps_step; [keeps_auto|by apply keeps_ret]. }
  destruct (_ <? _); [by apply keeps_ret|].
  keeps_step; [keeps_auto|]. keeps_step.
  { destruct (ls_prev l) as [p|]; [|keeps_auto]. keeps_step; [keeps_auto|].
    apply k_put_from. intros tx. apply prefix_patch. specialize (Hp p eq_refl). lia. }
  eapply keeps_bind; [apply k_tx_len|]. intros start Hs. keeps_step; [keeps_auto|].
  keeps_step; [apply k_dispatch|]. keeps_step; [keeps_auto|]. keeps_step; [keeps_auto|].
  destruct (if start <? a1 then _ else _) as [prev recs] eqn:E.
  assert (loop_past (mkLoopSt (ls_off l + h_next h) (ls_members l + 1) prev
    (match a0 with Some z => Some z | None => ls_plan l end) recs)) as Hl.
  { destruct (start <? a1); simplify_eq; split; simpl; try done.
    - by intros p [= <-].
    - apply Forall_app. split; [done|]. by constructor. }
  destruct (_ || _); [by apply keeps_ret|by apply IH].
Qed.

Lemma k_sign_responses recs : Forall (λ r, len pre ≤ rr_start r) recs → keep (sign_responses recs).
Proof.
  intros Hr. unfold sign_responses. keeps_step; [keeps_auto|]. keeps_step. destruct x as [rec e].
  keeps_step; [keeps_auto|]. destruct a0 as [sc|]; [|keeps_auto].
  assert (rec ∈ recs) as Hin.
  { revert H0. generalize a. clear. induction recs as [|r recs IH]; intros n; simpl; [by intros ?%elem_of_nil|].
    intros [[= -> _]|?]%elem_of_cons; [by left|]. right. by eapply IH. }
  rewrite Forall_forall in Hr. specialize (Hr _ Hin).
  apply k_put_from. intros tx Htx. unfold sign_in_place. cbv zeta.
  apply prefix_patch; [lia|]. apply prefix_patch; [lia|done].
Qed.

Lemma k_hash_responses frame recs : keep (hash_responses frame recs).
Proof. unfold hash_responses. keeps_auto. Qed.
End commands.

(** ** What a frame appends *)

(** The NBT header of an [n]-byte message. *)
Definition nbt_hdr (n : Z) : bytes :=
  [0; Z.land (Z.shiftr n 16) 0xFF; Z.land (Z.shiftr n 8) 0xFF; Z.land n 0xFF].

Definition framed (out : bytes) : Prop := out = [] ∨ ∃ body, out = nbt_hdr (len body) ++ body.

Lemma land_shiftr_wrap n k : 0 ≤ k ≤ 24 → Z.land (Z.shiftr (wrap 32 n) k) 0xFF = Z.land (Z.shiftr n k) 0xFF.
Proof.
  intros Hk. unfold wrap. change 0xFF with (Z.ones 8). apply Z.bits_inj'. intros i Hi.
  rewrite !Z.land_spec, !Z.shiftr_spec by lia. destruct (decide (i < 8)).
  - by rewrite Z.mod_pow2_bits_low by lia.
  - rewrite Z.ones_spec_high by lia. by rewrite !andb_false_r.
Qed.

Lemma nbt_hdr_wrap n : nbt_hdr (wrap 32 n) = nbt_hdr n.
Proof.
  unfold nbt_hdr. rewrite !land_shiftr_wrap by lia.
  pose proof (land_shiftr_wrap n 0) as E. rewrite !Z.shiftr_0_r in E. by rewrite E by lia.
Qed.

Lemma finish_nbt_app tx body :
  finish_nbt_with (len tx) (wrap 32 (len (tx ++ replicate 4 0 ++ body) - len tx - 4)) (tx ++ replicate 4 0 ++ body)
  = tx ++ nbt_hdr (len body) ++ body.
Proof.
  unfold finish_nbt_with. rewrite (patch_app tx (replicate 4 0)) by done.
  change [0; Z.land (Z.shiftr ?n 16) 0xFF; Z.land (Z.shiftr ?n 8) 0xFF; Z.land ?n 0xFF] with (nbt_hdr n).
  rewrite nbt_hdr_wrap. do 3 f_equal. rewrite !length_app, length_replicate. lia.
Qed.

Section frame.
Context `{Env} (srv : Srv).

Definition same_place (s s' : St) : Prop :=
  kept (pc_wid (st_pc s)) (pc_conn_idx (st_pc s)) (pc_conn_gen (st_pc s)) (length (w_mailboxes (st_w s))) []
    (pc_keyed (st_pc s)) s'.

(** What a computation that ran on [s] has done: it stayed in place and, if
    it returned [a], appended [out] with [Q a out]. *)
Definition appended {A} (s : St) (x : (A + stop) * St) (Q : A → bytes → Prop) : Prop :=
  same_place s x.2 ∧ ∀ a, x.1 = inl a → ∃ out, st_tx x.2 = st_tx s ++ out ∧ Q a out.

Definition answer (a : FrameAction) (out : bytes) : Prop :=
  match a with Respond | RespondClose => framed out | Close | ZcRead _ => out = [] end.

Lemma truncate_app s tx body : st_tx s = tx ++ body →
  truncate (len tx) s = (inl tt, st_set_tx tx s).
Proof. intros E. unfold truncate, put, modify. by rewrite E, Nat2Z.id, take_app_length. Qed.

Lemma finish_frame_app s tx body : st_tx s = tx ++ replicate 4 0 ++ body →
  finish_frame (len tx) s = (inl tt, st_set_tx (tx ++ nbt_hdr (len body) ++ body) s).
Proof. intros E. unfold finish_frame, put, modify. rewrite E. by rewrite finish_nbt_app. Qed.

(** From here on the buffer is the old one and a header yet to be filled. *)
Local Abbreviation open s0 :=
  (kept (pc_wid (st_pc s0)) (pc_conn_idx (st_pc s0)) (pc_conn_gen (st_pc s0)) (length (w_mailboxes (st_w s0)))
     (st_tx s0 ++ replicate 4 0) (pc_keyed (st_pc s0))).

Lemma open_place s0 s : open s0 s → same_place s0 s.
Proof. intros []. constructor; try done. apply prefix_nil. Qed.

Lemma appended_bind {A B} s0 s (m : M A) (k : A → M B) Qm Q :
  keeps (open s0) m Qm → open s0 s → (∀ a s', Qm a → open s0 s' → appended s0 (k a s') Q) →
  appended s0 ((m ≫= k) s) Q.
Proof.
  intros Hm Hs Hk. unfold mbind, ST_bind. specialize (Hm s Hs). destruct (m s) as [[a|e] s'].
  - destruct Hm. by apply Hk.
  - split; [by apply open_place|done].
Qed.

Lemma appended_place {A} s0 s s' (a : A) (Q : A → bytes → Prop) out :
  open s0 s → s' = st_set_tx (st_tx s0 ++ out) s → Q a out → appended s0 (inl a, s') Q.
Proof.
  intros Hs -> HQ. split; [|intros ? [= <-]; by exists out].
  destruct (open_place _ _ Hs). constructor; try done. apply prefix_nil.
Qed.

Lemma appended_truncate s0 s (k : M FrameAction) a :
  open s0 s → (∀ s', k s' = (inl a, s')) → answer a [] →
  appended s0 ((truncate (len (st_tx s0)) ;; k) s) answer.
Proof.
  intros Hs Hk Ha. pose proof (k_tx _ _ _ _ _ _ _ Hs) as [body E]. rewrite <- app_assoc in E.
  unfold mbind, ST_bind. rewrite (truncate_app _ _ _ E), Hk. eapply appended_place; [done| |done].
  by rewrite app_nil_r.
Qed.

Lemma appended_finish s0 s a :
  open s0 s → (∀ out, framed out → answer a out) →
  appended s0 ((finish_frame (len (st_tx s0)) ;; mret a) s) answer.
Proof.
  intros Hs Ha. pose proof (k_tx _ _ _ _ _ _ _ Hs) as [body E]. rewrite <- app_assoc in E.
  unfold mbind, ST_bind. rewrite (finish_frame_app _ _ _ E). eapply appended_place; [done..|].
  apply Ha. right. by eexists.
Qed.

Lemma smb1_appended s0 s frame sealed :
  open s0 s → appended s0 (process_smb1 srv frame (len (st_tx s0)) sealed s) answer.
Proof.
  intros Hs. unfold process_smb1.
  eapply appended_bind; [by apply (keeps_gets _ _ (λ _, True))|done|]. intros b s1 _ Hs1. destruct (_ || _); [by eapply appended_truncate|].
  destruct (smb1_negotiate_dialects frame) as [ds|]; [|by eapply appended_truncate].
  destruct (negb _).
  - eapply appended_bind; [apply k_put; apply appends_smb1_refuse|done|]. intros _ s2 _ Hs2. apply appended_finish; [done|by intros].
  - eapply appended_bind; [apply k_smb1_wildcard|done|]. intros _ s2 _ Hs2. apply appended_finish; [done|by intros].
Qed.

Lemma plain_appended s0 frame tsid : appended s0 (process_plain srv frame tsid s0) answer.
Proof.
  unfold process_plain, mbind at 1, ST_bind at 1, gets at 1. unfold mbind at 1, ST_bind at 1, put at 1, modify at 1.
  set (s := st_set_tx (zeros 4 (st_tx s0)) s0). assert (open s0 s) as Hs by (by constructor).
  clearbody s. destruct (_ && _); [by apply smb1_appended|].
  eapply appended_bind; [apply k_upd_chain|done|]. intros _ s1 _ Hs1.
  eapply appended_bind; [apply k_compound_loop; by split|done|]. intros l s2 [_ Hr] Hs2.
  eapply appended_bind; [by apply (keeps_gets _ _ (λ _, True))|done|]. intros closing s3 _ Hs3. destruct closing.
  { pose proof (k_tx _ _ _ _ _ _ _ Hs3) as [body E]. rewrite <- app_assoc in E.
    unfold mbind at 1, ST_bind at 1. rewrite (truncate_app _ _ _ E).
    destruct (ls_plan l) as [p|]; [|by apply (appended_place _ s3 _ _ _ []); rewrite ?app_nil_r].
    unfold mbind, ST_bind. unfold io, zoom, do. destruct (sys _ _ _) as [[] o]. simpl.
    split; [|intros ? [= <-]; exists []; by rewrite app_nil_r].
    destruct (open_place _ _ Hs3). constructor; try done; apply prefix_nil. }
  destruct (ls_plan l) as [p|]; [by eapply appended_truncate|].
  eapply (appended_bind _ _ _ _ (λ _, True)); [|done|].
  { destruct (bool_decide _); [by apply keeps_ret|by apply k_sign_responses]. }
  intros _ s4 _ Hs4. eapply appended_bind; [by apply (keeps_gets _ _ (λ _, True))|done|]. intros d s5 _ Hs5.
  eapply (appended_bind _ _ _ _ (λ _, True)); [|done|].
  { destruct (_ =? _); [apply k_hash_responses|by apply keeps_ret]. }
  intros _ s6 _ Hs6. eapply appended_bind; [by apply (keeps_gets _ _ (λ _, True))|done|]. intros n s7 _ Hs7.
  destruct (_ =? 0); [eapply appended_truncate; [done|done|by left]|apply appended_finish; [done|by intros]].
Qed.

Lemma wrap_appends plain e sid tx : tx `prefix_of` (wrap_transform plain e sid tx).2.
Proof.
  unfold wrap_transform. cbv zeta. destruct (aead_seal _ _ _ _ _) as [ct tag]. cbn [snd].
  unfold finish_nbt_with. apply prefix_patch; [lia|]. apply prefix_patch; [|appends_peel].
  unfold zeros, pbytes. rewrite !length_app. lia.
Qed.

Lemma wrap_framed `{!CryptoLaws} plain e sid tx :
  ∃ body, (wrap_transform plain e sid tx).2 = tx ++ nbt_hdr (len body) ++ body.
Proof.
  pose proof (wrap_transform_eq plain e sid tx) as E. cbv zeta in E.
  destruct (aead_seal _ _ _ _ _) as [ct tag] eqn:Es. rewrite E. cbn [snd].
  change [0; Z.land (Z.shiftr ?n 16) 0xFF; Z.land (Z.shiftr ?n 8) 0xFF; Z.land ?n 0xFF] with (nbt_hdr n).
  rewrite nbt_hdr_wrap. match goal with |- ∃ _, _ ++ nbt_hdr ?n ++ ?x = _ => exists x; replace n with (len x); [done|] end.
  assert (length (ct, tag).2 = 16%nat) as Ht by (rewrite <- Es; apply aead_tag_len).
  assert (length (ct, tag).1 = length plain) as Hc by (rewrite <- Es; apply aead_seal_len).
  simpl in Ht, Hc. rewrite !length_app, !length_le_bytes, Ht, Hc, length_replicate. simpl length. lia.
Qed.

Lemma place_refl s : same_place s s.
Proof. constructor; try done. apply prefix_nil. Qed.

Lemma seal_appended (Q : FrameAction → bytes → Prop) sid enc inner s :
  Q Respond [] → (∀ plain e tx, ∃ out, (wrap_transform plain e sid tx).2 = tx ++ out ∧ Q Respond out) →
  appended s (seal_reply sid enc inner s) Q.
Proof.
  intros H0 Hw. unfold seal_reply. destruct (_ <=? 4).
  { split; [apply place_refl|]. intros ? [= <-]. exists []. by rewrite app_nil_r. }
  unfold mbind, ST_bind, gets. pose proof (keyed_seal_reply enc (drop 4 inner) sid (st_tx s) (st_pc s)) as Hk.
  set (e := default enc _) in *. clearbody e. destruct (Hw (drop 4 inner) e (st_tx s)) as (out & E & HQ).
  destruct (wrap_transform _ _ _ _) as [e2 tx]. simpl in E, Hk. subst tx.
  split; [by constructor; try apply prefix_nil|]. intros ? [= <-]. by exists out.
Qed.

(** Composition: what ran first left the buffer alone. *)
Lemma appended_after {A} s0 s (x : (A + stop) * St) Q :
  same_place s0 s → st_tx s = st_tx s0 → appended s x Q → appended s0 x Q.
Proof.
  intros [] E [[] Hx]. split.
  - constructor; try congruence; auto.
  - intros a Ha. destruct (Hx a Ha) as (out & -> & HQ). exists out. by rewrite E.
Qed.

Lemma stop_appended {A} s (a : A) (Q : A → bytes → Prop) : Q a [] → appended s (inl a, s) Q.
Proof. intros. split; [apply place_refl|]. intros ? [= <-]. exists []. by rewrite app_nil_r. Qed.

Lemma frame_appended_with (Q : FrameAction → bytes → Prop) frame s :
  (∀ a out, answer a out → Q a out) →
  (∀ plain e sid tx, ∃ out, (wrap_transform plain e sid tx).2 = tx ++ out ∧ Q Respond out) →
  appended s (process_frame srv frame s) Q.
Proof.
  intros HQ Hw. assert (Q Respond []) as H0 by (apply HQ; by left).
  unfold process_frame. destruct (is_transform frame).
  2:{ destruct (plain_appended s frame None) as [Hp Ha]. split; [done|]. intros a E.
      destruct (Ha a E) as (out & ? & ?). exists out. auto. }
  destruct (_ <? _); [by apply stop_appended, HQ|]. cbv zeta. unfold mbind at 1, ST_bind at 1, gets at 1.
  destruct (pc_channels (st_pc s) !! _ ≫= ch_enc) as [enc|]; [|by apply stop_appended, HQ].
  destruct (decrypt_transform frame enc) as [plain|]; [|by apply stop_appended, HQ].
  unfold mbind at 1, ST_bind at 1, upd_pc at 1, modify at 1. set (s1 := st_set_pc _ s).
  apply (appended_after _ s1); [constructor; try done; [apply prefix_nil|apply keyed_encrypted]|done|]. clearbody s1. clear s.
  unfold mbind at 1, ST_bind at 1, with_buffer.
  destruct (plain_appended (st_set_tx [] s1) plain (Some (le_val (sub frame 44 52)))) as [Hp _].
  destruct (process_plain _ _ _ _) as [[a|e] s2]; simpl in Hp; [|split; [by destruct Hp; constructor; try apply prefix_nil|done]].
  apply (appended_after _ (st_set_tx (st_tx s1) s2)); [by destruct Hp; constructor; try apply prefix_nil|done|].
  destruct a; try (by apply stop_appended, HQ).
  - by apply seal_appended.
  - unfold mbind at 1, ST_bind at 1, io, zoom, do. destruct (sys _ _ _) as [[] o].
    eapply appended_after; [| |by apply seal_appended]; [|done]. constructor; try done. apply prefix_nil.
Qed.

Lemma frame_appended `{!CryptoLaws} frame s : appended s (process_frame srv frame s) answer.
Proof.
  apply frame_appended_with; [done|]. intros plain e sid tx. destruct (wrap_framed plain e sid tx) as [body E].
  eexists. split; [exact E|]. right. by eexists.
Qed.

(** The keys of a connection stay derived ones. *)
Lemma frame_keyed frame s : pc_keyed (st_pc s) → pc_keyed (st_pc (process_frame srv frame s).2).
Proof.
  assert (appended s (process_frame srv frame s) (λ _ _, True)) as [Hp _].
  { apply frame_appended_with; [done|]. intros plain e sid tx. destruct (wrap_appends plain e sid tx) as [out E].
    by exists out. }
  apply Hp.
Qed.

End frame.

Definition batch_state : @St mem_env :=
  st_set_tx [1; 2; 3] (@start mem_env sample_world (pc_new sample_srv 0 0 1)).

