(* ===== verification/Uring.v ===== *)
(** The reactor's data: completion tags, the state of a connection and of a
    worker, and the submission queue. Models the types of src/uring.rs and
    the functions on them that do not drive the protocol.

    A submission queue entry names a buffer of its connection by offset and
    length. For a send, the entry also records the bytes the buffer held when
    the entry was queued, so that "the kernel reads what was submitted" can be
    stated. *)
From S2P Require Import Prelude Wire Status Os Lease Vfs Crypto Session Config Smb2 State.
Local Open Scope Z_scope.

Definition OP_ACCEPT : Z := 1.
Definition OP_RECV : Z := 2.
Definition OP_SEND : Z := 3.
Definition OP_SPLICE_IN : Z := 4.
Definition OP_SPLICE_OUT : Z := 5.
Definition OP_INOTIFY : Z := 6.
Definition OP_CANCEL : Z := 7.
Definition OP_WAKE : Z := 8.

Definition IN_MODIFY : Z := 0x2.
Definition IN_ATTRIB : Z := 0x4.
Definition IN_CLOSE_WRITE : Z := 0x8.
Definition IN_MOVED_FROM : Z := 0x40.
Definition IN_MOVED_TO : Z := 0x80.
Definition IN_CREATE : Z := 0x100.
Definition IN_DELETE : Z := 0x200.
Definition IN_DELETE_SELF : Z := 0x400.
Definition IN_UNMOUNT : Z := 0x2000.
Definition IN_IGNORED : Z := 0x8000.
Definition IN_MASK : Z :=
  foldr Z.lor 0 [IN_CREATE; IN_DELETE; IN_MODIFY; IN_ATTRIB; IN_CLOSE_WRITE; IN_MOVED_FROM;
                 IN_MOVED_TO; IN_DELETE_SELF].

Definition RX_INITIAL : Z := 68 * 1024.
Definition RX_MIN_ROOM : Z := 16 * 1024.
Definition MAX_FRAME : Z := MAX_TRANSACT + 0x11000.
Definition PREAUTH_MAX_FRAME : Z := 128 * 1024.
Definition TX_FLUSH : Z := 2 ^ 20.
Definition ZC_SEND_MIN : Z := 64 * 1024.
Definition MAX_CONN_SLOTS : Z := 0xFFFFFF.
Definition MSG_MORE : Z := 0x8000.
Definition CQE_F_MORE : Z := 2.
Definition CQE_F_NOTIF : Z := 8.
Definition ENOBUFS : Z := 105.

(** ** Completion tags *)
Definition ud (op idx gen slot : Z) : Z :=
  Z.lor (Z.shiftl op 56)
    (Z.lor (Z.shiftl (Z.land idx 0xFFFFFF) 32) (Z.lor (Z.shiftl gen 16) slot)).

(** (op, connection slot, generation, read slot). *)
Definition ud_parts (v : Z) : Z * Z * Z * Z :=
  (wrap 8 (Z.shiftr v 56), Z.land (Z.shiftr v 32) 0xFFFFFF, wrap 16 (Z.shiftr v 16), Z.land v 0xFFFF).

(** ** Submission queue entries *)
Inductive Sqe :=
| SqAccept (multi : bool) (fd : Z)
| SqWake (wid : Z)                         (** read of the worker's eventfd *)
| SqCancel (target : Z)
| SqRecv (fd off n : Z)                    (** into [rx[off..off + n]] *)
| SqSend (fd off : Z) (data : bytes) (flags : Z) (zc : bool)   (** from [tx[off..]] *)
| SqNotif (off : Z) (data : bytes)         (** the buffer a send_zc still holds *)
| SqSpliceIn (fd offset pipe n : Z)        (** file to pipe *)
| SqSpliceOut (pipe fd n : Z)              (** pipe to socket *)
| SqInotify (fd n : Z).                    (** into [ibuf[..n]] *)

Record Entry := mkEntry { e_sqe : Sqe; e_link : bool; e_ud : Z }.

(** ** Connections *)
Inductive Tx := Idle | Send | Drain | ZcIn | ZcHdr | ZcOut.
#[global] Instance Tx_eq_dec : EqDecision Tx.
Proof. solve_decision. Defined.

Record Zc := mkZc {
  zc_plan : ZcReadPlan; zc_want : Z; zc_got : Z; zc_out_left : Z; zc_linked : bool;
  zc_chain : Z; zc_err : bool }.

Record Watch := mkWatch { wt_wd : Z; wt_pend : NotifyPend }.

(** The fields of [Conn], grouped by the side that works on them: receive
    ([rx], [rx_off], [rx_len], [recv_inflight]), transmit and notify. *)
Record RxSide := mkRx { rx_buf : bytes; rx_off : Z; rx_len : Z; rx_inflight : bool }.

Record TxSide := mkTx {
  tx_buf : bytes; tx_off : Z; tx_mode : Tx; tx_pending_zc : option ZcReadPlan; tx_zc : option Zc;
  tx_notif_pending : Z; tx_is_zc : bool; tx_copy_next : bool; tx_close_after : bool }.

Record InSide := mkIn {
  in_fd : option Z; in_buf : bytes; in_watches : list Watch; in_cancelled : bool }.

Record Conn := mkConn {
  co_fd : Z; co_gen : Z; co_proto : ProtoConn; co_rx : RxSide; co_tx : TxSide;
  co_pipe : option (Z * Z); co_pipe_cap : Z; co_in : InSide; co_deferred : list bytes;
  co_inflight : Z; co_closing : bool }.

Definition co_set_proto (p : ProtoConn) (c : Conn) : Conn :=
  mkConn (co_fd c) (co_gen c) p (co_rx c) (co_tx c) (co_pipe c) (co_pipe_cap c) (co_in c)
    (co_deferred c) (co_inflight c) (co_closing c).
Definition co_set_rx (r : RxSide) (c : Conn) : Conn :=
  mkConn (co_fd c) (co_gen c) (co_proto c) r (co_tx c) (co_pipe c) (co_pipe_cap c) (co_in c)
    (co_deferred c) (co_inflight c) (co_closing c).
Definition co_set_tx (t : TxSide) (c : Conn) : Conn :=
  mkConn (co_fd c) (co_gen c) (co_proto c) (co_rx c) t (co_pipe c) (co_pipe_cap c) (co_in c)
    (co_deferred c) (co_inflight c) (co_closing c).
Definition co_set_pipe (p : option (Z * Z)) (cap : Z) (c : Conn) : Conn :=
  mkConn (co_fd c) (co_gen c) (co_proto c) (co_rx c) (co_tx c) p cap (co_in c)
    (co_deferred c) (co_inflight c) (co_closing c).
Definition co_set_in (i : InSide) (c : Conn) : Conn :=
  mkConn (co_fd c) (co_gen c) (co_proto c) (co_rx c) (co_tx c) (co_pipe c) (co_pipe_cap c) i
    (co_deferred c) (co_inflight c) (co_closing c).
Definition co_set_deferred (d : list bytes) (c : Conn) : Conn :=
  mkConn (co_fd c) (co_gen c) (co_proto c) (co_rx c) (co_tx c) (co_pipe c) (co_pipe_cap c) (co_in c)
    d (co_inflight c) (co_closing c).
Definition co_set_inflight (n : Z) (c : Conn) : Conn :=
  mkConn (co_fd c) (co_gen c) (co_proto c) (co_rx c) (co_tx c) (co_pipe c) (co_pipe_cap c) (co_in c)
    (co_deferred c) n (co_closing c).
Definition co_set_closing (b : bool) (c : Conn) : Conn :=
  mkConn (co_fd c) (co_gen c) (co_proto c) (co_rx c) (co_tx c) (co_pipe c) (co_pipe_cap c) (co_in c)
    (co_deferred c) (co_inflight c) b.

Definition rx_set_inflight (b : bool) (r : RxSide) : RxSide :=
  mkRx (rx_buf r) (rx_off r) (rx_len r) b.

Definition tx_set_buf (b : bytes) (off : Z) (t : TxSide) : TxSide :=
  mkTx b off (tx_mode t) (tx_pending_zc t) (tx_zc t) (tx_notif_pending t) (tx_is_zc t)
    (tx_copy_next t) (tx_close_after t).
Definition tx_set_mode (m : Tx) (t : TxSide) : TxSide :=
  mkTx (tx_buf t) (tx_off t) m (tx_pending_zc t) (tx_zc t) (tx_notif_pending t) (tx_is_zc t)
    (tx_copy_next t) (tx_close_after t).
Definition tx_set_pending (p : option ZcReadPlan) (t : TxSide) : TxSide :=
  mkTx (tx_buf t) (tx_off t) (tx_mode t) p (tx_zc t) (tx_notif_pending t) (tx_is_zc t)
    (tx_copy_next t) (tx_close_after t).
Definition tx_set_zc (z : option Zc) (t : TxSide) : TxSide :=
  mkTx (tx_buf t) (tx_off t) (tx_mode t) (tx_pending_zc t) z (tx_notif_pending t) (tx_is_zc t)
    (tx_copy_next t) (tx_close_after t).
Definition tx_set_notif (n : Z) (t : TxSide) : TxSide :=
  mkTx (tx_buf t) (tx_off t) (tx_mode t) (tx_pending_zc t) (tx_zc t) n (tx_is_zc t)
    (tx_copy_next t) (tx_close_after t).
Definition tx_set_send (is_zc copy_next : bool) (t : TxSide) : TxSide :=
  mkTx (tx_buf t) (tx_off t) (tx_mode t) (tx_pending_zc t) (tx_zc t) (tx_notif_pending t) is_zc
    copy_next (tx_close_after t).
Definition tx_set_close_after (b : bool) (t : TxSide) : TxSide :=
  mkTx (tx_buf t) (tx_off t) (tx_mode t) (tx_pending_zc t) (tx_zc t) (tx_notif_pending t) (tx_is_zc t)
    (tx_copy_next t) b.

(** A connection just accepted. *)
Definition conn_new (fd gen : Z) (proto : ProtoConn) : Conn :=
  mkConn fd gen proto (mkRx (replicate (Z.to_nat RX_INITIAL) 0) 0 0 false)
    (mkTx [] 0 Idle None None 0 false false false) None 0 (mkIn None [] [] false) [] 0 false.

(** ** Workers *)
Record Worker := mkWorker {
  wk_wid : Z; wk_listen_fd : Z; wk_conns : list (option Conn); wk_gens : list Z;
  wk_free : list nat; wk_conn_seed : Z; wk_send_zc_ok : bool }.

Definition wk_set_conns (l : list (option Conn)) (w : Worker) : Worker :=
  mkWorker (wk_wid w) (wk_listen_fd w) l (wk_gens w) (wk_free w) (wk_conn_seed w) (wk_send_zc_ok w).
Definition wk_set_slots (gens : list Z) (free : list nat) (w : Worker) : Worker :=
  mkWorker (wk_wid w) (wk_listen_fd w) (wk_conns w) gens free (wk_conn_seed w) (wk_send_zc_ok w).
Definition wk_set_seed (n : Z) (w : Worker) : Worker :=
  mkWorker (wk_wid w) (wk_listen_fd w) (wk_conns w) (wk_gens w) (wk_free w) n (wk_send_zc_ok w).

(** The state of [run_worker] once its ring and listener exist. *)
Definition worker_new (wid listen_fd : Z) (send_zc_ok : bool) : Worker :=
  mkWorker wid listen_fd [] [] [] (Z.shiftl wid 20) send_zc_ok.

(** ** Frames in the receive buffer *)

(** Is any session established on the connection? *)
Definition any_established (p : ProtoConn) : bool :=
  existsb (λ x : Z * ChannelState, ch_established x.2) (map_to_list (pc_channels p)).

Definition frame_cap (p : ProtoConn) : Z :=
  if any_established p then MAX_FRAME else PREAUTH_MAX_FRAME.

(** The length an NBT header announces: a big-endian 24-bit number. *)
Definition nbt_size (b : bytes) : Z :=
  Z.lor (Z.lor (Z.shiftl (nth 1 b 0) 16) (Z.shiftl (nth 2 b 0) 8)) (nth 3 b 0).

(** The size of the frame at [rx_off], once its header is there; an error
    when the stream is not NBT session messages of an acceptable size. *)
Definition frame_total (c : Conn) : result (option Z) unit :=
  let r := co_rx c in
  if rx_len r - rx_off r <? 4 then Ok None
  else
    let b := sub (rx_buf r) (rx_off r) (rx_len r) in
    if negb (nth 0 b 0 =? 0) then Err tt
    else if frame_cap (co_proto c) <? nbt_size b then Err tt
    else Ok (Some (4 + nbt_size b)).

(** [rx.copy_within(rx_off..rx_len, 0)] and the indices with it. *)
Definition rx_compact (r : RxSide) : RxSide :=
  if 0 <? rx_off r
  then mkRx (sub (rx_buf r) (rx_off r) (rx_len r) ++ drop (Z.to_nat (rx_len r - rx_off r)) (rx_buf r))
         0 (rx_len r - rx_off r) (rx_inflight r)
  else r.

(** [Vec::resize(n, 0)]. *)
Definition resize (n : Z) (b : bytes) : bytes :=
  take (Z.to_nat n) (b ++ replicate (Z.to_nat (n - len b)) 0).

Definition rx_grow (total : option Z) (r : RxSide) : RxSide :=
  let needed := match total with
                | Some t => Z.max t (rx_len r + RX_MIN_ROOM)
                | None => rx_len r + RX_MIN_ROOM
                end in
  if len (rx_buf r) <? needed
  then mkRx (resize (Z.min needed (MAX_FRAME + 4 + RX_MIN_ROOM)) (rx_buf r)) (rx_off r) (rx_len r)
         (rx_inflight r)
  else r.

(** ** inotify events *)

(** The file action of an event mask. *)
Definition notify_action (mask : Z) : Z :=
  if has_bits mask IN_CREATE then 1
  else if has_bits mask IN_DELETE then 2
  else if has_bits mask IN_MOVED_FROM then 4
  else if has_bits mask IN_MOVED_TO then 5
  else 3.

Definition as_i32 (v : Z) : Z := if 2 ^ 31 <=? v then v - 2 ^ 32 else v.

(** One [inotify_event]: watch, mask, name. *)
Definition IEvent : Type := Z * Z * str.

Fixpoint parse_events (fuel : nat) (b : bytes) (n off : Z) : list IEvent :=
  match fuel with
  | O => []
  | S fuel =>
      if off + 16 <=? n then
        let name_len := le_val (sub b (off + 12) (off + 16)) in
        let name_bytes := sub b (off + 16) (Z.min (off + 16 + name_len) n) in
        (as_i32 (le_val (sub b off (off + 4))), le_val (sub b (off + 4) (off + 8)),
         from_utf8_lossy (default [] (head (split_on (λ x, x =? 0) name_bytes))))
          :: parse_events fuel b n (off + 16 + name_len)
      else []
  end.

(** The watched object itself is gone. *)
Definition ev_gone (e : IEvent) : bool :=
  has_bits e.1.2 (Z.lor IN_DELETE_SELF (Z.lor IN_IGNORED IN_UNMOUNT)).

(** The events of each watch descriptor, in order; an event without a name
    only makes its group exist. *)
Definition event_groups (es : list IEvent) : gmap Z (list (Z * str)) :=
  foldl (λ m e,
    if ev_gone e then m
    else let old := default [] (m !! e.1.1) in
         <[e.1.1 := if bool_decide (e.2 = []) then old else old ++ [(notify_action e.1.2, e.2)]]> m) ∅ es.
