(* ===== verification/Reactor.v ===== *)
(** The reactor: what a worker does with each completion. Models the
    functions of src/uring.rs that run the per-connection state machines.

    A worker runs on the shared [World], on its own slots, and appends to its
    submission queue. [r_frames] and [r_obs] are no part of the program:
    [r_frames] is the number of frames the run is still followed for, one less
    for each frame processed, and running out of it stops the run with [Spin];
    [r_obs] records which connections were opened, which bytes they were sent
    and which frames were processed for them. *)
From S2P Require Import Prelude Wire Status Os Lease Vfs Crypto Session Config Smb2 State.
From S2P Require Import Setup Dispatch WorldSafe Uring.
Local Open Scope Z_scope.

Section reactor.
Context `{Env} (srv : Srv).

Inductive Obs :=
| Opened (wid : Z) (slot : nat)
| Received (wid : Z) (slot : nat) (data : bytes)
| Processed (wid : Z) (slot : nat) (frame : bytes).

Record RSt := mkRSt { r_w : World; r_wk : Worker; r_sq : list Entry; r_frames : nat; r_obs : list Obs }.
Definition RM (A : Type) : Type := ST RSt A.

Definition r_set_w (w : World) (s : RSt) : RSt := mkRSt w (r_wk s) (r_sq s) (r_frames s) (r_obs s).
Definition r_set_wk (k : Worker) (s : RSt) : RSt := mkRSt (r_w s) k (r_sq s) (r_frames s) (r_obs s).

Definition observe (f : Z → Obs) : RM unit :=
  modify (λ s, mkRSt (r_w s) (r_wk s) (r_sq s) (r_frames s) (r_obs s ++ [f (wk_wid (r_wk s))])).

(** A system call of the worker. *)
Definition rio {A} (m : IO A) : RM A :=
  zoom (λ s, w_os (r_w s)) (λ o s, r_set_w (w_set_os o (r_w s)) s) m.
Definition upd_wk (f : Worker → Worker) : RM unit := modify (λ s, r_set_wk (f (r_wk s)) s).

(** Run protocol code on a connection's state, with [tx] to append to. *)
Definition proto_run {A} (p : ProtoConn) (tx : bytes) (m : M A) : RM (A * ProtoConn * bytes) := λ s,
  let '(r, s') := m (mkSt (r_w s) p (mkChain false 0 0 None true None) tx session_new) in
  (match r with inl a => inl (a, st_pc s', st_tx s') | inr e => inr e end, r_set_w (st_w s') s).

(** [w.conns[idx].as_mut().expect("live connection")]. *)
Definition conn_mut (idx : nat) : RM Conn :=
  k ← gets r_wk;
  match wk_conns k !! idx with Some (Some c) => mret c | _ => halt Panic end.

(** A change through the reference [conn_mut] returns. *)
Definition upd_conn (idx : nat) (f : Conn → Conn) : RM unit :=
  c ← conn_mut idx; upd_wk (λ k, wk_set_conns (<[idx := Some (f c)]> (wk_conns k)) k).
Definition upd_tx (idx : nat) (f : TxSide → TxSide) : RM unit :=
  upd_conn idx (λ c, co_set_tx (f (co_tx c)) c).
Definition upd_rx (idx : nat) (f : RxSide → RxSide) : RM unit :=
  upd_conn idx (λ c, co_set_rx (f (co_rx c)) c).

(** ** Submission

    The source submits what is queued when the ring is full, so a push always
    succeeds. *)
Definition sq_push (e : Entry) : RM unit :=
  modify (λ s, mkRSt (r_w s) (r_wk s) (r_sq s ++ [e]) (r_frames s) (r_obs s)).

Definition sq_push_conn (idx : nat) (e : Entry) : RM unit :=
  upd_conn idx (λ c, co_set_inflight (co_inflight c + 1) c) ;; sq_push e.

(** The tag of an operation of connection [c] in slot [idx]. *)
Definition conn_ud (op : Z) (idx : nat) (c : Conn) : Z := ud op (Z.of_nat idx) (co_gen c) 0.

Definition arm_accept : RM unit :=
  k ← gets r_wk;
  sq_push (mkEntry (SqAccept (wk_send_zc_ok k) (wk_listen_fd k)) false (ud OP_ACCEPT 0 0 0)).

(** [srv.mailboxes[w.wid]]. *)
Definition my_mailbox : RM Mailbox :=
  s ← gets id;
  match w_mailboxes (r_w s) !! Z.to_nat (wk_wid (r_wk s)) with Some mb => mret mb | None => halt Panic end.

(** The mailbox's eventfd exists. *)
Definition arm_wake : RM unit :=
  my_mailbox ;; k ← gets r_wk; sq_push (mkEntry (SqWake (wk_wid k)) false (ud OP_WAKE 0 0 0)).

(** ** Teardown *)

(** [Drop for Conn]: close what the connection owns. *)
Definition close_fd (fd : Z) : RM unit := rio (do (c_close fd)).

Definition drop_conn (c : Conn) : RM unit :=
  close_fd (co_fd c) ;;
  match co_pipe c with Some (r, w) => close_fd r ;; close_fd w | None => mret tt end ;;
  match in_fd (co_in c) with Some ifd => close_fd ifd | None => mret tt end ;;
  match tx_zc (co_tx c) with Some zc => close_fd (zp_fd (zc_plan zc)) | None => mret tt end ;;
  match tx_pending_zc (co_tx c) with Some p => close_fd (zp_fd p) | None => mret tt end.

Definition finalize_close (idx : nat) : RM unit :=
  k ← gets r_wk;
  match wk_conns k !! idx with
  | None => halt Panic
  | Some None => mret tt
  | Some (Some c) =>
      upd_wk (λ k, wk_set_conns (<[idx := None]> (wk_conns k)) k) ;;
      proto_run (co_proto c) [] teardown_conn ;;
      drop_conn c ;;
      match wk_gens k !! idx with
      | None => halt Panic
      | Some gen =>
          modify (λ s, r_set_w (w_set_leases
            (release_conn (wk_wid k) (Z.of_nat idx) gen (w_leases (r_w s))) (r_w s)) s) ;;
          upd_wk (λ k, wk_set_slots (<[idx := Z.max (wrap 16 (gen + 1)) 1]> (wk_gens k))
                         (idx :: wk_free k) k)
      end
  end.

Definition close_conn_ring (idx : nat) : RM unit :=
  k ← gets r_wk;
  match wk_conns k !! idx with
  | None => halt Panic
  | Some None => mret tt
  | Some (Some c) =>
      upd_conn idx (co_set_closing true) ;;
      (if bool_decide (is_Some (in_fd (co_in c))) && negb (in_cancelled (co_in c)) then
         upd_conn idx (λ c, co_set_in (mkIn (in_fd (co_in c)) (in_buf (co_in c)) (in_watches (co_in c)) true) c) ;;
         sq_push (mkEntry (SqCancel (conn_ud OP_INOTIFY idx c)) false (ud OP_CANCEL 0xFFFFFF 0 0))
       else mret tt) ;;
      if co_inflight c =? 0 then finalize_close idx
      else rio (do (c_shutdown (co_fd c)))
  end.

(** ** Receiving *)
Definition maybe_arm_recv (idx : nat) : RM unit :=
  c ← conn_mut idx;
  if rx_inflight (co_rx c) || co_closing c || tx_close_after (co_tx c) then mret tt
  else
    upd_rx idx rx_compact ;;
    c ← conn_mut idx;
    match frame_total c with
    | Err _ => close_conn_ring idx
    | Ok total =>
        upd_rx idx (rx_grow total) ;;
        c ← conn_mut idx;
        let r := co_rx c in
        let room := len (rx_buf r) - rx_len r in
        if room =? 0 then mret tt
        else
          upd_rx idx (rx_set_inflight true) ;;
          sq_push_conn idx (mkEntry (SqRecv (co_fd c) (rx_len r) room) false (conn_ud OP_RECV idx c))
    end.

(** ** Sending *)
Definition submit_send (idx : nat) (msg_flags : Z) : RM unit :=
  k ← gets r_wk;
  c ← conn_mut idx;
  let t := co_tx c in
  let buf := drop (Z.to_nat (tx_off t)) (tx_buf t) in
  let is_zc := wk_send_zc_ok k && negb (tx_copy_next t) && (msg_flags =? 0) && (ZC_SEND_MIN <=? len buf) in
  upd_tx idx (tx_set_send is_zc false) ;;
  sq_push_conn idx (mkEntry (SqSend (co_fd c) (tx_off t) buf (if is_zc then 0 else msg_flags) is_zc) false
                      (conn_ud OP_SEND idx c)).

Definition start_send (idx : nat) : RM unit := upd_tx idx (tx_set_mode Send) ;; submit_send idx 0.

(** ** Zero-copy reads *)

(** [c.zc.expect("zc in flight")], [c.pipe.expect("pipe created")]. *)
Definition expect {A} (o : option A) : RM A := match o with Some a => mret a | None => halt Panic end.

Definition submit_splice_in (idx : nat) : RM unit :=
  c ← conn_mut idx; zc ← expect (tx_zc (co_tx c)); '(_, pipe_w) ← expect (co_pipe c);
  sq_push_conn idx
    (mkEntry (SqSpliceIn (zp_fd (zc_plan zc)) (as_i64 (wrap 64 (zp_offset (zc_plan zc) + zc_got zc))) pipe_w
                (zc_want zc - zc_got zc)) false (conn_ud OP_SPLICE_IN idx c)).

Definition submit_splice_out (idx : nat) : RM unit :=
  c ← conn_mut idx; zc ← expect (tx_zc (co_tx c)); '(pipe_r, _) ← expect (co_pipe c);
  sq_push_conn idx (mkEntry (SqSpliceOut pipe_r (co_fd c) (zc_out_left zc)) false (conn_ud OP_SPLICE_OUT idx c)).

Definition submit_zc_linked (idx : nat) : RM unit :=
  c ← conn_mut idx; zc ← expect (tx_zc (co_tx c)); '(pipe_r, pipe_w) ← expect (co_pipe c);
  upd_conn idx (λ c, co_set_inflight (co_inflight c + 3) c) ;;
  sq_push (mkEntry (SqSpliceIn (zp_fd (zc_plan zc)) (as_i64 (zp_offset (zc_plan zc))) pipe_w (zc_want zc))
             true (conn_ud OP_SPLICE_IN idx c)) ;;
  sq_push (mkEntry (SqSend (co_fd c) 0 (tx_buf (co_tx c)) MSG_MORE false) true (conn_ud OP_SEND idx c)) ;;
  sq_push (mkEntry (SqSpliceOut pipe_r (co_fd c) (zc_want zc)) false (conn_ud OP_SPLICE_OUT idx c)).

(** Send [tx] as the whole of what is pending. *)
Definition send_now (idx : nat) (tx : bytes) : RM unit :=
  upd_tx idx (λ t, tx_set_mode Send (tx_set_buf tx 0 t)) ;; submit_send idx 0.

(** The connection's pipe, created on first use; [false] when that failed. *)
Definition ensure_pipe (idx : nat) (plan : ZcReadPlan) : RM bool :=
  c ← conn_mut idx;
  match co_pipe c with
  | Some _ => mret true
  | None =>
      p ← rio (do c_pipe2);
      match p with
      | Err _ =>
          close_fd (zp_fd plan) ;;
          send_now idx (build_read_err plan status.INSUFFICIENT_RESOURCES) ;; mret false
      | Ok (r, w) =>
          rio (do (c_setpipe_sz r (srv_max_read srv))) ;;
          got ← rio (do (c_getpipe_sz r));
          upd_conn idx (co_set_pipe (Some (r, w)) (if 0 <? got then got else 64 * 1024)) ;; mret true
      end
  end.

Definition start_zc (idx : nat) (plan : ZcReadPlan) : RM unit :=
  ok ← ensure_pipe idx plan;
  if negb ok then mret tt
  else
    c ← conn_mut idx;
    let want := Z.min (zp_length plan) (co_pipe_cap c) in
    if zp_linked plan && (zp_length plan <=? co_pipe_cap c) then
      upd_tx idx (λ t, tx_set_mode ZcOut (tx_set_zc
        (Some (mkZc plan want want (zp_length plan) true 3 false))
        (tx_set_buf (build_read_resp_prefix plan (zp_length plan)) 0 t))) ;;
      submit_zc_linked idx
    else
      upd_tx idx (λ t, tx_set_mode ZcIn (tx_set_zc (Some (mkZc plan want 0 0 false 0 false)) t)) ;;
      submit_splice_in idx.

(** ** CHANGE_NOTIFY *)
Definition arm_inotify (idx : nat) : RM unit :=
  c ← conn_mut idx;
  if co_closing c then mret tt
  else
    ifd ← expect (in_fd (co_in c));
    sq_push_conn idx (mkEntry (SqInotify ifd (len (in_buf (co_in c)))) false (conn_ud OP_INOTIFY idx c)).

(** Queue the final response of a pended request. *)
Definition push_final (idx : nat) (pend : NotifyPend) (st : Z) (events : list (Z * str)) : RM unit :=
  upd_conn idx (λ c,
    let '(resp, p) := build_notify_final (co_proto c) (np_meta pend) st events (np_out_len pend) in
    co_set_deferred (co_deferred c ++ [resp]) (co_set_proto p c)).

Definition complete_notify (idx : nat) (pend : NotifyPend) (st : Z) (events : list (Z * str)) : RM unit :=
  push_final idx pend st events ;;
  upd_conn idx (λ c,
    let p := co_proto c in
    co_set_proto (pc_set_notify (pc_next_async_id p) (pc_notify_new p) (pc_notify_done p)
      (filter (λ a : Z * Z, a.2 ≠ np_async_id pend) (pc_notify_active p)) p) c).

(** The inotify instance, created on first use. *)
Definition ensure_inotify (idx : nat) : RM (option Z) :=
  c ← conn_mut idx;
  match in_fd (co_in c) with
  | Some ifd => mret (Some ifd)
  | None =>
      ifd ← rio (do c_inotify_init);
      if ifd <? 0 then mret None
      else
        upd_conn idx (λ c, co_set_in (mkIn (Some ifd) (replicate 4096 0) (in_watches (co_in c))
                                        (in_cancelled (co_in c))) c) ;;
        arm_inotify idx ;; mret (Some ifd)
  end.

Definition set_watches (idx : nat) (f : list Watch → list Watch) : RM unit :=
  upd_conn idx (λ c, co_set_in (mkIn (in_fd (co_in c)) (in_buf (co_in c)) (f (in_watches (co_in c)))
                                  (in_cancelled (co_in c))) c).

Definition notify_add (idx : nat) (pend : NotifyPend) : RM unit :=
  ifd ← ensure_inotify idx;
  match ifd with
  | None => complete_notify idx pend status.INSUFFICIENT_RESOURCES []
  | Some ifd =>
      wd ← match cpath (np_path pend) with
           | Ok cp => rio (do (c_inotify_add_watch ifd cp IN_MASK))
           | Err _ => mret (-1)
           end;
      if wd <? 0 then complete_notify idx pend status.INSUFFICIENT_RESOURCES []
      else set_watches idx (λ l, l ++ [mkWatch wd pend])
  end.

Definition rm_watch (idx : nat) (wd : Z) : RM unit :=
  c ← conn_mut idx;
  match in_fd (co_in c) with Some ifd => rio (do (c_inotify_rm_watch ifd wd)) | None => mret tt end.

Definition notify_finish (idx : nat) (d : NotifyDone) : RM unit :=
  c ← conn_mut idx;
  match list_find (λ x, np_async_id (wt_pend x) = nd_async_id d) (in_watches (co_in c)) with
  | None => mret tt
  | Some (pos, watch) =>
      let rest := delete pos (in_watches (co_in c)) in
      set_watches idx (λ _, rest) ;;
      (if existsb (λ x, wt_wd x =? wt_wd watch) rest then mret tt else rm_watch idx (wt_wd watch)) ;;
      push_final idx (wt_pend watch) (nd_status d) []
  end.

Definition service_notify (idx : nat) : RM unit :=
  c ← conn_mut idx;
  let p := co_proto c in
  upd_conn idx (co_set_proto (pc_set_notify (pc_next_async_id p) [] [] (pc_notify_active p) p)) ;;
  for_each (pc_notify_new p) (notify_add idx) ;;
  for_each (pc_notify_done p) (notify_finish idx).

(** ** The frame loop *)

(** Move deferred responses into [tx] until the batch is full. *)
Fixpoint take_deferred (d : list bytes) (tx : bytes) : list bytes * bytes :=
  match d with
  | [] => ([], tx)
  | x :: d => let tx := tx ++ x in if TX_FLUSH <=? len tx then (d, tx) else take_deferred d tx
  end.

(** Process the frame of [total] bytes at the front of the receive buffer. *)
Definition next_frame (idx : nat) (total : Z) : RM FrameAction :=
  c ← conn_mut idx;
  let r := co_rx c in
  let frame := sub (rx_buf r) (rx_off r + 4) (rx_off r + total) in
  n ← gets r_frames;
  match n with
  | O => halt Spin
  | S n =>
      modify (λ s, mkRSt (r_w s) (r_wk s) (r_sq s) n (r_obs s ++ [Processed (wk_wid (r_wk s)) idx frame])) ;;
      '(action, p, tx) ← proto_run (co_proto c) (tx_buf (co_tx c)) (process_frame srv frame);
      upd_conn idx (λ c, co_set_rx (mkRx (rx_buf r) (rx_off r + total) (rx_len r) (rx_inflight r))
                           (co_set_tx (tx_set_buf tx (tx_off (co_tx c)) (co_tx c)) (co_set_proto p c))) ;;
      c ← conn_mut idx;
      (if bool_decide (pc_notify_new (co_proto c) ≠ []) || bool_decide (pc_notify_done (co_proto c) ≠ [])
       then service_notify idx else mret tt) ;;
      mret action
  end.

(** The end of [drive]: flush the batch and keep receiving. *)
Definition drive_flush (idx : nat) : RM unit :=
  c ← conn_mut idx;
  (if bool_decide (tx_buf (co_tx c) ≠ []) then start_send idx else mret tt) ;;
  maybe_arm_recv idx.

(** Every turn consumes a frame, so the fuel, the number of bytes received,
    lasts; running out of it is [Panic], so that a proof that nothing panics
    covers it. *)
Fixpoint drive_loop (fuel : nat) (idx : nat) : RM unit :=
  match fuel with
  | O => halt Panic
  | S fuel =>
      c ← conn_mut idx;
      let t := co_tx c in
      if TX_FLUSH <=? len (tx_buf t) - tx_off t then drive_flush idx
      else
        match frame_total c with
        | Err _ => close_conn_ring idx
        | Ok None => drive_flush idx
        | Ok (Some total) =>
            if rx_len (co_rx c) - rx_off (co_rx c) <? total then drive_flush idx
            else
              action ← next_frame idx total;
              match action with
              | Respond => drive_loop fuel idx
              | Close => close_conn_ring idx
              | RespondClose =>
                  upd_tx idx (tx_set_close_after true) ;;
                  c ← conn_mut idx;
                  if bool_decide (tx_buf (co_tx c) = []) then close_conn_ring idx else start_send idx
              | ZcRead plan =>
                  c ← conn_mut idx;
                  (if bool_decide (tx_buf (co_tx c) = []) then start_zc idx plan
                   else upd_tx idx (tx_set_pending (Some plan)) ;; start_send idx) ;;
                  maybe_arm_recv idx
              end
        end
  end.

Definition drive (idx : nat) : RM unit :=
  upd_conn idx (λ c,
    let '(d, tx) := take_deferred (co_deferred c) (tx_buf (co_tx c)) in
    co_set_deferred d (co_set_tx (tx_set_buf tx (tx_off (co_tx c)) (co_tx c)) c)) ;;
  c ← conn_mut idx;
  drive_loop (S (Z.to_nat (rx_len (co_rx c) - rx_off (co_rx c)))) idx.

(** ** Completions *)
Definition on_recv (idx : nat) (res : Z) : RM unit :=
  upd_rx idx (rx_set_inflight false) ;;
  if res =? - libc.EINTR then maybe_arm_recv idx
  else if res <=? 0 then close_conn_ring idx
  else
    upd_rx idx (λ r, mkRx (rx_buf r) (rx_off r) (rx_len r + res) (rx_inflight r)) ;;
    c ← conn_mut idx;
    if bool_decide (tx_mode (co_tx c) = Idle) then drive idx else maybe_arm_recv idx.

Definition finish_send (idx : nat) : RM unit :=
  c ← conn_mut idx;
  if tx_close_after (co_tx c) then close_conn_ring idx
  else
    upd_tx idx (tx_set_buf [] 0) ;;
    match tx_pending_zc (co_tx c) with
    | Some plan => upd_tx idx (tx_set_pending None) ;; start_zc idx plan
    | None => upd_tx idx (tx_set_mode Idle) ;; drive idx
    end.

Definition on_send_notif (idx : nat) : RM unit :=
  upd_tx idx (λ t, tx_set_notif (Z.max (tx_notif_pending t - 1) 0) t) ;;
  c ← conn_mut idx;
  if (tx_notif_pending (co_tx c) =? 0) && bool_decide (tx_mode (co_tx c) = Drain)
  then finish_send idx else mret tt.

(** The zero-copy read is over: release the plan's fd and go on. *)
Definition zc_done (idx : nat) (zc : Zc) : RM unit :=
  upd_tx idx (tx_set_zc None) ;;
  close_fd (zp_fd (zc_plan zc)) ;;
  upd_tx idx (λ t, tx_set_mode Idle (tx_set_buf [] 0 t)) ;;
  drive idx.

Definition is_linked (c : Conn) : bool :=
  match tx_zc (co_tx c) with Some z => zc_linked z | None => false end.

Definition on_linked_cqe (idx : nat) (op res : Z) : RM unit :=
  c ← conn_mut idx; zc ← expect (tx_zc (co_tx c));
  let zc := mkZc (zc_plan zc) (zc_want zc) (zc_got zc)
    (if (op =? OP_SPLICE_OUT) && (0 <? res) then Z.max (zc_out_left zc - res) 0 else zc_out_left zc)
    (zc_linked zc) (Z.max (zc_chain zc - 1) 0) (if res <? 0 then true else zc_err zc) in
  upd_tx idx (tx_set_zc (Some zc)) ;;
  if 0 <? zc_chain zc then mret tt
  else if zc_err zc then close_conn_ring idx
  else if 0 <? zc_out_left zc then
    upd_tx idx (λ t, tx_set_mode ZcOut (tx_set_zc (Some
      (mkZc (zc_plan zc) (zc_want zc) (zc_got zc) (zc_out_left zc) false (zc_chain zc) (zc_err zc))) t)) ;;
    submit_splice_out idx
  else zc_done idx zc.

Definition on_send (idx : nat) (res : Z) : RM unit :=
  c ← conn_mut idx;
  if is_linked c then on_linked_cqe idx OP_SEND res
  else if res =? - libc.EINTR
  then submit_send idx (if bool_decide (tx_mode (co_tx c) = ZcHdr) then MSG_MORE else 0)
  else if ((res =? - libc.ENOMEM) || (res =? - ENOBUFS)) && tx_is_zc (co_tx c) then
    upd_tx idx (λ t, tx_set_send (tx_is_zc t) true t) ;; submit_send idx 0
  else if res <=? 0 then close_conn_ring idx
  else
    upd_tx idx (λ t, tx_set_buf (tx_buf t) (tx_off t + res) t) ;;
    c ← conn_mut idx;
    let t := co_tx c in
    let done := len (tx_buf t) <=? tx_off t in
    match tx_mode t with
    | ZcHdr =>
        if done then upd_tx idx (tx_set_mode ZcOut) ;; submit_splice_out idx
        else submit_send idx MSG_MORE
    | _ =>
        if done then
          if 0 <? tx_notif_pending t then upd_tx idx (tx_set_mode Drain) else finish_send idx
        else submit_send idx 0
    end.

(** Empty the pipe of [left] bytes, at most 16 KiB at a time. *)
Fixpoint drain_pipe (fuel : nat) (pipe_r left : Z) : RM unit :=
  match fuel with
  | O => mret tt
  | S fuel =>
      if 0 <? left then
        n ← rio (do (c_read pipe_r (Z.min 16384 left)));
        if n <=? 0 then mret tt else drain_pipe fuel pipe_r (left - n)
      else mret tt
  end.

Definition zc_fail (idx : nat) (st : Z) : RM unit :=
  c ← conn_mut idx; zc ← expect (tx_zc (co_tx c));
  upd_tx idx (tx_set_zc None) ;;
  (if 0 <? zc_got zc then
     '(pipe_r, _) ← expect (co_pipe c); drain_pipe (Z.to_nat (zc_got zc)) pipe_r (zc_got zc)
   else mret tt) ;;
  close_fd (zp_fd (zc_plan zc)) ;;
  send_now idx (build_read_err (zc_plan zc) st).

Definition on_splice_in (idx : nat) (res : Z) : RM unit :=
  c ← conn_mut idx;
  if is_linked c then on_linked_cqe idx OP_SPLICE_IN res
  else if (res =? - libc.EINTR) || (res =? - libc.EAGAIN) then submit_splice_in idx
  else
    zc ← expect (tx_zc (co_tx c));
    if res <? 0 then zc_fail idx (from_errno (- res))
    else
      let got := zc_got zc + (if 0 <? res then res else 0) in
      let zc := mkZc (zc_plan zc) (zc_want zc) got (zc_out_left zc) (zc_linked zc) (zc_chain zc) (zc_err zc) in
      upd_tx idx (tx_set_zc (Some zc)) ;;
      if (0 <? res) && (got <? zc_want zc) then submit_splice_in idx
      else if (got =? 0) || (got <? zp_min_count (zc_plan zc)) then zc_fail idx status.END_OF_FILE
      else
        upd_tx idx (λ t, tx_set_mode ZcHdr (tx_set_buf (build_read_resp_prefix (zc_plan zc) got) 0
          (tx_set_zc (Some (mkZc (zc_plan zc) (zc_want zc) got got (zc_linked zc) (zc_chain zc) (zc_err zc))) t))) ;;
        submit_send idx MSG_MORE.

Definition on_splice_out (idx : nat) (res : Z) : RM unit :=
  c ← conn_mut idx;
  if is_linked c then on_linked_cqe idx OP_SPLICE_OUT res
  else if (res =? - libc.EINTR) || (res =? - libc.EAGAIN) then submit_splice_out idx
  else if res <=? 0 then close_conn_ring idx
  else
    zc ← expect (tx_zc (co_tx c));
    let left := zc_out_left zc - Z.min res (zc_out_left zc) in
    upd_tx idx (tx_set_zc (Some (mkZc (zc_plan zc) (zc_want zc) (zc_got zc) left (zc_linked zc)
                                   (zc_chain zc) (zc_err zc)))) ;;
    if 0 <? left then submit_splice_out idx else zc_done idx zc.

(** The watches on descriptor [wd] leave the list, in order, each with
    [events]. *)
Definition fire (idx : nat) (wd : Z) (events : list (Z * str)) (rm : bool)
    (fired : list (Watch * list (Z * str))) : RM (list (Watch * list (Z * str))) :=
  c ← conn_mut idx;
  let hit := filter (λ x, wt_wd x = wd) (in_watches (co_in c)) in
  set_watches idx (filter (λ x, wt_wd x ≠ wd)) ;;
  (if rm then rm_watch idx wd else mret tt) ;;
  mret (fired ++ ((λ x, (x, events)) <$> hit)).

Fixpoint fire_all (idx : nat) (rm : bool) (l : list (Z * list (Z * str)))
    (fired : list (Watch * list (Z * str))) : RM (list (Watch * list (Z * str))) :=
  match l with
  | [] => mret fired
  | (wd, events) :: l => fired ← fire idx wd events rm fired; fire_all idx rm l fired
  end.

(** A [HashMap] yields its groups in no particular order. *)
Definition on_inotify (idx : nat) (res : Z) : RM unit :=
  if (res =? - libc.EINTR) || (res =? - libc.EAGAIN) then arm_inotify idx
  else
    c ← conn_mut idx;
    if res <=? 0 then
      upd_conn idx (λ c, co_set_in (mkIn None (in_buf (co_in c)) (in_watches (co_in c))
                                      (in_cancelled (co_in c))) c) ;;
      match in_fd (co_in c) with Some fd => close_fd fd | None => mret tt end
    else
      let es := parse_events (Z.to_nat res) (in_buf (co_in c)) res 0 in
      fired ← fire_all idx true (map_to_list (event_groups es)) [];
      fired ← fire_all idx false ((λ e : IEvent, (e.1.1, [])) <$> filter (λ e, ev_gone e = true) es) fired;
      for_each fired (λ '(watch, events), complete_notify idx (wt_pend watch) status.SUCCESS events) ;;
      arm_inotify idx ;;
      c ← conn_mut idx;
      if bool_decide (tx_mode (co_tx c) = Idle) && bool_decide (co_deferred c ≠ []) then drive idx else mret tt.

(** ** Breaks from other workers *)
Definition deliver_break (b : BreakMsg) : RM unit :=
  k ← gets r_wk;
  if bm_conn_idx b <? 0 then mret tt
  else
    let idx := Z.to_nat (bm_conn_idx b) in
    match wk_conns k !! idx with
    | Some (Some c) =>
        if negb (co_gen c =? bm_conn_gen b) || co_closing c then mret tt
        else
          let sign := pc_channels (co_proto c) !! bm_session_id b ≫= ch_sign in
          let frame := build_lease_break (bm_lease_key b) (bm_cur_state b) (bm_new_state b)
                         (bm_epoch b) (bm_session_id b) sign in
          upd_conn idx (λ c, co_set_deferred (co_deferred c ++ [frame]) c) ;;
          if bool_decide (tx_mode (co_tx c) = Idle) then drive idx else mret tt
    | _ => mret tt
    end.

Definition on_wake : RM unit :=
  k ← gets r_wk;
  mb ← my_mailbox;
  let '(breaks, mb) := mailbox_drain mb in
  modify (λ s, r_set_w (w_set_mailboxes (<[Z.to_nat (wk_wid k) := mb]> (w_mailboxes (r_w s))) (r_w s)) s) ;;
  for_each breaks deliver_break ;;
  arm_wake.

(** ** Accepting *)
Definition on_accept (fd : Z) : RM unit :=
  k ← gets r_wk;
  if bool_decide (wk_free k = []) && (MAX_CONN_SLOTS <=? len (wk_conns k)) then close_fd fd
  else
    rio (do (c_nodelay fd)) ;;
    upd_wk (λ k, wk_set_seed (wrap 64 (wk_conn_seed k + 1)) k) ;;
    idx ← match wk_free k with
          | i :: free => upd_wk (λ k, wk_set_slots (wk_gens k) free k) ;; mret i
          | [] =>
              upd_wk (λ k, wk_set_conns (wk_conns k ++ [None]) (wk_set_slots (wk_gens k ++ [1]) (wk_free k) k)) ;;
              mret (length (wk_conns k))
          end;
    k ← gets r_wk;
    match wk_gens k !! idx with
    | None => halt Panic
    | Some gen =>
        if (idx <? length (wk_conns k))%nat then
          upd_wk (λ k, wk_set_conns (<[idx := Some (conn_new fd gen
            (pc_new srv (wk_wid k) (Z.of_nat idx) gen))]> (wk_conns k)) k) ;;
          observe (λ wid, Opened wid idx) ;;
          maybe_arm_recv idx
        else halt Panic
    end.

Definition on_conn_cqe (op : Z) (idx : nat) (res flags : Z) : RM unit :=
  if op =? OP_RECV then on_recv idx res
  else if op =? OP_SEND then if has_bits flags CQE_F_NOTIF then on_send_notif idx else on_send idx res
  else if op =? OP_SPLICE_IN then on_splice_in idx res
  else if op =? OP_SPLICE_OUT then on_splice_out idx res
  else if op =? OP_INOTIFY then on_inotify idx res
  else mret tt.

(** The accounting a connection's completion does before anything else. *)
Definition retire (op flags : Z) (c : Conn) : Conn :=
  let more := (op =? OP_SEND) && has_bits flags CQE_F_MORE in
  let c := if more then co_set_inflight (co_inflight c + 1)
                          (co_set_tx (tx_set_notif (tx_notif_pending (co_tx c) + 1) (co_tx c)) c)
           else c in
  co_set_inflight (Z.max (co_inflight c - 1) 0) c.

Definition handle_cqe (udata res flags : Z) : RM unit :=
  let '(op, i, gen, _) := ud_parts udata in
  if op =? OP_ACCEPT then
    (if has_bits flags CQE_F_MORE then mret tt else arm_accept) ;;
    if res <? 0 then mret tt else on_accept res
  else if op =? OP_WAKE then on_wake
  else if op =? OP_CANCEL then mret tt
  else
    let idx := Z.to_nat i in
    k ← gets r_wk;
    match wk_conns k !! idx with
    | Some (Some c) =>
        if negb (co_gen c =? gen) then mret tt
        else
          upd_conn idx (retire op flags) ;;
          c ← conn_mut idx;
          if co_closing c then if co_inflight c =? 0 then finalize_close idx else mret tt
          else on_conn_cqe op idx res flags
    | _ => mret tt
    end.

(** [run_worker] up to its loop. *)
Definition worker_start : RM unit := arm_accept ;; arm_wake.
End reactor.
