(* ===== verification/ReactorSafe.v ===== *)
(** Memory safety of the reactor.

    The kernel reads and writes the buffers that queued entries point into
    until it posts their completions. The invariant of this file says that
    every entry the kernel still holds belongs to a live connection, whose
    buffers are the ones the entry was queued with, and that the connection's
    own accounting ([inflight], [notif_pending], the transmit mode) agrees
    with what the kernel holds. Every completion keeps it, and none panics. *)
From S2P Require Import Prelude Hoare Wire Status Os Sample Lease Vfs Handles Crypto Session Config Smb2 State.
From S2P Require Import Setup Dispatch Keys Confine TreeSafe SessionSafe WorldSafe Appends Uring Reactor.
Local Open Scope Z_scope.

(** ** Completion tags *)
Lemma pack_hi a b n : 0 ≤ n → 0 ≤ b < 2 ^ n → Z.shiftr (Z.lor (Z.shiftl a n) b) n = a.
Proof.
  intros Hn Hb. rewrite Z.shiftr_lor, Z.shiftr_shiftl_l, Z.sub_diag, Z.shiftl_0_r by lia.
  rewrite Z.shiftr_div_pow2, (Z.div_small b) by lia. apply Z.lor_0_r.
Qed.

Lemma pack_lo a b n : 0 ≤ n → 0 ≤ b < 2 ^ n → Z.lor (Z.shiftl a n) b mod 2 ^ n = b.
Proof.
  intros Hn Hb. rewrite <- Z.land_ones, Z.land_lor_distr_l, !Z.land_ones by lia.
  rewrite Z.shiftl_mul_pow2, Z.mod_mul, (Z.mod_small b) by lia. apply Z.lor_0_l.
Qed.

Lemma pack_bound a b n m : 0 ≤ n → 0 ≤ m → 0 ≤ a < 2 ^ m → 0 ≤ b < 2 ^ n →
  0 ≤ Z.lor (Z.shiftl a n) b < 2 ^ (m + n).
Proof.
  intros Hn Hm Ha Hb. set (v := Z.lor _ _).
  assert (0 ≤ v) by (apply Z.lor_nonneg; split; [apply Z.shiftl_nonneg; lia|lia]).
  pose proof (pack_hi a b n Hn Hb) as E. rewrite Z.shiftr_div_pow2 in E by lia. fold v in E.
  pose proof (Z.div_mod v (2 ^ n)). rewrite E in *. pose proof (Z.mod_pos_bound v (2 ^ n)).
  rewrite Z.pow_add_r by lia. assert (0 < 2 ^ n) by lia. nia.
Qed.

Lemma ud_parts_ud op idx gen slot :
  0 ≤ op < 2 ^ 8 → 0 ≤ idx < 2 ^ 24 → 0 ≤ gen < 2 ^ 16 → 0 ≤ slot < 2 ^ 16 →
  ud_parts (ud op idx gen slot) = (op, idx, gen, slot).
Proof.
  intros Ho Hi Hg Hs. unfold ud, ud_parts, wrap. change 0xFFFFFF with (Z.ones 24). change 0xFFFF with (Z.ones 16).
  rewrite !Z.land_ones, (Z.mod_small idx) by lia.
  pose proof (pack_bound gen slot 16 16 ltac:(lia) ltac:(lia) Hg Hs) as H1.
  pose proof (pack_bound idx _ 32 24 ltac:(lia) ltac:(lia) Hi H1) as H2.
  set (lo := Z.lor (Z.shiftl gen 16) slot) in *. set (mid := Z.lor (Z.shiftl idx 32) lo) in *.
  assert (Z.shiftr (Z.lor (Z.shiftl op 56) mid) 32 = Z.lor (Z.shiftl op 24) idx) as E32.
  { rewrite Z.shiftr_lor, Z.shiftr_shiftl_l by lia. change (56 - 32) with 24. by unfold mid; rewrite pack_hi. }
  assert (Z.lor (Z.shiftl op 56) mid mod 2 ^ 32 = lo) as Elo.
  { assert (Z.shiftl op 56 = Z.shiftl (Z.shiftl op 24) 32) as -> by (by rewrite Z.shiftl_shiftl).
    unfold mid. rewrite Z.lor_assoc, <- Z.shiftl_lor. by apply pack_lo. }
  rewrite pack_hi by done. rewrite (Z.mod_small op) by lia. rewrite E32, pack_lo by lia.
  f_equal; [f_equal|].
  - rewrite Z.shiftr_div_pow2 by lia.
    assert (lo / 2 ^ 16 = gen) as Eg by (rewrite <- Z.shiftr_div_pow2 by lia; by apply pack_hi).
    rewrite <- Eg, <- Elo. change (2 ^ 32) with (2 ^ 16 * 2 ^ 16).
    rewrite Z.rem_mul_r, Z.mul_comm, Z.div_add by lia. by rewrite (Z.div_small (_ mod _)) by (apply Z.mod_pos_bound; lia).
  - rewrite <- (pack_lo gen slot 16) by lia. fold lo. rewrite <- Elo.
    change (2 ^ 32) with (2 ^ 16 * 2 ^ 16). by rewrite Z.rem_mul_r, Z.mul_comm, Z.mod_add, Z.mod_mod by lia.
Qed.

(** ** What the kernel holds *)
Definition op_of (q : Sqe) : Z :=
  match q with
  | SqAccept _ _ => OP_ACCEPT
  | SqWake _ => OP_WAKE
  | SqCancel _ => OP_CANCEL
  | SqRecv _ _ _ => OP_RECV
  | SqSend _ _ _ _ _ | SqNotif _ _ => OP_SEND
  | SqSpliceIn _ _ _ _ => OP_SPLICE_IN
  | SqSpliceOut _ _ _ => OP_SPLICE_OUT
  | SqInotify _ _ => OP_INOTIFY
  end.

(** Does the entry work for a connection? *)
Definition of_conn (q : Sqe) : bool :=
  match q with SqAccept _ _ | SqWake _ | SqCancel _ => false | _ => true end.

(** The slot of the connection an entry works for. *)
Definition slot_of (e : Entry) : option nat :=
  if of_conn (e_sqe e) then Some (Z.to_nat (ud_parts (e_ud e)).1.1.2) else None.

(** The tag names the operation. *)
Definition tagged (e : Entry) : Prop := (ud_parts (e_ud e)).1.1.1 = op_of (e_sqe e).

Definition is_recv (q : Sqe) : bool := match q with SqRecv _ _ _ => true | _ => false end.
Definition is_send (q : Sqe) : bool := match q with SqSend _ _ _ _ _ => true | _ => false end.
Definition is_notif (q : Sqe) : bool := match q with SqNotif _ _ => true | _ => false end.
Definition is_in (q : Sqe) : bool := match q with SqSpliceIn _ _ _ _ => true | _ => false end.
Definition is_out (q : Sqe) : bool := match q with SqSpliceOut _ _ _ => true | _ => false end.
Definition is_ino (q : Sqe) : bool := match q with SqInotify _ _ => true | _ => false end.

Definition cnt (p : Sqe → bool) (es : list Entry) : Z :=
  len (filter (λ e, p (e_sqe e) = true) es).

Lemma cnt_app p a b : cnt p (a ++ b) = cnt p a + cnt p b.
Proof. unfold cnt. rewrite filter_app, length_app. lia. Qed.
Lemma cnt_cons p e es : cnt p (e :: es) = (if p (e_sqe e) then 1 else 0) + cnt p es.
Proof. unfold cnt. rewrite filter_cons. destruct (p (e_sqe e)); simpl; lia. Qed.
Lemma cnt_nil p : cnt p [] = 0.
Proof. done. Qed.
Lemma cnt_nonneg p es : 0 ≤ cnt p es.
Proof. unfold cnt. lia. Qed.

(** The buffers and descriptors of connection [c] are the ones entry [q] was
    queued with. *)
Definition held (c : Conn) (q : Sqe) : Prop :=
  match q with
  | SqRecv fd off n =>
      fd = co_fd c ∧ off = rx_len (co_rx c) ∧ off + n = len (rx_buf (co_rx c)) ∧ 0 < n
  | SqSend fd off data _ zc =>
      fd = co_fd c ∧ 0 ≤ off ∧ off = tx_off (co_tx c) ∧ data = drop (Z.to_nat off) (tx_buf (co_tx c)) ∧
      (zc = true → tx_zc (co_tx c) = None)
  | SqNotif off data =>
      0 ≤ off ∧ data = drop (Z.to_nat off) (tx_buf (co_tx c)) ∧ tx_zc (co_tx c) = None
  | SqSpliceIn fd _ pipe _ =>
      ∃ zc r, tx_zc (co_tx c) = Some zc ∧ fd = zp_fd (zc_plan zc) ∧ co_pipe c = Some (r, pipe)
  | SqSpliceOut pipe fd _ =>
      fd = co_fd c ∧ is_Some (tx_zc (co_tx c)) ∧ ∃ w, co_pipe c = Some (pipe, w)
  | SqInotify fd n => in_fd (co_in c) = Some fd ∧ n = len (in_buf (co_in c))
  | _ => False
  end.

Definition RX_CAP : Z := MAX_FRAME + 4 + RX_MIN_ROOM.

Definition rx_ok (r : RxSide) : Prop :=
  0 ≤ rx_off r ≤ rx_len r ∧ rx_len r ≤ len (rx_buf r) ≤ RX_CAP ∧ Forall is_byte (rx_buf r).

Record core (idx : nat) (c : Conn) (es : list Entry) : Prop := {
  k_ud : Forall (λ e, e_ud e = conn_ud (op_of (e_sqe e)) idx c) es;
  k_held : Forall (λ e, held c (e_sqe e)) es;
  k_inflight : co_inflight c = len es;
  k_rx : rx_ok (co_rx c);
  k_txoff : 0 ≤ tx_off (co_tx c) ≤ len (tx_buf (co_tx c)) }.

(** The entries the transmit side has queued, by its mode. *)
Definition tx_cnt (es : list Entry) (s i o : Z) : Prop :=
  cnt is_send es = s ∧ cnt is_in es = i ∧ cnt is_out es = o.

Definition zc_side (c : Conn) : Prop :=
  is_Some (co_pipe c) ∧ tx_notif_pending (co_tx c) = 0 ∧ tx_pending_zc (co_tx c) = None ∧
  tx_close_after (co_tx c) = false.

Definition mode_ok (c : Conn) (es : list Entry) : Prop :=
  let t := co_tx c in
  match tx_mode t, tx_zc t with
  | Idle, None => tx_cnt es 0 0 0 ∧ tx_buf t = [] ∧ tx_off t = 0 ∧ tx_notif_pending t = 0 ∧
      tx_pending_zc t = None ∧ tx_close_after t = false
  | Send, None => tx_cnt es 1 0 0
  | Drain, None => tx_cnt es 0 0 0 ∧ 0 < tx_notif_pending t
  | ZcIn, Some z => tx_cnt es 0 1 0 ∧ zc_linked z = false ∧ zc_side c
  | ZcHdr, Some z => tx_cnt es 1 0 0 ∧ zc_linked z = false ∧ tx_is_zc t = false ∧ zc_side c
  | ZcOut, Some z => zc_side c ∧
      if zc_linked z then 1 ≤ zc_chain z ∧ cnt is_send es + cnt is_in es + cnt is_out es = zc_chain z
      else tx_cnt es 0 0 1
  | _, _ => False
  end.

(** The part of the invariant of an open connection that is independent of
    the transmit mode; [b]: the inotify read is armed, if there is an inotify
    instance. *)
Record common (b : bool) (c : Conn) (es : list Entry) : Prop := {
  o_recv : cnt is_recv es = if rx_inflight (co_rx c) then 1 else 0;
  o_notif : cnt is_notif es = tx_notif_pending (co_tx c);
  o_ino : cnt is_ino es = if b && bool_decide (is_Some (in_fd (co_in c))) then 1 else 0;
  o_some : b = false → is_Some (in_fd (co_in c)) }.

(** A connection with nothing to send has a receive queued. *)
Definition listening (c : Conn) : Prop := tx_mode (co_tx c) = Idle → rx_inflight (co_rx c) = true.

Definition conn_ok (idx : nat) (c : Conn) (es : list Entry) : Prop :=
  core idx c es ∧ if co_closing c then es ≠ [] else (common true c es ∧ mode_ok c es) ∧ listening c.

(** ** Changing a connection under its entries *)
Lemma cnt_zero p es e : cnt p es = 0 → e ∈ es → p (e_sqe e) = false.
Proof.
  unfold cnt. intros Hc He. destruct (p (e_sqe e)) eqn:E; [|done].
  assert (e ∈ filter (λ e, p (e_sqe e) = true) es) as Hf by (by apply list_elem_of_filter).
  destruct (filter _ es); [by apply elem_of_nil in Hf|simpl in Hc; lia].
Qed.

(** A change keeps what the entries of each kind depend on, unless there are
    none of the kind. *)
Lemma held_change c c' es :
  co_fd c' = co_fd c →
  (cnt is_recv es = 0 ∨ rx_len (co_rx c') = rx_len (co_rx c) ∧ len (rx_buf (co_rx c')) = len (rx_buf (co_rx c))) →
  (cnt is_send es = 0 ∨ tx_off (co_tx c') = tx_off (co_tx c) ∧ tx_buf (co_tx c') = tx_buf (co_tx c) ∧
     (tx_zc (co_tx c) = None → tx_zc (co_tx c') = None)) →
  (cnt is_notif es = 0 ∨ tx_buf (co_tx c') = tx_buf (co_tx c) ∧
     (tx_zc (co_tx c) = None → tx_zc (co_tx c') = None)) →
  (cnt is_in es = 0 ∨ co_pipe c' = co_pipe c ∧
     zc_plan <$> tx_zc (co_tx c') = zc_plan <$> tx_zc (co_tx c)) →
  (cnt is_out es = 0 ∨ co_pipe c' = co_pipe c ∧ (is_Some (tx_zc (co_tx c)) → is_Some (tx_zc (co_tx c')))) →
  (cnt is_ino es = 0 ∨ in_fd (co_in c') = in_fd (co_in c) ∧ len (in_buf (co_in c')) = len (in_buf (co_in c))) →
  Forall (λ e, held c (e_sqe e)) es → Forall (λ e, held c' (e_sqe e)) es.
Proof.
  intros Hfd Hr Hs Hn Hi Ho Hw Hf. rewrite Forall_forall in *. intros e He. specialize (Hf e He).
  assert (∀ p (Q : Prop), cnt p es = 0 ∨ Q → p (e_sqe e) = true → Q) as Hk.
  { intros p Q [Hz|]; [|done]. pose proof (cnt_zero p es e Hz He). congruence. }
  pose proof (Hk _ _ Hr) as Hr'. pose proof (Hk _ _ Hs) as Hs'. pose proof (Hk _ _ Hn) as Hn'.
  pose proof (Hk _ _ Hi) as Hi'. pose proof (Hk _ _ Ho) as Ho'. pose proof (Hk _ _ Hw) as Hw'.
  clear Hr Hs Hn Hi Ho Hw Hk. destruct (e_sqe e); simpl in *; try done.
  - specialize (Hr' eq_refl). destruct Hr' as [-> ->]. by rewrite Hfd.
  - destruct (Hs' eq_refl) as (-> & -> & ?). rewrite Hfd. naive_solver.
  - destruct (Hn' eq_refl) as (-> & ?). naive_solver.
  - destruct (Hi' eq_refl) as (-> & Ez). destruct Hf as (zc & r & Ezc & -> & Ep). rewrite Ezc in Ez.
    destruct (tx_zc (co_tx c')) as [z|]; simplify_eq/=. exists z, r. by split_and!; [|congruence|].
  - destruct (Ho' eq_refl) as (-> & Hz). rewrite Hfd. naive_solver.
  - destruct (Hw' eq_refl) as [-> ->]. done.
Qed.

(** ** The receive buffer *)
Lemma length_resize n b : 0 ≤ n → len (resize n b) = n.
Proof. intros. unfold resize. rewrite length_take, length_app, length_replicate. lia. Qed.

Lemma rx_ok_with r b off n :
  rx_ok r → Forall is_byte b → len (rx_buf r) ≤ len b ≤ RX_CAP → 0 ≤ off ≤ n → n ≤ len b →
  rx_ok (mkRx b off n (rx_inflight r)).
Proof. intros (Ho & Hl & Hb) ????. unfold rx_ok. cbn [rx_off rx_len rx_buf]. split; [lia|]. split; [lia|done]. Qed.

Lemma rx_compact_ok r : rx_ok r → rx_ok (rx_compact r).
Proof.
  intros Hr. pose proof Hr as (Ho & Hl & Hb). unfold rx_compact. destruct (0 <? rx_off r) eqn:E; [|done].
  assert (len (sub (rx_buf r) (rx_off r) (rx_len r) ++ drop (Z.to_nat (rx_len r - rx_off r)) (rx_buf r)) = len (rx_buf r))
    as El by (rewrite length_app, length_drop; unfold sub; rewrite length_take, length_drop; lia).
  apply rx_ok_with; [done| |rewrite El; lia|lia|rewrite El; lia].
  apply Forall_app. split; [by apply Forall_sub|by apply Forall_drop].
Qed.

Lemma rx_grow_ok total r : rx_ok r → rx_ok (rx_grow total r).
Proof.
  intros Hr. pose proof Hr as (Ho & Hl & Hb). unfold rx_grow. cbv zeta. destruct (_ <? _) eqn:E; [|done].
  fold RX_CAP. set (needed := match total with Some _ => _ | None => _ end) in *.
  assert (len (rx_buf r) < needed) as Hn by lia.
  assert (len (resize (needed `min` RX_CAP) (rx_buf r)) = needed `min` RX_CAP) as El by (apply length_resize; lia).
  apply rx_ok_with; [done| |rewrite El; lia|lia|rewrite El; lia].
  unfold resize. apply Forall_take, Forall_app. split; [done|]. apply Forall_replicate. unfold is_byte. lia.
Qed.

(** ** The worker's invariant *)
Section reactor.
Context `{Env} `{!OsLaws} `{!CryptoLaws} (srv : Srv) (Hsrv : srv_ok srv).

(** [armed] is what the kernel held before this completion's entries, and
    [nm] the number of workers. *)
Context (armed : list Entry) (nm : Z).

Definition ents (j : nat) (s : RSt) : list Entry :=
  filter (λ e, slot_of e = Some j) (armed ++ r_sq s).

Definition slot_ok (s : RSt) (j : nat) : Prop :=
  match wk_conns (r_wk s) !! j with
  | Some (Some c) => conn_ok j c (ents j s) ∧ wk_gens (r_wk s) !! j = Some (co_gen c)
  | _ => ents j s = []
  end.

Record worker_inv (x : option nat) (s : RSt) : Prop := {
  v_slots j : x ≠ Some j → slot_ok s j;
  v_len : length (wk_gens (r_wk s)) = length (wk_conns (r_wk s));
  v_max : len (wk_conns (r_wk s)) ≤ MAX_CONN_SLOTS;
  v_gens : Forall (λ g, 1 ≤ g < 2 ^ 16) (wk_gens (r_wk s));
  v_free : NoDup (wk_free (r_wk s)) ∧ ∀ j, j ∈ wk_free (r_wk s) → wk_conns (r_wk s) !! j = Some None;
  v_world : ∃ N, 0 ≤ N ∧ N + FRAME_CONNECTS * Z.of_nat (r_frames s) < 2 ^ 32 ∧
    map_Forall (λ (_ : Z) x, sess_ok (srv_cfg srv) N x) (w_sessions (r_w s));
  v_mail : 0 ≤ wk_wid (r_wk s) < nm ∧ len (w_mailboxes (r_w s)) = nm;
  v_tags : Forall tagged (armed ++ r_sq s) }.

(** Working on the connection in slot [j]: its state is [c] and the kernel
    holds [es] for it. *)
Record at_conn (j : nat) (c : Conn) (es : list Entry) (s : RSt) : Prop := {
  a_inv : worker_inv (Some j) s;
  a_conn : wk_conns (r_wk s) !! j = Some (Some c);
  a_gen : wk_gens (r_wk s) !! j = Some (co_gen c);
  a_ents : ents j s = es }.

Abbreviation any := (λ _ : RSt, True).
Abbreviation stable := (worker_inv None).

Lemma at_done j c es s : at_conn j c es s → conn_ok j c es → stable s.
Proof.
  intros [[Hs ? ? ? ? ? ?] Hc Hg He] Hok. constructor; try done. intros i _.
  destruct (decide (i = j)) as [->|]; [|apply Hs; congruence].
  unfold slot_ok. by rewrite Hc, He.
Qed.

Lemma stable_at j c s : stable s → wk_conns (r_wk s) !! j = Some (Some c) →
  at_conn j c (ents j s) s ∧ conn_ok j c (ents j s).
Proof.
  intros [Hs ? ? ? ? ? ?] Hc. pose proof (Hs j ltac:(done)) as Hj. unfold slot_ok in Hj. rewrite Hc in Hj.
  destruct Hj. split; [|done]. constructor; try done. constructor; try done. intros i _. by apply Hs.
Qed.

(** ** Rules for working on a connection *)
Lemma t_conn_mut {B} j c es (k : Conn → RM B) Q :
  triple (at_conn j c es) (k c) Q any → triple (at_conn j c es) (conn_mut j ≫= k) Q any.
Proof.
  intros Hk s Hs. unfold conn_mut, mbind, ST_bind, gets. rewrite (a_conn _ _ _ _ Hs). by apply Hk.
Qed.

Lemma ents_same j s s' : r_sq s' = r_sq s → ents j s' = ents j s.
Proof. intros E. unfold ents. by rewrite E. Qed.

Lemma t_upd_conn {B} j c es f (k : RM B) Q :
  co_gen (f c) = co_gen c →
  triple (at_conn j (f c) es) k Q any → triple (at_conn j c es) (upd_conn j f ;; k) Q any.
Proof.
  intros Hg Hk s Hs. unfold upd_conn, conn_mut, upd_wk, mbind, ST_bind, gets, modify.
  rewrite (a_conn _ _ _ _ Hs). simpl. apply Hk.
  destruct Hs as [[Hs Hlen Hmax Hgens [Hnd Hfree] Hw Hm] Hc Hgen He].
  pose proof (lookup_lt_Some _ _ _ Hc).
  constructor; simpl; [constructor; simpl; rewrite ?length_insert; try done| | |done].
  - intros i Hi. assert (i ≠ j) by congruence. specialize (Hs i Hi). unfold slot_ok in *. simpl.
    by rewrite list_lookup_insert_ne.
  - split; [done|]. intros i Hi. rewrite list_lookup_insert_ne; [by apply Hfree|].
    intros <-. by rewrite (Hfree _ Hi) in Hc.
  - by apply list_lookup_insert_eq.
  - by rewrite Hg.
Qed.

Lemma ents_push j e s : slot_of e = Some j →
  ents j (mkRSt (r_w s) (r_wk s) (r_sq s ++ [e]) (r_frames s) (r_obs s)) = ents j s ++ [e].
Proof. intros Hj. unfold ents. simpl. rewrite app_assoc, filter_app. f_equal. by rewrite filter_cons_True. Qed.
Lemma ents_push_other j e s : slot_of e ≠ Some j →
  ents j (mkRSt (r_w s) (r_wk s) (r_sq s ++ [e]) (r_frames s) (r_obs s)) = ents j s.
Proof. intros Hj. unfold ents. simpl. rewrite app_assoc, filter_app, filter_cons_False by done. apply app_nil_r. Qed.

Lemma tags_push e s :
  tagged e → Forall tagged (armed ++ r_sq s) → Forall tagged (armed ++ r_sq s ++ [e]).
Proof. intros. rewrite app_assoc. apply Forall_app. by split; [|constructor]. Qed.

Lemma t_push {B} j c es e (k : RM B) Q :
  slot_of e = Some j → tagged e →
  triple (at_conn j c (es ++ [e])) k Q any → triple (at_conn j c es) (sq_push e ;; k) Q any.
Proof.
  intros He Ht Hk s [[Hs ? ? ? ? ? ?] Hc Hg Hes]. unfold sq_push, mbind, ST_bind, modify. apply Hk.
  constructor; [constructor; try done| | |]; simpl; try done.
  - intros i Hi. specialize (Hs i Hi). unfold slot_ok in *. simpl.
    rewrite ents_push_other by congruence. done.
  - by apply tags_push.
  - by rewrite ents_push, Hes.
Qed.

Lemma worker_push_other e s x : slot_of e = None → tagged e →
  worker_inv x s → worker_inv x (mkRSt (r_w s) (r_wk s) (r_sq s ++ [e]) (r_frames s) (r_obs s)).
Proof.
  intros He Ht [Hs ? ? ? ? ? ?]. constructor; try done; [|by apply tags_push]. intros i Hi. specialize (Hs i Hi).
  unfold slot_ok in *. simpl. rewrite ents_push_other by congruence. done.
Qed.

Lemma t_push_other {B} j c es e (k : RM B) Q :
  slot_of e = None → tagged e →
  triple (at_conn j c es) k Q any → triple (at_conn j c es) (sq_push e ;; k) Q any.
Proof.
  intros He Ht Hk s [Hs Hc Hg Hes]. unfold sq_push, mbind, ST_bind, modify. apply Hk.
  constructor; try done; [by apply worker_push_other|]. rewrite ents_push_other by congruence. done.
Qed.

(** System calls touch none of it. *)
Lemma worker_os x s o : worker_inv x s → worker_inv x (r_set_w (w_set_os o (r_w s)) s).
Proof. intros []. by constructor. Qed.

Lemma t_rio {A B} j c es (q : call A) (k : A → RM B) Q :
  (∀ a, triple (at_conn j c es) (k a) Q any) → triple (at_conn j c es) (rio (do q) ≫= k) Q any.
Proof.
  intros Hk s [Hs Hc Hg Hes]. unfold rio, zoom, do, mbind, ST_bind. destruct (sys _ _ _) as [a o]. simpl.
  apply Hk. constructor; try done. by apply worker_os.
Qed.

(** The last step of a computation. *)
Lemma t_last (P : RSt → Prop) (m : RM unit) Q :
  triple P (m ;; mret tt) Q any → triple P m Q any.
Proof.
  intros Hm s Hs. specialize (Hm s Hs). unfold mbind, ST_bind, mret, ST_ret in Hm.
  destruct (m s) as [[[]|e] s']; done.
Qed.

(** ** The protocol layer *)

Lemma proto_start {A} (m : M A) d p tx s N :
  (∀ o0 l0, triple (world_inv srv o0 l0 N) m (λ _, world_inv srv o0 l0 (N + d)) (world_traced srv o0)) →
  (∀ s0, same_place s0 (m s0).2) →
  map_Forall (λ (_ : Z) x, sess_ok (srv_cfg srv) N x) (w_sessions (r_w s)) →
  let '(r, s') := proto_run p tx m s in
  ∃ w, s' = r_set_w w s ∧ length (w_mailboxes w) = length (w_mailboxes (r_w s)) ∧
  match r with
  | inl _ => map_Forall (λ (_ : Z) x, sess_ok (srv_cfg srv) (N + d) x) (w_sessions w)
  | inr e => e ≠ Panic
  end.
Proof.
  intros Hm Hp Hr. unfold proto_run.
  set (s0 := mkSt (r_w s) p (mkChain false 0 0 None true None) tx session_new).
  specialize (Hm (w_os (r_w s)) (pc_notify_new p) s0 ltac:(constructor; try done; by apply noted_same)). specialize (Hp s0).
  destruct (m s0) as [[a|e] s']; (exists (st_w s'); split; [done|]; split; [apply (k_mail _ _ _ _ _ _ _ Hp)|]).
  - apply Hm.
  - apply Hm.
Qed.

Lemma teardown_place s : same_place s (teardown_conn s).2.
Proof.
  pose proof (k_teardown (pc_wid (st_pc s)) (pc_conn_idx (st_pc s)) (pc_conn_gen (st_pc s))
    (length (w_mailboxes (st_w s))) [] (pc_keyed (st_pc s)) s) as Hk.
  destruct (teardown_conn s) as [[[]|e] s']; apply Hk; constructor; try done; apply prefix_nil.
Qed.

Lemma worker_world x w s N :
  worker_inv x s → length (w_mailboxes w) = length (w_mailboxes (r_w s)) →
  0 ≤ N → N + FRAME_CONNECTS * Z.of_nat (r_frames s) < 2 ^ 32 →
  map_Forall (λ (_ : Z) x, sess_ok (srv_cfg srv) N x) (w_sessions w) →
  worker_inv x (r_set_w w s).
Proof. intros [] E ???. constructor; try done; simpl; [by exists N|by rewrite E]. Qed.

(** One frame of the protocol layer, counted. *)
Lemma t_frame {B} j c es p tx frame (k : FrameAction * ProtoConn * bytes → RM B) Q :
  (∀ a p' out, answer a out → triple (at_conn j c es) (k (a, p', tx ++ out)) Q any) →
  triple (at_conn j c es)
    (n ← gets r_frames;
     match n with
     | O => halt Spin
     | S n => modify (λ s, mkRSt (r_w s) (r_wk s) (r_sq s) n (r_obs s ++ [Processed (wk_wid (r_wk s)) j frame])) ;;
        proto_run p tx (process_frame srv frame) ≫= k
     end) Q any.
Proof.
  intros Hk s Hs. unfold mbind at 1, ST_bind at 1, gets at 1. destruct (r_frames s) as [|n] eqn:En; [done|].
  unfold mbind at 1, ST_bind at 1, modify at 1. set (s1 := mkRSt (r_w s) (r_wk s) (r_sq s) n _).
  destruct Hs as [Hs Hc Hg He]. destruct (v_world _ _ Hs) as (N & HN & Hb & Hr). rewrite En in Hb.
  unfold FRAME_CONNECTS in Hb.
  assert (worker_inv (Some j) s1) as Hs1.
  { destruct Hs. constructor; try done. exists N. unfold FRAME_CONNECTS. simpl. split_and!; [lia..|done]. }
  pose proof (proto_start (process_frame srv frame) FRAME_CONNECTS p tx s1 N) as Hp.
  pose proof (frame_appended srv frame (mkSt (r_w s1) p (mkChain false 0 0 None true None) tx session_new)) as [_ Ha].
  unfold mbind, ST_bind. unfold proto_run in *. destruct (process_frame _ _ _) as [[a|e] s'].
  - destruct Hp as (w & [= Ew] & Hm & Hr'); [intros o0 l0; apply triple_process_frame; unfold FRAME_CONNECTS; try done; lia|
      intros s0; apply (frame_appended srv frame s0)|done|].
    destruct (Ha a eq_refl) as (out & E & Hans). cbn [fst snd st_tx] in E. rewrite E. apply Hk; [done|].
    constructor; try done. rewrite Ew. apply (worker_world _ _ _ (N + FRAME_CONNECTS)); try done;
      unfold FRAME_CONNECTS; simpl; lia.
  - destruct Hp as (w & _ & _ & He'); [intros o0 l0; apply triple_process_frame; unfold FRAME_CONNECTS; try done; lia|
      intros s0; apply (frame_appended srv frame s0)|done|]. done.
Qed.

(** ** Closing *)

(** Computations that only make system calls. *)
Definition os_only {A} (m : RM A) : Prop :=
  ∀ s, ∃ a o, m s = (inl a, r_set_w (w_set_os o (r_w s)) s).

Lemma os_only_ret {A} (a : A) : os_only (mret a).
Proof. intros [[] ? ? ? ?]. by exists a, w_os. Qed.
Lemma os_only_rio {A} (q : call A) : os_only (rio (do q)).
Proof. intros s. unfold rio, zoom, do. destruct (sys _ _ _) as [a o]. by eexists a, _. Qed.
Lemma os_only_bind {A B} (m : RM A) (k : A → RM B) : os_only m → (∀ a, os_only (k a)) → os_only (m ≫= k).
Proof.
  intros Hm Hk s. destruct (Hm s) as (a & o & E). unfold mbind, ST_bind. rewrite E.
  destruct (Hk a (r_set_w (w_set_os o (r_w s)) s)) as (b & o' & ->). by exists b, o'.
Qed.

Lemma os_only_drop_conn c : os_only (drop_conn c).
Proof. unfold drop_conn, close_fd. repeat (case_match || apply os_only_bind || apply os_only_rio || apply os_only_ret || intros ?). Qed.

Lemma os_only_drain_pipe fuel : ∀ fd n, os_only (drain_pipe fuel fd n).
Proof.
  induction fuel as [|fuel IH]; intros fd n; simpl; [apply os_only_ret|].
  repeat (case_match || apply os_only_bind || apply os_only_rio || apply os_only_ret || apply IH || intros ?).
Qed.

Lemma t_os_only {A B} j c es (m : RM A) (k : A → RM B) Q :
  os_only m → (∀ a, triple (at_conn j c es) (k a) Q any) → triple (at_conn j c es) (m ≫= k) Q any.
Proof.
  intros Hm Hk s [Hs Hc Hg Hes]. destruct (Hm s) as (a & o & E). unfold mbind, ST_bind. rewrite E.
  apply Hk. constructor; try done. by apply worker_os.
Qed.

Lemma teardown_triple N o0 l0 :
  triple (world_inv srv o0 l0 N) teardown_conn (λ _, world_inv srv o0 l0 (N + 0)) (world_traced srv o0).
Proof.
  rewrite Z.add_0_r. eapply triple_conseq; [apply w_teardown_conn|done|by intros ? ? []|]. intros s. apply world_inv_traced.
Qed.

Lemma t_finalize j c : triple (at_conn j c []) (finalize_close j) (λ _, stable) any.
Proof.
  intros s [Hs Hc Hg He]. unfold finalize_close. unfold mbind at 1, ST_bind at 1, gets at 1. rewrite Hc, Hg.
  unfold mbind at 1, ST_bind at 1, upd_wk at 1, modify at 1.
  set (s1 := r_set_wk _ s). pose proof (lookup_lt_Some _ _ _ Hc) as Hlt.
  destruct (v_world _ _ Hs) as (N & HN & Hb & Hr).
  pose proof (proto_start teardown_conn 0 (co_proto c) [] s1 N (teardown_triple N) teardown_place Hr) as Hp.
  unfold mbind at 1, ST_bind at 1. destruct (proto_run _ _ _ s1) as [[a|e] s2]; [|by destruct Hp as (?&?&?&?)].
  destruct Hp as (w & -> & Hm & Hr2). rewrite Z.add_0_r in Hr2.
  destruct (os_only_drop_conn c (r_set_w w s1)) as (b & o & E).
  unfold mbind, ST_bind. rewrite E. unfold modify, upd_wk. simpl.
  destruct Hs as [Hs Hlen Hmax Hgens [Hnd Hfree] _ Hwid].
  constructor; simpl; rewrite ?length_insert; try done.
  - intros i _. unfold slot_ok. simpl. destruct (decide (i = j)) as [->|Hij].
    + by rewrite list_lookup_insert_eq.
    + rewrite !list_lookup_insert_ne by done. apply Hs. congruence.
  - apply Forall_insert; [done|]. unfold wrap. pose proof (Z.mod_pos_bound (co_gen c + 1) (2 ^ 16)). lia.
  - split.
    + constructor; [|done]. intros Hj. by rewrite (Hfree _ Hj) in Hc.
    + intros i [->|Hi]%elem_of_cons; [by apply list_lookup_insert_eq|].
      destruct (decide (i = j)) as [->|]; [by apply list_lookup_insert_eq|].
      rewrite list_lookup_insert_ne by done. by apply Hfree.
  - by exists N.
  - by rewrite Hm.
Qed.

Lemma t_worker {B} j c es (k : Worker → RM B) Q :
  (∀ w, wk_conns w !! j = Some (Some c) → triple (at_conn j c es) (k w) Q any) →
  triple (at_conn j c es) (gets r_wk ≫= k) Q any.
Proof. intros Hk s Hs. unfold mbind, ST_bind, gets. apply Hk; [|done]. apply Hs. Qed.

(** A change that leaves everything the entries depend on. *)
Lemma core_same j c c' es :
  core j c es → co_gen c' = co_gen c → co_fd c' = co_fd c → co_rx c' = co_rx c →
  tx_off (co_tx c') = tx_off (co_tx c) → tx_buf (co_tx c') = tx_buf (co_tx c) →
  tx_zc (co_tx c') = tx_zc (co_tx c) →
  co_pipe c' = co_pipe c → in_fd (co_in c') = in_fd (co_in c) → in_buf (co_in c') = in_buf (co_in c) →
  co_inflight c' = co_inflight c → core j c' es.
Proof.
  intros [Hud] E1 E2 E3 E4 E4b E4c E5 E6 E7 E8. constructor; rewrite ?E3, ?E4, ?E4b, ?E8; try done.
  - eapply Forall_impl; [exact Hud|]. intros e He. simpl in *. rewrite He. unfold conn_ud. by rewrite E1.
  - eapply (held_change c); try done; rewrite ?E3, ?E4, ?E4b, ?E4c, ?E5, ?E6, ?E7; auto.
Qed.

Lemma t_close_ring j c es : core j c es → triple (at_conn j c es) (close_conn_ring j) (λ _, stable) any.
Proof.
  intros Hk. unfold close_conn_ring. apply t_worker. intros w ->. apply t_upd_conn; [done|].
  apply (triple_bind _ _ _ (λ _ s, ∃ c', at_conn j c' es s ∧ core j c' es ∧ co_closing c' = true)).
  - destruct (_ && _); [apply t_upd_conn; [done|]; apply t_last, t_push_other; [done..|]|];
      apply triple_ret; intros s Hs; eexists; (split; [done|split; [by eapply core_same|done]]).
  - intros _ s (c' & Hs & Hc' & Hcl). destruct (co_inflight c =? 0) eqn:E0.
    + assert (es = []) as ->; [|by eapply t_finalize]. destruct es; [done|]. pose proof (k_inflight _ _ _ Hk).
      simpl in *. lia.
    + revert s Hs. apply t_last, t_rio. intros _. apply triple_ret. intros s Hs. eapply at_done; [done|].
      split; [done|]. rewrite Hcl. intros ->. pose proof (k_inflight _ _ _ Hk). simpl in *. lia.
Qed.

(** ** Queueing for a connection *)
Lemma t_assoc {A B C} (P : RSt → Prop) (m : RM A) (f : A → RM B) (g : B → RM C) Q :
  triple P (m ≫= λ a, f a ≫= g) Q any → triple P ((m ≫= f) ≫= g) Q any.
Proof.
  intros Hm s Hs. specialize (Hm s Hs). unfold mbind, ST_bind in *. by destruct (m s) as [[a|e] s'].
Qed.

Lemma at_slot j c es s q l :
  at_conn j c es s → of_conn q = true →
  slot_of (mkEntry q l (conn_ud (op_of q) j c)) = Some j ∧ tagged (mkEntry q l (conn_ud (op_of q) j c)).
Proof.
  intros [Hs Hc Hg _] Hq. unfold slot_of, tagged. cbn [e_sqe e_ud]. rewrite Hq. unfold conn_ud.
  pose proof (lookup_lt_Some _ _ _ Hc). pose proof (v_max _ _ Hs). unfold MAX_CONN_SLOTS in *.
  pose proof (v_gens _ _ Hs) as Hgs. rewrite Forall_forall in Hgs.
  specialize (Hgs _ (list_elem_of_lookup_2 _ _ _ Hg)).
  rewrite ud_parts_ud; [simpl; by rewrite Nat2Z.id| |lia|lia|lia]. by destruct q.
Qed.

(** [e] joins the entries of [c]. *)
Definition queued (c : Conn) (n : Z) : Conn := co_set_inflight (co_inflight c + n) c.

Lemma t_push_entry {B} j c c0 es q l (k : RM B) Q :
  of_conn q = true → co_gen c0 = co_gen c →
  triple (at_conn j c (es ++ [mkEntry q l (conn_ud (op_of q) j c0)])) k Q any →
  triple (at_conn j c es) (sq_push (mkEntry q l (conn_ud (op_of q) j c0)) ;; k) Q any.
Proof.
  intros Hq Hg Hk s Hs. unfold conn_ud in *. rewrite Hg in *. destruct (at_slot _ _ _ _ q l Hs Hq). by eapply t_push.
Qed.

Lemma t_push_conn {B} j c es q l u (k : RM B) Q :
  of_conn q = true → u = conn_ud (op_of q) j c →
  triple (at_conn j (queued c 1) (es ++ [mkEntry q l (conn_ud (op_of q) j c)])) k Q any →
  triple (at_conn j c es) (sq_push_conn j (mkEntry q l u) ;; k) Q any.
Proof.
  intros Hq -> Hk. unfold sq_push_conn. apply t_assoc, t_upd_conn; [done|]. by apply t_push_entry.
Qed.

(** The invariant of the entries, after queueing one. *)
Lemma core_extend j c c' es new :
  core j c es → co_gen c' = co_gen c → co_inflight c' = co_inflight c + len new →
  Forall (λ e, e_ud e = conn_ud (op_of (e_sqe e)) j c' ∧ held c' (e_sqe e)) new → rx_ok (co_rx c') →
  0 ≤ tx_off (co_tx c') ≤ len (tx_buf (co_tx c')) →
  Forall (λ e, held c' (e_sqe e)) es → core j c' (es ++ new).
Proof.
  intros [Hud ? Hi ? ?] Eg Ei Hnew Hr Ht Hf. constructor; try done.
  - apply Forall_app. split; [|by eapply Forall_impl; [exact Hnew|intros e []]].
    eapply Forall_impl; [exact Hud|]. intros x Hx. simpl in *. rewrite Hx. unfold conn_ud. by rewrite Eg.
  - apply Forall_app. split; [done|by eapply Forall_impl; [exact Hnew|intros e []]].
  - rewrite Ei, Hi, length_app. lia.
Qed.

Lemma core_push j c c' es e :
  core j c es → co_gen c' = co_gen c → co_inflight c' = co_inflight c + 1 →
  e_ud e = conn_ud (op_of (e_sqe e)) j c' → held c' (e_sqe e) → rx_ok (co_rx c') →
  0 ≤ tx_off (co_tx c') ≤ len (tx_buf (co_tx c')) →
  Forall (λ e, held c' (e_sqe e)) es → core j c' (es ++ [e]).
Proof. intros. eapply core_extend; try done. by constructor. Qed.

Lemma t_expect {A B} (P : RSt → Prop) (o : option A) a (k : A → RM B) Q :
  o = Some a → triple P (k a) Q any → triple P (expect o ≫= k) Q any.
Proof. by intros ->. Qed.

(** ** Receiving *)
Definition open_ok (j : nat) (c : Conn) (es : list Entry) : Prop :=
  core j c es ∧ co_closing c = false ∧ common true c es ∧ mode_ok c es.

Lemma open_conn_ok j c es : open_ok j c es → listening c → conn_ok j c es.
Proof. intros (? & E & ? & ?) ?. split; [done|]. by rewrite E. Qed.

(** The bytes received and not consumed. *)
Definition pending (c : Conn) : Z := rx_len (co_rx c) - rx_off (co_rx c).

(** A connection with nothing to send has or can get a receive queued. *)
Definition can_listen (c : Conn) : Prop :=
  tx_mode (co_tx c) = Idle → rx_inflight (co_rx c) = true ∨ pending c < RX_CAP.

Lemma compact_room r : rx_ok r → rx_len (rx_compact r) = rx_len r - rx_off r.
Proof. intros (Ho & _). unfold rx_compact. destruct (0 <? rx_off r) eqn:E; simpl; lia. Qed.

Lemma grow_room total r : rx_ok r → rx_len r < RX_CAP → rx_len (rx_grow total r) < len (rx_buf (rx_grow total r)).
Proof.
  intros (Ho & Hl & _) Hr. unfold rx_grow. cbv zeta. fold RX_CAP.
  set (needed := match total with Some _ => _ | None => _ end).
  assert (rx_len r < needed) as Hn by (unfold needed, RX_MIN_ROOM; destruct total; lia).
  destruct (_ <? needed) eqn:E; simpl; [|lia]. rewrite length_resize; lia.
Qed.

(** Only the receive side changes, with no receive queued. *)
Lemma open_rx j c es r :
  open_ok j c es → rx_inflight (co_rx c) = false → rx_ok r → rx_inflight r = false →
  open_ok j (co_set_rx r c) es.
Proof.
  intros (Hk & Hcl & [Hr Hn Hw] & Hm) Hi Hok Hi'. rewrite Hi in Hr. split_and!; [|done|by constructor; simpl; rewrite ?Hi'|done].
  destruct Hk. constructor; try done. eapply (held_change c); try done; simpl; auto.
Qed.

Lemma t_maybe_arm_recv j c es :
  open_ok j c es → can_listen c → triple (at_conn j c es) (maybe_arm_recv j) (λ _, stable) any.
Proof.
  intros Hc Hcan. unfold maybe_arm_recv. apply t_conn_mut. destruct (_ || _) eqn:Eb.
  { apply triple_ret. intros s Hs. eapply at_done; [done|]. apply open_conn_ok; [done|]. intros Em.
    destruct Hc as (_ & Hcl & _ & Hm). unfold mode_ok in Hm. rewrite Em in Hm. rewrite Hcl in Eb.
    destruct (tx_zc (co_tx c)); [done|]. destruct Hm as (_ & _ & _ & _ & _ & Hca). rewrite Hca in Eb.
    by destruct (rx_inflight (co_rx c)). }
  apply orb_false_iff in Eb as [Eb _]. apply orb_false_iff in Eb as [Ei _].
  apply t_upd_conn; [done|]. set (c1 := co_set_rx (rx_compact (co_rx c)) c).
  assert (tx_mode (co_tx c1) = Idle → rx_len (co_rx c1) < RX_CAP) as Hroom.
  { intros Em. destruct (Hcan Em) as [?|Hp]; [congruence|]. simpl. rewrite compact_room by apply Hc. exact Hp. }
  assert (rx_inflight (rx_compact (co_rx c)) = false) as Ei1.
  { unfold rx_compact. by destruct (0 <? _). }
  assert (open_ok j c1 es) as Hc1.
  { apply open_rx; [done..|by apply rx_compact_ok, (k_rx j c es), Hc|done]. }
  change (rx_inflight (co_rx c1) = false) in Ei1. clearbody c1. clear c Hc Ei Hcan.
  apply t_conn_mut. destruct (frame_total c1) as [total|]; [|by apply t_close_ring, Hc1].
  apply t_upd_conn; [done|]. set (c2 := co_set_rx (rx_grow total (co_rx c1)) c1).
  assert (rx_inflight (rx_grow total (co_rx c1)) = false) as Ei2.
  { unfold rx_grow. cbv zeta. by destruct (_ <? _). }
  assert (open_ok j c2 es) as Hc2.
  { apply open_rx; [done..|by apply rx_grow_ok, (k_rx j c1 es), Hc1|done]. }
  assert (tx_mode (co_tx c2) = Idle → rx_len (co_rx c2) < len (rx_buf (co_rx c2))) as Hroom2.
  { intros Em. apply grow_room; [apply Hc1|by apply Hroom]. }
  change (rx_inflight (co_rx c2) = false) in Ei2. clearbody c2. clear c1 Hc1 Ei1 Hroom.
  apply t_conn_mut. cbv zeta. destruct (_ =? 0) eqn:E0.
  { apply triple_ret. intros s Hs. eapply at_done; [done|]. apply open_conn_ok; [done|].
    intros Em. specialize (Hroom2 Em). lia. }
  apply t_upd_conn; [done|]. apply t_last, t_push_conn; [done..|]. apply triple_ret. intros s Hs.
  eapply at_done; [exact Hs|]. apply open_conn_ok; [|done].
  destruct Hc2 as (Hk & Hcl & [Hr Hn Hw] & Hm). rewrite Ei2 in Hr.
  destruct (k_rx _ _ _ Hk) as (Ho & Hl & _). split_and!; [| done| |].
  - eapply core_push; [done..|simpl; lia|apply Hk|apply Hk|].
    eapply (held_change c2); try done; simpl; auto. apply Hk.
  - constructor; simpl; [..|done]; rewrite cnt_app, cnt_cons, cnt_nil; simpl; [lia|rewrite Hn; lia|rewrite Hw; simpl; lia].
  - unfold mode_ok, tx_cnt in *. simpl. rewrite !cnt_app, !cnt_cons, !cnt_nil. simpl. rewrite !Z.add_0_r. done.
Qed.

(** ** Sending *)
Definition open_at (j : nat) (s : RSt) : Prop := ∃ c es, at_conn j c es s ∧ open_ok j c es ∧ listening c.

Lemma open_stable j s : open_at j s → stable s.
Proof. intros (c & es & Hs & Hc & Hl). eapply at_done; [done|by apply open_conn_ok]. Qed.

Lemma t_stable (P : RSt → Prop) j (m : RM unit) :
  triple P m (λ _, open_at j) any → triple P m (λ _, stable) any.
Proof. intros Hm. eapply triple_conseq; [exact Hm|done| |done]. intros a s. apply open_stable. Qed.

(** The transmit side has nothing queued. *)
Record ready (j : nat) (c : Conn) (es : list Entry) : Prop := {
  y_core : core j c es;
  y_open : co_closing c = false;
  y_common : common true c es;
  y_tx : tx_cnt es 0 0 0 }.

Lemma common_push b c c' es e :
  common b c es → is_recv (e_sqe e) = false → is_notif (e_sqe e) = false → is_ino (e_sqe e) = false →
  rx_inflight (co_rx c') = rx_inflight (co_rx c) → tx_notif_pending (co_tx c') = tx_notif_pending (co_tx c) →
  in_fd (co_in c') = in_fd (co_in c) → common b c' (es ++ [e]).
Proof.
  intros [Hr Hn Hw Hi] E1 E2 E3 F1 F2 F3.
  constructor; rewrite ?F3; [..|done]; rewrite cnt_app, cnt_cons, cnt_nil, ?E1, ?E2, ?E3, ?F1, ?F2; lia.
Qed.

Lemma tx_cnt_push es e a b d s i o :
  tx_cnt es a b d → (if is_send (e_sqe e) then 1 else 0) + a = s →
  (if is_in (e_sqe e) then 1 else 0) + b = i → (if is_out (e_sqe e) then 1 else 0) + d = o → tx_cnt (es ++ [e]) s i o.
Proof. intros (?&?&?) ???. unfold tx_cnt. rewrite !cnt_app, !cnt_cons, !cnt_nil. lia. Qed.

(** Queueing a transmit entry when there is none. *)
Lemma ready_push j c es c' e s i o :
  ready j c es → co_gen c' = co_gen c → co_inflight c' = co_inflight c + 1 → co_fd c' = co_fd c →
  co_rx c' = co_rx c → co_in c' = co_in c → co_closing c' = false →
  tx_notif_pending (co_tx c') = tx_notif_pending (co_tx c) →
  (cnt is_notif es = 0 ∨ tx_buf (co_tx c') = tx_buf (co_tx c) ∧ (tx_zc (co_tx c) = None → tx_zc (co_tx c') = None)) →
  0 ≤ tx_off (co_tx c') ≤ len (tx_buf (co_tx c')) →
  e_ud e = conn_ud (op_of (e_sqe e)) j c' → held c' (e_sqe e) →
  is_recv (e_sqe e) = false → is_notif (e_sqe e) = false → is_ino (e_sqe e) = false →
  (if is_send (e_sqe e) then 1 else 0) = s → (if is_in (e_sqe e) then 1 else 0) = i →
  (if is_out (e_sqe e) then 1 else 0) = o →
  core j c' (es ++ [e]) ∧ common true c' (es ++ [e]) ∧ tx_cnt (es ++ [e]) s i o.
Proof.
  intros [Hk Ho Hc Ht] Eg Ei Ef Er Ein Ecl En Hn Hoff Hu Hh E1 E2 E3 E4 E5 E6. pose proof Ht as (Ht1 & Ht2 & Ht3).
  split_and!.
  - eapply core_push; try done; [rewrite Er; apply Hk|]. eapply (held_change c); try done; rewrite ?Er, ?Ein; auto.
    apply Hk.
  - eapply common_push; try done; congruence.
  - eapply tx_cnt_push; [done|lia..].
Qed.

Lemma t_submit_send j c es fl :
  ready j c es →
  (tx_mode (co_tx c) = Send ∧ tx_zc (co_tx c) = None ∨
   tx_mode (co_tx c) = ZcHdr ∧ fl ≠ 0 ∧ zc_side c ∧ ∃ z, tx_zc (co_tx c) = Some z ∧ zc_linked z = false) →
  triple (at_conn j c es) (submit_send j fl) (λ _, open_at j) any.
Proof.
  intros Hy Hm. unfold submit_send. apply t_worker. intros w _. apply t_conn_mut. cbv zeta.
  set (z := _ && (ZC_SEND_MIN <=? _)).
  assert (z = true → fl = 0) as Hz.
  { unfold z. rewrite !andb_true_iff, Z.eqb_eq. tauto. }
  clearbody z. apply t_upd_conn; [done|]. apply t_last, t_push_conn; [done..|]. apply triple_ret. intros s Hs.
  eexists _, _. split; [exact Hs|].
  destruct (ready_push j c es (queued (co_set_tx (tx_set_send z false (co_tx c)) c) 1)
    (mkEntry (SqSend (co_fd c) (tx_off (co_tx c)) (drop (Z.to_nat (tx_off (co_tx c))) (tx_buf (co_tx c)))
       (if z then 0 else fl) z) false (conn_ud OP_SEND j (co_set_tx (tx_set_send z false (co_tx c)) c))) 1 0 0)
    as (Hk1 & Hk2 & Hk3); try done; simpl; try apply Hy; auto.
  { split_and!; try done; [apply (k_txoff _ _ _ (y_core _ _ _ Hy))|]. intros ->. naive_solver. }
  split; [|intros Em; simpl in Em; naive_solver congruence].
  split_and!; try done; [apply Hy|]. unfold mode_ok. simpl.
  destruct Hm as [[-> ->]|(-> & Hfl & Hside & zc & -> & Hl)]; [done|]. split_and!; try done.
  destruct z; [|done]. naive_solver.
Qed.

(** With nothing queued, the transmit side may change; its buffer only if no
    zero-copy send still refers to it. *)
Lemma ready_tx j c es t :
  ready j c es → tx_notif_pending t = tx_notif_pending (co_tx c) →
  (tx_notif_pending t = 0 ∨ tx_buf t = tx_buf (co_tx c) ∧ (tx_zc (co_tx c) = None → tx_zc t = None)) →
  0 ≤ tx_off t ≤ len (tx_buf t) → ready j (co_set_tx t c) es.
Proof.
  intros [Hk Ho [Hr Hn Hw] (T1 & T2 & T3)] En Hb Hoff. constructor; [|done|by constructor; simpl; rewrite ?En|done].
  destruct Hk. constructor; try done. eapply (held_change c); try done; simpl; auto. rewrite Hn, <- En. tauto.
Qed.

Lemma ready_pipe j c es p n : ready j c es → ready j (co_set_pipe p n c) es.
Proof.
  intros [Hk Ho [] (T1 & T2 & T3)]. constructor; [|done|by constructor|done].
  destruct Hk. constructor; try done. eapply (held_change c); try done; simpl; auto.
Qed.

Lemma t_start_send j c es :
  ready j c es → tx_zc (co_tx c) = None → triple (at_conn j c es) (start_send j) (λ _, open_at j) any.
Proof.
  intros Hy Hz. unfold start_send. apply t_upd_conn; [done|]. apply t_submit_send; [|by left].
  apply ready_tx; try done; [by right|]. apply Hy.
Qed.

(** Nothing queued and no buffer referred to: a new response may start. *)
Record free_tx (j : nat) (c : Conn) (es : list Entry) : Prop := {
  x_ready : ready j c es;
  x_zc : tx_zc (co_tx c) = None;
  x_notif : tx_notif_pending (co_tx c) = 0;
  x_pending : tx_pending_zc (co_tx c) = None;
  x_close : tx_close_after (co_tx c) = false }.

Lemma t_send_now j c es tx :
  ready j c es → tx_zc (co_tx c) = None → tx_notif_pending (co_tx c) = 0 →
  triple (at_conn j c es) (send_now j tx) (λ _, open_at j) any.
Proof.
  intros Hy Hz Hn. unfold send_now. apply t_upd_conn; [done|]. apply t_submit_send; [|by left].
  apply ready_tx; try done; simpl; [by left|lia].
Qed.

Lemma t_submit_splice_in j c es z :
  ready j c es → tx_mode (co_tx c) = ZcIn → tx_zc (co_tx c) = Some z → zc_linked z = false → zc_side c →
  triple (at_conn j c es) (submit_splice_in j) (λ _, open_at j) any.
Proof.
  intros Hy Hm Hz Hl Hside. pose proof Hside as ([[r w] Hp] & _). unfold submit_splice_in. apply t_conn_mut.
  eapply t_expect; [exact Hz|]. eapply t_expect; [exact Hp|]. apply t_last, t_push_conn; [done..|]. apply triple_ret. intros s Hs. eexists _, _. split; [exact Hs|].
  destruct (ready_push j c es (queued c 1) (mkEntry (SqSpliceIn (zp_fd (zc_plan z))
    (as_i64 (wrap 64 (zp_offset (zc_plan z) + zc_got z))) w (zc_want z - zc_got z)) false (conn_ud OP_SPLICE_IN j c)) 0 1 0)
    as (Hk1 & Hk2 & Hk3); try done; simpl; try apply Hy; auto.
  { by exists z, r. }
  split; [|intros Em; simpl in Em; congruence].
  split_and!; try done; [apply Hy|]. unfold mode_ok. simpl. by rewrite Hm, Hz.
Qed.

Lemma t_submit_splice_out j c es z :
  ready j c es → tx_mode (co_tx c) = ZcOut → tx_zc (co_tx c) = Some z → zc_linked z = false → zc_side c →
  triple (at_conn j c es) (submit_splice_out j) (λ _, open_at j) any.
Proof.
  intros Hy Hm Hz Hl Hside. pose proof Hside as ([[r w] Hp] & _). unfold submit_splice_out. apply t_conn_mut.
  eapply t_expect; [exact Hz|]. eapply t_expect; [exact Hp|]. apply t_last, t_push_conn; [done..|]. apply triple_ret. intros s Hs. eexists _, _. split; [exact Hs|].
  destruct (ready_push j c es (queued c 1) (mkEntry (SqSpliceOut r (co_fd c) (zc_out_left z)) false
    (conn_ud OP_SPLICE_OUT j c)) 0 0 1) as (Hk1 & Hk2 & Hk3); try done; simpl; try apply Hy; auto.
  { split_and!; [done|by rewrite Hz|by exists w]. }
  split; [|intros Em; simpl in Em; congruence].
  split_and!; try done; [apply Hy|]. unfold mode_ok. simpl. by rewrite Hm, Hz, Hl.
Qed.

Lemma t_submit_zc_linked j c es z :
  ready j c es → tx_mode (co_tx c) = ZcOut → tx_zc (co_tx c) = Some z → zc_linked z = true → zc_chain z = 3 →
  tx_off (co_tx c) = 0 → zc_side c →
  triple (at_conn j c es) (submit_zc_linked j) (λ _, open_at j) any.
Proof.
  intros Hy Hm Hz Hl Hch Hoff Hside. pose proof Hside as ([[r w] Hp] & _). unfold submit_zc_linked. apply t_conn_mut.
  eapply t_expect; [exact Hz|]. eapply t_expect; [exact Hp|]. apply t_upd_conn; [done|].
  apply (t_push_entry _ _ _ _ (SqSpliceIn _ _ _ _)); [done..|].
  apply (t_push_entry _ _ _ _ (SqSend _ _ _ _ _)); [done..|]. apply t_last.
  apply (t_push_entry _ _ _ _ (SqSpliceOut _ _ _)); [done..|]. apply triple_ret. intros s Hs.
  eexists _, _. split; [exact Hs|]. rewrite <- !app_assoc. destruct Hy as [Hk Ho [Hr Hn Hw] (T1 & T2 & T3)].
  split; [|intros Em; simpl in Em; congruence]. split_and!.
  - eapply core_extend; [exact Hk|done|done| |apply Hk|apply Hk|].
    + constructor; [by split; [|exists z, r]|]. constructor; [split; [done|]; simpl; by rewrite Hoff|].
      constructor; [|done]. split; [done|]. simpl. split_and!; [done|by rewrite Hz|by exists w].
    + eapply (held_change c); try done; simpl; auto. apply Hk.
  - done.
  - constructor; [..|done]; rewrite !cnt_app, !cnt_cons, !cnt_nil; simpl; [rewrite Hr|rewrite Hn|rewrite Hw]; simpl; lia.
  - unfold mode_ok. simpl. rewrite Hm, Hz, Hl. split; [done|]. rewrite !cnt_app, !cnt_cons, !cnt_nil. simpl. lia.
Qed.

Lemma t_start_zc j c es plan :
  free_tx j c es → triple (at_conn j c es) (start_zc srv j plan) (λ _, open_at j) any.
Proof.
  intros Hx. unfold start_zc.
  apply (triple_bind _ _ _ (λ (ok : bool) s, if ok then ∃ c', at_conn j c' es s ∧ free_tx j c' es ∧ is_Some (co_pipe c')
                                    else open_at j s)).
  { unfold ensure_pipe. apply t_conn_mut. destruct (co_pipe c) eqn:Ep.
    { apply triple_ret. intros s Hs. exists c. by rewrite Ep. }
    apply t_rio. intros [[r w]|e].
    - apply t_rio. intros _. apply t_rio. intros got. apply t_upd_conn; [done|]. apply triple_ret. intros s Hs.
      eexists. split; [exact Hs|]. split; [|done]. destruct Hx. constructor; try done. by apply ready_pipe.
    - apply t_rio. intros _. destruct Hx. eapply triple_bind; [by apply t_send_now|]. intros a. by apply triple_ret. }
  intros ok. destruct ok; cbn [negb]; [|by apply triple_ret].
  intros s (c' & Hs & Hx' & Hp). revert s Hs. clear Hx c. destruct Hx' as [Hy Hz Hn Hpe Hcl].
  apply t_conn_mut. cbv zeta. destruct (_ && _) eqn:E.
  - apply t_upd_conn; [done|]. eapply t_submit_zc_linked; [|done..|by split_and!].
    apply ready_tx; try done; simpl; first [by left|lia].
  - apply t_upd_conn; [done|]. eapply t_submit_splice_in; [|done..|by split_and!].
    apply ready_tx; try done; simpl; first [by left|apply Hy].
Qed.

(** ** CHANGE_NOTIFY

    The notify side works next to any transmit mode [M]; [b] says whether the
    inotify read is armed. *)
Definition tx_local (M : Conn → list Entry → Prop) : Prop :=
  ∀ c es c' es', M c es → co_tx c' = co_tx c → co_pipe c' = co_pipe c → co_rx c' = co_rx c →
    cnt is_send es' = cnt is_send es → cnt is_in es' = cnt is_in es → cnt is_out es' = cnt is_out es → M c' es'.

Lemma mode_ok_local : tx_local mode_ok.
Proof.
  intros c es c' es' Hm Et Ep Er E1 E2 E3. unfold mode_ok, tx_cnt, zc_side in *. rewrite Et, Ep, E1, E2, E3. done.
Qed.

Definition noti (b : bool) (M : Conn → list Entry → Prop) (j : nat) (c : Conn) (es : list Entry) : Prop :=
  core j c es ∧ co_closing c = false ∧ common b c es ∧ M c es.
Definition noti_at (b : bool) (M : Conn → list Entry → Prop) (j : nat) (s : RSt) : Prop :=
  ∃ c es, at_conn j c es s ∧ noti b M j c es.

Section notify.
Context (M : Conn → list Entry → Prop) (HM : tx_local M) (j : nat).

Lemma n_at {A} b (m : RM A) Q :
  (∀ c es, noti b M j c es → triple (at_conn j c es) m Q any) → triple (noti_at b M j) m Q any.
Proof. intros Hm s (c & es & Hs & Hc). by apply (Hm c es). Qed.

Lemma n_from {A} b c es (m : RM A) Q :
  noti b M j c es → triple (noti_at b M j) m Q any → triple (at_conn j c es) m Q any.
Proof. intros Hc Hm s Hs. apply Hm. by exists c, es. Qed.

Lemma noti_same b c c' es :
  noti b M j c es → co_gen c' = co_gen c → co_fd c' = co_fd c → co_rx c' = co_rx c → co_tx c' = co_tx c →
  co_pipe c' = co_pipe c → in_fd (co_in c') = in_fd (co_in c) → in_buf (co_in c') = in_buf (co_in c) →
  co_inflight c' = co_inflight c → co_closing c' = co_closing c → noti b M j c' es.
Proof.
  intros (Hk & Hcl & [Hr Hn Hw] & Hm) E1 E2 E3 E4 E5 E6 E7 E8 E9. split_and!.
  - eapply core_same; try done; by rewrite E4.
  - by rewrite E9.
  - constructor; by rewrite ?E3, ?E4, ?E6.
  - by eapply HM.
Qed.

Lemma n_upd b f :
  (∀ c, co_gen (f c) = co_gen c ∧ co_fd (f c) = co_fd c ∧ co_rx (f c) = co_rx c ∧ co_tx (f c) = co_tx c ∧
     co_pipe (f c) = co_pipe c ∧ in_fd (co_in (f c)) = in_fd (co_in c) ∧ in_buf (co_in (f c)) = in_buf (co_in c) ∧
     co_inflight (f c) = co_inflight c ∧ co_closing (f c) = co_closing c) →
  triple (noti_at b M j) (upd_conn j f) (λ _, noti_at b M j) any.
Proof.
  intros Hf. apply n_at. intros c es Hc. destruct (Hf c) as (?&?&?&?&?&?&?&?&?).
  apply t_last, t_upd_conn; [done|]. apply triple_ret. intros s Hs. eexists _, _. split; [done|]. by eapply noti_same.
Qed.

Lemma n_push_final b pend st ev : triple (noti_at b M j) (push_final j pend st ev) (λ _, noti_at b M j) any.
Proof. apply n_upd. intros c. by destruct (build_notify_final _ _ _ _ _). Qed.

Lemma n_complete b pend st ev : triple (noti_at b M j) (complete_notify j pend st ev) (λ _, noti_at b M j) any.
Proof. eapply triple_bind; [apply n_push_final|]. intros a. by apply n_upd. Qed.

Lemma n_set_watches b f : triple (noti_at b M j) (set_watches j f) (λ _, noti_at b M j) any.
Proof. by apply n_upd. Qed.

Lemma n_rio {A} b (q : call A) : triple (noti_at b M j) (rio (do q)) (λ _, noti_at b M j) any.
Proof.
  apply n_at. intros c es Hc s Hs. destruct (os_only_rio q s) as (a & o & ->). exists c, es. split; [|done].
  destruct Hs. constructor; try done. by apply worker_os.
Qed.

Lemma n_rm_watch b wd : triple (noti_at b M j) (rm_watch j wd) (λ _, noti_at b M j) any.
Proof.
  apply n_at. intros c es Hc. apply t_conn_mut. destruct (in_fd (co_in c)).
  - eapply n_from; [exact Hc|]. apply n_rio.
  - apply triple_ret. intros s Hs. by exists c, es.
Qed.

Lemma n_finish b d : triple (noti_at b M j) (notify_finish j d) (λ _, noti_at b M j) any.
Proof.
  apply n_at. intros c es Hc. apply t_conn_mut. destruct (list_find _ _) as [[pos watch]|];
    [|apply triple_ret; intros s Hs; by exists c, es].
  eapply n_from; [exact Hc|].
  eapply triple_bind; [apply n_set_watches|]. intros ?.
  eapply (triple_bind _ _ _ (λ _, noti_at b M j)).
  - destruct (existsb _ _); [by apply triple_ret|apply n_rm_watch].
  - intros ?. apply n_push_final.
Qed.

(** Arming the inotify read. *)
Lemma n_arm c es ifd :
  noti false M j c es → in_fd (co_in c) = Some ifd →
  triple (at_conn j c es) (arm_inotify j) (λ _, noti_at true M j) any.
Proof.
  intros (Hk & Hcl & [Hr Hn Hw] & Hm) Hi. unfold arm_inotify. apply t_conn_mut. rewrite Hcl.
  eapply t_expect; [exact Hi|]. apply t_last, t_push_conn; [done..|]. apply triple_ret. intros s Hs.
  eexists _, _. split; [exact Hs|]. simpl in Hw. split_and!.
  - eapply core_push; [done..|apply Hk|apply Hk|]. eapply (held_change c); try done; simpl; auto. apply Hk.
  - done.
  - constructor; [..|done]; rewrite cnt_app, cnt_cons, cnt_nil; simpl; [rewrite Hr; lia|rewrite Hn; lia|].
    rewrite Hi, Hw. done.
  - eapply HM; [exact Hm|done..| | |]; rewrite cnt_app, cnt_cons, cnt_nil; simpl; lia.
Qed.

Lemma n_ensure : triple (noti_at true M j) (ensure_inotify j) (λ _, noti_at true M j) any.
Proof.
  apply n_at. intros c es Hc. unfold ensure_inotify. apply t_conn_mut. destruct (in_fd (co_in c)) eqn:Hi.
  { apply triple_ret. intros s Hs. by exists c, es. }
  apply t_rio. intros ifd. destruct (_ <? 0). { apply triple_ret. intros s Hs. by exists c, es. }
  apply t_upd_conn; [done|]. eapply (triple_bind _ _ _ (λ _, noti_at true M j)); [|intros a; by apply triple_ret].
  eapply n_arm; [|done]. destruct Hc as (Hk & Hcl & [Hr Hn Hw] & Hm). rewrite Hi in Hw. simpl in Hw. split_and!; try done.
  - destruct Hk. constructor; try done. eapply (held_change c); try done; simpl; auto.
  - by eapply HM.
Qed.

Lemma n_add pend : triple (noti_at true M j) (notify_add j pend) (λ _, noti_at true M j) any.
Proof.
  eapply triple_bind; [apply n_ensure|]. intros [ifd|]; [|apply n_complete].
  eapply (triple_bind _ _ _ (λ _, noti_at true M j)).
  - destruct (cpath _); [apply n_rio|by apply triple_ret].
  - intros wd. destruct (_ <? 0); [apply n_complete|apply n_set_watches].
Qed.

Lemma n_for_each {A} b (l : list A) body :
  (∀ x, triple (noti_at b M j) (body x) (λ _, noti_at b M j) any) →
  triple (noti_at b M j) (for_each l body) (λ _, noti_at b M j) any.
Proof. intros Hb. apply (triple_for_each (λ _, noti_at b M j)). intros x _. apply Hb. Qed.

Lemma n_service : triple (noti_at true M j) (service_notify j) (λ _, noti_at true M j) any.
Proof.
  apply n_at. intros c es Hc. unfold service_notify. apply t_conn_mut. cbv zeta. apply t_upd_conn; [done|].
  eapply n_from; [by eapply noti_same|].
  eapply triple_bind; [apply n_for_each, n_add|]. intros ?. apply n_for_each. intros d. apply n_finish.
Qed.

Lemma n_fire_all b rm l : ∀ fired,
  triple (noti_at b M j) (fire_all j rm l fired) (λ _, noti_at b M j) any.
Proof.
  induction l as [|[wd ev] l IH]; intros fired; simpl; [by apply triple_ret|].
  eapply triple_bind; [|intros; apply IH]. unfold fire. apply n_at. intros c es Hc. apply t_conn_mut. cbv zeta.
  eapply n_from; [exact Hc|].
  eapply triple_bind; [apply n_set_watches|]. intros ?.
  eapply (triple_bind _ _ _ (λ _, noti_at b M j)); [|intros ?; by apply triple_ret].
  destruct rm; [apply n_rm_watch|by apply triple_ret].
Qed.
End notify.

(** ** The frame loop *)
Definition idle_mode (c : Conn) (es : list Entry) : Prop :=
  tx_mode (co_tx c) = Idle ∧ tx_zc (co_tx c) = None ∧ tx_off (co_tx c) = 0 ∧ tx_notif_pending (co_tx c) = 0 ∧
  tx_pending_zc (co_tx c) = None ∧ tx_close_after (co_tx c) = false ∧ tx_cnt es 0 0 0.

Lemma idle_local : tx_local idle_mode.
Proof. intros c es c' es' Hm Et Ep Er E1 E2 E3. unfold idle_mode, tx_cnt in *. by rewrite Et, E1, E2, E3. Qed.

Abbreviation idle := (noti true idle_mode).

Lemma idle_free j c es : idle j c es → free_tx j c es.
Proof. intros (Hk & Hcl & Hc & (?&?&?&?&?&?&?)). by constructor; [constructor|..]. Qed.

Lemma idle_open j c es : idle j c es → tx_buf (co_tx c) = [] → open_ok j c es.
Proof. intros (Hk & Hcl & Hc & (E&Ez&?&?&?&?&?)) Hb. split_and!; try done. unfold mode_ok. by rewrite E, Ez. Qed.

Lemma t_then_recv j (m : RM unit) c es :
  triple (at_conn j c es) m (λ _, open_at j) any →
  triple (at_conn j c es) (m ;; maybe_arm_recv j) (λ _, stable) any.
Proof.
  intros Hm. eapply triple_bind; [exact Hm|]. intros _ s (c' & es' & Hs & Hc & Hl).
  eapply t_maybe_arm_recv; [exact Hc| |exact Hs]. intros Em. left. by apply Hl.
Qed.

(** The batch is sent, or there is room for the rest of a frame. *)
Lemma t_drive_flush j c es :
  idle j c es → tx_buf (co_tx c) ≠ [] ∨ pending c < RX_CAP →
  triple (at_conn j c es) (drive_flush j) (λ _, stable) any.
Proof.
  intros Hc Hp. unfold drive_flush. apply t_conn_mut. case_bool_decide as Hb.
  - apply t_then_recv. destruct (idle_free _ _ _ Hc). by apply t_start_send.
  - change (mret tt ;; maybe_arm_recv j) with (maybe_arm_recv j : RM unit).
    apply t_maybe_arm_recv; [|intros _; right; by destruct Hp]. apply idle_open; [done|].
    by destruct (decide (tx_buf (co_tx c) = [])).
Qed.

Lemma nbt_size_nonneg b : Forall is_byte b → 0 ≤ nbt_size b.
Proof.
  intros Hb. assert (∀ i, 0 ≤ nth i b 0) as Hn.
  { intros i. destruct (nth_in_or_default i b 0) as [Hi| ->]; [|done].
    rewrite Forall_forall in Hb. apply list_elem_of_In, Hb in Hi. unfold is_byte in Hi. lia. }
  unfold nbt_size. rewrite !Z.lor_nonneg, !Z.shiftl_nonneg. auto.
Qed.

Lemma frame_total_bound j c es total :
  core j c es → frame_total c = Ok (Some total) → 4 ≤ total.
Proof.
  intros Hk. destruct (k_rx _ _ _ Hk) as (_ & _ & Hb). unfold frame_total. cbv zeta.
  destruct (_ <? 4); [done|]. destruct (negb _); [done|]. destruct (_ <? nbt_size _); [done|].
  intros [= <-].
  pose proof (nbt_size_nonneg _ (Forall_sub is_byte _ (rx_off (co_rx c)) (rx_len (co_rx c)) Hb)) as Hn. lia.
Qed.

Definition idle_upto (n : Z) (c : Conn) (es : list Entry) : Prop := idle_mode c es ∧ pending c ≤ n.

Lemma idle_upto_local n : tx_local (idle_upto n).
Proof.
  intros c es c' es' [Hm Hn] Et Ep Er E1 E2 E3. split; [by eapply idle_local|]. unfold pending in *. by rewrite Er.
Qed.

Lemma t_next_frame j c es total :
  idle j c es → 0 ≤ total ≤ pending c →
  triple (at_conn j c es) (next_frame srv j total) (λ _, noti_at true (idle_upto (pending c - total)) j) any.
Proof.
  intros Hc Ht. unfold pending in *. unfold next_frame. apply t_conn_mut. cbv zeta. apply t_frame. intros a p out _.
  apply t_upd_conn; [done|].
  eapply (n_from (idle_upto (pending c - total)) j true).
  { destruct Hc as (Hk & Hcl & [Hr Hn Hw] & (E1 & E2 & E3 & E4 & E5 & E6 & (T1 & T2 & T3))).
    split_and!; [|done|by constructor|split; [by split_and!|unfold pending; simpl; lia]].
    destruct (k_rx _ _ _ Hk) as (Ho & Hl & Hb). destruct Hk. constructor; try done.
    - eapply (held_change c); try done; simpl; auto. left. by rewrite Hn.
    - simpl. unfold rx_ok. simpl. split_and!; try done; lia.
    - simpl. rewrite E3, length_app. lia. }
  apply n_at. intros c' es' Hc'. apply t_conn_mut. eapply n_from; [exact Hc'|].
  eapply (triple_bind _ _ _ (λ _, noti_at true (idle_upto (pending c - total)) j)); [|intros ?; by apply triple_ret].
  destruct (_ || _); [apply n_service, idle_upto_local|by apply triple_ret].
Qed.

(** What is left of an incomplete frame fits. *)
Lemma frame_total_cap c total : frame_total c = Ok (Some total) → total < RX_CAP.
Proof.
  unfold frame_total. cbv zeta. destruct (_ <? 4); [done|]. destruct (negb _); [done|].
  destruct (_ <? nbt_size _) eqn:E; [done|]. intros [= <-]. unfold frame_cap in E. unfold RX_CAP, RX_MIN_ROOM.
  assert (PREAUTH_MAX_FRAME ≤ MAX_FRAME) by (vm_compute; congruence). destruct (any_established _); lia.
Qed.

Lemma no_frame_room c : frame_total c = Ok None → pending c < RX_CAP.
Proof.
  unfold frame_total. cbv zeta. fold (pending c). destruct (pending c <? 4) eqn:E.
  - intros _. assert (4 < RX_CAP) by (vm_compute; congruence). lia.
  - destruct (negb _); [done|]. by destruct (_ <? nbt_size _).
Qed.

(** Each turn consumes a frame, so the fuel lasts. *)
Lemma t_drive_loop j fuel : ∀ c es,
  idle j c es → pending c < Z.of_nat fuel → triple (at_conn j c es) (drive_loop srv fuel j) (λ _, stable) any.
Proof.
  induction fuel as [|fuel IH]; intros c es Hc Hfuel; simpl.
  { destruct (k_rx _ _ _ (proj1 Hc)) as (? & _). unfold pending in Hfuel. lia. }
  apply t_conn_mut. destruct (TX_FLUSH <=? _) eqn:Etx.
  { apply t_drive_flush; [done|left]. intros E. rewrite E in Etx. destruct Hc as (Hk & _).
    pose proof (k_txoff _ _ _ Hk). assert (0 < TX_FLUSH) by (vm_compute; congruence). apply Z.leb_le in Etx. simpl in Etx. lia. }
  destruct (frame_total c) as [[total|]|] eqn:Ef; [|apply t_drive_flush; [done|right; by apply no_frame_room]|by apply t_close_ring, Hc].
  destruct (_ <? total) eqn:El.
  { apply t_drive_flush; [done|right]. pose proof (frame_total_cap _ _ Ef). unfold pending. lia. }
  pose proof (frame_total_bound _ _ _ _ (proj1 Hc) Ef). fold (pending c) in El.
  eapply triple_bind; [apply t_next_frame; [done|lia]|]. intros a. apply n_at.
  intros c' es' (Hk & Hcl & Hco & [Him Hp]). assert (idle j c' es') as Hc' by done.
  pose proof (idle_free _ _ _ Hc') as Hx. destruct a as [|plan| |].
  - apply IH; [done|lia].
  - apply t_conn_mut, t_then_recv. case_bool_decide; [by apply t_start_zc|]. apply t_upd_conn; [done|].
    apply t_start_send; [|apply Hx]. apply ready_tx; [apply Hx|done|by right|simpl; apply Hx].
  - apply t_upd_conn; [done|]. apply t_conn_mut. case_bool_decide.
    + apply t_close_ring. eapply core_same; [apply Hc'|done..].
    + eapply t_stable, t_start_send; [|apply Hx]. apply ready_tx; [apply Hx|done|by right|simpl; apply Hx].
  - apply t_close_ring, Hc'.
Qed.

Lemma t_drive j c es : idle j c es → triple (at_conn j c es) (drive srv j) (λ _, stable) any.
Proof.
  intros Hc. unfold drive. apply t_upd_conn; [by destruct (take_deferred _ _)|]. apply t_conn_mut, t_drive_loop.
  - destruct (take_deferred _ _) as [d tx]. destruct Hc as (Hk & Hcl & [Hr Hn Hw] & (E1&E2&E3&E4&E5&E6&(T1&T2&T3))).
    split_and!; [|done|by constructor|by split_and!]. destruct Hk. constructor; try done.
    + eapply (held_change c); try done; simpl; auto. left. by rewrite Hn.
    + simpl. rewrite E3. lia.
  - destruct (take_deferred _ _) as [d tx], (k_rx _ _ _ (proj1 Hc)) as (? & _). unfold pending. simpl. lia.
Qed.
End reactor.
