(* ===== verification/Completions.v ===== *)
(** Every completion keeps the reactor's invariant and none panics.

    A completion takes its entry from what the kernel holds; the lemmas of
    this file start from there: [es] are the entries left for the connection
    the completion is for. *)
From S2P Require Import Prelude Hoare Wire Status Os Sample Lease Vfs Handles Crypto Session Config Smb2 State.
From S2P Require Import Setup Dispatch Confine TreeSafe SessionSafe WorldSafe Appends Uring Reactor ReactorSafe.
Local Open Scope Z_scope.

Section completions.
Context `{Env} `{!OsLaws} `{!CryptoLaws} (srv : Srv) (Hsrv : srv_ok srv) (armed : list Entry) (nm : Z).

Abbreviation any := (λ _ : RSt, True).
Abbreviation stable := (worker_inv srv armed nm None).
Abbreviation at_conn := (at_conn srv armed nm).
Abbreviation open_at := (open_at srv armed nm).
Abbreviation idle := (noti true idle_mode).

Lemma open_idle j c es : open_ok j c es → tx_mode (co_tx c) = Idle → idle j c es.
Proof.
  intros (Hk & Hcl & Hco & Hm) E. unfold mode_ok in Hm. rewrite E in Hm. destruct (tx_zc (co_tx c)) eqn:Ez; [done|].
  destruct Hm as (?&?&?&?&?&?). by split_and!.
Qed.

(** ** Receiving *)
Lemma t_on_recv j c es res :
  open_ok j (co_set_rx (rx_set_inflight false (co_rx c)) c) es →
  res ≤ len (rx_buf (co_rx c)) - rx_len (co_rx c) → rx_len (co_rx c) < len (rx_buf (co_rx c)) →
  triple (at_conn j c es) (on_recv srv j res) (λ _, stable) any.
Proof.
  intros Hc Hres Hroom. unfold on_recv. apply t_upd_conn; [done|].
  destruct (_ =? _).
  { apply t_maybe_arm_recv; [done|]. intros _. right. destruct (k_rx _ _ _ (proj1 Hc)) as (Ho & Hl & _).
    unfold pending. simpl in *. lia. } destruct (res <=? 0) eqn:Er; [apply t_close_ring, Hc|].
  apply t_upd_conn; [done|].
  eapply (open_rx _ _ _ (mkRx (rx_buf (co_rx c)) (rx_off (co_rx c)) (rx_len (co_rx c) + res) false)) in Hc; [|done| |done].
  2:{ destruct (k_rx _ _ _ (proj1 Hc)) as (Ho & Hl & Hb). simpl in *. split; simpl; [lia|]. split; [lia|done]. }
  apply t_conn_mut. case_bool_decide; [|by apply t_maybe_arm_recv; [|intros ?]]. by apply t_drive, open_idle.
Qed.

(** ** Sending *)
Lemma t_finish_send j c es :
  ready j c es → tx_zc (co_tx c) = None → tx_notif_pending (co_tx c) = 0 →
  triple (at_conn j c es) (finish_send srv j) (λ _, stable) any.
Proof.
  intros Hy Hz Hn. unfold finish_send. apply t_conn_mut. destruct (tx_close_after (co_tx c)) eqn:Ec; [by apply t_close_ring, Hy|].
  apply t_upd_conn; [done|]. destruct (tx_pending_zc (co_tx c)) eqn:Ep; (apply t_upd_conn; [done|]).
  - eapply t_stable, t_start_zc. constructor; try done.
    apply ready_tx; [apply ready_tx; [done|done|by left|simpl; lia]|done|by left|simpl; lia].
  - apply t_drive; [done|].
    assert (ready j (co_set_tx (tx_set_mode Idle (tx_set_buf [] 0 (co_tx c))) c) es) as [Hk Ho Hco Ht]
      by (apply ready_tx; [done|done|by left|simpl; lia]).
    by split_and!.
Qed.

Definition set_notif (n : Z) (c : Conn) : Conn := co_set_tx (tx_set_notif n (co_tx c)) c.

Lemma t_on_send_notif j c es :
  core j c es → co_closing c = false → 1 ≤ tx_notif_pending (co_tx c) →
  common true (set_notif (tx_notif_pending (co_tx c) - 1) c) es → mode_ok c es →
  triple (at_conn j c es) (on_send_notif srv j) (λ _, stable) any.
Proof.
  intros Hk Hcl Hn Hco Hm. unfold on_send_notif. apply t_upd_conn; [done|]. rewrite Z.max_l by lia.
  assert (core j (set_notif (tx_notif_pending (co_tx c) - 1) c) es) as Hk' by (by eapply core_same).
  apply t_conn_mut. simpl. unfold mode_ok in Hm.
  destruct (tx_mode (co_tx c)) eqn:Em, (tx_zc (co_tx c)) eqn:Ez; try done;
    try (destruct Hm as (_ & _ & _ & ? & _); lia); try (destruct Hm as (_ & _ & (_ & ? & _)); lia);
    try (destruct Hm as (_ & _ & _ & (_ & ? & _)); lia); try (destruct Hm as ((_ & ? & _) & _); lia).
  - rewrite bool_decide_false, andb_false_r by done. apply triple_ret. intros s Hs. eapply at_done; [done|].
    apply open_conn_ok; [|intros E; simpl in E; congruence]. split_and!; try done. unfold mode_ok. simpl. by rewrite Em, Ez.
  - rewrite bool_decide_true, andb_true_r by done. destruct Hm as [Ht _]. destruct (_ =? 0) eqn:E0.
    + apply t_finish_send; simpl; [by constructor|done|lia].
    + apply triple_ret. intros s Hs. eapply at_done; [done|].
      apply open_conn_ok; [|intros E; simpl in E; congruence]. split_and!; try done. unfold mode_ok. simpl.
      rewrite Em, Ez. split; [done|lia].
Qed.

(** ** Zero-copy reads *)
Lemma t_zc_done j c es z :
  ready j c es → tx_notif_pending (co_tx c) = 0 → tx_pending_zc (co_tx c) = None → tx_close_after (co_tx c) = false →
  triple (at_conn j c es) (zc_done srv j z) (λ _, stable) any.
Proof.
  intros Hy Hn Hp Hcl. unfold zc_done, close_fd. apply t_upd_conn; [done|]. apply t_rio. intros _.
  apply t_upd_conn; [done|]. apply t_drive; [done|].
  assert (ready j (co_set_tx (tx_set_mode Idle (tx_set_buf [] 0 (tx_set_zc None (co_tx c)))) c) es) as [Hk Ho Hco Ht]
    by (apply ready_tx; [done|done|by left|simpl; lia]).
  by split_and!.
Qed.

(** The chain of a linked read after one of its completions. *)
Record linked (j : nat) (c : Conn) (es : list Entry) (z : Zc) : Prop := {
  l_core : core j c es;
  l_open : co_closing c = false;
  l_common : common true c es;
  l_mode : tx_mode (co_tx c) = ZcOut;
  l_zc : tx_zc (co_tx c) = Some z;
  l_linked : zc_linked z = true;
  l_side : zc_side c;
  l_chain : cnt is_send es + cnt is_in es + cnt is_out es = zc_chain z - 1;
  l_pos : 1 ≤ zc_chain z }.

Lemma core_zc j c es z z' :
  core j c es → tx_zc (co_tx c) = Some z → zc_plan z' = zc_plan z → core j (co_set_tx (tx_set_zc (Some z') (co_tx c)) c) es.
Proof.
  intros [] Ez Ep. constructor; try done. eapply (held_change c); try done; simpl; rewrite ?Ez; simpl;
    right; split_and!; rewrite ?Ep; done.
Qed.

Lemma t_on_linked_cqe j c es z op res :
  linked j c es z → triple (at_conn j c es) (on_linked_cqe srv j op res) (λ _, stable) any.
Proof.
  intros [Hk Hcl Hco Hm Ez El Hside Hch Hpos]. unfold on_linked_cqe. apply t_conn_mut. eapply t_expect; [exact Ez|].
  cbv zeta. rewrite (Z.max_l (zc_chain z - 1)) by lia. set (z' := mkZc _ _ _ _ _ _ _).
  apply t_upd_conn; [done|]. pose proof (core_zc j c es z z' Hk Ez eq_refl) as Hk'.
  change (zc_chain z') with (zc_chain z - 1).
  pose proof (cnt_nonneg is_send es). pose proof (cnt_nonneg is_in es). pose proof (cnt_nonneg is_out es).
  destruct (0 <? zc_chain z - 1) eqn:E0.
  { apply triple_ret. intros s Hs. eapply at_done; [done|].
    apply open_conn_ok; [|intros E; simpl in E; congruence]. split_and!; try done.
    - destruct Hco. by constructor.
    - unfold mode_ok. simpl. rewrite Hm, El. split; [done|]. lia. }
  assert (ready j (co_set_tx (tx_set_zc (Some z') (co_tx c)) c) es) as Hy.
  { constructor; try done; [destruct Hco; by constructor|]. unfold tx_cnt. lia. }
  destruct Hside as (Hp & Hn & Hpe & Hca).
  destruct (zc_err z'); [by apply t_close_ring|]. destruct (0 <? zc_out_left z').
  - apply t_upd_conn; [done|]. eapply t_stable, t_submit_splice_out; [|done..|by split_and!].
    apply ready_tx; [done|done|by left|simpl; apply Hk].
  - by apply t_zc_done.
Qed.

(** A step of the transmit side is over and the read is not a linked one. *)
Record unlinked (j : nat) (c : Conn) (es : list Entry) (z : Zc) : Prop := {
  u_ready : ready j c es;
  u_zc : tx_zc (co_tx c) = Some z;
  u_linked : zc_linked z = false;
  u_side : zc_side c }.

Lemma unlinked_is j c es z : unlinked j c es z → is_linked c = false.
Proof. intros [_ Ez El _]. unfold is_linked. by rewrite Ez. Qed.

Lemma linked_is j c es z : linked j c es z → is_linked c = true.
Proof. intros [_ _ _ _ Ez El _ _ _]. unfold is_linked. by rewrite Ez. Qed.

Lemma t_on_send j c es res :
  (∃ z, linked j c es z) ∨
  (ready j c es ∧ tx_mode (co_tx c) = Send ∧ tx_zc (co_tx c) = None) ∨
  (∃ z, unlinked j c es z ∧ tx_mode (co_tx c) = ZcHdr ∧ tx_is_zc (co_tx c) = false) →
  res ≤ len (tx_buf (co_tx c)) - tx_off (co_tx c) →
  triple (at_conn j c es) (on_send srv j res) (λ _, stable) any.
Proof.
  intros Hc Hres. unfold on_send. apply t_conn_mut. destruct Hc as [[z Hl]|Hc].
  { rewrite (linked_is _ _ _ _ Hl). by eapply t_on_linked_cqe. }
  assert (is_linked c = false) as ->.
  { destruct Hc as [(_ & _ & Ez)|(z & Hu & _)]; [unfold is_linked; by rewrite Ez|by eapply unlinked_is]. }
  assert (ready j c es) as Hy by (destruct Hc as [(? & _)|(z & [] & _)]; done).
  pose proof (k_txoff _ _ _ (y_core _ _ _ Hy)) as Hoff.
  destruct (res =? _).
  { eapply t_stable, t_submit_send; [done|]. destruct Hc as [(_ & Em & Ez)|(z & [_ Ez El Hs] & Em & _)].
    - rewrite Em. by left.
    - rewrite Em. right. split_and!; try done. by exists z. }
  destruct (_ && tx_is_zc (co_tx c)) eqn:Ee.
  { apply andb_true_iff in Ee as [_ Ee]. destruct Hc as [(_ & Em & Ez)|(z & _ & _ & ?)]; [|congruence].
    apply t_upd_conn; [done|]. eapply t_stable, t_submit_send; [|by left].
    apply ready_tx; [done|done|by right|done]. }
  destruct (res <=? 0) eqn:Er; [apply t_close_ring, Hy|]. apply t_upd_conn; [done|]. apply t_conn_mut. cbv zeta.
  cbn [co_set_tx tx_set_buf co_tx tx_buf tx_off tx_mode tx_notif_pending].
  assert (ready j (co_set_tx (tx_set_buf (tx_buf (co_tx c)) (tx_off (co_tx c) + res) (co_tx c)) c) es) as Hy'
    by (apply ready_tx; [done|done|by right|simpl; lia]).
  destruct Hc as [(_ & Em & Ez)|(z & [_ Ez El Hs] & Em & _)]; rewrite Em.
  - destruct (len (tx_buf (co_tx c)) <=? _); [|eapply t_stable, t_submit_send; [done|by left]]. destruct (0 <? _) eqn:En.
    + apply t_last, t_upd_conn; [done|]. apply triple_ret. intros s Hs. eapply at_done; [exact Hs|]. apply open_conn_ok; [|done].
      destruct Hy' as [Hk Ho [] Ht]. split_and!; [by eapply core_same|done|by constructor|].
      unfold mode_ok. simpl. rewrite Ez. split; [done|lia].
    + apply t_finish_send; simpl; [done..|]. pose proof (o_notif _ _ _ (y_common _ _ _ Hy)).
      pose proof (cnt_nonneg is_notif es). lia.
  - destruct (len (tx_buf (co_tx c)) <=? _).
    + apply t_upd_conn; [done|]. eapply t_stable, t_submit_splice_out; [|done..].
      apply ready_tx; [done|done|by right|simpl; lia].
    + eapply t_stable, t_submit_send; [done|]. right. split_and!; try done. by exists z.
Qed.
Lemma t_zc_fail j c es z st :
  unlinked j c es z → triple (at_conn j c es) (zc_fail j st) (λ _, open_at j) any.
Proof.
  intros [Hy Ez El ([[r w] Hp] & Hn & Hpe & Hca)]. unfold zc_fail. apply t_conn_mut. eapply t_expect; [exact Ez|].
  apply t_upd_conn; [done|]. apply t_os_only.
  { destruct (0 <? zc_got z); [|apply os_only_ret]. rewrite Hp. apply os_only_drain_pipe. }
  intros ?. apply t_os_only; [apply os_only_rio|]. intros ?. apply t_send_now; try done.
  apply ready_tx; [done|done|by left|simpl; apply Hy].
Qed.

(** The read goes on with another count of bytes. *)
Lemma unlinked_zc j c es z z' :
  unlinked j c es z → zc_linked z' = false → unlinked j (co_set_tx (tx_set_zc (Some z') (co_tx c)) c) es z'.
Proof.
  intros [Hy Ez El Hs] El'. constructor; try done. apply ready_tx; [done|done| |simpl; apply Hy].
  left. apply Hs.
Qed.

Lemma t_on_splice_in j c es res :
  (∃ z, linked j c es z) ∨ (∃ z, unlinked j c es z ∧ tx_mode (co_tx c) = ZcIn) →
  triple (at_conn j c es) (on_splice_in srv j res) (λ _, stable) any.
Proof.
  intros Hc. unfold on_splice_in. apply t_conn_mut. destruct Hc as [[z Hl]|(z & Hu & Em)].
  { rewrite (linked_is _ _ _ _ Hl). by eapply t_on_linked_cqe. }
  rewrite (unlinked_is _ _ _ _ Hu). pose proof Hu as [Hy Ez El Hs].
  destruct (_ || _); [by eapply t_stable, t_submit_splice_in|]. eapply t_expect; [exact Ez|]. cbv zeta.
  destruct (res <? 0); [by eapply t_stable, t_zc_fail|]. set (z' := mkZc _ _ _ _ _ _ _).
  apply t_upd_conn; [done|]. pose proof (unlinked_zc j c es z z' Hu El) as Hu'.
  destruct (_ && _); [eapply t_stable, t_submit_splice_in; [apply Hu'|done..]|].
  destruct (_ || _); [by eapply t_stable, t_zc_fail|].
  apply t_upd_conn; [done|]. eapply t_stable, t_submit_send.
  - apply ready_tx; [apply Hu'|done|left; apply Hs|simpl; lia].
  - right. split_and!; try done; [apply Hs..|]. eexists. by split.
Qed.

Lemma t_on_splice_out j c es res :
  (∃ z, linked j c es z) ∨ (∃ z, unlinked j c es z ∧ tx_mode (co_tx c) = ZcOut) →
  triple (at_conn j c es) (on_splice_out srv j res) (λ _, stable) any.
Proof.
  intros Hc. unfold on_splice_out. apply t_conn_mut. destruct Hc as [[z Hl]|(z & Hu & Em)].
  { rewrite (linked_is _ _ _ _ Hl). by eapply t_on_linked_cqe. }
  rewrite (unlinked_is _ _ _ _ Hu). pose proof Hu as [Hy Ez El Hs].
  destruct (_ || _); [by eapply t_stable, t_submit_splice_out|]. destruct (res <=? 0); [apply t_close_ring, Hy|].
  eapply t_expect; [exact Ez|]. cbv zeta. set (z' := mkZc _ _ _ _ _ _ _).
  apply t_upd_conn; [done|]. pose proof (unlinked_zc j c es z z' Hu El) as Hu'.
  destruct (0 <? _); [eapply t_stable, t_submit_splice_out; [apply Hu'|done..]|].
  apply t_zc_done; [apply Hu'|apply Hs..].
Qed.

(** ** inotify *)
Definition waiting (c : Conn) (es : list Entry) : Prop := mode_ok c es ∧ listening c.

Lemma waiting_local : tx_local waiting.
Proof.
  intros c es c' es' [Hm Hl] Et Ep Er E1 E2 E3. split; [by eapply mode_ok_local|]. unfold listening. by rewrite Et, Er.
Qed.

Lemma n_arm_at j :
  triple (noti_at srv armed nm false waiting j) (arm_inotify j) (λ _, noti_at srv armed nm true waiting j) any.
Proof.
  apply n_at. intros c es Hc. destruct (o_some _ _ _ (proj1 (proj2 (proj2 Hc))) eq_refl) as [ifd Hi].
  eapply n_arm; [apply waiting_local|done..].
Qed.

Lemma noti_open j c es : noti true waiting j c es → open_ok j c es ∧ listening c.
Proof. intros (Hk & Hcl & Hco & Hm & Hl). by split. Qed.

Lemma noti_open_at j s : noti_at srv armed nm true waiting j s → open_at j s.
Proof. intros (c & es & Hs & Hc). exists c, es. split; [done|by apply noti_open]. Qed.

Lemma t_on_inotify j c es res :
  noti false waiting j c es → triple (at_conn j c es) (on_inotify srv j res) (λ _, stable) any.
Proof.
  intros Hc. unfold on_inotify. destruct (_ || _).
  { eapply n_from; [exact Hc|]. eapply triple_conseq; [apply n_arm_at|done| |done].
    intros ? s Hs. eapply open_stable, noti_open_at, Hs. }
  apply t_conn_mut. destruct (res <=? 0).
  { apply t_upd_conn; [done|]. apply t_last, t_os_only; [destruct (in_fd _); [apply os_only_rio|apply os_only_ret]|].
    intros ?. apply triple_ret. intros s Hs. eapply at_done; [exact Hs|].
    destruct Hc as (Hk & Hcl & [Hr Hn Hw] & Hm & Hl). apply open_conn_ok; [|done]. simpl in Hw. split_and!; try done.
    - destruct Hk. constructor; try done. eapply (held_change c); try done; simpl; auto. }
  cbv zeta. eapply n_from; [exact Hc|]. pose proof waiting_local as HM.
  eapply triple_bind; [by apply n_fire_all|]. intros ?.
  eapply triple_bind; [by apply n_fire_all|]. intros fired.
  eapply triple_bind; [apply n_for_each; intros [watch ev]; by apply n_complete|]. intros ?.
  eapply triple_bind; [apply n_arm_at|]. intros ?. apply n_at. intros c' es' Hc'. apply t_conn_mut.
  apply noti_open in Hc' as [Ho' Hl']. destruct (_ && _) eqn:E.
  - apply andb_true_iff in E as [E _]. apply bool_decide_eq_true in E. by apply t_drive, open_idle.
  - apply triple_ret. intros s Hs. eapply at_done; [done|by apply open_conn_ok].
Qed.

(** ** Breaks from other workers *)
Lemma t_deliver_break b : triple stable (deliver_break srv b) (λ _, stable) any.
Proof.
  intros s Hs. unfold deliver_break. unfold mbind at 1, ST_bind at 1, gets at 1.
  destruct (_ <? 0); [done|]. cbv zeta. destruct (wk_conns (r_wk s) !! _) as [[c|]|] eqn:Ec; [|done..].
  destruct (_ || _) eqn:Eb; [done|]. apply orb_false_iff in Eb as [_ Hcl].
  destruct (stable_at _ _ _ _ _ _ Hs Ec) as [Ha [Hk Hok]]. rewrite Hcl in Hok. destruct Hok as [[Hco Hm] Hli].
  set (j := Z.to_nat (bm_conn_idx b)) in *. set (es := ents armed j s) in *. clearbody es. clear Hs Ec.
  revert s Ha. apply t_upd_conn; [done|].
  assert (∀ d, open_ok j (co_set_deferred d c) es) as Hc.
  { intros d. split_and!; [by eapply core_same|done|destruct Hco; by constructor|done]. }
  case_bool_decide.
  - by apply t_drive, open_idle.
  - apply triple_ret. intros s Hs. eapply at_done; [exact Hs|]. by apply open_conn_ok.
Qed.

Lemma stable_world s w :
  stable s → len (w_mailboxes w) = nm → w_sessions w = w_sessions (r_w s) → stable (r_set_w w s).
Proof. intros [] Hm E. constructor; try done; simpl; [by rewrite E|naive_solver]. Qed.

Lemma t_my_mailbox {B} (k : Mailbox → RM B) Q :
  (∀ mb, triple stable (k mb) Q any) → triple stable (my_mailbox ≫= k) Q any.
Proof.
  intros Hk s Hs. unfold my_mailbox, mbind, ST_bind, gets. simpl. destruct (v_mail _ _ _ _ _ Hs) as [? E].
  destruct (w_mailboxes (r_w s) !! _) as [mb|] eqn:El; [by apply Hk|]. apply lookup_ge_None in El. lia.
Qed.

Lemma t_arm_accept : triple stable arm_accept (λ _, stable) any.
Proof. intros s Hs. by apply worker_push_other. Qed.

Lemma t_arm_wake : triple stable arm_wake (λ _, stable) any.
Proof. apply t_my_mailbox. intros mb s Hs. by apply worker_push_other. Qed.

Lemma t_on_wake : triple stable (on_wake srv) (λ _, stable) any.
Proof.
  intros s Hs. unfold on_wake. unfold mbind at 1, ST_bind at 1, gets at 1. revert s Hs.
  cut (∀ k : Worker, triple stable
    (mb ← my_mailbox; let '(breaks, mb) := mailbox_drain mb in
     modify (λ s, r_set_w (w_set_mailboxes (<[Z.to_nat (wk_wid k) := mb]> (w_mailboxes (r_w s))) (r_w s)) s) ;;
     for_each breaks (deliver_break srv) ;; arm_wake) (λ _, stable) any).
  { intros Hk s Hs. by apply Hk. }
  intros k. apply t_my_mailbox. intros mb. destruct (mailbox_drain mb) as [breaks mb'].
  eapply (triple_bind _ _ _ (λ _, stable)).
  { intros s Hs. simpl. apply stable_world; [done| |done]. simpl. rewrite length_insert. apply (v_mail _ _ _ _ _ Hs). }
  intros ?. eapply (triple_bind _ _ _ (λ _, stable)); [|intros ?; apply t_arm_wake].
  apply (triple_for_each (λ _, stable)). intros b _. apply t_deliver_break.
Qed.
(** ** Accepting *)
Lemma rx_new_ok fd gen p : rx_ok (co_rx (conn_new fd gen p)).
Proof.
  cbn [conn_new co_rx]. unfold rx_ok. cbn [rx_off rx_len rx_buf].
  rewrite length_replicate. split; [lia|]. split; [unfold RX_INITIAL, RX_CAP, MAX_FRAME, MAX_TRANSACT, RX_MIN_ROOM; lia|].
  apply Forall_replicate. unfold is_byte. lia.
Qed.

Lemma open_new j fd gen p : open_ok j (conn_new fd gen p) [].
Proof.
  split_and!; [|done|by constructor|by split_and!]. constructor; [done|done|done|apply rx_new_ok|done].
Qed.

(** A slot off the free list, with no connection in it. *)
Definition spare (i : nat) (s : RSt) : Prop :=
  stable s ∧ wk_conns (r_wk s) !! i = Some None ∧ i ∉ wk_free (r_wk s).

Definition take_slot (k : Worker) : RM nat :=
  match wk_free k with
  | i :: free => upd_wk (λ k, wk_set_slots (wk_gens k) free k) ;; mret i
  | [] =>
      upd_wk (λ k, wk_set_conns (wk_conns k ++ [None]) (wk_set_slots (wk_gens k ++ [1]) (wk_free k) k)) ;;
      mret (length (wk_conns k))
  end.

Lemma t_take_slot k :
  wk_free k ≠ [] ∨ len (wk_conns k) < MAX_CONN_SLOTS →
  triple (λ s, stable s ∧ wk_free (r_wk s) = wk_free k ∧ wk_conns (r_wk s) = wk_conns k) (take_slot k)
    (λ i s, spare i s) any.
Proof.
  intros Hroom s ([Hs Hlen Hmax Hgens [Hnd Hfree] Hw Hm] & Ef & Ec). unfold take_slot. rewrite <- Ef, <- Ec in *.
  destruct (wk_free (r_wk s)) as [|i free] eqn:E; simpl.
  - destruct Hroom as [|Hroom]; [done|]. split_and!; simpl; [|by rewrite lookup_app_r, Nat.sub_diag|rewrite E; apply not_elem_of_nil].
    constructor; simpl; rewrite ?E, ?length_app; try done; simpl; try lia.
    + intros j _. specialize (Hs j ltac:(done)). unfold slot_ok in *. simpl.
      destruct (decide (j < length (wk_conns (r_wk s)))%nat) as [Hj|Hj].
      * rewrite lookup_app_l by done. destruct (wk_conns (r_wk s) !! j) as [[c|]|]; try done.
        by rewrite lookup_app_l by lia.
      * rewrite lookup_ge_None_2 in Hs by lia. by destruct (_ !! _) as [[c|]|] eqn:Ej;
          [apply lookup_app_Some in Ej as [?%lookup_lt_Some|[_ ?%list_lookup_singleton_Some]]; [lia|naive_solver]|..].
    + apply Forall_app. split; [done|]. constructor; [lia|done].
    + split; [done|]. by intros j ?%elem_of_nil.
  - apply NoDup_cons in Hnd as [Hi Hnd]. split_and!; simpl; [|apply Hfree; left|done].
    constructor; simpl; try done. split; [done|]. intros j Hj. apply Hfree. by right.
Qed.

Lemma t_on_accept fd : triple stable (on_accept srv fd) (λ _, stable) any.
Proof.
  intros s Hs. unfold on_accept. unfold mbind at 1, ST_bind at 1, gets at 1. set (k := r_wk s).
  destruct (_ && _) eqn:Ef. { destruct (os_only_rio (c_close fd) s) as (a & o & E). unfold close_fd. rewrite E. by apply worker_os. }
  assert (wk_free k ≠ [] ∨ len (wk_conns k) < MAX_CONN_SLOTS) as Hroom.
  { apply andb_false_iff in Ef as [Ef%bool_decide_eq_false|Ef]; [by left|right; lia]. }
  destruct (os_only_rio (c_nodelay fd) s) as (a & o & E). unfold mbind at 1, ST_bind at 1. rewrite E. clear a E.
  unfold mbind at 1, ST_bind at 1, upd_wk at 1, modify at 1. set (s1 := r_set_wk _ _).
  assert (stable s1 ∧ wk_free (r_wk s1) = wk_free k ∧ wk_conns (r_wk s1) = wk_conns k) as Hs1.
  { split_and!; [|done..]. destruct Hs. by constructor. }
  clearbody s1. revert s1 Hs1. clear Hs Ef. eapply triple_bind; [by apply t_take_slot|]. clear s k Hroom.
  intros i s ([Hs Hlen Hmax Hgens [Hnd Hfree] Hw Hm] & Ec & Hi). unfold mbind at 1, ST_bind at 1, gets at 1.
  pose proof (lookup_lt_Some _ _ _ Ec) as Hlt. destruct (wk_gens (r_wk s) !! i) as [gen|] eqn:Eg.
  2:{ apply lookup_ge_None in Eg. lia. }
  rewrite (proj2 (Nat.ltb_lt _ _) Hlt). unfold mbind, ST_bind, upd_wk, modify. simpl.
  eapply t_maybe_arm_recv; [apply (open_new i)|intros _; by right|]. constructor; simpl; [|by apply list_lookup_insert_eq|done|].
  - constructor; simpl; rewrite ?length_insert; try done.
    + intros j Hj. specialize (Hs j ltac:(done)). unfold slot_ok in *. simpl. by rewrite list_lookup_insert_ne by congruence.
    + split; [done|]. intros j Hj. rewrite list_lookup_insert_ne by (intros ->; done). by apply Hfree.
  - specialize (Hs i ltac:(done)). unfold slot_ok in Hs. by rewrite Ec in Hs.
Qed.
End completions.
