(* ===== verification/Ring.v ===== *)
(** The workers and the kernel together.

    The kernel holds the entries the workers queued and completes them in any
    order, with any result the entry allows; before a completion it reads or
    writes the buffers the entry points into. A system step is one completion
    of one worker, handled to its end. *)
From S2P Require Import Prelude Hoare Wire Status Os Sample Lease Vfs Handles Crypto Session Config Smb2 State.
From S2P Require Import Setup Dispatch Confine TreeSafe SessionSafe WorldSafe Appends Uring Reactor ReactorSafe Completions.
Local Open Scope Z_scope.

(** ** The kernel *)

(** May entry [e] complete with this result, these flags and this data? *)
Definition may_complete (e : Entry) (res flags : Z) (data : bytes) : bool :=
  match e_sqe e with
  | SqAccept multi _ => implb (has_bits flags CQE_F_MORE) multi
  | SqWake _ | SqCancel _ => true
  | SqRecv _ _ n | SqInotify _ n =>
      (res <=? n) && (len data =? Z.max res 0) && forallb (λ b, (0 <=? b) && (b <? 256)) data
  | SqSend _ _ d _ zc =>
      (res <=? len d) && implb (has_bits flags CQE_F_MORE) zc && negb (has_bits flags CQE_F_NOTIF)
  | SqNotif _ _ => has_bits flags CQE_F_NOTIF && negb (has_bits flags CQE_F_MORE)
  | SqSpliceIn _ _ _ n | SqSpliceOut _ _ n => res <=? n
  end.

(** What the kernel still holds after it: a multishot accept stays, and a
    zero-copy send leaves the buffer in use until its notification. *)
Definition remains (e : Entry) (flags : Z) : list Entry :=
  if has_bits flags CQE_F_MORE then
    match e_sqe e with
    | SqAccept _ _ => [e]
    | SqSend _ off d _ _ => [mkEntry (SqNotif off d) false (e_ud e)]
    | _ => []
    end
  else [].

Definition overwrite (off : Z) (data buf : bytes) : bytes :=
  take (Z.to_nat off) buf ++ data ++ drop (Z.to_nat (off + len data)) buf.

(** The kernel's access to the memory of a connection; [None] when the entry
    does not point into a buffer of its size, or a buffer it reads from is no
    longer what was submitted. *)
Definition dma_conn (q : Sqe) (data : bytes) (c : Conn) : option Conn :=
  match q with
  | SqRecv _ off n =>
      if off + n <=? len (rx_buf (co_rx c)) then
        let r := co_rx c in Some (co_set_rx (mkRx (overwrite off data (rx_buf r)) (rx_off r) (rx_len r) (rx_inflight r)) c)
      else None
  | SqInotify _ n =>
      if n <=? len (in_buf (co_in c)) then
        let i := co_in c in Some (co_set_in (mkIn (in_fd i) (overwrite 0 data (in_buf i)) (in_watches i) (in_cancelled i)) c)
      else None
  | SqSend _ off d _ _ | SqNotif off d =>
      if bool_decide (drop (Z.to_nat off) (tx_buf (co_tx c)) = d) then Some c else None
  | _ => Some c
  end.

(** [None] also when the connection is not there, or another one is. *)
Definition dma (e : Entry) (data : bytes) (k : Worker) : option Worker :=
  match slot_of e with
  | None => Some k
  | Some j =>
      match wk_conns k !! j with
      | Some (Some c) =>
          if e_ud e =? conn_ud (op_of (e_sqe e)) j c then
            c ← dma_conn (e_sqe e) data c; Some (wk_set_conns (<[j := Some c]> (wk_conns k)) k)
          else None
      | _ => None
      end
  end.

(** A read of the eventfd takes its counter. *)
Definition read_efd `{Env} (e : Entry) (w : World) : World :=
  match e_sqe e with
  | SqWake wid =>
      w_set_mailboxes (alter (λ mb, mkMailbox (mb_queue mb) 0) (Z.to_nat wid) (w_mailboxes w)) w
  | _ => w
  end.

(** ** The system *)
Section system.
Context `{Env} (srv : Srv).

(** The shared world, the frames the run is still followed for, each worker
    with the entries the kernel holds for it, and what was observed. *)
Record Sys := mkSys {
  y_world : World; y_frames : nat; y_workers : list (Worker * list Entry); y_obs : list Obs }.

(** The bytes a completion gives a connection. *)
Definition arrival (k : Worker) (e : Entry) (data : bytes) : list Obs :=
  match e_sqe e, slot_of e with SqRecv _ _ _, Some j => [Received (wk_wid k) j data] | _, _ => [] end.

(** What handling a completion starts from: the connection's buffers have
    been written by the kernel. *)
Definition deliver (y : Sys) (k : Worker) (e : Entry) (data : bytes) : RSt :=
  mkRSt (read_efd e (y_world y)) k [] (y_frames y) (y_obs y ++ arrival k e data).

Inductive sys_step : Sys → Sys → Prop :=
| step_cqe y i k k' K1 e K2 res flags data s :
    y_workers y !! i = Some (k, K1 ++ e :: K2) →
    may_complete e res flags data = true →
    dma e data k = Some k' →
    handle_cqe srv (e_ud e) res flags (deliver y k' e data) = (inl tt, s) →
    sys_step y (mkSys (r_w s) (r_frames s)
      (<[i := (r_wk s, (K1 ++ remains e flags ++ K2) ++ r_sq s)]> (y_workers y)) (r_obs s)).

(** A worker that has queued its accept and its wake-up read. *)
Definition boot_worker (w : World) (wid : nat) (p : Z * bool) : Worker * list Entry :=
  let s := (worker_start (mkRSt w (worker_new (Z.of_nat wid) p.1 p.2) [] 0 [])).2 in (r_wk s, r_sq s).

(** The server as it starts: a mailbox and a worker for each listener. *)
Definition sys_boot (w : World) (frames : nat) (listeners : list (Z * bool)) : Sys :=
  mkSys w frames (imap (boot_worker w) listeners) [].
End system.

(** ** The kernel's accesses are in bounds *)
Lemma length_overwrite off data buf :
  0 ≤ off → off + len data ≤ len buf → len (overwrite off data buf) = len buf.
Proof. intros. unfold overwrite. rewrite !length_app, length_take, length_drop. lia. Qed.

Lemma forallb_bytes data : forallb (λ b, (0 <=? b) && (b <? 256)) data = true → Forall is_byte data.
Proof.
  intros Hb. apply forallb_True, Is_true_true in Hb || rewrite forallb_forall in Hb.
  apply Forall_forall. intros b Hin%list_elem_of_In. specialize (Hb b Hin). unfold is_byte. lia.
Qed.

Lemma overwrite_bytes off data buf : Forall is_byte data → Forall is_byte buf → Forall is_byte (overwrite off data buf).
Proof. intros. unfold overwrite. repeat (apply Forall_app; split); [by apply Forall_take|done|by apply Forall_drop]. Qed.

(** The buffers an entry is checked against are there, and writing into them
    changes nothing the invariant speaks of. *)
Lemma dma_conn_ok j c es e res flags data :
  conn_ok j c es → e ∈ es → may_complete e res flags data = true →
  ∃ c', dma_conn (e_sqe e) data c = Some c' ∧ conn_ok j c' es ∧ co_gen c' = co_gen c.
Proof.
  intros [Hk Hok] He Hm. pose proof (k_held _ _ _ Hk) as Hh. rewrite Forall_forall in Hh. specialize (Hh e He).
  unfold may_complete in Hm. destruct (e_sqe e); simpl in *; try (by exists c).
  - destruct Hh as (_ & -> & Hn & Hpos). destruct (k_rx _ _ _ Hk) as (Ho & Hl & Hb).
    rewrite !andb_true_iff in Hm. destruct Hm as [[Hr Hd] Hby].
    rewrite (proj2 (Z.leb_le _ _)) by lia. eexists. split; [done|]. split; [|done].
    pose proof (length_overwrite (rx_len (co_rx c)) data (rx_buf (co_rx c)) ltac:(lia) ltac:(lia)) as El.
    split.
    + destruct Hk. constructor; try done.
      * eapply (held_change c); try done; simpl; auto.
      * simpl. apply rx_ok_with; [done|by apply overwrite_bytes, Hb; apply forallb_bytes|rewrite El; lia|lia|rewrite El; lia].
    + simpl. destruct (co_closing c); [done|]. destruct Hok as [[[] ?] ?]. by split; [split; [constructor|]|].
  - destruct Hh as (_ & _ & _ & -> & _). rewrite bool_decide_true by done. by exists c.
  - destruct Hh as (_ & -> & _). rewrite bool_decide_true by done. by exists c.
  - destruct Hh as [Hi ->]. rewrite (proj2 (Z.leb_le _ _)) by lia. eexists. split; [done|]. split; [|done].
    rewrite !andb_true_iff in Hm. destruct Hm as [[Hr Hd] Hby].
    pose proof (length_overwrite 0 data (in_buf (co_in c)) ltac:(lia) ltac:(lia)) as El. split.
    + destruct Hk. constructor; try done. eapply (held_change c); try done; simpl; auto.
    + simpl. destruct (co_closing c); [done|]. destruct Hok as [[[] ?] ?]. by split; [split; [constructor|]|].
Qed.

(** ** A completion leaves the kernel *)
Lemma cnt_swap p F1 e F2 R :
  cnt p (F1 ++ R ++ F2) = cnt p (F1 ++ e :: F2) - (if p (e_sqe e) then 1 else 0) + cnt p R.
Proof. rewrite !cnt_app, cnt_cons. lia. Qed.

Lemma remains_kind e flags :
  of_conn (e_sqe e) = true → Forall (λ x, e_ud x = e_ud e ∧ op_of (e_sqe x) = op_of (e_sqe e) ∧ of_conn (e_sqe x) = true) (remains e flags).
Proof. intros Hc. unfold remains. destruct (has_bits _ _); [|done]. destruct (e_sqe e); try done; by repeat constructor. Qed.

Lemma retire_held op flags c es :
  Forall (λ x, held c (e_sqe x)) es → Forall (λ x, held (retire op flags c) (e_sqe x)) es.
Proof. apply held_change; unfold retire; destruct (_ && _); simpl; auto. Qed.

(** Only a zero-copy send stays with the kernel, as its notification. *)
Lemma retire_more c e res flags data :
  held c (e_sqe e) → may_complete e res flags data = true → of_conn (e_sqe e) = true →
  ((op_of (e_sqe e) =? OP_SEND) && has_bits flags CQE_F_MORE = true ∧ is_send (e_sqe e) = true ∧
    tx_zc (co_tx c) = None ∧
    ∃ off d, remains e flags = [mkEntry (SqNotif off d) false (e_ud e)] ∧ held c (SqNotif off d)) ∨
  ((op_of (e_sqe e) =? OP_SEND) && has_bits flags CQE_F_MORE = false ∧ remains e flags = []).
Proof.
  intros Hh Hm Hc. unfold remains, may_complete in *.
  destruct (has_bits flags CQE_F_MORE); [|right; by rewrite andb_false_r].
  destruct (e_sqe e); simpl in *; try (by right); try done; [|by rewrite andb_false_r in Hm].
  rewrite !andb_true_iff in Hm. destruct Hm as [[_ ->] _], Hh as (_ & ? & -> & ? & Hz). left.
  split_and!; try done; [by apply Hz|]. eexists _, _. split; [done|]. split_and!; auto.
Qed.

(** The accounting after the completion of [e]. *)
Lemma retire_core j c F1 e F2 res flags data :
  core j c (F1 ++ e :: F2) → may_complete e res flags data = true → of_conn (e_sqe e) = true →
  core j (retire (op_of (e_sqe e)) flags c) (F1 ++ remains e flags ++ F2).
Proof.
  intros Hk Hm Hc. pose proof (k_held _ _ _ Hk) as Hh. pose proof (k_ud _ _ _ Hk) as Hu.
  rewrite Forall_app, Forall_cons in Hh, Hu. destruct Hh as (Hh1 & Hhe & Hh2), Hu as (Hu1 & Hue & Hu2).
  pose proof (k_inflight _ _ _ Hk) as Hi. rewrite length_app in Hi. simpl in Hi.
  assert (∀ op, conn_ud op j (retire (op_of (e_sqe e)) flags c) = conn_ud op j c) as Eu.
  { intros op. unfold retire. by destruct (_ && _). }
  constructor.
  - assert (Forall (λ x, e_ud x = conn_ud (op_of (e_sqe x)) j c) (F1 ++ remains e flags ++ F2)) as Hall.
    { rewrite !Forall_app. split_and!; [done| |done]. eapply Forall_impl; [by apply remains_kind|].
      intros x (-> & -> & _). done. }
    eapply Forall_impl; [exact Hall|]. intros x Hx. simpl in *. by rewrite Eu.
  - apply retire_held. rewrite !Forall_app. split_and!; [done| |done].
    destruct (retire_more c e res flags data) as [(_ & _ & _ & off & d & -> & Hd)|[_ ->]]; try done.
    constructor; [exact Hd|done].
  - rewrite !length_app. unfold retire.
    destruct (retire_more c e res flags data) as [(-> & _ & _ & off & d & -> & Hd)|[-> ->]]; try done; simpl; lia.
  - unfold retire. destruct (_ && _); apply Hk.
  - unfold retire. destruct (_ && _); apply Hk.
Qed.

(** What is left for the connection, kind by kind. *)
Record leftover (c c1 : Conn) (q : Sqe) (es es' : list Entry) : Prop := {
  f_recv : cnt is_recv es' = (if rx_inflight (co_rx c1) then 1 else 0) - (if is_recv q then 1 else 0);
  f_notif : cnt is_notif es' = tx_notif_pending (co_tx c1) - (if is_notif q then 1 else 0);
  f_ino : cnt is_ino es' = (if bool_decide (is_Some (in_fd (co_in c1))) then 1 else 0) - (if is_ino q then 1 else 0);
  f_send : cnt is_send es' = cnt is_send es - (if is_send q then 1 else 0);
  f_in : cnt is_in es' = cnt is_in es - (if is_in q then 1 else 0);
  f_out : cnt is_out es' = cnt is_out es - (if is_out q then 1 else 0);
  f_tx : co_tx c1 = tx_set_notif (tx_notif_pending (co_tx c1)) (co_tx c);
  f_same : tx_zc (co_tx c) = None ∨ tx_notif_pending (co_tx c1) = tx_notif_pending (co_tx c);
  f_rx : co_rx c1 = co_rx c ∧ co_in c1 = co_in c ∧ co_pipe c1 = co_pipe c ∧ co_closing c1 = co_closing c ∧ co_fd c1 = co_fd c }.

Lemma retire_left c F1 e F2 res flags data :
  common true c (F1 ++ e :: F2) → held c (e_sqe e) → may_complete e res flags data = true → of_conn (e_sqe e) = true →
  leftover c (retire (op_of (e_sqe e)) flags c) (e_sqe e) (F1 ++ e :: F2) (F1 ++ remains e flags ++ F2).
Proof.
  intros [Hr Hn Hw _] Hh Hm Hc. unfold retire.
  destruct (retire_more c e res flags data) as [(-> & Hs & Hz & off & d & -> & Hd)|[-> ->]]; try done;
    constructor; rewrite ?(cnt_swap _ _ e), ?cnt_cons, ?cnt_nil, ?Hr, ?Hn, ?Hw; simpl; try lia;
    try (by split_and!); try (by left); try (by right); by destruct (co_tx c).
Qed.

(** After a completion that is neither a receive, a notification nor an
    inotify read. *)
Lemma left_common c c1 q es es' :
  leftover c c1 q es es' → is_recv q = false → is_notif q = false → is_ino q = false → common true c1 es'.
Proof. intros [Hr Hn Hw] E1 E2 E3. rewrite E1, E2, E3 in *. constructor; simpl; [lia|lia|lia|done]. Qed.

(** One step of a zero-copy read has completed. *)
Lemma left_zc j c c1 q es es' z :
  leftover c c1 q es es' → core j c1 es' → co_closing c = false → mode_ok c es →
  is_send q || is_in q || is_out q = true → tx_zc (co_tx c) = Some z →
  linked j c1 es' z ∨
  (unlinked j c1 es' z ∧ tx_mode (co_tx c1) = tx_mode (co_tx c) ∧
   match tx_mode (co_tx c) with
   | ZcIn => is_in q = true
   | ZcHdr => is_send q = true ∧ tx_is_zc (co_tx c1) = false
   | ZcOut => is_out q = true
   | _ => False
   end).
Proof.
  intros Hl Hk Hcl Hm Hq Hz. pose proof Hl as [Hr Hn Hw Hs Hi Ho Ht [Hsm|Hsm] (Erx & Ein & Ep & Ec & Ef)]; [congruence|].
  assert (common true c1 es') as Hco by (eapply left_common; [done|by destruct q..]).
  assert (tx_zc (co_tx c1) = Some z) as Hz1 by (by rewrite Ht).
  assert (tx_mode (co_tx c1) = tx_mode (co_tx c)) as Em by (by rewrite Ht).
  assert (zc_side c → zc_side c1) as Hside.
  { unfold zc_side. rewrite Ep, Hsm. intros ? . by rewrite Ht. }
  pose proof (cnt_nonneg is_send es'). pose proof (cnt_nonneg is_in es'). pose proof (cnt_nonneg is_out es').
  unfold mode_ok in Hm. rewrite Hz in Hm. unfold tx_cnt in Hm.
  destruct (tx_mode (co_tx c)) eqn:E; try done.
  - destruct Hm as ((T1 & T2 & T3) & El & Hsd). right.
    destruct q; simpl in *; try done; try lia. split_and!; try done. constructor; auto. constructor; try done; [congruence|].
    unfold tx_cnt. lia.
  - destruct Hm as ((T1 & T2 & T3) & El & Ez & Hsd). right.
    destruct q; simpl in *; try done; try lia. split_and!; try done; [|by rewrite Ht]. constructor; auto.
    constructor; try done; [congruence|]. unfold tx_cnt. lia.
  - destruct Hm as [Hsd Hm]. destruct (zc_linked z) eqn:El.
    + left. constructor; auto; [congruence|..]; destruct q; simpl in *; try done; lia.
    + destruct Hm as (T1 & T2 & T3). right.
      destruct q; simpl in *; try done; try lia. split_and!; try done. constructor; auto. constructor; try done; [congruence|].
      unfold tx_cnt. lia.
Qed.
(** Only the receive, or only the notify side is done. *)
Lemma left_mode c c1 q es es' :
  leftover c c1 q es es' → is_send q || is_in q || is_out q = false →
  tx_notif_pending (co_tx c1) = tx_notif_pending (co_tx c) → mode_ok c es → mode_ok c1 es'.
Proof.
  intros [_ _ _ Hs Hi Ho Ht _ (_ & _ & Ep & _)] Hq En Hm. apply orb_false_iff in Hq as [Hq Eo].
  apply orb_false_iff in Hq as [Es Ei]. rewrite Es, Ei, Eo, Z.sub_0_r in *.
  rewrite En in Ht. assert (co_tx c1 = co_tx c) as E by (rewrite Ht; by destruct (co_tx c)).
  unfold mode_ok, tx_cnt, zc_side in *. by rewrite E, Ep, Hs, Hi, Ho.
Qed.

Section completion.
Context `{Env} `{!OsLaws} `{!CryptoLaws} (srv : Srv) (Hsrv : srv_ok srv) (armed : list Entry) (nm : Z).
Abbreviation any := (λ _ : RSt, True).
Abbreviation stable := (worker_inv srv armed nm None).
Abbreviation at_conn := (at_conn srv armed nm).

Lemma t_on_conn_cqe j c F1 e F2 res flags data :
  core j c (F1 ++ e :: F2) → co_closing c = false → common true c (F1 ++ e :: F2) → mode_ok c (F1 ++ e :: F2) →
  listening c → may_complete e res flags data = true → of_conn (e_sqe e) = true →
  triple (at_conn j (retire (op_of (e_sqe e)) flags c) (F1 ++ remains e flags ++ F2))
    (on_conn_cqe srv (op_of (e_sqe e)) j res flags) (λ _, stable) any.
Proof.
  intros Hk Hcl Hco Hm Hli Hmay Hof. pose proof (retire_core _ _ _ _ _ _ _ _ Hk Hmay Hof) as Hk1.
  assert (held c (e_sqe e)) as Hh.
  { pose proof (k_held _ _ _ Hk) as Hf. rewrite Forall_app, Forall_cons in Hf. apply Hf. }
  pose proof (retire_left _ _ _ _ _ _ _ Hco Hh Hmay Hof) as Hl.
  assert (is_send (e_sqe e) = false → tx_notif_pending (co_tx (retire (op_of (e_sqe e)) flags c)) = tx_notif_pending (co_tx c)) as Hsame.
  { intros Hs. unfold retire. destruct (retire_more c e res flags data) as [(_ & ? & _)|[-> _]]; congruence || done. }
  set (c1 := retire _ _ _) in *. set (es := F1 ++ e :: F2) in *. set (es' := F1 ++ _ ++ F2) in *. clearbody c1 es es'. clear F1 F2.
  unfold may_complete in Hmay. pose proof Hl as [Hr Hn Hw Hs Hi Ho Ht Hsm (Erx & Ein & Ep & Ec & Ef)].
  pose proof (cnt_nonneg is_send es'). pose proof (cnt_nonneg is_in es'). pose proof (cnt_nonneg is_out es').
  pose proof (cnt_nonneg is_notif es').
  unfold on_conn_cqe. destruct (e_sqe e) eqn:Eq; try done; simpl in *.
  - destruct Hh as (_ & -> & Hn1 & Hpos). apply t_on_recv; [done| |rewrite Erx; lia|rewrite Erx; lia].
    assert (mode_ok c1 es') as Hm1 by (eapply left_mode; [exact Hl|done|by apply Hsame|done]).
    split_and!; [|simpl; congruence| |done].
    + destruct Hk1. by constructor.
    + pose proof (cnt_nonneg is_recv es'). constructor; simpl; try done; destruct (rx_inflight (co_rx c1)); lia.
  - rewrite !andb_true_iff in Hmay. destruct Hmay as [[Hres Hmz] ->%negb_true_iff]. destruct Hh as (_ & Hoff & -> & -> & Hz).
    rewrite length_drop in Hres. apply Z.leb_le in Hres. pose proof (k_txoff _ _ _ Hk) as Hto.
    apply t_on_send; [done| |rewrite Ht; simpl; lia]. destruct (tx_zc (co_tx c)) as [z|] eqn:Ez.
    + destruct (left_zc j c c1 _ es es' z Hl Hk1 Hcl Hm eq_refl Ez) as [?|(Hu & Em & Hc)]; [left; by exists z|].
      right. right. exists z. rewrite Em. by destruct (tx_mode (co_tx c)); [| | | |destruct Hc|].
    + right. left. unfold mode_ok, tx_cnt in Hm. rewrite Ez in Hm.
      destruct (tx_mode (co_tx c)) eqn:Em; try done; [naive_solver lia| |naive_solver lia].
      split_and!; [|by rewrite Ht..]. constructor; try done; [congruence|by eapply left_common|]. unfold tx_cnt. lia.
  - rewrite andb_true_iff in Hmay. destruct Hmay as [-> _]. specialize (Hsame eq_refl).
    assert (mode_ok c1 es') as Hm1 by (eapply left_mode; [exact Hl|done|by apply Hsame|done]).
    apply t_on_send_notif; try done; [congruence|lia|]. constructor; simpl; try lia; done.
  - destruct Hh as (z & r & Ez & _). apply t_on_splice_in; [done|].
    destruct (left_zc j c c1 _ es es' z Hl Hk1 Hcl Hm eq_refl Ez) as [?|(Hu & Em & Hc)]; [left; by exists z|].
    right. exists z. rewrite Em. by destruct (tx_mode (co_tx c)); [..|destruct Hc|].
  - destruct Hh as (_ & [z Ez] & _). apply t_on_splice_out; [done|].
    destruct (left_zc j c c1 _ es es' z Hl Hk1 Hcl Hm eq_refl Ez) as [?|(Hu & Em & Hc)]; [left; by exists z|].
    right. exists z. rewrite Em. by destruct (tx_mode (co_tx c)); [..|destruct Hc|].
  - destruct Hh as [Hif _]. apply t_on_inotify; [done|]. rewrite Ein, Hif in Hw. simpl in Hw.
    assert (mode_ok c1 es') as Hm1 by (eapply left_mode; [exact Hl|done|by apply Hsame|done]).
    split_and!; [done|congruence| |split; [done|unfold listening; rewrite Erx, Ht; exact Hli]].
    constructor; simpl; [lia|lia|lia|]. intros _. by rewrite Ein, Hif.
Qed.
End completion.

(** ** Handling a completion *)
Lemma remains_all e flags (P : Entry → Prop) :
  P e → (∀ off d, op_of (e_sqe e) = OP_SEND → of_conn (e_sqe e) = true → P (mkEntry (SqNotif off d) false (e_ud e))) →
  Forall P (remains e flags).
Proof.
  intros He Hn. unfold remains. destruct (has_bits _ _); [|done].
  destruct (e_sqe e); simpl in *; try done; (constructor; [by try apply Hn|done]).
Qed.

Lemma remains_slot e flags : Forall (λ x, slot_of x = slot_of e) (remains e flags).
Proof. apply remains_all; [done|]. intros off d _ Hc. unfold slot_of. simpl. by rewrite Hc. Qed.

Lemma remains_tagged e flags : tagged e → Forall tagged (remains e flags).
Proof. intros Ht. apply remains_all; [done|]. intros off d Ho _. unfold tagged in *. cbn [e_ud e_sqe op_of]. by rewrite Ht, Ho. Qed.

Lemma filter_slot_remains j e flags :
  filter (λ x, slot_of x = Some j) (remains e flags) = if decide (slot_of e = Some j) then remains e flags else [].
Proof.
  pose proof (remains_slot e flags) as Hr. induction Hr as [|x l Hx _ IH]; [by case_decide|].
  rewrite filter_cons, Hx. case_decide; [by rewrite IH|done].
Qed.

Section handle.
Context `{Env} `{!OsLaws} `{!CryptoLaws} (srv : Srv) (Hsrv : srv_ok srv) (nm : Z).
Abbreviation any := (λ _ : RSt, True).

Lemma ents_other K1 e K2 flags i s :
  slot_of e ≠ Some i → ents (K1 ++ remains e flags ++ K2) i s = ents (K1 ++ e :: K2) i s.
Proof.
  intros He. unfold ents. rewrite !filter_app, filter_slot_remains, filter_cons, !decide_False by done. done.
Qed.

Lemma ents_at K1 e K2 flags j s :
  slot_of e = Some j → ∃ F1 F2, ents (K1 ++ e :: K2) j s = F1 ++ e :: F2 ∧
    ents (K1 ++ remains e flags ++ K2) j s = F1 ++ remains e flags ++ F2.
Proof.
  intros He. exists (filter (λ x, slot_of x = Some j) K1), (filter (λ x, slot_of x = Some j) (K2 ++ r_sq s)).
  unfold ents. rewrite !filter_app, filter_slot_remains, filter_cons, !decide_True by done.
  rewrite <- !app_assoc. done.
Qed.

Lemma tags_swap K1 e K2 flags l :
  Forall tagged ((K1 ++ e :: K2) ++ l) → Forall tagged ((K1 ++ remains e flags ++ K2) ++ l).
Proof. rewrite !Forall_app, Forall_cons. intros ((? & ? & ?) & ?). split_and!; try done. by apply remains_tagged. Qed.

(** The connection of a completion is live, and its memory is there. *)
Lemma conn_entry K1 e K2 j s res flags data :
  worker_inv srv (K1 ++ e :: K2) nm None s → slot_of e = Some j → may_complete e res flags data = true →
  ∃ c F1 F2, dma e data (r_wk s) = Some (wk_set_conns (<[j := Some c]> (wk_conns (r_wk s))) (r_wk s)) ∧
    conn_ok j c (F1 ++ e :: F2) ∧
    at_conn srv (K1 ++ remains e flags ++ K2) nm j c (F1 ++ remains e flags ++ F2)
      (r_set_wk (wk_set_conns (<[j := Some c]> (wk_conns (r_wk s))) (r_wk s)) s).
Proof.
  intros [Hs Hlen Hmax Hgens [Hnd Hfree] Hw Hm Ht] He Hmay. pose proof (Hs j ltac:(done)) as Hj. unfold slot_ok in Hj.
  destruct (ents_at K1 e K2 flags j s He) as (F1 & F2 & E1 & E2). rewrite E1 in Hj.
  destruct (wk_conns (r_wk s) !! j) as [[c|]|] eqn:Ec; [|by destruct F1..]. destruct Hj as [Hok Hg].
  destruct (dma_conn_ok j c _ e res flags data Hok) as (c' & Ed & Hok' & Eg); [by apply elem_of_app; right; left|done|].
  exists c', F1, F2. split_and!; [|done|].
  - unfold dma. rewrite He, Ec. pose proof (k_ud _ _ _ (proj1 Hok)) as Hu. rewrite Forall_app, Forall_cons in Hu.
    destruct Hu as (_ & -> & _). rewrite Z.eqb_refl, Ed. done.
  - pose proof (lookup_lt_Some _ _ _ Ec). constructor; simpl; [|by apply list_lookup_insert_eq|by rewrite Eg|done].
    constructor; simpl; rewrite ?length_insert; try done.
    + intros i Hi. assert (i ≠ j) by congruence. specialize (Hs i ltac:(done)). unfold slot_ok in *. simpl.
      rewrite list_lookup_insert_ne by done. erewrite (ents_same _ i s) by done. rewrite ents_other by congruence. done.
    + split; [done|]. intros i Hi. rewrite list_lookup_insert_ne; [by apply Hfree|]. intros <-. by rewrite (Hfree _ Hi) in Ec.
    + by apply tags_swap.
Qed.

Lemma other_entry K1 e K2 s flags :
  worker_inv srv (K1 ++ e :: K2) nm None s → slot_of e = None →
  worker_inv srv (K1 ++ remains e flags ++ K2) nm None s.
Proof.
  intros [Hs Hlen Hmax Hgens Hfree Hw Hm Ht] He. constructor; try done; [|by apply tags_swap].
  intros i Hi. specialize (Hs i Hi). unfold slot_ok in *. rewrite ents_other by congruence. done.
Qed.

Lemma t_conn_cqe armed j c F1 e F2 res flags data :
  slot_of e = Some j → conn_ok j c (F1 ++ e :: F2) → may_complete e res flags data = true →
  triple (at_conn srv armed nm j c (F1 ++ remains e flags ++ F2)) (handle_cqe srv (e_ud e) res flags)
    (λ _, worker_inv srv armed nm None) any.
Proof.
  intros He [Hk Hok] Hmay s Hs. assert (of_conn (e_sqe e) = true) as Hof.
  { unfold slot_of in He. by destruct (of_conn _). }
  assert (ud_parts (e_ud e) = (op_of (e_sqe e), Z.of_nat j, co_gen c, 0)) as Eu.
  { pose proof (k_ud _ _ _ Hk) as Hu. rewrite Forall_app, Forall_cons in Hu. destruct Hu as (_ & -> & _).
    destruct Hs as [Hv Hc Hg _]. pose proof (lookup_lt_Some _ _ _ Hc). pose proof (v_max _ _ _ _ _ Hv). unfold MAX_CONN_SLOTS in *.
    pose proof (v_gens _ _ _ _ _ Hv) as Hgs. rewrite Forall_forall in Hgs.
    specialize (Hgs _ (list_elem_of_lookup_2 _ _ _ Hg)).
    unfold conn_ud. apply ud_parts_ud; [by destruct (e_sqe e)|lia|lia|lia]. }
  unfold handle_cqe. rewrite Eu. rewrite Nat2Z.id. revert s Hs.
  assert (op_of (e_sqe e) =? OP_ACCEPT = false ∧ op_of (e_sqe e) =? OP_WAKE = false ∧ op_of (e_sqe e) =? OP_CANCEL = false)
    as (-> & -> & ->) by (by destruct (e_sqe e)).
  apply t_worker. intros w ->. rewrite Z.eqb_refl. apply t_upd_conn; [unfold retire; by destruct (_ && _)|].
  pose proof (retire_core _ _ _ _ _ _ _ _ Hk Hmay Hof) as Hk1. apply t_conn_mut.
  assert (co_closing (retire (op_of (e_sqe e)) flags c) = co_closing c) as -> by (unfold retire; by destruct (_ && _)).
  destruct (co_closing c) eqn:Ecl.
  - pose proof (k_inflight _ _ _ Hk1) as Hi. destruct (_ =? 0) eqn:E0.
    + apply Z.eqb_eq in E0. rewrite E0 in Hi.
      destruct (F1 ++ remains e flags ++ F2); [apply t_finalize|simpl in Hi; lia].
    + apply triple_ret. intros s Hs. eapply at_done; [exact Hs|]. split; [done|].
      assert (co_closing (retire (op_of (e_sqe e)) flags c) = true) as -> by (unfold retire; by destruct (_ && _)).
      intros E. rewrite E in Hi. by apply Z.eqb_neq in E0.
  - destruct Hok as [[]]. by eapply t_on_conn_cqe.
Qed.

Lemma t_other_cqe armed e res flags data :
  slot_of e = None → tagged e → may_complete e res flags data = true →
  triple (worker_inv srv armed nm None) (handle_cqe srv (e_ud e) res flags) (λ _, worker_inv srv armed nm None) any.
Proof.
  intros He Ht Hmay. unfold tagged in Ht. unfold slot_of in He. unfold handle_cqe.
  destruct (ud_parts (e_ud e)) as [[[op i] gen] x]. simpl in Ht, He. subst op.
  destruct (e_sqe e); simpl in *; try done.
  - eapply (triple_bind _ _ _ (λ _, worker_inv srv armed nm None)).
    + destruct (has_bits _ _); [by apply triple_ret|apply t_arm_accept].
    + intros ?. destruct (res <? 0); [by apply triple_ret|apply t_on_accept].
  - by apply t_on_wake.
  - by apply triple_ret.
Qed.

Lemma cqe_ok K1 e K2 s res flags data :
  worker_inv srv (K1 ++ e :: K2) nm None s → may_complete e res flags data = true →
  ∃ k', dma e data (r_wk s) = Some k' ∧
  let '(r, s') := handle_cqe srv (e_ud e) res flags (r_set_wk k' s) in
  match r with inl _ => worker_inv srv (K1 ++ remains e flags ++ K2) nm None s' | inr x => x ≠ Panic end.
Proof.
  intros Hs Hmay. destruct (slot_of e) as [j|] eqn:He.
  - destruct (conn_entry K1 e K2 j s res flags data Hs He Hmay) as (c & F1 & F2 & -> & Hok & Hat).
    eexists. split; [done|]. pose proof (t_conn_cqe _ _ _ _ _ _ _ _ _ He Hok Hmay _ Hat) as Ht.
    destruct (handle_cqe _ _ _ _ _) as [[]]; apply Ht.
  - exists (r_wk s). unfold dma. rewrite He. split; [done|].
    assert (tagged e) as Htag. { pose proof (v_tags _ _ _ _ _ Hs) as Ht. rewrite !Forall_app, Forall_cons in Ht. apply Ht. }
    pose proof (t_other_cqe (K1 ++ remains e flags ++ K2) e res flags data He Htag Hmay (r_set_wk (r_wk s) s)) as Ht.
    destruct (handle_cqe _ _ _ _ _) as [[]]; apply Ht; destruct s; by apply other_entry.
Qed.
End handle.

(** ** Every reachable state *)
Section reachable.
Context `{Env} `{!OsLaws} `{!CryptoLaws} (srv : Srv) (Hsrv : srv_ok srv).

Definition sys_inv (nm : Z) (y : Sys) : Prop :=
  ∀ i k K, y_workers y !! i = Some (k, K) → worker_inv srv K nm None (mkRSt (y_world y) k [] (y_frames y) (y_obs y)).

(** What was queued is what the kernel holds next. *)
Lemma submit_inv K nm s :
  worker_inv srv K nm None s → worker_inv srv (K ++ r_sq s) nm None (mkRSt (r_w s) (r_wk s) [] (r_frames s) (r_obs s)).
Proof.
  intros [Hs ? ? ? ? ? ? Ht]. constructor; try done; [|by rewrite app_nil_r].
  intros i Hi. specialize (Hs i Hi). unfold slot_ok, ents in *. simpl. by rewrite app_nil_r.
Qed.

(** Another worker's step changes only the world. *)
Lemma other_world K K' nm k w n o s :
  worker_inv srv K nm None (mkRSt w k [] n o) → worker_inv srv K' nm None s →
  worker_inv srv K nm None (mkRSt (r_w s) k [] (r_frames s) (r_obs s)).
Proof. intros [] Hs. constructor; try done; [apply Hs|]. simpl in *. split; [naive_solver|apply Hs]. Qed.

Lemma efd_inv K nm k w n o o' e :
  worker_inv srv K nm None (mkRSt w k [] n o) → worker_inv srv K nm None (mkRSt (read_efd e w) k [] n o').
Proof.
  intros Hs. assert (worker_inv srv K nm None (mkRSt w k [] n o')) as Hs' by (destruct Hs; by constructor).
  unfold read_efd. destruct (e_sqe e); try done.
  apply (stable_world srv K nm _ _ Hs'); [|done]. simpl. rewrite length_alter. apply (v_mail _ _ _ _ _ Hs).
Qed.

Lemma dma_wid e data k k' : dma e data k = Some k' → wk_wid k' = wk_wid k.
Proof.
  unfold dma. intros E. repeat case_match; try done; [|by injection E as <-].
  apply bind_Some in E as (c0 & _ & [= <-]). done.
Qed.

Lemma arrival_dma e data k k' : dma e data k = Some k' → arrival k' e data = arrival k e data.
Proof. intros E. unfold arrival. by rewrite (dma_wid _ _ _ _ E). Qed.

Lemma sys_step_inv nm y y' : sys_inv nm y → sys_step srv y y' → sys_inv nm y'.
Proof.
  intros Hy Hst. destruct Hst as [y i k k' K1 e K2 res flags data s Hi Hmay Hd Hh]. pose proof (efd_inv _ _ _ _ _ _ (y_obs y ++ arrival k e data) e (Hy _ _ _ Hi)) as Hs.
  destruct (cqe_ok srv Hsrv nm _ _ _ _ _ _ _ Hs Hmay) as (k1 & Hd1 & Hr). simpl in Hd1. rewrite Hd in Hd1.
  injection Hd1 as <-. rewrite <-(arrival_dma _ _ _ _ Hd) in Hr. change (r_set_wk k' _) with (deliver y k' e data) in Hr. rewrite Hh in Hr.
  intros a ka Ka. simpl. destruct (decide (a = i)) as [->|Hne].
  - rewrite list_lookup_insert_eq by (by eapply lookup_lt_Some). intros [= <- <-]. by apply submit_inv.
  - rewrite list_lookup_insert_ne by done. intros Ha. eapply other_world; [by apply Hy in Ha|exact Hr].
Qed.

Lemma boot_inv w frames ls :
  initial w → len (w_mailboxes w) = len ls → FRAME_CONNECTS * Z.of_nat frames < 2 ^ 32 →
  sys_inv (len ls) (sys_boot w frames ls).
Proof.
  intros [Hw _] Hm Hb i k K. simpl. rewrite list_lookup_imap. intros ([fd zc] & Hi & E)%fmap_Some.
  unfold boot_worker in E. cbn [fst snd] in E. injection E as -> ->.
  pose proof (lookup_lt_Some _ _ _ Hi).
  set (s0 := mkRSt w (worker_new (Z.of_nat i) fd zc) [] frames []).
  assert (worker_inv srv [] (len ls) None s0) as Hinit.
  { constructor; simpl; [by intros j _|done|done|constructor| | |by split; [lia|]|constructor].
    - split; [constructor|]. by intros j ?%elem_of_nil.
    - exists 0. rewrite Hw. split_and!; [done|done|apply map_Forall_empty]. }
  pose proof (triple_bind _ arm_accept (λ _, arm_wake) (λ _, worker_inv srv [] (len ls) None) (λ _, worker_inv srv [] (len ls) None) _
    (t_arm_accept srv [] (len ls)) (λ _, t_arm_wake srv [] (len ls)) s0 Hinit) as Hr.
  unfold boot_worker, worker_start, arm_accept, arm_wake, my_mailbox, sq_push, mbind, ST_bind, gets, modify in *. simpl in *.
  rewrite Nat2Z.id in *. destruct (w_mailboxes w !! i) eqn:E; [|apply lookup_ge_None in E; lia]. simpl in *.
  by apply submit_inv in Hr.
Qed.

Lemma reachable_sys w frames ls y :
  initial w → len (w_mailboxes w) = len ls → FRAME_CONNECTS * Z.of_nat frames < 2 ^ 32 →
  rtc (sys_step srv) (sys_boot w frames ls) y → sys_inv (len ls) y.
Proof.
  intros Hw Hm Hb Hr. pose proof (boot_inv w frames ls Hw Hm Hb) as Hinit. induction Hr as [|y1 y2 y3 Hst _ IH]; [done|].
  by eapply IH, sys_step_inv.
Qed.

Lemma reachable_completion w frames ls y i k K1 e K2 res flags data :
  initial w → len (w_mailboxes w) = len ls → FRAME_CONNECTS * Z.of_nat frames < 2 ^ 32 →
  rtc (sys_step srv) (sys_boot w frames ls) y →
  y_workers y !! i = Some (k, K1 ++ e :: K2) → may_complete e res flags data = true →
  ∃ k', dma e data k = Some k' ∧ (handle_cqe srv (e_ud e) res flags (deliver y k' e data)).1 ≠ inr Panic.
Proof.
  intros Hw Hm Hb Hr Hi Hmay. pose proof (reachable_sys w frames ls y Hw Hm Hb Hr) as Hy.
  pose proof (efd_inv _ _ _ _ _ _ (y_obs y ++ arrival k e data) e (Hy _ _ _ Hi)) as Hs.
  destruct (cqe_ok srv Hsrv _ _ _ _ _ _ _ _ Hs Hmay) as (k1 & Hd & Hh). exists k1. split; [exact Hd|].
  simpl in Hd. rewrite <-(arrival_dma _ _ _ _ Hd) in Hh. change (r_set_wk k1 _) with (deliver y k1 e data) in Hh. destruct (handle_cqe _ _ _ _ _) as [[u|x] s']; simpl; congruence.
Qed.


(** C13: The accounting that decides when a connection may be torn down is
    exact. In every reachable state, a connection's in-flight counter is the
    number of its entries the kernel holds; an emptied slot has none, so
    nothing the kernel holds outlives its connection; and a connection that
    is closing still has one, so its last completion finalizes it. *)
Theorem inflight_is_exact w frames ls y i k K j :
  initial w → len (w_mailboxes w) = len ls → FRAME_CONNECTS * Z.of_nat frames < 2 ^ 32 →
  rtc (sys_step srv) (sys_boot w frames ls) y → y_workers y !! i = Some (k, K) →
  let mine := filter (λ e, slot_of e = Some j) K in
  match wk_conns k !! j with
  | Some (Some c) => co_inflight c = len mine ∧ (co_closing c = true → mine ≠ [])
  | _ => mine = []
  end.
Proof.
  intros Hw Hm Hb Hr Hi mine. pose proof (reachable_sys w frames ls y Hw Hm Hb Hr _ _ _ Hi) as Hs.
  pose proof (v_slots _ _ _ _ _ Hs j ltac:(done)) as Hj. unfold slot_ok, ents in Hj. cbn [r_wk r_sq] in Hj.
  rewrite app_nil_r in Hj. destruct (wk_conns k !! j) as [[c|]|]; try done. destruct Hj as [[Hk Hok] _].
  split; [apply Hk|]. intros E. by rewrite E in Hok.
Qed.

End reachable.

(** ** Runs *)
Section run.
Context `{Env} (srv : Srv).

(** The [n]th entry of worker [i] completes. *)
Definition next (y : Sys) (q : nat * nat * Z * Z * bytes) : option Sys :=
  let '(i, n, res, flags, data) := q in
  '(k, K) ← y_workers y !! i; e ← K !! n;
  if may_complete e res flags data then
    k' ← dma e data k;
    match handle_cqe srv (e_ud e) res flags (deliver y k' e data) with
    | (inl _, s) => Some (mkSys (r_w s) (r_frames s)
        (<[i := (r_wk s, (take n K ++ remains e flags ++ drop (S n) K) ++ r_sq s)]> (y_workers y)) (r_obs s))
    | _ => None
    end
  else None.

Fixpoint run (y : Sys) (qs : list (nat * nat * Z * Z * bytes)) : option Sys :=
  match qs with [] => Some y | q :: qs => y ← next y q; run y qs end.

Lemma next_step y q y' : next y q = Some y' → sys_step srv y y'.
Proof.
  destruct q as [[[[i n] res] flags] data]. unfold next. intros ([k K] & Hi & Hr)%bind_Some.
  apply bind_Some in Hr as (e & He & Hr). destruct (may_complete e res flags data) eqn:Em; [|done].
  apply bind_Some in Hr as (k' & Hd & Hr). destruct (handle_cqe _ _ _ _ _) as [[[]|x] s] eqn:Eh; [|done].
  injection Hr as <-. eapply step_cqe; try done. by rewrite (take_drop_middle _ _ _ He).
Qed.

Lemma run_steps qs : ∀ y y', run y qs = Some y' → rtc (sys_step srv) y y'.
Proof.
  induction qs as [|q qs IH]; intros y y'; simpl; [intros [= ->]; constructor|].
  intros (y1 & Hn & Hr)%bind_Some. eapply rtc_l; [by eapply next_step|by apply IH].
Qed.
End run.

(** ** A run: a client connects, sends an ECHO, and the answer is queued *)
Definition ring_world : @World mem_env := @mkWorld mem_env (@mkOsSt mem_env mem_fs []) ∅ ∅ [mailbox_new].
Definition ring_start : @Sys mem_env := @sys_boot mem_env ring_world 4 [(3, true)].
Definition ring_echo : bytes :=
  let frame := sample_frame cmd.ECHO 0 0 0 [4; 0; 0; 0] in nbt_hdr (len frame) ++ frame.
Definition ring_run : list (nat * nat * Z * Z * bytes) :=
  [(0%nat, 0%nat, 7, CQE_F_MORE, []); (0%nat, 2%nat, len ring_echo, 0, ring_echo)].

(** The kernel's entries of the first worker, and the one of the answer. *)
Definition held_entries `{Env} (y : Sys) : list Entry := default [] (snd <$> y_workers y !! 0%nat).
Definition ring_send : Entry :=
  mkEntry (SqSend 7 0
    ([0; 0; 0; 68] ++ ([] ▷ pbytes SMB2_PROTO ▷ p16 64 ▷ p16 1 ▷ p32 0 ▷ p16 cmd.ECHO ▷ p16 1 ▷ p32 1 ▷ zeros 44
       ▷ p32 4)) 0 false) false (ud OP_SEND 0 1 0).

Definition ring_before : list Entry :=
  [mkEntry (SqAccept true 3) false (ud OP_ACCEPT 0 0 0); mkEntry (SqWake 0) false (ud OP_WAKE 0 0 0)].
Definition ring_after : list Entry := [mkEntry (SqRecv 7 0 RX_INITIAL) false (ud OP_RECV 0 1 0)].

Lemma ring_run_spec :
  ∃ y k, @run mem_env sample_srv ring_start ring_run = Some y ∧
    y_workers y !! 0%nat = Some (k, ring_before ++ ring_send :: ring_after).
Proof.
  assert (held_entries <$> @run mem_env sample_srv ring_start ring_run = Some (ring_before ++ ring_send :: ring_after))
    as E by (by vm_compute).
  apply fmap_Some in E as (y & -> & E). exists y. unfold held_entries in E.
  destruct (y_workers y !! 0%nat) as [[k K]|]; [|done]. exists k. split; [done|]. by rewrite E.
Qed.


Lemma inflight_is_exact_witness :
  ∃ y k K, rtc (@sys_step mem_env sample_srv) ring_start y ∧ y_workers y !! 0%nat = Some (k, K) ∧
    length (filter (λ e, slot_of e = Some 0%nat) K) = 2%nat ∧
    match wk_conns k !! 0%nat with
    | Some (Some c) => co_inflight c = len (filter (λ e, slot_of e = Some 0%nat) K) ∧
        (co_closing c = true → filter (λ e, slot_of e = Some 0%nat) K ≠ [])
    | _ => filter (λ e, slot_of e = Some 0%nat) K = []
    end.
Proof.
  destruct ring_run_spec as (y & k & Hr & Hy). apply run_steps in Hr. eexists y, k, _.
  split; [exact Hr|]. split; [exact Hy|]. split; [by vm_compute|].
  apply (@inflight_is_exact mem_env _ _ sample_srv sample_srv_ok ring_world 4 [(3, true)] y 0 k _ 0); [done|done|done|exact Hr|exact Hy].
Defined.

(** ** A cancelled CHANGE_NOTIFY *)
Definition cancel_frame (aid : Z) : bytes :=
  let frame := [] ▷ pbytes SMB2_PROTO ▷ p16 64 ▷ p16 1 ▷ p32 0 ▷ p16 cmd.CANCEL ▷ p16 1 ▷ p32 FLAG_ASYNC ▷ p32 0 ▷ p64 0
     ▷ p64 aid ▷ p64 0 ▷ zeros 16 ▷ p16 4 ▷ p16 0 in
  nbt_hdr (len frame) ++ frame.

(** Two requests are pending on one directory, so both have its watch
    descriptor. *)
Definition pend_of (aid : Z) : NotifyPend :=
  mkNotifyPend aid 5 [47; 115] false 1 4096 (mkAsyncMeta 1 1 0 aid false).
Definition watching_conn : Conn :=
  let p := pc_new sample_srv 0 0 1 in
  let p := pc_set_notify 3 [] [] [(5, 1); (5, 2)] p in
  let c := co_set_in (mkIn (Some 9) (replicate 4096 0) [mkWatch 1 (pend_of 1); mkWatch 1 (pend_of 2)] false)
             (conn_new 7 1 p) in
  let f := cancel_frame 1 in
  co_set_inflight 2 (co_set_rx (mkRx (overwrite 0 f (rx_buf (co_rx c))) 0 0 true) c).
Definition watching : @RSt mem_env :=
  @mkRSt mem_env ring_world (mkWorker 0 3 [Some watching_conn] [1] [] 0 true) [] 4 [].

(** Two CHANGE_NOTIFY requests wait on one directory and the client
    cancels one of them. The CANCEL has no response of its own, so when the
    frame loop ends nothing is buffered; the final response of the cancelled
    request was queued behind the point where the loop takes deferred
    responses. The worker then queues only the next receive: the response
    stays deferred, the transmit side idle, until the client sends something
    or another event arrives (with a single request on the directory, removing
    the watch is such an event). *)
Theorem cancelled_notify_waits :
  let x := @handle_cqe mem_env sample_srv (ud OP_RECV 0 1 0) (len (cancel_frame 1)) 0 watching in
  x.1 = inl tt ∧ (e_sqe <$> r_sq x.2) = [SqRecv 7 0 RX_INITIAL] ∧
  ((λ c, (tx_mode (co_tx c), tx_buf (co_tx c), length (co_deferred c), np_async_id ∘ wt_pend <$> in_watches (co_in c)))
     <$> omap id (wk_conns (r_wk x.2))) = [(Idle, [], 1%nat, [2])].
Proof. by vm_compute. Qed.
