(* ===== verification/Progress.v ===== *)
(** Nothing is forgotten: the kernel always holds an entry that will bring a
    worker back to each of its connections, to its listening socket and to its
    mailbox. *)
From S2P Require Import Prelude Hoare Wire Status Os Sample Lease Vfs Handles Crypto Session Config Smb2 State.
From S2P Require Import Setup Dispatch Confine TreeSafe SessionSafe WorldSafe Appends Uring Reactor ReactorSafe Completions Ring.
Local Open Scope Z_scope.

(** ** Connections *)

(** The entries that move a connection on, by what its transmit side does. *)
Definition moves_on (m : Tx) (q : Sqe) : bool :=
  match m with
  | Idle => is_recv q
  | Send | ZcHdr => is_send q
  | Drain => is_notif q
  | ZcIn => is_in q
  | ZcOut => is_send q || is_in q || is_out q
  end.

Lemma cnt_pos p es : 0 < cnt p es → ∃ e, e ∈ es ∧ p (e_sqe e) = true.
Proof.
  unfold cnt. destruct (filter _ es) as [|e l] eqn:E; [simpl; lia|]. intros _. exists e.
  assert (e ∈ filter (λ e, p (e_sqe e) = true) es) as [? ?]%list_elem_of_filter by (rewrite E; by left). done.
Qed.

Lemma conn_moves j c es :
  conn_ok j c es → ∃ e, e ∈ es ∧ (co_closing c = false → moves_on (tx_mode (co_tx c)) (e_sqe e) = true).
Proof.
  intros [Hk Hok]. destruct (co_closing c).
  { destruct es as [|e es]; [done|]. exists e. by split; [left|]. }
  destruct Hok as [[[Hr Hn _ _] Hm] Hl]. unfold listening in Hl. unfold mode_ok, tx_cnt, zc_side in Hm. cbv zeta in Hm.
  assert (∀ p, 0 < cnt p es → (∀ q, p q = true → moves_on (tx_mode (co_tx c)) q = true) →
    ∃ e, e ∈ es ∧ (false = false → moves_on (tx_mode (co_tx c)) (e_sqe e) = true)) as Hone.
  { intros p (e & He & Hp)%cnt_pos Hq. exists e. split; [done|]. intros _. by apply Hq. }
  destruct (tx_mode (co_tx c)), (tx_zc (co_tx c)) as [z|]; try done.
  - apply (Hone is_recv); [|done]. rewrite Hr, Hl by done. lia.
  - apply (Hone is_send); [lia|done].
  - apply (Hone is_notif); [lia|done].
  - apply (Hone is_in); [lia|done].
  - apply (Hone is_send); [lia|done].
  - destruct Hm as [_ Hm]. pose proof (cnt_nonneg is_send es). pose proof (cnt_nonneg is_in es). pose proof (cnt_nonneg is_out es).
    destruct (decide (0 < cnt is_send es)); [apply (Hone is_send); [done|by intros q Hq; simpl; rewrite Hq]|].
    destruct (decide (0 < cnt is_in es)); [apply (Hone is_in); [done|by intros q Hq; simpl; rewrite Hq, ?orb_true_r]|].
    apply (Hone is_out); [destruct (zc_linked z); lia|by intros q Hq; simpl; rewrite Hq, ?orb_true_r].
Qed.

(** ** The listening socket and the mailbox *)
Definition is_accept (q : Sqe) : bool := match q with SqAccept _ _ => true | _ => false end.
Definition is_wake (q : Sqe) : bool := match q with SqWake _ => true | _ => false end.

Section kept.
Context `{Env} (srv : Srv) (e0 : Entry).

(** An entry that was queued stays queued. *)
Definition queued_in (s : RSt) : Prop := e0 ∈ r_sq s.
Local Abbreviation ok m := (yields queued_in m (λ _, True)).

Lemma q_upd_wk f : ok (upd_wk f).
Proof. by apply yields_modify. Qed.
Lemma q_sq_push e : ok (sq_push e).
Proof. apply yields_modify. intros s Hs. apply elem_of_app. by left. Qed.
Lemma q_observe f : ok (observe f).
Proof. by apply yields_modify. Qed.
Lemma q_set_w f : ok (modify (λ s, r_set_w (f s) s)).
Proof. by apply yields_modify. Qed.
Lemma q_rio {A} (m : IO A) : ok (rio m).
Proof. intros s a s' Hs. unfold rio, zoom. destruct (m _) as [[x|x] o]; [|done]. by intros [= <- <-]. Qed.
Lemma q_proto_run {A} p tx (m : M A) : ok (proto_run p tx m).
Proof. intros s a s' Hs. unfold proto_run. destruct (m _) as [[x|x] s1]; [|done]. by intros [= <- <-]. Qed.
Lemma q_conn_mut j : ok (conn_mut j).
Proof. unfold conn_mut. repeat yields_step. Qed.
#[local] Hint Resolve q_upd_wk q_sq_push q_observe q_set_w q_rio q_proto_run q_conn_mut : yields.
Lemma q_upd_conn j f : ok (upd_conn j f).
Proof. unfold upd_conn. yields_auto. Qed.
#[local] Hint Resolve q_upd_conn : yields.
Lemma q_upd_rx j f : ok (upd_rx j f).
Proof. unfold upd_rx. yields_auto. Qed.
Lemma q_sq_push_conn j e : ok (sq_push_conn j e).
Proof. unfold sq_push_conn. yields_auto. Qed.
Lemma q_drop_conn c : ok (drop_conn c).
Proof. unfold drop_conn, close_fd. yields_auto. Qed.
#[local] Hint Resolve q_upd_rx q_sq_push_conn q_drop_conn : yields.
Lemma q_finalize_close j : ok (finalize_close j).
Proof. unfold finalize_close. yields_auto. Qed.
#[local] Hint Resolve q_finalize_close : yields.
Lemma q_close_conn_ring j : ok (close_conn_ring j).
Proof. unfold close_conn_ring. yields_auto. Qed.
#[local] Hint Resolve q_close_conn_ring : yields.
Lemma q_maybe_arm_recv j : ok (maybe_arm_recv j).
Proof. unfold maybe_arm_recv. yields_auto. Qed.
#[local] Hint Resolve q_maybe_arm_recv : yields.
Lemma q_on_accept fd : ok (on_accept srv fd).
Proof. unfold on_accept, close_fd. yields_auto. Qed.
End kept.

Section system.
Context `{Env} `{!OsLaws} `{!CryptoLaws} (srv : Srv) (Hsrv : srv_ok srv).

(** Handling an accept or a wake-up queues the next one. *)
Lemma accept_again e res flags s s' :
  tagged e → is_accept (e_sqe e) = true → handle_cqe srv (e_ud e) res flags s = (inl tt, s') →
  ∃ x, x ∈ remains e flags ++ r_sq s' ∧ is_accept (e_sqe x) = true.
Proof.
  intros Ht Ha. unfold handle_cqe, tagged in *. destruct (ud_parts (e_ud e)) as [[[op i] gen] sl]. cbn [fst] in Ht. subst op.
  unfold remains. destruct (e_sqe e) as [multi fd| | | | | | | |] eqn:Ee; try done. simpl (_ =? OP_ACCEPT). cbn match.
  destruct (has_bits flags CQE_F_MORE).
  { intros _. exists e. rewrite Ee. by split; [left|]. }
  intros ([] & s1 & E1 & E)%bind_returns. set (x := mkEntry (SqAccept (wk_send_zc_ok (r_wk s)) (wk_listen_fd (r_wk s))) false (ud OP_ACCEPT 0 0 0)).
  exists x. split; [|done]. assert (queued_in x s1) as Hx.
  { unfold arm_accept in E1. apply bind_returns in E1 as (k & s0 & [= <- <-] & [= <-]). unfold queued_in. simpl.
    apply elem_of_app. right. by left. }
  destruct (res <? 0); [by injection E as <-|]. by apply (q_on_accept srv x res _ _ _ Hx E).
Qed.

Lemma wake_again e res flags s s' :
  tagged e → is_wake (e_sqe e) = true → handle_cqe srv (e_ud e) res flags s = (inl tt, s') →
  ∃ x, x ∈ r_sq s' ∧ is_wake (e_sqe x) = true.
Proof.
  intros Ht Ha. unfold handle_cqe, tagged in *. destruct (ud_parts (e_ud e)) as [[[op i] gen] sl]. cbn [fst] in Ht. subst op.
  destruct (e_sqe e) as [|wid| | | | | | |] eqn:Ee; try done. simpl (_ =? OP_ACCEPT). simpl (_ =? OP_WAKE). cbn match.
  unfold on_wake. intros (k & s0 & [= <- <-] & E)%bind_returns. apply bind_returns in E as (mb & s1 & _ & E).
  destruct (mailbox_drain mb) as [breaks mb']. apply bind_returns in E as ([] & s2 & _ & E).
  apply bind_returns in E as ([] & s3 & _ & E). unfold arm_wake in E. apply bind_returns in E as (mb2 & s4 & _ & E).
  apply bind_returns in E as (k4 & s5 & [= <- <-] & [= <-]). eexists. split; [apply elem_of_app; right; by left|done].
Qed.

Definition kept_armed (K : list Entry) : Prop :=
  (∃ e, e ∈ K ∧ is_accept (e_sqe e) = true) ∧ (∃ e, e ∈ K ∧ is_wake (e_sqe e) = true).

(** An entry of another kind than the completed one stays. *)
Lemma still p K1 e K2 (R : list Entry) :
  (∃ x, x ∈ K1 ++ e :: K2 ∧ p (e_sqe x) = true) →
  (p (e_sqe e) = true → ∃ x, x ∈ R ∧ p (e_sqe x) = true) →
  ∃ x, x ∈ K1 ++ K2 ++ R ∧ p (e_sqe x) = true.
Proof.
  intros (x & Hx & Hp) He. rewrite elem_of_app, elem_of_cons in Hx. destruct Hx as [Hx|[->|Hx]].
  - exists x. set_solver.
  - destruct (He Hp) as (y & Hy & Hpy). exists y. set_solver.
  - exists x. set_solver.
Qed.

Lemma step_armed nm y y' :
  sys_inv srv nm y → (∀ i k K, y_workers y !! i = Some (k, K) → kept_armed K) → sys_step srv y y' →
  ∀ i k K, y_workers y' !! i = Some (k, K) → kept_armed K.
Proof.
  intros Hinv Hy Hst. destruct Hst as [y i k k' K1 e K2 res flags data s Hi Hmay Hd Hh].
  intros a ka Ka. simpl. intros [(<- & [= <- <-] & _)|[_ Ha]]%list_lookup_insert_Some; [|by eapply Hy].
  pose proof (v_tags _ _ _ _ _ (Hinv _ _ _ Hi)) as Ht. rewrite !Forall_app, Forall_cons in Ht. destruct Ht as [[_ [Ht _]] _].
  destruct (Hy _ _ _ Hi) as [Hacc Hwake].
  assert (∀ p, (∃ x, x ∈ K1 ++ K2 ++ (remains e flags ++ r_sq s) ∧ p (e_sqe x) = true) →
    ∃ x, x ∈ (K1 ++ remains e flags ++ K2) ++ r_sq s ∧ p (e_sqe x) = true) as Hswap.
  { intros p (x & Hx & Hp). exists x. set_solver. }
  split; apply Hswap, (still _ K1 e K2); try done.
  - intros Hp. by eapply accept_again.
  - intros Hp. destruct (wake_again e res flags _ _ Ht Hp Hh) as (x & Hx & Hp'). exists x. set_solver.
Qed.

Lemma reachable_armed w frames ls y :
  initial w → len (w_mailboxes w) = len ls → FRAME_CONNECTS * Z.of_nat frames < 2 ^ 32 →
  rtc (sys_step srv) (sys_boot w frames ls) y → ∀ i k K, y_workers y !! i = Some (k, K) → kept_armed K.
Proof.
  intros Hw Hm Hb Hr. assert (sys_inv srv (len ls) (sys_boot w frames ls)) as Hinv by (by apply boot_inv).
  assert (∀ i k K, y_workers (sys_boot w frames ls) !! i = Some (k, K) → kept_armed K) as Hy.
  { intros i k K. simpl. rewrite list_lookup_imap. intros ([fd zc] & Hi & E)%fmap_Some.
    pose proof (lookup_lt_Some _ _ _ Hi). unfold boot_worker in E. cbn [fst snd] in E. injection E as -> ->.
    unfold worker_start, arm_accept, arm_wake, my_mailbox, mbind, ST_bind, gets, sq_push, modify. simpl.
    rewrite Nat2Z.id. destruct (w_mailboxes w !! i) eqn:E; [|apply lookup_ge_None in E; lia]. simpl.
    split; [eexists; split; [by left|done]|eexists; split; [right; by left|done]]. }
  induction Hr as [|y1 y2 y3 Hst _ IH]; [done|]. apply IH; [by eapply sys_step_inv|by eapply step_armed].
Qed.

End system.

