(* ===== verification/Watches.v ===== *)
(** The whole server stays in its shares: the reactor's own system calls name
    no path but those it watches for CHANGE_NOTIFY, and these are the
    directories of handles. *)
From S2P Require Import Prelude Hoare Wire Status Os Sample Lease Vfs Handles Crypto Session Config Smb2 State.
From S2P Require Import Setup Dispatch Keys Confine TreeSafe SessionSafe WorldSafe AuthSound Create Appends Uring Reactor ReactorSafe Ring.
Local Open Scope Z_scope.

Section paths.
Context `{Env} `{!OsLaws} (srv : Srv) (Hsrv : srv_ok srv).

(** The paths a connection waits to have watched are inside the shares, and
    its keys are derived ones. *)
Definition proto_ok (p : ProtoConn) : Prop := noted (confined srv) [] p ∧ pc_keyed p.

Lemma proto_same p p' :
  pc_notify_new p' = pc_notify_new p → pc_cipher p' = pc_cipher p → pc_channels p' = pc_channels p →
  proto_ok p → proto_ok p'.
Proof.
  intros E1 E2 E3 [Hn [Hc Hk]]. split; [intros np; rewrite E1; apply Hn|]. split; [by rewrite E2|by rewrite E3].
Qed.

Record paths_ok (s : RSt) : Prop := {
  po_trace : Forall (confined srv) (os_trace (w_os (r_w s)));
  po_world : ∃ N, 0 ≤ N ∧ N + FRAME_CONNECTS * Z.of_nat (r_frames s) < 2 ^ 32 ∧
    map_Forall (λ (_ : Z) x, sess_ok (srv_cfg srv) N x) (w_sessions (r_w s));
  po_notes : ∀ j c, wk_conns (r_wk s) !! j = Some (Some c) → proto_ok (co_proto c) }.

Local Abbreviation ok m := (yields paths_ok m (λ _, True)).

(** ** Steps *)
Lemma p_rio {A} (q : call A) : (∀ a, confined srv (Ev q a)) → ok (rio (do q)).
Proof.
  intros Hq s a s' [Ht Hw Hn]. unfold rio, zoom, do. destruct (sys _ _ _) as [b o].
  intros [= <- <-]. split; [|done]. constructor; try done. apply Forall_app. by repeat constructor.
Qed.

Lemma confined_plain {A} (q : call A) a : call_paths q = [] → confined srv (Ev q a).
Proof. intros E p. simpl. rewrite E. by intros ?%elem_of_nil. Qed.

Lemma p_rio_plain {A} (q : call A) : call_paths q = [] → ok (rio (do q)).
Proof. intros. apply p_rio. intros a. by apply confined_plain. Qed.

Lemma p_worker :
  yields paths_ok (gets r_wk) (λ k, ∀ j c, wk_conns k !! j = Some (Some c) → proto_ok (co_proto c)).
Proof. apply yields_gets. intros s Hs. apply Hs. Qed.

Lemma p_conn_mut j : yields paths_ok (conn_mut j) (λ c, proto_ok (co_proto c)).
Proof.
  intros s c s' Hs. unfold conn_mut, mbind, ST_bind, gets.
  destruct (wk_conns (r_wk s) !! j) as [[d|]|] eqn:E; try done. intros [= <- <-].
  split; [done|]. by eapply po_notes.
Qed.

(** A change of the slots that keeps the notes of each connection. *)
Lemma p_upd_wk f :
  (∀ k j c, wk_conns (f k) !! j = Some (Some c) →
     wk_conns k !! j = Some (Some c) ∨ proto_ok (co_proto c)) → ok (upd_wk f).
Proof.
  intros Hf. apply yields_modify. intros s [Ht Hw Hn]. constructor; try done.
  intros j c [?|]%Hf; [by eapply Hn|done].
Qed.

Lemma p_set_conn j v k i c :
  (∀ c, v = Some c → proto_ok (co_proto c)) →
  wk_conns (wk_set_conns (<[j := v]> (wk_conns k)) k) !! i = Some (Some c) →
  wk_conns k !! i = Some (Some c) ∨ proto_ok (co_proto c).
Proof.
  intros Hv. simpl. intros [(_ & E & _)|[_ E]]%list_lookup_insert_Some; [|by left]. right. by apply Hv.
Qed.

Lemma p_upd_conn j f : (∀ c, proto_ok (co_proto c) → proto_ok (co_proto (f c))) → ok (upd_conn j f).
Proof.
  intros Hf. unfold upd_conn. eapply yields_bind; [apply p_conn_mut|]. intros c Hc.
  apply p_upd_wk. intros k i d. apply p_set_conn. intros ? [= <-]. by apply Hf.
Qed.

Lemma p_upd_tx j f : ok (upd_tx j f).
Proof. by apply p_upd_conn. Qed.
Lemma p_upd_rx j f : ok (upd_rx j f).
Proof. by apply p_upd_conn. Qed.

Lemma p_sq_push e : ok (sq_push e).
Proof. apply yields_modify. intros s []. by constructor. Qed.

Lemma p_observe f : ok (observe f).
Proof. apply yields_modify. intros s []. by constructor. Qed.

Lemma p_upd_world f :
  (∀ w, w_sessions (f w) = w_sessions w ∧ w_os (f w) = w_os w) → ok (modify (λ s, r_set_w (f (r_w s)) s)).
Proof.
  intros Hf. apply yields_modify. intros s []. destruct (Hf (r_w s)) as [E1 E2].
  constructor; simpl; by rewrite ?E1, ?E2.
Qed.
End paths.

#[export] Hint Resolve p_conn_mut p_upd_tx p_upd_rx p_sq_push p_observe : yields.
#[export] Hint Extern 1 (yields (paths_ok _) (rio (do _)) _) => (apply p_rio_plain; reflexivity) : yields.
#[export] Hint Extern 1 (yields (paths_ok _) (upd_conn _ _) _) =>
  (apply p_upd_conn; intros ? ?; repeat case_match;
   first [done | eapply proto_same; [| | |eassumption]; reflexivity]) : yields.

(** ** The handlers *)
Section handlers.
Context `{Env} `{!OsLaws} (srv : Srv) (Hsrv : srv_ok srv).
Local Abbreviation ok m := (yields (paths_ok srv) m (λ _, True)).

Lemma p_sq_push_conn j e : ok (sq_push_conn j e).
Proof. unfold sq_push_conn. yields_auto. Qed.
Lemma p_arm_accept : ok arm_accept.
Proof. unfold arm_accept. yields_auto. Qed.
Lemma p_my_mailbox : ok my_mailbox.
Proof. unfold my_mailbox. yields_auto. Qed.
#[local] Hint Resolve p_sq_push_conn p_arm_accept p_my_mailbox : yields.
Lemma p_arm_wake : ok arm_wake.
Proof. unfold arm_wake. yields_auto. Qed.
Lemma p_close_fd fd : ok (close_fd fd).
Proof. unfold close_fd. yields_auto. Qed.
#[local] Hint Resolve p_arm_wake p_close_fd : yields.
Lemma p_drop_conn c : ok (drop_conn c).
Proof. unfold drop_conn. yields_auto. Qed.
#[local] Hint Resolve p_drop_conn : yields.

(** A run of the protocol layer. *)
Lemma proto_paths {A} (m : M A) d p tx s N r s' :
  (∀ o0 l0, triple (world_inv srv o0 l0 N) m (λ _, world_inv srv o0 l0 (N + d)) (world_traced srv o0)) →
  (∀ s0, pc_keyed (st_pc s0) → pc_keyed (st_pc (m s0).2)) →
  map_Forall (λ (_ : Z) x, sess_ok (srv_cfg srv) N x) (w_sessions (r_w s)) →
  Forall (confined srv) (os_trace (w_os (r_w s))) → proto_ok srv p → proto_run p tx m s = (inl r, s') →
  ∃ w, s' = r_set_w w s ∧ Forall (confined srv) (os_trace (w_os w)) ∧
    map_Forall (λ (_ : Z) x, sess_ok (srv_cfg srv) (N + d) x) (w_sessions w) ∧ proto_ok srv r.1.2.
Proof.
  intros Hm Hk Hr Ht [Hp Hp']. unfold proto_run. set (s0 := mkSt _ _ _ _ _).
  specialize (Hm (w_os (r_w s)) [] s0 ltac:(by constructor)). specialize (Hk s0 Hp'). destruct (m s0) as [[a|e] s1]; [|done].
  intros [= <- <-]. destruct Hm as [Hr' Hn (t & E & Ht')]. exists (st_w s1). split_and!; try done.
  rewrite E. by apply Forall_app.
Qed.

Lemma p_frame {B} j p tx frame (k : FrameAction * ProtoConn * bytes → RM B) (Q : B → Prop) :
  proto_ok srv p → (∀ r, proto_ok srv r.1.2 → yields (paths_ok srv) (k r) Q) →
  yields (paths_ok srv)
    (n ← gets r_frames;
     match n with
     | O => halt Spin
     | S n => modify (λ s, mkRSt (r_w s) (r_wk s) (r_sq s) n (r_obs s ++ [Processed (wk_wid (r_wk s)) j frame])) ;;
        proto_run p tx (process_frame srv frame) ≫= k
     end) Q.
Proof.
  intros Hp Hk s b s' [Ht (N & HN & Hb & Hr) Hn]. unfold mbind at 1, ST_bind at 1, gets at 1.
  destruct (r_frames s) as [|n] eqn:En; [done|]. unfold mbind at 1, ST_bind at 1, modify at 1.
  unfold FRAME_CONNECTS in Hb. intros (r & s1 & E1 & E2)%bind_returns.
  eapply proto_paths in E1 as (w & -> & Ht1 & Hr1 & Hp1);
    [|intros; apply (triple_process_frame srv Hsrv _ _ N); [done|unfold FRAME_CONNECTS; lia]|apply frame_keyed|done..].
  eapply (Hk r Hp1); [|exact E2]. constructor; simpl; try done. exists (N + FRAME_CONNECTS).
  unfold FRAME_CONNECTS in *. split_and!; [lia|lia|done].
Qed.

Lemma p_teardown p tx : proto_ok srv p → ok (proto_run p tx teardown_conn).
Proof.
  intros Hp s r s' [Ht (N & HN & Hb & Hr) Hn] E. eapply (proto_paths _ 0) in E as (w & -> & Ht1 & Hr1 & Hp1);
    [|intros; rewrite Z.add_0_r; eapply triple_conseq; [by apply w_teardown_conn|done|by intros ? ? []|by apply world_inv_traced]|
     intros s0; apply teardown_place|done..].
  rewrite Z.add_0_r in Hr1. split; [|done]. constructor; try done. by exists N.
Qed.

(** ** Teardown, receiving, sending *)
Lemma p_finalize_close j : ok (finalize_close j).
Proof.
  unfold finalize_close. eapply yields_bind; [apply p_worker|]. intros k Hk.
  destruct (wk_conns k !! j) as [[c|]|] eqn:Ec; [|by apply yields_ret|apply yields_halt].
  apply yields_seq; [apply p_upd_wk; intros ? ? ?; by apply p_set_conn|].
  apply yields_seq; [apply p_teardown; by eapply Hk|]. apply yields_seq; [yields_auto|].
  destruct (wk_gens k !! j); [|apply yields_halt]. apply yields_seq.
  - by apply (p_upd_world srv (λ w, w_set_leases (release_conn _ _ _ (w_leases w)) w)).
  - apply p_upd_wk. by left.
Qed.
#[local] Hint Resolve p_finalize_close : yields.

Lemma p_close_conn_ring j : ok (close_conn_ring j).
Proof. unfold close_conn_ring. yields_auto. Qed.
#[local] Hint Resolve p_close_conn_ring : yields.
Lemma p_maybe_arm_recv j : ok (maybe_arm_recv j).
Proof. unfold maybe_arm_recv. yields_auto. Qed.
Lemma p_submit_send j fl : ok (submit_send j fl).
Proof. unfold submit_send. yields_auto. Qed.
#[local] Hint Resolve p_maybe_arm_recv p_submit_send : yields.
Lemma p_start_send j : ok (start_send j).
Proof. unfold start_send. yields_auto. Qed.
Lemma p_expect {A} (o : option A) : ok (expect o).
Proof. unfold expect. yields_auto. Qed.
Lemma p_send_now j tx : ok (send_now j tx).
Proof. unfold send_now. yields_auto. Qed.
#[local] Hint Resolve p_start_send p_expect p_send_now : yields.
Lemma p_submit_splice_in j : ok (submit_splice_in j).
Proof. unfold submit_splice_in. yields_auto. Qed.
Lemma p_submit_splice_out j : ok (submit_splice_out j).
Proof. unfold submit_splice_out. yields_auto. Qed.
Lemma p_submit_zc_linked j : ok (submit_zc_linked j).
Proof. unfold submit_zc_linked. yields_auto. Qed.
#[local] Hint Resolve p_submit_splice_in p_submit_splice_out p_submit_zc_linked : yields.
Lemma p_ensure_pipe j plan : ok (ensure_pipe srv j plan).
Proof. unfold ensure_pipe. yields_auto. Qed.
#[local] Hint Resolve p_ensure_pipe : yields.
Lemma p_start_zc j plan : ok (start_zc srv j plan).
Proof. unfold start_zc. yields_auto. Qed.
#[local] Hint Resolve p_start_zc : yields.

(** ** CHANGE_NOTIFY *)
Lemma notify_final_notes p meta st evs n : pc_notify_new (build_notify_final p meta st evs n).2 = pc_notify_new p.
Proof. unfold build_notify_final. repeat case_match; done. Qed.

Lemma p_arm_inotify j : ok (arm_inotify j).
Proof. unfold arm_inotify. yields_auto. Qed.
Lemma p_push_final j pend st evs : ok (push_final j pend st evs).
Proof.
  apply p_upd_conn. intros c Hc. pose proof (notify_final_notes (co_proto c) (np_meta pend) st evs (np_out_len pend)) as E.
  destruct Hc as [Hn Hk]. apply (keyed_notify_final _ (np_meta pend) st evs (np_out_len pend)) in Hk.
  destruct (build_notify_final _ _ _ _ _) as [resp p]. simpl in *. split; [|done]. intros np. rewrite E. apply Hn.
Qed.
Lemma p_set_watches j f : ok (set_watches j f).
Proof. unfold set_watches. yields_auto. Qed.
Lemma p_rm_watch j wd : ok (rm_watch j wd).
Proof. unfold rm_watch. yields_auto. Qed.
#[local] Hint Resolve p_arm_inotify p_push_final p_set_watches p_rm_watch : yields.
Lemma p_complete_notify j pend st evs : ok (complete_notify j pend st evs).
Proof. unfold complete_notify. yields_auto. Qed.
Lemma p_ensure_inotify j : ok (ensure_inotify j).
Proof. unfold ensure_inotify. yields_auto. Qed.
Lemma p_notify_finish j d : ok (notify_finish j d).
Proof. unfold notify_finish. yields_auto. Qed.
#[local] Hint Resolve p_complete_notify p_ensure_inotify p_notify_finish : yields.

Lemma p_notify_add j pend : watchable (confined srv) pend → ok (notify_add j pend).
Proof.
  intros Hw. unfold notify_add. yields_step. destruct a as [ifd|]; [|yields_auto].
  apply (yields_bind _ _ _ (λ _, True)); [|intros wd _; yields_auto].
  destruct (cpath (np_path pend)) as [cp|e] eqn:Ec; [|yields_auto]. apply cpath_Ok in Ec as ->.
  apply p_rio. intros a. apply Hw.
Qed.

(** What is left to watch is watched, and nothing is left. *)
Lemma p_service_notify j : ok (service_notify j).
Proof.
  unfold service_notify. eapply yields_bind; [apply p_conn_mut|]. intros c Hc. cbv zeta.
  apply yields_seq; [apply p_upd_conn; intros ? _; split; [by intros np Hnp%elem_of_nil|destruct Hc as [_ []]; by split]|].
  apply yields_seq; apply yields_for_each; [|intros; by apply p_notify_finish].
  intros np Hnp. apply p_notify_add. destruct (proj1 Hc np Hnp) as [[]%elem_of_nil|Hw]; exact Hw.
Qed.
#[local] Hint Resolve p_service_notify : yields.

(** ** The frame loop *)
Lemma p_next_frame j total : ok (next_frame srv j total).
Proof.
  unfold next_frame. eapply yields_bind; [apply p_conn_mut|]. intros c Hc. cbv zeta.
  apply p_frame; [done|]. intros [[action p] tx] Hp.
  apply yields_seq; [by apply p_upd_conn|yields_auto].
Qed.
Lemma p_drive_flush j : ok (drive_flush j).
Proof. unfold drive_flush. yields_auto. Qed.
#[local] Hint Resolve p_next_frame p_drive_flush : yields.
Lemma p_drive_loop fuel j : ok (drive_loop srv fuel j).
Proof. induction fuel as [|fuel IH]; cbn [drive_loop]; yields_auto. Qed.
#[local] Hint Resolve p_drive_loop : yields.
Lemma p_drive j : ok (drive srv j).
Proof. unfold drive. yields_auto. Qed.
#[local] Hint Resolve p_drive : yields.

(** ** Completions *)
Lemma p_on_recv j res : ok (on_recv srv j res).
Proof. unfold on_recv. yields_auto. Qed.
Lemma p_finish_send j : ok (finish_send srv j).
Proof. unfold finish_send. yields_auto. Qed.
Lemma p_zc_done j zc : ok (zc_done srv j zc).
Proof. unfold zc_done. yields_auto. Qed.
#[local] Hint Resolve p_on_recv p_finish_send p_zc_done : yields.
Lemma p_on_send_notif j : ok (on_send_notif srv j).
Proof. unfold on_send_notif. yields_auto. Qed.
Lemma p_on_linked_cqe j op res : ok (on_linked_cqe srv j op res).
Proof. unfold on_linked_cqe. yields_auto. Qed.
#[local] Hint Resolve p_on_send_notif p_on_linked_cqe : yields.
Lemma p_on_send j res : ok (on_send srv j res).
Proof. unfold on_send. yields_auto. Qed.
Lemma p_drain_pipe fuel : ∀ fd n, ok (drain_pipe fuel fd n).
Proof. induction fuel as [|fuel IH]; intros fd n; cbn [drain_pipe]; yields_auto. Qed.
#[local] Hint Resolve p_on_send p_drain_pipe : yields.
Lemma p_zc_fail j st : ok (zc_fail j st).
Proof. unfold zc_fail. yields_auto. Qed.
#[local] Hint Resolve p_zc_fail : yields.
Lemma p_on_splice_in j res : ok (on_splice_in srv j res).
Proof. unfold on_splice_in. yields_auto. Qed.
Lemma p_on_splice_out j res : ok (on_splice_out srv j res).
Proof. unfold on_splice_out. yields_auto. Qed.
Lemma p_fire_all j rm : ∀ l fired, ok (fire_all j rm l fired).
Proof. induction l as [|[wd evs] l IH]; intros fired; cbn [fire_all]; unfold fire; yields_auto. Qed.
#[local] Hint Resolve p_on_splice_in p_on_splice_out p_fire_all : yields.
Lemma p_on_inotify j res : ok (on_inotify srv j res).
Proof. unfold on_inotify. yields_auto. Qed.
Lemma p_deliver_break b : ok (deliver_break srv b).
Proof. unfold deliver_break. yields_auto. Qed.
#[local] Hint Resolve p_on_inotify p_deliver_break : yields.

Lemma p_on_wake : ok (on_wake srv).
Proof.
  unfold on_wake. eapply yields_bind; [apply p_worker|]. intros k _.
  eapply yields_bind; [apply p_my_mailbox|]. intros mb0 _. destruct (mailbox_drain mb0) as [breaks mb].
  apply yields_seq; [|pose proof p_arm_wake; yields_auto].
  by apply (p_upd_world srv (λ w, w_set_mailboxes (<[_ := mb]> (w_mailboxes w)) w)).
Qed.

(** ** Accepting *)
Lemma p_take_slot j k d c :
  wk_conns (wk_set_conns (wk_conns k ++ [None]) d) !! j = Some (Some c) → wk_conns k !! j = Some (Some c).
Proof. simpl. intros [?|[_ E]]%lookup_app_Some; [done|]. by apply list_lookup_singleton_Some in E as [_ E]. Qed.

Lemma p_on_accept fd : ok (on_accept srv fd).
Proof.
  unfold on_accept. eapply yields_bind; [apply p_worker|]. intros k Hk.
  destruct (_ && _); [yields_auto|]. apply yields_seq; [yields_auto|].
  apply yields_seq; [apply p_upd_wk; by left|].
  apply (yields_bind _ _ _ (λ _, True)).
  { destruct (wk_free k); (apply yields_seq; [apply p_upd_wk|by apply yields_ret]); [|by left].
    intros k' j c Hc. left. by eapply p_take_slot. }
  intros idx _. eapply yields_bind; [apply p_worker|]. intros k' Hk'.
  destruct (wk_gens k' !! idx) as [gen|]; [|apply yields_halt]. destruct (_ <? _)%nat; [|apply yields_halt].
  apply yields_seq; [|yields_auto]. apply p_upd_wk. intros k2 j c. apply p_set_conn.
  intros ? [= <-]. split; [by intros np ?%elem_of_nil|apply keyed_new].
Qed.
#[local] Hint Resolve p_on_wake p_on_accept : yields.

Lemma p_handle_cqe ud res flags : ok (handle_cqe srv ud res flags).
Proof. unfold handle_cqe, on_conn_cqe, retire. yields_auto. Qed.

(** ** The system *)
Definition sys_paths (y : Sys) : Prop :=
  ∀ i k K, y_workers y !! i = Some (k, K) → paths_ok srv (mkRSt (y_world y) k [] (y_frames y) (y_obs y)).

Lemma dma_notes e data k k' j c :
  dma e data k = Some k' → wk_conns k' !! j = Some (Some c) →
  ∃ d, wk_conns k !! j = Some (Some d) ∧ co_proto c = co_proto d.
Proof.
  unfold dma. destruct (slot_of e) as [i|]; [|intros [= <-]; by eauto].
  destruct (wk_conns k !! i) as [[d|]|] eqn:Ed; [|done..]. destruct (_ =? _); [|done].
  destruct (dma_conn (e_sqe e) data d) as [d'|] eqn:Em; simpl; [|done]. intros [= <-]. simpl.
  intros [(<- & [= <-] & _)|[_ ?]]%list_lookup_insert_Some; [|by eauto]. exists d. split; [done|].
  unfold dma_conn in Em. by repeat case_match; simplify_eq.
Qed.

Lemma sys_step_paths y y' : sys_paths y → sys_step srv y y' → sys_paths y'.
Proof.
  intros Hy Hst. destruct Hst as [y i k k' K1 e K2 res flags data s Hi _ Hd Hh].
  assert (paths_ok srv (deliver y k' e data)) as Hs.
  { destruct (Hy _ _ _ Hi) as [Ht Hw Hn]. unfold deliver, read_efd.
    constructor; [by destruct (e_sqe e)|destruct (e_sqe e); exact Hw|].
    intros j c Hc. destruct (dma_notes _ _ _ _ _ _ Hd Hc) as (d & Hc' & ->). by eapply Hn. }
  destruct (p_handle_cqe _ _ _ _ _ _ Hs Hh) as [[Ht Hw Hn] _].
  intros j k2 Ks. simpl. intros [(<- & [= <- <-] & _)|[_ Hj]]%list_lookup_insert_Some; [by constructor|].
  constructor; [exact Ht|exact Hw|]. intros l c Hc. by eapply (po_notes _ _ (Hy _ _ _ Hj)).
Qed.

Lemma boot_paths w frames ls :
  initial w → FRAME_CONNECTS * Z.of_nat frames < 2 ^ 32 → sys_paths (sys_boot w frames ls).
Proof.
  intros [Hw Ht] Hb i k K. simpl. rewrite list_lookup_imap. intros ([fd zc] & Hi & E)%fmap_Some.
  assert (wk_conns k = []) as Hk.
  { injection E as -> _. unfold worker_start, arm_accept, arm_wake, my_mailbox, sq_push, mbind, ST_bind, gets, modify.
    simpl. by destruct (w_mailboxes w !! _). }
  constructor; simpl; [by rewrite Ht|exists 0; rewrite Hw; split_and!; [lia|lia|apply map_Forall_empty]|].
  intros j c. by rewrite Hk.
Qed.

Lemma reachable_sys_paths w frames ls y :
  initial w → FRAME_CONNECTS * Z.of_nat frames < 2 ^ 32 →
  rtc (sys_step srv) (sys_boot w frames ls) y → sys_paths y ∧ length (y_workers y) = length ls.
Proof.
  intros Hw Hb Hr.
  assert (sys_paths (sys_boot w frames ls) ∧ length (y_workers (sys_boot w frames ls)) = length ls) as Hi
    by (split; [by apply boot_paths|by simpl; rewrite length_imap]).
  revert Hi. induction Hr as [|y1 y2 y3 Hst _ IH]; [done|]. intros [H1 E1]. apply IH.
  split; [by eapply sys_step_paths|]. destruct Hst. simpl. by rewrite length_insert.
Qed.

Lemma reachable_paths w frames ls y :
  initial w → FRAME_CONNECTS * Z.of_nat frames < 2 ^ 32 → ls ≠ [] →
  rtc (sys_step srv) (sys_boot w frames ls) y →
  Forall (confined srv) (os_trace (w_os (y_world y))).
Proof.
  intros Hw Hb Hls Hr. destruct (reachable_sys_paths w frames ls y Hw Hb Hr) as [Hy Hlen].
  destruct (lookup_lt_is_Some_2 (y_workers y) 0) as [[k K] E]; [destruct ls; simpl in *; [done|lia]|].
  apply (po_trace _ _ (Hy _ _ _ E)).
Qed.

(** Every connection the workers hold has derived keys. *)
Lemma reachable_keyed w frames ls y i k K j c :
  initial w → FRAME_CONNECTS * Z.of_nat frames < 2 ^ 32 → rtc (sys_step srv) (sys_boot w frames ls) y →
  y_workers y !! i = Some (k, K) → wk_conns k !! j = Some (Some c) → pc_keyed (co_proto c).
Proof.
  intros Hw Hb Hr Hi Hj. destruct (reachable_sys_paths w frames ls y Hw Hb Hr) as [Hy _].
  by apply (po_notes _ _ (Hy _ _ _ Hi) j c).
Qed.
End handlers.

(** The whole server stays in its shares. In every state that any number
    of workers can reach together, whatever the kernel completes in whatever
    order, each system call ever made, by a request or by the reactor itself,
    names only paths that are a share's root followed by proper entry names;
    this covers the directories watched for CHANGE_NOTIFY. *)
Theorem server_stays_in_shares `{Env} `{!OsLaws} srv w frames ls y :
  srv_ok srv → initial w → FRAME_CONNECTS * Z.of_nat frames < 2 ^ 32 → ls ≠ [] →
  rtc (sys_step srv) (sys_boot w frames ls) y →
  Forall (confined srv) (os_trace (w_os (y_world y))).
Proof. intros. by eapply reachable_paths. Qed.
(** ** A run with a watch

    A guest connects, opens directory [d] of a share open to all and asks to
    be told of changes in it. *)
Definition open_srv : Srv :=
  mkSrv (mkConfig (lit "0.0.0.0:445") 1 (lit "SRV") 1 (Some true) (Some false) false false [] true false
           None false true Both None [mkShareCfg (lit "s") (lit "/s") false [] [] []] [] [])
    (replicate 16 0) MAX_READ_TARGET 0 ∅ true [].

Lemma open_srv_ok : @srv_ok mem_env open_srv.
Proof. constructor; [done|by vm_compute|by vm_compute]. Qed.

Definition guest_frames : list bytes :=
  let path := utf16le (lit "s") in
  [sample_frame cmd.SESSION_SETUP 0 0 0 (drop 64 (setup_msg []));
   sample_frame cmd.TREE_CONNECT 1 0 3 ([] ▷ p16 9 ▷ p16 0 ▷ p16 72 ▷ p16 (len path) ▷ pbytes path);
   sample_frame cmd.CREATE 2 1 3 (drop 64 (sample_create 1 FILE_OPEN FILE_DIRECTORY_FILE (lit "d")));
   sample_frame cmd.CHANGE_NOTIFY 3 1 3 ([] ▷ p16 32 ▷ p16 0 ▷ p32 4096 ▷ p64 0x100000000 ▷ p64 0x100000000 ▷ p32 1 ▷ p32 0)].
Definition guest_bytes : bytes := concat ((λ f, nbt_hdr (len f) ++ f) <$> guest_frames).
Definition guest_run : list (nat * nat * Z * Z * bytes) :=
  [(0%nat, 0%nat, 7, CQE_F_MORE, []); (0%nat, 2%nat, len guest_bytes, 0, guest_bytes)].

(** The paths of the last call made. *)
Definition last_paths `{Env} (y : Sys) : option (list path) :=
  last (ev_paths <$> os_trace (w_os (y_world y))).

Lemma guest_run_spec :
  ∃ y, @run mem_env open_srv ring_start guest_run = Some y ∧ last_paths y = Some [lit "/s/d"].
Proof.
  assert (last_paths <$> @run mem_env open_srv ring_start guest_run = Some (Some [lit "/s/d"])) as E by (by vm_compute).
  apply fmap_Some in E as (y & E & Hl). exists y. split; [exact E|symmetry; exact Hl].
Qed.

Lemma server_stays_in_shares_witness :
  ∃ y, rtc (@sys_step mem_env open_srv) ring_start y ∧ last_paths y = Some [lit "/s/d"] ∧
    Forall (confined open_srv) (os_trace (w_os (y_world y))).
Proof.
  destruct guest_run_spec as (y & Hr & Hl). apply run_steps in Hr. exists y. split; [exact Hr|]. split; [exact Hl|].
  apply (@server_stays_in_shares mem_env _ open_srv ring_world 4 [(3, true)] y); [apply open_srv_ok|done|done|done|exact Hr].
Defined.
