(* ===== verification/Backend.v ===== *)
(** The cryptographic back ends. Models src/crypto_rustcrypto.rs and
    src/crypto_openssl.rs, one of which src/crypto.rs is built on.

    Both call third-party libraries, whose functions are parameters
    ([CryptoLibs]) with their documented behaviour as laws ([LibLaws]). A
    result [None] of a back end is a panic: an [expect] on an error of the
    library, a slice of the wrong length, or a cipher it does not know. *)
From S2P Require Import Prelude Hoare Wire Status Os Sample Lease Vfs Handles Crypto Session Config Smb2 Codec State.
From S2P Require Import Negotiate Setup Dispatch Keys Confine TreeSafe SessionSafe WorldSafe AuthSound Appends Uring Reactor ReactorSafe Ring Watches.
Local Open Scope Z_scope.

(** ** The libraries *)
Class CryptoLibs := {
  (** The crates hmac, cmac and sha2: a state, fed with the parts. *)
  HmacSha256 : Type;
  hmac_new_from_slice : bytes → option HmacSha256;
  hmac_update : HmacSha256 → bytes → HmacSha256;
  hmac_finalize : HmacSha256 → bytes;
  CmacAes128 : Type;
  cmac_new_from_slice : bytes → option CmacAes128;
  cmac_update : CmacAes128 → bytes → CmacAes128;
  cmac_finalize : CmacAes128 → bytes;
  Sha512 : Type;
  sha512_new : Sha512;
  sha512_update : Sha512 → bytes → Sha512;
  sha512_finalize : Sha512 → bytes;
  (** [encrypt_in_place_detached] and [decrypt_in_place_detached] of the
      crates aes_gcm and ccm, for a size of key: key, nonce, associated data
      and message. Encryption gives the ciphertext and the tag. *)
  aes_gcm_encrypt : nat → bytes → bytes → bytes → bytes → option (bytes * bytes);
  aes_gcm_decrypt : nat → bytes → bytes → bytes → bytes → bytes → option bytes;
  ccm_encrypt : nat → bytes → bytes → bytes → bytes → option (bytes * bytes);
  ccm_decrypt : nat → bytes → bytes → bytes → bytes → bytes → option bytes;
  (** The crate openssl; every call may report an error. *)
  PKey : Type;
  Signer : Type;
  Hasher : Type;
  pkey_hmac : bytes → option PKey;
  pkey_cmac : bytes → option PKey;
  signer_new_sha256 : PKey → option Signer;
  signer_new_without_digest : PKey → option Signer;
  signer_update : Signer → bytes → option Signer;
  signer_sign : Signer → option bytes;
  hasher_new_sha512 : option Hasher;
  hasher_update : Hasher → bytes → option Hasher;
  hasher_finish : Hasher → option bytes;
  encrypt_aead : nat → bytes → bytes → bytes → bytes → option (bytes * bytes);
  decrypt_aead : nat → bytes → bytes → bytes → bytes → bytes → option bytes }.

(** [GenericArray::from_slice] for an array of [n] bytes, and
    [dst.copy_from_slice(src)] for a [dst] of [n] bytes. *)
Definition from_slice (n : nat) (b : bytes) : option bytes := if decide (length b = n) then Some b else None.
Definition copy_from_slice (n : nat) (src : bytes) : option bytes := from_slice n src.

(** [for p in parts { s.update(p).expect(..) }]. *)
Fixpoint update_all {S} (update : S → bytes → option S) (s : S) (parts : list bytes) : option S :=
  match parts with
  | [] => Some s
  | p :: parts => s ← update s p; update_all update s parts
  end.

(** ** RustCrypto *)
Section rustcrypto.
Context `{CryptoLibs}.

Definition rustcrypto_hmac_sha256 (key : bytes) (parts : list bytes) : option bytes :=
  m ← hmac_new_from_slice key; Some (hmac_finalize (foldl hmac_update m parts)).

Definition rustcrypto_sha512 (parts : list bytes) : option bytes :=
  Some (sha512_finalize (foldl sha512_update sha512_new parts)).

(** [out[..16].try_into().unwrap()]. *)
Definition rustcrypto_aes128_cmac (key : bytes) (parts : list bytes) : option bytes :=
  m ← cmac_new_from_slice key;
  let out := cmac_finalize (foldl cmac_update m parts) in
  from_slice 16 (take 16 out).

Definition seal_gcm (size : nat) (key nonce aad buf : bytes) : option (bytes * bytes) :=
  key ← from_slice size key; nonce ← from_slice 12 nonce; aes_gcm_encrypt size key nonce aad buf.
Definition seal_ccm (size : nat) (key nonce aad buf : bytes) : option (bytes * bytes) :=
  key ← from_slice size key; nonce ← from_slice 11 nonce; ccm_encrypt size key nonce aad buf.

Definition rustcrypto_aead_seal (cipher : Z) (key nonce aad buf : bytes) : option (bytes * bytes) :=
  if cipher =? CIPHER_AES128_GCM then seal_gcm 16 key nonce aad buf
  else if cipher =? CIPHER_AES256_GCM then seal_gcm 32 key nonce aad buf
  else if cipher =? CIPHER_AES128_CCM then seal_ccm 16 key nonce aad buf
  else if cipher =? CIPHER_AES256_CCM then seal_ccm 32 key nonce aad buf
  else None.

(** The inner [None] is the answer [false]. *)
Definition open_gcm (size : nat) (key nonce aad buf tag : bytes) : option (option bytes) :=
  key ← from_slice size key; nonce ← from_slice 12 nonce; Some (aes_gcm_decrypt size key nonce aad buf tag).
Definition open_ccm (size : nat) (key nonce aad buf tag : bytes) : option (option bytes) :=
  key ← from_slice size key; nonce ← from_slice 11 nonce; Some (ccm_decrypt size key nonce aad buf tag).

Definition rustcrypto_aead_open (cipher : Z) (key nonce aad buf tag : bytes) : option (option bytes) :=
  if cipher =? CIPHER_AES128_GCM then open_gcm 16 key nonce aad buf tag
  else if cipher =? CIPHER_AES256_GCM then open_gcm 32 key nonce aad buf tag
  else if cipher =? CIPHER_AES128_CCM then open_ccm 16 key nonce aad buf tag
  else if cipher =? CIPHER_AES256_CCM then open_ccm 32 key nonce aad buf tag
  else Some None.
End rustcrypto.

(** ** OpenSSL *)
Section openssl.
Context `{CryptoLibs}.

(** [signer.sign(&mut out)] fills the front of the 32-byte [out], which must
    be long enough. *)
Definition openssl_hmac_sha256 (key : bytes) (parts : list bytes) : option bytes :=
  pkey ← pkey_hmac key;
  signer ← signer_new_sha256 pkey;
  signer ← update_all signer_update signer parts;
  mac ← signer_sign signer;
  if (length mac <=? 32)%nat then Some (mac ++ replicate (32 - length mac) 0) else None.

Definition openssl_sha512 (parts : list bytes) : option bytes :=
  h ← hasher_new_sha512;
  h ← update_all hasher_update h parts;
  d ← hasher_finish h;
  copy_from_slice 64 d.

Definition openssl_aes128_cmac (key : bytes) (parts : list bytes) : option bytes :=
  pkey ← pkey_cmac key;
  signer ← signer_new_without_digest pkey;
  signer ← update_all signer_update signer parts;
  mac ← signer_sign signer;
  mac ← slice mac 0 16;
  copy_from_slice 16 mac.

(** The size of key, for a GCM cipher. *)
Definition gcm_cipher (cipher : Z) : option nat :=
  if cipher =? CIPHER_AES128_GCM then Some 16%nat
  else if cipher =? CIPHER_AES256_GCM then Some 32%nat
  else None.

Definition ccm_seal (cipher : Z) (key nonce aad buf : bytes) : option (bytes * bytes) :=
  if cipher =? CIPHER_AES128_CCM then seal_ccm 16 key nonce aad buf
  else if cipher =? CIPHER_AES256_CCM then seal_ccm 32 key nonce aad buf
  else None.

Definition ccm_open (cipher : Z) (key nonce aad buf tag : bytes) : option (option bytes) :=
  if cipher =? CIPHER_AES128_CCM then open_ccm 16 key nonce aad buf tag
  else if cipher =? CIPHER_AES256_CCM then open_ccm 32 key nonce aad buf tag
  else Some None.

Definition openssl_aead_seal (cipher : Z) (key nonce aad buf : bytes) : option (bytes * bytes) :=
  match gcm_cipher cipher with
  | Some c =>
      '(ct, tag) ← encrypt_aead c key nonce aad buf;
      buf ← copy_from_slice (length buf) ct;
      Some (buf, tag)
  | None => ccm_seal cipher key nonce aad buf
  end.

Definition openssl_aead_open (cipher : Z) (key nonce aad buf tag : bytes) : option (option bytes) :=
  match gcm_cipher cipher with
  | Some c =>
      match decrypt_aead c key nonce aad buf tag with
      | Some pt => buf ← copy_from_slice (length buf) pt; Some (Some buf)
      | None => Some None
      end
  | None => ccm_open cipher key nonce aad buf tag
  end.
End openssl.

(** ** The back end compiled in *)

(** The feature [backend-openssl], and the [mod backend] of src/crypto.rs. *)
Inductive Backend := RustCrypto | OpenSsl.

Section backend.
Context `{CryptoLibs} (b : Backend).

Definition BACKEND : str := match b with RustCrypto => lit "rustcrypto" | OpenSsl => lit "openssl" end.
Definition backend_hmac (key : bytes) (parts : list bytes) : option bytes :=
  match b with RustCrypto => rustcrypto_hmac_sha256 key parts | OpenSsl => openssl_hmac_sha256 key parts end.
Definition backend_sha512 (parts : list bytes) : option bytes :=
  match b with RustCrypto => rustcrypto_sha512 parts | OpenSsl => openssl_sha512 parts end.
Definition backend_cmac (key : bytes) (parts : list bytes) : option bytes :=
  match b with RustCrypto => rustcrypto_aes128_cmac key parts | OpenSsl => openssl_aes128_cmac key parts end.
Definition backend_seal (cipher : Z) (key nonce aad buf : bytes) : option (bytes * bytes) :=
  match b with
  | RustCrypto => rustcrypto_aead_seal cipher key nonce aad buf
  | OpenSsl => openssl_aead_seal cipher key nonce aad buf
  end.
Definition backend_open (cipher : Z) (key nonce aad buf tag : bytes) : option (option bytes) :=
  match b with
  | RustCrypto => rustcrypto_aead_open cipher key nonce aad buf tag
  | OpenSsl => openssl_aead_open cipher key nonce aad buf tag
  end.

(** The outside world with the primitives of the back end. Where the back end
    panics, which the theorems below exclude, the primitive is given a result
    of the right size. *)
Definition backend_env (E : Env) : Env := {|
  kerberos := @kerberos E;
  os := @os E;
  sys := @sys E;
  retry := @retry E;
  to_lowercase := @to_lowercase E;
  to_uppercase := @to_uppercase E;
  parse_socket_addr := @parse_socket_addr E;
  md4 := @md4 E;
  Os.hmac_md5 := @hmac_md5 E;
  hmac_sha256 := λ k ps, default (replicate 32 0) (backend_hmac k ps);
  aes128_cmac := λ k ps, default (replicate 16 0) (backend_cmac k ps);
  sha512 := λ ps, default (replicate 64 0) (backend_sha512 ps);
  aead_seal := λ c k n a p, default (p, replicate 16 0) (backend_seal c k n a p);
  aead_open := λ c k n a ct tag, default None (backend_open c k n a ct tag) |}.
End backend.

(** ** What the libraries promise *)

(** An AEAD with a size of nonce: it works on a key and a nonce of its sizes
    and a message whose length fits its length field, keeps the length, and
    opens what it sealed. *)
Record aead_laws (nonce_len : nat) (enc : nat → bytes → bytes → bytes → bytes → option (bytes * bytes))
    (dec : nat → bytes → bytes → bytes → bytes → bytes → option bytes) : Prop := {
  al_works size k n a p :
    size = 16%nat ∨ size = 32%nat → length k = size → length n = nonce_len → len p < 2 ^ 32 → is_Some (enc size k n a p);
  al_seal size k n a p ct tag : enc size k n a p = Some (ct, tag) → length ct = length p ∧ length tag = 16%nat;
  al_open size k n a p ct tag : enc size k n a p = Some (ct, tag) → dec size k n a ct tag = Some p;
  al_open_len size k n a ct tag p : dec size k n a ct tag = Some p → length p = length ct }.

(** A hash state can be fed in pieces. *)
Definition streams {S} (update : S → bytes → S) : Prop :=
  ∀ s x y, update s [] = s ∧ update (update s x) y = update s (x ++ y).
Definition streams_opt {S} (update : S → bytes → option S) : Prop :=
  ∀ s x y, update s [] = Some s ∧ is_Some (update s x) ∧ (update s x ≫= λ s, update s y) = update s (x ++ y).

Class LibLaws `{CryptoLibs} := {
  hmac_any_key k : is_Some (hmac_new_from_slice k);
  hmac_size s : length (hmac_finalize s) = 32%nat;
  hmac_streams : streams hmac_update;
  cmac_key k : length k = 16%nat → is_Some (cmac_new_from_slice k);
  cmac_size s : length (cmac_finalize s) = 16%nat;
  cmac_streams : streams cmac_update;
  sha512_size s : length (sha512_finalize s) = 64%nat;
  gcm_laws : aead_laws 12 aes_gcm_encrypt aes_gcm_decrypt;
  ccm_laws : aead_laws 11 ccm_encrypt ccm_decrypt;
  pkey_hmac_key k : is_Some (pkey_hmac k ≫= signer_new_sha256);
  pkey_cmac_key k : length k = 16%nat → is_Some (pkey_cmac k ≫= signer_new_without_digest);
  signer_streams : streams_opt signer_update;
  signer_hmac k s ps s' :
    (pkey_hmac k ≫= signer_new_sha256) = Some s → update_all signer_update s ps = Some s' →
    ∃ mac, signer_sign s' = Some mac ∧ length mac = 32%nat;
  signer_cmac k s ps s' :
    (pkey_cmac k ≫= signer_new_without_digest) = Some s → update_all signer_update s ps = Some s' →
    ∃ mac, signer_sign s' = Some mac ∧ length mac = 16%nat;
  hasher_starts : is_Some hasher_new_sha512;
  hasher_streams : streams_opt hasher_update;
  hasher_sha512 h ps h' :
    hasher_new_sha512 = Some h → update_all hasher_update h ps = Some h' →
    ∃ d, hasher_finish h' = Some d ∧ length d = 64%nat;
  ossl_gcm_laws : aead_laws 12 encrypt_aead decrypt_aead }.

(** ** Feeding *)
Lemma foldl_streams {S} (update : S → bytes → S) ps :
  streams update → ∀ s, foldl update s ps = update s (concat ps).
Proof.
  intros Hu. induction ps as [|p ps IH]; intros s; simpl; [symmetry; apply (Hu s [] [])|].
  rewrite IH. apply (Hu s p).
Qed.

Lemma update_all_streams {S} (update : S → bytes → option S) ps :
  streams_opt update → ∀ s, update_all update s ps = update s (concat ps).
Proof.
  intros Hu. induction ps as [|p ps IH]; intros s; simpl; [symmetry; apply (Hu s [] [])|].
  destruct (Hu s p (concat ps)) as (_ & _ & <-). destruct (update s p); simpl; [apply IH|done].
Qed.

Lemma update_all_works {S} (update : S → bytes → option S) s ps :
  streams_opt update → is_Some (update_all update s ps).
Proof. intros Hu. rewrite update_all_streams by done. apply (Hu s _ []). Qed.

Lemma from_slice_Some n x : length x = n → from_slice n x = Some x.
Proof. intros. unfold from_slice. by rewrite decide_True. Qed.
Lemma from_slice_inv n x y : from_slice n x = Some y → y = x ∧ length x = n.
Proof. unfold from_slice. case_decide; [|done]. by intros [= <-]. Qed.

(** ** The contract of the primitives *)
Section contract.
Context `{CryptoLibs} `{!LibLaws} (b : Backend).

Lemma backend_hmac_works k ps : ∃ mac, backend_hmac b k ps = Some mac ∧ length mac = 32%nat.
Proof.
  destruct b; simpl.
  - unfold rustcrypto_hmac_sha256. destruct (hmac_any_key k) as [m ->]. simpl. eexists. split; [done|apply hmac_size].
  - unfold openssl_hmac_sha256. destruct (pkey_hmac_key k) as [s Es].
    destruct (update_all_works signer_update s ps signer_streams) as [s' Eu].
    destruct (signer_hmac k s ps s' Es Eu) as (mac & Em & Hl).
    destruct (pkey_hmac k) as [pk|]; [|done]. simpl in *. rewrite Es. simpl. rewrite Eu. simpl. rewrite Em. simpl.
    rewrite Hl. simpl. exists (mac ++ []). split; [done|]. by rewrite app_nil_r.
Qed.

Lemma backend_cmac_works k ps : length k = 16%nat → is_Some (backend_cmac b k ps).
Proof.
  intros Hk. destruct b; simpl.
  - unfold rustcrypto_aes128_cmac. destruct (cmac_key k Hk) as [m ->]. simpl.
    rewrite from_slice_Some; [done|]. by rewrite length_take, cmac_size.
  - unfold openssl_aes128_cmac. destruct (pkey_cmac_key k Hk) as [s Es].
    destruct (update_all_works signer_update s ps signer_streams) as [s' Eu].
    destruct (signer_cmac k s ps s' Es Eu) as (mac & Em & Hl).
    destruct (pkey_cmac k) as [pk|]; [|done]. simpl in *. rewrite Es. simpl. rewrite Eu. simpl. rewrite Em. simpl.
    unfold slice. rewrite Hl. simpl. unfold copy_from_slice. rewrite from_slice_Some; [done|].
    by rewrite length_take, ?length_drop, ?Hl.
Qed.

Lemma backend_cmac_len k ps mac : backend_cmac b k ps = Some mac → length mac = 16%nat.
Proof.
  destruct b; simpl; unfold rustcrypto_aes128_cmac, openssl_aes128_cmac;
    intros E; repeat (apply bind_Some in E as (? & _ & E)); by apply from_slice_inv in E as [-> ?].
Qed.

Lemma backend_sha512_works ps : ∃ d, backend_sha512 b ps = Some d ∧ length d = 64%nat.
Proof.
  destruct b; simpl.
  - eexists. split; [done|apply sha512_size].
  - unfold openssl_sha512. destruct hasher_starts as [h Eh].
    destruct (update_all_works hasher_update h ps hasher_streams) as [h' Eu].
    destruct (hasher_sha512 h ps h' Eh Eu) as (d & Ed & Hl).
    rewrite Eh. simpl. rewrite Eu. simpl. rewrite Ed. simpl. unfold copy_from_slice. rewrite from_slice_Some by done. eauto.
Qed.

Lemma backend_hmac_stream k ps : backend_hmac b k ps = backend_hmac b k [concat ps].
Proof.
  destruct b; unfold backend_hmac, backend_cmac; unfold rustcrypto_hmac_sha256, openssl_hmac_sha256.
  - destruct (hmac_new_from_slice k) as [m|]; simpl; [|done]. by rewrite foldl_streams by apply hmac_streams.
  - destruct (pkey_hmac k) as [pk|]; cbn [mbind option_bind]; [|done]. destruct (signer_new_sha256 pk) as [s|]; [|done]. cbn [mbind option_bind].
    rewrite !(update_all_streams signer_update) by apply signer_streams. cbn [concat]. by rewrite app_nil_r.
Qed.

Lemma backend_cmac_stream k ps : backend_cmac b k ps = backend_cmac b k [concat ps].
Proof.
  destruct b; unfold backend_hmac, backend_cmac; unfold rustcrypto_aes128_cmac, openssl_aes128_cmac.
  - destruct (cmac_new_from_slice k) as [m|]; simpl; [|done]. by rewrite foldl_streams by apply cmac_streams.
  - destruct (pkey_cmac k) as [pk|]; cbn [mbind option_bind]; [|done]. destruct (signer_new_without_digest pk) as [s|]; [|done].
    cbn [mbind option_bind]. rewrite !(update_all_streams signer_update) by apply signer_streams. cbn [concat]. by rewrite app_nil_r.
Qed.

Lemma sizes_cases c i j : aead_sizes c = Some (i, j) →
  (c = 1 ∨ c = 3) ∧ (i = 16 ∨ i = 32)%nat ∧ j = 11%nat ∨ (c = 2 ∨ c = 4) ∧ (i = 16 ∨ i = 32)%nat ∧ j = 12%nat.
Proof.
  destruct c as [|p|p]; [done| |done]. do 3 (destruct p as [p|p|]; try done; try (intros [= <- <-]; tauto)).
Qed.

Lemma backend_seal_works c k n a p :
  aead_sizes c = Some (length k, length n) → len p < 2 ^ 32 → is_Some (backend_seal b c k n a p).
Proof.
  intros Hs Hp. pose proof (al_works _ _ _ gcm_laws) as Hg. pose proof (al_works _ _ _ ccm_laws) as Hc.
  destruct (sizes_cases _ _ _ Hs) as [([-> | ->] & Hi & Hj)|([-> | ->] & Hi & Hj)]; injection Hs as Hk Hn;
    destruct b; simpl.
  all: cbv [rustcrypto_aead_seal openssl_aead_seal gcm_cipher ccm_seal seal_gcm
    seal_ccm]; simpl; rewrite ?from_slice_Some by done; simpl; auto.
  all: match goal with |- context [encrypt_aead ?s ?k ?n ?a ?p] =>
    destruct (al_works _ _ _ ossl_gcm_laws s k n a p) as [[ct tag] E]; auto; rewrite E; simpl;
    destruct (al_seal _ _ _ ossl_gcm_laws _ _ _ _ _ _ _ E) as [El _];
    unfold copy_from_slice; rewrite from_slice_Some by done; by eexists end.
Qed.

(** What [aead_open] does with a key and a nonce of the right sizes. *)
Lemma open_copied (nl : nat) enc dec size k n a ct tag :
  aead_laws nl enc dec →
  (match dec size k n a ct tag with
   | Some pt => buf ← copy_from_slice (length ct) pt; Some (Some buf)
   | None => Some None
   end) = Some (dec size k n a ct tag).
Proof.
  intros Hl. destruct (dec size k n a ct tag) as [pt|] eqn:E; [|done].
  unfold copy_from_slice. rewrite from_slice_Some; [done|]. by eapply al_open_len.
Qed.

(** A seal that returned is one library call, and opening is its inverse. *)
Lemma backend_seal_inv c k n a p ct tag :
  backend_seal b c k n a p = Some (ct, tag) →
  ∃ nl size enc dec, aead_laws nl enc dec ∧ enc size k n a p = Some (ct, tag) ∧
    ∀ tag', backend_open b c k n a ct tag' = Some (dec size k n a ct tag').
Proof.
  destruct b; simpl; unfold rustcrypto_aead_seal, rustcrypto_aead_open, openssl_aead_seal, openssl_aead_open,
    gcm_cipher, ccm_seal, ccm_open; repeat case_match; try done; simplify_eq.
  all: unfold seal_gcm, seal_ccm; intros E.
  all: try (apply bind_Some in E as (k' & [-> Hk]%from_slice_inv & E); apply bind_Some in E as (n' & [-> Hn]%from_slice_inv & E);
    do 4 eexists; split; [|split; [exact E|]]; [first [exact gcm_laws|exact ccm_laws]|]; intros tag';
    unfold open_gcm, open_ccm; by rewrite !from_slice_Some by done).
  all: apply bind_Some in E as ([ct' tag''] & Ee & E); apply bind_Some in E as (buf & [-> _]%from_slice_inv & E);
    simplify_eq; do 4 eexists; split; [exact ossl_gcm_laws|]; split; [exact Ee|]; intros tag';
    apply (open_copied _ _ _ _ _ _ _ _ _ ossl_gcm_laws).
Qed.

Lemma backend_open_works c k n a ct tag :
  aead_sizes c = Some (length k, length n) → is_Some (backend_open b c k n a ct tag).
Proof.
  intros Hs. destruct (sizes_cases _ _ _ Hs) as [([-> | ->] & _ & Hj)|([-> | ->] & _ & Hj)]; injection Hs as Hk Hn;
    destruct b; simpl.
  all: cbv [rustcrypto_aead_open openssl_aead_open gcm_cipher ccm_open open_gcm
    open_ccm]; simpl; rewrite ?from_slice_Some by done; simpl; eauto.
  all: rewrite (open_copied _ _ _ _ _ _ _ _ _ ossl_gcm_laws); eauto.
Qed.
End contract.

Section laws.
Context `{CryptoLibs} `{!LibLaws} (b : Backend) (E : Env).
Local Abbreviation be := (backend_env b E).

Lemma be_hmac k ps : backend_hmac b k ps = Some (@hmac_sha256 be k ps).
Proof. simpl. by destruct (backend_hmac_works b k ps) as (mac & -> & _). Qed.
Lemma be_sha512 ps : backend_sha512 b ps = Some (@sha512 be ps).
Proof. simpl. by destruct (backend_sha512_works b ps) as (d & -> & _). Qed.
Lemma be_cmac k ps : length k = 16%nat → backend_cmac b k ps = Some (@aes128_cmac be k ps).
Proof. intros Hk. simpl. by destruct (backend_cmac_works b k ps Hk) as [mac ->]. Qed.
Lemma be_seal c k n a p :
  aead_sizes c = Some (length k, length n) → len p < 2 ^ 32 → backend_seal b c k n a p = Some (@aead_seal be c k n a p).
Proof. intros Hs Hp. simpl. by destruct (backend_seal_works b c k n a p Hs Hp) as [x ->]. Qed.
Lemma be_open c k n a ct tag :
  aead_sizes c = Some (length k, length n) → backend_open b c k n a ct tag = Some (@aead_open be c k n a ct tag).
Proof. intros Hs. simpl. by destruct (backend_open_works b c k n a ct tag Hs) as [x ->]. Qed.

#[export] Instance backend_crypto_laws : @CryptoLaws E → @CryptoLaws be.
Proof.
  intros HE. constructor.
  - apply HE.
  - apply HE.
  - intros k d. simpl. by destruct (backend_hmac_works b k d) as (mac & -> & ?).
  - intros k d. simpl. destruct (backend_cmac b k d) eqn:Ec; [by eapply backend_cmac_len|done].
  - intros d. simpl. by destruct (backend_sha512_works b d) as (x & -> & ?).
  - intros c k n a p. simpl. destruct (backend_seal b c k n a p) as [[ct tag]|] eqn:Es; [|done].
    destruct (backend_seal_inv _ _ _ _ _ _ _ _ Es) as (nl & size & enc & dec & Hl & He & _). by eapply al_seal.
  - intros c k n a p. simpl. destruct (backend_seal b c k n a p) as [[ct tag]|] eqn:Es; [|done].
    destruct (backend_seal_inv _ _ _ _ _ _ _ _ Es) as (nl & size & enc & dec & Hl & He & _). by eapply al_seal.
  - intros c k n a p ct tag Hs Hp Es. pose proof (be_seal c k n a p Hs Hp) as Eb. rewrite Es in Eb.
    destruct (backend_seal_inv _ _ _ _ _ _ _ _ Eb) as (nl & size & enc & dec & Hl & He & Ho).
    simpl. rewrite Ho. simpl. by eapply al_open.
Qed.

#[export] Instance backend_crypto_streams : @CryptoStreams be.
Proof.
  constructor; intros k ps; simpl; [by rewrite backend_hmac_stream|by rewrite backend_cmac_stream].
Qed.

(** The calls a channel makes: signing and verifying with its signing key,
    sealing and opening with its encryption keys. *)
Definition calls_return (ch : ChannelState) : Prop :=
  (∀ sc, ch_sign ch = Some sc → sg_alg sc = AesCmac → ∀ parts,
     backend_cmac b (sg_key sc) parts = Some (@aes128_cmac be (sg_key sc) parts)) ∧
  (∀ e, ch_enc ch = Some e → ∀ nonce aad,
     len nonce = cipher_nonce_len (en_cipher e) →
     let key k := take (Z.to_nat (cipher_key_len (en_cipher e))) k in
     (∀ p, len p < 2 ^ 32 →
        backend_seal b (en_cipher e) (key (en_s2c e)) nonce aad p =
          Some (@aead_seal be (en_cipher e) (key (en_s2c e)) nonce aad p)) ∧
     (∀ ct tag,
        backend_open b (en_cipher e) (key (en_c2s e)) nonce aad ct tag =
          Some (@aead_open be (en_cipher e) (key (en_c2s e)) nonce aad ct tag))).

Lemma keyed_sizes `{!@CryptoLaws E} (e : EncCtx) :
  @derived_enc be e →
  is_Some (aead_sizes (en_cipher e)) ∧ length (en_c2s e) = 32%nat ∧ length (en_s2c e) = 32%nat.
Proof.
  intros [Hs (key & pre & Ek)]. split.
  - unfold supported_cipher, contains in Hs. apply bool_decide_eq_true_1 in Hs.
    repeat (apply elem_of_cons in Hs as [->|Hs]; [by eexists|]). by apply elem_of_nil in Hs.
  - pose proof (@encryption_keys_length be _ (en_cipher e) key pre) as Hl. rewrite <- Ek in Hl. split; apply Hl.
Qed.

Lemma keyed_returns `{!@CryptoLaws E} (ch : ChannelState) : @ch_keyed be ch → calls_return ch.
Proof.
  intros [Hsign Henc]. split.
  - intros sc Hsc Ha parts. destruct (Hsign sc Hsc) as (d & key & pre & ->). apply be_cmac. clear Hsc. revert Ha.
    unfold derive_sign_ctx. destruct (_ || _); [done|]. destruct (_ =? _); intros _; cbn [sg_key]; unfold kdf128;
      by rewrite length_take, hmac_sha256_len.
  - intros e He nonce aad Hn. cbv zeta. destruct (keyed_sizes e (Henc e He)) as (Hc & Hl1 & Hl2).
    apply sizes_lengths in Hc.
    assert (0 ≤ cipher_nonce_len (en_cipher e) ≤ 16) as Hnl by (unfold cipher_nonce_len; case_match; lia).
    split; [intros p Hp; apply be_seal|intros ct tag; apply be_open]; try done;
      rewrite length_take, ?Hl1, ?Hl2, Hc; do 2 f_equal; lia.
Qed.
End laws.

(** C39: The cryptography under the server keeps its contract. Whichever back
    end is compiled in, and whatever libraries keep their documented
    behaviour, the primitives the server calls have the digest, tag and
    ciphertext sizes and the AEAD round trip that every other theorem takes
    as its premise ([CryptoLaws]), and a MAC does not depend on how its input
    is cut into parts ([CryptoStreams]). *)
Theorem backend_keeps_contract `{CryptoLibs} `{!LibLaws} (b : Backend) (E : Env) :
  @CryptoLaws E → @CryptoLaws (backend_env b E) ∧ @CryptoStreams (backend_env b E).
Proof. intros HE. split; apply _. Qed.

(** C3: The cryptographic code never panics. In every state the workers can
    reach together on either back end, every channel of every connection has
    a cipher the back end knows and keys of the sizes the libraries insist
    on: signing and verifying with the channel's key returns, sealing a
    message shorter than 2^32 bytes returns, and opening anything at all
    returns, as do the hashes the keys are derived with. The results are the
    primitives the other theorems speak of. *)
Theorem crypto_calls_return `{CryptoLibs} `{!LibLaws} (b : Backend) (E : Env) srv w frames ls y i k K j c sid ch :
  @CryptoLaws E → @OsLaws (backend_env b E) → @srv_ok (backend_env b E) srv → @initial (backend_env b E) w →
  FRAME_CONNECTS * Z.of_nat frames < 2 ^ 32 →
  rtc (@sys_step (backend_env b E) srv) (@sys_boot (backend_env b E) w frames ls) y →
  y_workers y !! i = Some (k, K) → wk_conns k !! j = Some (Some c) → pc_channels (co_proto c) !! sid = Some ch →
  calls_return b E ch ∧
  (∀ key parts, backend_hmac b key parts = Some (@hmac_sha256 (backend_env b E) key parts)) ∧
  (∀ parts, backend_sha512 b parts = Some (@sha512 (backend_env b E) parts)).
Proof.
  intros HE HO Hsrv Hw Hb Hr Hi Hj Hc. split; [|split; [apply be_hmac|apply be_sha512]].
  apply (keyed_returns b E (H1 := HE)). eapply keyed_lookup; [|exact Hc]. by eapply (@reachable_keyed (backend_env b E) HO srv Hsrv).
Qed.

(** ** Toy libraries

    Hash states are the key and the data so far. *)
Definition toy_libs : CryptoLibs := {|
  HmacSha256 := bytes * bytes;
  hmac_new_from_slice k := Some (k, []);
  hmac_update s x := (s.1, s.2 ++ x);
  hmac_finalize s := toy_digest 32 s.1 s.2;
  CmacAes128 := bytes * bytes;
  cmac_new_from_slice k := if decide (length k = 16%nat) then Some (k, []) else None;
  cmac_update s x := (s.1, s.2 ++ x);
  cmac_finalize s := toy_digest 16 s.1 s.2;
  Sha512 := bytes;
  sha512_new := [];
  sha512_update s x := s ++ x;
  sha512_finalize s := toy_digest 64 [] s;
  aes_gcm_encrypt _ k n a p := Some (toy_seal k n a p);
  aes_gcm_decrypt _ k n a ct tag := if decide ((toy_seal k n a ct).2 = tag) then Some ct else None;
  ccm_encrypt _ k n a p := Some (toy_seal k n a p);
  ccm_decrypt _ k n a ct tag := if decide ((toy_seal k n a ct).2 = tag) then Some ct else None;
  PKey := bytes;
  Signer := nat * bytes * bytes;
  Hasher := bytes;
  pkey_hmac k := Some k;
  pkey_cmac k := if decide (length k = 16%nat) then Some k else None;
  signer_new_sha256 k := Some (32%nat, k, []);
  signer_new_without_digest k := Some (16%nat, k, []);
  signer_update s x := Some (s.1, s.2 ++ x);
  signer_sign s := Some (toy_digest s.1.1 s.1.2 s.2);
  hasher_new_sha512 := Some [];
  hasher_update s x := Some (s ++ x);
  hasher_finish s := Some (toy_digest 64 [] s);
  encrypt_aead _ k n a p := Some (toy_seal k n a p);
  decrypt_aead _ k n a ct tag := if decide ((toy_seal k n a ct).2 = tag) then Some ct else None |}.

Lemma toy_aead n :
  aead_laws n (λ _ k n a p, Some (toy_seal k n a p))
    (λ _ k n a ct tag, if decide ((toy_seal k n a ct).2 = tag) then Some ct else None).
Proof.
  constructor; [by eexists|..]; unfold toy_seal; intros; repeat case_decide; simplify_eq/=; try done.
Qed.

Lemma toy_update_all n (s s' : nat * bytes * bytes) ps :
  s.1.1 = n → update_all (@signer_update toy_libs) s ps = Some s' → s'.1.1 = n.
Proof. revert s. induction ps as [|p ps IH]; intros s Hs; simpl; [by intros [= <-]|]. by apply IH. Qed.

#[global] Instance toy_lib_laws : @LibLaws toy_libs.
Proof.
  constructor; simpl; try apply toy_aead; try (by eexists); try (intros; unfold toy_digest; apply length_le_bytes).
  - intros [k d] x y. simpl. by rewrite app_nil_r, app_assoc.
  - intros k Hk. rewrite decide_True by done. by eexists.
  - intros [k d] x y. simpl. by rewrite app_nil_r, app_assoc.
  - intros k Hk. rewrite decide_True by done. by eexists.
  - intros [[n k] d] x y. simpl. rewrite app_nil_r, app_assoc. split_and!; [done|by eexists|done].
  - intros k s ps s' [= <-] Hu. eexists. split; [done|]. unfold toy_digest. rewrite length_le_bytes. exact (toy_update_all 32 (32%nat, k, []) _ _ eq_refl Hu).
  - intros k s ps s' Hk Hu. case_decide; simplify_eq/=. eexists. split; [done|]. unfold toy_digest. rewrite length_le_bytes.
    exact (toy_update_all 16 (16%nat, k, []) _ _ eq_refl Hu).
  - intros d x y. simpl. rewrite app_nil_r, app_assoc. split_and!; [done|by eexists|done].
Qed.

Lemma backend_keeps_contract_witness :
  @CryptoLaws (@backend_env toy_libs OpenSsl mem_env) ∧ @CryptoStreams (@backend_env toy_libs RustCrypto mem_env).
Proof.
  split; [apply (@backend_keeps_contract toy_libs _ OpenSsl mem_env mem_crypto_laws)|
          apply (@backend_keeps_contract toy_libs _ RustCrypto mem_env mem_crypto_laws)].
Defined.

(** ** A login on the toy libraries

    Alice negotiates 3.1.1 with AES-128-GCM and logs in with one token; her
    channel signs and seals. *)
Local Abbreviation toy_env := (@backend_env toy_libs RustCrypto mem_env).

Definition sealing_srv : Srv :=
  mkSrv (mkConfig (lit "0.0.0.0:445") 1 (lit "SRV") 1 (Some false) (Some true) false true [] true false
           None false true Kerberos None [mkShareCfg (lit "s") (lit "/s") false [] [] []] [] [])
    (replicate 16 0) MAX_READ_TARGET 0 ∅ false [].

Definition negotiate_311 : bytes :=
  sample_frame cmd.NEGOTIATE 0 0 0
    ([] ▷ p16 36 ▷ p16 1 ▷ p16 1 ▷ p16 0 ▷ p32 0 ▷ zeros 16 ▷ p32 104 ▷ p16 2 ▷ p16 0 ▷ p16 0x0311 ▷ zeros 2
        ▷ p16 1 ▷ p16 6 ▷ p32 0 ▷ p16 1 ▷ p16 0 ▷ p16 1 ▷ zeros 2
        ▷ p16 2 ▷ p16 4 ▷ p32 0 ▷ p16 1 ▷ p16 CIPHER_AES128_GCM).
Definition alice_bytes : bytes :=
  concat ((λ f, nbt_hdr (len f) ++ f) <$>
    [negotiate_311; sample_frame cmd.SESSION_SETUP 1 0 0 (drop 64 (setup_msg (alice_token 1)))]).
Definition alice_run : list (nat * nat * Z * Z * bytes) :=
  [(0%nat, 0%nat, 7, CQE_F_MORE, []); (0%nat, 2%nat, len alice_bytes, 0, alice_bytes)].

Definition toy_world : @World toy_env := @mkWorld toy_env (@mkOsSt toy_env mem_fs []) ∅ ∅ [mailbox_new].
Definition toy_start : @Sys toy_env := @sys_boot toy_env toy_world 4 [(3, true)].

(** The channel of a session on the first connection of the first worker. *)
Definition first_channel `{Env} (sid : Z) (y : Sys) : option ChannelState :=
  '(k, _) ← y_workers y !! 0%nat;
  c ← mjoin (wk_conns k !! 0%nat);
  pc_channels (co_proto c) !! sid.

Lemma alice_run_sealed :
  ((λ ch, (bool_decide (is_Some (ch_sign ch)), en_cipher <$> ch_enc ch)) <$>
     (@run toy_env sealing_srv toy_start alice_run ≫= first_channel 4)) = Some (true, Some CIPHER_AES128_GCM).
Proof. by vm_compute. Qed.

Lemma alice_run_spec :
  ∃ y k K c ch, @run toy_env sealing_srv toy_start alice_run = Some y ∧ y_workers y !! 0%nat = Some (k, K) ∧
    wk_conns k !! 0%nat = Some (Some c) ∧ pc_channels (co_proto c) !! 4 = Some ch ∧
    (∃ sc, ch_sign ch = Some sc) ∧ ∃ e, ch_enc ch = Some e ∧ en_cipher e = CIPHER_AES128_GCM.
Proof.
  pose proof alice_run_sealed as E. apply fmap_Some in E as (ch & E & Hch).
  apply bind_Some in E as (y & Hr & E). unfold first_channel in E. apply bind_Some in E as ([k K] & Hy & E).
  apply bind_Some in E as (c & Hc & E). injection Hch as Hs He. symmetry in Hs, He. apply fmap_Some in He as (e & He & Hci).
  apply bool_decide_eq_true in Hs as [sc Hs]. exists y, k, K, c, ch. split_and!; eauto.
  destruct (wk_conns k !! 0%nat) as [[d|]|]; [|done..]. by injection Hc as ->.
Qed.

Lemma sealing_srv_ok : @srv_ok toy_env sealing_srv.
Proof. constructor; [done|by vm_compute|by vm_compute]. Qed.

#[export] Instance toy_os_laws : @OsLaws toy_env.
Proof. destruct mem_os_laws. by constructor. Qed.

Lemma crypto_calls_return_witness :
  ∃ y k K c ch e, rtc (@sys_step toy_env sealing_srv) toy_start y ∧ y_workers y !! 0%nat = Some (k, K) ∧
    wk_conns k !! 0%nat = Some (Some c) ∧ pc_channels (co_proto c) !! 4 = Some ch ∧
    (∃ sc, ch_sign ch = Some sc) ∧ ch_enc ch = Some e ∧ en_cipher e = CIPHER_AES128_GCM ∧
    @calls_return toy_libs RustCrypto mem_env ch.
Proof.
  destruct alice_run_spec as (y & k & K & c & ch & Hr & Hy & Hc & Hch & Hs & e & He & Hci). apply run_steps in Hr.
  exists y, k, K, c, ch, e. split_and!; [exact Hr|exact Hy|exact Hc|exact Hch|exact Hs|exact He|exact Hci|].
  apply (@crypto_calls_return toy_libs _ RustCrypto mem_env sealing_srv toy_world 4 [(3, true)] y 0 k K 0 c 4 ch);
    [exact mem_crypto_laws|exact toy_os_laws|exact sealing_srv_ok|done|done|exact Hr|exact Hy|exact Hc|exact Hch].
Defined.
