(* ===== verification/Stream.v ===== *)
(** The receive path keeps the byte stream: for every connection, the frames
    handed to the protocol layer are the ones the client sent, in order,
    however the kernel cuts the stream into completions and however the
    receive buffer is compacted and grown. *)
From S2P Require Import Prelude Hoare Wire Status Os Sample Lease Vfs Handles Crypto Session Config Smb2 State.
From S2P Require Import Setup Dispatch Confine TreeSafe SessionSafe WorldSafe Appends Uring Reactor ReactorSafe Completions Ring.
Local Open Scope Z_scope.

(** ** The history of a connection

    What the connection in a slot was sent, and the frames processed for it,
    since it was opened. *)
Record Hist := mkHist { h_received : bytes; h_frames : list bytes }.

Definition hist_step (wid : Z) (j : nat) (h : Hist) (o : Obs) : Hist :=
  match o with
  | Opened w i => if bool_decide ((w, i) = (wid, j)) then mkHist [] [] else h
  | Received w i d => if bool_decide ((w, i) = (wid, j)) then mkHist (h_received h ++ d) (h_frames h) else h
  | Processed w i f => if bool_decide ((w, i) = (wid, j)) then mkHist (h_received h) (h_frames h ++ [f]) else h
  end.

Definition history (wid : Z) (j : nat) (obs : list Obs) : Hist := foldl (hist_step wid j) (mkHist [] []) obs.

(** A message on the wire. *)
Definition nbt (frame : bytes) : bytes := nbt_hdr (len frame) ++ frame.
Definition wire (frames : list bytes) : bytes := concat (nbt <$> frames).

Lemma history_snoc wid j obs o : history wid j (obs ++ [o]) = hist_step wid j (history wid j obs) o.
Proof. unfold history. by rewrite foldl_app. Qed.

Lemma wire_snoc frames f : wire (frames ++ [f]) = wire frames ++ nbt f.
Proof. unfold wire. rewrite fmap_app, concat_app. simpl. by rewrite app_nil_r. Qed.

(** What an observation concerns. *)
Definition obs_of (o : Obs) : Z * nat :=
  match o with Opened w i | Received w i _ | Processed w i _ => (w, i) end.

Lemma hist_other wid j h o : obs_of o ≠ (wid, j) → hist_step wid j h o = h.
Proof. intros Hne. destruct o; simpl in *; by rewrite bool_decide_false. Qed.

(** ** The receive buffer as a queue of bytes *)
Definition unread (r : RxSide) : bytes := sub (rx_buf r) (rx_off r) (rx_len r).

Lemma length_sub b lo hi : 0 ≤ lo ≤ hi → hi ≤ len b → len (sub b lo hi) = hi - lo.
Proof. intros. unfold sub. rewrite length_take, length_drop. lia. Qed.

(** A buffer around the part from [lo] to [hi]. *)
Lemma sub_split b lo hi : 0 ≤ lo ≤ hi → hi ≤ len b →
  ∃ x y, b = x ++ sub b lo hi ++ y ∧ len x = lo.
Proof.
  intros. exists (take (Z.to_nat lo) b), (drop (Z.to_nat (hi - lo)) (drop (Z.to_nat lo) b)). unfold sub.
  rewrite take_drop, take_drop, length_take. split; [done|lia].
Qed.

Lemma sub_mid x m y lo hi : len x = lo → len m = hi - lo → sub (x ++ m ++ y) lo hi = m.
Proof.
  intros Hx Hm. unfold sub. rewrite drop_app_length' by lia. by rewrite take_app_length' by lia.
Qed.

Lemma sub_sub b lo mid hi : 0 ≤ lo ≤ mid → mid ≤ hi → sub b lo hi = sub b lo mid ++ sub b mid hi.
Proof.
  intros. unfold sub. rewrite <-(take_drop (Z.to_nat (mid - lo)) (take (Z.to_nat (hi - lo)) (drop (Z.to_nat lo) b))).
  rewrite take_take, skipn_firstn_comm, drop_drop. f_equal; f_equal; [lia|lia|f_equal; lia].
Qed.

Lemma compact_unread r : rx_ok r → unread (rx_compact r) = unread r.
Proof.
  intros (Ho & Hl & _). unfold rx_compact. destruct (0 <? rx_off r); [|done]. unfold unread. cbn [rx_buf rx_off rx_len].
  apply (sub_mid []); [done|]. rewrite length_sub; lia.
Qed.

Lemma grow_unread total r : rx_ok r → unread (rx_grow total r) = unread r.
Proof.
  intros (Ho & Hl & _). unfold rx_grow. cbv zeta. destruct (_ <? _) eqn:E; [|done]. fold RX_CAP.
  set (needed := match total with Some _ => _ | None => _ end) in *.
  assert (len (rx_buf r) ≤ needed `min` RX_CAP) as Hn by lia. unfold unread. cbn [rx_buf rx_off rx_len]. unfold resize.
  rewrite take_ge by (rewrite length_app, length_replicate; lia).
  destruct (sub_split (rx_buf r) (rx_off r) (rx_len r)) as (x & y & E' & Hx); [lia|lia|].
  rewrite E' at 1. rewrite <-!app_assoc. apply sub_mid; [done|]. rewrite length_sub; lia.
Qed.

Lemma land_ff n : Z.land n 0xFF = n mod 2 ^ 8.
Proof. change 0xFF with (Z.ones 8). by rewrite Z.land_ones. Qed.

Lemma pack_add a b n : 0 ≤ n → 0 ≤ b < 2 ^ n → Z.lor (Z.shiftl a n) b = a * 2 ^ n + b.
Proof.
  intros Hn Hb. pose proof (pack_hi a b n Hn Hb) as E1. pose proof (pack_lo a b n Hn Hb) as E2.
  rewrite Z.shiftr_div_pow2 in E1 by lia. pose proof (Z.div_mod (Z.lor (Z.shiftl a n) b) (2 ^ n)). lia.
Qed.

(** An NBT header is the one of the length it announces. *)
Lemma nbt_hdr_size a b c d rest :
  a = 0 → Forall is_byte [b; c; d] → nbt_hdr (nbt_size (a :: b :: c :: d :: rest)) = [a; b; c; d].
Proof.
  intros -> Hb. apply Forall_cons in Hb as [Hb Hcd]. apply Forall_cons in Hcd as [Hc Hd]. apply Forall_cons in Hd as [Hd _].
  unfold is_byte in *. unfold nbt_size, nbt_hdr. cbn [nth].
  assert (Z.lor (Z.lor (Z.shiftl b 16) (Z.shiftl c 8)) d = b * 2 ^ 16 + c * 2 ^ 8 + d) as ->.
  { assert (Z.lor (Z.shiftl b 16) (Z.shiftl c 8) = Z.shiftl (b * 2 ^ 8 + c) 8) as ->.
    { rewrite pack_add by (rewrite ?Z.shiftl_mul_pow2; lia). rewrite !Z.shiftl_mul_pow2 by lia. lia. }
    rewrite pack_add by lia. lia. }
  rewrite !land_ff, !Z.shiftr_div_pow2 by lia. repeat f_equal.
  - symmetry. apply (Z.mod_unique _ _ 0); [lia|]. rewrite <-(Z.div_unique _ (2 ^ 16) b (c * 2 ^ 8 + d)); lia.
  - symmetry. apply (Z.mod_unique _ _ b); [lia|]. rewrite <-(Z.div_unique _ (2 ^ 8) (b * 2 ^ 8 + c) d); lia.
  - symmetry. apply (Z.mod_unique _ _ (b * 2 ^ 8 + c)); lia.
Qed.

(** The frame at the front of the buffer is the first message of what is
    unread. *)
Lemma front_frame c total :
  rx_ok (co_rx c) → frame_total c = Ok (Some total) → total ≤ rx_len (co_rx c) - rx_off (co_rx c) →
  let r := co_rx c in
  4 ≤ total ∧
  unread r = nbt (sub (rx_buf r) (rx_off r + 4) (rx_off r + total)) ++ sub (rx_buf r) (rx_off r + total) (rx_len r).
Proof.
  intros (Ho & Hl & Hb) Hf Ht r. unfold frame_total in Hf. fold r in Hf, Ho, Hl, Ht, Hb. cbv zeta in Hf.
  destruct (_ <? 4) eqn:E4; [done|]. destruct (negb _) eqn:E0; [done|]. destruct (_ <? nbt_size _); [done|].
  injection Hf as <-. apply negb_false_iff, Z.eqb_eq in E0.
  pose proof (Forall_sub is_byte _ (rx_off r) (rx_len r) Hb) as Hbu.
  pose proof (nbt_size_nonneg _ Hbu) as Hn. split; [lia|].
  set (n := nbt_size _) in *. unfold unread. rewrite (sub_sub _ _ (rx_off r + (4 + n))), (sub_sub _ _ (rx_off r + 4)) by lia.
  f_equal. unfold nbt. rewrite length_sub by lia. f_equal.
  replace (rx_off r + (4 + n) - (rx_off r + 4)) with n by lia.
  assert (len (sub (rx_buf r) (rx_off r) (rx_off r + 4)) = 4) as H4 by (rewrite length_sub; lia).
  unfold n. rewrite (sub_sub _ _ (rx_off r + 4) (rx_len r)) in E0, Hbu |- * by lia.
  destruct (sub (rx_buf r) (rx_off r) (rx_off r + 4)) as [|a [|b [|d [|e [|]]]]]; simpl in H4; try lia.
  cbn [app nth] in E0, Hbu |- *. rewrite nbt_hdr_size; [done|done|]. rewrite !Forall_cons in *. naive_solver.
Qed.

(** ** The invariant

    [pend] is data the kernel has put behind the received bytes of a slot and
    that is not counted yet. A closing connection ignores what arrives. *)
Definition pend_at (pend : option (nat * bytes)) (j : nat) : bytes :=
  match pend with Some (i, d) => if decide (i = j) then d else [] | None => [] end.

Definition conn_stream (h : Hist) (d : bytes) (c : Conn) : Prop :=
  rx_ok (co_rx c) ∧
  ∃ rest, h_received h = wire (h_frames h) ++ unread (co_rx c) ++ rest ∧
    (co_closing c = false → rest = d ∧ ∃ z, drop (Z.to_nat (rx_len (co_rx c))) (rx_buf (co_rx c)) = d ++ z).

Definition slot_stream (h : Hist) (d : bytes) (v : option (option Conn)) : Prop :=
  match v with
  | Some (Some c) => conn_stream h d c
  | _ => ∃ rest, h_received h = wire (h_frames h) ++ rest
  end.

Section stream.
Context `{Env} (srv : Srv) (b : Z * list Obs).

(** The worker [b.1] has added only observations of its own to [b.2]. *)
Definition own (s : RSt) : Prop :=
  wk_wid (r_wk s) = b.1 ∧ ∃ l, r_obs s = b.2 ++ l ∧ Forall (λ o, (obs_of o).1 = b.1) l.

Definition stream_ok (pend : option (nat * bytes)) (s : RSt) : Prop :=
  own s ∧ ∀ j, slot_stream (history (wk_wid (r_wk s)) j (r_obs s)) (pend_at pend j) (wk_conns (r_wk s) !! j).

Lemma own_snoc s s' o :
  own s → wk_wid (r_wk s') = wk_wid (r_wk s) → r_obs s' = r_obs s ++ [o] → (obs_of o).1 = wk_wid (r_wk s) → own s'.
Proof.
  intros [Hw (l & El & Hl)] Hw' Eo Ho. split; [congruence|]. exists (l ++ [o]). rewrite Eo, El, app_assoc. split; [done|].
  apply Forall_app. split; [done|]. constructor; [congruence|done].
Qed.

(** The wire so far is a prefix of what arrived, whatever the slot holds. *)
Lemma slot_stream_gone h d v : slot_stream h d v → ∃ rest, h_received h = wire (h_frames h) ++ rest.
Proof. destruct v as [[c|]|]; simpl; [|done..]. intros (_ & rest & E & _). by eexists. Qed.

Section steps.
Context (pend : option (nat * bytes)).
Local Abbreviation ok m := (yields (stream_ok pend) m (λ _, True)).

(** What touches neither the slots nor the observations. *)
Lemma s_same s s' :
  wk_wid (r_wk s') = wk_wid (r_wk s) → wk_conns (r_wk s') = wk_conns (r_wk s) → r_obs s' = r_obs s →
  stream_ok pend s → stream_ok pend s'.
Proof. unfold stream_ok, own. intros -> -> ->. done. Qed.

Lemma s_rio {A} (m : IO A) : ok (rio m).
Proof.
  intros s a s' Hs. unfold rio, zoom. destruct (m _) as [[x|e] o]; [|done]. intros [= <- <-].
  split; [by eapply s_same|done].
Qed.

Lemma s_proto_run {A} p tx (m : M A) : ok (proto_run p tx m).
Proof.
  intros s a s' Hs. unfold proto_run. destruct (m _) as [[x|e] s1]; [|done]. intros [= <- <-].
  split; [by eapply s_same|done].
Qed.

Lemma s_sq_push e : ok (sq_push e).
Proof. apply yields_modify. intros s. by apply s_same. Qed.

Lemma s_set_w f : ok (modify (λ s, r_set_w (f s) s)).
Proof. apply yields_modify. intros s. by apply s_same. Qed.

Lemma s_conn_mut j : ok (conn_mut j).
Proof. unfold conn_mut. repeat yields_step. Qed.

(** A change of the slots. *)
Lemma s_upd_wk f :
  (∀ k, wk_wid (f k) = wk_wid k) →
  (∀ k j h, slot_stream h (pend_at pend j) (wk_conns k !! j) → slot_stream h (pend_at pend j) (wk_conns (f k) !! j)) →
  ok (upd_wk f).
Proof.
  intros Hw Hf. apply yields_modify. intros s [Ho Hs]. split; [unfold own; simpl; by rewrite Hw|].
  intros j. simpl. rewrite Hw. apply Hf, Hs.
Qed.

Lemma conn_mut_returns (j : nat) (c : Conn) (s s' : RSt) :
  conn_mut j s = (inl c, s') → s' = s ∧ wk_conns (r_wk s) !! j = Some (Some c).
Proof.
  unfold conn_mut, mbind, ST_bind, gets. destruct (wk_conns (r_wk s) !! j) as [[d|]|]; try done.
  by intros [= <- <-].
Qed.

(** A change of one connection. *)
Lemma s_upd_conn_at j f :
  (∀ h c, conn_stream h (pend_at pend j) c → conn_stream h (pend_at pend j) (f c)) → ok (upd_conn j f).
Proof.
  intros Hf s a s' [Ho Hs]. unfold upd_conn. intros (c & s1 & [-> Ec]%conn_mut_returns & [= <- <-])%bind_returns.
  split; [|done]. split; [done|]. intros i. specialize (Hs i). simpl. destruct (decide (i = j)) as [->|Hne].
  - rewrite list_lookup_insert_eq by (by eapply lookup_lt_Some). rewrite Ec in Hs. by apply Hf.
  - by rewrite list_lookup_insert_ne.
Qed.

Lemma s_upd_conn j f :
  (∀ c, co_rx (f c) = co_rx c) → (∀ c, co_closing (f c) = false → co_closing c = false) → ok (upd_conn j f).
Proof.
  intros Hr Hc. apply s_upd_conn_at. intros h c (Hrx & rest & E & Hp). unfold conn_stream. rewrite Hr.
  split; [done|]. exists rest. split; [done|]. auto.
Qed.

Lemma s_upd_tx j f : ok (upd_tx j f).
Proof. by apply s_upd_conn. Qed.

Lemma s_rx_inflight j v : ok (upd_rx j (rx_set_inflight v)).
Proof. apply s_upd_conn_at. by intros h c Hc. Qed.
End steps.

End stream.

#[export] Hint Resolve s_rio s_proto_run s_sq_push s_conn_mut s_upd_tx s_rx_inflight s_set_w : yields.
#[export] Hint Extern 1 (yields (stream_ok _ _) (upd_conn _ _) _) =>
  (apply s_upd_conn; intros ?; repeat case_match; done) : yields.
#[export] Hint Extern 1 (yields (stream_ok _ _) (upd_wk _) _) =>
  (apply s_upd_wk; intros ?; done) : yields.

Section teardown.
Context `{Env} (b : Z * list Obs) (pend : option (nat * bytes)).
Local Abbreviation ok m := (yields (stream_ok b pend) m (λ _, True)).

Lemma s_sq_push_conn j e : ok (sq_push_conn j e).
Proof. unfold sq_push_conn. yields_auto. Qed.
Lemma s_arm_accept : ok arm_accept.
Proof. unfold arm_accept. yields_auto. Qed.
Lemma s_my_mailbox : ok my_mailbox.
Proof. unfold my_mailbox. yields_auto. Qed.
#[local] Hint Resolve s_sq_push_conn s_arm_accept s_my_mailbox : yields.
Lemma s_arm_wake : ok arm_wake.
Proof. unfold arm_wake. yields_auto. Qed.
Lemma s_close_fd fd : ok (close_fd fd).
Proof. unfold close_fd. yields_auto. Qed.
#[local] Hint Resolve s_arm_wake s_close_fd : yields.
Lemma s_drop_conn c : ok (drop_conn c).
Proof. unfold drop_conn. yields_auto. Qed.
#[local] Hint Resolve s_drop_conn : yields.

Lemma s_empty_slot j : ok (upd_wk (λ k, wk_set_conns (<[j := None]> (wk_conns k)) k)).
Proof.
  apply s_upd_wk; [done|]. intros k i h Hi. simpl. destruct (decide (i = j)) as [->|Hne].
  - destruct (decide (j < length (wk_conns k))%nat).
    + rewrite list_lookup_insert_eq by done. by eapply slot_stream_gone.
    + by rewrite list_insert_ge by lia.
  - by rewrite list_lookup_insert_ne.
Qed.
#[local] Hint Resolve s_empty_slot : yields.

Lemma s_finalize_close j : ok (finalize_close j).
Proof. unfold finalize_close. yields_auto. Qed.
#[local] Hint Resolve s_finalize_close : yields.
Lemma s_close_conn_ring j : ok (close_conn_ring j).
Proof. unfold close_conn_ring. yields_auto. Qed.
End teardown.
#[export] Hint Resolve s_sq_push_conn s_arm_accept s_arm_wake s_close_fd s_drop_conn s_my_mailbox : yields.
#[export] Hint Resolve s_finalize_close s_close_conn_ring : yields.

(** ** The handlers, with nothing uncounted *)
Section handlers.
Context `{Env} (srv : Srv) (b : Z * list Obs).
Local Abbreviation ok m := (yields (stream_ok b None) m (λ _, True)).

Lemma s_upd_rx j f :
  (∀ r, rx_ok r → rx_ok (f r)) → (∀ r, rx_ok r → unread (f r) = unread r) → ok (upd_rx j f).
Proof.
  intros Hok Hun. apply s_upd_conn_at. intros h c (Hrx & rest & E & Hp). split; [by apply Hok|].
  exists rest. cbn [co_set_rx co_rx co_closing]. rewrite Hun by done. split; [done|]. intros Hc. destruct (Hp Hc) as [-> _].
  split; [done|]. by eexists.
Qed.
Lemma s_rx_compact j : ok (upd_rx j rx_compact).
Proof. apply s_upd_rx; [apply rx_compact_ok|apply compact_unread]. Qed.
Lemma s_rx_grow j total : ok (upd_rx j (rx_grow total)).
Proof. apply s_upd_rx; intros r Hr; [by apply rx_grow_ok|by apply grow_unread]. Qed.
#[local] Hint Resolve s_rx_compact s_rx_grow : yields.

Lemma s_maybe_arm_recv j : ok (maybe_arm_recv j).
Proof. unfold maybe_arm_recv. yields_auto. Qed.
Lemma s_submit_send j fl : ok (submit_send j fl).
Proof. unfold submit_send. yields_auto. Qed.
#[local] Hint Resolve s_maybe_arm_recv s_submit_send : yields.
Lemma s_start_send j : ok (start_send j).
Proof. unfold start_send. yields_auto. Qed.
Lemma s_expect {A} (o : option A) : ok (expect o).
Proof. unfold expect. yields_auto. Qed.
Lemma s_send_now j tx : ok (send_now j tx).
Proof. unfold send_now. yields_auto. Qed.
#[local] Hint Resolve s_start_send s_expect s_send_now : yields.
Lemma s_submit_splice_in j : ok (submit_splice_in j).
Proof. unfold submit_splice_in. yields_auto. Qed.
Lemma s_submit_splice_out j : ok (submit_splice_out j).
Proof. unfold submit_splice_out. yields_auto. Qed.
Lemma s_submit_zc_linked j : ok (submit_zc_linked j).
Proof. unfold submit_zc_linked. yields_auto. Qed.
#[local] Hint Resolve s_submit_splice_in s_submit_splice_out s_submit_zc_linked : yields.
Lemma s_ensure_pipe j plan : ok (ensure_pipe srv j plan).
Proof. unfold ensure_pipe. yields_auto. Qed.
#[local] Hint Resolve s_ensure_pipe : yields.
Lemma s_start_zc j plan : ok (start_zc srv j plan).
Proof. unfold start_zc. yields_auto. Qed.
#[local] Hint Resolve s_start_zc : yields.
Lemma s_arm_inotify j : ok (arm_inotify j).
Proof. unfold arm_inotify. yields_auto. Qed.
Lemma s_push_final j pend st evs : ok (push_final j pend st evs).
Proof. unfold push_final. yields_auto. Qed.
Lemma s_set_watches j f : ok (set_watches j f).
Proof. unfold set_watches. yields_auto. Qed.
Lemma s_rm_watch j wd : ok (rm_watch j wd).
Proof. unfold rm_watch. yields_auto. Qed.
#[local] Hint Resolve s_arm_inotify s_push_final s_set_watches s_rm_watch : yields.
Lemma s_complete_notify j pend st evs : ok (complete_notify j pend st evs).
Proof. unfold complete_notify. yields_auto. Qed.
Lemma s_ensure_inotify j : ok (ensure_inotify j).
Proof. unfold ensure_inotify. yields_auto. Qed.
#[local] Hint Resolve s_complete_notify s_ensure_inotify : yields.
Lemma s_notify_finish j d : ok (notify_finish j d).
Proof. unfold notify_finish. yields_auto. Qed.
Lemma s_notify_add j pend : ok (notify_add j pend).
Proof. unfold notify_add. yields_auto. Qed.
#[local] Hint Resolve s_notify_finish s_notify_add : yields.
Lemma s_service_notify j : ok (service_notify j).
Proof. unfold service_notify. yields_auto. Qed.
#[local] Hint Resolve s_service_notify : yields.

(** *** The frame loop *)

(** Consuming the front frame and recording it. *)
Lemma consumed h c c' total :
  conn_stream h [] c → frame_total c = Ok (Some total) → total ≤ rx_len (co_rx c) - rx_off (co_rx c) →
  let r := co_rx c in
  co_rx c' = mkRx (rx_buf r) (rx_off r + total) (rx_len r) (rx_inflight r) → co_closing c' = co_closing c →
  conn_stream (mkHist (h_received h) (h_frames h ++ [sub (rx_buf r) (rx_off r + 4) (rx_off r + total)])) [] c'.
Proof.
  intros (Hrx & rest & E & Hp) Hf Ht r Er Ec. destruct (front_frame c total Hrx Hf Ht) as [H4 Hu]. fold r in Hu.
  pose proof Hrx as (Ho & Hl & Hb). fold r in Ho, Hl, Hb, Ht.
  unfold conn_stream. rewrite Er, Ec. split; [split_and!; simpl; (lia || done)|].
  exists rest. cbn [h_received h_frames]. fold r in E. rewrite E, wire_snoc, Hu, <-!app_assoc. split; [done|].
  intros Hc. destruct (Hp Hc) as [-> _]. split; [done|by eexists].
Qed.

Lemma next_frame_step j total c s a s' :
  stream_ok b None s → wk_conns (r_wk s) !! j = Some (Some c) → frame_total c = Ok (Some total) →
  total ≤ rx_len (co_rx c) - rx_off (co_rx c) → next_frame srv j total s = (inl a, s') → stream_ok b None s'.
Proof.
  intros Hs Ec Hf Ht. unfold next_frame. intros (c0 & s0 & [-> E0]%conn_mut_returns & E)%bind_returns.
  rewrite Ec in E0. injection E0 as <-. cbv zeta in E.
  apply bind_returns in E as (n & s1 & [= <- <-] & E). destruct (r_frames s) as [|n] eqn:En; [done|].
  apply bind_returns in E as ([] & s2 & [= <-] & E). set (frame := sub _ _ _) in *.
  apply bind_returns in E as ([[action p] tx] & s3 & E3 & E). unfold proto_run in E3.
  destruct (process_frame _ _ _) as [[fa|e] sp]; [|done]. injection E3 as <- <- <- <-.
  apply bind_returns in E as ([] & s4 & E4 & E). unfold upd_conn in E4.
  apply bind_returns in E4 as (c1 & s5 & [-> E5]%conn_mut_returns & [= <-]). simpl in E5. rewrite Ec in E5. injection E5 as <-.
  match type of E with _ ?x = _ => assert (stream_ok b None x) as Hx end.
  { destruct Hs as [Ho Hs]. split; [by eapply own_snoc|]. intros i. specialize (Hs i). simpl in Hs |- *. rewrite history_snoc. destruct (decide (i = j)) as [->|Hne].
    - rewrite list_lookup_insert_eq by (by eapply lookup_lt_Some). rewrite Ec in Hs. simpl.
      rewrite bool_decide_true by done. by apply (consumed _ c).
    - rewrite list_lookup_insert_ne by done. rewrite hist_other by (simpl; congruence). done. }
  refine (proj1 ((_ : yields (stream_ok b None) _ (λ _, True)) _ _ _ Hx E)). yields_auto.
Qed.

Lemma s_drive_flush j : ok (drive_flush j).
Proof. unfold drive_flush. yields_auto. Qed.
#[local] Hint Resolve s_drive_flush : yields.

Lemma s_drive_loop fuel j : ok (drive_loop srv fuel j).
Proof.
  induction fuel as [|fuel IH]; cbn [drive_loop]; [apply yields_halt|].
  intros s a s' Hs. intros (c & s0 & [-> Ec]%conn_mut_returns & E)%bind_returns. cbv zeta in E.
  destruct (TX_FLUSH <=? _); [by apply (s_drive_flush j _ _ _ Hs E)|].
  destruct (frame_total c) as [[total|]|] eqn:Ef; [|by apply (s_drive_flush j _ _ _ Hs E)|by eapply s_close_conn_ring in E].
  destruct (_ <? total) eqn:El; [by apply (s_drive_flush j _ _ _ Hs E)|].
  apply bind_returns in E as (action & s1 & E1 & E).
  assert (stream_ok b None s1) as Hs1 by (eapply next_frame_step; [exact Hs|exact Ec|exact Ef|lia|exact E1]).
  revert E. refine ((_ : yields (stream_ok b None) _ (λ _, True)) _ _ _ Hs1). destruct action; yields_auto.
Qed.
#[local] Hint Resolve s_drive_loop : yields.
Lemma s_drive j : ok (drive srv j).
Proof. unfold drive. yields_auto. Qed.
#[local] Hint Resolve s_drive : yields.

(** *** Completions *)
Lemma s_finish_send j : ok (finish_send srv j).
Proof. unfold finish_send. yields_auto. Qed.
Lemma s_zc_done j zc : ok (zc_done srv j zc).
Proof. unfold zc_done. yields_auto. Qed.
#[local] Hint Resolve s_finish_send s_zc_done : yields.
Lemma s_on_send_notif j : ok (on_send_notif srv j).
Proof. unfold on_send_notif. yields_auto. Qed.
Lemma s_on_linked_cqe j op res : ok (on_linked_cqe srv j op res).
Proof. unfold on_linked_cqe. yields_auto. Qed.
#[local] Hint Resolve s_on_send_notif s_on_linked_cqe : yields.
Lemma s_on_send j res : ok (on_send srv j res).
Proof. unfold on_send. yields_auto. Qed.
Lemma s_drain_pipe fuel : ∀ fd n, ok (drain_pipe fuel fd n).
Proof. induction fuel as [|fuel IH]; intros fd n; cbn [drain_pipe]; yields_auto. Qed.
#[local] Hint Resolve s_on_send s_drain_pipe : yields.
Lemma s_zc_fail j st : ok (zc_fail j st).
Proof. unfold zc_fail. yields_auto. Qed.
#[local] Hint Resolve s_zc_fail : yields.
Lemma s_on_splice_in j res : ok (on_splice_in srv j res).
Proof. unfold on_splice_in. yields_auto. Qed.
Lemma s_on_splice_out j res : ok (on_splice_out srv j res).
Proof. unfold on_splice_out. yields_auto. Qed.
Lemma s_fire_all j rm : ∀ l fired, ok (fire_all j rm l fired).
Proof. induction l as [|[wd evs] l IH]; intros fired; cbn [fire_all]; unfold fire; yields_auto. Qed.
#[local] Hint Resolve s_on_splice_in s_on_splice_out s_fire_all : yields.
Lemma s_on_inotify j res : ok (on_inotify srv j res).
Proof. unfold on_inotify. yields_auto. Qed.
Lemma s_deliver_break msg : ok (deliver_break srv msg).
Proof. unfold deliver_break. yields_auto. Qed.
#[local] Hint Resolve s_on_inotify s_deliver_break : yields.
Lemma s_on_wake : ok (on_wake srv).
Proof. unfold on_wake. yields_auto. Qed.

(** A new connection starts with an empty history. *)
Lemma s_open j fd gen (p : Worker → ProtoConn) :
  ok (upd_wk (λ k, wk_set_conns (<[j := Some (conn_new fd gen (p k))]> (wk_conns k)) k) ;;
      observe (λ wid, Opened wid j)).
Proof.
  intros s a s' [Ho Hs] (u & s1 & [= _ <-] & [= _ <-])%bind_returns. split; [|done]. split; [by eapply own_snoc|].
  intros i. specialize (Hs i).
  cbn [r_wk r_obs r_set_wk wk_wid wk_conns wk_set_conns].
  rewrite history_snoc. destruct (decide (i = j)) as [->|Hne].
  - cbn [hist_step]. rewrite bool_decide_true by done. destruct (decide (j < length (wk_conns (r_wk s)))%nat).
    + rewrite list_lookup_insert_eq by done. split; [apply rx_new_ok|]. exists []. split; [by rewrite app_nil_r|].
      intros _. split; [done|]. by eexists.
    + rewrite list_insert_ge by lia. rewrite lookup_ge_None_2 by lia. by exists [].
  - rewrite list_lookup_insert_ne by done. by rewrite hist_other by (simpl; congruence).
Qed.

Lemma s_new_slot : ok (upd_wk (λ k, wk_set_conns (wk_conns k ++ [None]) (wk_set_slots (wk_gens k ++ [1]) (wk_free k) k))).
Proof.
  apply s_upd_wk; [done|]. intros k j h Hj. simpl. apply slot_stream_gone in Hj as Hg. rewrite lookup_app.
  destruct (wk_conns k !! j); [done|]. by destruct (_ - _)%nat.
Qed.
#[local] Hint Resolve s_new_slot : yields.

Lemma s_on_accept fd : ok (on_accept srv fd).
Proof.
  unfold on_accept. apply (yields_bind _ _ _ (λ _, True)); [yields_auto|]. intros k _.
  destruct (_ && _); [yields_auto|]. apply yields_seq; [yields_auto|]. apply yields_seq; [yields_auto|].
  apply (yields_bind _ _ _ (λ _, True)); [yields_auto|]. intros j _.
  apply (yields_bind _ _ _ (λ _, True)); [yields_auto|]. intros k' _.
  destruct (wk_gens k' !! j) as [gen|]; [|apply yields_halt]. destruct (_ <? _)%nat; [|apply yields_halt].
  intros s a s' Hs (u & s1 & E1 & (v & s2 & E2 & E3)%bind_returns)%bind_returns.
  eapply (s_maybe_arm_recv j); [|exact E3]. eapply (s_open j fd gen (λ k, pc_new srv (wk_wid k) (Z.of_nat j) gen));
    [exact Hs|]. unfold mbind, ST_bind. rewrite E1. exact E2.
Qed.
#[local] Hint Resolve s_on_wake s_on_accept : yields.

Lemma s_handle_cqe ud res flags : (ud_parts ud).1.1.1 ≠ OP_RECV → ok (handle_cqe srv ud res flags).
Proof.
  intros Hop. unfold handle_cqe. destruct (ud_parts ud) as [[[op i] gen] slot]. cbn [fst] in Hop.
  destruct (op =? OP_ACCEPT); [yields_auto|]. destruct (op =? OP_WAKE); [yields_auto|].
  destruct (op =? OP_CANCEL); [yields_auto|]. apply (yields_bind _ _ _ (λ _, True)); [yields_auto|]. intros k _.
  destruct (wk_conns k !! _) as [[c|]|]; [|yields_auto..]. destruct (negb _); [yields_auto|].
  apply yields_seq; [apply s_upd_conn; intros d; unfold retire; by destruct (_ && _)|].
  apply (yields_bind _ _ _ (λ _, True)); [yields_auto|]. intros d _. destruct (co_closing d); [yields_auto|].
  unfold on_conn_cqe. rewrite (proj2 (Z.eqb_neq _ _) Hop). yields_auto.
Qed.

(** *** A receive *)

(** Nothing is uncounted once the slot is empty or closing. *)
Lemma drop_pend j d s :
  stream_ok b (Some (j, d)) s →
  (d = [] ∨ ∀ c, wk_conns (r_wk s) !! j = Some (Some c) → co_closing c = true) → stream_ok b None s.
Proof.
  intros [Ho Hs] Hc. split; [done|]. intros i. specialize (Hs i). unfold pend_at in *. case_decide as Hij; [|done]. subst i.
  destruct Hc as [->|Hc]; [done|]. destruct (wk_conns (r_wk s) !! j) as [[c|]|]; try done. specialize (Hc c eq_refl).
  destruct Hs as (Hrx & rest & E & _). split; [done|]. exists rest. split; [done|]. by rewrite Hc.
Qed.

(** Counting what the kernel wrote. *)
Lemma counted h c d :
  conn_stream h d c → co_closing c = false → rx_len (co_rx c) + len d ≤ len (rx_buf (co_rx c)) →
  let r := co_rx c in
  conn_stream h [] (co_set_rx (mkRx (rx_buf r) (rx_off r) (rx_len r + len d) (rx_inflight r)) c).
Proof.
  intros ((Ho & Hl & Hb) & rest & E & Hp) Hc Hroom r. destruct (Hp Hc) as [-> (z & Ez)].
  fold r in Ho, Hl, Hb, Hroom, Ez, E.
  split; [split_and!; simpl; (done || lia)|]. exists []. cbn [co_set_rx co_rx]. split; [|intros _; split; [done|by eexists]].
  rewrite E, app_nil_r. f_equal. unfold unread at 2. cbn [rx_buf rx_off rx_len].
  rewrite (sub_sub _ _ (rx_len r)) by lia. f_equal. unfold sub. rewrite Ez.
  by rewrite take_app_length' by lia.
Qed.

Lemma on_recv_stream j res d c s s' :
  stream_ok b (Some (j, d)) s → len d = Z.max res 0 → wk_conns (r_wk s) !! j = Some (Some c) → co_closing c = false →
  rx_len (co_rx c) + len d ≤ len (rx_buf (co_rx c)) → on_recv srv j res s = (inl tt, s') → stream_ok b None s'.
Proof.
  intros Hs Hd Ec Hcl Hroom. unfold on_recv. intros (u & s1 & E1 & E)%bind_returns.
  pose proof (s_rx_inflight b (Some (j, d)) j false _ _ _ Hs E1) as [Hs1 _].
  unfold upd_rx, upd_conn in E1. apply bind_returns in E1 as (c0 & s0 & [-> E0]%conn_mut_returns & [= _ E1]).
  rewrite Ec in E0. injection E0 as <-.
  assert (wk_conns (r_wk s1) !! j = Some (Some (co_set_rx (rx_set_inflight false (co_rx c)) c))) as Ec1
    by (subst s1; simpl; by rewrite list_lookup_insert_eq by (by eapply lookup_lt_Some)).
  clear E1 Hs Ec. destruct (res =? _) eqn:Er.
  { apply (drop_pend j d) in Hs1; [by eapply s_maybe_arm_recv|]. left. apply Z.eqb_eq in Er. subst res.
    by apply nil_length_inv, Nat2Z.inj. }
  destruct (res <=? 0) eqn:El.
  { apply (drop_pend j d) in Hs1; [by eapply s_close_conn_ring|]. left. apply nil_length_inv. lia. }
  apply bind_returns in E as ([] & s2 & E2 & E). assert (stream_ok b None s2) as Hs2.
  { unfold upd_rx, upd_conn in E2. apply bind_returns in E2 as (c2 & s3 & [-> E3]%conn_mut_returns & [= <-]).
    rewrite Ec1 in E3. injection E3 as <-. destruct Hs1 as [Ho Hs1]. split; [done|]. intros i. specialize (Hs1 i). simpl in Hs1 |- *.
    destruct (decide (j = i)) as [<-|Hne].
    - rewrite list_lookup_insert_eq by (by eapply lookup_lt_Some). rewrite Ec1 in Hs1. simpl in Hs1 |- *.
      replace res with (len d) by lia. by apply (counted _ (co_set_rx (rx_set_inflight false (co_rx c)) c)).
    - by rewrite list_lookup_insert_ne. }
  revert E. refine (λ E, proj1 ((_ : yields (stream_ok b None) _ (λ _, True)) _ _ _ Hs2 E)). yields_auto.
Qed.

Lemma recv_stream ud0 j gen slot res flags d c s s' :
  stream_ok b (Some (j, d)) s → ud_parts ud0 = (OP_RECV, Z.of_nat j, gen, slot) → len d = Z.max res 0 →
  wk_conns (r_wk s) !! j = Some (Some c) → co_gen c = gen →
  rx_len (co_rx c) + len d ≤ len (rx_buf (co_rx c)) →
  handle_cqe srv ud0 res flags s = (inl tt, s') → stream_ok b None s'.
Proof.
  intros Hs Eu Hd Ec Hg Hroom. unfold handle_cqe. rewrite Eu, Nat2Z.id.
  change (OP_RECV =? OP_ACCEPT) with false. change (OP_RECV =? OP_WAKE) with false. change (OP_RECV =? OP_CANCEL) with false.
  intros (k & s0 & [= <- <-] & E)%bind_returns. rewrite Ec, Hg, Z.eqb_refl in E. cbn [negb] in E.
  apply bind_returns in E as ([] & s1 & E1 & E).
  pose proof (s_upd_conn b (Some (j, d)) j (retire OP_RECV flags) ltac:(done) ltac:(done) _ _ _ Hs E1) as [Hs1 _].
  unfold upd_conn in E1. apply bind_returns in E1 as (c0 & s2 & [-> E0]%conn_mut_returns & [= E1]).
  rewrite Ec in E0. injection E0 as <-. assert (wk_conns (r_wk s1) !! j = Some (Some (retire OP_RECV flags c))) as Ec1
    by (subst s1; simpl; by rewrite list_lookup_insert_eq by (by eapply lookup_lt_Some)).
  apply bind_returns in E as (c1 & s3 & [-> E3]%conn_mut_returns & E). rewrite Ec1 in E3. injection E3 as <-.
  destruct (co_closing (retire OP_RECV flags c)) eqn:Ecl.
  - assert (stream_ok b None s1) as Hs2 by (apply (drop_pend j d); [done|right; intros ? E2; congruence]).
    revert E. refine (λ E, proj1 ((_ : yields (stream_ok b None) _ (λ _, True)) _ _ _ Hs2 E)). yields_auto.
  - unfold on_conn_cqe in E. change (OP_RECV =? OP_RECV) with true in E. by eapply on_recv_stream.
Qed.
End handlers.

(** ** The system *)
Section system.
Context `{Env} `{!OsLaws} `{!CryptoLaws} (srv : Srv) (Hsrv : srv_ok srv).

(** The connection of an entry is there, and the entry is about it. *)
Lemma entry_conn K1 e K2 nm j s :
  worker_inv srv (K1 ++ e :: K2) nm None s → slot_of e = Some j →
  ∃ c, wk_conns (r_wk s) !! j = Some (Some c) ∧ held c (e_sqe e) ∧ rx_ok (co_rx c) ∧
    ud_parts (e_ud e) = (op_of (e_sqe e), Z.of_nat j, co_gen c, 0).
Proof.
  intros Hv He. pose proof (v_slots _ _ _ _ _ Hv j ltac:(done)) as Hj. unfold slot_ok, ents in Hj.
  assert (e ∈ filter (λ e, slot_of e = Some j) ((K1 ++ e :: K2) ++ r_sq s)) as Hin.
  { apply list_elem_of_filter. split; [done|]. set_solver. }
  destruct (wk_conns (r_wk s) !! j) as [[c|]|] eqn:Ec; [|rewrite Hj in Hin; by apply elem_of_nil in Hin..].
  destruct Hj as [[Hk _] Hg]. exists c. split_and!; try done.
  - pose proof (k_held _ _ _ Hk) as Hh. rewrite Forall_forall in Hh. by apply Hh.
  - apply Hk.
  - pose proof (k_ud _ _ _ Hk) as Hu. rewrite Forall_forall in Hu. rewrite (Hu _ Hin).
    pose proof (lookup_lt_Some _ _ _ Ec). pose proof (v_max _ _ _ _ _ Hv). unfold MAX_CONN_SLOTS in *.
    pose proof (v_gens _ _ _ _ _ Hv) as Hgs. rewrite Forall_forall in Hgs.
    specialize (Hgs _ (list_elem_of_lookup_2 _ _ _ Hg)). unfold conn_ud. apply ud_parts_ud; [by destruct (e_sqe e)|lia|lia|lia].
Qed.

Definition sys_stream (y : Sys) : Prop :=
  ∀ i k K, y_workers y !! i = Some (k, K) →
    wk_wid k = Z.of_nat i ∧
    ∀ j, slot_stream (history (Z.of_nat i) j (y_obs y)) [] (wk_conns k !! j).

(** The kernel's write behind the received bytes. *)
Lemma received h c d n fd :
  conn_stream h [] c → held c (SqRecv fd (rx_len (co_rx c)) n) → len d ≤ n → Forall is_byte d →
  let r := co_rx c in
  conn_stream (mkHist (h_received h ++ d) (h_frames h)) d
    (co_set_rx (mkRx (overwrite (rx_len r) d (rx_buf r)) (rx_off r) (rx_len r) (rx_inflight r)) c).
Proof.
  intros (Hrx & rest & E & Hp) (_ & _ & Hn & _) Hd Hb r. pose proof Hrx as (Ho & Hl & Hby). fold r in Ho, Hl, Hby, Hn, E, Hp.
  pose proof (length_overwrite (rx_len r) d (rx_buf r) ltac:(lia) ltac:(lia)) as El.
  split; [apply rx_ok_with; [done|by apply overwrite_bytes|rewrite El; lia|lia|rewrite El; lia]|].
  assert (unread (mkRx (overwrite (rx_len r) d (rx_buf r)) (rx_off r) (rx_len r) (rx_inflight r)) = unread r) as Eu.
  { unfold unread. cbn [rx_buf rx_off rx_len]. unfold overwrite.
    destruct (sub_split (rx_buf r) (rx_off r) (rx_len r)) as (x & z & Ex & Hx); [lia|lia|].
    assert (take (Z.to_nat (rx_len r)) (rx_buf r) = x ++ sub (rx_buf r) (rx_off r) (rx_len r)) as ->.
    { rewrite Ex at 1. rewrite app_assoc. apply take_app_length'.
      pose proof (length_sub (rx_buf r) (rx_off r) (rx_len r) ltac:(lia) ltac:(lia)). rewrite length_app. lia. }
    rewrite <-app_assoc. apply sub_mid; [done|]. rewrite length_sub; lia. }
  exists (rest ++ d). cbn [co_set_rx co_rx co_closing h_received h_frames]. rewrite Eu, E, <-!app_assoc. split; [done|].
  intros Hc. destruct (Hp Hc) as [-> _]. split; [done|]. cbn [rx_len rx_buf]. unfold overwrite.
  rewrite drop_app_length' by (rewrite length_take; lia). by eexists.
Qed.

(** What a completion brings is what the history gains. *)
Lemma delivered y i k k' K1 e K2 nm res flags data s :
  sys_inv srv nm y → sys_stream y → y_workers y !! i = Some (k, K1 ++ e :: K2) →
  may_complete e res flags data = true → dma e data k = Some k' →
  handle_cqe srv (e_ud e) res flags (deliver y k' e data) = (inl tt, s) →
  stream_ok (Z.of_nat i, y_obs y) None s.
Proof.
  intros Hinv Hy Hi Hmay Hd Hh. destruct (Hy _ _ _ Hi) as [Hw Hs]. pose proof (Hinv _ _ _ Hi) as Hv.
  pose proof (dma_wid _ _ _ _ Hd) as Hw'. rewrite Hw in Hw'.
  destruct (decide (is_recv (e_sqe e) = true)) as [Hr|Hr].
  - destruct (e_sqe e) as [| |fd off n| | | | | |] eqn:Ee; try done.
    assert (of_conn (e_sqe e) = true) as Hof by (by rewrite Ee).
    assert (∃ j, slot_of e = Some j) as [j Hj] by (unfold slot_of; rewrite Hof; by eexists).
    destruct (entry_conn _ _ _ _ _ _ Hv Hj) as (c & Ec & Hheld & Hrx & Eu). cbn [r_wk] in Ec. rewrite Ee in Hheld, Eu.
    assert (off = rx_len (co_rx c)) as -> by apply Hheld.
    unfold may_complete in Hmay. rewrite Ee in Hmay. rewrite !andb_true_iff in Hmay. destruct Hmay as [[Hres Hlen] Hby].
    unfold dma in Hd. rewrite Hj, Ec in Hd. destruct (e_ud e =? _); [|done]. unfold dma_conn in Hd. rewrite Ee in Hd.
    destruct (rx_len (co_rx c) + n <=? _) eqn:Eroom; [|done]. cbn [mbind option_bind] in Hd. injection Hd as <-. destruct Hheld as (Hfd & Hoff & Hn & Hpos).
    eapply (recv_stream srv _ _ j (co_gen c) 0 res flags data); [|exact Eu|lia| | | |exact Hh]; simpl;
      [|by rewrite list_lookup_insert_eq by (by eapply lookup_lt_Some)|done|].
    + split; [split; [done|]; exists [Received (Z.of_nat i) j data]; unfold deliver, arrival; rewrite Ee, Hj; simpl; rewrite Hw;
        split; [done|by repeat constructor]|].
      intros l. unfold deliver, arrival. rewrite Ee, Hj. simpl. rewrite Hw, history_snoc.
      destruct (decide (l = j)) as [->|Hne]; simpl.
      * rewrite list_lookup_insert_eq by (by eapply lookup_lt_Some). rewrite bool_decide_true, decide_True by done.
        specialize (Hs j). rewrite Ec in Hs. apply (received _ c _ n fd); [done|by split_and!|lia|by apply forallb_bytes].
      * rewrite list_lookup_insert_ne by done. rewrite bool_decide_false, decide_False by congruence. apply Hs.
    + destruct Hrx as (? & ? & _). simpl. rewrite length_overwrite by lia. lia.
  - assert (arrival k' e data = []) as Ea by (unfold arrival; by destruct (e_sqe e)).
    assert ((ud_parts (e_ud e)).1.1.1 ≠ OP_RECV) as Hop.
    { pose proof (v_tags _ _ _ _ _ Hv) as Ht. rewrite !Forall_app, Forall_cons in Ht. destruct Ht as [[_ [Ht _]] _].
      unfold tagged in Ht. rewrite Ht. by destruct (e_sqe e). }
    eapply (s_handle_cqe srv (Z.of_nat i, y_obs y) _ _ _ Hop); [|exact Hh]. unfold deliver. rewrite Ea, app_nil_r.
    split; [split; [done|]; exists []; by rewrite app_nil_r|]. intros l. simpl. rewrite Hw'. specialize (Hs l).
    unfold dma in Hd. destruct (slot_of e) as [j|]; [|by injection Hd as <-].
    destruct (wk_conns k !! j) as [[c|]|] eqn:Ec; [|done..]. destruct (_ =? _); [|done].
    destruct (dma_conn (e_sqe e) data c) as [c'|] eqn:Em; [|done]. injection Hd as <-. simpl.
    destruct (decide (l = j)) as [->|Hne]; [|by rewrite list_lookup_insert_ne].
    rewrite list_lookup_insert_eq by (by eapply lookup_lt_Some). rewrite Ec in Hs. simpl in *.
    unfold dma_conn in Em. destruct (e_sqe e); try done; repeat case_match; try done; by injection Em as <-.
Qed.

Lemma history_app wid j o l : Forall (λ x, obs_of x ≠ (wid, j)) l → history wid j (o ++ l) = history wid j o.
Proof.
  unfold history. rewrite foldl_app. generalize (foldl (hist_step wid j) (mkHist [] []) o).
  induction l as [|x l IH]; intros h Hl; [done|]. apply Forall_cons in Hl as [Hx Hl]. simpl. rewrite hist_other by done. by apply IH.
Qed.

Lemma sys_step_stream nm y y' : sys_inv srv nm y → sys_stream y → sys_step srv y y' → sys_stream y'.
Proof.
  intros Hinv Hy Hst. destruct Hst as [y i k k' K1 e K2 res flags data s Hi Hmay Hd Hh].
  destruct (delivered _ _ _ _ _ _ _ _ _ _ _ _ Hinv Hy Hi Hmay Hd Hh) as [[Hw (l & Eo & Hl)] Hs]. simpl in *.
  intros a ka Ka. simpl. intros [(<- & [= <- <-] & _)|[Hne Ha]]%list_lookup_insert_Some.
  - rewrite Hw in Hs. by split.
  - destruct (Hy _ _ _ Ha) as [Hwa Hsa]. split; [done|]. intros j. rewrite Eo, history_app; [apply Hsa|].
    eapply Forall_impl; [exact Hl|]. intros o Ho E. assert ((obs_of o).1 = Z.of_nat i) as Hi2 by exact Ho. rewrite E in Hi2. simpl in Hi2. lia.
Qed.

Lemma reachable_stream w frames ls y :
  initial w → len (w_mailboxes w) = len ls → FRAME_CONNECTS * Z.of_nat frames < 2 ^ 32 →
  rtc (sys_step srv) (sys_boot w frames ls) y → sys_stream y.
Proof.
  intros Hw Hm Hb Hr. assert (sys_inv srv (len ls) (sys_boot w frames ls)) as Hinv by (by apply boot_inv).
  assert (sys_stream (sys_boot w frames ls)) as Hy.
  { intros i k K. simpl. rewrite list_lookup_imap. intros ([fd zc] & Hi & E)%fmap_Some. unfold boot_worker in E.
    cbn [fst snd] in E. injection E as -> ->. unfold worker_start, arm_accept, arm_wake, my_mailbox, mbind, ST_bind, gets, sq_push, modify.
    simpl. destruct (w_mailboxes w !! _); simpl; (split; [done|]); intros j; by exists []. }
  induction Hr as [|y1 y2 y3 Hst _ IH]; [done|]. apply IH; [by eapply sys_step_inv|by eapply sys_step_stream].
Qed.

(** C10: No byte of a request is lost, duplicated or reordered on its way to
    the protocol layer. In every state the workers and the kernel can reach,
    and for every connection slot: the frames processed for its connection so
    far, each put back behind its NBT header, are a prefix of the bytes the
    kernel delivered on that connection, however the kernel cut the stream
    into completions; and while the connection is open, what follows them is
    exactly the unread part of its receive buffer, wherever compacting and
    growing have moved it. *)
Theorem stream_is_preserved w frames ls y i k K j :
  initial w → len (w_mailboxes w) = len ls → FRAME_CONNECTS * Z.of_nat frames < 2 ^ 32 →
  rtc (sys_step srv) (sys_boot w frames ls) y → y_workers y !! i = Some (k, K) →
  let h := history (Z.of_nat i) j (y_obs y) in
  ∃ rest, h_received h = wire (h_frames h) ++ rest ∧
    ∀ c, wk_conns k !! j = Some (Some c) → co_closing c = false → rest = unread (co_rx c).
Proof.
  intros Hw Hm Hb Hr Hi h. destruct (reachable_stream w frames ls y Hw Hm Hb Hr _ _ _ Hi) as [_ Hs].
  specialize (Hs j). fold h in Hs. destruct (wk_conns k !! j) as [[c|]|]; [|destruct Hs as [rest E]; by exists rest..].
  destruct Hs as (_ & rest & E & Hp). exists (unread (co_rx c) ++ rest). split; [done|]. intros ? [= <-] Hc.
  destruct (Hp Hc) as [-> _]. by rewrite app_nil_r.
Qed.
End system.

(** ** A run: an ECHO arrives in three pieces, the second half of the last
    one belonging to the next request *)
Definition cut_run : list (nat * nat * Z * Z * bytes) :=
  [(0%nat, 0%nat, 7, CQE_F_MORE, []); (0%nat, 2%nat, 3, 0, take 3 ring_echo);
   (0%nat, 2%nat, 10, 0, take 10 (drop 3 ring_echo));
   (0%nat, 2%nat, len (drop 13 ring_echo) + 5, 0, drop 13 ring_echo ++ take 5 ring_echo)].

Lemma cut_run_spec : ∃ y k K, @run mem_env sample_srv ring_start cut_run = Some y ∧
  y_workers y !! 0%nat = Some (k, K) ∧ h_frames (history 0 0 (y_obs y)) = [drop 4 ring_echo] ∧
  unread ∘ co_rx <$> omap id (wk_conns k) = [take 5 ring_echo].
Proof.
  assert ((λ y, (h_frames (history 0 0 (y_obs y)), (λ x, unread ∘ co_rx <$> omap id (wk_conns x.1)) <$> y_workers y !! 0%nat))
    <$> @run mem_env sample_srv ring_start cut_run = Some ([drop 4 ring_echo], Some [take 5 ring_echo])) as E by (by vm_compute).
  apply fmap_Some in E as (y & E & Hy). exists y. destruct (y_workers y !! 0%nat) as [[k K]|] eqn:Ek; [|done].
  exists k, K. split; [exact E|]. split; [done|]. simpl in Hy. injection Hy as E1 E2. split; [symmetry; exact E1|symmetry; exact E2].
Qed.

Lemma stream_is_preserved_witness :
  ∃ y rest, rtc (@sys_step mem_env sample_srv) ring_start y ∧
    h_frames (history 0 0 (y_obs y)) = [drop 4 ring_echo] ∧
    h_received (history 0 0 (y_obs y)) = wire [drop 4 ring_echo] ++ rest.
Proof.
  destruct cut_run_spec as (y & k & K & Hr & Hy & Hf & _). apply run_steps in Hr.
  destruct (@stream_is_preserved mem_env _ _ sample_srv sample_srv_ok ring_world 4 [(3, true)] y 0 k K 0)
    as (rest & E & _); [done|done|done|exact Hr|exact Hy|].
  exists y, rest. split; [exact Hr|]. split; [exact Hf|]. change (Z.of_nat 0) with 0 in E. rewrite Hf in E. exact E.
Defined.
