(* ===== verification/Outbox.v ===== *)
(** The send path keeps the messages whole: what the kernel takes from a
    connection is a sequence of complete NBT messages, in the order they were
    queued, of which only the last may still be incomplete; the part that is
    missing is what the connection still holds. This covers partial sends,
    zero-copy sends and reads spliced from the file to the socket. *)
From S2P Require Import Prelude Hoare Wire Status Os Sample Lease Vfs Handles Crypto Session Config Smb2 State.
From S2P Require Import Setup FileOps Dispatch Confine TreeSafe SessionSafe WorldSafe Appends Uring Reactor ReactorSafe Completions Ring Stream.
Local Open Scope Z_scope.

(** ** Output *)

(** A byte of a buffer, or the byte at an offset of a file. *)
Inductive OutByte := B (b : Z) | F (fd off : Z).

(** [n] bytes of a file. *)
Definition file_bytes (fd off n : Z) : list OutByte := (λ i, F fd (off + i)) <$> seqZ 0 n.

Definition message (body : list OutByte) : list OutByte := (B <$> nbt_hdr (len body)) ++ body.

(** A sequence of whole messages. *)
Definition whole (l : list OutByte) : Prop := ∃ bodies, l = concat (message <$> bodies).

Lemma whole_nil : whole [].
Proof. by exists []. Qed.
Lemma whole_message l body : whole l → whole (l ++ message body).
Proof.
  intros [bs ->]. exists (bs ++ [body]). rewrite fmap_app, concat_app. simpl. by rewrite app_nil_r.
Qed.
Lemma whole_framed l out : whole l → framed out → whole (l ++ (B <$> out)).
Proof.
  intros Hl [->|[body ->]]; [by rewrite app_nil_r|]. rewrite fmap_app.
  replace (len body) with (len (B <$> body)) by (by rewrite length_fmap). by apply (whole_message l (B <$> body)).
Qed.

(** The part of the transmit side that output depends on. *)
Record Out := mkOut { o_mode : Tx; o_buf : bytes; o_off : Z; o_zc : option Zc }.
Definition core_of (t : TxSide) : Out := mkOut (tx_mode t) (tx_buf t) (tx_off t) (tx_zc t).

(** The bytes of a zero-copy read that are still to leave the pipe. *)
Definition zc_bytes (z : Zc) : list OutByte :=
  file_bytes (zp_fd (zc_plan z)) (zp_offset (zc_plan z) + (zc_got z - zc_out_left z)) (zc_out_left z).
Definition file_part (o : Out) : list OutByte := match o_zc o with Some z => zc_bytes z | None => [] end.
Definition buf_part (o : Out) : list OutByte := B <$> drop (Z.to_nat (o_off o)) (o_buf o).

(** A linked chain has sent its header once two of its three parts are done. *)
Definition header_due (o : Out) : bool :=
  match o_zc o with Some z => zc_linked z && (2 <=? zc_chain z) | None => false end.

(** What a connection still has to send, after what the kernel has taken. *)
Definition outbox (o : Out) : list OutByte :=
  match o_mode o with
  | Idle | Send => buf_part o
  | Drain | ZcIn => []
  | ZcHdr => buf_part o ++ file_part o
  | ZcOut => (if header_due o then buf_part o else []) ++ file_part o
  end.

(** A linked chain that failed: the connection closes when its last part has
    completed. *)
Definition doomed (o : Out) : bool :=
  match o_zc o with Some z => zc_linked z && zc_err z | None => false end.

Lemma length_file_bytes fd off n : 0 ≤ n → len (file_bytes fd off n) = n.
Proof. intros. unfold file_bytes. rewrite length_fmap, length_seqZ. lia. Qed.

Lemma file_bytes_drop fd off n m : 0 ≤ m ≤ n → drop (Z.to_nat m) (file_bytes fd off n) = file_bytes fd (off + m) (n - m).
Proof.
  intros. apply list_eq. intros i. rewrite lookup_drop. unfold file_bytes. rewrite !list_lookup_fmap.
  destruct (decide (Z.of_nat i < n - m)).
  - rewrite !lookup_seqZ_lt by lia. simpl. f_equal. f_equal. lia.
  - rewrite !lookup_seqZ_ge by lia. done.
Qed.

Lemma file_bytes_nil fd off n : n ≤ 0 → file_bytes fd off n = [].
Proof. intros. unfold file_bytes. by rewrite seqZ_nil by lia. Qed.

(** ** Messages are framed *)
Lemma finish_framed body :
  framed (finish_nbt_with 0 (wrap 32 (len (replicate 4 0 ++ body) - 4)) (replicate 4 0 ++ body)).
Proof.
  right. exists body. pose proof (finish_nbt_app [] body) as E. rewrite !app_nil_l in E. rewrite <- E. by rewrite Z.sub_0_r.
Qed.

(** A buffer that starts with a header to fill in. *)
Lemma finish_prefix_framed tx :
  replicate 4 0 `prefix_of` tx → framed (finish_nbt_with 0 (wrap 32 (len tx - 4)) tx).
Proof. intros [body ->]. apply finish_framed. Qed.

Section framed.
Context `{Env}.

Lemma sign_prefix pre start e sc tx : len pre ≤ start → pre `prefix_of` tx → pre `prefix_of` sign_in_place start e sc tx.
Proof. intros Hs Hp. unfold sign_in_place. cbv zeta. apply prefix_patch; [lia|]. by apply prefix_patch; [lia|]. Qed.

Lemma finalize_framed pc meta tx :
  replicate 4 0 `prefix_of` tx → framed (finalize_async pc meta 4 tx).
Proof.
  intros Hp. unfold finalize_async. cbv zeta. apply finish_prefix_framed. repeat case_match; try done.
  by apply sign_prefix.
Qed.

Lemma notify_final_framed `{!CryptoLaws} pc meta st evs n : framed (build_notify_final pc meta st evs n).1.
Proof.
  unfold build_notify_final. cbv zeta. set (tx := if (_ : bool) then _ else _).
  assert (framed tx) as Ht.
  { unfold tx. destruct (_ && _); apply finalize_framed; change (replicate 4 0) with ([] ▷ zeros 4); appends_peel. }
  clearbody tx. destruct (pc_channels pc !! _) as [ch|]; [|done]. destruct (ch_encrypt ch); [|done].
  destruct (ch_enc ch) as [e|]; [|done]. destruct (wrap_framed (drop 4 tx) e (am_session_id meta) []) as [body E].
  destruct (wrap_transform _ _ _ _) as [e' sealed]. simpl in *. subst sealed. right. by exists body.
Qed.

Lemma lease_break_framed key cur new epoch sid sign : framed (build_lease_break key cur new epoch sid sign).
Proof.
  unfold build_lease_break. cbv zeta. apply finish_prefix_framed.
  assert (∀ tx, replicate 4 0 `prefix_of` tx → replicate 4 0 `prefix_of`
    match sign with Some sc => sign_in_place (len ([] ▷ zeros 4)) (len tx) sc tx | None => tx end) as Hs.
  { intros tx Ht. destruct sign; [by apply sign_prefix|done]. }
  apply Hs. change (replicate 4 0) with ([] ▷ zeros 4). appends_peel.
Qed.
End framed.

Lemma read_err_framed plan st : framed (build_read_err plan st).
Proof.
  unfold build_read_err. cbv zeta. set (tx := err_body _).
  assert (replicate 4 0 `prefix_of` tx) as [body E] by (change (replicate 4 0) with ([] ▷ zeros 4); unfold tx; appends_peel).
  replace (len tx - 4) with (wrap 32 (len tx - 4)) by (by vm_compute). apply finish_prefix_framed. by exists body.
Qed.

(** The header of a read response, with the data that follows it. *)
Lemma read_prefix_message plan n data : 0 ≤ n → len data = n → ∃ body,
  (B <$> build_read_resp_prefix plan n) ++ data = message body.
Proof.
  intros Hn Hd. unfold build_read_resp_prefix. cbv zeta. set (tx := p32 0 _).
  assert (replicate 4 0 `prefix_of` tx) as [body E] by (change (replicate 4 0) with ([] ▷ zeros 4); unfold tx; appends_peel).
  clearbody tx. subst tx. exists ((B <$> body) ++ data). unfold finish_nbt_with. pose proof (patch_app [] (replicate 4 0) body) as Ep. cbn [app length Z.of_nat] in Ep.
  rewrite Ep by done. clear Ep.
  change [0; Z.land (Z.shiftr ?x 16) 0xFF; Z.land (Z.shiftr ?x 8) 0xFF; Z.land ?x 0xFF] with (nbt_hdr x).
  rewrite nbt_hdr_wrap. unfold message. rewrite fmap_app, <-app_assoc. f_equal. f_equal. f_equal.
  rewrite !length_app, length_fmap, length_replicate. lia.
Qed.

(** ** Plans of zero-copy reads *)
Definition plan_ok (p : option ZcReadPlan) : Prop := ∀ z, p = Some z → 0 ≤ zp_length z.

Section plans.
Context `{Env} (srv : Srv).

Definition plans {A} (P : A → Prop) (m : M A) : Prop := ∀ s a s', m s = (inl a, s') → P a.

Lemma plans_ret {A} (P : A → Prop) a : P a → plans P (mret a).
Proof. by intros ? s b s' [= <- _]. Qed.
Lemma plans_halt {A} (P : A → Prop) e : plans P (halt e).
Proof. by intros s b s'. Qed.
Lemma plans_bind {A C} (P : C → Prop) (m : M A) (k : A → M C) : (∀ a, plans P (k a)) → plans P (m ≫= k).
Proof. intros Hk s b s' (a & s1 & _ & E)%bind_returns. by eapply Hk. Qed.
Lemma plans_bind_with {A C} (R : A → Prop) (P : C → Prop) (m : M A) (k : A → M C) :
  plans R m → (∀ a, R a → plans P (k a)) → plans P (m ≫= k).
Proof. intros Hm Hk s b s' (a & s1 & E1 & E)%bind_returns. eapply Hk; [by eapply Hm|done]. Qed.
Lemma plans_session {A} (P : A → Prop) sid x (m : M A) : plans P m → plans P (with_session sid x m).
Proof.
  intros Hm s a s'. unfold with_session. destruct (m _) as [[b|e] s1] eqn:E; [|done]. intros [= <- _]. by eapply Hm.
Qed.
End plans.

Ltac plans_auto :=
  repeat match goal with
  | |- plans plan_ok (mret None) => by apply plans_ret
  | |- plans _ (halt _) => apply plans_halt
  | |- plans _ (mbind _ _) => apply plans_bind; intros ?
  | |- plans _ (let '(_, _) := ?x in _) => destruct x
  | |- plans _ (match ?x with _ => _ end) => destruct x eqn:?
  end.

Section plans2.
Context `{Env} (srv : Srv).

Lemma plans_read h body : plans plan_ok (read h body).
Proof.
  unfold read. plans_auto. apply plans_ret. intros pl [= <-]. simpl.
  match goal with Hb : _ && _ && _ = true |- _ => rewrite !andb_true_iff in Hb; destruct Hb as [[_ Hb%Z.leb_le] _] end.
  unfold ZC_MIN_READ in *. lia.
Qed.

Lemma plans_dispatch h msg : plans plan_ok (dispatch srv h msg).
Proof.
  unfold dispatch, dispatch_cmd, dispatch_session. plans_auto. apply plans_session.
  unfold dispatch_locked, dispatch_tree. plans_auto. apply plans_read.
Qed.

Lemma plans_loop frame base fuel : ∀ l, plan_ok (ls_plan l) → plans (λ l, plan_ok (ls_plan l)) (compound_loop fuel srv frame base l).
Proof.
  induction fuel as [|fuel IH]; intros l Hl; cbn [compound_loop]; [apply plans_halt|].
  destruct (parse_hdr _) as [h|]; [|by apply plans_ret]. apply plans_bind. intros n. cbv zeta.
  destruct (_ || _); [apply plans_bind; intros ?; by apply plans_ret|]. destruct (_ <? _); [by apply plans_ret|].
  do 4 (apply plans_bind; intros ?). eapply plans_bind_with; [apply plans_dispatch|]. intros z Hz.
  do 2 (apply plans_bind; intros ?). destruct (if (_ : bool) then _ else _) as [prev recs].
  assert (plan_ok (match z with Some z => Some z | None => ls_plan l end)) as Hp by (by destruct z).
  destruct (_ || _); [by apply plans_ret|by apply IH].
Qed.

(** The plan of an action. *)
Definition action_ok (a : FrameAction) : Prop := match a with ZcRead p => 0 ≤ zp_length p | _ => True end.

Lemma plans_plain frame tsid : plans action_ok (process_plain srv frame tsid).
Proof.
  unfold process_plain. do 2 (apply plans_bind; intros ?). destruct (_ && _).
  { unfold process_smb1. repeat first [by apply plans_ret | apply plans_bind; intros ? | case_match]. }
  apply plans_bind. intros ?. eapply plans_bind_with; [by apply plans_loop|]. intros l Hl.
  apply plans_bind. intros c. destruct c; [do 2 (apply plans_bind; intros ?); by apply plans_ret|].
  destruct (ls_plan l) as [p|] eqn:E; [apply plans_bind; intros ?; apply plans_ret; by apply Hl|].
  do 4 (apply plans_bind; intros ?). apply plans_bind. intros ?. by apply plans_ret.
Qed.

Lemma plans_frame frame : plans action_ok (process_frame srv frame).
Proof.
  unfold process_frame. destruct (is_transform frame); [|apply plans_plain].
  repeat first [by apply plans_ret | apply plans_bind; intros ? | case_match]; unfold seal_reply;
  repeat first [by apply plans_ret | apply plans_bind; intros ? | case_match].
Qed.
End plans2.

(** ** The invariant

    [sent j] is what the kernel has taken from the connection in slot [j]. A
    handler works on the connection of one slot, [x], and takes its transmit
    side through phases; the others are settled. Nothing is said of a
    connection that is closing. *)
Definition shape (o : Out) : Prop :=
  (o_mode o = Idle ∨ o_mode o = Send ∨ o_mode o = Drain → o_zc o = None) ∧
  (o_mode o = Idle → o_buf o = [] ∧ o_off o = 0) ∧
  (∀ z, o_zc o = Some z → 0 ≤ zc_got z).

Definition settled (l : list OutByte) (o : Out) : Prop := shape o ∧ (doomed o = false → whole (l ++ outbox o)).

(** Responses are gathered in the buffer. *)
Definition filling (l : list OutByte) (o : Out) : Prop :=
  o_mode o = Idle ∧ o_zc o = None ∧ o_off o = 0 ∧ whole (l ++ (B <$> o_buf o)).

(** Everything queued has been taken. *)
Definition cleared (l : list OutByte) (o : Out) : Prop := o_zc o = None ∧ whole l.

(** What a connection holds for later is framed. *)
Definition side_ok (c : Conn) : Prop := Forall framed (co_deferred c) ∧ plan_ok (tx_pending_zc (co_tx c)).

Lemma filling_idle l o : settled l o → o_mode o = Idle → filling l o.
Proof.
  intros [(Hz & Hb & _) Hw] Hm. specialize (Hz (or_introl Hm)). destruct (Hb Hm) as [E1 E2]. split_and!; try done.
  unfold doomed in Hw. rewrite Hz in Hw. specialize (Hw eq_refl). unfold outbox, buf_part in Hw.
  rewrite Hm, E1, E2 in Hw. by rewrite E1.
Qed.

Lemma settled_send l b off : whole (l ++ (B <$> drop (Z.to_nat off) b)) → settled l (mkOut Send b off None).
Proof. intros Hw. split; [|done]. split_and!; [done|done|by intros ?]. Qed.

Section output.
Context `{Env} (sent : nat → list OutByte) (x : nat).

Definition phase (P : Out → Prop) (s : RSt) : Prop :=
  ∀ j c, wk_conns (r_wk s) !! j = Some (Some c) → co_closing c = false →
    side_ok c ∧ if decide (j = x) then P (core_of (co_tx c)) else settled (sent j) (core_of (co_tx c)).

(** From phase [P] to phase [Q]. *)
Definition moves {A} (P : Out → Prop) (m : RM A) (Q : A → Out → Prop) : Prop :=
  ∀ s a s', phase P s → m s = (inl a, s') → phase (Q a) s'.

Lemma phase_weaken (P Q : Out → Prop) s : (∀ o, P o → Q o) → phase P s → phase Q s.
Proof. intros HPQ Hs j c Hc Hcl. destruct (Hs j c Hc Hcl) as [? Hp]. split; [done|]. case_decide; auto. Qed.

Lemma m_weaken {A} (P P' : Out → Prop) (m : RM A) Q Q' :
  (∀ o, P o → P' o) → moves P' m Q' → (∀ a o, Q' a o → Q a o) → moves P m Q.
Proof.
  intros HP Hm HQ s a s' Hs E. eapply phase_weaken; [apply HQ|]. eapply Hm; [|exact E]. by eapply phase_weaken.
Qed.

Lemma m_ret {A} (a : A) P : moves P (mret a) (λ _, P).
Proof. by intros s b s' Hs [= _ <-]. Qed.
Lemma m_done {A} (a : A) P (Q : A → Out → Prop) : (∀ o, P o → Q a o) → moves P (mret a) Q.
Proof. intros HQ s b s' Hs [= <- <-]. by eapply phase_weaken. Qed.
Lemma m_halt {A} e P (Q : A → Out → Prop) : moves P (halt e) Q.
Proof. by intros s b s'. Qed.
Lemma m_bind {A C} P (m : RM A) (k : A → RM C) R Q : moves P m R → (∀ a, moves (R a) (k a) Q) → moves P (m ≫= k) Q.
Proof. intros Hm Hk s b s' Hs (a & s1 & E1 & E2)%bind_returns. eapply Hk; [|exact E2]. by eapply Hm. Qed.
Lemma m_seq {A C} P (m : RM A) (k : RM C) R Q : moves P m (λ _, R) → moves R k Q → moves P (m ;; k) Q.
Proof. intros. by eapply m_bind. Qed.

(** What leaves the connections alone. *)
Lemma m_same {A} P (m : RM A) :
  (∀ s a s', m s = (inl a, s') → wk_conns (r_wk s') = wk_conns (r_wk s)) → moves P m (λ _, P).
Proof. intros Hm s a s' Hs E j c. rewrite (Hm _ _ _ E). apply Hs. Qed.

Lemma m_gets {A} (f : RSt → A) P : moves P (gets f) (λ _, P).
Proof. apply m_same. by intros s a s' [= _ <-]. Qed.
Lemma m_rio {A} (m : IO A) P : moves P (rio m) (λ _, P).
Proof. apply m_same. intros s a s'. unfold rio, zoom. destruct (m _) as [[b|e] o]; [|done]. by intros [= _ <-]. Qed.
Lemma m_sq_push e P : moves P (sq_push e) (λ _, P).
Proof. apply m_same. by intros s a s' [= _ <-]. Qed.
Lemma m_proto {A} p tx (m : M A) P : moves P (proto_run p tx m) (λ _, P).
Proof. apply m_same. intros s a s'. unfold proto_run. destruct (m _) as [[b|e] o]; [|done]. by intros [= _ <-]. Qed.
Lemma m_set_w f P : moves P (modify (λ s, r_set_w (f s) s)) (λ _, P).
Proof. apply m_same. by intros s a s' [= _ <-]. Qed.
Lemma m_upd_wk f P : (∀ k, wk_conns (f k) = wk_conns k) → moves P (upd_wk f) (λ _, P).
Proof. intros Hf. apply m_same. intros s a s' [= _ <-]. apply Hf. Qed.
Lemma m_expect {A} (v : option A) P : moves P (expect v) (λ a o, P o ∧ v = Some a).
Proof.
  intros s a s' Hs. unfold expect. destruct v; [|done]. intros [= <- <-]. eapply phase_weaken; [|exact Hs]. auto.
Qed.

(** The connection in a slot. *)
Lemma m_conn_mut j P : moves P (conn_mut j) (λ _, P).
Proof. apply m_same. intros s a s' [-> _]%conn_mut_returns. done. Qed.

(** The connection worked on: its state is known from here. *)
Lemma m_conn_x P : moves P (conn_mut x) (λ c o, P o ∧ o = core_of (co_tx c)).
Proof.
  intros s c s' Hs [-> Hc]%conn_mut_returns j d Hd Hcl. destruct (Hs j d Hd Hcl) as [? Hp]. split; [done|].
  case_decide; [|done]. subst j. rewrite Hc in Hd. by injection Hd as <-.
Qed.

(** An update of a connection that does not concern its output. *)
Lemma m_upd_conn j f P :
  (∀ c, core_of (co_tx (f c)) = core_of (co_tx c)) → (∀ c, co_closing (f c) = false → co_closing c = false) →
  (∀ c, side_ok c → side_ok (f c)) → moves P (upd_conn j f) (λ _, P).
Proof.
  intros Hf Hcl Hs s a s' Hp. unfold upd_conn. intros (c & s1 & [-> Hc]%conn_mut_returns & [= _ <-])%bind_returns.
  intros i d. simpl. intros [(<- & [= <-] & _)|[_ Hd]]%list_lookup_insert_Some Hd'; [|by apply Hp].
  rewrite Hf. destruct (Hp _ _ Hc (Hcl _ Hd')). auto.
Qed.

(** An update of the transmit side worked on. *)
Lemma m_upd_tx f P Q :
  (∀ t, P (core_of t) → Q (core_of (f t))) → (∀ t, tx_pending_zc (f t) = tx_pending_zc t) →
  moves P (upd_tx x f) (λ _, Q).
Proof.
  intros Hf Ht s a s' Hp. unfold upd_tx, upd_conn. intros (c & s1 & [-> Hc]%conn_mut_returns & [= _ <-])%bind_returns.
  intros i d. simpl. intros [(<- & [= <-] & _)|[Hne Hd]]%list_lookup_insert_Some Hd'; destruct (Hp _ _ ltac:(done) Hd') as [[H1 H2] H3].
  - rewrite decide_True in * by done. split; [split; [done|]; simpl; by rewrite Ht|]. by apply Hf.
  - rewrite decide_False in * by done. done.
Qed.
End output.

Create HintDb moves discriminated.
#[export] Hint Constants Opaque : moves.
#[export] Hint Extern 0 (moves _ _ _ (mret _) _) => (apply m_ret) : moves.
#[export] Hint Extern 0 (moves _ _ _ (halt _) _) => (apply m_halt) : moves.
#[export] Hint Resolve m_gets m_rio m_sq_push m_proto m_set_w m_conn_mut : moves.
#[export] Hint Extern 1 (moves _ _ _ (upd_conn _ _) _) =>
  (apply m_upd_conn; intros ?; repeat case_match; done) : moves.
#[export] Hint Extern 1 (moves _ _ _ (upd_tx _ _) _) => (apply m_upd_conn; intros ?; done) : moves.
#[export] Hint Extern 1 (moves _ _ _ (upd_rx _ _) _) => (apply m_upd_conn; intros ?; done) : moves.
#[export] Hint Extern 1 (moves _ _ _ (upd_wk _) _) => (apply m_upd_wk; intros ?; done) : moves.

(** Computations that stay in one phase. *)
Ltac moves_step :=
  match goal with
  | |- moves _ _ ?P (mbind (λ _, ?k) _) _ => apply (m_seq _ _ P _ _ P)
  | |- moves _ _ ?P (mbind _ _) _ => apply (m_bind _ _ P _ _ (λ _, P)); [|intros ?]
  | |- moves _ _ ?P (expect _) _ => eapply m_weaken; [intros ? Hp; exact Hp|apply m_expect|by intros ? ? [? _]]
  | |- moves _ _ _ (let '(_, _) := ?x in _) _ => destruct x eqn:?
  | |- moves _ _ _ (match ?x with _ => _ end) _ => destruct x eqn:?
  end.
Ltac moves_auto := repeat first [solve [eauto 2 with moves] | moves_step].

Section neutral.
Context `{Env} (sent : nat → list OutByte) (x : nat).
Local Abbreviation stays m := (∀ P, moves sent x P m (λ _, P)).

Lemma m_for_each {A} P (l : list A) (body : A → RM unit) :
  (∀ a, moves sent x P (body a) (λ _, P)) → moves sent x P (for_each l body) (λ _, P).
Proof. intros Hb. induction l as [|a l IH]; simpl; [apply m_ret|]. by eapply m_seq. Qed.

Lemma m_sq_push_conn j e : stays (sq_push_conn j e).
Proof. intros P. unfold sq_push_conn. moves_auto. Qed.
Lemma m_close_fd fd : stays (close_fd fd).
Proof. intros P. unfold close_fd. moves_auto. Qed.
Lemma m_arm_accept : stays arm_accept.
Proof. intros P. unfold arm_accept. moves_auto. Qed.
Lemma m_my_mailbox : stays my_mailbox.
Proof. intros P. unfold my_mailbox. moves_auto. Qed.
#[local] Hint Resolve m_sq_push_conn m_close_fd m_arm_accept m_my_mailbox : moves.
Lemma m_arm_wake : stays arm_wake.
Proof. intros P. unfold arm_wake. moves_auto. Qed.
Lemma m_drop_conn c : stays (drop_conn c).
Proof. intros P. unfold drop_conn. moves_auto. Qed.
#[local] Hint Resolve m_arm_wake m_drop_conn : moves.

(** Closing: nothing is said of the connection from then on. *)
Lemma m_empty_slot j P : moves sent x P (upd_wk (λ k, wk_set_conns (<[j := None]> (wk_conns k)) k)) (λ _, P).
Proof. intros s a s' Hs [= _ <-] i c. simpl. intros [(_ & ? & _)|[_ Hc]]%list_lookup_insert_Some; [done|by apply Hs]. Qed.
#[local] Hint Resolve m_empty_slot : moves.
Lemma m_finalize_close j : stays (finalize_close j).
Proof. intros P. unfold finalize_close. moves_auto. Qed.
#[local] Hint Resolve m_finalize_close : moves.

Lemma m_set_closing P Q : moves sent x P (upd_conn x (co_set_closing true)) (λ _, Q).
Proof.
  intros s a s' Hp. unfold upd_conn. intros (c & s1 & [-> Hc]%conn_mut_returns & [= _ <-])%bind_returns.
  intros i d. simpl. intros [(<- & [= <-] & _)|[Hne Hd]]%list_lookup_insert_Some Hd'; [done|].
  destruct (Hp _ _ Hd Hd') as [? Hi]. rewrite decide_False in * by done. done.
Qed.

Lemma m_close P Q : moves sent x P (close_conn_ring x) (λ _, Q).
Proof.
  intros s a s' Hs. unfold close_conn_ring. intros (k & s0 & [= <- <-] & E)%bind_returns.
  destruct (wk_conns (r_wk s) !! x) as [[c|]|] eqn:Ec; [| |done].
  - apply bind_returns in E as ([] & s1 & E1 & E). apply (m_set_closing P Q) in E1; [|done].
    revert E. refine ((_ : moves sent x Q _ (λ _, Q)) _ _ _ E1). moves_auto.
  - injection E as _ <-. intros j c Hc Hcl. destruct (Hs j c Hc Hcl) as [? Hj]. split; [done|].
    case_decide; [by subst j; rewrite Ec in Hc|done].
Qed.

Lemma m_maybe_arm_recv : stays (maybe_arm_recv x).
Proof. intros P. pose proof (m_close P P). unfold maybe_arm_recv. moves_auto. Qed.
Lemma m_submit_send j fl : stays (submit_send j fl).
Proof. intros P. unfold submit_send. moves_auto. Qed.
Lemma m_submit_splice_in j : stays (submit_splice_in j).
Proof. intros P. unfold submit_splice_in. moves_auto. Qed.
Lemma m_submit_splice_out j : stays (submit_splice_out j).
Proof. intros P. unfold submit_splice_out. moves_auto. Qed.
Lemma m_submit_zc_linked j : stays (submit_zc_linked j).
Proof. intros P. unfold submit_zc_linked. moves_auto. Qed.
Lemma m_arm_inotify j : stays (arm_inotify j).
Proof. intros P. unfold arm_inotify. moves_auto. Qed.
Lemma m_drain_pipe fuel : ∀ fd n, stays (drain_pipe fuel fd n).
Proof. induction fuel as [|fuel IH]; intros fd n P; cbn [drain_pipe]; moves_auto. Qed.
End neutral.
#[export] Hint Resolve m_for_each m_sq_push_conn m_close_fd m_arm_accept m_arm_wake m_my_mailbox m_drop_conn m_finalize_close : moves.
#[export] Hint Resolve m_close m_maybe_arm_recv m_submit_send m_submit_splice_in m_submit_splice_out m_submit_zc_linked : moves.
#[export] Hint Resolve m_arm_inotify m_drain_pipe : moves.

(** ** CHANGE_NOTIFY and lease breaks *)
Section notify.
Context `{Env} `{!CryptoLaws} (sent : nat → list OutByte) (x : nat).
Local Abbreviation stays m := (∀ P, moves sent x P m (λ _, P)).

Lemma side_defer resp c : framed resp → side_ok c → side_ok (co_set_deferred (co_deferred c ++ [resp]) c).
Proof. intros Hr [Hd Hp]. split; [|done]. apply Forall_app. split; [done|]. by apply Forall_singleton. Qed.

Lemma m_push_final j pend st evs : stays (push_final j pend st evs).
Proof.
  intros P. apply m_upd_conn; intros c;
    pose proof (notify_final_framed (co_proto c) (np_meta pend) st evs (np_out_len pend)) as Hf;
    destruct (build_notify_final _ _ _ _ _) as [resp p]; try done. by apply (side_defer resp (co_set_proto p c)).
Qed.
Lemma m_set_watches j f : stays (set_watches j f).
Proof. intros P. unfold set_watches. moves_auto. Qed.
Lemma m_rm_watch j wd : stays (rm_watch j wd).
Proof. intros P. unfold rm_watch. moves_auto. Qed.
#[local] Hint Resolve m_push_final m_set_watches m_rm_watch : moves.
Lemma m_complete_notify j pend st evs : stays (complete_notify j pend st evs).
Proof. intros P. unfold complete_notify. moves_auto. Qed.
Lemma m_ensure_inotify j : stays (ensure_inotify j).
Proof. intros P. unfold ensure_inotify. moves_auto. Qed.
#[local] Hint Resolve m_complete_notify m_ensure_inotify : moves.
Lemma m_notify_finish j d : stays (notify_finish j d).
Proof. intros P. unfold notify_finish. moves_auto. Qed.
Lemma m_notify_add j pend : stays (notify_add j pend).
Proof. intros P. unfold notify_add. moves_auto. Qed.
#[local] Hint Resolve m_notify_finish m_notify_add : moves.
Lemma m_service_notify j : stays (service_notify j).
Proof. intros P. unfold service_notify. moves_auto. Qed.
Lemma m_fire_all j rm : ∀ l fired, stays (fire_all j rm l fired).
Proof. induction l as [|[wd evs] l IH]; intros fired P; cbn [fire_all]; unfold fire; moves_auto. Qed.
End notify.
#[export] Hint Resolve m_complete_notify m_service_notify m_fire_all : moves.

(** ** Sending *)
Section sending.
Context `{Env} `{!CryptoLaws} (srv : Srv) (sent : nat → list OutByte) (x : nat).
Local Abbreviation go := (moves sent x).
Local Abbreviation l := (sent x).

(** One step of a phase, then the rest. *)
Lemma m_upd_tx_seq {A} f P R (k : RM A) Q :
  (∀ t, P (core_of t) → R (core_of (f t))) → (∀ t, tx_pending_zc (f t) = tx_pending_zc t) →
  go R k Q → go P (upd_tx x f ;; k) Q.
Proof. intros. eapply m_seq; [by apply m_upd_tx|done]. Qed.

Lemma m_with_conn {A} P (k : Conn → RM A) Q :
  (∀ c, go (λ o, P o ∧ o = core_of (co_tx c)) (k c) Q) → go P (conn_mut x ≫= k) Q.
Proof. intros Hk. eapply m_bind; [apply m_conn_x|exact Hk]. Qed.

Lemma m_drop_conn_fact {A} P c (m : RM A) Q : go P m Q → go (λ o, P o ∧ o = core_of (co_tx c)) m Q.
Proof. intros Hm. eapply m_weaken; [by intros ? [? _]|exact Hm|done]. Qed.

Lemma m_start_send : go (filling l) (start_send x) (λ _, settled l).
Proof.
  unfold start_send. eapply m_upd_tx_seq; [|done|moves_auto]. intros t (Hm & Hz & Ho & Hw). simpl in *.
  unfold core_of. simpl. rewrite Hz, Ho. by apply settled_send.
Qed.

Lemma m_send_now tx : framed tx → go (cleared l) (send_now x tx) (λ _, settled l).
Proof.
  intros Hf. unfold send_now. eapply m_upd_tx_seq; [|done|moves_auto]. intros t [Hz Hw]. unfold core_of. simpl in *.
  rewrite Hz. apply settled_send. by apply whole_framed.
Qed.

Lemma m_ensure_pipe plan :
  go (cleared l) (ensure_pipe srv x plan) (λ b, if b then cleared l else settled l).
Proof.
  unfold ensure_pipe. eapply m_bind; [apply m_conn_mut|]. intros c. cbn beta. destruct (co_pipe c); [by apply m_done|].
  eapply m_bind; [apply m_rio|]. intros [[r w]|e]; cbn beta.
  - eapply m_bind; [apply m_rio|]. intros []. eapply m_bind; [apply m_rio|]. intros got.
    eapply m_seq; [by apply m_upd_conn|]. by apply m_done.
  - eapply m_seq; [apply m_close_fd|]. eapply m_seq; [apply m_send_now, read_err_framed|]. by apply m_done.
Qed.

Lemma m_start_zc plan : 0 ≤ zp_length plan → go (cleared l) (start_zc srv x plan) (λ _, settled l).
Proof.
  intros Hn. unfold start_zc. eapply m_bind; [apply m_ensure_pipe|]. intros []; cbn [negb]; [|apply m_ret].
  apply m_with_conn. intros c. apply m_drop_conn_fact. cbv zeta. destruct (_ && _) eqn:El.
  - apply andb_true_iff in El as [_ El%Z.leb_le].
    destruct (read_prefix_message plan (zp_length plan) (file_bytes (zp_fd plan) (zp_offset plan) (zp_length plan)))
      as [body Eb]; [done|by apply length_file_bytes|]. set (pre := build_read_resp_prefix _ _) in *. clearbody pre.
    eapply m_upd_tx_seq; [|done|moves_auto]. intros t [_ Hw]. unfold core_of. simpl. split; [split_and!; [by intros [|[]]|done|intros z [= <-]; simpl; lia]|].
    intros _. unfold outbox, header_due, file_part, zc_bytes, buf_part. simpl. change (drop (Z.to_nat 0) ?y) with y.
    rewrite Z.min_l by lia. rewrite Z.sub_diag, Z.add_0_r, Eb. by apply whole_message.
  - eapply m_upd_tx_seq; [|done|moves_auto]. intros t [_ Hw]. unfold core_of. simpl.
    split; [split_and!; [by intros [|[]]|done|by intros z [= <-]]|]. intros _. unfold outbox. simpl. by rewrite app_nil_r.
Qed.
End sending.

(** ** The frame loop *)
Section frames.
Context `{Env} `{!CryptoLaws} (srv : Srv) (sent : nat → list OutByte) (x : nat).
Local Abbreviation go := (moves sent x).
Local Abbreviation l := (sent x).

Lemma m_upd_conn_x f P Q :
  (∀ c, P (core_of (co_tx c)) → Q (core_of (co_tx (f c)))) → (∀ c, co_closing (f c) = co_closing c) →
  (∀ c, side_ok c → side_ok (f c)) → go P (upd_conn x f) (λ _, Q).
Proof.
  intros Hf Hcl Hs s a s' Hp. unfold upd_conn. intros (c & s1 & [-> Hc]%conn_mut_returns & [= _ <-])%bind_returns.
  intros i d. simpl. intros [(<- & [= <-] & _)|[Hne Hd]]%list_lookup_insert_Some Hd'.
  - rewrite Hcl in Hd'. destruct (Hp _ _ Hc Hd') as [H1 H2]. rewrite decide_True in * by done. auto.
  - destruct (Hp _ _ Hd Hd') as [H1 H2]. rewrite decide_False in * by done. done.
Qed.

(** What a computation returns, besides its effect on the phase. *)
Definition gives_back {A} (m : RM A) (R : A → Prop) : Prop := ∀ s a s', m s = (inl a, s') → R a.

Lemma m_bind_with {A C} P (m : RM A) (k : A → RM C) R1 R2 Q :
  go P m R1 → gives_back m R2 → (∀ a, R2 a → go (R1 a) (k a) Q) → go P (m ≫= k) Q.
Proof. intros Hm Hr Hk s b s' Hs (a & s1 & E1 & E2)%bind_returns. eapply Hk; [by eapply Hr| |exact E2]. by eapply Hm. Qed.

Lemma back_bind {A C} (m : RM A) (k : A → RM C) R Q :
  gives_back m R → (∀ a, R a → gives_back (k a) Q) → gives_back (m ≫= k) Q.
Proof. intros Hm Hk s b s' (a & s1 & E1 & E2)%bind_returns. eapply Hk; [by eapply Hm|exact E2]. Qed.
Lemma back_any {A} (m : RM A) : gives_back m (λ _, True).
Proof. done. Qed.
Lemma back_ret {A} (a : A) (R : A → Prop) : R a → gives_back (mret a) R.
Proof. by intros ? s b s' [= <- _]. Qed.

Lemma frame_gives p tx frame :
  gives_back (proto_run p tx (process_frame srv frame)) (λ r, (∃ out, r.2 = tx ++ out ∧ framed out) ∧ action_ok r.1.1).
Proof.
  intros s r s'. unfold proto_run. set (s0 := mkSt _ _ _ _ _).
  destruct (frame_appended srv frame s0) as [_ Ha]. pose proof (plans_frame srv frame s0) as Hp.
  destruct (process_frame srv frame s0) as [[a|e] s1]; [|done]. intros [= <- <-].
  destruct (Ha a eq_refl) as (out & E & Hout). specialize (Hp a _ eq_refl). split; [|exact Hp].
  exists out. split; [exact E|]. destruct a; simpl in Hout; first [done|by left].
Qed.

Lemma next_frame_gives total : gives_back (next_frame srv x total) action_ok.
Proof.
  unfold next_frame. eapply back_bind; [apply back_any|]. intros c _. cbv zeta.
  eapply back_bind; [apply back_any|]. intros n _. destruct n as [|n]; [by intros ? ? ?|].
  eapply back_bind; [apply back_any|]. intros u _. eapply back_bind; [apply frame_gives|]. intros [[a p] tx] [_ Ha].
  do 3 (eapply back_bind; [apply back_any|]; intros ? _). by apply back_ret.
Qed.

Lemma m_next_frame total : go (filling l) (next_frame srv x total) (λ _, filling l).
Proof.
  unfold next_frame. apply m_with_conn. intros c. cbv zeta. eapply m_bind; [apply m_gets|]. intros n. cbn beta.
  destruct n as [|n]; [apply m_halt|]. eapply m_seq; [apply m_same; by intros s a s' [= _ <-]|].
  eapply m_bind_with; [apply m_proto|apply frame_gives|]. intros [[a p] tx] [(out & E & Hout) _]. cbn [fst snd] in E. subst tx.
  eapply (m_seq _ _ _ _ _ (filling l)).
  - apply m_upd_conn_x; [|done|done]. intros d [(Hm & Hz & Ho & Hw) E]. injection E as E1 E2 E3 E4.
    unfold filling, core_of in *. simpl in *. split_and!; try done.
    rewrite fmap_app, app_assoc, <- E2. by apply whole_framed.
  - apply (m_bind _ _ (filling l) _ _ (λ _, filling l)); [apply m_conn_mut|]. intros d.
    apply (m_seq _ _ (filling l) _ _ (filling l)); [|apply m_ret]. moves_auto.
Qed.

Lemma settled_empty o : filling l o → o_buf o = [] → settled l o.
Proof.
  intros (Hm & Hz & Ho & Hw) Eb. split; [split_and!; try done; by rewrite Hz|].
  intros _. unfold outbox, buf_part. rewrite Hm, Ho. by rewrite Eb in Hw |- *.
Qed.

Lemma m_drive_flush : go (filling l) (drive_flush x) (λ _, settled l).
Proof.
  unfold drive_flush. apply m_with_conn. intros c. eapply m_seq; [|apply m_maybe_arm_recv]. case_bool_decide as Hb.
  - apply m_drop_conn_fact, m_start_send.
  - apply m_done. intros o [Hf ->]. by apply settled_empty.
Qed.

(** A zero-copy read starts now, or waits for the batch before it. *)
Lemma m_zc_read plan : 0 ≤ zp_length plan →
  go (filling l)
    (c ← conn_mut x;
     (if bool_decide (tx_buf (co_tx c) = []) then start_zc srv x plan
      else upd_tx x (tx_set_pending (Some plan)) ;; start_send x) ;;
     maybe_arm_recv x) (λ _, settled l).
Proof.
  intros Hn. apply m_with_conn. intros c. eapply m_seq; [|apply m_maybe_arm_recv]. case_bool_decide as Hb.
  - eapply m_weaken; [|by apply m_start_zc|done]. intros o [(Hm & Hz & Ho & Hw) ->]. split; [done|].
    change (o_buf _) with (tx_buf (co_tx c)) in Hw. rewrite Hb in Hw. by rewrite app_nil_r in Hw.
  - apply m_drop_conn_fact. eapply m_seq; [|apply m_start_send]. apply m_upd_conn_x; [done|done|].
    intros d [Hd _]. split; [done|]. by intros z [= <-].
Qed.

Lemma m_drive_loop fuel : go (filling l) (drive_loop srv fuel x) (λ _, settled l).
Proof.
  induction fuel as [|fuel IH]; cbn [drive_loop]; [apply m_halt|]. apply m_with_conn. intros c. apply m_drop_conn_fact.
  cbv zeta. destruct (TX_FLUSH <=? _); [apply m_drive_flush|].
  destruct (frame_total c) as [[total|]|]; [|apply m_drive_flush|apply m_close].
  destruct (_ <? total); [apply m_drive_flush|].
  eapply m_bind_with; [apply m_next_frame|apply next_frame_gives|]. intros a Ha. cbn beta.
  destruct a as [|plan| |]; [done|by apply m_zc_read| |apply m_close].
  eapply m_seq; [by apply (m_upd_tx _ _ _ (filling l) (filling l))|]. apply m_with_conn. intros c'.
  case_bool_decide; [apply m_close|]. apply m_drop_conn_fact, m_start_send.
Qed.

(** Deferred responses join the batch. *)
Lemma take_deferred_whole d : ∀ tx, Forall framed d → whole (l ++ (B <$> tx)) →
  Forall framed (take_deferred d tx).1 ∧ whole (l ++ (B <$> (take_deferred d tx).2)).
Proof.
  induction d as [|y d IH]; intros tx Hd Hw; simpl; [done|]. apply Forall_cons in Hd as [Hy Hd].
  assert (whole (l ++ (B <$> tx ++ y))) as Hw' by (rewrite fmap_app, app_assoc; by apply whole_framed).
  destruct (_ <=? _); [done|]. by apply IH.
Qed.

Lemma m_drive : go (filling l) (drive srv x) (λ _, settled l).
Proof.
  unfold drive. eapply (m_seq _ _ _ _ _ (filling l)).
  - intros s a s' Hp. unfold upd_conn. intros (c & s1 & [-> Hc]%conn_mut_returns & [= _ <-])%bind_returns.
    intros i d. simpl. intros [(<- & [= <-] & _)|[Hne Hd]]%list_lookup_insert_Some Hd'.
    + assert (co_closing c = false) as Hcl by (by destruct (take_deferred _ _)).
      destruct (Hp _ _ Hc Hcl) as [[H1 H2] H3]. rewrite decide_True in * by done.
      destruct H3 as (Hm & Hz & Ho & Hw). destruct (take_deferred_whole (co_deferred c) (tx_buf (co_tx c)) H1 Hw) as [Hd Hw'].
      destruct (take_deferred _ _) as [df tx]. simpl in *. split; [split; done|]. by split_and!.
    + destruct (Hp _ _ Hd Hd') as [H1 H2]. rewrite decide_False in * by done. done.
  - eapply m_bind; [apply m_conn_mut|]. intros c. apply m_drive_loop.
Qed.
End frames.
