(* ===== verification/Sent.v ===== *)
(** What the kernel has taken from a connection, over a run of the workers:
    every completion handler keeps the rest of the output in the connection's
    outbox, so that the sequence of messages on the wire is never torn. *)
From S2P Require Import Prelude Hoare Wire Status Os Sample Lease Vfs Handles Crypto Session Config Smb2 State.
From S2P Require Import Setup FileOps Dispatch Confine TreeSafe SessionSafe WorldSafe Appends Uring Reactor ReactorSafe Completions Ring Stream Outbox.
Local Open Scope Z_scope.

(** ** Working on a known connection *)
Section known.
Context `{Env} `{!CryptoLaws} (srv : Srv) (sent : nat → list OutByte) (x : nat).
Local Abbreviation go := (moves sent x).
Local Abbreviation l := (sent x).

(** From a state in which the connection in slot [x] is [c]. *)
Definition from {A} (c : Conn) (m : RM A) (Q : A → Out → Prop) : Prop :=
  ∀ s a s', phase sent x (λ _, True) s → wk_conns (r_wk s) !! x = Some (Some c) → m s = (inl a, s') →
    phase sent x (Q a) s'.

(** The connection is open, and what it holds for later is framed. *)
Lemma f_open {A} c (m : RM A) Q :
  (co_closing c = false → side_ok c → from c m Q) → co_closing c = false → from c m Q.
Proof. intros Hm Hcl s a s' Hs Hc. destruct (Hs _ _ Hc Hcl) as [Hside _]. by apply Hm. Qed.

Lemma f_moves {A} c (P : Out → Prop) (m : RM A) Q : P (core_of (co_tx c)) → go P m Q → from c m Q.
Proof.
  intros HP Hm s a s' Hs Hc. apply Hm. intros j d Hd Hcl. destruct (Hs j d Hd Hcl) as [? Hj]. split; [done|].
  case_decide; [|done]. subst j. rewrite Hc in Hd. by injection Hd as <-.
Qed.

Lemma f_conn {A} c (k : Conn → RM A) Q : from c (k c) Q → from c (conn_mut x ≫= k) Q.
Proof.
  intros Hk s a s' Hs Hc (d & s1 & [-> Hd]%conn_mut_returns & E)%bind_returns. rewrite Hc in Hd.
  injection Hd as <-. by eapply Hk.
Qed.

Lemma f_expect {A C} c (v : A) (k : A → RM C) Q : from c (k v) Q → from c (expect (Some v) ≫= k) Q.
Proof. intros Hk s a s' Hs Hc (d & s1 & [= <- <-] & E)%bind_returns. by eapply Hk. Qed.

Lemma f_upd_conn {A} c f (k : RM A) Q :
  (co_closing (f c) = false → co_closing c = false) → (side_ok c → side_ok (f c)) →
  from (f c) k Q → from c (upd_conn x f ;; k) Q.
Proof.
  intros Hcl Hside Hk s a s' Hs Hc (u & s1 & (d & s2 & [-> Hd]%conn_mut_returns & [= _ <-])%bind_returns & E)%bind_returns.
  rewrite Hc in Hd. injection Hd as <-. eapply Hk; [| |exact E].
  - intros i d. simpl. intros [(<- & [= <-] & _)|[Hne Hd]]%list_lookup_insert_Some Hd'.
    + destruct (Hs _ _ Hc (Hcl Hd')) as [? _]. rewrite decide_True by done. auto.
    + by apply Hs.
  - simpl. by rewrite list_lookup_insert_eq by (by eapply lookup_lt_Some).
Qed.

Lemma f_upd_tx {A} c f (k : RM A) Q :
  (plan_ok (tx_pending_zc (co_tx c)) → plan_ok (tx_pending_zc (f (co_tx c)))) →
  from (co_set_tx (f (co_tx c)) c) k Q → from c (upd_tx x f ;; k) Q.
Proof.
  intros Hp Hk. apply (f_upd_conn c (λ c, co_set_tx (f (co_tx c)) c)); [done| |done].
  intros [? ?]. split; [done|]. by apply Hp.
Qed.

Lemma f_close c Q : from c (close_conn_ring x) (λ _, Q).
Proof. by eapply (f_moves _ (λ _, True)); [|apply m_close]. Qed.

(** Nothing is said of a connection that is closing. *)
Lemma f_closing {A} c (P : Out → Prop) (m : RM A) : co_closing c = true → go P m (λ _, P) → from c m (λ _, P).
Proof.
  intros Hcl Hm s a s' Hs Hc. apply Hm. intros j d Hd Hdc. destruct (Hs j d Hd Hdc) as [? Hj]. split; [done|].
  case_decide; [|done]. subst j. rewrite Hc in Hd. injection Hd as <-. congruence.
Qed.

(** ** The end of a batch *)
Lemma f_finish_send c :
  tx_zc (co_tx c) = None → whole l → co_closing c = false → from c (finish_send srv x) (λ _, settled l).
Proof.
  intros Hz Hw. apply f_open. intros _ [_ Hp]. unfold finish_send. apply f_conn.
  destruct (tx_close_after _); [apply f_close|]. apply f_upd_tx; [done|].
  destruct (tx_pending_zc (co_tx c)) as [plan|].
  - apply f_upd_tx; [by intros _ z|]. eapply f_moves; [|apply m_start_zc; by apply Hp]. by split.
  - apply f_upd_tx; [done|]. eapply f_moves; [|apply m_drive]. split_and!; try done. simpl. by rewrite app_nil_r.
Qed.

Lemma m_zc_done zc : whole l → go (λ _, True) (zc_done srv x zc) (λ _, settled l).
Proof.
  intros Hw. unfold zc_done. eapply (m_upd_tx_seq _ _ _ _ (λ o, o_zc o = None)); [done|done|].
  eapply m_seq; [apply m_close_fd|]. eapply m_upd_tx_seq; [|done|apply m_drive].
  intros t Ht. unfold core_of in *. simpl in *. split_and!; try done. simpl. by rewrite app_nil_r.
Qed.

Lemma f_on_send_notif c :
  settled l (core_of (co_tx c)) → co_closing c = false → from c (on_send_notif srv x) (λ _, settled l).
Proof.
  intros Hs Hcl. unfold on_send_notif. apply f_upd_tx; [done|]. apply f_conn. simpl.
  destruct (_ && _) eqn:E; [|by eapply f_moves; [|apply m_ret]].
  apply andb_true_iff in E as [_ Em%bool_decide_eq_true]. destruct Hs as [(Hz & _) Hw].
  assert (tx_zc (co_tx c) = None) as Ez by (apply Hz; auto). apply f_finish_send; [done| |done].
  unfold doomed in Hw. simpl in Hw. rewrite Ez in Hw. specialize (Hw eq_refl). unfold outbox in Hw. simpl in Hw.
  rewrite Em in Hw. by rewrite app_nil_r in Hw.
Qed.

(** ** Sends *)

(** The kernel takes [n] bytes of the buffer. *)
Lemma buf_take off n (b : bytes) : 0 ≤ off → 0 ≤ n →
  B <$> drop (Z.to_nat off) b =@{list OutByte}
    (B <$> take (Z.to_nat n) (drop (Z.to_nat off) b)) ++ (B <$> drop (Z.to_nat (off + n)) b).
Proof.
  intros. rewrite <-fmap_app. f_equal. rewrite Z2Nat.inj_add by lia. by rewrite <-drop_drop, take_drop.
Qed.

Lemma drop_past off (b : bytes) : len b ≤ off → drop (Z.to_nat off) b = [].
Proof. intros. apply drop_ge. lia. Qed.

Lemma f_on_send_plain c res l0 :
  settled l0 (core_of (co_tx c)) → is_linked c = false → co_closing c = false →
  tx_mode (co_tx c) = Send ∨ tx_mode (co_tx c) = ZcHdr → 0 ≤ tx_off (co_tx c) →
  l = l0 ++ (B <$> take (Z.to_nat res) (drop (Z.to_nat (tx_off (co_tx c))) (tx_buf (co_tx c)))) →
  from c (on_send srv x res) (λ _, settled l).
Proof.
  intros Hs Hlk Hcl Hm Hoff El. assert (res ≤ 0 → settled l (core_of (co_tx c))) as Hsame.
  { intros Hr. rewrite El. replace (Z.to_nat res) with 0%nat by lia. by rewrite app_nil_r. }
  unfold on_send. apply f_conn. rewrite Hlk. destruct (res =? _) eqn:E1.
  { eapply f_moves; [|apply m_submit_send]. apply Hsame. apply Z.eqb_eq in E1. by subst res. }
  destruct (_ && _) eqn:E2.
  { apply f_upd_tx; [done|]. eapply f_moves; [|apply m_submit_send]. apply Hsame.
    apply andb_true_iff in E2 as [[E2%Z.eqb_eq|E2%Z.eqb_eq]%orb_true_iff _]; by subst res. }
  destruct (res <=? 0) eqn:E3; [apply f_close|]. clear E1 E2 Hsame.
  apply f_upd_tx; [done|]. apply f_conn. cbv zeta. simpl. destruct Hs as [(Hz & _ & Hg) Hw].
  assert (doomed (core_of (co_tx c)) = false) as Hd.
  { unfold doomed, is_linked in *. simpl. destruct (tx_zc _) as [z|]; [by rewrite Hlk|done]. }
  specialize (Hw Hd). unfold outbox, buf_part in Hw. simpl in Hw.
  rewrite (buf_take _ res) in Hw by lia. destruct Hm as [Em|Em]; rewrite Em in Hw |- *.
  - specialize (Hz (or_intror (or_introl Em))). simpl in Hz. rewrite app_assoc, <-El in Hw.
    destruct (len (tx_buf (co_tx c)) <=? _) eqn:E4; [|eapply f_moves; [|apply m_submit_send]; unfold core_of; simpl; rewrite Hz, Em; by apply settled_send].
    rewrite (drop_past (tx_off (co_tx c) + res)), app_nil_r in Hw by lia. destruct (0 <? _); [|by apply f_finish_send].
    eapply (f_moves _ (λ o, o_zc o = None)); [done|]. apply m_upd_tx; [|done]. intros t Ht. unfold core_of in *. simpl in *.
    rewrite Ht. split; [by split_and!|]. intros _. unfold outbox. simpl. by rewrite app_nil_r.
  - destruct (len (tx_buf (co_tx c)) <=? _) eqn:E4.
    + apply f_upd_tx; [done|]. eapply f_moves; [|apply m_submit_splice_out]. unfold core_of. simpl.
      split; [split_and!; [by intros [|[]]|done|done]|]. intros _. unfold outbox, header_due, file_part in *. simpl in *.
      rewrite (drop_past (tx_off (co_tx c) + res)), app_nil_r, app_assoc, <-El in Hw by lia. unfold is_linked in Hlk.
      destruct (tx_zc (co_tx c)) as [z|]; [by rewrite Hlk|done].
    + eapply f_moves; [|apply m_submit_send]. unfold core_of. simpl. rewrite Em.
      split; [split_and!; [by intros [|[]]|done|done]|]. intros _. unfold outbox, buf_part, file_part in *. simpl in *.
      by rewrite <-!app_assoc, app_assoc, <-El in Hw.
Qed.

(** ** Reads spliced from the file *)
Definition zc_with (z : Zc) (left chain : Z) (linked err : bool) : Zc :=
  mkZc (zc_plan z) (zc_want z) (zc_got z) left linked chain err.

(** The kernel takes [n] bytes of the pipe. *)
Lemma zc_take z n chain lk err : 0 ≤ n →
  zc_bytes z = take (Z.to_nat n) (zc_bytes z) ++ zc_bytes (zc_with z (Z.max (zc_out_left z - n) 0) chain lk err).
Proof.
  intros Hn. unfold zc_bytes. simpl. destruct (decide (zc_out_left z ≤ n)).
  - rewrite (file_bytes_nil _ _ (Z.max _ _)), app_nil_r by lia. rewrite take_ge; [done|].
    destruct (decide (0 ≤ zc_out_left z)); [|by rewrite file_bytes_nil by lia; simpl; lia].
    pose proof (length_file_bytes (zp_fd (zc_plan z)) (zp_offset (zc_plan z) + (zc_got z - zc_out_left z)) (zc_out_left z)). lia.
  - rewrite <-(take_drop (Z.to_nat n) (file_bytes _ _ (zc_out_left z))) at 1. f_equal.
    rewrite file_bytes_drop by lia. rewrite Z.max_l by lia. f_equal. lia.
Qed.

Lemma f_on_splice_out_plain c z res l0 :
  settled l0 (core_of (co_tx c)) → tx_zc (co_tx c) = Some z → zc_linked z = false → co_closing c = false →
  tx_mode (co_tx c) = ZcOut → l = l0 ++ take (Z.to_nat res) (zc_bytes z) →
  from c (on_splice_out srv x res) (λ _, settled l).
Proof.
  intros Hs Ez Hlk Hcl Em El. assert (res ≤ 0 → settled l (core_of (co_tx c))) as Hsame.
  { intros Hr. rewrite El. replace (Z.to_nat res) with 0%nat by lia. by rewrite app_nil_r. }
  unfold on_splice_out. apply f_conn. unfold is_linked. rewrite Ez, Hlk. destruct (_ || _) eqn:E1.
  { eapply f_moves; [|apply m_submit_splice_out]. apply Hsame. apply orb_true_iff in E1 as [E1%Z.eqb_eq|E1%Z.eqb_eq]; by subst res. }
  destruct (res <=? 0) eqn:E3; [apply f_close|]. clear E1 Hsame. apply f_expect. cbv zeta.
  destruct Hs as [(Hz & _ & Hg) Hw]. unfold doomed in Hw. simpl in Hw. rewrite Ez, Hlk in Hw. specialize (Hw eq_refl).
  unfold outbox, header_due, file_part in Hw. simpl in Hw. rewrite Em, Ez, Hlk in Hw. simpl in Hw.
  rewrite (zc_take z res (zc_chain z) false (zc_err z)), app_assoc, <-El in Hw by lia.
  replace (Z.max (zc_out_left z - res) 0) with (zc_out_left z - Z.min res (zc_out_left z)) in Hw by lia.
  apply f_upd_tx; [done|]. destruct (0 <? _) eqn:E4.
  - eapply f_moves; [|apply m_submit_splice_out]. unfold core_of. simpl. rewrite Em, Hlk.
    split; [split_and!; [by intros [|[]]|done|intros ? [= <-]; simpl; by apply Hg]|]. intros _. exact Hw.
  - apply (f_moves _ (λ _, True)); [done|]. apply m_zc_done. unfold zc_bytes in Hw. simpl in Hw. by rewrite file_bytes_nil, app_nil_r in Hw by lia.
Qed.

Lemma f_zc_fail c z st : tx_zc (co_tx c) = Some z → whole l → from c (zc_fail x st) (λ _, settled l).
Proof.
  intros Ez Hw. unfold zc_fail. apply f_conn. rewrite Ez. apply f_expect. apply f_upd_tx; [done|].
  eapply (f_moves _ (cleared l)); [by split|]. eapply m_seq; [moves_auto|]. eapply m_seq; [apply m_close_fd|].
  apply m_send_now, read_err_framed.
Qed.

Lemma f_on_splice_in_plain c z res :
  settled l (core_of (co_tx c)) → tx_zc (co_tx c) = Some z → zc_linked z = false → co_closing c = false →
  tx_mode (co_tx c) = ZcIn → from c (on_splice_in srv x res) (λ _, settled l).
Proof.
  intros Hs Ez Hlk Hcl Em. unfold on_splice_in. apply f_conn. unfold is_linked. rewrite Ez, Hlk.
  destruct (_ || _) eqn:E1; [by eapply f_moves; [|apply m_submit_splice_in]|]. apply f_expect.
  destruct Hs as [(Hz & _ & Hg) Hw]. specialize (Hg z Ez). unfold doomed in Hw. simpl in Hw. rewrite Ez, Hlk in Hw. specialize (Hw eq_refl).
  unfold outbox in Hw. simpl in Hw. rewrite Em, app_nil_r in Hw.
  destruct (res <? 0) eqn:E2; [by eapply f_zc_fail|]. cbv zeta. set (got := zc_got z + _).
  assert (0 ≤ got) as Hgot by (unfold got; destruct (0 <? res); lia). clearbody got.
  apply f_upd_tx; [done|]. destruct (_ && _).
  { eapply f_moves; [|apply m_submit_splice_in]. unfold core_of. simpl. rewrite Em, Hlk.
    split; [split_and!; [by intros [|[]]|done|by intros ? [= <-]]|]. intros _. unfold outbox. simpl. by rewrite app_nil_r. }
  cbn [zc_plan]. destruct ((got =? 0) || _); [by eapply f_zc_fail|].
  destruct (read_prefix_message (zc_plan z) got (file_bytes (zp_fd (zc_plan z)) (zp_offset (zc_plan z)) got))
    as [body Eb]; [done|by apply length_file_bytes|]. set (pre := build_read_resp_prefix _ _) in *. clearbody pre.
  apply f_upd_tx; [done|]. eapply f_moves; [|apply m_submit_send]. unfold core_of. simpl. rewrite Hlk.
  split; [split_and!; [by intros [|[]]|done|by intros ? [= <-]]|]. intros _. unfold outbox, file_part, zc_bytes, buf_part. simpl.
  change (drop (Z.to_nat 0) ?y) with y. rewrite Z.sub_diag, Z.add_0_r, Eb. by apply whole_message.
Qed.

(** ** A linked chain *)

(** The chain after one more of its parts, and what is left to send. *)
Definition zc_after (z : Zc) (op res : Z) : Zc :=
  zc_with z (if (op =? OP_SPLICE_OUT) && (0 <? res) then Z.max (zc_out_left z - res) 0 else zc_out_left z)
    (Z.max (zc_chain z - 1) 0) (zc_linked z) (if res <? 0 then true else zc_err z).

Lemma f_on_linked_cqe c z op res :
  tx_zc (co_tx c) = Some z → zc_linked z = true → tx_mode (co_tx c) = ZcOut → 0 ≤ zc_got z →
  (zc_err (zc_after z op res) = false →
    whole (l ++ (if 2 <=? zc_chain (zc_after z op res) then buf_part (core_of (co_tx c)) else []) ++ zc_bytes (zc_after z op res))) →
  from c (on_linked_cqe srv x op res) (λ _, settled l).
Proof.
  intros Ez Hlk Em Hg Hw. unfold on_linked_cqe. apply f_conn. rewrite Ez. apply f_expect. cbv zeta.
  change (mkZc (zc_plan z) _ _ _ _ _ _) with (zc_after z op res).
  assert (zc_linked (zc_after z op res) = true) as Hlk' by done. assert (zc_got (zc_after z op res) = zc_got z) as Hg' by done.
  set (z' := zc_after z op res) in *. clearbody z'. apply f_upd_tx; [done|]. destruct (0 <? zc_chain z') eqn:E1.
  { eapply f_moves; [|apply m_ret]. unfold core_of. simpl. rewrite Em.
    split; [split_and!; [by intros [|[]]|done|intros ? [= <-]; simpl; lia]|]. unfold doomed, outbox, header_due, file_part. simpl.
    rewrite Hlk'. exact Hw. }
  destruct (zc_err z') eqn:E2; [apply f_close|]. specialize (Hw eq_refl).
  rewrite (proj2 (Z.leb_gt _ _)) in Hw by lia. simpl in Hw. destruct (0 <? zc_out_left z') eqn:E3.
  - apply f_upd_tx; [done|]. eapply f_moves; [|apply m_submit_splice_out]. unfold core_of. simpl.
    split; [split_and!; [by intros [|[]]|done|intros ? [= <-]; simpl; lia]|]. intros _. exact Hw.
  - apply (f_moves _ (λ _, True)); [done|]. apply m_zc_done. unfold zc_bytes in Hw. by rewrite file_bytes_nil, app_nil_r in Hw by lia.
Qed.

(** ** Receives and notifications *)
Lemma f_on_recv c res :
  settled l (core_of (co_tx c)) → co_closing c = false → from c (on_recv srv x res) (λ _, settled l).
Proof.
  intros Hs Hcl. unfold on_recv, upd_rx. apply f_upd_conn; [done|done|].
  destruct (res =? _); [by eapply f_moves; [|apply m_maybe_arm_recv]|]. destruct (res <=? 0); [apply f_close|].
  apply f_upd_conn; [done|done|]. apply f_conn. simpl. case_bool_decide as Em.
  - eapply f_moves; [|apply m_drive]. by apply filling_idle.
  - by eapply f_moves; [|apply m_maybe_arm_recv].
Qed.

(** An idle connection starts to send. *)
Lemma m_wake_up (b : Conn → bool) : go (settled l)
  (c ← conn_mut x; if bool_decide (tx_mode (co_tx c) = Idle) && b c then drive srv x else mret tt) (λ _, settled l).
Proof.
  apply m_with_conn. intros c. case_bool_decide as Em; simpl; [|apply m_drop_conn_fact, m_ret].
  destruct (b c); [|apply m_drop_conn_fact, m_ret]. eapply m_weaken; [|apply m_drive|done].
  intros o [Ho ->]. by apply filling_idle.
Qed.

Lemma m_on_inotify res : go (settled l) (on_inotify srv x res) (λ _, settled l).
Proof.
  unfold on_inotify. destruct (_ || _); [apply m_arm_inotify|]. apply (m_bind _ _ (settled l) _ _ (λ _, settled l)); [apply m_conn_mut|].
  intros c. destruct (res <=? 0); [moves_auto|]. cbv zeta.
  do 2 (apply (m_bind _ _ (settled l) _ _ (λ _, settled l)); [moves_auto|intros ?]).
  apply (m_seq _ _ (settled l) _ _ (settled l)); [apply m_for_each; intros []; apply m_complete_notify|].
  apply (m_seq _ _ (settled l) _ _ (settled l)); [apply m_arm_inotify|].
  apply (m_wake_up (λ c, bool_decide (co_deferred c ≠ []))).
Qed.
End known.

(** ** Breaks and new connections *)
Section others.
Context `{Env} `{!CryptoLaws} (srv : Srv) (sent : nat → list OutByte).

(** Every connection is settled. *)
Definition at_rest (s : RSt) : Prop :=
  ∀ j c, wk_conns (r_wk s) !! j = Some (Some c) → co_closing c = false → side_ok c ∧ settled (sent j) (core_of (co_tx c)).

Lemma rest_phase x s : at_rest s ↔ phase sent x (settled (sent x)) s.
Proof.
  split; intros Hs j c Hc Hcl; destruct (Hs j c Hc Hcl) as [? Hj]; (split; [done|]); case_decide; by subst.
Qed.

Lemma rest_moves {A} x (m : RM A) s a s' :
  moves sent x (settled (sent x)) m (λ _, settled (sent x)) → at_rest s → m s = (inl a, s') → at_rest s'.
Proof. intros Hm Hs E. apply (rest_phase x). eapply Hm; [by apply rest_phase|exact E]. Qed.

Lemma rest_for_each {A} (ys : list A) (body : A → RM unit) :
  (∀ a s u s', at_rest s → body a s = (inl u, s') → at_rest s') →
  ∀ s u s', at_rest s → for_each ys body s = (inl u, s') → at_rest s'.
Proof.
  intros Hb. induction ys as [|a ys IH]; intros s u s' Hs; simpl; [by intros [= _ <-]|].
  intros ([] & s1 & E1 & E2)%bind_returns. eapply IH; [|exact E2]. by eapply Hb.
Qed.

Lemma rest_deliver_break b s u s' : at_rest s → deliver_break srv b s = (inl u, s') → at_rest s'.
Proof.
  intros Hs. unfold deliver_break. intros (k & s0 & [= <- <-] & E)%bind_returns.
  destruct (_ <? 0); [by injection E as _ <-|]. set (x := Z.to_nat _) in *.
  destruct (wk_conns (r_wk s) !! x) as [[c|]|] eqn:Ec; [|by injection E as _ <-..].
  destruct (_ || _) eqn:Eb; [by injection E as _ <-|]. apply orb_false_iff in Eb as [_ Hcl].
  destruct (Hs _ _ Ec Hcl) as [Hside Hset]. apply (rest_phase x).
  refine ((_ : from sent x c _ (λ _, settled (sent x))) _ _ _ _ Ec E).
  - apply f_upd_conn; [done|intros Hc; apply side_defer; [apply lease_break_framed|done]|].
    case_bool_decide; [|by eapply f_moves; [|apply m_ret]]. eapply f_moves; [|apply m_drive]. by apply filling_idle.
  - intros j d Hd Hdc. destruct (Hs _ _ Hd Hdc) as [Hj1 Hj2]. split; [done|]. destruct (decide (j = x)); [exact I|exact Hj2].
Qed.

Lemma rest_on_wake s u s' : at_rest s → on_wake srv s = (inl u, s') → at_rest s'.
Proof.
  intros Hs. unfold on_wake. intros (k & s0 & [= <- <-] & E)%bind_returns.
  apply bind_returns in E as (mb & s1 & E1 & E). eapply (rest_moves 0) in E1; [|apply m_my_mailbox|done].
  destruct (mailbox_drain mb) as [breaks mb']. apply bind_returns in E as ([] & s2 & [= <-] & E).
  apply bind_returns in E as ([] & s3 & E3 & E). eapply (rest_moves 0); [apply m_arm_wake| |exact E].
  eapply rest_for_each; [by apply rest_deliver_break| |exact E3]. exact E1.
Qed.

(** A new connection has sent nothing. *)
Lemma rest_on_accept fd s u s' :
  (∀ j, j ∈ wk_free (r_wk s) → wk_conns (r_wk s) !! j = Some None) →
  (∀ j, (∀ c, wk_conns (r_wk s) !! j ≠ Some (Some c)) → sent j = []) →
  at_rest s → on_accept srv fd s = (inl u, s') → at_rest s'.
Proof.
  intros Hfree Hnew Hs. unfold on_accept. intros (k & s0 & [= <- <-] & E)%bind_returns. destruct (_ && _).
  { eapply (rest_moves 0); [apply m_close_fd|exact Hs|exact E]. }
  apply bind_returns in E as ([] & s1 & E1 & E). assert (r_wk s1 = r_wk s) as Ek.
  { unfold rio, zoom in E1. destruct (do _ _) as [[?|?] ?]; [|done]. by simplify_eq/=. }
  apply bind_returns in E as ([] & s2 & [= <-] & E). apply bind_returns in E as (j & s3 & E3 & E).
  assert (sent j = [] ∧ at_rest s3) as [Hj Hs3].
  { destruct (wk_free (r_wk s)) as [|i free] eqn:Ef; apply bind_returns in E3 as ([] & s4 & [= <-] & [= <- <-]).
    - split; [apply Hnew; intros c; by rewrite lookup_ge_None_2|]. intros i c. simpl. rewrite Ek.
      intros [Hc|[_ Hc]]%lookup_app_Some; [by apply Hs|]. by apply list_lookup_singleton_Some in Hc as [_ ?].
    - split; [apply Hnew; intros c; by rewrite (Hfree i) by set_solver|]. intros i' c. simpl. rewrite Ek. by apply Hs. }
  apply bind_returns in E as (k & s4 & [= <- <-] & E). destruct (_ !! j) as [gen|]; [|done].
  destruct (_ <? _)%nat; [|done]. apply bind_returns in E as ([] & s5 & [= <-] & E).
  apply bind_returns in E as ([] & s6 & [= <-] & E). eapply (rest_moves j); [apply m_maybe_arm_recv| |exact E].
  intros i c. simpl. intros [(<- & [= <-] & _)|[_ Hc]]%list_lookup_insert_Some Hcl; [|by apply Hs3].
  rewrite Hj. split; [split; [constructor|by intros z]|]. split; [by split_and!|]. intros _. apply whole_nil.
Qed.
End others.

(** ** One completion *)
Definition is_tx (q : Sqe) : bool := is_send q || is_in q || is_out q.

(** What the kernel took from connection [c] when entry [q] completes: bytes
    of the submitted buffer, or bytes of the pipe, which holds the plan's part
    of the file in order. *)
Definition took (c : Conn) (q : Sqe) (res : Z) : list OutByte :=
  match q with
  | SqSend _ _ d _ _ => B <$> take (Z.to_nat res) d
  | SqSpliceOut _ _ _ => take (Z.to_nat res) (file_part (core_of (co_tx c)))
  | _ => []
  end.

(** The connection is not being closed, now or at the end of a failed chain. *)
Definition live (c : Conn) : bool := negb (co_closing c) && negb (doomed (core_of (co_tx c))).

(** The kernel completes a linked chain in the order in which it was queued,
    splice in, header, splice out, and sends the header whole or not at all;
    [es] is what it holds for the connection. *)
Definition link_order (c : Conn) (es : list Entry) (q : Sqe) (res : Z) : bool :=
  if is_linked c && negb (co_closing c) then
    match q with
    | SqSpliceIn _ _ _ _ => cnt is_tx es =? 3
    | SqSend _ _ d _ _ => (cnt is_tx es =? 2) && ((res <? 0) || (res =? len d))
    | SqSpliceOut _ _ _ => cnt is_tx es =? 1
    | _ => true
    end
  else true.

Lemma cnt_tx es : cnt is_tx es = cnt is_send es + cnt is_in es + cnt is_out es.
Proof.
  induction es as [|e es IH]; [done|]. rewrite !cnt_cons, IH. unfold is_tx. destruct (e_sqe e); simpl; lia.
Qed.

Lemma cnt_elem p e es : e ∈ es → p (e_sqe e) = true → 1 ≤ cnt p es.
Proof.
  intros He Hp. unfold cnt. assert (e ∈ filter (λ e, p (e_sqe e) = true) es) as Hf by (by apply list_elem_of_filter).
  destruct (filter _ es); [by apply elem_of_nil in Hf|simpl; lia].
Qed.

(** A transmit entry is one of a linked chain, or the one its mode says. *)
Lemma tx_modes c es e :
  mode_ok c es → e ∈ es → is_tx (e_sqe e) = true →
  (∃ z, tx_zc (co_tx c) = Some z ∧ zc_linked z = true ∧ tx_mode (co_tx c) = ZcOut ∧ zc_chain z = cnt is_tx es) ∨
  (is_linked c = false ∧
   (is_send (e_sqe e) = true ∧ (tx_mode (co_tx c) = Send ∨ tx_mode (co_tx c) = ZcHdr) ∨
    is_Some (tx_zc (co_tx c)) ∧ (is_in (e_sqe e) = true ∧ tx_mode (co_tx c) = ZcIn ∨
                               is_out (e_sqe e) = true ∧ tx_mode (co_tx c) = ZcOut))).
Proof.
  intros Hm He Hq. pose proof (cnt_elem is_send e es He) as Hs. pose proof (cnt_elem is_in e es He) as Hi.
  pose proof (cnt_elem is_out e es He) as Ho. rewrite cnt_tx. unfold mode_ok, tx_cnt in Hm. unfold is_linked, is_tx in *.
  destruct (tx_mode (co_tx c)), (tx_zc (co_tx c)) as [z|]; try done;
    destruct (e_sqe e); simpl in *; try done;
    try specialize (Hs eq_refl); try specialize (Hi eq_refl); try specialize (Ho eq_refl); try (destruct_and? Hm; lia).
  - right. split; [done|]. left. auto.
  - right. split; [apply Hm|]. right. eauto.
  - right. split; [apply Hm|]. left. auto.
  - destruct (zc_linked z) eqn:El; destruct Hm as [_ Hm]; [left; exists z; split_and!; try done; lia|destruct Hm; lia].
  - destruct (zc_linked z) eqn:El; destruct Hm as [_ Hm]; [left; exists z; split_and!; try done; lia|destruct Hm; lia].
  - destruct (zc_linked z) eqn:El; destruct Hm as [_ Hm]; [left; exists z; split_and!; try done; lia|].
    right. split; [done|]. right. eauto.
Qed.

Lemma take_front {A} n (a t : list A) : ∃ rest, a ++ t = take n a ++ rest.
Proof. exists (drop n a ++ t). by rewrite app_assoc, take_drop. Qed.

(** What is taken is the front of the outbox. *)
Lemma took_front c es e res :
  mode_ok c es → e ∈ es → held c (e_sqe e) → co_closing c = false →
  link_order c es (e_sqe e) res = true → doomed (core_of (co_tx c)) = false →
  ∃ rest, outbox (core_of (co_tx c)) = took c (e_sqe e) res ++ rest.
Proof.
  intros Hm He Hh Hcl Ho Hd. destruct (is_tx (e_sqe e)) eqn:Et; [|exists (outbox (core_of (co_tx c))); by destruct (e_sqe e)].
  destruct (tx_modes c es e Hm He Et) as [(z & Ez & Hlk & Em & Hc)|[Hlk [[Hq Em]|[[z Ez] [[Hq Em]|[Hq Em]]]]]].
  - unfold link_order, is_linked in Ho. rewrite Ez, Hlk, Hcl, <-Hc in Ho. simpl in Ho.
    unfold outbox, header_due, buf_part, took, file_part. simpl. rewrite Em, Ez, Hlk.
    destruct (e_sqe e) as [| | |fd off d fl zc| | | | |]; simpl in *; try done; [|by eexists|].
    + destruct Hh as (_ & _ & -> & -> & _). apply andb_true_iff in Ho as [Ho%Z.eqb_eq _]. rewrite Ho. simpl.
      rewrite fmap_take. apply take_front.
    + apply Z.eqb_eq in Ho. rewrite Ho. simpl. eexists. symmetry. apply take_drop.
  - destruct (e_sqe e) as [| | |fd off d fl zc| | | | |]; try done. destruct Hh as (_ & _ & -> & -> & _).
    unfold outbox, buf_part, took. simpl. rewrite fmap_take. destruct Em as [-> | ->]; [|apply take_front].
    eexists. symmetry. apply take_drop.
  - destruct (e_sqe e); try done. by eexists.
  - destruct (e_sqe e); try done. unfold outbox, header_due, took, file_part, is_linked in *. simpl. rewrite Ez in *.
    rewrite Em, Hlk. simpl. eexists. symmetry. apply take_drop.
Qed.

Section completion.
Context `{Env} `{!CryptoLaws} (srv : Srv) (sent : nat → list OutByte) (x : nat).
Local Abbreviation l := (sent x).

(** After one more part of a chain. *)
Lemma linked_left c z q es res l0 :
  settled l0 (core_of (co_tx c)) → tx_zc (co_tx c) = Some z → zc_linked z = true → tx_mode (co_tx c) = ZcOut →
  zc_chain z = cnt is_tx es → held c q → is_tx q = true → co_closing c = false → link_order c es q res = true →
  l = l0 ++ (if doomed (core_of (co_tx c)) then [] else took c q res) →
  zc_err (zc_after z (op_of q) res) = false →
  whole (l ++ (if 2 <=? zc_chain (zc_after z (op_of q) res) then buf_part (core_of (co_tx c)) else [])
    ++ zc_bytes (zc_after z (op_of q) res)).
Proof.
  intros [_ Hw] Ez Hlk Em Hc Hh Ht Hcl Ho El He. unfold zc_after, zc_with in *. simpl in He.
  destruct (res <? 0) eqn:Er; [done|]. unfold doomed, outbox, header_due, file_part in *. simpl in Hw, El.
  rewrite Ez, Hlk, He in *. specialize (Hw eq_refl). rewrite Em in Hw. simpl in Hw. rewrite El. clear El.
  unfold link_order, is_linked in Ho. rewrite Ez, Hlk, Hcl, <-Hc in Ho. simpl in Ho.
  destruct q as [| | |fd off d fl zc| | | | |]; simpl in *; try done.
  - destruct Hh as (_ & _ & -> & -> & _). apply andb_true_iff in Ho as [Ho%Z.eqb_eq E]. rewrite Er in E. apply Z.eqb_eq in E.
    rewrite Ho in *. simpl in *. rewrite take_ge by lia. by rewrite <-app_assoc.
  - apply Z.eqb_eq in Ho. rewrite Ho in *. simpl in *. rewrite app_nil_r. exact Hw.
  - apply Z.eqb_eq in Ho. rewrite Ho in *. simpl in *. unfold file_part. simpl. rewrite Ez. destruct (0 <? res) eqn:E0.
    + rewrite (zc_take z res (zc_chain z - 1) true (zc_err z)) in Hw by lia. by rewrite <-app_assoc.
    + replace (Z.to_nat res) with 0%nat by lia. rewrite app_nil_r. exact Hw.
Qed.

(** The handler of a connection's completion: [c] before the accounting, [c1]
    after it. *)
Lemma f_on_conn_cqe c c1 es e res flags data l0 :
  settled l0 (core_of (co_tx c)) → mode_ok c es → e ∈ es → held c (e_sqe e) → co_closing c = false →
  co_closing c1 = false → core_of (co_tx c1) = core_of (co_tx c) →
  link_order c es (e_sqe e) res = true → may_complete e res flags data = true →
  l = l0 ++ (if doomed (core_of (co_tx c)) then [] else took c (e_sqe e) res) →
  from sent x c1 (on_conn_cqe srv (op_of (e_sqe e)) x res flags) (λ _, settled l).
Proof.
  intros Hs Hm He Hh Hcl Hcl1 Ec Ho Hmay El. pose proof Ec as E. unfold core_of in E. injection E as E1 E2 E3 E4.
  assert (is_linked c1 = is_linked c) as Elk by (unfold is_linked; by rewrite E4).
  destruct (is_tx (e_sqe e)) eqn:Et.
  - destruct (tx_modes c es e Hm He Et) as [(z & Ez & Hlk & Em & Hc)|[Hlk Hcase]].
    + assert (from sent x c1 (on_linked_cqe srv x (op_of (e_sqe e)) res) (λ _, settled l)) as Hf.
      { apply (f_on_linked_cqe _ _ _ c1 z); [congruence|done|congruence|by apply Hs|]. rewrite Ec. by eapply linked_left. }
      assert (is_linked c1 = true) as Elk1 by (rewrite Elk; unfold is_linked; by rewrite Ez).
      unfold may_complete in Hmay. destruct (e_sqe e); try done; unfold on_conn_cqe; simpl in *.
      * rewrite !andb_true_iff in Hmay. destruct Hmay as [_ ->%negb_true_iff]. unfold on_send. apply f_conn. by rewrite Elk1.
      * unfold on_splice_in. apply f_conn. by rewrite Elk1.
      * unfold on_splice_out. apply f_conn. by rewrite Elk1.
    + assert (doomed (core_of (co_tx c)) = false) as Hd.
      { unfold doomed, is_linked in Hlk |- *. simpl. destruct (tx_zc (co_tx c)) as [z|]; [by rewrite Hlk|done]. }
      rewrite Hd in El. rewrite <-Ec in Hs. rewrite <-Elk in Hlk. unfold may_complete in Hmay.
      assert (∀ z, tx_zc (co_tx c) = Some z → zc_linked z = false) as Hz by (intros z Ez; unfold is_linked in Hlk; by rewrite E4, Ez in Hlk).
      destruct Hcase as [[Hq Em]|[[z Ez] [[Hq Em]|[Hq Em]]]]; destruct (e_sqe e); try done; unfold on_conn_cqe; simpl in *.
      * rewrite !andb_true_iff in Hmay. destruct Hmay as [_ ->%negb_true_iff]. destruct Hh as (_ & Hoff & -> & -> & _).
        eapply f_on_send_plain; try done; rewrite ?E1, ?E2, ?E3; done.
      * rewrite app_nil_r in El. rewrite <-El in Hs. eapply f_on_splice_in_plain; [done|by rewrite E4|by apply Hz|done|congruence].
      * unfold file_part in El. simpl in El. rewrite Ez in El. eapply f_on_splice_out_plain; [done|by rewrite E4|by apply Hz|done|congruence|done].
  - assert (l = l0) as El' by (rewrite El; destruct (e_sqe e), (doomed _); by rewrite ?app_nil_r). rewrite El'.
    rewrite <-Ec, <-El' in Hs. rewrite <-El'. unfold may_complete in Hmay. destruct (e_sqe e); try done; unfold on_conn_cqe; simpl.
    + by apply f_on_recv.
    + apply andb_true_iff in Hmay as [-> _]. by apply f_on_send_notif.
    + by eapply f_moves; [|apply m_on_inotify].
Qed.
End completion.

(** ** The system *)

(** What the kernel holds for a slot. *)
Definition for_slot (j : nat) (K : list Entry) : list Entry := filter (λ e, slot_of e = Some j) K.

Definition in_link_order (k : Worker) (K : list Entry) (e : Entry) (res : Z) : bool :=
  match slot_of e with
  | Some j => match wk_conns k !! j with Some (Some c) => link_order c (for_slot j K) (e_sqe e) res | _ => true end
  | None => true
  end.

(** What was taken from the connection in each slot, after one more
    completion; a new connection starts from nothing. *)
Definition taken (k : Worker) (e : Entry) (res : Z) (sent : nat → list OutByte) (j : nat) : list OutByte :=
  match wk_conns k !! j with
  | Some (Some c) => if bool_decide (slot_of e = Some j) && live c then sent j ++ took c (e_sqe e) res else sent j
  | _ => []
  end.

Section sends.
Context `{Env} (srv : Srv).

(** A run of the system, with what the kernel took from the connection in each
    slot of each worker while it was live. *)
Inductive sends (y0 : Sys) : Sys → (nat → nat → list OutByte) → Prop :=
| sends_start : sends y0 y0 (λ _ _, [])
| sends_cqe y sent i k k' K1 e K2 res flags data s :
    sends y0 y sent →
    y_workers y !! i = Some (k, K1 ++ e :: K2) →
    may_complete e res flags data = true →
    in_link_order k (K1 ++ e :: K2) e res = true →
    dma e data k = Some k' →
    handle_cqe srv (e_ud e) res flags (deliver y k' e data) = (inl tt, s) →
    sends y0 (mkSys (r_w s) (r_frames s)
      (<[i := (r_wk s, (K1 ++ remains e flags ++ K2) ++ r_sq s)]> (y_workers y)) (r_obs s))
      (λ i', if decide (i' = i) then taken k e res (sent i) else sent i').

Lemma sends_reach y0 y sent : sends y0 y sent → rtc (sys_step srv) y0 y.
Proof. intros Hs. induction Hs; [constructor|]. eapply rtc_r; [done|by eapply step_cqe]. Qed.
End sends.

Section system.
Context `{Env} `{!OsLaws} `{!CryptoLaws} (srv : Srv) (Hsrv : srv_ok srv).

(** The output of one worker. *)
Definition worker_out (sent : nat → list OutByte) (k : Worker) : Prop :=
  (∀ j, ∃ rest, whole (sent j ++ rest)) ∧
  ∀ j c, wk_conns k !! j = Some (Some c) → co_closing c = false → side_ok c ∧ settled (sent j) (core_of (co_tx c)).

(** The kernel's writes do not concern the output. *)
Lemma dma_conn_out q data c c' :
  dma_conn q data c = Some c' → co_tx c' = co_tx c ∧ co_closing c' = co_closing c ∧ co_deferred c' = co_deferred c ∧ co_gen c' = co_gen c.
Proof. unfold dma_conn. intros E. destruct q; repeat case_match; try done; by injection E as <-. Qed.

(** The connection of an entry, before and after the kernel's access. *)
Lemma entry_slot K1 e K2 nm j s data k' :
  worker_inv srv (K1 ++ e :: K2) nm None s → r_sq s = [] → slot_of e = Some j → dma e data (r_wk s) = Some k' →
  ∃ c c', wk_conns (r_wk s) !! j = Some (Some c) ∧ held c (e_sqe e) ∧
    (co_closing c = false → mode_ok c (for_slot j (K1 ++ e :: K2))) ∧
    ud_parts (e_ud e) = (op_of (e_sqe e), Z.of_nat j, co_gen c, 0) ∧
    wk_conns k' = <[j := Some c']> (wk_conns (r_wk s)) ∧
    co_tx c' = co_tx c ∧ co_closing c' = co_closing c ∧ co_deferred c' = co_deferred c ∧ co_gen c' = co_gen c.
Proof.
  intros Hv Hsq He Hd. destruct (entry_conn srv Hsrv _ _ _ _ _ _ Hv He) as (c & Ec & Hh & _ & Eu).
  unfold dma in Hd. rewrite He, Ec in Hd. destruct (_ =? _); [|done].
  destruct (dma_conn (e_sqe e) data c) as [c'|] eqn:Em; [|done]. injection Hd as <-. exists c, c'.
  split_and!; try done; [|by eapply dma_conn_out..]. intros Hcl. pose proof (v_slots _ _ _ _ _ Hv j ltac:(done)) as Hj.
  unfold slot_ok, ents in Hj. rewrite Ec, Hsq, app_nil_r in Hj. destruct Hj as [[_ Hok] _]. rewrite Hcl in Hok.
  apply Hok.
Qed.

(** The completion of a connection's entry. *)
Lemma slot_out sent K1 e K2 nm j y k k' o res flags data s :
  worker_inv srv (K1 ++ e :: K2) nm None (mkRSt (y_world y) k [] (y_frames y) o) → worker_out sent k → slot_of e = Some j →
  may_complete e res flags data = true → in_link_order k (K1 ++ e :: K2) e res = true → dma e data k = Some k' →
  handle_cqe srv (e_ud e) res flags (deliver y k' e data) = (inl tt, s) →
  at_rest (taken k e res sent) s.
Proof.
  intros Hv [_ Hout] He Hmay Ho Hd Hh.
  destruct (entry_slot _ _ _ _ _ _ _ _ Hv eq_refl He Hd) as (c & c' & Ec & Hheld & Hm & Eu & Ek & Et & Ecl & Edf & Eg).
  cbn [r_wk] in *. unfold in_link_order in Ho. rewrite He, Ec in Ho.
  assert (phase (taken k e res sent) j (λ _, True) (deliver y k' e data)) as Hp.
  { intros i d. simpl. rewrite Ek. intros [(<- & [= <-] & _)|[Hne Hi]]%list_lookup_insert_Some Hdc.
    - rewrite decide_True by done. split; [|done]. rewrite Ecl in Hdc. destruct (Hout _ _ Ec Hdc) as [Hside _].
      unfold side_ok in *. by rewrite Et, Edf.
    - rewrite decide_False by done. unfold taken. rewrite Hi, bool_decide_false by congruence. by apply Hout. }
  assert (wk_conns k' !! j = Some (Some c')) as Ec'.
  { rewrite Ek. by rewrite list_lookup_insert_eq by (by eapply lookup_lt_Some). }
  apply (rest_phase _ j). unfold handle_cqe in Hh. rewrite Eu, Nat2Z.id in Hh.
  assert (op_of (e_sqe e) =? OP_ACCEPT = false ∧ op_of (e_sqe e) =? OP_WAKE = false ∧ op_of (e_sqe e) =? OP_CANCEL = false)
    as (E1 & E2 & E3) by (by destruct (e_sqe e)). rewrite E1, E2, E3 in Hh.
  apply bind_returns in Hh as (k0 & s0 & [= <- <-] & Hh). rewrite Ec', Eg, Z.eqb_refl in Hh. cbn [negb] in Hh.
  refine ((_ : from (taken k e res sent) j c' _ (λ _, settled (taken k e res sent j))) _ _ _ Hp Ec' Hh).
  set (c1 := retire (op_of (e_sqe e)) flags c').
  assert (core_of (co_tx c1) = core_of (co_tx c) ∧ co_closing c1 = co_closing c ∧ tx_pending_zc (co_tx c1) = tx_pending_zc (co_tx c')
    ∧ co_deferred c1 = co_deferred c') as (F1 & F2 & F3 & F4).
  { unfold c1, retire. destruct (_ && _); simpl; by rewrite ?Et. }
  apply f_upd_conn; [by fold c1; rewrite F2, Ecl|intros Hc; unfold side_ok in *; fold c1; by rewrite F3, F4|].
  fold c1. clearbody c1. apply f_conn. destruct (co_closing c1) eqn:Ecl1.
  - apply f_closing; [done|]. moves_auto.
  - eapply (f_on_conn_cqe _ _ _ c); try done; [by apply Hout|by apply Hm|..].
    + apply list_elem_of_filter. split; [done|]. set_solver.
    + unfold taken, live. rewrite Ec, bool_decide_true, <-F2 by done. simpl. destruct (doomed _); simpl; by rewrite ?app_nil_r.
Qed.

(** A completion of no connection: an accept, a wake-up or a cancel. *)
Lemma other_out sent K1 e K2 nm y k o res flags data s :
  worker_inv srv (K1 ++ e :: K2) nm None (mkRSt (y_world y) k [] (y_frames y) o) → worker_out sent k → slot_of e = None →
  handle_cqe srv (e_ud e) res flags (deliver y k e data) = (inl tt, s) →
  at_rest (taken k e res sent) s.
Proof.
  intros Hv [_ Hout] He Hh. assert (at_rest (taken k e res sent) (deliver y k e data)) as Hs.
  { intros j c Hc Hcl. simpl in Hc. unfold taken. rewrite Hc, He, bool_decide_false by done. by apply Hout. }
  pose proof (v_tags _ _ _ _ _ Hv) as Ht. rewrite !Forall_app, Forall_cons in Ht. destruct Ht as [[_ [Ht _]] _].
  unfold tagged in Ht. unfold slot_of in He. unfold handle_cqe in Hh.
  destruct (ud_parts (e_ud e)) as [[[op i] gen] q]. simpl in Ht, He. subst op.
  destruct (e_sqe e); simpl in *; try done.
  - apply bind_returns in Hh as ([] & s1 & E1 & Hh). destruct (res <? 0).
    + injection Hh as <-. destruct (has_bits _ _); [by injection E1 as <-|]. eapply (rest_moves _ 0); [apply m_arm_accept|exact Hs|exact E1].
    + assert (r_wk s1 = k) as Ek.
      { destruct (has_bits _ _); [by injection E1 as <-|]. unfold arm_accept in E1.
        apply bind_returns in E1 as (k1 & s2 & [= <- <-] & [= <-]). done. }
      assert (at_rest (taken k e res sent) s1) as Hs1 by (intros j c; rewrite Ek; apply Hs).
      eapply rest_on_accept; [| |exact Hs1|exact Hh]; rewrite Ek; [apply (v_free _ _ _ _ _ Hv)|].
      intros j Hj. unfold taken. destruct (wk_conns k !! j) as [[c|]|]; [by destruct (Hj c)|done..].
  - by eapply rest_on_wake.
  - by injection Hh as <-.
Qed.

(** What was taken can still be completed. *)
Lemma taken_whole sent K1 e K2 nm k w n o res data k' :
  worker_inv srv (K1 ++ e :: K2) nm None (mkRSt w k [] n o) → worker_out sent k →
  in_link_order k (K1 ++ e :: K2) e res = true → dma e data k = Some k' →
  ∀ j, ∃ rest, whole (taken k e res sent j ++ rest).
Proof.
  intros Hv [Hw Hout] Ho Hd j. unfold taken. destruct (wk_conns k !! j) as [[c|]|] eqn:Ec; [|exists []; apply whole_nil..].
  destruct (_ && _) eqn:E; [|apply Hw]. apply andb_true_iff in E as [He%bool_decide_eq_true [Hcl Hdm]%andb_true_iff].
  apply negb_true_iff in Hcl, Hdm. destruct (entry_slot _ _ _ _ _ _ _ _ Hv eq_refl He Hd) as (d & c' & Ed & Hheld & Hm & _).
  cbn [r_wk] in *. rewrite Ec in Ed. injection Ed as <-. unfold in_link_order in Ho. rewrite He, Ec in Ho.
  destruct (took_front c (for_slot j (K1 ++ e :: K2)) e res) as [rest E]; try done; [by apply Hm| |].
  { apply list_elem_of_filter. split; [done|]. set_solver. }
  exists rest. rewrite <-app_assoc, <-E. destruct (Hout _ _ Ec Hcl) as [_ [_ Hs]]. by apply Hs.
Qed.

Definition sys_out (y : Sys) (sent : nat → nat → list OutByte) : Prop :=
  ∀ i k K, y_workers y !! i = Some (k, K) → worker_out (sent i) k.

Lemma sends_out w frames ls y sent :
  initial w → len (w_mailboxes w) = len ls → FRAME_CONNECTS * Z.of_nat frames < 2 ^ 32 →
  sends srv (sys_boot w frames ls) y sent → sys_out y sent.
Proof.
  intros Hw Hm Hb Hs. induction Hs as [|y sent i k k' K1 e K2 res flags data s Hs IH Hi Hmay Ho Hd Hh].
  - intros i k K. simpl. rewrite list_lookup_imap. intros ([fd zc] & Hi & E)%fmap_Some. unfold boot_worker in E.
    cbn [fst snd] in E. injection E as -> ->. split; [intros j; exists []; apply whole_nil|]. intros j c.
    unfold worker_start, arm_accept, arm_wake, my_mailbox, mbind, ST_bind, gets, sq_push, modify.
    simpl. by destruct (w_mailboxes w !! _).
  - pose proof (reachable_sys srv Hsrv w frames ls y Hw Hm Hb (sends_reach _ _ _ _ Hs) _ _ _ Hi) as Hv.
    intros a ka Ka. simpl. intros [(<- & [= <- <-] & _)|[Hne Ha]]%list_lookup_insert_Some; [|rewrite decide_False by done; by eapply IH].
    rewrite decide_True by done. specialize (IH _ _ _ Hi). split; [by eapply taken_whole|].
    destruct (slot_of e) as [j|] eqn:He; [by eapply slot_out|].
    assert (k' = k) as -> by (unfold dma in Hd; rewrite He in Hd; by injection Hd). by eapply other_out.
Qed.

End system.

(** ** A run: the answer to an ECHO leaves in two pieces *)
Section run.
Context `{Env} (srv : Srv).

Definition send_next (x : Sys * (nat → nat → list OutByte)) (q : nat * nat * Z * Z * bytes) :
    option (Sys * (nat → nat → list OutByte)) :=
  let '(y, sent) := x in
  let '(i, n, res, flags, data) := q in
  '(k, K) ← y_workers y !! i; e ← K !! n;
  if in_link_order k K e res then
    y' ← next srv y q; Some (y', λ i', if decide (i' = i) then taken k e res (sent i) else sent i')
  else None.

Fixpoint send_run (x : Sys * (nat → nat → list OutByte)) (qs : list (nat * nat * Z * Z * bytes)) :
    option (Sys * (nat → nat → list OutByte)) :=
  match qs with [] => Some x | q :: qs => x ← send_next x q; send_run x qs end.

Lemma send_next_sends y0 y sent q x : sends srv y0 y sent → send_next (y, sent) q = Some x → sends srv y0 x.1 x.2.
Proof.
  intros Hs. destruct q as [[[[i n] res] flags] data]. unfold send_next, next. intros ([k K] & Hi & Hr)%bind_Some.
  apply bind_Some in Hr as (e & He & Hr). destruct (in_link_order _ _ _ _) eqn:Eo; [|done].
  apply bind_Some in Hr as (y' & Hn & [= <-]). apply bind_Some in Hn as ([k1 L] & Hi1 & Hn).
  rewrite Hi in Hi1. injection Hi1 as <- <-. apply bind_Some in Hn as (e1 & He1 & Hn). rewrite He in He1. injection He1 as <-.
  destruct (may_complete e res flags data) eqn:Em; [|done].
  apply bind_Some in Hn as (k' & Hd & Hn). destruct (handle_cqe _ _ _ _ _) as [[[]|?] s] eqn:Eh; [|done].
  injection Hn as <-. rewrite <-(take_drop_middle _ _ _ He) in Hi, Eo. by eapply sends_cqe.
Qed.

Lemma send_run_sends y0 qs : ∀ x x', sends srv y0 x.1 x.2 → send_run x qs = Some x' → sends srv y0 x'.1 x'.2.
Proof.
  induction qs as [|q qs IH]; intros [y sent] x' Hs; simpl; [by intros [= <-]|].
  intros (x1 & Hn & Hr)%bind_Some. eapply IH; [|exact Hr]. by eapply send_next_sends.
Qed.
End run.

Definition ring_answer : bytes := match e_sqe ring_send with SqSend _ _ d _ _ => d | _ => [] end.

(** The kernel takes thirty bytes of the answer and leaves the rest. *)
Lemma cut_send_spec : ∃ y sent k K c,
  @send_run mem_env sample_srv (ring_start, λ _ _, []) (ring_run ++ [(0%nat, 2%nat, 30, 0, [])]) = Some (y, sent) ∧
  y_workers y !! 0%nat = Some (k, K) ∧ wk_conns k !! 0%nat = Some (Some c) ∧ live c = true ∧
  sent 0%nat 0%nat = B <$> take 30 ring_answer ∧ outbox (core_of (co_tx c)) = B <$> drop 30 ring_answer.
Proof.
  assert ((λ x, (x.2 0%nat 0%nat, (λ c, (live c, outbox (core_of (co_tx c)))) <$>
      (y_workers x.1 !! 0%nat ≫= (λ x, mjoin (wk_conns x.1 !! 0%nat)))))
    <$> @send_run mem_env sample_srv (ring_start, λ _ _, []) (ring_run ++ [(0%nat, 2%nat, 30, 0, [])])
    = Some (B <$> take 30 ring_answer, Some (true, B <$> drop 30 ring_answer))) as E by (by vm_compute).
  apply fmap_Some in E as ([y sent] & E & Hy). exists y, sent. simpl in Hy. injection Hy as Hs Hy. symmetry in Hy.
  apply fmap_Some in Hy as (c & Hc & [= Hl Hout]). apply bind_Some in Hc as ([k K] & Hk & Hc).
  exists k, K, c. split; [exact E|]. split; [exact Hk|]. clear E Hk. simpl in Hc.
  destruct (wk_conns k !! 0%nat) as [[?|]|]; [|discriminate Hc..]. injection Hc as ->. by split_and!.
Qed.


(** ** A header that is sent in part *)
Definition big_read : ZcReadPlan := mkZcReadPlan 11 0 65536 1 5 1 1 1 1 true.
Definition reading_conn : Conn :=
  co_set_pipe (Some (20, 21)) (2 ^ 20)
    (co_set_inflight 1 (co_set_rx (rx_set_inflight true (co_rx (conn_new 7 1 (pc_new sample_srv 0 0 1))))
       (conn_new 7 1 (pc_new sample_srv 0 0 1)))).
Definition reading : @RSt mem_env :=
  @mkRSt mem_env ring_world (mkWorker 0 3 [Some reading_conn] [1] [] 0 true) [] 4 [].

(** The three parts of a linked read complete; the kernel takes [n] bytes of
    the header. *)
Definition linked_read (n : Z) : @RM mem_env unit :=
  @start_zc mem_env sample_srv 0 big_read ;;
  @handle_cqe mem_env sample_srv (ud OP_SPLICE_IN 0 1 0) 65536 0 ;;
  @handle_cqe mem_env sample_srv (ud OP_SEND 0 1 0) n 0 ;;
  @handle_cqe mem_env sample_srv (ud OP_SPLICE_OUT 0 1 0) 65536 0.

(** How the connections stand, and the sizes of the sends that were queued. *)
Definition seen (x : (unit + stop) * @RSt mem_env) : option (list (Tx * bytes * list OutByte) * list (option Z)) :=
  match x with
  | (inl _, s) => Some
      ((λ c, (tx_mode (co_tx c), tx_buf (co_tx c), outbox (core_of (co_tx c)))) <$> omap id (wk_conns (r_wk s)),
       (λ e, match e_sqe e with SqSend _ _ d _ _ => Some (len d) | _ => None end) <$> r_sq s)
  | _ => None
  end.

(** Why the header has to be sent whole: a send without MSG_WAITALL that is
    cut short does not break the link, and the handler does not look at how
    much was sent. After ten bytes of the 84-byte header and the data, the
    connection is idle with an empty buffer, as after a complete one, and no
    second send was queued: the other 74 bytes are lost, and the client takes
    the first bytes of the data for the rest of the header. *)
Lemma short_header_tears_the_stream :
  seen (linked_read 10 reading) = Some ([(Idle, [], [])], [None; Some 84; None]) ∧
  seen (linked_read 84 reading) = Some ([(Idle, [], [])], [None; Some 84; None]).
Proof. split; vm_compute; reflexivity. Qed.
