(* ===== verification/Boot.v ===== *)
(** Start-up: from the command line to running workers. Models src/main.rs,
    [Config::load] of src/config.rs and the set-up functions of src/uring.rs.

    The TOML decoder is third-party code and a parameter. The set-up of the
    worker threads is run one after the other here. The trace of system calls
    that the other theorems speak of begins when the workers run. *)
From S2P Require Import Prelude Hoare Wire Status Os Sample Lease Vfs Handles Health Crypto Net Session Config Authz.
From S2P Require Import Smb2 State Confine SessionSafe WorldSafe Uring Reactor Ring Watches.
Local Open Scope Z_scope.

(** ** Rings, pipes and sockets *)
Definition DEFAULT_PIPE : Z := 64 * 1024.

(** [libc::sockaddr_storage] and the length of what is in it. *)
Definition sockaddr_of (a : SocketAddr) : Z * bytes * Z :=
  let fill b := b ++ replicate (Z.to_nat (128 - len b)) 0 in
  match a with
  | SaV4 ip port => (AF_INET, fill (le_bytes 2 AF_INET ++ be_bytes 2 port ++ ip ++ replicate 8 0), 16)
  | SaV6 ip port scope =>
      (AF_INET6, fill (le_bytes 2 AF_INET6 ++ be_bytes 2 port ++ le_bytes 4 0 ++ ip ++ le_bytes 4 scope), 28)
  end.

Section setup.
Context `{Env}.

Definition probe_io_uring : IO bool := do (c_ring 8 false).

Definition probe_pipe_size (want : Z) : IO Z :=
  p ← do c_pipe2;
  match p with
  | Err _ => mret DEFAULT_PIPE
  | Ok (r, w) =>
      do (c_setpipe_sz r want) ;;
      got ← do (c_getpipe_sz r);
      do (c_close r) ;; do (c_close w) ;;
      mret (if got <=? 0 then DEFAULT_PIPE else Z.min (wrap 32 got) want)
  end.

Definition pin_to_core (wid : Z) : IO unit :=
  ncpu ← do c_ncpu;
  if ncpu <=? 0 then mret tt else do (c_setaffinity (wid mod ncpu)).

Definition listener (addr : SocketAddr) : IO (option Z) :=
  let '(domain, sa, sa_len) := sockaddr_of addr in
  fd ← do (c_socket domain);
  match fd with
  | None => mret None
  | Some fd =>
      do (c_reuse fd false) ;; do (c_reuse fd true) ;;
      bound ← do (c_bind fd (take (Z.to_nat sa_len) sa));
      ok ← (if (bound : bool) then do (c_listen fd 1024) else mret false);
      if (ok : bool) then mret (Some fd) else do (c_close fd) ;; mret None
  end.

(** [run_worker] before its [Worker]: the listening socket and whether the
    ring can send without copying. *)
Definition worker_setup (cfg : Config) (wid : Z) : IO (option (Z * bool)) :=
  match parse_socket_addr (cf_listen cfg) with
  | None => mret None
  | Some addr =>
      l ← listener addr;
      match l with
      | None => mret None
      | Some fd =>
          (if cf_core_pinning cfg then pin_to_core wid else mret tt) ;;
          polled ← (if cf_sqpoll cfg then do (c_ring 1024 true) else mret false);
          ring ← (if (polled : bool) then mret true else do (c_ring 1024 false));
          if negb ring then mret None else zc ← do c_probe_send_zc; mret (Some (fd, zc))
      end
  end.

(** ** main *)
Context (toml_from_str : str → option Config).

(** [Config::load]; [None] is an error. *)
Definition config_load (p : path) : IO (option Config) :=
  raw ← do (c_read_file p);
  match raw ≫= toml_from_str with
  | None => mret None
  | Some cfg => r ← config_validate cfg; mret (match r with Ok _ => Some cfg | Err _ => None end)
  end.

Inductive Args := Usage | ShowVersion | Go (config_path : str) (check_only : bool).

Fixpoint parse_args (args : list str) (config_path : str) (check_only : bool) : Args :=
  match args with
  | [] => Go config_path check_only
  | a :: args =>
      if bool_decide (a = lit "--config" ∨ a = lit "-c") then
        match args with p :: args => parse_args args p check_only | [] => Usage end
      else if bool_decide (a = lit "--check") then parse_args args config_path true
      else if bool_decide (a = lit "--version" ∨ a = lit "-V") then ShowVersion
      else Usage
  end.

(** The server as it is when [run] waits for its threads: a worker's set-up
    may have failed, which ends only that worker. *)
Record Started := mkStarted {
  su_srv : Srv; su_listeners : list (option (Z * bool)); su_health : option (Z * HealthState) }.

Inductive Outcome := Died | Version | ConfigOk (shares : Z) | Running (su : Started).

(** [interfaces.retain(...)]. *)
Definition advertised (cfg : Config) (l : list Iface) : list Iface :=
  if bool_decide (cf_advertise_only cfg = []) then l
  else filter (λ i, ip_to_string (if_addr i) ∈ cf_advertise_only cfg) l.

Definition worker_count (cfg : Config) : IO Z :=
  if 0 <? cf_workers cfg then mret (cf_workers cfg)
  else n ← do c_parallelism; mret (match n with Some n => Z.pos n | None => 1 end).

Definition new_mailbox : IO unit :=
  fd ← do c_eventfd; match fd with Some _ => mret tt | None => halt Panic end.

(** Start the workers [wid], [wid + 1], ...; [live] counts those running. *)
Fixpoint spawn_workers (n : nat) (cfg : Config) (wid live : Z) : IO (list (option (Z * bool)) * Z) :=
  match n with
  | O => mret ([], live)
  | S n =>
      ok ← do (c_spawn (lit "worker-" ++ show_uint wid));
      if negb ok then halt Panic
      else
        l ← worker_setup cfg wid;
        let live := guard_new live in
        let live := match l with Some _ => live | None => guard_drop live end in
        '(ls, live) ← spawn_workers n cfg (wid + 1) live;
        mret (l :: ls, live)
  end.

Definition run_server (cfg : Config) : IO Outcome :=
  ok ← probe_io_uring;
  if negb ok then mret Died
  else
    do c_ignore_sigpipe ;;
    match (if kerberos then cf_kerberos cfg ≫= kc_keytab else None) with
    | Some kt => do (c_setenv (lit "KRB5_KTNAME") kt)
    | None => mret tt
    end ;;
    guid ← urandom 16;
    max_read ← probe_pipe_size MAX_READ_TARGET;
    match user_db cfg with
    | None => halt Panic
    | Some users =>
        ifs ← interfaces;
        workers ← worker_count cfg;
        for_each (replicate (Z.to_nat workers) tt) (λ _, new_mailbox) ;;
        start ← filetime_now;
        let srv := mkSrv cfg guid max_read start users (guest_allowed cfg) (advertised cfg ifs) in
        '(ls, live) ← spawn_workers (Z.to_nat workers) cfg 0 0;
        match cf_health_listen cfg with
        | None => mret (Running (mkStarted srv ls None))
        | Some addr =>
            l ← health_spawn addr;
            mret (match l with
                  | None => Died
                  | Some l => Running (mkStarted srv ls (Some (l, mkHealthState workers live (sc_path <$> cf_shares cfg))))
                  end)
        end
    end.

Definition main (args : list str) : IO Outcome :=
  match parse_args args (lit "rocketsmbd.toml") false with
  | Usage => mret Died
  | ShowVersion => mret Version
  | Go config_path check_only =>
      cfg ← config_load config_path;
      match cfg with
      | None => mret Died
      | Some cfg => if (check_only : bool) then mret (ConfigOk (len (cf_shares cfg))) else run_server cfg
      end
  end.

(** The shared state the workers start on. *)
Definition first_world (o : OsSt) (workers : nat) : World :=
  mkWorld (mkOsSt (os_st o) []) ∅ ∅ (replicate workers mailbox_new).
End setup.

(** ** What start-up guarantees *)
Section started.
Context `{Env} `{!NetLaws} (toml_from_str : str → option Config).
Local Abbreviation gives m Q := (yields (λ _ : OsSt, True) m Q).

Lemma gives_any {A} (m : IO A) : gives m (λ _, True).
Proof. done. Qed.

(** A step whose result does not matter. *)
Ltac skip := eapply yields_bind; [apply gives_any|intros ? _].

Definition cfg_valid (c : Config) : Prop :=
  cf_shares c ≠ [] ∧ authz_validate c = Some (Ok tt) ∧ validate_users [] (cf_users c) = Ok tt ∧
  is_Some (parse_socket_addr (cf_listen c)).

Lemma config_validate_gives c : gives (config_validate c) (λ r, r = Ok tt → cfg_valid c).
Proof.
  unfold config_validate. case_bool_decide; simpl; [|by apply yields_ret].
  match goal with |- yields _ (if ?b then _ else _) _ => destruct b end; [by apply yields_ret|].
  case_bool_decide; [by apply yields_ret|]. skip.
  destruct a as [[]|e]; [|by apply yields_ret].
  destruct (validate_users [] (cf_users c)) as [[]|e] eqn:Eu; [|by apply yields_ret].
  match goal with |- yields _ (match ?b with _ => _ end) _ => destruct b as [[]|e] end; [|by apply yields_ret].
  destruct (authz_validate c) as [r|] eqn:Ea; [|apply yields_halt]. apply yields_ret. intros ->. by split_and!.
Qed.

Lemma config_load_gives p : gives (config_load toml_from_str p) (λ r, ∀ c, r = Some c → cfg_valid c).
Proof.
  unfold config_load. skip. destruct (a ≫= toml_from_str) as [c|]; [|by apply yields_ret].
  eapply yields_bind; [apply config_validate_gives|]. intros [[]|e] Hv; apply yields_ret; [|done].
  intros ? [= <-]. by apply Hv.
Qed.

Lemma probe_pipe_gives want : DEFAULT_PIPE ≤ want → gives (probe_pipe_size want) (λ n, n ≤ want).
Proof.
  intros Hw. unfold probe_pipe_size. skip. destruct a as [[r w]|e]; [|by apply yields_ret].
  skip. skip. skip. skip. apply yields_ret. destruct (_ <=? 0); lia.
Qed.

Lemma worker_count_gives cfg : gives (worker_count cfg) (λ n, 0 < n).
Proof.
  unfold worker_count. destruct (Z.ltb_spec 0 (cf_workers cfg)); [by apply yields_ret|].
  skip. apply yields_ret. destruct a; lia.
Qed.

(** The workers that came up. *)
Definition up (ls : list (option (Z * bool))) : list (Z * bool) := omap id ls.

Lemma spawn_workers_gives cfg n : ∀ wid live,
  0 ≤ live → live + Z.of_nat n < 2 ^ 64 →
  gives (spawn_workers n cfg wid live) (λ r, length r.1 = n ∧ r.2 = live + len (up r.1)).
Proof.
  induction n as [|n IH]; intros wid live Hl Hb; cbn [spawn_workers]; [apply yields_ret; simpl; split; [done|lia]|].
  skip. destruct (negb a); [apply yields_halt|]. skip. cbv zeta.
  assert (guard_new live = live + 1) as En by (unfold guard_new, wrap; apply Z.mod_small; lia).
  assert (guard_drop (live + 1) = live) as Ed by (unfold guard_drop, wrap; rewrite Z.add_simpl_r; apply Z.mod_small; lia).
  rewrite En. destruct a0 as [x|]; rewrite ?Ed; (eapply yields_bind; [apply IH; lia|]); intros [ls lv] [H1 H2];
    apply yields_ret; cbn [fst snd] in *; (split; [by simpl; rewrite H1|]).
  - change (up (Some x :: ls)) with (x :: up ls). cbn [length]. lia.
  - exact H2.
Qed.

Lemma spawn_workers_length cfg n : ∀ wid live o ls live' o',
  spawn_workers n cfg wid live o = (inl (ls, live'), o') → length ls = n.
Proof.
  induction n as [|n IH]; intros wid live o ls live' o'; cbn [spawn_workers]; [by intros [= <- _ _]|].
  intros (ok & o1 & _ & E)%bind_returns. destruct (negb ok); [done|].
  apply bind_returns in E as (l & o2 & _ & E). apply bind_returns in E as ([r lv] & o3 & E & [= <- _ _]).
  simpl. f_equal. by eapply IH.
Qed.

(** A server that runs is set up as its configuration says. *)
Record started_ok (su : Started) : Prop := {
  st_valid : cfg_valid (srv_cfg (su_srv su));
  st_users : user_db (srv_cfg (su_srv su)) = Some (srv_users (su_srv su));
  st_guest : srv_allow_guest (su_srv su) = guest_allowed (srv_cfg (su_srv su));
  st_read : srv_max_read (su_srv su) ≤ MAX_READ_TARGET;
  st_ifs : Forall iface_ok (srv_interfaces (su_srv su));
  st_some : su_listeners su ≠ [];
  st_health : match su_health su with
    | Some (_, hs) => hs_total hs = len (su_listeners su) ∧ hs_live hs = len (up (su_listeners su)) ∧
        hs_paths hs = sc_path <$> cf_shares (srv_cfg (su_srv su))
    | None => cf_health_listen (srv_cfg (su_srv su)) = None
    end }.

Lemma run_server_gives cfg :
  cfg_valid cfg → cf_workers cfg < 2 ^ 64 →
  (∀ o n o', sys _ c_parallelism o = (Some n, o') → Z.pos n < 2 ^ 64) →
  gives (run_server cfg) (λ r, ∀ su, r = Running su → srv_cfg (su_srv su) = cfg ∧ started_ok su).
Proof.
  intros Hv Hw Hp. unfold run_server. skip. destruct (negb a); [by apply yields_ret|]. skip. skip. skip.
  rename a2 into guid. eapply yields_bind; [by apply probe_pipe_gives|]. intros max_read Hmax.
  destruct (user_db cfg) as [users|] eqn:Eu; [|apply yields_halt].
  eapply yields_bind; [apply interfaces_ok|]. intros ifs Hifs.
  eapply (yields_bind _ _ _ (λ n, 0 < n < 2 ^ 64)).
  { intros o n o' _ E. destruct (worker_count_gives cfg o n o' I E) as [_ Hn]. split; [done|]. split; [done|].
    unfold worker_count in E. destruct (0 <? cf_workers cfg); [by injection E as <- <-|].
    apply bind_returns in E as (m & o1 & E1 & [= <- <-]). destruct m as [m|]; [|done].
    unfold do in E1. destruct (sys _ _ _) as [x o2] eqn:Es. injection E1 as -> _. by eapply Hp. }
  intros n Hn. skip. skip. cbv zeta.
  eapply yields_bind; [apply spawn_workers_gives; lia|]. intros [ls live] [Hlen Hlive]. cbn [fst snd] in *.
  assert (ls ≠ []) as Hls by (intros ->; simpl in Hlen; lia).
  assert (Forall iface_ok (advertised cfg ifs)) as Hadv.
  { unfold advertised. case_bool_decide; [done|]. apply Forall_forall. intros i [_ Hi]%list_elem_of_filter.
    by eapply Forall_forall in Hi. }
  destruct (cf_health_listen cfg) as [addr|] eqn:Eh.
  - skip. apply yields_ret. destruct a4 as [l|]; [|done]. intros ? [= <-]. split; [done|].
    constructor; simpl; try done. split_and!; [lia|lia|done].
  - apply yields_ret. intros ? [= <-]. split; [done|]. by constructor.
Qed.

Lemma main_gives args :
  (∀ raw c, toml_from_str raw = Some c → cf_workers c < 2 ^ 64) →
  (∀ o n o', sys _ c_parallelism o = (Some n, o') → Z.pos n < 2 ^ 64) →
  gives (main toml_from_str args) (λ r, ∀ su, r = Running su → started_ok su).
Proof.
  intros Hc Hp. unfold main. destruct (parse_args _ _ _) as [| |p chk]; [by apply yields_ret..|].
  eapply (yields_bind _ _ _ (λ r, ∀ c, r = Some c → cfg_valid c ∧ cf_workers c < 2 ^ 64)).
  { intros o1 r o2 _ E. destruct (config_load_gives p o1 r o2 I E) as [_ Hv]. split; [done|]. intros c ->.
    split; [by apply Hv|]. unfold config_load in E. apply bind_returns in E as (raw & o3 & _ & E).
    destruct (raw ≫= toml_from_str) as [d|] eqn:Et; [|done]. apply bind_returns in E as (v & o4 & _ & E).
    destruct v; [|done]. injection E as -> _. destruct raw as [raw|]; [|done]. by eapply Hc. }
  intros [cfg|] Hcfg; [|by apply yields_ret]. destruct (Hcfg cfg eq_refl) as [Hv Hw].
  destruct chk; [by apply yields_ret|]. intros o1 r o2 _ E.
  destruct (run_server_gives cfg Hv Hw Hp o1 r o2 I E) as [_ Hr]. split; [done|]. intros su Hsu. by apply Hr.
Qed.
End started.

(** Without the laws of the network: the configuration is valid and a worker
    was started. *)
Lemma main_srv `{Env} toml args o su o' :
  main toml args o = (inl (Running su), o') → cfg_valid (srv_cfg (su_srv su)) ∧ su_listeners su ≠ [].
Proof.
  unfold main. destruct (parse_args _ _ _) as [| |p chk]; [done..|]. intros (c & o1 & E1 & E)%bind_returns.
  destruct (config_load_gives toml p o c o1 I E1) as [_ Hv]. destruct c as [cfg|]; [|done]. specialize (Hv cfg eq_refl).
  destruct chk; [done|]. unfold run_server in E. apply bind_returns in E as (ok & o2 & _ & E). destruct (negb ok); [done|].
  do 4 (apply bind_returns in E as (? & ? & _ & E)). destruct (user_db cfg); [|done].
  apply bind_returns in E as (ifs & o3 & _ & E).
  apply bind_returns in E as (n & o4 & En & E). destruct (worker_count_gives cfg _ _ _ I En) as [_ Hn].
  do 2 (apply bind_returns in E as (? & ? & _ & E)). cbv zeta in E.
  apply bind_returns in E as ([ls live] & o5 & Es & E).
  assert (length ls = Z.to_nat n) as Hls by (by eapply spawn_workers_length in Es).
  assert (ls ≠ []) by (intros ->; simpl in Hls; lia).
  destruct (cf_health_listen cfg); [|by injection E as <- _].
  apply bind_returns in E as (hl & o6 & _ & E). destruct hl; [|done]. by injection E as <- _.
Qed.

(** C34: Start-up establishes what the server's theorems assume. When [main]
    gets as far as running workers, its configuration passed validation, so
    that the shares are there and every user list parses; the user database
    and the guest policy are those of the configuration; reads are bounded by
    the advertised maximum; every advertised interface can be reported; and
    the health page is told of as many workers as were started, as many live
    ones as came up, and exactly the shares' paths. (The premises say that a
    number of workers is a machine word.) *)
Theorem startup_establishes_config `{Env} `{!NetLaws} toml args o su o' :
  (∀ raw c, toml raw = Some c → cf_workers c < 2 ^ 64) →
  (∀ o n o', sys _ c_parallelism o = (Some n, o') → Z.pos n < 2 ^ 64) →
  main toml args o = (inl (Running su), o') → started_ok su.
Proof. intros Hc Hp E. by eapply main_gives. Qed.


(** ** A server that starts

    Two workers, one advertised interface and a health page. *)
#[global] Instance mem_net_laws : @NetLaws mem_env.
Proof.
  constructor.
  - intros o l o' ifa fam oct [= <- <-]. rewrite !elem_of_cons, elem_of_nil.
    intros [->|[->|[->|[->|[->|[]]]]]]; intros [= <- <-]; by split.
  - intros n o i o' [= <- <-]. apply Z.mod_pos_bound. lia.
Qed.

Definition boot_cfg : Config :=
  mkConfig (lit "0.0.0.0:445") 0 (lit "SRV") 1 (Some true) (Some false) false false [lit "10.0.0.7"] true true
    (Some (lit "127.0.0.1:8445")) false true Both None [mkShareCfg (lit "s") (lit "/s") false [] [] []]
    [mkUserCfg (lit "alice") (Some (lit "pw")) None] [].
Definition boot_toml (raw : str) : option Config := if bool_decide (raw = []) then Some boot_cfg else None.
Definition boot_run : (Outcome + stop) * @OsSt mem_env :=
  @main mem_env boot_toml [] (@mkOsSt mem_env mem_fs []).
Definition boot_started : Started :=
  match boot_run.1 with inl (Running su) => su | _ => mkStarted sample_srv [] None end.
Definition boot_listeners : list (Z * bool) := up (su_listeners boot_started).
Definition boot_sys : @Sys mem_env :=
  @sys_boot mem_env (@first_world mem_env boot_run.2 (length boot_listeners)) 4 boot_listeners.

Lemma boot_runs : boot_run = (inl (Running boot_started), boot_run.2).
Proof.
  assert (match boot_run.1 with inl (Running _) => true | _ => false end = true) as Hr by (by vm_compute).
  unfold boot_started. revert Hr. generalize boot_run. by intros [[[]|] o].
Qed.

(** Loopback and the other interfaces are not advertised; 2500 Mb/s. *)
Lemma boot_facts :
  if_speed <$> srv_interfaces (su_srv boot_started) = [2500000000] ∧
  srv_max_read (su_srv boot_started) = 65536 ∧
  su_listeners boot_started = Some <$> boot_listeners ∧ length boot_listeners = 2%nat.
Proof. by vm_compute. Qed.

Lemma startup_establishes_config_witness :
  started_ok (H := mem_env) boot_started ∧ len (su_listeners boot_started) = 2.
Proof.
  split; [|by vm_compute].
  apply (@startup_establishes_config mem_env _ boot_toml [] (@mkOsSt mem_env mem_fs []) boot_started boot_run.2).
  - unfold boot_toml. intros raw c. case_bool_decide; [|done]. by intros [= <-].
  - by intros o n o' [= <- _].
  - exact boot_runs.
Defined.

Lemma boot_echo_spec : ∃ y k K, @run mem_env (su_srv boot_started) boot_sys ring_run = Some y ∧
  y_workers y !! 0%nat = Some (k, K) ∧ length K = 4%nat.
Proof.
  assert ((λ y, length (held_entries y)) <$> @run mem_env (su_srv boot_started) boot_sys ring_run = Some 4%nat)
    as E by (by vm_compute).
  apply fmap_Some in E as (y & E & Hl). exists y. unfold held_entries in Hl.
  destruct (y_workers y !! 0%nat) as [[k K]|]; [|done]. exists k, K. split; [exact E|]. split; [done|]. symmetry. exact Hl.
Qed.

