(* ===== verification/Fuzz.v ===== *)
(** The fuzz targets and the test server they share: what a fuzzer feeds the
    server, and that no input makes a target fail. Models src/fuzzing.rs.

    The TOML decoder is third-party code and a parameter, as in Boot.v. *)
From S2P Require Import Prelude Hoare Wire Status Os Sample Lease Vfs Handles Health Spnego Crypto Ntlm Net Config Authz Session.
From S2P Require Import Smb2 Codec State Dispatch Confine SessionSafe WorldSafe.
Local Open Scope Z_scope.

(** ** The servers *)

(** A line of TOML, and a key with a string. *)
Definition line (s : str) : str := s ++ [LF].
Definition key_str (k v : str) : str := line (k ++ lit " = " ++ quoted v).

(** [dir] is printed with [Path::display]. *)
Definition test_toml (dir : path) : str :=
  key_str (lit "server_name") (lit "TESTSRV") ++ line (lit "workers = 1") ++ line (lit "core_pinning = false") ++
  line (lit "oplocks = false") ++ line (lit "[[share]]") ++ key_str (lit "name") (lit "t") ++
  line (lit "path = '" ++ from_utf8_lossy dir ++ lit "'").

Definition fuzz_toml (dir : path) : str :=
  key_str (lit "server_name") (lit "FUZZ") ++ line (lit "workers = 1") ++ line (lit "allow_guest = true") ++
  line (lit "multichannel = true") ++ line (lit "core_pinning = false") ++
  line (lit "[[share]]") ++ key_str (lit "name") (lit "f") ++
  line (lit "path = '" ++ from_utf8_lossy dir ++ lit "'") ++ line (lit "read_only = true") ++
  line (lit "[[user]]") ++ key_str (lit "name") (lit "u") ++ key_str (lit "password") (lit "p").

Section fuzzing.
Context `{Env} (toml_from_str : str → option Config).

(** [None]: a test configuration that does not parse, which panics. *)
Definition srv_from_toml (raw : str) : option Srv :=
  cfg ← toml_from_str raw; users ← user_db cfg;
  Some (mkSrv cfg (replicate 16 9) (2 ^ 20) 0 users (guest_allowed cfg) []).

Definition test_srv (dir : path) : option Srv := srv_from_toml (test_toml dir).

(** [dir] is the directory [rsmbd-fuzz-share] of the temporary directory. *)
Definition fuzz_srv (dir : path) : option Srv := srv_from_toml (fuzz_toml dir).

(** ** The targets

    A target runs on the registries of the server, which a thread keeps from
    one input to the next. *)
Context (srv : Srv).

(** [process_frame] on a connection that is dropped afterwards. *)
Definition feed (pc : ProtoConn) (frame : bytes) : ST World unit := λ w,
  let '(r, s) := process_frame srv frame (start w pc) in
  (match r with inl _ => inl tt | inr e => inr e end, st_w s).

Definition fuzz_process_frame (data : bytes) : ST World unit := feed (pc_new srv 0 0 0) data.

(** The results are dropped. *)
Definition fuzz_ntlm (data : bytes) : option bytes * Token * option bool :=
  (find_token data, ntlm_classify data, is_anonymous <$> parse_authenticate data).

Definition fuzz_spnego (data : bytes) : ST World unit :=
  let inc := Spnego.classify data in
  if len (in_token inc) <=? len data then mret tt else halt Panic.

Definition SID : Z := 0x1000000000000001.
Definition CIPHERS : list Z := [CIPHER_AES128_CCM; CIPHER_AES128_GCM; CIPHER_AES256_CCM; CIPHER_AES256_GCM].

Definition fuzz_enc (cipher : Z) : EncCtx := mkEncCtx cipher (replicate 32 7) (replicate 32 7) 0.

Definition fuzz_cipher (data : bytes) : Z :=
  nth (match data with b :: _ => Z.to_nat (b mod 4) | [] => 1 end) CIPHERS 0.

Definition fuzz_transform (data : bytes) : ST World unit :=
  let enc := fuzz_enc (fuzz_cipher data) in
  let opened := (λ c, decrypt_transform data (fuzz_enc c)) <$> CIPHERS in
  let '(_, sealed) := wrap_transform data enc SID [] in
  let frame := drop 4 sealed in
  if negb (bool_decide (decrypt_transform frame enc = Some data)) then halt Panic
  else feed (pc_set_channels {[SID := ch_set_enc (Some enc) channel_default]} (pc_new srv 0 0 0)) frame.

(** A fuzzer's run: inputs for the targets, one after the other. *)
Inductive Target := FrameTarget | NtlmTarget | SpnegoTarget | TransformTarget.

Definition fuzz_target (t : Target) (data : bytes) : ST World unit :=
  match t with
  | FrameTarget => fuzz_process_frame data
  | NtlmTarget => let dropped := fuzz_ntlm data in mret tt
  | SpnegoTarget => fuzz_spnego data
  | TransformTarget => fuzz_transform data
  end.

Definition fuzz_run (inputs : list (Target * bytes)) : ST World unit :=
  for_each inputs (λ i, fuzz_target i.1 i.2).
End fuzzing.

(** What the text of [fuzz_srv] says, with the defaults for the other keys. *)
Definition fuzz_cfg (dir : path) : Config :=
  mkConfig default_listen 1 (lit "FUZZ") default_log_level (Some true) None true false [] false false None false
    default_true default_auth None [mkShareCfg (lit "f") dir true [] [] []]
    [mkUserCfg (lit "u") (Some (lit "p")) None] [].

Section targets.
Context `{Env} `{!OsLaws} `{!CryptoLaws} (srv : Srv) (Hsrv : srv_ok srv).

Definition world_ok (N : Z) (w : World) : Prop :=
  map_Forall (λ (_ : Z) x, sess_ok (srv_cfg srv) N x) (w_sessions w) ∧ Forall (confined srv) (os_trace (w_os w)).

Definition traced_ok (w : World) : Prop := Forall (confined srv) (os_trace (w_os w)).

Lemma world_ok_mono N M w : N ≤ M → world_ok N w → world_ok M w.
Proof. intros HN [Hr Ht]. split; [|done]. intros i x Hx. eapply sess_ok_mono; [done|]. by apply (Hr i). Qed.

Lemma triple_feed N pc frame :
  0 ≤ N → N + FRAME_CONNECTS < 2 ^ 32 →
  triple (world_ok N) (feed srv pc frame) (λ _, world_ok (N + FRAME_CONNECTS)) traced_ok.
Proof.
  intros HN Hb w [Hr Ht]. unfold feed.
  pose proof (triple_process_frame srv Hsrv (w_os w) (pc_notify_new pc) N frame HN Hb (start w pc)) as Hp.
  specialize (Hp ltac:(constructor; try done; by apply noted_same)).
  destruct (process_frame srv frame (start w pc)) as [[a|e] s'].
  - destruct Hp as [Hr' _ (t & E & Ht')]. split; [done|]. rewrite E. by apply Forall_app.
  - destruct Hp as [He (t & E & Ht')]. split; [done|]. unfold traced_ok. rewrite E. by apply Forall_app.
Qed.

Lemma fuzz_cipher_known data : is_Some (aead_sizes (fuzz_cipher data)).
Proof.
  unfold fuzz_cipher. set (i := match data with [] => _ | _ => _ end).
  assert (i < 4)%nat as Hi. { unfold i. destruct data as [|b l]; [lia|]. pose proof (Z.mod_pos_bound b 4). lia. }
  clearbody i. do 4 (destruct i as [|i]; [by eexists|]). lia.
Qed.

(** An input costs at most the connects of one frame. *)
Lemma triple_fuzz_target N t data :
  0 ≤ N → N + FRAME_CONNECTS < 2 ^ 32 → len data + 52 < 2 ^ 32 →
  triple (world_ok N) (fuzz_target srv t data) (λ _, world_ok (N + FRAME_CONNECTS)) traced_ok.
Proof.
  intros HN Hb Hd.
  assert (triple (world_ok N) (mret tt) (λ _, world_ok (N + FRAME_CONNECTS)) traced_ok) as Hret
    by (apply triple_ret; intros w; apply world_ok_mono; unfold FRAME_CONNECTS; lia).
  destruct t; cbn [fuzz_target]; [by apply triple_feed|exact Hret| |].
  - unfold fuzz_spnego. pose proof (classify_token_le data). by rewrite (proj2 (Z.leb_le _ _)).
  - unfold fuzz_transform. cbv zeta. set (enc := fuzz_enc (fuzz_cipher data)).
    destruct (wrap_opens data enc SID [] enc) as (frame & E & _ & _ & Hopen & _); [done|unfold SID; lia|apply fuzz_cipher_known|done|done|done|].
    destruct (wrap_transform data enc SID []) as [e' sealed]. cbn [snd] in E. subst sealed.
    change (drop 4 ([] ++ [?a; ?b; ?c; ?d] ++ frame)) with frame.
    rewrite bool_decide_true by done. cbn [negb]. by apply triple_feed.
Qed.

Lemma triple_fuzz_run inputs : ∀ N,
  0 ≤ N → N + FRAME_CONNECTS * len inputs < 2 ^ 32 → Forall (λ i, len i.2 + 52 < 2 ^ 32) inputs →
  triple (world_ok N) (fuzz_run srv inputs) (λ _, traced_ok) traced_ok.
Proof.
  unfold fuzz_run. induction inputs as [|[t data] inputs IH]; intros N HN Hb Hi; cbn [for_each].
  - apply triple_ret. by intros w [].
  - apply Forall_cons in Hi as [Hd Hi]. cbn [length fst snd] in *. unfold FRAME_CONNECTS in *.
    eapply triple_bind; [apply triple_fuzz_target; unfold FRAME_CONNECTS; (done || lia)|].
    intros []. apply (IH (N + 129)); unfold FRAME_CONNECTS; (done || lia).
Qed.
End targets.

Lemma fuzz_srv_ok `{Env} toml dir srv :
  toml (fuzz_toml dir) = Some (fuzz_cfg dir) → fuzz_srv toml dir = Some srv → srv_cfg srv = fuzz_cfg dir ∧ srv_ok srv.
Proof.
  intros Ht. unfold fuzz_srv, srv_from_toml. rewrite Ht. cbn [mbind option_bind].
  intros (users & _ & [= <-])%bind_Some. split; [done|]. by constructor.
Qed.


(** ** A run *)
Definition sample_toml (raw : str) : option Config :=
  if bool_decide (raw = fuzz_toml (lit "/s")) then Some (fuzz_cfg (lit "/s")) else None.

Definition sample_inputs : list (Target * bytes) :=
  [(FrameTarget, sample_frame cmd.ECHO 0 0 0 [4; 0; 0; 0]); (TransformTarget, [3; 1; 4; 1; 5]);
   (SpnegoTarget, neg_resp ACCEPT_INCOMPLETE Ntlmssp (lit "hello")); (NtlmTarget, ntlm_sig ++ [3; 0; 0; 0])].


(** The inputs reach the code they are meant for. *)
Lemma sample_run_returns :
  (λ srv, (@fuzz_run mem_env srv sample_inputs sample_world).1) <$> @fuzz_srv mem_env sample_toml (lit "/s") = Some (inl tt).
Proof. by vm_compute. Qed.
